(* ===== verification/_CoqProject ===== *)
-Q . S2P
Prelude.v
Charset.v
Input.v
Code.v
CodeFacts.v
ITree.v
ITreeLazy.v
ITreeAvl.v
ITreeOps.v
ITreeDel.v
ITreeSpec.v
ITreeThms.v
Memo.v
Stack.v
Vm.v
Pattern.v
Compile.v
Peg.v
Prettify.v
Sem.v
PegThms.v
PatternFacts.v
Inline.v
Wf.v
InlineSound.v
Machine.v
Memos.v
Slide.v
Window.v
CompileSpec.v
CompileNodes.v
CompileStruct.v
Trees.v
Operands.v
Labels.v
Total.v
CompileOk.v
Optimize.v
Names.v
CompileThms.v
Encode.v
CompileTotal.v
CaptureHeap.v
CaptureTree.v
Owners.v
MemoHeap.v
Frozen.v
Evict.v
VmStack.v
VmRefine.v
Correct.v
Bounds.v
Packrat.v
Examined.v
Live.v
Lifecycle.v
Release.v
