(* ===== verification/Prelude.v ===== *)
(** * libpeg: verification development (root file)

    libpeg (src/) compiles parsing-expression grammars to programs for an
    LPeg-style parsing machine and reparses edited text incrementally, with a
    memo table kept in an interval tree whose positions are shifted lazily.  This
    library models all of it that computes, file by file, and proves that each
    part keeps its contract and that the parts compose.

    ** The program and its model

    Paths are relative to src/.  A C struct is a Record, a tagged union an
    Inductive, a function a Definition or Fixpoint with the C name.  What a call
    can do besides returning is a value of [res] (below): [Abort] for
    [abort_msg], [Undef] for an execution the C standard does not define (use of
    freed memory, access out of bounds, NULL), [Fuel] for a function written
    with fuel that has not stopped.  Sizes are [Z] with the wrap-around ([u64],
    [u16], [i32], ...) written where the code relies on it or where it could
    happen.

    - include/peg/vm.h, the inline byte-set functions: [Charset].
    - src/vm.c "Input", the 4096-byte window over the subject and the furthest
      byte examined: [Input] ([input_refill], [input_peek], [input_advance],
      [input_seek_to], [input_span]); a subject is a list of bytes.
    - src/vm_code.c, the program builder, the encoder and the two-pass
      pre-decoder: [Code] ([vm_emit_*], [vm_prog_finish], [vm_predecode]).
    - src/interval_tree.c: [ITree].  A node is an [iv_data] and two subtrees; the
      back pointer to the tree is the shift log passed as an argument; the address
      of a group, the handle that survives node moves, is its [loc].
    - src/memo.c, include/peg/memo.h: [Memo].  Captures and memo entries are
      reference-counted objects shared by stack, results and table, so they live
      in a heap [mem] of addresses; reading a freed address is [Undef].
    - src/vm.c, the machine: [Stack] (entries and their capture lists), [Vm] (one
      [exec_*] per opcode, [fail_unwind] for the [fail:] label, [step], [run],
      [vm_exec], [vm_result_free]).  [run] has fuel: one unit per instruction.
    - src/pattern.c, include/peg/pattern.h: [Pattern] (constructors, [get_pat],
      inlining), [Compile] (the instruction list [pir], [compile_pat], grammars
      and tail calls, [pat_optimize], [pat_encode], [pat_compile]), [Prettify].
      A pattern is a tree; the [inlined] pointer of a non-terminal is a copy of
      the leaf definition it points to, which nothing modifies afterwards.
    - src/peg.c: [Peg] ([peg_new], [peg_parse], [peg_edit], [peg_reparse],
      [peg_capture_interval]); the buffer is the bytes in use and a capacity.

    [Prelude] has the integers, outcomes and shared lemmas.

    ** How the parts interact

    [Peg] calls [Pattern]/[Compile], which emit through [Code]; [Vm] reads the
    pre-decoded program and the subject through [Input], keeps its captures in
    [Memo]'s heap, and looks up and stores results in [Memo]'s table, which is an
    [ITree] of entry handles; edits go from [Peg] through [Memo] to [ITree].

    ** What is proved

    Abstract specifications: [Sem] is the big-step meaning of patterns (end
    position and parse trees); [Machine] the parsing machine on instruction lists
    over a flat subject, with an abstract memory of results that may be found
    and of results that may be stored; [ITreeSpec] the key-sorted list of groups, shifted
    eagerly; [CodeFacts] the list of instructions a builder session stands for;
    [Input]'s flat reader.

    - From patterns to runs.  [PatternFacts], [Inline], [Wf], [InlineSound]:
      simplification and inlining terminate and keep the meaning.  [CompileSpec],
      [CompileNodes], [CompileStruct], [CompileOk]: the code of every node does on
      [Machine] what the node means, by induction on the compiler's recursion and,
      inside a grammar, on the depth of calls; [Memos] says which memories the
      code of memoized patterns works with -- an entry of a repeated one stands
      for some iterations, merged -- and [Trees] lists the repetitions with the
      ids the compiler draws for them.  [Optimize]: the peephole pass keeps
      the result; no dead [Nop] is executed.  [CompileThms]: the two composed.
      [Operands], [CodeFacts], [Encode]: the encoded and pre-decoded program is
      the instruction list.
    - The compiler returns.  [Labels] (labels placed once, in range), [Names]
      (every name called is defined), [Total], [CompileTotal]: a well-formed
      resolved pattern compiles, and the code is well typed.
    - Runs.  [CaptureHeap]: a heap is [counted] by the references held from
      outside when every count is the number of references there are;
      [CaptureTree] relates addresses to trees and has the capture API;
      [Owners] says which captures have offsets relative to an entry;
      [MemoHeap] is the table: every entry a result of the memory, positions and
      owners consistent; [Evict] lets entries go, when the table is freed or
      edited.  [VmStack], [VmRefine]: [Vm]
      simulates [Machine]; between instructions the heap is counted by stack,
      table and results held.  [Window]: a run that leaves captures out does
      otherwise the same.  [Correct]: all of it, from [pat_compile] to the
      captures read back through the API and released.  [Packrat]: the same with
      a memo table, run after run, and in a window.  [Slide]: what a pattern matches moves with the
      subject; [Examined]: a run depends only on what it examined, so the entries
      of a run from an empty table stay right under edits outside their extent.
      [Frozen]: a run in a window changes nothing in the table but what it
      evicts before it starts.
      [Lifecycle]: a parser from [peg_new] over parses, growing edits, reparses and
      intervals of subjects not edited since (for [reparsable] patterns, edited),
      and releases to [peg_free], and that a reparse answers what a fresh parse of
      the edited subject does.  [Live]: patterns that have a result on every subject.
      [Bounds]: results lie inside the subject.
    - The interval tree.  [ITreeLazy] (pending shifts never change the view),
      [ITreeAvl] (rotation, rebalancing), [ITreeOps], [ITreeDel] (insertion,
      lookup, deletion of keys and ranges), [ITreeSpec], [ITreeThms]: every call
      refines the sorted list, and the tree stays an AVL tree, for intervals of
      positive length and edits that do not shrink or are drained at once.
    - Parts on their own.  [Charset], [Input], [CodeFacts], [CaptureTree],
      [Prettify] and [PegThms] also state the contracts of byte sets, the reader,
      the codec, the capture API, the printed literals and the buffer.
    - Memory.  [Release]: patterns as the C has them, nodes, strings and arrays at
      addresses: [pctx_cleanup] frees what a compilation made and [pat_free] what
      the constructors made, each block once; [itree_free] frees every node.
    - Where the code does not do what it means to: [PegThms], [ITreeThms] and
      [PatternFacts] evaluate the counterexamples; they are why [Wf.wfp] and the
      growing-edit premise of the tree's refinement ask what they ask.

    ** Fuel

    [get_pat] gets the size of the pattern, inlining one pass per non-terminal
    and one more, [iv_rebalance] the height difference, [vm_charset_count] eight
    steps per word of the set, [grow] 64 doublings and the capture functions one
    more than the number of captures; theorems show each is enough.  The compiler
    gets its fuel as an argument, and [CompileTotal] that [compile_fuel], from
    the pattern's depth, is enough.  So does [run]: a grammar can loop.
    [Correct.pat_compile_exec] states that every large enough fuel gives the
    result of a pattern that has one, [Live] which patterns have one.

    ** Not modelled

    - src/util.c, src/util.h: [xmalloc] and its kin only add an abort when memory
      runs out, which the model never does; [abort_msg] is [Abort].
    - Freeing of programs and inputs ([vm_code_free], [vm_prog_free],
      [vm_input_free]): flat records of arrays, freed one by one, values here.
      What is shared, counted or linked is freed in the model: captures and
      entries, patterns and the compiler's transients, the nodes of the tree.
    - bench/ and tests/ (drivers), and the prototypes of the headers.
    - Reparsing after an edit does not always give what a fresh parse gives: see
      the counterexamples of [PegThms] and [Lifecycle.reparse_stale_capture].
      [Lifecycle.reparse_is_parse] states for which patterns it does: the first
      reparse after a parse, when what is memoized looks ahead only and captures
      nothing (captures around it are free).  A reparse or an interval after a
      second round of edits, or after any edit for other patterns, is not covered
      at all, neither its answer nor its safety: a found entry does not count as
      examined, so the table may hold results of no subject.  Covered is a parse
      after such edits, which starts from an empty table.  Edits that shrink the
      subject are not covered either (see [ITreeThms]). *)
From Stdlib Require Export ZArith Lia Bool.
From stdpp Require Export base tactics numbers option strings gmap.
From stdpp Require Export list.

#[export] Set Default Goal Selector "!".
Global Open Scope Z_scope.

(** ** Machine integers

    [size_t]/[uint64_t], [uint16_t] and [uint8_t] values are integers in range;
    a conversion to a type wraps.  [int] arithmetic is plain [Z] arithmetic
    (signed overflow is undefined in C), and a conversion to [int32_t] or
    [int16_t] wraps the way every supported compiler does. *)
Definition u8 (z : Z) : Z := z `mod` 2 ^ 8.
Definition u16 (z : Z) : Z := z `mod` 2 ^ 16.
Definition u32 (z : Z) : Z := z `mod` 2 ^ 32.
Definition u64 (z : Z) : Z := z `mod` 2 ^ 64.
Definition i16 (z : Z) : Z := (z + 2 ^ 15) `mod` 2 ^ 16 - 2 ^ 15.
Definition i32 (z : Z) : Z := (z + 2 ^ 31) `mod` 2 ^ 32 - 2 ^ 31.

Definition is_byte (z : Z) : Prop := 0 <= z < 256.
Definition is_u64 (z : Z) : Prop := 0 <= z < 2 ^ 64.
Definition is_i32 (z : Z) : Prop := - 2 ^ 31 <= z < 2 ^ 31.

#[export] Instance is_byte_dec z : Decision (is_byte z).
Proof. unfold is_byte. apply _. Defined.
#[export] Instance is_u64_dec z : Decision (is_u64 z).
Proof. unfold is_u64. apply _. Defined.

Create HintDb peg discriminated.
#[export] Hint Constants Transparent : peg.
#[export] Hint Variables Transparent : peg.

Lemma u8_range z : is_byte (u8 z).
Proof. unfold is_byte, u8. apply Z.mod_pos_bound. lia. Qed.
Lemma u64_range z : is_u64 (u64 z).
Proof. unfold is_u64, u64. apply Z.mod_pos_bound. lia. Qed.
Lemma u8_id z : is_byte z → u8 z = z.
Proof. unfold is_byte, u8. intros. apply Z.mod_small. lia. Qed.
Lemma u64_id z : is_u64 z → u64 z = z.
Proof. unfold is_u64, u64. intros. apply Z.mod_small. lia. Qed.
Lemma i32_id z : is_i32 z → i32 z = z.
Proof. unfold is_i32, i32. intros. rewrite Z.mod_small; lia. Qed.
Lemma i16_id z : - 2 ^ 15 <= z < 2 ^ 15 → i16 z = z.
Proof. unfold i16. intros. rewrite Z.mod_small; lia. Qed.

#[export] Hint Resolve u8_range u64_range : peg.
Create Rewrite HintDb peg_int.
#[export] Hint Rewrite u8_id u64_id i32_id i16_id using (unfold is_byte, is_u64, is_i32 in *; lia) : peg_int.

(** ** Outcomes

    What a C function of the library can do besides returning: call
    [abort_msg], execute an operation whose behaviour the C standard does not
    define (an out-of-bounds access, a use of freed memory), or -- for the
    functions written here with fuel -- still be running. *)
Inductive res (A : Type) : Type :=
| Ok (a : A)
| Abort (msg : string)
| Undef
| Fuel.
Arguments Ok {A} a. Arguments Abort {A} msg. Arguments Undef {A}. Arguments Fuel {A}.

#[export] Instance res_ret : MRet res := λ A a, Ok a.
#[export] Instance res_bind : MBind res := λ A B f r,
  match r with Ok a => f a | Abort m => Abort m | Undef => Undef | Fuel => Fuel end.
#[export] Instance res_fmap : FMap res := λ A B f r,
  match r with Ok a => Ok (f a) | Abort m => Abort m | Undef => Undef | Fuel => Fuel end.

(** Reading memory that must be there. *)
Definition must {A} (o : option A) : res A := match o with Some a => Ok a | None => Undef end.

(** [for (i = 0; i < n; i++) f(l[i])] over a threaded state. *)
Fixpoint for_each {A S} (f : A → S → res S) (l : list A) (s : S) : res S :=
  match l with
  | [] => Ok s
  | x :: l => match f x s with Ok s => for_each f l s | Abort m => Abort m | Undef => Undef | Fuel => Fuel end
  end.

Lemma bind_Ok {A B} (f : A → res B) r b : (r ≫= f) = Ok b ↔ ∃ a, r = Ok a ∧ f a = Ok b.
Proof. destruct r; cbn; naive_solver. Qed.
Lemma must_Ok {A} (o : option A) a : must o = Ok a ↔ o = Some a.
Proof. destruct o; cbn; naive_solver. Qed.

(** ** Tactics *)

(** Split a chain of [let]/[bind]s that ended in [Ok]/[Some]. *)
Ltac inv_bind :=
  repeat match goal with
  | H : (_ ≫= _) = Ok _ |- _ => apply bind_Ok in H; destruct H as (? & ? & H)
  | H : (_ ≫= _) = Some _ |- _ => apply bind_Some in H; destruct H as (? & ? & H)
  | H : must _ = Ok _ |- _ => apply must_Ok in H
  | H : Ok _ = Ok _ |- _ => injection H as H
  | H : Some _ = Some _ |- _ => injection H as H
  end.

(** Reduce the outcome monad's plumbing. *)
Ltac cbn_res := cbn [mbind res_bind mret res_ret fmap res_fmap must].

(** Turn boolean comparisons in hypotheses and goal into propositions. *)
Ltac zify_bool :=
  repeat match goal with
  | H : (_ <? _) = true |- _ => apply Z.ltb_lt in H
  | H : (_ <? _) = false |- _ => apply Z.ltb_ge in H
  | H : (_ <=? _) = true |- _ => apply Z.leb_le in H
  | H : (_ <=? _) = false |- _ => apply Z.leb_gt in H
  | H : (_ =? _) = true |- _ => apply Z.eqb_eq in H
  | H : (_ =? _) = false |- _ => apply Z.eqb_neq in H
  | H : (_ && _) = true |- _ => apply andb_true_iff in H; destruct H
  | H : (_ || _) = false |- _ => apply orb_false_iff in H; destruct H
  end.

(** Case on the boolean comparisons of the goal. *)
Ltac case_zb :=
  repeat match goal with
  | |- context [ (?a <? ?b) ] => destruct (Z.ltb_spec a b)
  | |- context [ (?a <=? ?b) ] => destruct (Z.leb_spec a b)
  | |- context [ (?a =? ?b) ] => destruct (Z.eqb_spec a b)
  end.
