(* ===== verification/Charset.v ===== *)
(** * Charset: sets of bytes as 256-bit bitmaps (include/peg/vm.h)

    [vm_charset] is the array [bits[4]] of 64-bit words.  Each inline
    function of the header is one definition; [charset_wf] is its type
    (four in-range words) and [vm_charset_has] gives its meaning. *)
From S2P Require Import Prelude.

Record vm_charset := mk_charset { bits : list Z }.

#[export] Instance vm_charset_eq_dec : EqDecision vm_charset.
Proof. solve_decision. Defined.

Definition charset_wf (s : vm_charset) : Prop :=
  length (bits s) = 4%nat ∧ Forall is_u64 (bits s).

#[export] Instance charset_wf_dec s : Decision (charset_wf s).
Proof. unfold charset_wf. apply _. Defined.

(** [bits[c >> 6]] *)
Definition word_of (s : vm_charset) (c : Z) : Z := bits s !!! Z.to_nat (Z.shiftr c 6).

Definition vm_charset_has (s : vm_charset) (c : Z) : bool :=
  negb (Z.land (Z.shiftr (word_of s c) (Z.land c 63)) 1 =? 0).

Definition vm_charset_set (s : vm_charset) (c : Z) (on : bool) : vm_charset :=
  let bit := u64 (Z.shiftl 1 (Z.land c 63)) in
  let i := Z.to_nat (Z.shiftr c 6) in
  if on then mk_charset (<[i := Z.lor (word_of s c) bit]> (bits s))
  else mk_charset (<[i := Z.land (word_of s c) (u64 (Z.lnot bit))]> (bits s)).

Definition charset_zero : vm_charset := mk_charset [0; 0; 0; 0].

Definition vm_charset_fill (chars : list Z) : vm_charset :=
  fold_left (λ s c, vm_charset_set s c true) chars charset_zero.

Definition vm_charset_range (lo hi : Z) : vm_charset :=
  fold_left (λ s c, vm_charset_set s (u8 c) true) (seqZ lo (hi - lo + 1)) charset_zero.

Definition vm_charset_negate (s : vm_charset) : vm_charset :=
  mk_charset ((λ w, u64 (Z.lnot w)) <$> bits s).

Definition vm_charset_sub (a b : vm_charset) : vm_charset :=
  mk_charset (zip_with (λ x y, Z.land x (u64 (Z.lnot y))) (bits a) (bits b)).

Definition vm_charset_union (a b : vm_charset) : vm_charset :=
  mk_charset (zip_with Z.lor (bits a) (bits b)).

Definition vm_charset_eq (a b : vm_charset) : bool :=
  forallb (λ i, (bits a !!! i) =? (bits b !!! i)) (seq 0 4).

(** The inner loop [while (w) { n += w & 1; w >>= 1; }]. *)
Fixpoint count_word (fuel : nat) (n w : Z) : option Z :=
  if w =? 0 then Some n else
  match fuel with
  | O => None
  | S fuel => count_word fuel (n + Z.land w 1) (Z.shiftr w 1)
  end.

Definition vm_charset_count (s : vm_charset) : option Z :=
  fold_left (λ acc i, n ← acc; count_word 64 n (bits s !!! i)) (seq 0 4) (Some 0).

Arguments vm_charset_has : simpl never.
Arguments vm_charset_set : simpl never.

(** ** Bit-level lemmas *)

Lemma land1_testbit w k : 0 <= k → negb (Z.land (Z.shiftr w k) 1 =? 0) = Z.testbit w k.
Proof.
  intros Hk. change 1 with (Z.ones 1). rewrite Z.land_ones by lia.
  replace (Z.testbit w k) with (Z.testbit (Z.shiftr w k) 0)
    by (rewrite Z.shiftr_spec by lia; f_equal; lia).
  change (2 ^ 1) with 2. rewrite <- Z.bit0_mod. by destruct (Z.testbit _ _).
Qed.

Lemma land63 c : Z.land c 63 = c `mod` 64.
Proof. change 63 with (Z.ones 6). rewrite Z.land_ones by lia. done. Qed.

Lemma has_testbit s c : vm_charset_has s c = Z.testbit (word_of s c) (c `mod` 64).
Proof.
  unfold vm_charset_has. rewrite land63, land1_testbit; [done |].
  apply Z.mod_pos_bound. lia.
Qed.

Lemma u64_testbit z k : 0 <= k < 64 → Z.testbit (u64 z) k = Z.testbit z k.
Proof. intros. unfold u64. apply Z.mod_pow2_bits_low. lia. Qed.

Lemma bit_u64 k : 0 <= k < 64 → u64 (Z.shiftl 1 k) = 2 ^ k.
Proof.
  intros. rewrite Z.shiftl_1_l. apply u64_id. unfold is_u64.
  split; [lia |]. apply Z.pow_lt_mono_r; lia.
Qed.

Lemma is_u64_bits w : is_u64 w ↔ 0 <= w ∧ ∀ k, 64 <= k → Z.testbit w k = false.
Proof.
  split.
  - intros H. split; [unfold is_u64 in H; lia |]. intros k Hk.
    rewrite <- (u64_id w H). unfold u64. apply Z.mod_pow2_bits_high. lia.
  - intros [H0 H]. assert (u64 w = w) as <-; [| apply u64_range].
    apply Z.bits_inj'. intros k Hk. unfold u64.
    destruct (Z.lt_ge_cases k 64).
    + apply Z.mod_pow2_bits_low. lia.
    + rewrite Z.mod_pow2_bits_high by lia. by rewrite H.
Qed.

Lemma is_u64_lor a b : is_u64 a → is_u64 b → is_u64 (Z.lor a b).
Proof.
  rewrite !is_u64_bits. intros [? Ha] [? Hb]. split; [by apply Z.lor_nonneg |].
  intros k Hk. by rewrite Z.lor_spec, Ha, Hb.
Qed.

Lemma is_u64_land a b : is_u64 a → is_u64 b → is_u64 (Z.land a b).
Proof.
  rewrite !is_u64_bits. intros [? Ha] [? Hb]. split; [apply Z.land_nonneg; lia |].
  intros k Hk. by rewrite Z.land_spec, Ha, Hb.
Qed.
#[export] Hint Resolve is_u64_lor is_u64_land : peg.

(** ** The type is preserved *)

Lemma word_index c : is_byte c → (Z.to_nat (Z.shiftr c 6) < 4)%nat.
Proof.
  unfold is_byte. intros. rewrite Z.shiftr_div_pow2 by lia.
  assert (c `div` 2 ^ 6 < 4) by (apply Z.div_lt_upper_bound; lia). lia.
Qed.

Lemma word_of_wf s c : charset_wf s → is_byte c → is_u64 (word_of s c).
Proof.
  intros [Hl Hf] Hc. unfold word_of. eapply Forall_lookup_1; [done |].
  apply list_lookup_lookup_total_lt. rewrite Hl. by apply word_index.
Qed.

Lemma charset_zero_wf : charset_wf charset_zero.
Proof. split; [done |]. repeat constructor; unfold is_u64; lia. Qed.

Lemma vm_charset_set_wf s c on : charset_wf s → is_byte c → charset_wf (vm_charset_set s c on).
Proof.
  intros Hs Hc. pose proof (word_of_wf _ _ Hs Hc). destruct Hs as [Hl Hf].
  unfold vm_charset_set. destruct on; split; cbn; try by rewrite length_insert.
  - apply Forall_insert; auto with peg.
  - apply Forall_insert; auto with peg.
Qed.

Lemma fold_set_wf l s :
  charset_wf s → Forall is_byte l → charset_wf (fold_left (λ s c, vm_charset_set s c true) l s).
Proof.
  revert s. induction l as [|c l IH]; intros s Hs Hl; cbn; [done |].
  inversion Hl; subst. apply IH; [by apply vm_charset_set_wf | done].
Qed.

Lemma zip_words_wf f a b :
  charset_wf a → charset_wf b → (∀ x y, is_u64 x → is_u64 y → is_u64 (f x y)) →
  charset_wf (mk_charset (zip_with f (bits a) (bits b))).
Proof.
  intros [La Fa] [Lb Fb] Hf. split; cbn.
  - rewrite length_zip_with, La, Lb. done.
  - apply Forall_lookup. intros i z. rewrite lookup_zip_with. intros Hz.
    apply bind_Some in Hz as (x & Hx & Hz). apply bind_Some in Hz as (y & Hy & [= <-]).
    apply Hf; [by apply (Forall_lookup_1 _ _ _ _ Fa Hx) | by apply (Forall_lookup_1 _ _ _ _ Fb Hy)].
Qed.

Lemma vm_charset_negate_wf s : charset_wf s → charset_wf (vm_charset_negate s).
Proof.
  intros [L F]. split; cbn; [by rewrite length_fmap |].
  apply Forall_fmap. eapply Forall_impl; [exact F |]. intros. apply u64_range.
Qed.

Lemma vm_charset_sub_wf a b : charset_wf a → charset_wf b → charset_wf (vm_charset_sub a b).
Proof. intros. apply zip_words_wf; auto with peg. Qed.

Lemma vm_charset_union_wf a b : charset_wf a → charset_wf b → charset_wf (vm_charset_union a b).
Proof. intros. apply zip_words_wf; auto with peg. Qed.

Lemma vm_charset_fill_wf chars : Forall is_byte chars → charset_wf (vm_charset_fill chars).
Proof. intros. apply fold_set_wf; auto using charset_zero_wf. Qed.

Lemma seqZ_bytes lo hi : is_byte lo → is_byte hi → Forall is_byte (seqZ lo (hi - lo + 1)).
Proof.
  unfold is_byte. intros. apply Forall_forall. intros c Hc. apply elem_of_seqZ in Hc. lia.
Qed.

Lemma vm_charset_range_eq lo hi :
  is_byte lo → is_byte hi → vm_charset_range lo hi = vm_charset_fill (seqZ lo (hi - lo + 1)).
Proof.
  intros Hlo Hhi. unfold vm_charset_range, vm_charset_fill.
  pose proof (seqZ_bytes lo hi Hlo Hhi) as Hs. revert Hs.
  generalize charset_zero. induction (seqZ lo (hi - lo + 1)) as [|c l IH]; intros s Hs; [done |].
  inversion Hs; subst. cbn. rewrite u8_id by done. by apply IH.
Qed.

#[export] Hint Resolve charset_zero_wf vm_charset_set_wf vm_charset_negate_wf vm_charset_sub_wf
  vm_charset_union_wf vm_charset_fill_wf seqZ_bytes : peg.

(** ** Membership *)

Lemma byte_split c c' : is_byte c → is_byte c' →
  c = c' ↔ Z.shiftr c 6 = Z.shiftr c' 6 ∧ c `mod` 64 = c' `mod` 64.
Proof.
  unfold is_byte. rewrite !Z.shiftr_div_pow2 by lia. change (2 ^ 6) with 64. intros.
  pose proof (Z.div_mod c 64 ltac:(lia)). pose proof (Z.div_mod c' 64 ltac:(lia)).
  split; [by intros -> | intros [? ?]; lia].
Qed.

Lemma word_index_inj c c' : is_byte c → is_byte c' →
  Z.to_nat (Z.shiftr c 6) = Z.to_nat (Z.shiftr c' 6) ↔ Z.shiftr c 6 = Z.shiftr c' 6.
Proof.
  unfold is_byte. intros. assert (0 <= Z.shiftr c 6) by (apply Z.shiftr_nonneg; lia).
  assert (0 <= Z.shiftr c' 6) by (apply Z.shiftr_nonneg; lia). lia.
Qed.

Lemma word_of_set s c on c' : charset_wf s → is_byte c → is_byte c' →
  word_of (vm_charset_set s c on) c' =
  if decide (Z.shiftr c 6 = Z.shiftr c' 6)
  then (if on then Z.lor (word_of s c) (2 ^ (c `mod` 64))
        else Z.land (word_of s c) (u64 (Z.lnot (2 ^ (c `mod` 64)))))
  else word_of s c'.
Proof.
  intros [Hl _] Hc Hc'. unfold vm_charset_set. rewrite land63, bit_u64 by (apply Z.mod_pos_bound; lia).
  unfold word_of at 1. case_decide as Hi.
  - rewrite <- Hi. destruct on; cbn; rewrite list_lookup_total_insert_eq; try done;
      rewrite Hl; by apply word_index.
  - destruct on; cbn; rewrite list_lookup_total_insert_ne; try done; by rewrite word_index_inj.
Qed.

Lemma has_set s c on c' : charset_wf s → is_byte c → is_byte c' →
  vm_charset_has (vm_charset_set s c on) c' = if decide (c = c') then on else vm_charset_has s c'.
Proof.
  intros Hs Hc Hc'. rewrite !has_testbit, word_of_set by done.
  assert (0 <= c `mod` 64 < 64) by (apply Z.mod_pos_bound; lia).
  assert (0 <= c' `mod` 64 < 64) by (apply Z.mod_pos_bound; lia).
  pose proof (byte_split c c' Hc Hc') as Hsp.
  case_decide as Hi.
  - assert (word_of s c = word_of s c') as Hw by (unfold word_of; by rewrite Hi).
    destruct on.
    + rewrite Z.lor_spec, Z.pow2_bits_eqb by lia. rewrite Hw.
      case_decide; [subst; rewrite Z.eqb_refl; by rewrite orb_true_r |].
      destruct (Z.eqb_spec (c `mod` 64) (c' `mod` 64)); [tauto | by rewrite orb_false_r].
    + rewrite Z.land_spec, u64_testbit, Z.lnot_spec, Z.pow2_bits_eqb by lia. rewrite Hw.
      case_decide; [subst; rewrite Z.eqb_refl; by rewrite andb_false_r |].
      destruct (Z.eqb_spec (c `mod` 64) (c' `mod` 64)); [tauto | by rewrite andb_true_r].
  - case_decide; [tauto | done].
Qed.

Lemma has_zero c : is_byte c → vm_charset_has charset_zero c = false.
Proof.
  intros Hc. rewrite has_testbit. unfold word_of, charset_zero. cbn [bits].
  pose proof (word_index c Hc).
  destruct (Z.to_nat (Z.shiftr c 6)) as [|[|[|[|]]]]; cbn; try apply Z.bits_0. lia.
Qed.

Lemma has_fold_set l s c : charset_wf s → Forall is_byte l → is_byte c →
  vm_charset_has (fold_left (λ s c, vm_charset_set s c true) l s) c
  = bool_decide (c ∈ l) || vm_charset_has s c.
Proof.
  revert s. induction l as [|x l IH]; intros s Hs Hl Hc; [done |].
  inversion Hl; subst. cbn [fold_left]. rewrite IH, has_set; auto with peg.
  destruct (decide (x = c)) as [-> | Hne].
  - rewrite orb_true_r. rewrite (bool_decide_true (c ∈ c :: l)) by left. done.
  - f_equal. apply bool_decide_ext. rewrite elem_of_cons. naive_solver.
Qed.

Lemma has_fill chars c : Forall is_byte chars → is_byte c →
  vm_charset_has (vm_charset_fill chars) c = bool_decide (c ∈ chars).
Proof.
  intros. unfold vm_charset_fill. rewrite has_fold_set, has_zero; auto with peg.
  apply orb_false_r.
Qed.

Lemma has_range lo hi c : is_byte lo → is_byte hi → is_byte c →
  vm_charset_has (vm_charset_range lo hi) c = (lo <=? c) && (c <=? hi).
Proof.
  intros. rewrite vm_charset_range_eq, has_fill by auto with peg.
  unfold is_byte in *. case_bool_decide as Hin; rewrite elem_of_seqZ in Hin; case_zb; cbn; lia || done.
Qed.

Lemma word_zip f a b c : charset_wf a → charset_wf b → is_byte c →
  word_of (mk_charset (zip_with f (bits a) (bits b))) c = f (word_of a c) (word_of b c).
Proof.
  intros [La _] [Lb _] Hc. unfold word_of. cbn [bits].
  pose proof (word_index c Hc).
  apply list_lookup_total_correct. rewrite lookup_zip_with.
  rewrite (list_lookup_lookup_total_lt (bits a)), (list_lookup_lookup_total_lt (bits b)) by lia. done.
Qed.

Lemma has_negate s c : charset_wf s → is_byte c →
  vm_charset_has (vm_charset_negate s) c = negb (vm_charset_has s c).
Proof.
  intros [Hl _] Hc. rewrite !has_testbit. unfold word_of, vm_charset_negate. cbn [bits].
  pose proof (word_index c Hc).
  rewrite (list_lookup_total_fmap _ _ _) by lia.
  assert (0 <= c `mod` 64 < 64) by (apply Z.mod_pos_bound; lia).
  rewrite u64_testbit, Z.lnot_spec by lia. done.
Qed.

Lemma has_sub a b c : charset_wf a → charset_wf b → is_byte c →
  vm_charset_has (vm_charset_sub a b) c = vm_charset_has a c && negb (vm_charset_has b c).
Proof.
  intros. rewrite !has_testbit. unfold vm_charset_sub. rewrite word_zip by done.
  assert (0 <= c `mod` 64 < 64) by (apply Z.mod_pos_bound; lia).
  rewrite Z.land_spec, u64_testbit, Z.lnot_spec by lia. done.
Qed.

Lemma has_union a b c : charset_wf a → charset_wf b → is_byte c →
  vm_charset_has (vm_charset_union a b) c = vm_charset_has a c || vm_charset_has b c.
Proof.
  intros. rewrite !has_testbit. unfold vm_charset_union. by rewrite word_zip, Z.lor_spec.
Qed.

(** ** Extensionality and cardinality *)

(** The byte whose bit is bit [k] of word [i]. *)
Lemma word_of_block s i k : 0 <= i < 4 → 0 <= k < 64 →
  vm_charset_has s (64 * i + k) = Z.testbit (bits s !!! Z.to_nat i) k.
Proof.
  intros Hi Hk. rewrite has_testbit. unfold word_of.
  assert (Z.shiftr (64 * i + k) 6 = i) as ->.
  { rewrite Z.shiftr_div_pow2 by lia. change (2 ^ 6) with 64.
    symmetry. apply (Z.div_unique _ _ _ k); lia. }
  f_equal. symmetry. apply (Z.mod_unique _ _ i); lia.
Qed.

Lemma charset_ext a b : charset_wf a → charset_wf b →
  (∀ c, is_byte c → vm_charset_has a c = vm_charset_has b c) → a = b.
Proof.
  intros [La Fa] [Lb Fb] H. destruct a as [a], b as [b]. cbn [bits] in *. f_equal.
  apply list_eq_same_length with (n := 4%nat); [done..|]. intros i x y Hi Hx Hy.
  pose proof (Forall_lookup_1 _ _ _ _ Fa Hx) as Ux. pose proof (Forall_lookup_1 _ _ _ _ Fb Hy) as Uy.
  apply is_u64_bits in Ux as [? Ux], Uy as [? Uy].
  apply Z.bits_inj'. intros k Hk. destruct (Z.lt_ge_cases k 64); [| by rewrite Ux, Uy].
  specialize (H (64 * Z.of_nat i + k)). unfold is_byte in H.
  rewrite !word_of_block in H by lia. cbn [bits] in H. rewrite Nat2Z.id in H.
  rewrite (list_lookup_total_correct a i x), (list_lookup_total_correct b i y) in H by done.
  apply H. lia.
Qed.

Lemma vm_charset_eq_spec a b : charset_wf a → charset_wf b → vm_charset_eq a b = true ↔ a = b.
Proof.
  intros [La _] [Lb _]. destruct a as [a], b as [b]. unfold vm_charset_eq. cbn [bits] in *.
  destruct a as [|a0 [|a1 [|a2 [|a3 [|]]]]]; try done.
  destruct b as [|b0 [|b1 [|b2 [|b3 [|]]]]]; try done. cbn.
  rewrite !andb_true_iff, !Z.eqb_eq. split; [naive_solver | intros [=]; subst; tauto].
Qed.

Definition ones_below (n : nat) (w : Z) : Z :=
  Z.of_nat (length (filter (λ k, Z.testbit w k = true) (seqZ 0 (Z.of_nat n)))).

Lemma filter_fmap_length {A B} (f : A → B) (P : B → Prop) (Q : A → Prop)
  `{!∀ x, Decision (P x), !∀ x, Decision (Q x)} l :
  (∀ x, x ∈ l → P (f x) ↔ Q x) → length (filter P (f <$> l)) = length (filter Q l).
Proof.
  induction l as [|x l IH]; intros Hpq; [done |]. rewrite fmap_cons, !filter_cons.
  assert (length (filter P (f <$> l)) = length (filter Q l)) by (apply IH; intros; apply Hpq; by right).
  pose proof (Hpq x ltac:(left)). repeat case_decide; cbn; tauto || lia.
Qed.

Lemma ones_below_S n w : ones_below (S n) w = Z.b2z (Z.odd w) + ones_below n (Z.shiftr w 1).
Proof.
  unfold ones_below. rewrite (seqZ_cons 0) by lia. rewrite filter_cons.
  replace (Z.of_nat (S n)) with (Z.of_nat n + 1) by lia.
  rewrite Z.bit0_odd. replace (Z.pred (Z.of_nat n + 1)) with (Z.of_nat n) by lia.
  change (Z.succ 0) with (0 + 1). rewrite <- (fmap_add_seqZ 1 0).
  assert (length (filter (λ k, Z.testbit w k = true) (Z.add 1 <$> seqZ 0 (Z.of_nat n)))
    = length (filter (λ k, Z.testbit (Z.shiftr w 1) k = true) (seqZ 0 (Z.of_nat n)))) as Hlen.
  { apply filter_fmap_length. intros k Hk%elem_of_seqZ.
    rewrite Z.shiftr_spec by lia. by rewrite Z.add_comm. }
  case_decide as Ho; [rewrite Ho | destruct (Z.odd w); [done |]]; cbn [length Z.b2z]; lia.
Qed.

Lemma ones_below_0 n : ones_below n 0 = 0.
Proof.
  unfold ones_below. induction (seqZ 0 (Z.of_nat n)) as [|k l IH]; [done |].
  rewrite filter_cons_False; [done |]. by rewrite Z.bits_0.
Qed.

Lemma land1_odd w : Z.land w 1 = Z.b2z (Z.odd w).
Proof.
  change 1 with (Z.ones 1). rewrite Z.land_ones by lia. change (2 ^ 1) with 2.
  rewrite Zmod_odd. by destruct (Z.odd w).
Qed.

(** The popcount loop terminates within one iteration per bit. *)
Lemma count_word_spec fuel n w :
  0 <= w < 2 ^ Z.of_nat fuel → count_word fuel n w = Some (n + ones_below fuel w).
Proof.
  revert n w. induction fuel as [|fuel IH]; intros n w Hw.
  - assert (w = 0) as -> by (change (2 ^ Z.of_nat 0) with 1 in Hw; lia). cbn [count_word Z.eqb]. by rewrite ones_below_0, Z.add_0_r.
  - cbn [count_word]. destruct (Z.eqb_spec w 0) as [-> | Hne].
    { f_equal. rewrite ones_below_0. lia. }
    rewrite IH.
    + f_equal. rewrite ones_below_S, land1_odd. lia.
    + rewrite Z.shiftr_div_pow2 by lia. rewrite Nat2Z.inj_succ, Z.pow_succ_r in Hw by lia.
      change (2 ^ 1) with 2. split; [apply Z.div_pos; lia | apply Z.div_lt_upper_bound; lia].
Qed.

(** The bytes of a set, in increasing order. *)
Definition members (s : vm_charset) : list Z := filter (λ c, vm_charset_has s c = true) (seqZ 0 256).

Lemma members_block s i : 0 <= i < 4 →
  Z.of_nat (length (filter (λ c, vm_charset_has s c = true) (seqZ (64 * i) 64)))
  = ones_below 64 (bits s !!! Z.to_nat i).
Proof.
  intros Hi. unfold ones_below. f_equal. rewrite <- (Z.add_0_r (64 * i)) at 1.
  rewrite <- (fmap_add_seqZ (64 * i) 0). apply filter_fmap_length.
  intros k Hk%elem_of_seqZ. rewrite word_of_block by lia. done.
Qed.

Lemma count_members s : charset_wf s →
  vm_charset_count s = Some (Z.of_nat (length (members s))).
Proof.
  intros [Hl Hf]. unfold vm_charset_count. cbn [seq fold_left mbind option_bind].
  assert (∀ i, (i < 4)%nat → 0 <= bits s !!! i < 2 ^ Z.of_nat 64) as Hw.
  { intros i Hi. apply (Forall_lookup_1 _ _ i _ Hf), list_lookup_lookup_total_lt. lia. }
  do 4 (rewrite count_word_spec by (apply Hw; lia); cbn [mbind option_bind]). f_equal.
  unfold members.
  change (seqZ 0 256) with (seqZ (64 * 0) 64 ++ seqZ (64 * 1) 64 ++ seqZ (64 * 2) 64 ++ seqZ (64 * 3) 64).
  rewrite !filter_app, !length_app, !Nat2Z.inj_add, !members_block by lia. 
  change (Z.to_nat 0) with 0%nat. change (Z.to_nat 1) with 1%nat.
  change (Z.to_nat 2) with 2%nat. change (Z.to_nat 3) with 3%nat. lia.
Qed.

(** C30. The popcount loop of [vm_charset_count] terminates on every word and
    counts the members: the number of bytes [c] with [vm_charset_has s c]. *)
Theorem vm_charset_count_spec s : charset_wf s →
  vm_charset_count s = Some (Z.of_nat (length (members s))).
Proof. apply count_members. Qed.

(** ** The component's contract *)

(** C19. Byte sets mean what their operations say: on well-formed operands
    [vm_charset_set], [fill], [range], [negate], [sub] and [union] return
    well-formed sets whose membership is pointwise update, list membership,
    interval membership, complement, difference and union; and [vm_charset_eq]
    decides equality of membership. *)
Theorem charset_ops_spec (a b : vm_charset) (chars : list Z) (lo hi c : Z) (on : bool) :
  charset_wf a → charset_wf b → Forall is_byte chars → is_byte lo → is_byte hi → is_byte c →
  (charset_wf (vm_charset_set a c on) ∧
   ∀ x, is_byte x → vm_charset_has (vm_charset_set a c on) x = if decide (c = x) then on else vm_charset_has a x) ∧
  (charset_wf (vm_charset_fill chars) ∧
   ∀ x, is_byte x → vm_charset_has (vm_charset_fill chars) x = bool_decide (x ∈ chars)) ∧
  (∀ x, is_byte x → vm_charset_has (vm_charset_range lo hi) x = (lo <=? x) && (x <=? hi)) ∧
  (charset_wf (vm_charset_negate a) ∧
   ∀ x, is_byte x → vm_charset_has (vm_charset_negate a) x = negb (vm_charset_has a x)) ∧
  (charset_wf (vm_charset_sub a b) ∧
   ∀ x, is_byte x → vm_charset_has (vm_charset_sub a b) x = vm_charset_has a x && negb (vm_charset_has b x)) ∧
  (charset_wf (vm_charset_union a b) ∧
   ∀ x, is_byte x → vm_charset_has (vm_charset_union a b) x = vm_charset_has a x || vm_charset_has b x) ∧
  (vm_charset_eq a b = true ↔ ∀ x, is_byte x → vm_charset_has a x = vm_charset_has b x).
Proof.
  intros Ha Hb Hch Hlo Hhi Hc. rewrite vm_charset_eq_spec by done.
  split_and!; auto using vm_charset_set_wf with peg; intros;
    auto using has_set, has_fill, has_range, has_negate, has_sub, has_union.
  split; [by intros -> | by apply charset_ext].
Qed.

Lemma charset_ops_spec_witness :
  charset_wf (vm_charset_range 48 57) ∧ charset_wf (vm_charset_fill [95]) ∧
  vm_charset_has (vm_charset_union (vm_charset_range 48 57) (vm_charset_fill [95])) 95 = true ∧
  vm_charset_has (vm_charset_sub (vm_charset_range 48 57) (vm_charset_fill [50])) 50 = false.
Proof.
  assert (charset_wf (vm_charset_range 48 57)) as Ha by (apply (bool_decide_eq_true_1 _); vm_compute; reflexivity).
  assert (charset_wf (vm_charset_fill [95])) as Hb by (apply (bool_decide_eq_true_1 _); vm_compute; reflexivity).
  assert (charset_wf (vm_charset_fill [50])) as Hd by (apply (bool_decide_eq_true_1 _); vm_compute; reflexivity).
  destruct (charset_ops_spec (vm_charset_range 48 57) (vm_charset_fill [95]) [] 0 0 0 true Ha Hb)
    as (_ & _ & _ & _ & _ & [_ Hu] & _); [constructor | unfold is_byte; lia.. |].
  destruct (charset_ops_spec (vm_charset_range 48 57) (vm_charset_fill [50]) [] 0 0 0 true Ha Hd)
    as (_ & _ & _ & _ & [_ Hs] & _ & _); [constructor | unfold is_byte; lia.. |].
  split_and!; [done | done | |].
  - rewrite Hu by (unfold is_byte; lia). vm_compute. reflexivity.
  - rewrite Hs by (unfold is_byte; lia). vm_compute. reflexivity.
Defined.

Lemma vm_charset_count_spec_witness :
  vm_charset_count (vm_charset_range 48 57) = Some (Z.of_nat (length (members (vm_charset_range 48 57)))) ∧
  length (members (vm_charset_range 48 57)) = 10%nat.
Proof.
  split; [| vm_compute; reflexivity]. apply vm_charset_count_spec. apply (bool_decide_eq_true_1 _). vm_compute. reflexivity.
Defined.
