(* ===== verification/Input.v ===== *)
(** * Input: the chunk-cached subject reader (src/vm.c, "Input")

    [vm_input] is a 4 KB window over the flat subject, together with the
    read offset inside the window and the furthest position ever peeked.
    The second half proves that the window is invisible: every operation
    refines the obvious one on a flat subject and a position. *)
From S2P Require Import Prelude Charset.

Definition INPUT_CHUNK : Z := 4096.

(** [None] in [chunk] is an indeterminate byte of the [malloc]ed array. *)
Record vm_input := mk_input {
  data : list Z;
  len : Z;
  chunk : list (option Z);
  nchunk : Z;
  base : Z;
  coff : Z;
  furthest : Z;
}.

(** [memcpy(dst, src, n)] for a [src] of exactly [n] determinate bytes. *)
Definition copy_in (dst : list (option Z)) (src : list Z) : list (option Z) :=
  (Some <$> src) ++ drop (length src) dst.

Definition slice (d : list Z) (from n : Z) : list Z := take (Z.to_nat n) (drop (Z.to_nat from) d).

Definition vm_input_new (d : list Z) : vm_input :=
  let n := if Z.of_nat (length d) <? INPUT_CHUNK then Z.of_nat (length d) else INPUT_CHUNK in
  {| data := d; len := Z.of_nat (length d);
     chunk := copy_in (replicate (Z.to_nat INPUT_CHUNK) None) (slice d 0 n);
     nchunk := n; base := 0; coff := 0; furthest := 0 |}.

Definition input_refill (i : vm_input) (pos : Z) : vm_input :=
  let avail := if pos <? len i then len i - pos else 0 in
  let n := if avail <? INPUT_CHUNK then avail else INPUT_CHUNK in
  {| data := data i; len := len i;
     chunk := if 0 <? n then copy_in (chunk i) (slice (data i) pos n) else chunk i;
     nchunk := n; base := pos; coff := 0; furthest := furthest i |}.

Definition vm_input_pos (i : vm_input) : Z := i32 (base i + coff i).

Definition vm_input_furthest (i : vm_input) : Z := furthest i.

Definition set_furthest (i : vm_input) (f : Z) : vm_input :=
  {| data := data i; len := len i; chunk := chunk i; nchunk := nchunk i;
     base := base i; coff := coff i; furthest := f |}.

Definition set_coff (i : vm_input) (c : Z) : vm_input :=
  {| data := data i; len := len i; chunk := chunk i; nchunk := nchunk i;
     base := base i; coff := c; furthest := furthest i |}.

Definition vm_input_reset_furthest (i : vm_input) : vm_input := set_furthest i 0.

(** [chunk[k]], a read that must hit a determinate byte of the array. *)
Definition chunk_at (i : vm_input) (k : Z) : res Z := must (chunk i !! Z.to_nat k ≫= id).

(** The returned byte is [None] where the C function returns [false]. *)
Definition input_peek (i : vm_input) : res (option Z * vm_input) :=
  let pos := u64 (base i + coff i) in
  let i := if furthest i <? i32 pos then set_furthest i (i32 pos) else i in
  if (nchunk i =? 0) || (nchunk i <=? coff i) then mret (None, i)
  else b ← chunk_at i (coff i); mret (Some b, i).

Definition input_advance (i : vm_input) (n : Z) : bool * vm_input :=
  let pos := u64 (base i + coff i + u64 n) in
  let i := set_coff i (u64 (coff i + u64 n)) in
  let i := if nchunk i <=? coff i then input_refill i pos else i in
  (pos <=? len i, i).

Definition input_seek_to (i : vm_input) (pos : Z) : vm_input :=
  let chunk_end := u64 (base i + nchunk i) in
  if (u64 pos <? chunk_end) && (base i <=? u64 pos)
  then set_coff i (u64 pos - base i)
  else input_refill i (u64 pos).

(** The inner loop of [input_span]: advance [coff] while the cached byte is
    in the set.  [fuel] bounds the bytes left in the chunk. *)
Fixpoint span_chunk (fuel : nat) (set : vm_charset) (i : vm_input) : res vm_input :=
  if coff i <? nchunk i then
    b ← chunk_at i (coff i);
    if vm_charset_has set b then
      match fuel with
      | O => Fuel
      | S fuel => span_chunk fuel set (set_coff i (coff i + 1))
      end
    else mret i
  else mret i.

Fixpoint input_span (fuel : nat) (set : vm_charset) (i : vm_input) : res vm_input :=
  i ← span_chunk (Z.to_nat (nchunk i - coff i)) set i;
  let pos := i32 (base i + coff i) in
  let i := if furthest i <? pos then set_furthest i pos else i in
  if (coff i <? nchunk i) || (nchunk i =? 0) then mret i
  else match fuel with
       | O => Fuel
       | S fuel => input_span fuel set (input_refill i (base i + coff i))
       end.

(** ** Specification: a flat subject, a position, a furthest mark *)

Definition pos_of (i : vm_input) : Z := base i + coff i.

Definition byte_at (d : list Z) (p : Z) : option Z := if p <? 0 then None else d !! Z.to_nat p.

(** Number of bytes of the longest run of [set] at the head of [d]. *)
Fixpoint run_length (set : vm_charset) (d : list Z) : Z :=
  match d with
  | [] => 0
  | b :: d => if vm_charset_has set b then 1 + run_length set d else 0
  end.

(** The window invariant, and the bound that makes [int] positions exact. *)
Record input_ok (i : vm_input) : Prop := {
  ok_len : len i = Z.of_nat (length (data i));
  ok_small : len i < 2 ^ 30;
  ok_base : 0 <= base i;
  ok_coff : 0 <= coff i;
  ok_pos : base i + coff i < 2 ^ 31;
  ok_array : length (chunk i) = Z.to_nat INPUT_CHUNK;
  ok_nchunk : nchunk i = Z.min INPUT_CHUNK (Z.max 0 (len i - base i));
  ok_in : coff i < nchunk i ∨ nchunk i = 0 ∧ coff i = 0;
  ok_cache : ∀ k, 0 <= k < nchunk i → chunk i !! Z.to_nat k = Some (byte_at (data i) (base i + k));
}.

(** [i] is a cached view of subject [d] at position [p] with mark [f]. *)
Definition input_rep (i : vm_input) (d : list Z) (p f : Z) : Prop :=
  input_ok i ∧ data i = d ∧ pos_of i = p ∧ furthest i = f.

Arguments INPUT_CHUNK : simpl never.
Arguments u64 : simpl never.
Arguments i32 : simpl never.

(** ** The window is invisible *)

Lemma u64_small z : 0 <= z < 2 ^ 64 → u64 z = z.
Proof. apply u64_id. Qed.
Lemma i32_small z : 0 <= z < 2 ^ 31 → i32 z = z.
Proof. intros. apply i32_id. unfold is_i32. lia. Qed.

Lemma slice_lookup d from n k :
  0 <= from → 0 <= k < n → slice d from n !! Z.to_nat k = byte_at d (from + k).
Proof.
  intros. unfold slice, byte_at. destruct (Z.ltb_spec (from + k) 0); [lia |].
  rewrite lookup_take_lt by lia. rewrite lookup_drop. f_equal. lia.
Qed.

Lemma length_slice d from n :
  0 <= from → 0 <= n → from + n <= Z.of_nat (length d) → length (slice d from n) = Z.to_nat n.
Proof. intros. unfold slice. rewrite length_take, length_drop. lia. Qed.

Lemma length_copy_in dst src : (length src <= length dst)%nat → length (copy_in dst src) = length dst.
Proof. intros. unfold copy_in. rewrite length_app, length_fmap, length_drop. lia. Qed.

Lemma copy_in_lookup dst src (k : nat) :
  (k < length src)%nat → copy_in dst src !! k = Some (src !! k).
Proof.
  intros Hk. unfold copy_in. rewrite lookup_app_l by (by rewrite length_fmap).
  rewrite list_lookup_fmap. destruct (src !! k) eqn:E; [done |].
  apply lookup_ge_None in E. lia.
Qed.

(** Any well-sized reader, refilled at [pos], is a view of the subject at [pos]. *)
Lemma input_refill_rep i pos :
  len i = Z.of_nat (length (data i)) → len i < 2 ^ 30 → length (chunk i) = Z.to_nat INPUT_CHUNK →
  0 <= pos < 2 ^ 31 → input_rep (input_refill i pos) (data i) pos (furthest i).
Proof.
  intros Hlen Hsm Harr Hpos. unfold input_refill.
  set (avail := if pos <? len i then len i - pos else 0).
  assert (avail = Z.max 0 (len i - pos)) as Hav by (unfold avail; case_zb; lia).
  set (n := if avail <? INPUT_CHUNK then avail else INPUT_CHUNK).
  assert (n = Z.min INPUT_CHUNK avail) as Hn by (unfold n; case_zb; lia).
  assert (INPUT_CHUNK = 4096) as Hc by done.
  assert (0 < n → length (slice (data i) pos n) = Z.to_nat n) as Hsl
    by (intros; apply length_slice; lia).
  repeat split; cbn; try lia.
  - case_zb; [| done]. rewrite length_copy_in; [done |]. rewrite Hsl; lia.
  - intros k Hk. destruct (Z.ltb_spec 0 n); [| lia].
    rewrite copy_in_lookup by (rewrite Hsl; lia). by rewrite slice_lookup by lia.
  - unfold pos_of. cbn. lia.
Qed.

Lemma vm_input_new_rep d : Z.of_nat (length d) < 2 ^ 30 → input_rep (vm_input_new d) d 0 0.
Proof.
  intros Hd.
  pose proof (input_refill_rep {| data := d; len := Z.of_nat (length d);
    chunk := replicate (Z.to_nat INPUT_CHUNK) None; nchunk := 0; base := 0; coff := 0; furthest := 0 |} 0) as H.
  cbn [data len chunk furthest] in H.
  replace (vm_input_new d) with (input_refill {| data := d; len := Z.of_nat (length d);
    chunk := replicate (Z.to_nat INPUT_CHUNK) None; nchunk := 0; base := 0; coff := 0; furthest := 0 |} 0);
    [apply H; try done; try lia; by rewrite length_replicate |].
  unfold input_refill, vm_input_new. cbn [data len chunk furthest]. rewrite Z.sub_0_r.
  destruct d as [|b d]; [done |].
  destruct (Z.ltb_spec 0 (Z.of_nat (length (b :: d)))) as [| Hl]; [| cbn in Hl; lia].
  case_zb; try done; cbn in *; lia.
Qed.

Lemma set_furthest_rep i d p f g : input_rep i d p f → input_rep (set_furthest i g) d p g.
Proof. intros ([] & <- & <- & <-). by repeat split. Qed.

(** [if (pos > i->furthest) i->furthest = pos;] *)
Lemma bump_furthest_rep i d p f :
  input_rep i d p f → input_rep (if furthest i <? p then set_furthest i p else i) d p (Z.max f p).
Proof.
  intros Hr. assert (furthest i = f) as Hf by apply Hr. case_zb.
  - replace (Z.max f p) with p by lia. by eapply set_furthest_rep.
  - by replace (Z.max f p) with f by lia.
Qed.

Lemma vm_input_pos_spec i d p f : input_rep i d p f → vm_input_pos i = p.
Proof.
  intros (Ho & <- & <- & <-). unfold vm_input_pos, pos_of. destruct Ho.
  apply i32_small. lia.
Qed.

Lemma byte_at_past d p : Z.of_nat (length d) <= p → byte_at d p = None.
Proof. intros. unfold byte_at. case_zb; [done |]. apply lookup_ge_None. lia. Qed.

Lemma byte_at_in d p : 0 <= p < Z.of_nat (length d) → is_Some (byte_at d p).
Proof. intros. unfold byte_at. case_zb; [lia |]. apply lookup_lt_is_Some. lia. Qed.

Lemma byte_at_Some d p b : byte_at d p = Some b → 0 <= p < Z.of_nat (length d).
Proof.
  unfold byte_at. case_zb; [done |]. intros Hb%lookup_lt_Some. lia.
Qed.

(** Reading the chunk inside the window yields the subject's byte. *)
Lemma chunk_at_ok i : input_ok i → coff i < nchunk i →
  ∃ b, byte_at (data i) (pos_of i) = Some b ∧ chunk_at i (coff i) = Ok b.
Proof.
  intros Ho Hc. destruct Ho. destruct (byte_at_in (data i) (pos_of i)) as [b Hb].
  { unfold pos_of. lia. }
  exists b. split; [done |]. unfold chunk_at. rewrite ok_cache0 by lia.
  unfold pos_of in Hb. cbn. by rewrite Hb.
Qed.

Lemma window_end i : input_ok i → nchunk i = 0 ∨ nchunk i <= coff i → byte_at (data i) (pos_of i) = None.
Proof.
  intros [] Hn. apply byte_at_past. unfold pos_of, INPUT_CHUNK in *. lia.
Qed.

Lemma input_peek_spec i d p f : input_rep i d p f →
  ∃ i', input_peek i = Ok (byte_at d p, i') ∧ input_rep i' d p (Z.max f p).
Proof.
  intros (Ho & <- & <- & <-). unfold input_peek.
  assert (u64 (base i + coff i) = pos_of i ∧ i32 (pos_of i) = pos_of i) as [-> ->].
  { unfold pos_of. destruct Ho. split; [apply u64_small | apply i32_small]; lia. }
  set (i1 := if furthest i <? pos_of i then set_furthest i (pos_of i) else i).
  assert (input_rep i1 (data i) (pos_of i) (Z.max (furthest i) (pos_of i))) as Hrep.
  { by apply bump_furthest_rep. }
  exists i1. split; [| done]. destruct Hrep as (Ho1 & Hd1 & Hp1 & _).
  destruct ((nchunk i1 =? 0) || (nchunk i1 <=? coff i1)) eqn:E.
  - rewrite <- Hd1, <- Hp1, window_end; [done..|].
    apply orb_true_iff in E as [E | E]; zify_bool; lia.
  - zify_bool. destruct (chunk_at_ok i1) as (b & Hb & ->); [done | lia |].
    rewrite <- Hd1, <- Hp1, Hb. done.
Qed.

Lemma input_advance_spec i d p f n : input_rep i d p f → 0 <= n → p + n < 2 ^ 31 →
  (input_advance i n).1 = (p + n <=? Z.of_nat (length d)) ∧ input_rep (input_advance i n).2 d (p + n) f.
Proof.
  intros (Ho & <- & <- & <-) Hn Hp. pose proof Ho as []. unfold input_advance, pos_of in *.
  rewrite (u64_small n), (u64_small (coff i + n)), (u64_small (base i + coff i + n)) by lia.
  cbn [nchunk coff set_coff]. destruct (Z.leb_spec (nchunk i) (coff i + n)) as [Hc | Hc]; cbn [fst snd].
  - split; [cbn; f_equal; lia |].
    eapply (input_refill_rep (set_coff i (coff i + n))); cbn; try done; lia.
  - split; [cbn; f_equal; lia |]. repeat split; cbn; try done; unfold pos_of; cbn; lia.
Qed.

Lemma input_seek_to_spec i d p f q : input_rep i d p f → 0 <= q < 2 ^ 31 →
  input_rep (input_seek_to i q) d q f.
Proof.
  intros (Ho & <- & <- & <-) Hq. pose proof Ho as []. unfold input_seek_to.
  assert (0 <= nchunk i <= INPUT_CHUNK) by (unfold INPUT_CHUNK in *; lia).
  assert (INPUT_CHUNK = 4096) by done.
  rewrite (u64_small q), (u64_small (base i + nchunk i)) by lia.
  destruct ((q <? base i + nchunk i) && (base i <=? q)) eqn:E.
  - zify_bool. repeat split; cbn; try done; unfold pos_of; cbn; lia.
  - by apply input_refill_rep.
Qed.

(** Length of the run of [set] starting at [p]. *)
Definition run_at (set : vm_charset) (d : list Z) (p : Z) : Z := run_length set (drop (Z.to_nat p) d).

Lemma run_length_bounds set d : 0 <= run_length set d <= Z.of_nat (length d).
Proof. induction d as [|b d IH]; cbn; [lia |]. destruct (vm_charset_has _ _); lia. Qed.

Lemma run_at_bounds set d p : 0 <= p →
  0 <= run_at set d p ∧ p + run_at set d p <= Z.max p (Z.of_nat (length d)).
Proof.
  intros. unfold run_at. pose proof (run_length_bounds set (drop (Z.to_nat p) d)) as Hb.
  rewrite length_drop in Hb. lia.
Qed.

Lemma run_at_step set d p : 0 <= p →
  run_at set d p = match byte_at d p with
                   | Some b => if vm_charset_has set b then 1 + run_at set d (p + 1) else 0
                   | None => 0 end.
Proof.
  intros Hp. unfold run_at, byte_at. case_zb; [lia |].
  destruct (d !! Z.to_nat p) as [b|] eqn:E.
  - rewrite (drop_S _ b) by done. replace (Z.to_nat (p + 1)) with (S (Z.to_nat p)) by lia. done.
  - apply lookup_ge_None in E. by rewrite drop_ge.
Qed.

Lemma set_coff_rep i d p f k : input_rep i d p f → 0 <= k → coff i + k < nchunk i →
  input_rep (set_coff i (coff i + k)) d (p + k) f.
Proof.
  intros (Ho & <- & <- & <-) Hk Hlt. destruct Ho. unfold pos_of in *.
  repeat split; cbn; try done; try lia.
  unfold pos_of; cbn; lia.
Qed.

(** The inner loop stops inside the window at the end of the run, or with
    the window exhausted while the run may go on. *)
Lemma span_chunk_spec fuel set i d p f :
  input_rep i d p f → (Z.to_nat (nchunk i - coff i) <= fuel)%nat →
  ∃ k, 0 <= k ∧ span_chunk fuel set i = Ok (set_coff i (coff i + k)) ∧
    run_at set d p = k + run_at set d (p + k) ∧
    (coff i + k < nchunk i ∧ run_at set d (p + k) = 0 ∨ coff i + k = Z.max (coff i) (nchunk i)).
Proof.
  revert i p. induction fuel as [|fuel IH]; intros i p Hr Hf;
    pose proof Hr as (Ho & Hd & Hp & Hfu);
    assert (set_coff i (coff i + 0) = i) as H0 by (rewrite Z.add_0_r; by destruct i);
    cbn [span_chunk]; destruct (Z.ltb_spec (coff i) (nchunk i)) as [Hc | Hc];
    try lia; try by (exists 0; rewrite H0, Z.add_0_r; repeat split; lia).
  destruct (chunk_at_ok i Ho Hc) as (b & Hb & ->). cbn [mbind res_bind].
  assert (0 <= p) by (destruct Ho; unfold pos_of in Hp; lia).
  rewrite Hd, Hp in Hb. pose proof (run_at_step set d p ltac:(lia)) as Hstep. rewrite Hb in Hstep.
  destruct (vm_charset_has set b).
  - destruct (decide (coff i + 1 < nchunk i)) as [Hlt | Hge].
    + destruct (IH (set_coff i (coff i + 1)) (p + 1)) as (k & Hk & He & Hrun & Hend).
      { apply set_coff_rep; [done | lia..]. }
      { cbn. lia. }
      exists (1 + k). cbn in *. rewrite He.
      replace (coff i + (1 + k)) with (coff i + 1 + k) by lia.
      replace (p + (1 + k)) with (p + 1 + k) by lia.
      split_and!; [lia | done | lia | lia].
    + exists 1. split_and!; [lia | | lia | lia].
      destruct fuel; cbn; destruct (Z.ltb_spec (coff i + 1) (nchunk i)); done || lia.
  - exists 0. rewrite H0, Z.add_0_r. split_and!; [lia | done | lia | lia].
Qed.

Lemma refill_set_coff i c q : input_refill (set_coff i c) q = input_refill i q.
Proof. done. Qed.

Lemma input_span_spec fuel set i d p f :
  input_rep i d p f → (Z.to_nat (Z.of_nat (length d) - p) < fuel)%nat →
  ∃ i', input_span fuel set i = Ok i' ∧
    input_rep i' d (p + run_at set d p) (Z.max f (p + run_at set d p)).
Proof.
  revert i p f. induction fuel as [|fuel IH]; intros i p f Hr Hf; [lia |].
  pose proof Hr as (Ho & Hd & Hp & Hfu). pose proof Ho as []. unfold pos_of in Hp.
  assert (INPUT_CHUNK = 4096) as Hc by done.
  destruct (span_chunk_spec (Z.to_nat (nchunk i - coff i)) set i d p f Hr) as (k & Hk & He & Hrun & Hend); [lia |].
  cbn [input_span]. rewrite He. cbn [mbind res_bind].
  set (i1 := set_coff i (coff i + k)).
  assert (i32 (base i1 + coff i1) = p + k) as -> by (cbn; rewrite i32_small; lia).
  set (i2 := if furthest i1 <? p + k then _ else _).
  assert (coff i2 = coff i + k ∧ nchunk i2 = nchunk i ∧ base i2 = base i) as (Hc2 & Hn2 & Hb2)
    by (unfold i2; case_zb; done).
  rewrite Hc2, Hn2, Hb2.
  destruct (decide (nchunk i = 0)) as [Hz | Hnz].
  - (* past the end of the subject *)
    assert (k = 0) as -> by lia. rewrite Hz, orb_true_r.
    assert (run_at set d p = 0) as Hrun0.
    { rewrite run_at_step, <- Hd by lia. rewrite byte_at_past; [done | lia]. }
    exists i2. split; [done |]. rewrite Hrun0. apply bump_furthest_rep.
    replace (p + 0) with p by lia. unfold i1. rewrite Z.add_0_r. by destruct i.
  - destruct (Z.ltb_spec (coff i + k) (nchunk i)) as [Hin | Hout].
    + exists i2. split; [done |]. replace (run_at set d p) with k by lia.
      apply bump_furthest_rep. by apply set_coff_rep.
    + assert (coff i + k = nchunk i) by lia.
      destruct (Z.eqb_spec (nchunk i) 0) as [|_]; [lia |]. cbn [orb].
      assert (input_refill i2 (base i + (coff i + k))
        = set_furthest (input_refill i (p + k)) (Z.max f (p + k))) as ->.
      { unfold i2. replace (base i + (coff i + k)) with (p + k) by lia.
        cbn [furthest i1 set_coff]. rewrite Hfu. case_zb; unfold input_refill, set_furthest; cbn; f_equal; lia. }
      destruct (IH (set_furthest (input_refill i (p + k)) (Z.max f (p + k))) (p + k) (Z.max f (p + k)))
        as (i' & He' & Hr').
      * eapply set_furthest_rep. rewrite <- Hd. apply input_refill_rep; done || lia.
      * rewrite Hd in ok_len0. lia.
      * exists i'. split; [done |]. replace (p + run_at set d p) with (p + k + run_at set d (p + k)) by lia.
        pose proof (run_at_bounds set d (p + k) ltac:(lia)).
        by replace (Z.max f (p + k + run_at set d (p + k)))
          with (Z.max (Z.max f (p + k)) (p + k + run_at set d (p + k))) by lia.
Qed.

(** ** Refinement over operation sequences *)

Inductive input_op := OpPeek | OpAdvance (n : Z) | OpSeek (p : Z) | OpSpan (set : vm_charset).

(** What a caller observes of one operation. *)
Inductive input_obs := ObsByte (b : option Z) | ObsBool (b : bool) | ObsUnit.

Definition run_op (i : vm_input) (o : input_op) : res (input_obs * vm_input) :=
  match o with
  | OpPeek => '(b, i) ← input_peek i; mret (ObsByte b, i)
  | OpAdvance n => let '(b, i) := input_advance i n in mret (ObsBool b, i)
  | OpSeek p => mret (ObsUnit, input_seek_to i p)
  | OpSpan set => i ← input_span (S (length (data i))) set i; mret (ObsUnit, i)
  end.

(** The reference reader: subject, position, furthest mark. *)
Definition flat_op (d : list Z) (pf : Z * Z) (o : input_op) : input_obs * (Z * Z) :=
  let '(p, f) := pf in
  match o with
  | OpPeek => (ObsByte (byte_at d p), (p, Z.max f p))
  | OpAdvance n => (ObsBool (p + n <=? Z.of_nat (length d)), (p + n, f))
  | OpSeek q => (ObsUnit, (q, f))
  | OpSpan set => let q := p + run_at set d p in (ObsUnit, (q, Z.max f q))
  end.

Fixpoint run_ops (i : vm_input) (os : list input_op) : res (list input_obs * vm_input) :=
  match os with
  | [] => mret ([], i)
  | o :: os => '(b, i) ← run_op i o; '(bs, i) ← run_ops i os; mret (b :: bs, i)
  end.

Fixpoint flat_ops (d : list Z) (pf : Z * Z) (os : list input_op) : list input_obs * (Z * Z) :=
  match os with
  | [] => ([], pf)
  | o :: os => let '(b, pf) := flat_op d pf o in let '(bs, pf) := flat_ops d pf os in (b :: bs, pf)
  end.

(** Positions reached stay below [2^30]: the range in which [int] is exact. *)
Fixpoint ops_small (d : list Z) (pf : Z * Z) (os : list input_op) : bool :=
  match os with
  | [] => true
  | o :: os =>
      match o with
      | OpAdvance n => (0 <=? n) && (pf.1 + n <? 2 ^ 30)
      | OpSeek q => (0 <=? q) && (q <? 2 ^ 30)
      | _ => true
      end && ops_small d (flat_op d pf o).2 os
  end.

Lemma run_op_refines i d p f o :
  input_rep i d p f → ops_small d (p, f) [o] = true →
  ∃ i', run_op i o = Ok ((flat_op d (p, f) o).1, i') ∧
    input_rep i' d (flat_op d (p, f) o).2.1 (flat_op d (p, f) o).2.2.
Proof.
  intros Hr Hs. destruct o as [|n|q|set]; cbn [run_op flat_op ops_small fst snd] in *; zify_bool.
  - destruct (input_peek_spec _ _ _ _ Hr) as (i' & -> & Hr'). by exists i'.
  - destruct (input_advance_spec i d p f n Hr ltac:(lia) ltac:(lia)) as [Hb Hr'].
    destruct (input_advance i n) as [b i']; cbn [fst snd] in *. subst b. by exists i'.
  - exists (input_seek_to i q). split; [done |]. eapply input_seek_to_spec; [done | lia].
  - assert (data i = d) as Hd by apply Hr. rewrite Hd.
    destruct (input_span_spec (S (length d)) set _ _ _ _ Hr) as (i' & -> & Hr'); [| by exists i'].
    assert (0 <= p) by (destruct Hr as ([] & _ & <- & _); unfold pos_of; lia). lia.
Qed.

(** C12. The 4 KB chunk cache is invisible: on any subject shorter than [2^30]
    bytes, any sequence of peeks, advances, seeks and spans on a fresh
    [vm_input] terminates, reads only cached subject bytes, returns exactly the
    observations of the flat reader, and ends at its position and furthest
    mark. *)
Theorem input_refines_flat (d : list Z) (os : list input_op) :
  Z.of_nat (length d) < 2 ^ 30 → ops_small d (0, 0) os = true →
  ∃ i', run_ops (vm_input_new d) os = Ok ((flat_ops d (0, 0) os).1, i') ∧
    vm_input_pos i' = (flat_ops d (0, 0) os).2.1 ∧
    vm_input_furthest i' = (flat_ops d (0, 0) os).2.2.
Proof.
  intros Hd Hs.
  enough (∀ i p f, input_rep i d p f → ops_small d (p, f) os = true →
    ∃ i', run_ops i os = Ok ((flat_ops d (p, f) os).1, i') ∧
      input_rep i' d (flat_ops d (p, f) os).2.1 (flat_ops d (p, f) os).2.2) as Hgen.
  { destruct (Hgen _ 0 0 (vm_input_new_rep d Hd) Hs) as (i' & He & Hr).
    exists i'. split_and!; [done | by eapply vm_input_pos_spec |].
    unfold vm_input_furthest. apply Hr. }
  clear Hs. induction os as [|o os IH]; intros i p f Hr Hs; [by exists i |].
  cbn [ops_small] in Hs. apply andb_true_iff in Hs as [Ho Hs].
  destruct (run_op_refines i d p f o Hr) as (i1 & He1 & Hr1).
  { cbn [ops_small]. by rewrite Ho. }
  cbn [run_ops flat_ops]. rewrite He1. cbn [mbind res_bind].
  destruct (flat_op d (p, f) o) as [b [p1 f1]]. cbn [fst snd] in *.
  destruct (IH i1 p1 f1 Hr1 Hs) as (i2 & He2 & Hr2). rewrite He2.
  exists i2. by destruct (flat_ops d (p1, f1) os).
Qed.

Lemma input_refines_flat_witness :
  (flat_ops [97; 98; 98; 99] (0, 0) [OpSpan (vm_charset_fill [97; 98]); OpPeek; OpAdvance 2; OpPeek]).1
    = [ObsUnit; ObsByte (Some 99); ObsBool false; ObsByte None] ∧
  ∃ i', run_ops (vm_input_new [97; 98; 98; 99])
          [OpSpan (vm_charset_fill [97; 98]); OpPeek; OpAdvance 2; OpPeek]
        = Ok ([ObsUnit; ObsByte (Some 99); ObsBool false; ObsByte None], i') ∧
    vm_input_pos i' = 5 ∧ vm_input_furthest i' = 5.
Proof.
  split; [vm_compute; reflexivity |].
  refine (input_refines_flat [97; 98; 98; 99]
    [OpSpan (vm_charset_fill [97; 98]); OpPeek; OpAdvance 2; OpPeek] _ _);
    vm_compute; reflexivity.
Defined.
