(* ===== verification/Code.v ===== *)
(** * Code: program builder, encoder and pre-decoder (src/vm_code.c)

    [vm_prog] is the builder's state (encoded bytes, charset/error tables,
    label positions, pending fixups), [vm_emit_*] its operations,
    [vm_prog_finish] the backpatching and [vm_predecode] the two passes that
    turn the byte stream into executable [vm_insn]s. *)
From S2P Require Import Prelude Charset.

(** ** Opcodes (include/peg/vm.h) *)

Inductive vm_op :=
| VM_CHAR | VM_JUMP | VM_CHOICE | VM_CALL | VM_COMMIT | VM_RETURN | VM_FAIL | VM_SET | VM_ANY
| VM_PARTIAL_COMMIT | VM_SPAN | VM_BACK_COMMIT | VM_FAIL_TWICE | VM_EMPTY
| VM_TEST_CHAR | VM_TEST_CHAR_NOCHOICE | VM_TEST_SET | VM_TEST_SET_NOCHOICE | VM_TEST_ANY
| VM_END | VM_NOP | VM_CAPTURE_BEGIN | VM_CAPTURE_LATE | VM_CAPTURE_END | VM_CAPTURE_FULL
| VM_CHECK_BEGIN | VM_CHECK_END | VM_MEMO_OPEN | VM_MEMO_CLOSE | VM_MEMO_TREE_OPEN
| VM_MEMO_TREE_INSERT | VM_MEMO_TREE | VM_MEMO_TREE_CLOSE | VM_ERROR.

#[export] Instance vm_op_eq_dec : EqDecision vm_op.
Proof. solve_decision. Defined.

(** The enumeration in order; an opcode's byte is its index. *)
Definition all_ops : list vm_op :=
  [VM_CHAR; VM_JUMP; VM_CHOICE; VM_CALL; VM_COMMIT; VM_RETURN; VM_FAIL; VM_SET; VM_ANY;
   VM_PARTIAL_COMMIT; VM_SPAN; VM_BACK_COMMIT; VM_FAIL_TWICE; VM_EMPTY;
   VM_TEST_CHAR; VM_TEST_CHAR_NOCHOICE; VM_TEST_SET; VM_TEST_SET_NOCHOICE; VM_TEST_ANY;
   VM_END; VM_NOP; VM_CAPTURE_BEGIN; VM_CAPTURE_LATE; VM_CAPTURE_END; VM_CAPTURE_FULL;
   VM_CHECK_BEGIN; VM_CHECK_END; VM_MEMO_OPEN; VM_MEMO_CLOSE; VM_MEMO_TREE_OPEN;
   VM_MEMO_TREE_INSERT; VM_MEMO_TREE; VM_MEMO_TREE_CLOSE; VM_ERROR].

Definition op_byte (o : vm_op) : Z :=
  match o with
  | VM_CHAR => 0 | VM_JUMP => 1 | VM_CHOICE => 2 | VM_CALL => 3 | VM_COMMIT => 4 | VM_RETURN => 5
  | VM_FAIL => 6 | VM_SET => 7 | VM_ANY => 8 | VM_PARTIAL_COMMIT => 9 | VM_SPAN => 10
  | VM_BACK_COMMIT => 11 | VM_FAIL_TWICE => 12 | VM_EMPTY => 13 | VM_TEST_CHAR => 14
  | VM_TEST_CHAR_NOCHOICE => 15 | VM_TEST_SET => 16 | VM_TEST_SET_NOCHOICE => 17
  | VM_TEST_ANY => 18 | VM_END => 19 | VM_NOP => 20 | VM_CAPTURE_BEGIN => 21
  | VM_CAPTURE_LATE => 22 | VM_CAPTURE_END => 23 | VM_CAPTURE_FULL => 24 | VM_CHECK_BEGIN => 25
  | VM_CHECK_END => 26 | VM_MEMO_OPEN => 27 | VM_MEMO_CLOSE => 28 | VM_MEMO_TREE_OPEN => 29
  | VM_MEMO_TREE_INSERT => 30 | VM_MEMO_TREE => 31 | VM_MEMO_TREE_CLOSE => 32 | VM_ERROR => 33
  end.

Definition op_of_byte (b : Z) : option vm_op := if b <? 0 then None else all_ops !! Z.to_nat b.

Definition op_sizes (o : vm_op) : Z :=
  match o with
  | VM_CHAR | VM_RETURN | VM_FAIL | VM_SET | VM_ANY | VM_SPAN | VM_FAIL_TWICE | VM_EMPTY | VM_END
  | VM_NOP | VM_CAPTURE_END | VM_MEMO_CLOSE | VM_MEMO_TREE_INSERT | VM_MEMO_TREE => 2
  | VM_JUMP | VM_CHOICE | VM_CALL | VM_COMMIT | VM_PARTIAL_COMMIT | VM_BACK_COMMIT
  | VM_CAPTURE_BEGIN | VM_CAPTURE_LATE | VM_CAPTURE_FULL | VM_CHECK_END | VM_MEMO_TREE_CLOSE
  | VM_ERROR => 4
  | VM_TEST_CHAR | VM_TEST_CHAR_NOCHOICE | VM_TEST_SET | VM_TEST_SET_NOCHOICE | VM_TEST_ANY
  | VM_CHECK_BEGIN | VM_MEMO_OPEN | VM_MEMO_TREE_OPEN => 6
  end.

(** ** Program builder *)

Record vm_prog := mk_prog {
  code : list (option Z);      (* [None]: reserved, not yet written *)
  sets : list vm_charset;
  errors : list string;
  labels : list Z;
  fixups : list (Z * Z);       (* byte offset of the operand, label id *)
  ncheckers : Z;
}.

Definition vm_prog_new : vm_prog :=
  {| code := []; sets := []; errors := []; labels := []; fixups := []; ncheckers := 0 |}.

Definition vm_prog_here (p : vm_prog) : Z := Z.of_nat (length (code p)).

Definition vm_prog_label (p : vm_prog) : Z * vm_prog :=
  (Z.of_nat (length (labels p)),
   {| code := code p; sets := sets p; errors := errors p;
      labels := labels p ++ [vm_prog_here p]; fixups := fixups p; ncheckers := ncheckers p |}).

Definition vm_prog_mark (p : vm_prog) (label : Z) : res vm_prog :=
  if (0 <=? label) && (label <? Z.of_nat (length (labels p))) then
    mret {| code := code p; sets := sets p; errors := errors p;
            labels := <[Z.to_nat label := vm_prog_here p]> (labels p);
            fixups := fixups p; ncheckers := ncheckers p |}
  else Undef.

Definition add_fixup (p : vm_prog) (at_ label : Z) : vm_prog :=
  {| code := code p; sets := sets p; errors := errors p; labels := labels p;
     fixups := fixups p ++ [(at_, label)]; ncheckers := ncheckers p |}.

(** [prog_reserve] of the window's length, and the writes to it. *)
Definition prog_reserve (p : vm_prog) (w : list (option Z)) : vm_prog :=
  {| code := code p ++ w; sets := sets p; errors := errors p; labels := labels p;
     fixups := fixups p; ncheckers := ncheckers p |}.

(** First index at which [f] holds. *)
Fixpoint find_index {A} (f : A → bool) (l : list A) : option nat :=
  match l with
  | [] => None
  | x :: l => if f x then Some O else S <$> find_index f l
  end.

Definition add_set (p : vm_prog) (set : vm_charset) : res (Z * vm_prog) :=
  match find_index (λ s, vm_charset_eq s set) (sets p) with
  | Some i => mret (u8 (Z.of_nat i), p)
  | None =>
      if 256 <=? Z.of_nat (length (sets p)) then Abort "charset table overflow (max 256)"
      else mret (u8 (Z.of_nat (length (sets p))),
                 {| code := code p; sets := sets p ++ [set]; errors := errors p;
                    labels := labels p; fixups := fixups p; ncheckers := ncheckers p |})
  end.

Definition add_error (p : vm_prog) (msg : string) : Z * vm_prog :=
  match find_index (λ s, bool_decide (s = msg)) (errors p) with
  | Some i => (u32 (Z.of_nat i), p)
  | None => (u32 (Z.of_nat (length (errors p))),
             {| code := code p; sets := sets p; errors := errors p ++ [msg];
                labels := labels p; fixups := fixups p; ncheckers := ncheckers p |})
  end.

(** ** Raw emit helpers *)

Definition emit1 (p : vm_prog) (op : vm_op) : vm_prog :=
  prog_reserve p [Some (op_byte op); Some 0].

Definition emit_op_u8 (p : vm_prog) (op : vm_op) (a : Z) : vm_prog :=
  prog_reserve p [Some (op_byte op); Some a].

Definition emit_op_label (p : vm_prog) (op : vm_op) (label : Z) : vm_prog :=
  let at_ := vm_prog_here p in
  add_fixup (prog_reserve p [Some (op_byte op); None; None; None]) (at_ + 1) label.

Definition i16_lo (a : Z) : Z := u8 (Z.land a 255).
Definition i16_hi (a : Z) : Z := u8 (Z.shiftr (u16 a) 8).

Definition emit_op_i16 (p : vm_prog) (op : vm_op) (a : Z) : vm_prog :=
  prog_reserve p [Some (op_byte op); Some 0; Some (i16_lo a); Some (i16_hi a)].

Definition emit_op_label_i16 (p : vm_prog) (op : vm_op) (label b : Z) : vm_prog :=
  let at_ := vm_prog_here p in
  add_fixup (prog_reserve p [Some (op_byte op); None; None; None; Some (i16_lo b); Some (i16_hi b)])
    (at_ + 1) label.

Definition emit_op_set_label (p : vm_prog) (op : vm_op) (set : vm_charset) (label : Z) : res vm_prog :=
  let at_ := vm_prog_here p in
  '(k, p) ← add_set p set;
  mret (add_fixup (prog_reserve p [Some (op_byte op); Some 0; Some k; None; None; None]) (at_ + 3) label).

Definition emit_op_set (p : vm_prog) (op : vm_op) (set : vm_charset) : res vm_prog :=
  '(k, p) ← add_set p set; mret (emit_op_u8 p op k).

Definition emit_op_u24 (p : vm_prog) (op : vm_op) (a : Z) : vm_prog :=
  prog_reserve p [Some (op_byte op); Some (Z.land (Z.shiftr a 16) 255); Some (Z.land a 255);
                  Some (Z.land (Z.shiftr a 8) 255)].

Definition emit_op_i16_i16 (p : vm_prog) (op : vm_op) (a b : Z) : vm_prog :=
  prog_reserve p [Some (op_byte op); Some 0; Some (i16_lo a); Some (i16_hi a);
                  Some (i16_lo b); Some (i16_hi b)].

Definition emit_op_u8_i16 (p : vm_prog) (op : vm_op) (b a : Z) : vm_prog :=
  prog_reserve p [Some (op_byte op); Some b; Some (i16_lo a); Some (i16_hi a)].

(** [op, pad, byte, label]: the layout shared by the three byte-test emits. *)
Definition emit_op_byte_label (p : vm_prog) (op : vm_op) (c label : Z) : vm_prog :=
  let at_ := vm_prog_here p in
  add_fixup (prog_reserve p [Some (op_byte op); Some 0; Some c; None; None; None]) (at_ + 3) label.

(** ** The emit interface *)

Definition vm_emit_char p c := emit_op_u8 p VM_CHAR c.
Definition vm_emit_jump p l := emit_op_label p VM_JUMP l.
Definition vm_emit_choice p l := emit_op_label p VM_CHOICE l.
Definition vm_emit_call p l := emit_op_label p VM_CALL l.
Definition vm_emit_commit p l := emit_op_label p VM_COMMIT l.
Definition vm_emit_return p := emit1 p VM_RETURN.
Definition vm_emit_fail p := emit1 p VM_FAIL.
Definition vm_emit_set p set := emit_op_set p VM_SET set.
Definition vm_emit_any p n := emit_op_u8 p VM_ANY n.
Definition vm_emit_partial_commit p l := emit_op_label p VM_PARTIAL_COMMIT l.
Definition vm_emit_span p set := emit_op_set p VM_SPAN set.
Definition vm_emit_back_commit p l := emit_op_label p VM_BACK_COMMIT l.
Definition vm_emit_fail_twice p := emit1 p VM_FAIL_TWICE.
Definition vm_emit_empty p op := emit_op_u8 p VM_EMPTY op.
Definition vm_emit_test_char p c l := emit_op_byte_label p VM_TEST_CHAR c l.
Definition vm_emit_test_char_nochoice p c l := emit_op_byte_label p VM_TEST_CHAR_NOCHOICE c l.
Definition vm_emit_test_set p set l := emit_op_set_label p VM_TEST_SET set l.
Definition vm_emit_test_set_nochoice p set l := emit_op_set_label p VM_TEST_SET_NOCHOICE set l.
Definition vm_emit_test_any p n l := emit_op_byte_label p VM_TEST_ANY n l.
Definition vm_emit_capture_begin p id := emit_op_i16 p VM_CAPTURE_BEGIN id.
Definition vm_emit_capture_late p back id := emit_op_u8_i16 p VM_CAPTURE_LATE back id.
Definition vm_emit_capture_end p := emit1 p VM_CAPTURE_END.
Definition vm_emit_capture_full p back id := emit_op_u8_i16 p VM_CAPTURE_FULL back id.
Definition vm_emit_memo_open p l id := emit_op_label_i16 p VM_MEMO_OPEN l id.
Definition vm_emit_memo_close p := emit1 p VM_MEMO_CLOSE.
Definition vm_emit_memo_tree_open p l id := emit_op_label_i16 p VM_MEMO_TREE_OPEN l id.
Definition vm_emit_memo_tree_insert p := emit1 p VM_MEMO_TREE_INSERT.
Definition vm_emit_memo_tree p := emit1 p VM_MEMO_TREE.
Definition vm_emit_memo_tree_close p id := emit_op_i16 p VM_MEMO_TREE_CLOSE id.
Definition vm_emit_error p msg := let '(k, p) := add_error p msg in emit_op_u24 p VM_ERROR k.
Definition vm_emit_check_begin p id flag := emit_op_i16_i16 p VM_CHECK_BEGIN id flag.
Definition vm_emit_check_end (p : vm_prog) : vm_prog :=
  emit_op_u24 {| code := code p; sets := sets p; errors := errors p; labels := labels p;
                 fixups := fixups p; ncheckers := ncheckers p + 1 |} VM_CHECK_END (u32 (ncheckers p)).
Definition vm_emit_end p (fail : bool) := emit_op_u8 p VM_END (if fail then 1 else 0).

(** ** Pre-decoding (src/vm_internal.h, src/vm_code.c) *)

(** [set = None] is a NULL (or dangling) charset pointer. *)
Record vm_insn := mk_insn { op : vm_op; a : Z; b : Z; set : option vm_charset }.

#[export] Instance vm_insn_eq_dec : EqDecision vm_insn.
Proof. solve_decision. Defined.

Definition decode_u24 (b0 b1 b2 : Z) : Z :=
  i32 (Z.lor (Z.lor (Z.shiftl b0 16) b1) (Z.shiftl b2 8)).

Definition decode_i16 (b0 b1 : Z) : Z := i16 (Z.lor b0 (Z.shiftl b1 8)).

(** Decode one instruction of a stream that starts with it. *)
Definition decode_insn (sets : list vm_charset) (o : vm_op) (w : list Z) : res vm_insn :=
  let at_ (k : nat) := must (w !! k) in
  let u24_at k := b0 ← at_ k; b1 ← at_ (S k); b2 ← at_ (S (S k)); mret (decode_u24 b0 b1 b2) in
  let i16_at k := b0 ← at_ k; b1 ← at_ (S k); mret (decode_i16 b0 b1) in
  let set_at k := i ← at_ k; mret (sets !! Z.to_nat i) in
  match o with
  | VM_CHAR | VM_ANY | VM_EMPTY | VM_END => a ← at_ 1%nat; mret (mk_insn o a 0 None)
  | VM_JUMP | VM_CHOICE | VM_CALL | VM_COMMIT | VM_PARTIAL_COMMIT | VM_BACK_COMMIT | VM_ERROR
  | VM_CHECK_END => a ← u24_at 1%nat; mret (mk_insn o a 0 None)
  | VM_SET | VM_SPAN => s ← set_at 1%nat; mret (mk_insn o 0 0 s)
  | VM_TEST_CHAR | VM_TEST_CHAR_NOCHOICE | VM_TEST_ANY =>
      b ← at_ 2%nat; a ← u24_at 3%nat; mret (mk_insn o a b None)
  | VM_TEST_SET | VM_TEST_SET_NOCHOICE =>
      s ← set_at 2%nat; a ← u24_at 3%nat; mret (mk_insn o a 0 s)
  | VM_CAPTURE_BEGIN | VM_MEMO_TREE_CLOSE => a ← i16_at 2%nat; mret (mk_insn o a 0 None)
  | VM_CAPTURE_LATE | VM_CAPTURE_FULL =>
      b ← at_ 1%nat; a ← i16_at 2%nat; mret (mk_insn o a b None)
  | VM_CHECK_BEGIN => a ← i16_at 2%nat; b ← i16_at 4%nat; mret (mk_insn o a b None)
  | VM_MEMO_OPEN | VM_MEMO_TREE_OPEN =>
      a ← u24_at 1%nat; b ← i16_at 4%nat; mret (mk_insn o a b None)
  | _ => mret (mk_insn o 0 0 None)
  end.

(** First pass: [idx] maps the byte offset of each instruction to its index
    (other cells of the [malloc]ed array stay indeterminate).  [w] is what
    is left of the [len] bytes at offset [ip]. *)
Fixpoint predecode_pass1 (fuel : nat) (sets : list vm_charset) (len : Z) (w : list Z) (ip : Z)
    (idx : gmap Z Z) (prog : list vm_insn) : res (gmap Z Z * list vm_insn) :=
  match w with
  | [] => mret (<[len := Z.of_nat (length prog)]> idx, prog)
  | byte :: _ =>
      match fuel with
      | O => Fuel
      | S fuel =>
          o ← must (op_of_byte byte);
          in_ ← decode_insn sets o w;
          predecode_pass1 fuel sets len (drop (Z.to_nat (op_sizes o)) w) (ip + op_sizes o)
            (<[ip := Z.of_nat (length prog)]> idx) (prog ++ [in_])
      end
  end.

Definition has_target (o : vm_op) : bool :=
  match o with
  | VM_JUMP | VM_CHOICE | VM_CALL | VM_COMMIT | VM_PARTIAL_COMMIT | VM_BACK_COMMIT
  | VM_TEST_CHAR | VM_TEST_CHAR_NOCHOICE | VM_TEST_SET | VM_TEST_SET_NOCHOICE | VM_TEST_ANY
  | VM_MEMO_OPEN | VM_MEMO_TREE_OPEN => true
  | _ => false
  end.

(** Second pass: a jump target's byte offset becomes an instruction index. *)
Definition predecode_pass2 (idx : gmap Z Z) (prog : list vm_insn) : res (list vm_insn) :=
  foldr (λ in_ acc,
    rest ← acc;
    if has_target (op in_) then t ← must (idx !! a in_); mret (mk_insn (op in_) t (b in_) (set in_) :: rest)
    else mret (in_ :: rest)) (mret []) prog.

(** A checker with its user data: given the matched bytes, the subject, the
    id and the flag, the extra bytes to consume, or a negative number. *)
Definition vm_checker := list Z → list Z → Z → Z → Z.

Record vm_code := mk_code {
  insns : list Z;
  csets : list vm_charset;
  cerrors : list string;
  prog : list vm_insn;
  checkers : list (option vm_checker);   (* [None]: a NULL function *)
}.

Definition vm_predecode (insns : list Z) (sets : list vm_charset) : res (list vm_insn) :=
  '(idx, prog) ← predecode_pass1 (length insns) sets (Z.of_nat (length insns)) insns 0 ∅ [];
  predecode_pass2 idx prog.

(** Backpatching of one label operand. *)
Definition patch (labels : list Z) (code : list (option Z)) (fx : Z * Z) : res (list (option Z)) :=
  let '(at_, label) := fx in
  off ← must (if label <? 0 then None else labels !! Z.to_nat label);
  if 16777215 <? off then Abort "program too large: jump target exceeds 24 bits"
  else
    let k := Z.to_nat at_ in
    mret (<[k := Some (Z.land (Z.shiftr off 16) 255)]>
          (<[S k := Some (Z.land off 255)]>
           (<[S (S k) := Some (Z.land (Z.shiftr off 8) 255)]> code))).

Fixpoint patch_all (labels : list Z) (code : list (option Z)) (fxs : list (Z * Z)) : res (list (option Z)) :=
  match fxs with
  | [] => mret code
  | fx :: fxs => code ← patch labels code fx; patch_all labels code fxs
  end.

Definition vm_prog_finish (p : vm_prog) : res vm_code :=
  let p := emit_op_u8 p VM_END 0 in
  code ← patch_all (labels p) (code p) (fixups p);
  insns ← must (mapM id code);
  prog ← vm_predecode insns (sets p);
  mret {| insns := insns; csets := sets p; cerrors := errors p; prog := prog; checkers := [] |}.

Definition vm_code_add_checker (c : vm_code) (fn : option vm_checker) : Z * vm_code :=
  (Z.of_nat (length (checkers c)),
   {| insns := insns c; csets := csets c; cerrors := cerrors c; prog := prog c;
      checkers := checkers c ++ [fn] |}).

Definition vm_code_size (c : vm_code) : Z := Z.of_nat (length (insns c)).
Definition vm_code_ninsn (c : vm_code) : Z := Z.of_nat (length (prog c)).

(** ** Builder clients: sequences of calls *)

Inductive vm_call :=
| CLabel | CMark (l : Z)
| CChar (c : Z) | CJump (l : Z) | CChoice (l : Z) | CCall (l : Z) | CCommit (l : Z) | CReturn | CFail
| CSet (s : vm_charset) | CAny (n : Z) | CPartialCommit (l : Z) | CSpan (s : vm_charset)
| CBackCommit (l : Z) | CFailTwice | CEmpty (o : Z) | CTestChar (c l : Z)
| CTestCharNochoice (c l : Z) | CTestSet (s : vm_charset) (l : Z)
| CTestSetNochoice (s : vm_charset) (l : Z) | CTestAny (n l : Z) | CCaptureBegin (id : Z)
| CCaptureLate (back id : Z) | CCaptureEnd | CCaptureFull (back id : Z) | CMemoOpen (l id : Z)
| CMemoClose | CMemoTreeOpen (l id : Z) | CMemoTreeInsert | CMemoTree | CMemoTreeClose (id : Z)
| CError (msg : string) | CCheckBegin (id flag : Z) | CCheckEnd | CEnd (fail : bool).

#[export] Instance vm_call_eq_dec : EqDecision vm_call.
Proof. solve_decision. Defined.

Definition do_call (p : vm_prog) (c : vm_call) : res vm_prog :=
  match c with
  | CLabel => mret (vm_prog_label p).2
  | CMark l => vm_prog_mark p l
  | CChar c => mret (vm_emit_char p c)
  | CJump l => mret (vm_emit_jump p l)
  | CChoice l => mret (vm_emit_choice p l)
  | CCall l => mret (vm_emit_call p l)
  | CCommit l => mret (vm_emit_commit p l)
  | CReturn => mret (vm_emit_return p)
  | CFail => mret (vm_emit_fail p)
  | CSet s => vm_emit_set p s
  | CAny n => mret (vm_emit_any p n)
  | CPartialCommit l => mret (vm_emit_partial_commit p l)
  | CSpan s => vm_emit_span p s
  | CBackCommit l => mret (vm_emit_back_commit p l)
  | CFailTwice => mret (vm_emit_fail_twice p)
  | CEmpty o => mret (vm_emit_empty p o)
  | CTestChar c l => mret (vm_emit_test_char p c l)
  | CTestCharNochoice c l => mret (vm_emit_test_char_nochoice p c l)
  | CTestSet s l => vm_emit_test_set p s l
  | CTestSetNochoice s l => vm_emit_test_set_nochoice p s l
  | CTestAny n l => mret (vm_emit_test_any p n l)
  | CCaptureBegin id => mret (vm_emit_capture_begin p id)
  | CCaptureLate back id => mret (vm_emit_capture_late p back id)
  | CCaptureEnd => mret (vm_emit_capture_end p)
  | CCaptureFull back id => mret (vm_emit_capture_full p back id)
  | CMemoOpen l id => mret (vm_emit_memo_open p l id)
  | CMemoClose => mret (vm_emit_memo_close p)
  | CMemoTreeOpen l id => mret (vm_emit_memo_tree_open p l id)
  | CMemoTreeInsert => mret (vm_emit_memo_tree_insert p)
  | CMemoTree => mret (vm_emit_memo_tree p)
  | CMemoTreeClose id => mret (vm_emit_memo_tree_close p id)
  | CError msg => mret (vm_emit_error p msg)
  | CCheckBegin id flag => mret (vm_emit_check_begin p id flag)
  | CCheckEnd => mret (vm_emit_check_end p)
  | CEnd fail => mret (vm_emit_end p fail)
  end.

Fixpoint do_calls (p : vm_prog) (cs : list vm_call) : res vm_prog :=
  match cs with
  | [] => mret p
  | c :: cs => p ← do_call p c; do_calls p cs
  end.
