(* ===== verification/CodeFacts.v ===== *)
(** * CodeFacts: encoding and pre-decoding are inverse

    Operand codecs, the layout of one encoded instruction ([block]), and the
    round trip from builder calls through [vm_prog_finish] to executable
    instructions. *)
From S2P Require Import Prelude Charset Code.

(** ** Operand codecs *)

Lemma land_ones_mod z k : 0 <= k → Z.land z (Z.ones k) = z `mod` 2 ^ k.
Proof. intros. by apply Z.land_ones. Qed.

Lemma lor_disjoint_add a b k : 0 <= k → 0 <= a < 2 ^ k → Z.lor a (Z.shiftl b k) = a + b * 2 ^ k.
Proof.
  intros Hk Ha. rewrite Z.shiftl_mul_pow2 by done. symmetry.
  rewrite <- Z.lxor_lor; [apply Z.add_nocarry_lxor |]; apply Z.bits_inj'; intros n Hn;
    rewrite Z.land_spec, Z.bits_0; destruct (Z.lt_ge_cases n k);
    (rewrite (Z.mul_pow2_bits_low b k n) by lia; apply andb_false_r) ||
    (rewrite <- (Z.mod_small a (2 ^ k)) by lia; rewrite Z.mod_pow2_bits_high by lia; done).
Qed.

Definition u24_bytes (z : Z) : list Z :=
  [Z.land (Z.shiftr z 16) 255; Z.land z 255; Z.land (Z.shiftr z 8) 255].

Lemma land255 z : Z.land z 255 = z `mod` 256.
Proof. apply (land_ones_mod z 8). lia. Qed.

Lemma shiftr_div z k : 0 <= k → Z.shiftr z k = z `div` 2 ^ k.
Proof. intros. by apply Z.shiftr_div_pow2. Qed.

(** A 24-bit operand survives the mixed-endian encoding. *)
Lemma decode_u24_bytes z : 0 <= z < 2 ^ 24 →
  decode_u24 (Z.land (Z.shiftr z 16) 255) (Z.land z 255) (Z.land (Z.shiftr z 8) 255) = z.
Proof.
  intros Hz. unfold decode_u24. rewrite !land255, !shiftr_div by lia.
  change (2 ^ 16) with 65536 in *. change (2 ^ 8) with 256.
  assert (0 <= z `div` 65536 < 256) as Hh
    by (split; [apply Z.div_pos | apply Z.div_lt_upper_bound]; lia).
  rewrite (Z.mod_small (z `div` 65536)) by done.
  pose proof (Z.mod_pos_bound z 256 ltac:(lia)). pose proof (Z.mod_pos_bound (z `div` 256) 256 ltac:(lia)).
  rewrite <- Z.lor_assoc, Z.lor_comm, (lor_disjoint_add (z `mod` 256)) by lia.
  rewrite (lor_disjoint_add _ (z `div` 65536)) by lia.
  assert (z `div` 65536 = (z `div` 256) `div` 256) as Hd by (rewrite Z.div_div by lia; done).
  pose proof (Z.div_mod z 256 ltac:(lia)). pose proof (Z.div_mod (z `div` 256) 256 ltac:(lia)).
  rewrite i32_id; unfold is_i32; lia.
Qed.

(** A 16-bit signed operand survives the little-endian encoding. *)
Lemma decode_i16_bytes z : - 2 ^ 15 <= z < 2 ^ 15 → decode_i16 (i16_lo z) (i16_hi z) = z.
Proof.
  intros Hz. unfold decode_i16, i16_lo, i16_hi, u8, u16.
  rewrite land255, shiftr_div by lia. change (2 ^ 8) with 256. change (2 ^ 16) with 65536.
  rewrite Zmod_mod. pose proof (Z.mod_pos_bound z 65536 ltac:(lia)) as Hm.
  assert (0 <= (z `mod` 65536) `div` 256 < 256) as Hh
    by (split; [apply Z.div_pos | apply Z.div_lt_upper_bound]; lia).
  rewrite (Z.mod_small _ 256 Hh). pose proof (Z.mod_pos_bound z 256 ltac:(lia)).
  rewrite lor_disjoint_add by lia. change (2 ^ 8) with 256.
  assert (z `mod` 256 = (z `mod` 65536) `mod` 256) as ->.
  { change 65536 with (256 * 256). rewrite Z.rem_mul_r by lia.
    rewrite Z.mul_comm, Z_mod_plus_full, Zmod_mod. done. }
  pose proof (Z.div_mod (z `mod` 65536) 256 ltac:(lia)) as Hdm.
  assert ((z `mod` 65536) `mod` 256 + (z `mod` 65536) `div` 256 * 256 = z `mod` 65536) as -> by lia.
  unfold i16. change (2 ^ 16) with 65536. rewrite Zplus_mod_idemp_l.
  fold (i16 z). change (i16 z = z). apply i16_id. lia.
Qed.

Lemma i16_bytes_range z : is_byte (i16_lo z) ∧ is_byte (i16_hi z).
Proof. split; apply u8_range. Qed.

Lemma op_of_byte_byte o : op_of_byte (op_byte o) = Some o.
Proof. by destruct o. Qed.

Lemma op_sizes_pos o : 2 <= op_sizes o.
Proof. by destruct o. Qed.

(** ** The layout of one encoded instruction *)

(** Bytes before the label operand, the label, bytes after it. *)
Record block := mk_block { b_op : vm_op; b_pre : list Z; b_lab : option Z; b_post : list Z }.

Definition raw (b : block) : list (option Z) :=
  (Some <$> b_pre b) ++ (if b_lab b then [None; None; None] else []) ++ (Some <$> b_post b).

(** The block once its label operand holds byte offset [off]. *)
Definition fin (b : block) (off : Z) : list Z :=
  b_pre b ++ (if b_lab b then u24_bytes off else []) ++ b_post b.

(** The encoding of a call: [k], [e], [chk] are the indices its charset,
    error message and checker get. *)
Definition call_block (k e chk : Z) (c : vm_call) : block :=
  let z o := mk_block o [op_byte o; 0] None [] in
  let byte o x := mk_block o [op_byte o; x] None [] in
  let lab o l := mk_block o [op_byte o] (Some l) [] in
  let blab o x l := mk_block o [op_byte o; 0; x] (Some l) [] in
  let u24 o x := mk_block o (op_byte o :: u24_bytes x) None [] in
  match c with
  | CLabel | CMark _ => z VM_NOP
  | CChar c => byte VM_CHAR c
  | CJump l => lab VM_JUMP l
  | CChoice l => lab VM_CHOICE l
  | CCall l => lab VM_CALL l
  | CCommit l => lab VM_COMMIT l
  | CReturn => z VM_RETURN
  | CFail => z VM_FAIL
  | CSet _ => byte VM_SET k
  | CAny n => byte VM_ANY n
  | CPartialCommit l => lab VM_PARTIAL_COMMIT l
  | CSpan _ => byte VM_SPAN k
  | CBackCommit l => lab VM_BACK_COMMIT l
  | CFailTwice => z VM_FAIL_TWICE
  | CEmpty o => byte VM_EMPTY o
  | CTestChar c l => blab VM_TEST_CHAR c l
  | CTestCharNochoice c l => blab VM_TEST_CHAR_NOCHOICE c l
  | CTestSet _ l => blab VM_TEST_SET k l
  | CTestSetNochoice _ l => blab VM_TEST_SET_NOCHOICE k l
  | CTestAny n l => blab VM_TEST_ANY n l
  | CCaptureBegin id => mk_block VM_CAPTURE_BEGIN [op_byte VM_CAPTURE_BEGIN; 0; i16_lo id; i16_hi id] None []
  | CCaptureLate back id => mk_block VM_CAPTURE_LATE [op_byte VM_CAPTURE_LATE; back; i16_lo id; i16_hi id] None []
  | CCaptureEnd => z VM_CAPTURE_END
  | CCaptureFull back id => mk_block VM_CAPTURE_FULL [op_byte VM_CAPTURE_FULL; back; i16_lo id; i16_hi id] None []
  | CMemoOpen l id => mk_block VM_MEMO_OPEN [op_byte VM_MEMO_OPEN] (Some l) [i16_lo id; i16_hi id]
  | CMemoClose => z VM_MEMO_CLOSE
  | CMemoTreeOpen l id => mk_block VM_MEMO_TREE_OPEN [op_byte VM_MEMO_TREE_OPEN] (Some l) [i16_lo id; i16_hi id]
  | CMemoTreeInsert => z VM_MEMO_TREE_INSERT
  | CMemoTree => z VM_MEMO_TREE
  | CMemoTreeClose id => mk_block VM_MEMO_TREE_CLOSE [op_byte VM_MEMO_TREE_CLOSE; 0; i16_lo id; i16_hi id] None []
  | CError _ => u24 VM_ERROR e
  | CCheckBegin id flag =>
      mk_block VM_CHECK_BEGIN [op_byte VM_CHECK_BEGIN; 0; i16_lo id; i16_hi id; i16_lo flag; i16_hi flag] None []
  | CCheckEnd => u24 VM_CHECK_END chk
  | CEnd fail => byte VM_END (if fail then 1 else 0)
  end.

Definition is_insn (c : vm_call) : bool := match c with CLabel | CMark _ => false | _ => true end.

Definition call_set (c : vm_call) : option vm_charset :=
  match c with CSet s | CSpan s | CTestSet s _ | CTestSetNochoice s _ => Some s | _ => None end.

Definition call_label (c : vm_call) : option Z := b_lab (call_block 0 0 0 c).

(** Operands within the C parameter types. *)
Definition call_ok (c : vm_call) : Prop :=
  let is_i16 z := - 2 ^ 15 <= z < 2 ^ 15 in
  match c with
  | CChar c | CAny c | CEmpty c | CTestChar c _ | CTestCharNochoice c _ | CTestAny c _ => is_byte c
  | CSet s | CSpan s | CTestSet s _ | CTestSetNochoice s _ => charset_wf s
  | CCaptureBegin id | CMemoOpen _ id | CMemoTreeOpen _ id | CMemoTreeClose id => is_i16 id
  | CCaptureLate b id | CCaptureFull b id => is_byte b ∧ is_i16 id
  | CCheckBegin id flag => is_i16 id ∧ is_i16 flag
  | _ => True
  end.

(** The executable instruction a call stands for, with jump target [t],
    error index [e] and checker index [chk]. *)
Definition call_insn (t e chk : Z) (c : vm_call) : vm_insn :=
  let z o := mk_insn o 0 0 None in
  let val o x := mk_insn o x 0 None in
  match c with
  | CLabel | CMark _ => z VM_NOP
  | CChar c => val VM_CHAR c
  | CJump _ => val VM_JUMP t
  | CChoice _ => val VM_CHOICE t
  | CCall _ => val VM_CALL t
  | CCommit _ => val VM_COMMIT t
  | CReturn => z VM_RETURN
  | CFail => z VM_FAIL
  | CSet s => mk_insn VM_SET 0 0 (Some s)
  | CAny n => val VM_ANY n
  | CPartialCommit _ => val VM_PARTIAL_COMMIT t
  | CSpan s => mk_insn VM_SPAN 0 0 (Some s)
  | CBackCommit _ => val VM_BACK_COMMIT t
  | CFailTwice => z VM_FAIL_TWICE
  | CEmpty o => val VM_EMPTY o
  | CTestChar c _ => mk_insn VM_TEST_CHAR t c None
  | CTestCharNochoice c _ => mk_insn VM_TEST_CHAR_NOCHOICE t c None
  | CTestSet s _ => mk_insn VM_TEST_SET t 0 (Some s)
  | CTestSetNochoice s _ => mk_insn VM_TEST_SET_NOCHOICE t 0 (Some s)
  | CTestAny n _ => mk_insn VM_TEST_ANY t n None
  | CCaptureBegin id => val VM_CAPTURE_BEGIN id
  | CCaptureLate back id => mk_insn VM_CAPTURE_LATE id back None
  | CCaptureEnd => z VM_CAPTURE_END
  | CCaptureFull back id => mk_insn VM_CAPTURE_FULL id back None
  | CMemoOpen _ id => mk_insn VM_MEMO_OPEN t id None
  | CMemoClose => z VM_MEMO_CLOSE
  | CMemoTreeOpen _ id => mk_insn VM_MEMO_TREE_OPEN t id None
  | CMemoTreeInsert => z VM_MEMO_TREE_INSERT
  | CMemoTree => z VM_MEMO_TREE
  | CMemoTreeClose id => val VM_MEMO_TREE_CLOSE id
  | CError _ => val VM_ERROR e
  | CCheckBegin id flag => mk_insn VM_CHECK_BEGIN id flag None
  | CCheckEnd => val VM_CHECK_END chk
  | CEnd fail => val VM_END (if fail then 1 else 0)
  end.

(** Decoding a finished block gives back the call's instruction, its target
    still a byte offset. *)
Lemma decode_block k e chk c off sets rest :
  is_insn c = true → call_ok c → 0 <= off < 2 ^ 24 → 0 <= e < 2 ^ 24 → 0 <= chk < 2 ^ 24 →
  (∀ s, call_set c = Some s → sets !! Z.to_nat k = Some s) →
  decode_insn sets (b_op (call_block k e chk c)) (fin (call_block k e chk c) off ++ rest)
  = Ok (call_insn off e chk c).
Proof.
  intros Hi Hc Hoff He Hchk Hset.
  destruct c; try discriminate Hi; cbn in Hc; unfold decode_insn, fin, call_block, u24_bytes;
    cbn -[decode_u24 decode_i16 i16_lo i16_hi op_byte Z.land Z.shiftr lookup];
    cbn [lookup list_lookup must mbind res_bind];
    rewrite ?decode_u24_bytes, ?decode_i16_bytes by (done || lia || apply Hc); try done;
    rewrite (Hset _ eq_refl); done.
Qed.

Lemma block_size k e chk c off :
  Z.of_nat (length (fin (call_block k e chk c) off)) = op_sizes (b_op (call_block k e chk c)).
Proof. by destruct c. Qed.

Lemma block_head k e chk c off : ∃ tl, fin (call_block k e chk c) off = op_byte (b_op (call_block k e chk c)) :: tl.
Proof. destruct c; eexists; done. Qed.

Lemma length_raw_fin b off : length (raw b) = length (fin b off).
Proof.
  unfold raw, fin. rewrite !length_app, !length_fmap. by destruct (b_lab b).
Qed.

Lemma target_iff_label t e chk c : is_insn c = true →
  has_target (op (call_insn t e chk c)) = bool_decide (is_Some (call_label c)).
Proof.
  intros Hi. by destruct c.
Qed.

(** ** Backpatching a sequence of blocks *)

Definition raws (bl : list block) : list (option Z) := concat (raw <$> bl).

(** Byte offset of block [n]. *)
Definition off_of (bl : list block) (n : nat) : Z := Z.of_nat (length (raws (take n bl))).

Fixpoint fix_list (at_ : Z) (bl : list block) : list (Z * Z) :=
  match bl with
  | [] => []
  | b :: bl =>
      match b_lab b with
      | Some l => [(at_ + Z.of_nat (length (b_pre b)), l)]
      | None => []
      end ++ fix_list (at_ + Z.of_nat (length (raw b))) bl
  end.

Definition lab_off (labels : list Z) (b : block) : Z :=
  match b_lab b with Some l => labels !!! Z.to_nat l | None => 0 end.

Definition fins (labels : list Z) (bl : list block) : list Z :=
  concat ((λ b, fin b (lab_off labels b)) <$> bl).

Lemma raws_cons b bl : raws (b :: bl) = raw b ++ raws bl.
Proof. done. Qed.

Lemma fins_cons labels b bl : fins labels (b :: bl) = fin b (lab_off labels b) ++ fins labels bl.
Proof. done. Qed.

Lemma raws_app bl1 bl2 : raws (bl1 ++ bl2) = raws bl1 ++ raws bl2.
Proof. unfold raws. by rewrite fmap_app, concat_app. Qed.

Lemma fix_list_app at_ bl1 bl2 :
  fix_list at_ (bl1 ++ bl2) = fix_list at_ bl1 ++ fix_list (at_ + Z.of_nat (length (raws bl1))) bl2.
Proof.
  revert at_. induction bl1 as [|b bl1 IH]; intros at_; [cbn; f_equal; lia |].
  cbn [fix_list app]. rewrite IH, app_assoc. do 2 f_equal. unfold raws. cbn. rewrite length_app. lia.
Qed.

Lemma length_raws_fins labels bl : length (raws bl) = length (fins labels bl).
Proof.
  induction bl as [|b bl IH]; [done |]. unfold raws, fins in *. cbn.
  by rewrite !length_app, IH, (length_raw_fin b (lab_off labels b)).
Qed.

Lemma patch_spec labels pre rest l off :
  0 <= l → labels !! Z.to_nat l = Some off → 0 <= off < 2 ^ 24 →
  patch labels (pre ++ None :: None :: None :: rest) (Z.of_nat (length pre), l)
  = Ok (pre ++ (Some <$> u24_bytes off) ++ rest).
Proof.
  intros Hl Hoff Hr. unfold patch. destruct (Z.ltb_spec l 0); [lia |]. rewrite Hoff.
  cbn [must mbind res_bind]. destruct (Z.ltb_spec 16777215 off); [lia |].
  rewrite Nat2Z.id. unfold mret, res_ret. f_equal.
  replace (S (S (length pre))) with (length pre + 2)%nat by lia.
  replace (S (length pre)) with (length pre + 1)%nat by lia.
  rewrite !insert_app_r. replace (length pre) with (length pre + 0)%nat at 1 by lia.
  by rewrite insert_app_r.
Qed.

Lemma raw_no_label b off : b_lab b = None → raw b = Some <$> fin b off.
Proof. intros El. unfold raw, fin. rewrite El. by rewrite fmap_app. Qed.

Lemma patch_block labels pre b l off rest :
  b_lab b = Some l → 0 <= l → labels !! Z.to_nat l = Some off → 0 <= off < 2 ^ 24 →
  patch labels (pre ++ raw b ++ rest) (Z.of_nat (length pre) + Z.of_nat (length (b_pre b)), l)
  = Ok (pre ++ (Some <$> fin b off) ++ rest).
Proof.
  intros El Hl Hoff Hr. unfold raw, fin. rewrite El, !fmap_app, <- !app_assoc.
  replace (Z.of_nat (length pre) + Z.of_nat (length (b_pre b)))
    with (Z.of_nat (length (pre ++ (Some <$> b_pre b)))) by (rewrite length_app, length_fmap; lia).
  rewrite (app_assoc pre). cbn [app]. erewrite patch_spec by done. by rewrite <- !app_assoc.
Qed.

Lemma patch_all_spec labels bl pre :
  (∀ b l, b ∈ bl → b_lab b = Some l → 0 <= l ∧ ∃ off, labels !! Z.to_nat l = Some off ∧ 0 <= off < 2 ^ 24) →
  patch_all labels ((Some <$> pre) ++ raws bl) (fix_list (Z.of_nat (length pre)) bl)
  = Ok (Some <$> (pre ++ fins labels bl)).
Proof.
  revert pre. induction bl as [|b bl IH]; intros pre Hl.
  { cbn. unfold fins. cbn. by rewrite !app_nil_r. }
  specialize (IH (pre ++ fin b (lab_off labels b))).
  rewrite length_app, Nat2Z.inj_add, <- (length_raw_fin b), fmap_app, <- !app_assoc in IH.
  rewrite raws_cons, fins_cons. cbn [fix_list].
  destruct (b_lab b) as [l|] eqn:El.
  - destruct (Hl b l ltac:(left) El) as (Hl0 & off & Hoff & Hr).
    assert (lab_off labels b = off) as Hlo
      by (unfold lab_off; rewrite El; by apply list_lookup_total_correct).
    cbn [app patch_all]. pose proof (patch_block labels (Some <$> pre) b l off) as Hp.
    rewrite length_fmap in Hp. rewrite Hp by done. cbn [mbind res_bind]. rewrite <- Hlo.
    apply IH. intros. eapply Hl; [by right | done].
  - rewrite (raw_no_label b (lab_off labels b) El) at 1. cbn [app].
    apply IH. intros. eapply Hl; [by right | done].
Qed.

(** ** Pre-decoding a sequence of blocks *)

Record item := mk_item { i_call : vm_call; i_set : Z; i_err : Z; i_chk : Z }.

Definition item_block (i : item) : block := call_block (i_set i) (i_err i) (i_chk i) (i_call i).

(** The instruction of an item, its label operand holding [t]. *)
Definition item_insn (t : Z) (i : item) : vm_insn := call_insn t (i_err i) (i_chk i) (i_call i).

Record item_ok (sets : list vm_charset) (errs : list string) (i : item) : Prop := {
  io_insn : is_insn (i_call i) = true;
  io_call : call_ok (i_call i);
  io_set : ∀ s, call_set (i_call i) = Some s → sets !! Z.to_nat (i_set i) = Some s;
  io_msg : ∀ m, i_call i = CError m → errs !! Z.to_nat (i_err i) = Some m;
  io_err : 0 <= i_err i < 2 ^ 24;
  io_chk : 0 <= i_chk i < 2 ^ 24;
}.

Lemma pass1_spec sets errs labels its fuel ip idx prog :
  Forall (item_ok sets errs) its →
  (∀ b, b ∈ item_block <$> its → 0 <= lab_off labels b < 2 ^ 24) →
  (length (fins labels (item_block <$> its)) <= fuel)%nat →
  ∃ idx', predecode_pass1 fuel sets (ip + Z.of_nat (length (fins labels (item_block <$> its))))
      (fins labels (item_block <$> its)) ip idx prog
    = Ok (idx', prog ++ ((λ i, item_insn (lab_off labels (item_block i)) i) <$> its)) ∧
    (∀ j, j < ip → idx' !! j = idx !! j) ∧
    (∀ n, (n <= length its)%nat →
       idx' !! (ip + off_of (item_block <$> its) n) = Some (Z.of_nat (length prog + n))).
Proof.
  revert fuel ip idx prog. induction its as [|i its IH]; intros fuel ip idx prog Hok Hoff Hfuel.
  { exists (<[ip + 0 := Z.of_nat (length prog)]> idx). split_and!.
    - destruct fuel; cbn; by rewrite app_nil_r.
    - intros j Hj. rewrite lookup_insert_ne by lia. done.
    - intros n Hn. cbn in Hn. assert (n = 0%nat) as -> by lia.
      cbn. rewrite lookup_insert_eq. do 2 f_equal. lia. }
  inversion Hok as [|? ? Hi Hits]; subst. destruct Hi.
  set (b := item_block i). set (w := fin b (lab_off labels b)).
  assert (fins labels (item_block <$> i :: its) = w ++ fins labels (item_block <$> its)) as Hw by done.
  rewrite Hw in *. rewrite length_app in Hfuel.
  pose proof (block_size (i_set i) (i_err i) (i_chk i) (i_call i) (lab_off labels b)) as Hsz.
  fold (item_block i) in Hsz. fold b in Hsz. fold w in Hsz.
  destruct (block_head (i_set i) (i_err i) (i_chk i) (i_call i) (lab_off labels b)) as [tl Htl].
  fold (item_block i) in Htl. fold b in Htl. fold w in Htl.
  pose proof (op_sizes_pos (b_op b)) as Hpos.
  destruct fuel as [|fuel]; [rewrite Htl in Hfuel; cbn in Hfuel; lia |].
  pose proof (decode_block (i_set i) (i_err i) (i_chk i) (i_call i) (lab_off labels b) sets
    (fins labels (item_block <$> its)) io_insn0 io_call0
    ltac:(apply Hoff; left) io_err0 io_chk0 io_set0) as Hdec.
  fold (item_block i) in Hdec. fold b in Hdec. fold w in Hdec.
  assert (∀ f, predecode_pass1 (S fuel) sets f (w ++ fins labels (item_block <$> its)) ip idx prog
    = predecode_pass1 fuel sets f (fins labels (item_block <$> its)) (ip + op_sizes (b_op b))
        (<[ip := Z.of_nat (length prog)]> idx) (prog ++ [item_insn (lab_off labels b) i])) as Hstep.
  { intros f. unfold item_insn. rewrite Htl. cbn [app predecode_pass1].
    rewrite op_of_byte_byte. cbn [must mbind res_bind].
    change (op_byte (b_op b) :: tl ++ fins labels (item_block <$> its))
      with ((op_byte (b_op b) :: tl) ++ fins labels (item_block <$> its)).
    rewrite <- Htl, Hdec. cbn [mbind res_bind]. rewrite drop_app_length'; [done | lia]. }
  rewrite Hstep. clear Hstep.
  destruct (IH fuel (ip + op_sizes (b_op b)) (<[ip := Z.of_nat (length prog)]> idx)
    (prog ++ [item_insn (lab_off labels b) i]) Hits) as (idx' & He & Hlow & Hidx).
  { intros b' Hb'. apply Hoff. by right. }
  { rewrite Htl in Hfuel. cbn in Hfuel. lia. }
  exists idx'. rewrite length_app, Nat2Z.inj_add, Z.add_assoc, Hsz, He. split_and!.
  - cbn. by rewrite <- app_assoc.
  - intros j Hj. rewrite Hlow by lia. rewrite lookup_insert_ne by lia. done.
  - intros [|n] Hn.
    + unfold off_of. cbn. rewrite Z.add_0_r, Hlow, lookup_insert_eq by lia. do 2 f_equal. lia.
    + assert (off_of (item_block <$> i :: its) (S n) = op_sizes (b_op b) + off_of (item_block <$> its) n) as ->.
      { unfold off_of, raws. cbn. rewrite length_app. fold b.
        rewrite (length_raw_fin b (lab_off labels b)). fold w. lia. }
      rewrite Z.add_assoc, Hidx by (cbn in Hn; lia). rewrite length_app. cbn. do 2 f_equal. lia.
Qed.

(** ** The builder's invariant *)

Definition check_count (cs : list vm_call) : Z :=
  Z.of_nat (length (filter (λ c, c = CCheckEnd) cs)).

(** Builder [p] has emitted the items [its]; label [l] is bound to the
    instruction index [lidx !! l]. *)
Record built (p : vm_prog) (its : list item) (lidx : list nat) : Prop := {
  bu_code : code p = raws (item_block <$> its);
  bu_fix : fixups p = fix_list 0 (item_block <$> its);
  bu_lab : labels p = off_of (item_block <$> its) <$> lidx;
  bu_lidx : Forall (λ n, n <= length its)%nat lidx;
  bu_ok : Forall (item_ok (sets p) (errors p)) its;
  bu_chk : ∀ n i, its !! n = Some i → i_chk i = check_count (i_call <$> take n its);
  bu_nchk : ncheckers p = check_count (i_call <$> its);
  bu_nsets : (length (sets p) <= 256)%nat;
  bu_wf : Forall charset_wf (sets p);
  bu_errs : (length (errors p) <= length its)%nat;
}.

Lemma find_index_Some {A} (f : A → bool) l n :
  find_index f l = Some n → ∃ x, l !! n = Some x ∧ f x = true.
Proof.
  revert n. induction l as [|y l IH]; intros n; cbn; [done |].
  destruct (f y) eqn:E; [intros [= <-]; by exists y |].
  destruct (find_index f l) as [m|]; [| done]. intros [= <-]. by apply IH.
Qed.

Lemma prefix_lookup {A} (l l' : list A) n x : l `prefix_of` l' → l !! n = Some x → l' !! n = Some x.
Proof. intros [k ->] Hl. by apply lookup_app_l_Some. Qed.

Lemma add_set_spec p s k p' :
  add_set p s = Ok (k, p') → charset_wf s → Forall charset_wf (sets p) → (length (sets p) <= 256)%nat →
  ∃ ss, p' = mk_prog (code p) ss (errors p) (labels p) (fixups p) (ncheckers p) ∧
    sets p `prefix_of` ss ∧ Forall charset_wf ss ∧ (length ss <= 256)%nat ∧ ss !! Z.to_nat k = Some s.
Proof.
  unfold add_set. intros Ha Hs Hwf Hlen. destruct (find_index _ _) as [n|] eqn:E.
  - apply find_index_Some in E as (s' & Hn & Heq). injection Ha as <- <-.
    pose proof (lookup_lt_Some _ _ _ Hn).
    apply vm_charset_eq_spec in Heq as ->; [| by apply (Forall_lookup_1 _ _ _ _ Hwf Hn) | done].
    exists (sets p). split_and!; try done; [by destruct p |].
    rewrite u8_id by (unfold is_byte; lia). by rewrite Nat2Z.id.
  - case_match eqn:E2; [done |]. zify_bool. injection Ha as <- <-.
    exists (sets p ++ [s]). split_and!; try done.
    + by apply prefix_app_r.
    + apply Forall_app. by rewrite Forall_singleton.
    + rewrite length_app. cbn. lia.
    + rewrite u8_id by (unfold is_byte; lia). by rewrite Nat2Z.id, list_lookup_middle.
Qed.

Lemma add_error_spec p m e p' :
  add_error p m = (e, p') → Z.of_nat (length (errors p)) < 2 ^ 24 →
  ∃ es, p' = mk_prog (code p) (sets p) es (labels p) (fixups p) (ncheckers p) ∧
    errors p `prefix_of` es ∧ (length es <= S (length (errors p)))%nat ∧
    es !! Z.to_nat e = Some m ∧ 0 <= e < 2 ^ 24.
Proof.
  unfold add_error. intros Ha Hlen. destruct (find_index _ _) as [n|] eqn:E; injection Ha as <- <-.
  - apply find_index_Some in E as (m' & Hn & ->%bool_decide_eq_true).
    pose proof (lookup_lt_Some _ _ _ Hn). unfold u32. rewrite Z.mod_small by lia.
    exists (errors p). split_and!; try done; try lia; [by destruct p | by rewrite Nat2Z.id].
  - unfold u32. rewrite Z.mod_small by lia.
    exists (errors p ++ [m]). split_and!; try done; try lia.
    + by apply prefix_app_r.
    + rewrite length_app. cbn. lia.
    + by rewrite Nat2Z.id, list_lookup_middle.
Qed.

(** One emit call appends one block and one fixup, and grows the tables. *)
Lemma do_call_insn p c p' :
  do_call p c = Ok p' → is_insn c = true → call_ok c →
  Forall charset_wf (sets p) → (length (sets p) <= 256)%nat →
  Z.of_nat (length (errors p)) < 2 ^ 24 → 0 <= ncheckers p < 2 ^ 24 →
  ∃ k e, let b := call_block k e (ncheckers p) c in
    code p' = code p ++ raw b ∧
    fixups p' = fixups p ++ fix_list (Z.of_nat (length (code p))) [b] ∧
    labels p' = labels p ∧ ncheckers p' = ncheckers p + check_count [c] ∧
    (sets p `prefix_of` sets p' ∧ Forall charset_wf (sets p') ∧ (length (sets p') <= 256)%nat ∧
     errors p `prefix_of` errors p' ∧ (length (errors p') <= S (length (errors p)))%nat) ∧
    (∀ s, call_set c = Some s → sets p' !! Z.to_nat k = Some s) ∧
    (∀ m, c = CError m → errors p' !! Z.to_nat e = Some m) ∧ 0 <= e < 2 ^ 24.
Proof.
  intros Hdo Hi Hc Hwf Hns Hne Hnc. unfold check_count.
  destruct c; try discriminate Hi; cbn [do_call] in Hdo;
  unfold vm_emit_set, vm_emit_span, vm_emit_test_set, vm_emit_test_set_nochoice, emit_op_set,
    emit_op_set_label in Hdo;
  try (apply bind_Ok in Hdo as ([k p1] & Ha & Hdo);
    apply add_set_spec in Ha as (ss & -> & ?); [| done..]);
  try (unfold vm_emit_error in Hdo; destruct (add_error p msg) as [e p1] eqn:Ha;
    apply add_error_spec in Ha as (es & -> & ?); [| done]);
  injection Hdo as <-;
  first [ exists k, 0 | exists 0, e | exists 0, 0 ]; cbn -[Z.add Z.of_nat]; unfold vm_prog_here;
  cbn -[Z.add Z.of_nat];
  split_and!; intros; simplify_eq; try done; try lia; try tauto;
  unfold u32; rewrite ?Z.mod_small by lia; try done; rewrite ?app_nil_r, ?Z.add_0_r; try done.
Qed.

Lemma item_ok_mono ss es ss' es' i :
  ss `prefix_of` ss' → es `prefix_of` es' → item_ok ss es i → item_ok ss' es' i.
Proof. intros ? ? []. split; eauto using prefix_lookup. Qed.

Lemma off_of_app bl1 bl2 n : (n <= length bl1)%nat → off_of (bl1 ++ bl2) n = off_of bl1 n.
Proof. intros. unfold off_of. rewrite take_app_le by done. done. Qed.

Lemma off_of_length bl : off_of bl (length bl) = Z.of_nat (length (raws bl)).
Proof. unfold off_of. by rewrite firstn_all. Qed.

Lemma raw_size its : (2 * length its <= length (raws (item_block <$> its)))%nat.
Proof.
  induction its as [|i its IH]; [cbn; lia |].
  rewrite fmap_cons, raws_cons, length_app. rewrite (length_raw_fin _ 0).
  pose proof (block_size (i_set i) (i_err i) (i_chk i) (i_call i) 0) as Hs. fold (item_block i) in Hs.
  pose proof (op_sizes_pos (b_op (item_block i))). cbn [length]. lia.
Qed.

Lemma built_new : built vm_prog_new [] [].
Proof. split; try done; cbn; lia. Qed.

Lemma check_count_app l1 l2 : check_count (l1 ++ l2) = check_count l1 + check_count l2.
Proof. unfold check_count. rewrite filter_app, length_app. lia. Qed.

Lemma check_count_bound l : 0 <= check_count l <= Z.of_nat (length l).
Proof. unfold check_count. pose proof (length_filter (λ c, c = CCheckEnd) l). lia. Qed.

Lemma built_insn p its lidx c p' :
  built p its lidx → do_call p c = Ok p' → is_insn c = true → call_ok c →
  Z.of_nat (length (code p)) < 2 ^ 24 →
  ∃ i, i_call i = c ∧ built p' (its ++ [i]) lidx.
Proof.
  intros Hb Hdo Hi Hc Hsz. destruct Hb.
  pose proof (raw_size its) as Hraw. rewrite <- bu_code0 in Hraw.
  pose proof (check_count_bound (i_call <$> its)) as Hcc. rewrite length_fmap in Hcc.
  destruct (do_call_insn p c p') as (k & e & Hcode & Hfix & Hlab & Hnchk & Htabs & Hset & Hmsg & He);
    try done; try lia.
  destruct Htabs as (Hss & Hwf' & Hns' & Hes & Hel).
  exists (mk_item c k e (ncheckers p)). split; [done |].
  assert (item_block <$> its ++ [mk_item c k e (ncheckers p)]
    = (item_block <$> its) ++ [call_block k e (ncheckers p) c]) as Hbl by (by rewrite fmap_app).
  split; try done.
  - by rewrite Hbl, raws_app, raws_cons, app_nil_r, Hcode, bu_code0.
  - by rewrite Hbl, fix_list_app, Hfix, bu_fix0, bu_code0, Z.add_0_l.
  - rewrite Hlab, bu_lab0, Hbl. apply list_fmap_ext. intros ? n Hn.
    rewrite off_of_app; [done |]. rewrite length_fmap. by apply (Forall_lookup_1 _ _ _ _ bu_lidx0 Hn).
  - eapply Forall_impl; [exact bu_lidx0 |]. intros n Hn. rewrite length_app. cbn in *. lia.
  - apply Forall_app. split.
    + eapply Forall_impl; [exact bu_ok0 |]. intros. by eapply item_ok_mono.
    + apply Forall_singleton. split; cbn; try done. rewrite bu_nchk0. lia.
  - intros n i Hn. apply lookup_app_Some in Hn as [Hn | [Hge Hn]].
    + rewrite take_app_le by (apply lookup_lt_Some in Hn; lia). by apply bu_chk0.
    + apply list_lookup_singleton_Some in Hn as [Hz <-]. cbn. rewrite take_app_ge, Hz, take_0, app_nil_r by lia. done.
  - rewrite Hnchk, bu_nchk0, fmap_app, check_count_app. done.
  - rewrite length_app. cbn. lia.
Qed.

(** Binding of labels to instruction indices, read off a call sequence. *)
Fixpoint label_targets (cs : list vm_call) (n : nat) (ls : list nat) : list nat :=
  match cs with
  | [] => ls
  | CLabel :: cs => label_targets cs n (ls ++ [n])
  | CMark l :: cs => label_targets cs n (<[Z.to_nat l := n]> ls)
  | _ :: cs => label_targets cs (S n) ls
  end.

Definition insn_calls (cs : list vm_call) : list vm_call := filter (λ c, is_insn c = true) cs.

Lemma add_set_code p s k p' : add_set p s = Ok (k, p') → code p' = code p.
Proof. unfold add_set. intros Ha. repeat case_match; try done; by injection Ha as _ <-. Qed.

Lemma add_error_code p m : code (add_error p m).2 = code p.
Proof. unfold add_error. by case_match. Qed.

Lemma do_call_code_mono p c p' : do_call p c = Ok p' → (length (code p) <= length (code p'))%nat.
Proof.
  intros Hdo. destruct c; cbn [do_call] in Hdo;
  unfold vm_emit_set, vm_emit_span, vm_emit_test_set, vm_emit_test_set_nochoice, emit_op_set,
    emit_op_set_label, vm_prog_mark, vm_emit_error in Hdo;
  try (apply bind_Ok in Hdo as ([k p1] & Ha%add_set_code & Hdo); rewrite <- Ha);
  try (pose proof (add_error_code p msg) as Ha; destruct (add_error p msg); rewrite <- Ha);
  repeat case_match; try discriminate Hdo; injection Hdo as <-; cbn; rewrite ?length_app; cbn; lia.
Qed.

Lemma do_calls_code_mono cs p p' : do_calls p cs = Ok p' → (length (code p) <= length (code p'))%nat.
Proof.
  revert p. induction cs as [|c cs IH]; intros p H; cbn in H; [injection H as ->; done |].
  apply bind_Ok in H as (p1 & H1%do_call_code_mono & H%IH). lia.
Qed.

Lemma built_calls cs p its lidx p' :
  built p its lidx → do_calls p cs = Ok p' → Forall call_ok cs →
  Z.of_nat (length (code p')) < 2 ^ 24 →
  ∃ its', i_call <$> its' = insn_calls cs ∧
    built p' (its ++ its') (label_targets cs (length its) lidx).
Proof.
  revert p its lidx. induction cs as [|c cs IH]; intros p its lidx Hb Hdo Hok Hsz; cbn in Hdo.
  { injection Hdo as <-. exists []. by rewrite app_nil_r. }
  apply bind_Ok in Hdo as (p1 & H1 & Hdo). inversion Hok; subst.
  assert (Z.of_nat (length (code p)) < 2 ^ 24).
  { apply do_call_code_mono in H1. apply do_calls_code_mono in Hdo. lia. }
  destruct (is_insn c) eqn:Hi.
  - destruct (built_insn p its lidx c p1) as (i & Hic & Hb1); try done.
    destruct (IH p1 _ lidx Hb1 Hdo) as (its' & Hits & Hb'); try done.
    exists (i :: its'). split; [unfold insn_calls; rewrite filter_cons_True by done; cbn; by f_equal |].
    rewrite <- app_assoc in Hb'. replace (label_targets (c :: cs) (length its) lidx)
      with (label_targets cs (length (its ++ [i])) lidx); [done |].
    rewrite length_app, Nat.add_1_r. by destruct c.
  - assert (∃ lidx1, built p1 its lidx1 ∧ label_targets (c :: cs) (length its) lidx
        = label_targets cs (length its) lidx1) as (lidx1 & Hb1 & ->).
    { destruct Hb. destruct c as [|l| | | | | | | | | | | | | | | | | | | | | | | | | | | | | | | | |];
        try discriminate Hi; cbn [do_call] in H1.
      - injection H1 as <-. exists (lidx ++ [length its]). split; [| done].
        split; try done; cbn.
        + rewrite fmap_app, bu_lab0. cbn. unfold vm_prog_here.
          rewrite bu_code0, <- off_of_length, length_fmap. done.
        + apply Forall_app. by rewrite Forall_singleton.
      - unfold vm_prog_mark in H1. case_match; [| done]. injection H1 as <-. zify_bool.
        exists (<[Z.to_nat l := length its]> lidx). split; [| done]. split; try done; cbn.
        + rewrite list_fmap_insert, bu_lab0. f_equal. unfold vm_prog_here.
          rewrite bu_code0, <- off_of_length, length_fmap. done.
        + by apply Forall_insert. }
    destruct (IH p1 its lidx1 Hb1 Hdo) as (its' & Hits & Hb'); try done.
    exists its'. split; [| done]. unfold insn_calls. by rewrite filter_cons_False by (by rewrite Hi).
Qed.

(** ** Finishing a built program *)

Definition target_of (ls : list nat) (c : vm_call) : Z :=
  match call_label c with Some l => Z.of_nat (ls !!! Z.to_nat l) | None => 0 end.

Lemma b_lab_item i : b_lab (item_block i) = call_label (i_call i).
Proof. unfold item_block, call_label. by destruct (i_call i). Qed.

Lemma call_insn_no_label c t t' e chk : call_label c = None → call_insn t e chk c = call_insn t' e chk c.
Proof. by destruct c. Qed.

Lemma call_insn_retarget c t t' e chk : is_insn c = true → call_label c ≠ None →
  a (call_insn t e chk c) = t ∧
  mk_insn (op (call_insn t e chk c)) t' (b (call_insn t e chk c)) (set (call_insn t e chk c))
  = call_insn t' e chk c.
Proof. intros Hi. by destruct c. Qed.

Lemma pass2_spec idx ls (f : item → Z) its :
  (∀ i, i ∈ its → is_insn (i_call i) = true) →
  (∀ i l, i ∈ its → call_label (i_call i) = Some l → idx !! f i = Some (Z.of_nat (ls !!! Z.to_nat l))) →
  predecode_pass2 idx ((λ i, item_insn (f i) i) <$> its)
  = Ok ((λ i, item_insn (target_of ls (i_call i)) i) <$> its).
Proof.
  induction its as [|i its IH]; intros Hi Hidx; [done |].
  cbn [fmap list_fmap predecode_pass2 foldr]. unfold predecode_pass2 in IH.
  fold (fmap (M := list) (λ i, item_insn (f i) i) its).
  rewrite IH by (intros; (eapply Hi || eapply Hidx); [by right | done..]) || idtac.
  - cbn [mbind res_bind]. unfold item_insn, target_of.
    specialize (Hi i ltac:(left)). rewrite target_iff_label by done.
    destruct (call_label (i_call i)) as [l|] eqn:El.
    + rewrite bool_decide_true by by eexists.
      destruct (call_insn_retarget (i_call i) (f i) (Z.of_nat (ls !!! Z.to_nat l)) (i_err i) (i_chk i) Hi)
        as [-> Hr]; [by rewrite El |].
      rewrite (Hidx i l ltac:(left) El). cbn [must mbind res_bind]. by rewrite Hr.
    + rewrite bool_decide_false by by intros [? ?].
      by rewrite (call_insn_no_label _ (f i) 0).
Qed.

Lemma mapM_id_Some {A} (l : list A) : mapM id (Some <$> l) = Some l.
Proof. induction l as [|x l IH]; [done |]. cbn. by rewrite IH. Qed.

Lemma built_finish p its lidx :
  built p its lidx → Z.of_nat (length (code p)) < 2 ^ 24 →
  (∀ i l, i ∈ its → call_label (i_call i) = Some l → 0 <= l < Z.of_nat (length lidx)) →
  ∃ bytes, patch_all (labels p) (code p) (fixups p) = Ok (Some <$> bytes) ∧
    length bytes = length (code p) ∧
    vm_predecode bytes (sets p) = Ok ((λ i, item_insn (target_of lidx (i_call i)) i) <$> its).
Proof.
  intros Hb Hsz Hlab. destruct Hb. set (bl := item_block <$> its) in *.
  exists (fins (labels p) bl).
  assert (∀ i l, i ∈ its → call_label (i_call i) = Some l → ∃ n,
    lidx !! Z.to_nat l = Some n ∧ (n <= length its)%nat ∧ labels p !! Z.to_nat l = Some (off_of bl n)) as Hl.
  { intros i l Hi El. specialize (Hlab i l Hi El).
    destruct (lookup_lt_is_Some_2 lidx (Z.to_nat l)) as [n Hn]; [lia |].
    exists n. split_and!; [done | by apply (Forall_lookup_1 _ _ _ _ bu_lidx0 Hn) |].
    rewrite bu_lab0, list_lookup_fmap, Hn. done. }
  assert (∀ n, (n <= length its)%nat → 0 <= off_of bl n < 2 ^ 24) as Hoff.
  { intros n Hn. split; [unfold off_of; lia |]. unfold off_of.
    rewrite bu_code0 in Hsz. rewrite <- (take_drop n bl), raws_app, length_app in Hsz. lia. }
  split_and!.
  - rewrite bu_code0, bu_fix0. apply (patch_all_spec (labels p) bl []).
    intros b l Hb Elb. apply list_elem_of_fmap in Hb as (i & -> & Hi). rewrite b_lab_item in Elb.
    destruct (Hl i l Hi Elb) as (n & _ & Hn & Hln). specialize (Hlab i l Hi Elb).
    split; [lia |]. eauto.
  - by rewrite bu_code0, (length_raws_fins (labels p)).
  - unfold vm_predecode.
    destruct (pass1_spec (sets p) (errors p) (labels p) its (length (fins (labels p) bl)) 0 ∅ [])
      as (idx & He & _ & Hidx); [done | | done |].
    { intros b Hb. apply list_elem_of_fmap in Hb as (i & -> & Hi). unfold lab_off. rewrite b_lab_item.
      destruct (call_label (i_call i)) as [l|] eqn:El; [| lia].
      destruct (Hl i l Hi El) as (n & _ & Hn & Hln). rewrite (list_lookup_total_correct _ _ _ Hln). auto. }
    fold bl in He. rewrite Z.add_0_l in He. rewrite He. cbn [mbind res_bind app].
    apply pass2_spec.
    + intros i Hi. rewrite Forall_forall in bu_ok0. by destruct (bu_ok0 i Hi).
    + intros i l Hi El. destruct (Hl i l Hi El) as (n & Hn & Hle & Hln).
      unfold lab_off. rewrite b_lab_item, El, (list_lookup_total_correct _ _ _ Hln).
      specialize (Hidx n Hle). rewrite Z.add_0_l in Hidx. fold bl in Hidx. rewrite Hidx. cbn.
      by rewrite (list_lookup_total_correct _ _ _ Hn).
Qed.

Lemma do_calls_app p cs cs' : do_calls p (cs ++ cs') = (p ← do_calls p cs; do_calls p cs').
Proof.
  revert p. induction cs as [|c cs IH]; intros p; [done |]. cbn.
  destruct (do_call p c); cbn; [apply IH | done..].
Qed.

Lemma label_targets_end cs n ls : label_targets (cs ++ [CEnd false]) n ls = label_targets cs n ls.
Proof. revert n ls. induction cs as [|c cs IH]; intros n ls; [done |]. destruct c; cbn; apply IH. Qed.

Lemma length_labels_targets cs p its lidx p' : built p its lidx → do_calls p cs = Ok p' →
  Forall call_ok cs → Z.of_nat (length (code p')) < 2 ^ 24 →
  length (labels p') = length (label_targets cs (length its) lidx).
Proof.
  intros Hb Hdo Hok Hsz. destruct (built_calls cs p its lidx p' Hb Hdo Hok Hsz) as (its' & _ & [? ? -> ? ? ? ? ? ? ?]).
  by rewrite length_fmap.
Qed.

Lemma finish_decodes (cs : list vm_call) (p : vm_prog) :
  Forall call_ok cs → do_calls vm_prog_new cs = Ok p →
  Z.of_nat (length (code p)) + 2 < 2 ^ 24 →
  (∀ c l, c ∈ cs → call_label c = Some l → 0 <= l < Z.of_nat (length (labels p))) →
  ∃ c, vm_prog_finish p = Ok c ∧
    length (prog c) = S (length (insn_calls cs)) ∧
    (∀ n call, insn_calls cs !! n = Some call →
       ∃ e, prog c !! n = Some (call_insn (target_of (label_targets cs 0 []) call) e
                                  (check_count (take n (insn_calls cs))) call) ∧
            (∀ m, call = CError m → cerrors c !! Z.to_nat e = Some m)) ∧
    prog c !! length (insn_calls cs) = Some (mk_insn VM_END 0 0 None).
Proof.
  intros Hok Hdo Hsz Hlab.
  set (pe := emit_op_u8 p VM_END 0).
  assert (do_calls vm_prog_new (cs ++ [CEnd false]) = Ok pe) as Hdoe by (by rewrite do_calls_app, Hdo).
  assert (Forall call_ok (cs ++ [CEnd false])) as Hoke by (apply Forall_app; by rewrite Forall_singleton).
  assert (Z.of_nat (length (code pe)) < 2 ^ 24) as Hsze by (cbn; rewrite length_app; cbn; lia).
  destruct (built_calls _ _ [] [] pe built_new Hdoe Hoke Hsze) as (its & Hits & Hb).
  pose proof (length_labels_targets _ _ [] [] pe built_new Hdoe Hoke Hsze) as Hll.
  cbn [length app] in Hb, Hll. rewrite label_targets_end in Hb, Hll.
  assert (insn_calls (cs ++ [CEnd false]) = insn_calls cs ++ [CEnd false]) as Hic
    by (unfold insn_calls; by rewrite filter_app).
  rewrite Hic in Hits.
  assert (∀ i, i ∈ its → i_call i ∈ cs ∨ i_call i = CEnd false) as Hin.
  { intros i Hi. apply (list_elem_of_fmap_2 i_call) in Hi. rewrite Hits in Hi.
    apply elem_of_app in Hi as [Hi | ->%list_elem_of_singleton]; [left | by right].
    by apply list_elem_of_filter in Hi as [_ Hi]. }
  destruct (built_finish pe its _ Hb Hsze) as (bytes & Hp & Hlen & Hd).
  { intros i l Hi El. destruct (Hin i Hi) as [Hic' | Hend]; [| by rewrite Hend in El].
    rewrite <- Hll. by apply (Hlab (i_call i)). }
  unfold vm_prog_finish. fold pe. rewrite Hp. cbn [mbind res_bind]. rewrite mapM_id_Some.
  cbn [must mbind res_bind]. rewrite Hd. cbn [mbind res_bind].
  eexists. split; [done |]. cbn [prog cerrors].
  assert (∀ n call, (insn_calls cs ++ [CEnd false]) !! n = Some call → ∃ i, its !! n = Some i ∧
    i_call i = call ∧ i_chk i = check_count (take n (insn_calls cs ++ [CEnd false])) ∧
    (∀ m, call = CError m → errors pe !! Z.to_nat (i_err i) = Some m)) as Hget.
  { intros n call Hn. rewrite <- Hits in Hn. apply list_lookup_fmap_Some in Hn as (i & -> & Hn).
    exists i. split_and!; try done.
    - destruct Hb. rewrite (bu_chk0 n i Hn), <- Hits, fmap_take. done.
    - destruct Hb. by apply (Forall_lookup_1 _ _ _ _ bu_ok0 Hn). }
  split_and!.
  - rewrite length_fmap. rewrite <- (length_fmap i_call), Hits, length_app. cbn. lia.
  - intros n call Hn. destruct (Hget n call) as (i & Hi & <- & Hchk & Hm); [by apply lookup_app_l_Some |].
    exists (i_err i). split; [| done]. rewrite list_lookup_fmap, Hi. cbn. unfold item_insn.
    rewrite Hchk, take_app_le by (apply lookup_lt_Some in Hn; lia). done.
  - destruct (Hget (length (insn_calls cs)) (CEnd false)) as (i & Hi & Hc & _); [by apply list_lookup_middle |].
    rewrite list_lookup_fmap, Hi. cbn. unfold item_insn. by rewrite Hc.
Qed.

(** C11. Encoding, backpatching and pre-decoding lose nothing: whatever
    sequence of builder calls a client makes with operands of the declared
    types, bound labels, at most 256 distinct sets (no [Abort] on the way) and
    under 16 MB of code, [vm_prog_finish] succeeds and its executable program
    is, instruction for instruction, what was emitted followed by [End], with
    every jump target the index of the instruction its label was last placed
    at, every charset the one passed, every error index that of the message
    and checkers numbered in emission order. *)
Theorem vm_prog_finish_decodes (cs : list vm_call) (p : vm_prog) :
  Forall call_ok cs → do_calls vm_prog_new cs = Ok p →
  Z.of_nat (length (code p)) + 2 < 2 ^ 24 →
  (∀ c l, c ∈ cs → call_label c = Some l → 0 <= l < Z.of_nat (length (labels p))) →
  ∃ c, vm_prog_finish p = Ok c ∧
    length (prog c) = S (length (insn_calls cs)) ∧
    (∀ n call, insn_calls cs !! n = Some call →
       ∃ e, prog c !! n = Some (call_insn (target_of (label_targets cs 0 []) call) e
                                  (check_count (take n (insn_calls cs))) call) ∧
            (∀ m, call = CError m → cerrors c !! Z.to_nat e = Some m)) ∧
    prog c !! length (insn_calls cs) = Some (mk_insn VM_END 0 0 None).
Proof. apply finish_decodes. Qed.

(** [("a" / "b")*] compiled by hand, with a backward and two forward labels. *)
Definition demo_calls : list vm_call :=
  [CLabel; CLabel; CLabel; CMark 0; CTestChar 97 1; CPartialCommit 0; CMark 1;
   CTestSet (vm_charset_fill [98]) 2; CJump 0; CMark 2].

Definition demo_prog : vm_prog :=
  match do_calls vm_prog_new demo_calls with Ok p => p | _ => vm_prog_new end.

Lemma vm_prog_finish_decodes_witness : ∃ c,
  do_calls vm_prog_new demo_calls = Ok demo_prog ∧ vm_prog_finish demo_prog = Ok c ∧
  prog c !! 0%nat = Some (mk_insn VM_TEST_CHAR 2 97 None) ∧
  prog c !! 5%nat = None ∧ length (prog c) = 5%nat.
Proof.
  destruct (vm_prog_finish_decodes demo_calls demo_prog) as (c & Hf & Hl & Hn & _).
  - apply Forall_forall. intros c Hc.
    repeat (apply elem_of_cons in Hc as [-> | Hc];
      [first [exact I | unfold call_ok, is_byte; lia
             | unfold call_ok; apply vm_charset_fill_wf, Forall_singleton; unfold is_byte; lia] |]).
    by apply not_elem_of_nil in Hc.
  - vm_compute. reflexivity.
  - vm_compute. reflexivity.
  - assert (length (labels demo_prog) = 3%nat) as -> by (vm_compute; reflexivity). intros c l Hc.
    repeat (apply elem_of_cons in Hc as [-> | Hc]; [cbn; intros [=]; subst; lia |]).
    by apply not_elem_of_nil in Hc.
  - exists c. split; [vm_compute; reflexivity |]. split; [exact Hf |].
    destruct (Hn 0%nat (CTestChar 97 1) eq_refl) as (e & -> & _).
    split; [reflexivity |]. change (length (insn_calls demo_calls)) with 4%nat in Hl.
    split; [| exact Hl]. apply lookup_ge_None. lia.
Defined.
