(* ===== verification/ITree.v ===== *)
(** * ITree: the interval tree with lazy shifting (src/interval_tree.c)

    An AVL tree keyed by (position, id).  Each node owns a group of intervals
    and an upper bound [n_max] on the interval ends of its subtree; shifts are
    appended to a log and absorbed by a node when it is next visited.

    A node is an [iv_data] with two subtrees.  The back pointer [n->tree] is
    the [log] argument; a group's address (the [itree_loc] handle) is its
    [loc], and [loc->node] is the node of the tree that carries that [loc]. *)
From S2P Require Import Prelude.

Record iv_key := mk_key { k_pos : Z; k_id : Z }.

#[export] Instance iv_key_eq_dec : EqDecision iv_key.
Proof. solve_decision. Defined.

Definition iv_key_cmp (a b : iv_key) : Z :=
  if k_pos a <? k_pos b then -1
  else if k_pos b <? k_pos a then 1
  else if k_id a <? k_id b then -1
  else if k_id b <? k_id a then 1
  else 0.

(** A recorded shift: intervals starting at or after [idx] move by [amt]. *)
Record iv_shift := mk_shift { idx : Z; amt : Z; s_tstamp : Z }.

Section Tree.
Context {V : Type}.

Record iv_ins := mk_ins { low : Z; high : Z; value : V }.

Record itree_ivals := mk_ivals { ins : list iv_ins; loc : positive }.

Record iv_data := mk_data {
  n_key : iv_key;
  n_max : Z;
  n_iv : itree_ivals;
  n_tstamp : Z;
  n_height : Z;
}.

Inductive iv_node := Nil | Node (d : iv_data) (left right : iv_node).

Record itree := mk_tree {
  root : iv_node;
  shifts : list iv_shift;
  t_tstamp : Z;
  next_loc : positive;      (* allocator of group addresses *)
}.

(** ** Small helpers *)

Definition iv_max (a b : Z) : Z := if b <? a then a else b.

Definition iv_group_high (iv : itree_ivals) : Z :=
  fold_left (λ m i, iv_max m (high i)) (ins iv) 0.

Definition iv_overlaps (i : iv_ins) (lo hi : Z) : bool := (low i <? hi) && (lo <? high i).

Definition iv_group_push (iv : itree_ivals) (lo hi : Z) (v : V) : itree_ivals :=
  mk_ivals (ins iv ++ [mk_ins lo hi v]) (loc iv).

Definition iv_group_shift (iv : itree_ivals) (amt : Z) : itree_ivals :=
  mk_ivals ((λ i, mk_ins (low i + amt) (high i + amt) (value i)) <$> ins iv) (loc iv).

Definition iv_height (n : iv_node) : Z := match n with Nil => 0 | Node d _ _ => n_height d end.

Definition with_max (d : iv_data) (m : Z) : iv_data :=
  mk_data (n_key d) m (n_iv d) (n_tstamp d) (n_height d).

Definition iv_update_max (d : iv_data) (left right : iv_node) : iv_data :=
  let m := iv_group_high (n_iv d) in
  let m := match left with Node e _ _ => iv_max m (n_max e) | Nil => m end in
  let m := match right with Node e _ _ => iv_max m (n_max e) | Nil => m end in
  if n_max d <? m then with_max d m else d.

Definition iv_update_height (d : iv_data) (left right : iv_node) : iv_data :=
  mk_data (n_key d) (n_max d) (n_iv d) (n_tstamp d) (1 + iv_max (iv_height left) (iv_height right)).

Definition iv_balance (n : iv_node) : res Z :=
  match n with Nil => Undef | Node _ l r => mret (iv_height l - iv_height r) end.

(** ** Lazy shift application *)

Definition iv_apply_shift (d : iv_data) (s : iv_shift) : iv_data :=
  if s_tstamp s <=? n_tstamp d then d
  else if idx s <=? n_max d then
    if idx s <=? k_pos (n_key d) then
      mk_data (mk_key (k_pos (n_key d) + amt s) (k_id (n_key d))) (n_max d + amt s)
        (iv_group_shift (n_iv d) (amt s)) (s_tstamp s) (n_height d)
    else mk_data (n_key d) (n_max d + amt s) (n_iv d) (s_tstamp s) (n_height d)
  else mk_data (n_key d) (n_max d) (n_iv d) (s_tstamp s) (n_height d).

(** The suffix of the log found by walking back while stamps are newer. *)
Fixpoint newer_prefix (ts : Z) (rlog : list iv_shift) : list iv_shift :=
  match rlog with
  | s :: rlog => if ts <? s_tstamp s then s :: newer_prefix ts rlog else []
  | [] => []
  end.

Definition iv_pending (log : list iv_shift) (ts : Z) : list iv_shift :=
  reverse (newer_prefix ts (reverse log)).

Definition iv_apply_shifts (log : list iv_shift) (d : iv_data) (left right : iv_node) : iv_data :=
  match last log with
  | None => d
  | Some s =>
      let d := if n_tstamp d <? s_tstamp s
               then fold_left iv_apply_shift (iv_pending log (n_tstamp d)) d else d in
      iv_update_max d left right
  end.

(** [iv_apply_shifts(n)] on a possibly NULL pointer's target. *)
Definition apply_at (log : list iv_shift) (n : iv_node) : iv_node :=
  match n with Nil => Nil | Node d l r => Node (iv_apply_shifts log d l r) l r end.

Definition iv_record_shift (t : itree) (idx amt : Z) : itree :=
  if amt =? 0 then t
  else mk_tree (root t) (shifts t ++ [mk_shift idx amt (t_tstamp t + 1)]) (t_tstamp t + 1) (next_loc t).

(** ** AVL rebalancing *)

(** Height and bound recomputed, in that order, as every caller does. *)
Definition iv_update (d : iv_data) (left right : iv_node) : iv_data :=
  iv_update_max (iv_update_height d left right) left right.

Definition iv_rotate_left (log : list iv_shift) (n : iv_node) : res iv_node :=
  match n with
  | Node d l (Node e rl rr as newroot) =>
      let d := iv_apply_shifts log d l newroot in
      let e := iv_apply_shifts log e rl rr in
      let n := Node (iv_update d l rl) l rl in
      mret (Node (iv_update e n rr) n rr)
  | _ => Undef
  end.

Definition iv_rotate_right (log : list iv_shift) (n : iv_node) : res iv_node :=
  match n with
  | Node d (Node e ll lr as newroot) r =>
      let d := iv_apply_shifts log d newroot r in
      let e := iv_apply_shifts log e ll lr in
      let n := Node (iv_update d lr r) lr r in
      mret (Node (iv_update e ll n) ll n)
  | _ => Undef
  end.

(** [fuel] bounds the rotations along one root path; the height difference
    is enough (theorem [iv_rebalance_spec]). *)
Fixpoint iv_rebalance_fuel (fuel : nat) (log : list iv_shift) (n : iv_node) : res iv_node :=
  match n with
  | Nil => mret Nil
  | Node d l r =>
      let d := iv_update d l r in
      let bf := iv_height l - iv_height r in
      if 1 <? bf then
        match fuel with
        | O => Fuel
        | S fuel =>
            bl ← iv_balance l;
            l ← (if bl <? 0 then iv_rotate_left log l else mret l);
            n ← iv_rotate_right log (Node d l r);
            match n with
            | Nil => Undef
            | Node d l r => r ← iv_rebalance_fuel fuel log r; iv_rebalance_fuel fuel log (Node d l r)
            end
        end
      else if bf <? -1 then
        match fuel with
        | O => Fuel
        | S fuel =>
            br ← iv_balance r;
            r ← (if 0 <? br then iv_rotate_right log r else mret r);
            n ← iv_rotate_left log (Node d l r);
            match n with
            | Nil => Undef
            | Node d l r => l ← iv_rebalance_fuel fuel log l; iv_rebalance_fuel fuel log (Node d l r)
            end
        end
      else mret (Node d l r)
  end.

Definition iv_rebalance (log : list iv_shift) (n : iv_node) : res iv_node :=
  match n with
  | Nil => mret Nil
  | Node _ l r => iv_rebalance_fuel (Z.to_nat (Z.abs (iv_height l - iv_height r))) log n
  end.

(** ** Insertion *)

Fixpoint iv_add (log : list iv_shift) (now : Z) (fresh : positive) (n : iv_node) (key : iv_key)
    (hi : Z) (v : V) : res (iv_node * positive) :=
  match n with
  | Nil =>
      let iv := iv_group_push (mk_ivals [] fresh) (k_pos key) hi v in
      mret (Node (mk_data key hi iv now 1) Nil Nil, fresh)
  | Node d l r =>
      let d := iv_apply_shifts log d l r in
      let c := iv_key_cmp key (n_key d) in
      if c <? 0 then
        '(l, h) ← iv_add log now fresh l key hi v;
        n ← iv_rebalance log (Node d l r); mret (n, h)
      else if 0 <? c then
        '(r, h) ← iv_add log now fresh r key hi v;
        n ← iv_rebalance log (Node d l r); mret (n, h)
      else
        let d := mk_data (n_key d) (n_max d) (iv_group_push (n_iv d) (k_pos key) hi v) now (n_height d) in
        n ← iv_rebalance log (Node d l r); mret (n, loc (n_iv d))
  end.

(** ** Deletion *)

(** The walk to the leftmost node, each left child brought up to date on
    the way; the last node's data is returned with the tree. *)
Fixpoint iv_find_smallest (log : list iv_shift) (d : iv_data) (l r : iv_node) : iv_node * iv_data :=
  match l with
  | Nil => (Node d l r, d)
  | Node e ll lr =>
      let '(l, s) := iv_find_smallest log (iv_apply_shifts log e ll lr) ll lr in (Node d l r, s)
  end.

(** [succ->iv = tmp] for the leftmost node. *)
Fixpoint set_smallest_iv (n : iv_node) (iv : itree_ivals) : iv_node :=
  match n with
  | Nil => Nil
  | Node d Nil r => Node (mk_data (n_key d) (n_max d) iv (n_tstamp d) (n_height d)) Nil r
  | Node d l r => Node d (set_smallest_iv l iv) r
  end.

Fixpoint iv_remove (fuel : nat) (log : list iv_shift) (n : iv_node) (key : iv_key) : res iv_node :=
  match n with
  | Nil => mret Nil
  | Node d l r =>
      match fuel with
      | O => Fuel
      | S fuel =>
          let d := iv_apply_shifts log d l r in
          let c := iv_key_cmp key (n_key d) in
          if c <? 0 then
            l ← iv_remove fuel log l key; iv_rebalance log (Node d l r)
          else if 0 <? c then
            r ← iv_remove fuel log r key; iv_rebalance log (Node d l r)
          else
            match l, r with
            | Node _ _ _, Node e rl rr =>
                let l := apply_at log l in
                let '(r, succ) := iv_find_smallest log (iv_apply_shifts log e rl rr) rl rr in
                let r := set_smallest_iv r (n_iv d) in
                let d := mk_data (n_key succ) (n_max d) (n_iv succ) (n_tstamp succ) (n_height d) in
                r ← iv_remove fuel log r (n_key succ);
                iv_rebalance log (Node d l r)
            | Node _ _ _, Nil => iv_rebalance log (apply_at log l)
            | Nil, Node _ _ _ => iv_rebalance log (apply_at log r)
            | Nil, Nil => mret Nil
            end
      end
  end.

Fixpoint iv_nnodes (n : iv_node) : nat :=
  match n with Nil => O | Node _ l r => S (iv_nnodes l + iv_nnodes r) end.

(** What a callback ([on_evict], [itree_each]'s [fn]) is called with: the
    current position of the interval's group (what [itree_loc_pos] of its
    handle returns at that point) and the interval itself. *)
Record eviction := mk_eviction { ev_pos : Z; ev_ins : iv_ins }.

(** The swap-with-last loop over one group; [fuel] is the group's size. *)
Fixpoint drop_overlaps (fuel : nat) (i : nat) (l : list iv_ins) (lo hi : Z) : list iv_ins * list iv_ins :=
  match fuel with
  | O => (l, [])
  | S fuel =>
      match l !! i with
      | None => (l, [])
      | Some x =>
          if iv_overlaps x lo hi then
            let l := match last l with
                     | Some y => take (length l - 1) (<[i := y]> l)
                     | None => l
                     end in
            let '(l, ev) := drop_overlaps fuel i l lo hi in (l, x :: ev)
          else drop_overlaps fuel (S i) l lo hi
      end
  end.

Fixpoint iv_remove_overlaps (fuel : nat) (log : list iv_shift) (n : iv_node) (lo hi : Z)
    : res (iv_node * list eviction) :=
  match n with
  | Nil => mret (Nil, [])
  | Node d l r =>
      match fuel with
      | O => Fuel
      | S fuel =>
          let d := iv_apply_shifts log d l r in
          if n_max d <? lo then mret (Node d l r, [])
          else
            '(l, ev1) ← iv_remove_overlaps fuel log l lo hi;
            let '(group, out) := drop_overlaps (length (ins (n_iv d))) 0 (ins (n_iv d)) lo hi in
            let ev2 := mk_eviction (k_pos (n_key d)) <$> out in
            let d := mk_data (n_key d) (n_max d) (mk_ivals group (loc (n_iv d))) (n_tstamp d) (n_height d) in
            match group with
            | [] =>
                n ← iv_remove (S (iv_nnodes (Node d l r))) log (Node d l r) (n_key d);
                '(n, ev3) ← (if k_pos (n_key d) <=? hi then iv_remove_overlaps fuel log n lo hi
                             else mret (n, []));
                n ← iv_rebalance log n;
                mret (n, ev1 ++ ev2 ++ ev3)
            | _ =>
                if hi <? k_pos (n_key d) then
                  n ← iv_rebalance log (Node d l r); mret (n, ev1 ++ ev2)
                else
                  '(r, ev3) ← iv_remove_overlaps fuel log r lo hi;
                  n ← iv_rebalance log (Node d l r); mret (n, ev1 ++ ev2 ++ ev3)
            end
      end
  end.

(** ** Public API *)

Definition itree_new : itree := mk_tree Nil [] 0 1%positive.

Definition itree_add (t : itree) (id lo hi : Z) (v : V) : res (itree * positive) :=
  '(n, h) ← iv_add (shifts t) (t_tstamp t) (next_loc t) (root t) (mk_key lo id) hi v;
  mret (mk_tree n (shifts t) (t_tstamp t) (Pos.succ (next_loc t)), h).

(** The search loop: the nodes of the path are brought up to date; the
    group found is returned. *)
Fixpoint iv_search (log : list iv_shift) (n : iv_node) (key : iv_key) : iv_node * option itree_ivals :=
  match n with
  | Nil => (Nil, None)
  | Node d l r =>
      let d := iv_apply_shifts log d l r in
      let c := iv_key_cmp key (n_key d) in
      if c <? 0 then let '(l, g) := iv_search log l key in (Node d l r, g)
      else if 0 <? c then let '(r, g) := iv_search log r key in (Node d l r, g)
      else (Node d l r, Some (n_iv d))
  end.

(** First longest interval of a non-empty group. *)
Definition longest (best : iv_ins) (l : list iv_ins) : iv_ins :=
  fold_left (λ best i, if high best - low best <? high i - low i then i else best) l best.

Definition itree_find_largest (t : itree) (id pos : Z) : itree * option V :=
  let '(n, g) := iv_search (shifts t) (root t) (mk_key pos id) in
  (mk_tree n (shifts t) (t_tstamp t) (next_loc t),
   match g with
   | Some (mk_ivals (i :: l) _) => Some (value (longest i l))
   | _ => None
   end).

Definition itree_remove_and_shift_cb (t : itree) (lo hi amt : Z) : res (itree * list eviction) :=
  '(n, ev) ← iv_remove_overlaps (S (iv_nnodes (root t))) (shifts t) (root t) lo hi;
  mret (iv_record_shift (mk_tree n (shifts t) (t_tstamp t) (next_loc t)) lo amt, ev).

Definition itree_remove_and_shift (t : itree) (lo hi amt : Z) : res itree :=
  '(t, _) ← itree_remove_and_shift_cb t lo hi amt; mret t.

Fixpoint iv_size (n : iv_node) : Z :=
  match n with Nil => 0 | Node d l r => iv_size l + iv_size r + Z.of_nat (length (ins (n_iv d))) end.

Definition itree_size (t : itree) : Z := iv_size (root t).

(** The visited tree and the calls made to [fn], in order. *)
Fixpoint iv_each (log : list iv_shift) (n : iv_node) : iv_node * list eviction :=
  match n with
  | Nil => (Nil, [])
  | Node d l r =>
      let '(l, c1) := iv_each log l in
      let d := iv_apply_shifts log d l r in
      let '(r, c2) := iv_each log r in
      (Node d l r, c1 ++ (mk_eviction (k_pos (n_key d)) <$> ins (n_iv d)) ++ c2)
  end.

Definition itree_each (t : itree) : itree * list eviction :=
  let '(n, c) := iv_each (shifts t) (root t) in
  (mk_tree n (shifts t) (t_tstamp t) (next_loc t), c).

(** [iv_apply_shifts(loc->node); return loc->node->key.pos;] *)
Fixpoint iv_loc_pos (log : list iv_shift) (n : iv_node) (h : positive) : iv_node * option Z :=
  match n with
  | Nil => (Nil, None)
  | Node d l r =>
      if bool_decide (loc (n_iv d) = h) then
        let d := iv_apply_shifts log d l r in (Node d l r, Some (k_pos (n_key d)))
      else
        match iv_loc_pos log l h with
        | (l, Some p) => (Node d l r, Some p)
        | (_, None) => let '(r, o) := iv_loc_pos log r h in (Node d l r, o)
        end
  end.

Definition itree_loc_pos (t : itree) (h : positive) : res (itree * Z) :=
  let '(n, o) := iv_loc_pos (shifts t) (root t) h in
  p ← must o; mret (mk_tree n (shifts t) (t_tstamp t) (next_loc t), p).

Fixpoint iv_apply_all (log : list iv_shift) (n : iv_node) : iv_node :=
  match n with
  | Nil => Nil
  | Node d l r =>
      let l := iv_apply_all log l in
      let r := iv_apply_all log r in
      Node (iv_apply_shifts log d l r) l r
  end.

Definition itree_apply_all_shifts (t : itree) : itree :=
  mk_tree (iv_apply_all (shifts t) (root t)) [] (t_tstamp t) (next_loc t).

(** ** Verification (tests/debugging) *)

(** [None]: a violation was reported; [Some h]: fine, with that height. *)
Fixpoint iv_verify_node (n : iv_node) (lo hi : option iv_key) : option Z :=
  match n with
  | Nil => Some 0
  | Node d l r =>
      if match lo with Some k => iv_key_cmp (n_key d) k <=? 0 | None => false end then None
      else if match hi with Some k => 0 <=? iv_key_cmp (n_key d) k | None => false end then None
      else if bool_decide (ins (n_iv d) = []) then None
      else if negb (forallb (λ i, (low i =? k_pos (n_key d)) && (low i <=? high i)) (ins (n_iv d))) then None
      else
        lh ← iv_verify_node l lo (Some (n_key d));
        rh ← iv_verify_node r (Some (n_key d)) hi;
        if negb (n_height d =? 1 + iv_max lh rh) then None
        else if (1 <? lh - rh) || (1 <? rh - lh) then None
        else
          let exact := iv_group_high (n_iv d) in
          let exact := match l with Node e _ _ => iv_max exact (n_max e) | Nil => exact end in
          let exact := match r with Node e _ _ => iv_max exact (n_max e) | Nil => exact end in
          if n_max d <? exact then None else Some (n_height d)
  end.

Definition itree_verify (t : itree) : itree * bool :=
  let t := itree_apply_all_shifts t in
  (t, bool_decide (is_Some (iv_verify_node (root t) None None))).

End Tree.

Arguments iv_ins V : clear implicits.
Arguments itree_ivals V : clear implicits.
Arguments iv_data V : clear implicits.
Arguments iv_node V : clear implicits.
Arguments itree V : clear implicits.
Arguments eviction V : clear implicits.
