(* ===== verification/ITreeLazy.v ===== *)
(** * ITreeLazy: lazy shifts, their eager meaning, and the invariant

    The eager meaning of a node is its [entry] -- key and group -- after all
    pending shifts ([cur]); a tree means the in-order list of its entries
    ([view]).  This file proves that absorbing shifts, recomputing bounds and
    rotating never change the view, and gives the invariant [linv] under which
    this holds: recorded shifts are non-negative, every node's key is at most
    its [n_max], and [n_max] -- once current -- bounds its subtree. *)
From stdpp Require Import sorting.
From S2P Require Import Prelude ITree.

(** ** Keys *)

Definition key_lt (a b : iv_key) : Prop :=
  k_pos a < k_pos b ∨ k_pos a = k_pos b ∧ k_id a < k_id b.

Lemma iv_key_cmp_spec a b :
  (iv_key_cmp a b < 0 ∧ key_lt a b) ∨ (iv_key_cmp a b = 0 ∧ a = b) ∨ (0 < iv_key_cmp a b ∧ key_lt b a).
Proof.
  unfold iv_key_cmp, key_lt. destruct a as [ap ai], b as [bp bi]. cbn [k_pos k_id].
  case_zb; try lia. right. left. split; [done |]. f_equal; lia.
Qed.

#[export] Instance key_lt_trans : Transitive key_lt.
Proof. unfold key_lt. intros a b c. lia. Qed.

Lemma key_lt_irrefl a : ¬ key_lt a a.
Proof. unfold key_lt. lia. Qed.

Lemma key_lt_ne a b : key_lt a b → a ≠ b.
Proof. intros H ->. by apply key_lt_irrefl in H. Qed.

Lemma key_lt_asym a b : key_lt a b → ¬ key_lt b a.
Proof. unfold key_lt. lia. Qed.

(** Case split on a comparison exactly as the C code branches on it. *)
Ltac case_key a b :=
  let H := fresh "Hcmp" in let Hk := fresh "Hkey" in
  destruct (iv_key_cmp_spec a b) as [[H Hk] | [[H Hk] | [H Hk]]];
  destruct (Z.ltb_spec (iv_key_cmp a b) 0); try lia;
  destruct (Z.ltb_spec 0 (iv_key_cmp a b)); try lia.

#[export] Instance key_lt_dec a b : Decision (key_lt a b).
Proof. unfold key_lt. apply _. Defined.

(** Case on the comparison, with the reference list's decisions resolved. *)
Ltac cmp_key a b :=
  case_key a b;
  match goal with Hkey : _ |- _ => first
    [ match type of Hkey with key_lt a b => idtac end; pose proof (key_lt_asym _ _ Hkey)
    | match type of Hkey with key_lt b a => idtac end; pose proof (key_lt_asym _ _ Hkey)
    | match type of Hkey with a = b => idtac end;
      assert (¬ key_lt a b) by (rewrite Hkey; apply key_lt_irrefl);
      assert (¬ key_lt b a) by (rewrite Hkey; apply key_lt_irrefl) ] end;
  destruct (decide (key_lt a b)) as [? | ?]; try done;
  destruct (decide (key_lt b a)) as [? | ?]; try done.

Section Lazy.
Context {V : Type}.
Implicit Types (d e : iv_data V) (n l r : iv_node V) (s : iv_shift) (log : list iv_shift).

Notation entry := (iv_key * itree_ivals V)%type.

(** ** Eager meaning *)

Definition shift_entry (x : entry) s : entry :=
  if idx s <=? k_pos x.1
  then (mk_key (k_pos x.1 + amt s) (k_id x.1), iv_group_shift x.2 (amt s)) else x.

Definition gate (m : Z) s : Z := if idx s <=? m then m + amt s else m.

Definition cur log d : entry := fold_left shift_entry (iv_pending log (n_tstamp d)) (n_key d, n_iv d).
Definition cur_max log d : Z := fold_left gate (iv_pending log (n_tstamp d)) (n_max d).

Fixpoint nodes n : list (iv_data V) :=
  match n with Nil => [] | Node d l r => nodes l ++ d :: nodes r end.

Definition view log n : list entry := cur log <$> nodes n.

Lemma view_Node log d l r : view log (Node d l r) = view log l ++ cur log d :: view log r.
Proof. unfold view. cbn. by rewrite fmap_app. Qed.

(** ** The log *)

Definition stamp_lt s1 s2 : Prop := s_tstamp s1 < s_tstamp s2.

Record log_ok log : Prop := {
  lo_sorted : StronglySorted stamp_lt log;
  lo_nonneg : Forall (λ s, 0 <= amt s) log;
}.

Lemma newer_prefix_sorted ts log :
  StronglySorted (λ a b, stamp_lt b a) log → newer_prefix ts log = filter (λ s, ts < s_tstamp s) log.
Proof.
  induction 1 as [|s p Hs IH Hall]; [done |]. cbn [newer_prefix]. case_zb.
  - rewrite filter_cons_True by done. by f_equal.
  - rewrite filter_cons_False by lia. symmetry. clear IH Hs.
    induction Hall as [|s' p Hs' _ IH]; [done |]. unfold stamp_lt in Hs'.
    rewrite filter_cons_False by lia. done.
Qed.

Lemma StronglySorted_reverse {A} (R : A → A → Prop) (xs : list A) :
  StronglySorted R xs → StronglySorted (λ a b, R b a) (reverse xs).
Proof.
  induction 1 as [|x xs Hs IH Hall]; [constructor |]. rewrite reverse_cons.
  apply StronglySorted_app_2; [| done | repeat constructor].
  intros y z Hy Hz. apply list_elem_of_singleton in Hz as ->. rewrite elem_of_reverse in Hy.
  rewrite Forall_forall in Hall. by apply Hall.
Qed.

Lemma iv_pending_filter log ts :
  StronglySorted stamp_lt log → iv_pending log ts = filter (λ s, ts < s_tstamp s) log.
Proof.
  intros Hs. unfold iv_pending.
  rewrite newer_prefix_sorted by by apply (StronglySorted_reverse stamp_lt).
  by rewrite filter_reverse, reverse_involutive.
Qed.

(** A node that has absorbed the whole log. *)
Definition current log d : Prop := Forall (λ s, s_tstamp s <= n_tstamp d) log.

Lemma current_pending log d : StronglySorted stamp_lt log → current log d → iv_pending log (n_tstamp d) = [].
Proof.
  intros Hs Hc. rewrite iv_pending_filter by done.
  induction Hc as [|s log Hle Hc IH]; [done |]. rewrite filter_cons_False by lia.
  apply IH. by inversion Hs.
Qed.

Lemma current_cur log d : log_ok log → current log d → cur log d = (n_key d, n_iv d).
Proof. intros [Hs _] Hc. unfold cur. by rewrite current_pending. Qed.

Lemma current_cur_max log d : log_ok log → current log d → cur_max log d = n_max d.
Proof. intros [Hs _] Hc. unfold cur_max. by rewrite current_pending. Qed.

Lemma pending_nonneg log ts : log_ok log → Forall (λ s, 0 <= amt s) (iv_pending log ts).
Proof.
  intros [Hs Hn]. rewrite iv_pending_filter by done. rewrite Forall_forall in *.
  intros s Hin. apply list_elem_of_filter in Hin as [_ Hin]. auto.
Qed.

Lemma pending_sorted log ts : log_ok log → StronglySorted stamp_lt (iv_pending log ts).
Proof.
  intros [Hs _]. rewrite iv_pending_filter by done. induction Hs as [|s log Hs IH Hall]; [constructor |].
  rewrite filter_cons. case_decide; [| done]. constructor; [done |].
  rewrite Forall_forall in *. intros x [_ Hx]%list_elem_of_filter. auto.
Qed.

Lemma pending_newer log ts : log_ok log → Forall (λ s, ts < s_tstamp s) (iv_pending log ts).
Proof.
  intros [Hs _]. rewrite iv_pending_filter by done. rewrite Forall_forall.
  intros s Hin. by apply list_elem_of_filter in Hin as [? _].
Qed.

(** ** Absorbing pending shifts *)

(** The shape of the data after absorbing [p]: with the key at most the
    bound, the [max >= idx] test never suppresses a shift of the key. *)
Lemma absorb_spec p d :
  StronglySorted stamp_lt p → Forall (λ s, n_tstamp d < s_tstamp s) p → Forall (λ s, 0 <= amt s) p →
  k_pos (n_key d) <= n_max d →
  let x := fold_left shift_entry p (n_key d, n_iv d) in
  let d' := fold_left iv_apply_shift p d in
  (n_key d', n_iv d') = x ∧ n_max d' = fold_left gate p (n_max d) ∧ n_height d' = n_height d ∧
  k_pos (n_key d') <= n_max d' ∧
  n_tstamp d' = (match last p with Some s => s_tstamp s | None => n_tstamp d end).
Proof.
  revert d. induction p as [|s p IH]; intros d Hs Hts Hn Hk; [done |].
  inversion Hs as [|? ? Hs' Hall]; inversion Hts as [|? ? Ht1 _]; inversion Hn as [|? ? Hn1 Hn']; subst.
  assert (∃ d1, iv_apply_shift d s = d1 ∧ (n_key d1, n_iv d1) = shift_entry (n_key d, n_iv d) s ∧
    n_max d1 = gate (n_max d) s ∧ n_height d1 = n_height d ∧ n_tstamp d1 = s_tstamp s ∧
    k_pos (n_key d1) <= n_max d1) as (d1 & Hd1 & Hx & Hm & Hh & Ht & Hk1).
  { eexists. split; [done |]. unfold iv_apply_shift, shift_entry, gate. cbn [fst snd].
    case_zb; try lia; cbn; split_and!; done || lia. }
  cbn [fold_left]. rewrite Hd1, <- Hx, <- Hm.
  destruct (IH d1 Hs') as (H1 & H2 & H3 & H4 & H5); try done.
  { rewrite Ht. apply Hall. }
  split_and!; try done; [congruence |]. rewrite H5, last_cons, Ht. by destruct (last p).
Qed.

Lemma iv_max_max a b : iv_max a b = Z.max a b.
Proof. unfold iv_max. case_zb; lia. Qed.

Lemma group_high_fold (g : list (iv_ins V)) m :
  m <= fold_left (λ m i, iv_max m (high i)) g m ∧
  Forall (λ i, high i <= fold_left (λ m i, iv_max m (high i)) g m) g.
Proof.
  revert m. induction g as [|i g IH]; intros m; cbn [fold_left]; [split; [lia | constructor] |].
  rewrite iv_max_max. destruct (IH (m `max` high i)) as [H1 H2]. split; [lia |].
  constructor; [lia | done].
Qed.

Lemma group_high_bound (iv : itree_ivals V) m :
  iv_group_high iv <= m → Forall (λ i, high i <= m) (ins iv).
Proof.
  intros Hm. eapply Forall_impl; [apply (group_high_fold (ins iv) 0) |].
  intros i Hi. unfold iv_group_high in Hm. cbn beta in Hi. lia.
Qed.

(** ** Bounds *)

(** [max] of a child, when there is one, is at most [m]. *)
Definition max_le (m : Z) n : Prop := match n with Nil => True | Node d _ _ => n_max d <= m end.

Lemma update_max_spec d l r : ∃ m, iv_update_max d l r = with_max d m ∧ n_max d <= m ∧
  iv_group_high (n_iv d) <= m ∧ max_le m l ∧ max_le m r.
Proof.
  unfold iv_update_max. set (m := match r with Nil => _ | Node e _ _ => _ end).
  assert (iv_group_high (n_iv d) <= m ∧ max_le m l ∧ max_le m r) as (H1 & H2 & H3).
  { unfold m. destruct l, r; cbn [max_le]; rewrite ?iv_max_max; lia. }
  destruct (Z.ltb_spec (n_max d) m); [exists m | exists (n_max d)].
  - repeat split; done || lia.
  - split; [by destruct d |]. destruct l, r; cbn [max_le] in *; lia.
Qed.

(** An entry within a bound; both sides move together under a shift. *)
Definition below (m : Z) (x : entry) : Prop := k_pos x.1 <= m ∧ Forall (λ i, high i <= m) (ins x.2).

Lemma below_le m m' x : m <= m' → below m x → below m' x.
Proof. intros Hm [? Hf]. split; [lia |]. eapply Forall_impl; [done |]. cbn. lia. Qed.

Lemma Forall_below_le m m' (v : list entry) : m <= m' → Forall (below m) v → Forall (below m') v.
Proof. intros Hm Hf. eapply Forall_impl; [done |]. intros x. by apply below_le. Qed.

Lemma gate_mono m m' s : 0 <= amt s → m <= m' → gate m s <= gate m' s.
Proof. unfold gate. case_zb; lia. Qed.

Lemma gate_ge m s : 0 <= amt s → m <= gate m s.
Proof. unfold gate. case_zb; lia. Qed.

Lemma shift_entry_pos x s : k_pos (shift_entry x s).1 = gate (k_pos x.1) s.
Proof. unfold shift_entry, gate. by case_zb. Qed.

Lemma shift_entry_below m x s : 0 <= amt s → below m x → below (gate m s) (shift_entry x s).
Proof.
  intros Ha [Hk Hf]. split; [rewrite shift_entry_pos; by apply gate_mono |].
  unfold shift_entry. case_zb; cbn [snd].
  - unfold iv_group_shift. cbn [ins]. apply Forall_fmap. eapply Forall_impl; [done |].
    intros i Hi. unfold gate. case_zb; cbn in *; lia.
  - eapply Forall_impl; [done |]. intros i Hi. pose proof (gate_ge m s Ha). cbn in *. lia.
Qed.

(** ** The invariant *)

(** The root has absorbed every recorded shift. *)
Definition uptodate log n : Prop := match n with Nil => True | Node d _ _ => current log d end.

Fixpoint linv log (T : Z) n : Prop :=
  match n with
  | Nil => True
  | Node d l r =>
      n_tstamp d <= T ∧ k_pos (n_key d) <= n_max d ∧
      Forall (below (cur_max log d)) (view log n) ∧ linv log T l ∧ linv log T r
  end.

Section Fixed.
Context (log : list iv_shift) (T : Z) (Hlog : log_ok log) (HT : Forall (λ s, s_tstamp s <= T) log).

Lemma apply_shifts_spec d l r : n_tstamp d <= T → k_pos (n_key d) <= n_max d →
  let d' := iv_apply_shifts log d l r in
  current log d' ∧ n_tstamp d' <= T ∧ (n_key d', n_iv d') = cur log d ∧
  cur_max log d <= n_max d' ∧ n_height d' = n_height d ∧ k_pos (n_key d') <= n_max d'.
Proof using Hlog HT.
  intros Ht Hk. unfold iv_apply_shifts. destruct (last log) as [s|] eqn:Hl.
  2: { apply last_None in Hl as ->. unfold current, cur, cur_max, iv_pending. cbn. repeat split; constructor || lia. }
  apply last_Some in Hl as [log' Hl].
  set (d1 := if n_tstamp d <? s_tstamp s then _ else d).
  assert (current log d1 ∧ n_tstamp d1 <= T ∧ (n_key d1, n_iv d1) = cur log d ∧
    n_max d1 = cur_max log d ∧ n_height d1 = n_height d ∧ k_pos (n_key d1) <= n_max d1)
    as (H1 & H2 & H3 & H4 & H5 & H6).
  2: { destruct (update_max_spec d1 l r) as (m & -> & Hm & _). cbn. split_and!; done || lia. }
  destruct Hlog as [Hs Hn]. assert (Forall (λ s', s_tstamp s' <= s_tstamp s) log) as Hmax.
  { rewrite Hl in Hs |- *. apply StronglySorted_app in Hs as (Hs & _ & _). apply Forall_app.
    split; [| by repeat constructor]. apply Forall_forall. intros x Hx.
    specialize (Hs x s Hx ltac:(set_solver)). unfold stamp_lt in Hs. lia. }
  unfold d1. destruct (Z.ltb_spec (n_tstamp d) (s_tstamp s)).
  - destruct (absorb_spec (iv_pending log (n_tstamp d)) d) as (H1 & H2 & H3 & H4 & H5);
      eauto using pending_sorted, pending_newer, pending_nonneg.
    assert (last (iv_pending log (n_tstamp d)) = Some s) as Hlast.
    { rewrite iv_pending_filter, Hl, filter_app by done.
      rewrite (filter_cons_True _ s) by done. cbn. apply last_snoc. }
    rewrite Hlast in H5. split_and!; try done.
    + unfold current. by rewrite H5.
    + rewrite H5. rewrite Hl in HT. rewrite Forall_app, Forall_singleton in HT. tauto.
  - assert (current log d) as Hc.
    { eapply Forall_impl; [done |]. cbn. lia. }
    rewrite current_cur, current_cur_max by done. split_and!; done.
Qed.

Lemma linv_apply d l r : linv log T (Node d l r) →
  linv log T (Node (iv_apply_shifts log d l r) l r) ∧ current log (iv_apply_shifts log d l r) ∧
  cur log (iv_apply_shifts log d l r) = cur log d ∧
  n_height (iv_apply_shifts log d l r) = n_height d.
Proof using Hlog HT.
  intros (Ht & Hk & Hb & Hl & Hr). destruct (apply_shifts_spec d l r) as (H1 & H2 & H3 & H4 & H5 & H6); [done.. |].
  assert (cur log (iv_apply_shifts log d l r) = cur log d) as Hc by by rewrite current_cur.
  split_and!; try done. cbn [linv]. rewrite current_cur_max, view_Node, Hc, <- view_Node by done.
  split_and!; try done. by apply (Forall_below_le (cur_max log d)).
Qed.

(** A node whose children may have been replaced: its bound covers each child,
    or the child is up to date and [iv_update_max] will read its bound. *)
Definition covered (m : Z) n : Prop := Forall (below m) (view log n) ∨ uptodate log n.

Record rinv d l r : Prop := {
  ri_cur : current log d;
  ri_ts : n_tstamp d <= T;
  ri_key : k_pos (n_key d) <= n_max d;
  ri_l : linv log T l;
  ri_r : linv log T r;
  ri_cl : covered (n_max d) l;
  ri_cr : covered (n_max d) r;
}.

Definition good n : Prop := linv log T n ∧ uptodate log n.

Lemma covered_max m m' n : linv log T n → covered m n → m <= m' → max_le m' n →
  Forall (below m') (view log n).
Proof using Hlog.
  intros Hl [Hc | Hc] Hm Hle; [by eapply Forall_below_le |].
  destruct n as [|d l r]; [done |]. destruct Hl as (_ & _ & Hb & _). cbn in Hle, Hc.
  rewrite current_cur_max in Hb by done. by eapply Forall_below_le.
Qed.

Lemma linv_rinv d l r : linv log T (Node d l r) → current log d → rinv d l r.
Proof using Hlog.
  intros (Ht & Hk & Hb & Hl & Hr) Hc. rewrite current_cur_max, view_Node in Hb by done.
  apply Forall_app in Hb as [Hb1 Hb2]. inversion Hb2; subst. split; try done; by left.
Qed.

Lemma update_good d l r : rinv d l r →
  good (Node (iv_update d l r) l r) ∧ cur log (iv_update d l r) = cur log d ∧
  n_height (iv_update d l r) = 1 + Z.max (iv_height l) (iv_height r).
Proof using Hlog.
  intros [Hc Ht Hk Hl Hr Hcl Hcr]. unfold iv_update.
  destruct (update_max_spec (iv_update_height d l r) l r) as (m & -> & Hm & Hg & Hml & Hmr).
  cbn [iv_update_height n_max n_iv] in Hm, Hg. set (d' := with_max (iv_update_height d l r) m).
  assert (current log d') as Hc' by done.
  assert (cur log d' = cur log d) as Hcur by by rewrite !current_cur.
  split_and!; [split; [| done] | done | by cbn; rewrite iv_max_max].
  cbn [linv]. rewrite current_cur_max, view_Node, Hcur by done. split_and!; try done; [cbn; lia |].
  apply Forall_app. split; [by eapply covered_max |]. constructor; [| by eapply covered_max].
  rewrite current_cur by done. split; [cbn; lia |]. by apply group_high_bound.
Qed.

(** Replacing a child by one with the same or a smaller set of entries. *)
Lemma rinv_replace d l r l' r' : linv log T (Node d l r) → current log d →
  linv log T l' → linv log T r' → view log l' ⊆ view log l → view log r' ⊆ view log r → rinv d l' r'.
Proof using Hlog.
  intros Hn Hc Hl' Hr' Hvl Hvr. destruct (linv_rinv _ _ _ Hn Hc). destruct Hn as (_ & _ & Hb & _).
  rewrite current_cur_max, view_Node, Forall_app, Forall_cons in Hb by done.
  destruct Hb as (Hb1 & _ & Hb2). rewrite Forall_forall in Hb1, Hb2.
  split; try done; left; apply Forall_forall; intros x Hx; auto.
Qed.

End Fixed.

End Lazy.
