(* ===== verification/ITreeAvl.v ===== *)
(** * ITreeAvl: rotations and rebalancing

    Rotations keep the view and the lazy invariant; [iv_rebalance] terminates
    on a node with AVL children of any imbalance (removal of a range can leave
    one), returns an AVL tree with the same view, and the result is at most one
    higher than the higher child. *)
From S2P Require Import Prelude ITree ITreeLazy.

Section Avl.
Context {V : Type}.
Implicit Types (d e : iv_data V) (n l r : iv_node V).

Fixpoint avl n : Prop :=
  match n with
  | Nil => True
  | Node d l r =>
      n_height d = 1 + Z.max (iv_height l) (iv_height r) ∧
      -1 <= iv_height l - iv_height r <= 1 ∧ avl l ∧ avl r
  end.

Lemma avl_height_nonneg n : avl n → 0 <= iv_height n.
Proof. induction n as [|d l IHl r IHr]; cbn; [lia |]. intros (-> & _ & Hl & Hr). specialize (IHl Hl). lia. Qed.

Section Fixed.
Context (log : list iv_shift) (T : Z) (Hlog : log_ok log) (HT : Forall (λ s, s_tstamp s <= T) log).

Notation linv := (linv log T).
Notation good := (good log T).
Notation rinv := (rinv log T).

Lemma linv_child_l d l r : linv (Node d l r) → linv l.
Proof using. cbn. tauto. Qed.
Lemma linv_child_r d l r : linv (Node d l r) → linv r.
Proof using. cbn. tauto. Qed.

Lemma rotate_left_spec d l e rl rr : linv (Node d l (Node e rl rr)) →
  ∃ d' e', iv_rotate_left log (Node d l (Node e rl rr)) = Ok (Node e' (Node d' l rl) rr) ∧
    good (Node e' (Node d' l rl) rr) ∧
    view log (Node e' (Node d' l rl) rr) = view log (Node d l (Node e rl rr)) ∧
    current log d' ∧ n_height d' = 1 + Z.max (iv_height l) (iv_height rl) ∧
    n_height e' = 1 + Z.max (n_height d') (iv_height rr).
Proof using Hlog HT.
  intros H. destruct (linv_apply log T Hlog HT _ _ _ H) as (Hd & Hdc & Hdv & Hdh).
  destruct (linv_apply log T Hlog HT _ _ _ (linv_child_r _ _ _ H)) as (He & Hec & Hev & Heh).
  cbn [iv_rotate_left]. set (d1 := iv_apply_shifts log d _ _) in *. set (e1 := iv_apply_shifts log e _ _) in *.
  destruct (update_good log T Hlog d1 l rl) as ([Hg1 Hu1] & Hc1 & Hh1).
  { eapply (rinv_replace log T Hlog); eauto using linv_child_l, linv_child_r.
    rewrite view_Node. set_solver. }
  set (d2 := iv_update d1 l rl) in *.
  destruct (update_good log T Hlog e1 (Node d2 l rl) rr) as (Hg2 & Hc2 & Hh2).
  { destruct (linv_rinv log T Hlog _ _ _ He Hec). split; try done. by right. }
  exists d2, (iv_update e1 (Node d2 l rl) rr). split_and!; try done.
  rewrite !view_Node, Hc2, Hc1, Hdv, Hev, <- !app_assoc. done.
Qed.

Lemma rotate_right_spec d e ll lr r : linv (Node d (Node e ll lr) r) →
  ∃ d' e', iv_rotate_right log (Node d (Node e ll lr) r) = Ok (Node e' ll (Node d' lr r)) ∧
    good (Node e' ll (Node d' lr r)) ∧
    view log (Node e' ll (Node d' lr r)) = view log (Node d (Node e ll lr) r) ∧
    current log d' ∧ n_height d' = 1 + Z.max (iv_height lr) (iv_height r) ∧
    n_height e' = 1 + Z.max (iv_height ll) (n_height d').
Proof using Hlog HT.
  intros H. destruct (linv_apply log T Hlog HT _ _ _ H) as (Hd & Hdc & Hdv & Hdh).
  destruct (linv_apply log T Hlog HT _ _ _ (linv_child_l _ _ _ H)) as (He & Hec & Hev & Heh).
  cbn [iv_rotate_right]. set (d1 := iv_apply_shifts log d _ _) in *. set (e1 := iv_apply_shifts log e _ _) in *.
  destruct (update_good log T Hlog d1 lr r) as ([Hg1 Hu1] & Hc1 & Hh1).
  { eapply (rinv_replace log T Hlog); eauto using linv_child_l, linv_child_r.
    rewrite view_Node. set_solver. }
  set (d2 := iv_update d1 lr r) in *.
  destruct (update_good log T Hlog e1 ll (Node d2 lr r)) as (Hg2 & Hc2 & Hh2).
  { destruct (linv_rinv log T Hlog _ _ _ He Hec). split; try done. by right. }
  exists d2, (iv_update e1 ll (Node d2 lr r)). split_and!; try done.
  rewrite !view_Node, Hc2, Hc1, Hdv, Hev, <- !app_assoc. done.
Qed.

(** What rebalancing promises about [n] with children of heights [hl], [hr]. *)
Record rebalanced n n' : Prop := {
  rb_good : good n';
  rb_view : view log n' = view log n;
  rb_avl : avl n';
}.

Definition lean n : Z := match n with Nil => 0 | Node _ l r => iv_height l - iv_height r end.

(** The height of the result: exact at imbalance two over a level child, which
    the double rotation's second pass needs. *)
Definition height_step l r (h : Z) : Prop :=
  let hl := iv_height l in let hr := iv_height r in
  (Z.max hl hr <= h <= 1 + Z.max hl hr) ∧
  (-1 <= hl - hr <= 1 → h = 1 + Z.max hl hr) ∧
  (hl - hr = 2 → lean l = 0 → h = 1 + hl) ∧
  (hr - hl = 2 → lean r = 0 → h = 1 + hr).

(** A node whose imbalance is tolerated is only updated. *)
Lemma rebalance_done fuel d l r : rinv d l r → avl l → avl r → -1 <= iv_height l - iv_height r <= 1 →
  ∃ n', iv_rebalance_fuel fuel log (Node d l r) = Ok n' ∧ rebalanced (Node d l r) n' ∧
    height_step l r (iv_height n').
Proof using Hlog.
  intros Hr Hal Har Hb. destruct (update_good log T Hlog d l r Hr) as (Hg & Hc & Hh).
  exists (Node (iv_update d l r) l r). split_and!; [| split |].
  - destruct fuel; cbn [iv_rebalance_fuel]; case_zb; lia || done.
  - done.
  - by rewrite !view_Node, Hc.
  - done.
  - unfold height_step. cbn [iv_height]. rewrite Hh. lia.
Qed.

Lemma good_rinv d l r : good (Node d l r) → rinv d l r.
Proof using Hlog. intros [H1 H2]. by apply (linv_rinv log T Hlog). Qed.

Lemma linv_same_view d l r l' r' : good (Node d l r) →
  linv l' → linv r' → view log l' = view log l → view log r' = view log r → linv (Node d l' r').
Proof using.
  intros [(? & ? & Hb & _) _] ? ? Hvl Hvr. cbn [ITreeLazy.linv].
  rewrite view_Node, Hvl, Hvr, <- view_Node. done.
Qed.

Lemma child_good_rinv d l r l' r' : good (Node d l r) →
  linv l' → linv r' → view log l' = view log l → view log r' = view log r → rinv d l' r'.
Proof using Hlog.
  intros Hg ? ? ? ?. apply (linv_rinv log T Hlog); [by eapply linv_same_view |]. by destruct Hg.
Qed.

Definition rebalance_ok (fuel : nat) : Prop := ∀ d l r,
  rinv d l r → avl l → avl r → Z.abs (iv_height l - iv_height r) <= Z.of_nat fuel →
  ∃ n', iv_rebalance_fuel fuel log (Node d l r) = Ok n' ∧ rebalanced (Node d l r) n' ∧
    height_step l r (iv_height n').

(** After a right rotation put the balanced [a] over [b]/[c]: the two recursive
    calls, first on the demoted node and then on the new root. *)
Lemma rotated_right_ok fuel d e a b c :
  rebalance_ok fuel → good (Node e a (Node d b c)) → current log d → avl a → avl b → avl c →
  Z.abs (iv_height b - iv_height c) <= Z.of_nat fuel →
  (∀ h, height_step b c h → Z.abs (iv_height a - h) <= Z.of_nat fuel ∨ Z.abs (iv_height a - h) <= 1) →
  ∃ r' n', iv_rebalance_fuel fuel log (Node d b c) = Ok r' ∧
    iv_rebalance_fuel fuel log (Node e a r') = Ok n' ∧
    rebalanced (Node e a (Node d b c)) n' ∧ height_step b c (iv_height r') ∧
    height_step a r' (iv_height n').
Proof using Hlog.
  intros IH Hg Hd Ha Hb Hc Hf Hh.
  destruct (IH d b c) as (r' & Hr' & [Hg' Hv' Ha'] & Hs'); try done.
  { apply good_rinv. destruct Hg as [(_ & _ & _ & _ & Hn) _]. by split. }
  assert (rinv e a r') as Hri.
  { eapply (child_good_rinv _ _ _ _ _ Hg); try done; [apply Hg | apply Hg']. }
  assert (∃ n', iv_rebalance_fuel fuel log (Node e a r') = Ok n' ∧
    rebalanced (Node e a r') n' ∧ height_step a r' (iv_height n')) as (n' & Hn' & [Hgn Hvn Han] & Hsn).
  { destruct (Hh _ Hs'); [by apply IH | apply rebalance_done; done || lia]. }
  exists r', n'. split_and!; try done. split; try done. rewrite Hvn, !view_Node, Hv', view_Node. done.
Qed.

Lemma rotated_left_ok fuel d e a b c :
  rebalance_ok fuel → good (Node e (Node d a b) c) → current log d → avl a → avl b → avl c →
  Z.abs (iv_height a - iv_height b) <= Z.of_nat fuel →
  (∀ h, height_step a b h → Z.abs (h - iv_height c) <= Z.of_nat fuel ∨ Z.abs (h - iv_height c) <= 1) →
  ∃ l' n', iv_rebalance_fuel fuel log (Node d a b) = Ok l' ∧
    iv_rebalance_fuel fuel log (Node e l' c) = Ok n' ∧
    rebalanced (Node e (Node d a b) c) n' ∧ height_step a b (iv_height l') ∧
    height_step l' c (iv_height n').
Proof using Hlog.
  intros IH Hg Hd Ha Hb Hc Hf Hh.
  destruct (IH d a b) as (l' & Hl' & [Hg' Hv' Ha'] & Hs'); try done.
  { apply good_rinv. destruct Hg as [(_ & _ & _ & Hn & _) _]. by split. }
  assert (rinv e l' c) as Hri.
  { eapply (child_good_rinv _ _ _ _ _ Hg); try done; [apply Hg' | apply Hg]. }
  assert (∃ n', iv_rebalance_fuel fuel log (Node e l' c) = Ok n' ∧
    rebalanced (Node e l' c) n' ∧ height_step l' c (iv_height n')) as (n' & Hn' & [Hgn Hvn Han] & Hsn).
  { destruct (Hh _ Hs'); [by apply IH | apply rebalance_done; done || lia]. }
  exists l', n'. split_and!; try done. split; try done. rewrite Hvn, !view_Node, Hv', view_Node. done.
Qed.

(** The height arithmetic of the two rotations. *)
Lemma double_height A P Q R x h : Z.max P Q = A → -1 <= P - Q <= 1 → R <= A →
  Z.max Q R <= x <= 1 + Z.max Q R → (-1 <= Q - R <= 1 → x = 1 + Z.max Q R) →
  Z.max (A + 1) x <= h <= 1 + Z.max (A + 1) x →
  (-1 <= A + 1 - x <= 1 → h = 1 + Z.max (A + 1) x) →
  (A + 1 - x = 2 → A - P = 0 → h = 1 + (A + 1)) →
  A + 2 <= h <= A + 3.
Proof using. lia. Qed.

Lemma single_height A B R x h : 0 <= A - B <= 1 → R <= A - 1 →
  Z.max B R <= x <= 1 + Z.max B R → (-1 <= B - R <= 1 → x = 1 + Z.max B R) →
  (-1 <= A - x <= 1 → h = 1 + Z.max A x) →
  A + 1 <= h <= A + 2 ∧ (R = A - 1 → A = B → h = A + 2).
Proof using. lia. Qed.

(** Left-heavy by two or more. *)
Lemma rebalance_left_heavy fuel d l r :
  rebalance_ok fuel → rinv d l r → avl l → avl r →
  1 < iv_height l - iv_height r <= Z.of_nat (S fuel) →
  ∃ n', iv_rebalance_fuel (S fuel) log (Node d l r) = Ok n' ∧ rebalanced (Node d l r) n' ∧
    height_step l r (iv_height n').
Proof using Hlog HT.
  intros IH Hri Hal Har Hb. cbn [iv_rebalance_fuel]. case_zb; try lia.
  destruct (update_good log T Hlog d l r Hri) as (Hg & Hc & _). set (d1 := iv_update d l r) in *.
  pose proof (avl_height_nonneg _ Har).
  destruct l as [|e ll lr]; [cbn in Hb; lia |]. cbn [iv_balance mret res_ret mbind res_bind].
  destruct Hal as (Hhe & Hbe & Hall & Halr). cbn [iv_height] in *.
  pose proof (avl_height_nonneg _ Hall). pose proof (avl_height_nonneg _ Halr).
  destruct (Z.ltb_spec (iv_height ll - iv_height lr) 0).
  - destruct lr as [|f lrl lrr]; [cbn in *; lia |]. destruct Halr as (Hhf & Hbf & Half & Harf).
    cbn [iv_height] in *. pose proof (avl_height_nonneg _ Half). pose proof (avl_height_nonneg _ Harf).
    destruct (rotate_left_spec e ll f lrl lrr) as (e' & f' & -> & Hgl & Hvl & Hce & Hhe' & Hhf').
    { destruct Hg as [Hg _]. by apply linv_child_l in Hg. }
    cbn_res.
    assert (linv (Node d1 (Node f' (Node e' ll lrl) lrr) r)) as Hl2.
    { eapply (linv_same_view _ _ _ _ _ Hg); try done; [apply Hgl |]. by destruct Hg as [(_ & _ & _ & _ & ?) _]. }
    destruct (rotate_right_spec _ _ _ _ _ Hl2) as (d2 & f2 & -> & Hg2 & Hv2 & Hc2 & Hhd2 & Hhf2).
    cbn_res.
    destruct (rotated_right_ok fuel d2 f2 (Node e' ll lrl) lrr r) as (r' & n' & -> & Hn' & [Hgn Hvn Han] & Hs1 & Hs2);
      try done.
    { cbn. split_and!; done || lia. }
    { lia. }
    { intros h (Hx & _). cbn [iv_height]. lia. }
    exists n'. split_and!; [done | split; try done |].
    + rewrite Hvn, Hv2, !view_Node. rewrite !view_Node in Hvl. by rewrite Hvl, Hc.
    + destruct Hs1 as (Hx1 & Hx2 & _), Hs2 as (Hh1 & Hh2 & Hh3 & _). cbn [iv_height lean] in *.
      replace (n_height e') with (iv_height ll + 1) in * by lia.
      pose proof (double_height (iv_height ll) (iv_height lrl) (iv_height lrr) (iv_height r) _ _
        ltac:(lia) ltac:(lia) ltac:(lia) Hx1 Hx2 Hh1 Hh2 Hh3) as Hres. clear Hx1 Hx2 Hh1 Hh2 Hh3.
      unfold height_step. cbn [iv_height lean]. split_and!; intros; lia.
  - cbn_res.
    destruct (rotate_right_spec d1 e ll lr r) as (d2 & e2 & -> & Hg2 & Hv2 & Hc2 & Hhd2 & Hhe2); [apply Hg |].
    cbn_res.
    destruct (rotated_right_ok fuel d2 e2 ll lr r) as (r' & n' & -> & Hn' & [Hgn Hvn Han] & Hs1 & Hs2); try done.
    { lia. }
    { intros h (Hx & _). lia. }
    exists n'. split_and!; [done | split; try done |].
    + by rewrite Hvn, Hv2, !view_Node, Hc.
    + destruct Hs1 as (Hx1 & Hx2 & _), Hs2 as (_ & Hh2 & _). cbn [iv_height lean] in *.
      pose proof (single_height (iv_height ll) (iv_height lr) (iv_height r) _ _
        ltac:(lia) ltac:(lia) Hx1 Hx2 Hh2) as Hres. clear Hx1 Hx2 Hh2.
      unfold height_step. cbn [iv_height lean]. split_and!; intros; lia.
Qed.

Lemma rebalance_right_heavy fuel d l r :
  rebalance_ok fuel → rinv d l r → avl l → avl r →
  1 < iv_height r - iv_height l <= Z.of_nat (S fuel) →
  ∃ n', iv_rebalance_fuel (S fuel) log (Node d l r) = Ok n' ∧ rebalanced (Node d l r) n' ∧
    height_step l r (iv_height n').
Proof using Hlog HT.
  intros IH Hri Hal Har Hb. cbn [iv_rebalance_fuel]. case_zb; try lia.
  destruct (update_good log T Hlog d l r Hri) as (Hg & Hc & _). set (d1 := iv_update d l r) in *.
  pose proof (avl_height_nonneg _ Hal).
  destruct r as [|e rl rr]; [cbn in Hb; lia |]. cbn [iv_balance mret res_ret mbind res_bind].
  destruct Har as (Hhe & Hbe & Harl & Harr). cbn [iv_height] in *.
  pose proof (avl_height_nonneg _ Harl). pose proof (avl_height_nonneg _ Harr).
  destruct (Z.ltb_spec 0 (iv_height rl - iv_height rr)).
  - destruct rl as [|f rll rlr]; [cbn in *; lia |]. destruct Harl as (Hhf & Hbf & Half & Harf).
    cbn [iv_height] in *. pose proof (avl_height_nonneg _ Half). pose proof (avl_height_nonneg _ Harf).
    destruct (rotate_right_spec e f rll rlr rr) as (e' & f' & -> & Hgl & Hvl & Hce & Hhe' & Hhf').
    { destruct Hg as [Hg _]. by apply linv_child_r in Hg. }
    cbn_res.
    assert (linv (Node d1 l (Node f' rll (Node e' rlr rr)))) as Hl2.
    { eapply (linv_same_view _ _ _ _ _ Hg); try done; [| apply Hgl]. by destruct Hg as [(_ & _ & _ & ? & _) _]. }
    destruct (rotate_left_spec _ _ _ _ _ Hl2) as (d2 & f2 & -> & Hg2 & Hv2 & Hc2 & Hhd2 & Hhf2).
    cbn_res.
    destruct (rotated_left_ok fuel d2 f2 l rll (Node e' rlr rr)) as (l' & n' & -> & Hn' & [Hgn Hvn Han] & Hs1 & Hs2);
      try done.
    { cbn. split_and!; done || lia. }
    { lia. }
    { intros h (Hx & _). cbn [iv_height]. lia. }
    exists n'. split_and!; [done | split; try done |].
    + rewrite Hvn, Hv2, !view_Node. rewrite !view_Node in Hvl. by rewrite Hvl, Hc.
    + destruct Hs1 as (Hx1 & Hx2 & _), Hs2 as (Hh1 & Hh2 & _ & Hh3). cbn [iv_height lean] in *.
      replace (n_height e') with (iv_height rr + 1) in * by lia. rewrite Z.max_comm in Hx1, Hh1.
      pose proof (double_height (iv_height rr) (iv_height rlr) (iv_height rll) (iv_height l) (iv_height l') (iv_height n')
        ltac:(lia) ltac:(lia) ltac:(lia) ltac:(lia) ltac:(lia) ltac:(lia) ltac:(lia) ltac:(lia)) as Hres.
      clear Hx1 Hx2 Hh1 Hh2 Hh3.
      unfold height_step. cbn [iv_height lean]. split_and!; intros; lia.
  - cbn_res.
    destruct (rotate_left_spec d1 l e rl rr) as (d2 & e2 & -> & Hg2 & Hv2 & Hc2 & Hhd2 & Hhe2); [apply Hg |].
    cbn_res.
    destruct (rotated_left_ok fuel d2 e2 l rl rr) as (l' & n' & -> & Hn' & [Hgn Hvn Han] & Hs1 & Hs2); try done.
    { lia. }
    { intros h (Hx & _). lia. }
    exists n'. split_and!; [done | split; try done |].
    + by rewrite Hvn, Hv2, !view_Node, Hc.
    + destruct Hs1 as (Hx1 & Hx2 & _), Hs2 as (_ & Hh2 & _). cbn [iv_height lean] in *.
      pose proof (single_height (iv_height rr) (iv_height rl) (iv_height l) (iv_height l') (iv_height n')
        ltac:(lia) ltac:(lia) ltac:(lia) ltac:(lia) ltac:(lia)) as Hres. clear Hx1 Hx2 Hh2.
      unfold height_step. cbn [iv_height lean]. split_and!; intros; lia.
Qed.

Lemma rebalance_fuel_ok fuel : rebalance_ok fuel.
Proof using Hlog HT.
  induction fuel as [|fuel IH]; intros d l r Hri Hal Har Hf; [apply rebalance_done; done || lia |].
  destruct (Z.lt_trichotomy (iv_height l - iv_height r) 0);
    [destruct (Z.lt_ge_cases 1 (iv_height r - iv_height l)) | destruct (Z.lt_ge_cases 1 (iv_height l - iv_height r))].
  - apply rebalance_right_heavy; done || lia.
  - apply rebalance_done; done || lia.
  - apply rebalance_left_heavy; done || lia.
  - apply rebalance_done; done || lia.
Qed.

Lemma rebalance_ok_root d l r : rinv d l r → avl l → avl r →
  ∃ n', iv_rebalance log (Node d l r) = Ok n' ∧ rebalanced (Node d l r) n' ∧ height_step l r (iv_height n').
Proof using Hlog HT. intros. apply rebalance_fuel_ok; done || lia. Qed.

End Fixed.
End Avl.
