(* ===== verification/ITreeOps.v ===== *)
(** * ITreeOps: insertion, search and deletion against a sorted list

    The reference meaning of the tree is its [view], a list of groups sorted by
    key.  Insertion is [ins_entry], search is [lookup_entry], deletion of a key
    is [del_entry] on that list; the tree operations are proved to return (fuel
    included) and to agree with them. *)
From stdpp Require Import sorting.
From S2P Require Import Prelude ITree ITreeLazy ITreeAvl.

Section Ops.
Context {V : Type}.
Implicit Types (d e : iv_data V) (n l r : iv_node V).

Notation entry := (iv_key * itree_ivals V)%type.
Implicit Types (x y : entry) (xs ys : list entry).

(** ** The reference list *)

Definition entry_lt x y : Prop := key_lt x.1 y.1.
Notation ksorted := (StronglySorted entry_lt).

Fixpoint lookup_entry (k : iv_key) xs : option (itree_ivals V) :=
  match xs with
  | [] => None
  | (k', g) :: xs => if decide (k = k') then Some g else lookup_entry k xs
  end.

Fixpoint ins_entry (k : iv_key) (hi : Z) (v : V) (fresh : positive) xs : list entry :=
  match xs with
  | [] => [(k, iv_group_push (mk_ivals [] fresh) (k_pos k) hi v)]
  | (k', g) :: xs =>
      if decide (k = k') then (k', iv_group_push g (k_pos k) hi v) :: xs
      else if decide (key_lt k k') then (k, iv_group_push (mk_ivals [] fresh) (k_pos k) hi v) :: (k', g) :: xs
      else (k', g) :: ins_entry k hi v fresh xs
  end.

Definition del_entry (k : iv_key) xs : list entry := filter (λ x, x.1 ≠ k) xs.

Lemma ksorted_app xs x ys : ksorted (xs ++ x :: ys) ↔
  Forall (λ y, entry_lt y x) xs ∧ Forall (entry_lt x) ys ∧ ksorted (xs ++ ys).
Proof.
  rewrite !StronglySorted_app, StronglySorted_cons, !Forall_forall.
  setoid_rewrite elem_of_cons. unfold entry_lt. split.
  - naive_solver.
  - intros (Hx & Hy & Hxy & Hsx & Hsy). split_and!; try done.
    intros a b Ha [-> | Hb]; [by apply Hx | by apply Hxy].
Qed.

Lemma ksorted_app_inv xs x ys : ksorted (xs ++ x :: ys) →
  Forall (λ y, entry_lt y x) xs ∧ Forall (entry_lt x) ys ∧ ksorted xs ∧ ksorted ys.
Proof. rewrite ksorted_app, StronglySorted_app. tauto. Qed.

(** *** [lookup_entry], [ins_entry] and [del_entry] around a pivot *)

Lemma lookup_entry_lt k xs : Forall (λ y, key_lt k y.1) xs → lookup_entry k xs = None.
Proof.
  induction 1 as [|[k' g] xs Hk _ IH]; [done |]. cbn in *. rewrite decide_False; [done |]. by apply key_lt_ne.
Qed.

Lemma lookup_entry_gt k xs : Forall (λ y, key_lt y.1 k) xs → lookup_entry k xs = None.
Proof.
  induction 1 as [|[k' g] xs Hk _ IH]; [done |]. cbn in *. rewrite decide_False; [done |].
  intros ->. by apply key_lt_ne in Hk.
Qed.

Lemma lookup_entry_app k xs ys :
  lookup_entry k (xs ++ ys) = match lookup_entry k xs with Some g => Some g | None => lookup_entry k ys end.
Proof. induction xs as [|[k' g] xs IH]; [done |]. cbn. by case_decide. Qed.

Lemma pivot_lt x k ys : key_lt k x.1 → Forall (entry_lt x) ys → Forall (λ y, key_lt k y.1) ys.
Proof. intros Hk Hf. eapply Forall_impl; [done |]. intros y. by apply key_lt_trans. Qed.

Lemma pivot_gt x k xs : key_lt x.1 k → Forall (λ y, entry_lt y x) xs → Forall (λ y, key_lt y.1 k) xs.
Proof. intros Hk Hf. eapply Forall_impl; [done |]. intros y Hy. etrans; [exact Hy | done]. Qed.

Lemma lookup_pivot k xs k' g ys : ksorted (xs ++ (k', g) :: ys) →
  lookup_entry k (xs ++ (k', g) :: ys) =
    if decide (key_lt k k') then lookup_entry k xs
    else if decide (key_lt k' k) then lookup_entry k ys else Some g.
Proof.
  intros (Hx & Hy & _ & _)%ksorted_app_inv. rewrite lookup_entry_app. cbn.
  destruct (decide (key_lt k k')) as [H1 | H1].
  - rewrite decide_False by by apply key_lt_ne.
    rewrite (lookup_entry_lt k ys) by by eapply (pivot_lt (k', g)). by destruct (lookup_entry k xs).
  - destruct (decide (key_lt k' k)) as [H2 | H2].
    + rewrite (lookup_entry_gt k xs) by by eapply (pivot_gt (k', g)).
      rewrite decide_False; [done |]. intros ->. by apply key_lt_irrefl in H2.
    + assert (k = k') as ->.
      { destruct (iv_key_cmp_spec k k') as [[_ ?] | [[_ ?] | [_ ?]]]; done. }
      rewrite (lookup_entry_gt k' xs) by done. by rewrite decide_True.
Qed.

Lemma ins_entry_app_gt k hi v h xs ys : Forall (λ y, key_lt y.1 k) xs →
  ins_entry k hi v h (xs ++ ys) = xs ++ ins_entry k hi v h ys.
Proof.
  induction 1 as [|[k' g] xs Hk _ IH]; [done |]. cbn in *.
  rewrite !decide_False; [by rewrite IH | by apply key_lt_asym |]. intros ->. by apply key_lt_irrefl in Hk.
Qed.

Lemma ins_entry_app_lt k hi v h xs x ys : key_lt k x.1 →
  ins_entry k hi v h (xs ++ x :: ys) = ins_entry k hi v h xs ++ x :: ys.
Proof.
  intros Hk. induction xs as [|[k' g] xs IH]; cbn.
  - destruct x as [k' g]. rewrite decide_False by by apply key_lt_ne. by rewrite decide_True.
  - case_decide; [done |]. case_decide; [done |]. by rewrite IH.
Qed.

Lemma ins_pivot k hi v h xs k' g ys : ksorted (xs ++ (k', g) :: ys) →
  ins_entry k hi v h (xs ++ (k', g) :: ys) =
    if decide (key_lt k k') then ins_entry k hi v h xs ++ (k', g) :: ys
    else if decide (key_lt k' k) then xs ++ (k', g) :: ins_entry k hi v h ys
    else xs ++ (k', iv_group_push g (k_pos k) hi v) :: ys.
Proof.
  intros (Hx & Hy & _ & _)%ksorted_app_inv. destruct (decide (key_lt k k')) as [H1 | H1]; [by apply ins_entry_app_lt |].
  destruct (decide (key_lt k' k)) as [H2 | H2].
  - rewrite ins_entry_app_gt by by eapply (pivot_gt (k', g)). cbn.
    rewrite !decide_False; [done.. |]. intros ->. by apply key_lt_irrefl in H2.
  - assert (k = k') as ->.
    { destruct (iv_key_cmp_spec k k') as [[_ ?] | [[_ ?] | [_ ?]]]; done. }
    rewrite ins_entry_app_gt by done. cbn. by rewrite decide_True.
Qed.

Lemma del_entry_ne k xs : Forall (λ y, y.1 ≠ k) xs → del_entry k xs = xs.
Proof.
  induction 1 as [|x xs Hk _ IH]; [done |]. unfold del_entry in *. by rewrite filter_cons_True, IH.
Qed.

Lemma del_entry_lt k xs : Forall (λ y, key_lt k y.1) xs → del_entry k xs = xs.
Proof. intros Hf. apply del_entry_ne. eapply Forall_impl; [done |]. cbn. intros y Hy Heq. by apply (key_lt_ne _ _ Hy). Qed.

Lemma del_entry_gt k xs : Forall (λ y, key_lt y.1 k) xs → del_entry k xs = xs.
Proof. intros Hf. apply del_entry_ne. eapply Forall_impl; [done |]. cbn. intros y Hy Heq. by apply (key_lt_ne _ _ Hy). Qed.

Lemma del_pivot k xs k' g ys : ksorted (xs ++ (k', g) :: ys) →
  del_entry k (xs ++ (k', g) :: ys) =
    if decide (key_lt k k') then del_entry k xs ++ (k', g) :: ys
    else if decide (key_lt k' k) then xs ++ (k', g) :: del_entry k ys
    else xs ++ ys.
Proof.
  intros (Hx & Hy & _ & _)%ksorted_app_inv. unfold del_entry at 1. rewrite filter_app, filter_cons.
  fold (del_entry k xs). fold (del_entry k ys). cbn [fst]. destruct (decide (key_lt k k')) as [H1 | H1].
  - rewrite decide_True by (intros ->; by apply key_lt_irrefl in H1).
    by rewrite (del_entry_lt k ys) by by eapply (pivot_lt (k', g)).
  - destruct (decide (key_lt k' k)) as [H2 | H2].
    + rewrite decide_True by by apply key_lt_ne. by rewrite (del_entry_gt k xs) by by eapply (pivot_gt (k', g)).
    + assert (k = k') as ->.
      { destruct (iv_key_cmp_spec k k') as [[_ ?] | [[_ ?] | [_ ?]]]; done. }
      rewrite decide_False by (intros Hn; by apply Hn). by rewrite del_entry_gt, del_entry_lt.
Qed.

Lemma StronglySorted_sublist {A} (R : A → A → Prop) (as1 as2 : list A) :
  sublist as1 as2 → StronglySorted R as2 → StronglySorted R as1.
Proof.
  induction 1 as [| z as1 as2 Hs IH | z as1 as2 Hs IH]; [done | |]; rewrite !StronglySorted_cons.
  - intros [Hf Hk]. split; [| by apply IH]. rewrite Forall_forall in *. intros w Hw. apply Hf.
    by eapply elem_of_sublist.
  - intros [_ Hk]. by apply IH.
Qed.

(** ** The operations *)

Section Fixed.
Context (log : list iv_shift) (T : Z) (Hlog : log_ok log) (HT : Forall (λ s, s_tstamp s <= T) log).

Notation linv := (linv log T).
Notation good := (good log T).
Notation rinv := (rinv log T).
Notation view := (view log).

(** What a visit ([iv_apply_shifts]) of a node gives. *)
Lemma visit d l r : linv (Node d l r) →
  let d1 := iv_apply_shifts log d l r in
  good (Node d1 l r) ∧ view (Node d1 l r) = view (Node d l r) ∧
  view (Node d l r) = view l ++ (n_key d1, n_iv d1) :: view r ∧ n_height d1 = n_height d.
Proof using Hlog HT.
  intros H. destruct (linv_apply log T Hlog HT _ _ _ H) as (H1 & H2 & H3 & H4).
  assert (cur log (iv_apply_shifts log d l r) = (n_key _, n_iv _)) as Hc by by apply current_cur.
  cbn zeta. rewrite !view_Node, <- Hc, H3. done.
Qed.

Lemma apply_at_spec n : linv n → good (apply_at log n) ∧ view (apply_at log n) = view n ∧
  iv_height (apply_at log n) = iv_height n ∧ (avl n → avl (apply_at log n)) ∧
  (n = Nil ↔ apply_at log n = Nil).
Proof using Hlog HT.
  destruct n as [|d l r]; [done |]. intros H. destruct (visit _ _ _ H) as (H1 & H2 & H3 & H4).
  cbn [apply_at]. split_and!; try done. cbn [avl]. by rewrite H4.
Qed.

Lemma rebalance_good n : good n → (match n with Nil => True | Node d l r => avl l ∧ avl r end) →
  ∃ n', iv_rebalance log n = Ok n' ∧ good n' ∧ view n' = view n ∧ avl n'.
Proof using Hlog HT.
  destruct n as [|d l r]; [by exists Nil |]. intros Hg [Hl Hr].
  destruct (rebalance_ok_root log T Hlog HT d l r) as (n' & ? & [? ? ?] & _); try done.
  - by apply (good_rinv log T Hlog).
  - by exists n'.
Qed.

Lemma rebalance_rinv d l r : rinv d l r → avl l → avl r →
  ∃ n', iv_rebalance log (Node d l r) = Ok n' ∧ good n' ∧ view n' = view (Node d l r) ∧ avl n'.
Proof using Hlog HT.
  intros Hri Hl Hr. destruct (rebalance_ok_root log T Hlog HT d l r) as (n' & ? & [? ? ?] & _); try done.
  by exists n'.
Qed.

Lemma view_current d l r : current log d → view (Node d l r) = view l ++ (n_key d, n_iv d) :: view r.
Proof using Hlog. intros Hc. by rewrite view_Node, current_cur. Qed.

(** *** Search *)

Lemma iv_search_spec n key : linv n → ksorted (view n) →
  let '(n', g) := iv_search log n key in
  g = lookup_entry key (view n) ∧ linv n' ∧ view n' = view n ∧ iv_height n' = iv_height n ∧ (avl n → avl n').
Proof using Hlog HT.
  induction n as [|d l IHl r IHr]; [done |]. intros Hn Hs.
  destruct (visit _ _ _ Hn) as ([Hg Hc] & Hv1 & Hv & Hh). cbn [iv_search].
  set (d1 := iv_apply_shifts log d l r) in *. rewrite Hv in Hs |- *.
  rewrite (lookup_pivot key) by done. apply ksorted_app_inv in Hs as (_ & _ & Hsl & Hsr).
  destruct Hg as (Ht & Hk & Hb & Hl & Hr).
  cmp_key key (n_key d1).
  - specialize (IHl Hl Hsl).
    destruct (iv_search log l key) as [l' g]. destruct IHl as (-> & Hl' & Hvl & Hhl & Hal).
    split_and!; try done.
    + by eapply (linv_same_view log T d1 l r).
    + rewrite view_current, Hvl by done. done.
    + cbn. rewrite Hh, Hhl. intuition.
  - split_and!; try done; [by rewrite view_current | cbn; by rewrite Hh].
  - specialize (IHr Hr Hsr).
    destruct (iv_search log r key) as [r' g]. destruct IHr as (-> & Hr' & Hvr & Hhr & Har).
    split_and!; try done.
    + by eapply (linv_same_view log T d1 l r).
    + rewrite view_current, Hvr by done. done.
    + cbn. rewrite Hh, Hhr. intuition.
Qed.

(** *** Insertion *)

Definition handle_of (key : iv_key) (fresh : positive) xs : positive :=
  match lookup_entry key xs with Some g => loc g | None => fresh end.

Lemma iv_add_spec n key hi v fresh : linv n → avl n → ksorted (view n) → k_pos key <= hi →
  ∃ n', iv_add log T fresh n key hi v = Ok (n', handle_of key fresh (view n)) ∧
    good n' ∧ avl n' ∧ view n' = ins_entry key hi v fresh (view n).
Proof using Hlog HT.
  induction n as [|d l IHl r IHr]; intros Hn Ha Hs Hhi.
  { set (d := mk_data key hi (iv_group_push (mk_ivals [] fresh) (k_pos key) hi v) T 1).
    exists (Node d Nil Nil).
    assert (current log d) as Hc by done.
    assert (view (Node d Nil Nil) = ins_entry key hi v fresh []) as Hv by by rewrite view_current.
    split_and!; try done. split; [| done]. cbn [ITreeLazy.linv]. rewrite Hv, current_cur_max by done.
    repeat constructor; cbn; lia. }
  destruct (visit _ _ _ Hn) as ([Hg Hc] & Hv1 & Hv & Hh). cbn [iv_add].
  set (d1 := iv_apply_shifts log d l r) in *. rewrite Hv in Hs |- *.
  unfold handle_of. rewrite (lookup_pivot key), (ins_pivot key) by done.
  apply ksorted_app_inv in Hs as (_ & _ & Hsl & Hsr).
  destruct Ha as (_ & Hbal & Hal & Har). pose proof (linv_rinv log T Hlog _ _ _ Hg Hc) as Hri.
  specialize (IHl (linv_child_l _ _ _ _ _ Hn) Hal Hsl Hhi).
  specialize (IHr (linv_child_r _ _ _ _ _ Hn) Har Hsr Hhi).
  cmp_key key (n_key d1).
  - destruct IHl as (l' & -> & Hgl & Hal' & Hvl). cbn_res.
    destruct (rebalance_rinv d1 l' r) as (n' & -> & Hgn & Hvn & Han); try done.
    { destruct Hri. split; try done; [apply Hgl |]. right. apply Hgl. }
    exists n'. split_and!; try done. rewrite Hvn, view_current, Hvl by done. done.
  - set (d2 := mk_data _ _ _ T _).
    destruct (rebalance_rinv d2 l r) as (n' & Hn' & Hgn & Hvn & Han); try done.
    { destruct Hri. split; try done. }
    rewrite Hn'. exists n'. split_and!; try done. rewrite Hvn, view_current by done. done.
  - destruct IHr as (r' & -> & Hgr & Har' & Hvr). cbn_res.
    destruct (rebalance_rinv d1 l r') as (n' & -> & Hgn & Hvn & Han); try done.
    { destruct Hri. split; try done; [apply Hgr |]. right. apply Hgr. }
    exists n'. split_and!; try done. rewrite Hvn, view_current, Hvr by done. done.
Qed.

End Fixed.
End Ops.
