(* ===== verification/ITreeDel.v ===== *)
(** * ITreeDel: deletion of a key and of a range *)
From stdpp Require Import sorting.
From S2P Require Import Prelude ITree ITreeLazy ITreeAvl ITreeOps.

Section Del.
Context {V : Type}.
Implicit Types (d e : iv_data V) (n l r : iv_node V).

Notation entry := (iv_key * itree_ivals V)%type.
Implicit Types (x y : entry) (xs ys : list entry).
Notation ksorted := (StronglySorted entry_lt).

(** ** Cutting a range out of the reference list *)

Definition clear (lo hi : Z) (i : iv_ins V) : Prop := iv_overlaps i lo hi = false.

Lemma swap_with_last (g : list (iv_ins V)) i z w : g !! i = Some z → last g = Some w →
  g ≡ₚ z :: take (length g - 1) (<[i := w]> g) ∧
  (∃ t, take (length g - 1) (<[i := w]> g) = take i g ++ t) ∧
  length (take (length g - 1) (<[i := w]> g)) = (length g - 1)%nat.
Proof.
  intros Hi Hl. apply last_Some in Hl as [g' ->].
  assert (length (take (length (g' ++ [w]) - 1) (<[i := w]> (g' ++ [w]))) = (length (g' ++ [w]) - 1)%nat) as Hlen.
  { rewrite length_take, length_insert. lia. }
  split_and!; [| | done]; clear Hlen; rewrite length_app; cbn [length];
    replace (length g' + 1 - 1)%nat with (length g') by lia;
    destruct (decide (i < length g')%nat) as [Hlt | Hge].
  - rewrite insert_app_l, take_app_length' by (rewrite ?length_insert; lia).
    rewrite lookup_app_l in Hi by done.
    rewrite insert_take_drop by done. rewrite <- (take_drop_middle g' i z) at 1 by done. solve_Permutation.
  - assert (i = length g') as ->. { apply lookup_lt_Some in Hi. rewrite length_app in Hi. cbn in Hi. lia. }
    rewrite lookup_app_r, Nat.sub_diag in Hi by lia. injection Hi as ->.
    rewrite insert_app_r_alt, take_app_length by lia. solve_Permutation.
  - exists (w :: drop (S i) g'). rewrite insert_app_l, take_app_length' by (rewrite ?length_insert; lia).
    rewrite insert_take_drop by done. by rewrite take_app_le by lia.
  - assert (i = length g') as ->. { apply lookup_lt_Some in Hi. rewrite length_app in Hi. cbn in Hi. lia. }
    exists []. rewrite insert_app_r_alt, !take_app_length by lia. by rewrite app_nil_r.
Qed.

Lemma drop_overlaps_spec lo hi fuel i (g : list (iv_ins V)) : (length g <= i + fuel)%nat →
  Forall (clear lo hi) (take i g) →
  let '(g', out) := drop_overlaps fuel i g lo hi in
  g' ++ out ≡ₚ g ∧ Forall (clear lo hi) g' ∧ Forall (λ z, iv_overlaps z lo hi = true) out ∧
  (Forall (clear lo hi) g → g' = g ∧ out = []).
Proof.
  revert i g. induction fuel as [|fuel IH]; intros i g Hf Hc; cbn [drop_overlaps].
  { rewrite take_ge in Hc by lia. split_and!; [by rewrite app_nil_r | done | done | done]. }
  destruct (g !! i) as [z|] eqn:Hi.
  2: { apply lookup_ge_None in Hi. rewrite take_ge in Hc by done. split_and!; [by rewrite app_nil_r | done..]. }
  destruct (iv_overlaps z lo hi) eqn:Ho.
  - destruct (last g) as [w|] eqn:Hl; [| apply last_None in Hl as ->; done].
    destruct (swap_with_last _ _ _ _ Hi Hl) as (Hp & (t & Ht) & Hlen).
    set (g1 := take (length g - 1) (<[i := w]> g)) in *. assert (i < length g)%nat by by apply lookup_lt_Some in Hi.
    assert (Forall (clear lo hi) (take i g1)) as Hc1.
    { rewrite Ht, take_app_length' by (rewrite length_take; lia). done. }
    specialize (IH i g1 ltac:(lia) Hc1). destruct (drop_overlaps fuel i g1 lo hi) as [g' out].
    destruct IH as (H1 & H2 & H3 & H4). split_and!; try done; [| by constructor |].
    + rewrite Hp, <- H1. solve_Permutation.
    + intros Hall. rewrite Forall_forall in Hall. assert (z ∈ g) as Hz by by eapply list_elem_of_lookup_2.
      apply Hall in Hz. unfold clear in Hz. congruence.
  - apply IH; [lia |]. erewrite take_S_r by done. apply Forall_app. by split; [| constructor].
Qed.

Definition cut (lo hi : Z) x : option entry * list (eviction V) :=
  let '(g, out) := drop_overlaps (length (ins x.2)) 0 (ins x.2) lo hi in
  (match g with [] => None | _ => Some (x.1, mk_ivals g (loc x.2)) end, mk_eviction (k_pos x.1) <$> out).

Definition cut_view (lo hi : Z) xs : list entry := omap (λ x, (cut lo hi x).1) xs.
Definition cut_evs (lo hi : Z) xs : list (eviction V) := xs ≫= (λ x, (cut lo hi x).2).

(** Groups are non-empty, start at the key's position and have positive length. *)
Definition entry_ok x : Prop :=
  ins x.2 ≠ [] ∧ Forall (λ i, low i = k_pos x.1 ∧ low i < high i) (ins x.2).

Definition clear_entry (lo hi : Z) x : Prop := ins x.2 ≠ [] ∧ Forall (clear lo hi) (ins x.2).

Lemma cut_clear lo hi x : clear_entry lo hi x → cut lo hi x = (Some x, []).
Proof.
  intros [Hne Hc]. unfold cut. pose proof (drop_overlaps_spec lo hi (length (ins x.2)) 0 (ins x.2) ltac:(lia)) as H.
  destruct (drop_overlaps _ _ _ _ _) as [g' out]. destruct H as (_ & _ & _ & H); [by rewrite take_0 |].
  destruct (H Hc) as [-> ->]. destruct x as [k [[|i g] h]]; [done |]. done.
Qed.

Lemma cut_Some lo hi x y : (cut lo hi x).1 = Some y →
  y.1 = x.1 ∧ loc y.2 = loc x.2 ∧ ins y.2 ⊆ ins x.2 ∧ clear_entry lo hi y.
Proof.
  unfold cut. pose proof (drop_overlaps_spec lo hi (length (ins x.2)) 0 (ins x.2) ltac:(lia)) as H.
  destruct (drop_overlaps _ _ _ _ _) as [g' out]. destruct H as (Hp & Hc & _ & _); [by rewrite take_0 |].
  destruct g' as [|i g']; [done |]. intros [= <-]. split_and!; [done.. | | split; done].
  cbn. rewrite <- Hp. set_solver.
Qed.

Lemma cut_view_clear lo hi xs : Forall (clear_entry lo hi) xs → cut_view lo hi xs = xs ∧ cut_evs lo hi xs = [].
Proof.
  unfold cut_view, cut_evs. induction 1 as [|x xs Hx _ [IH1 IH2]]; [done |]. cbn.
  rewrite cut_clear by done. cbn. by rewrite IH1, IH2.
Qed.

Lemma cut_view_is_clear lo hi xs : Forall (clear_entry lo hi) (cut_view lo hi xs).
Proof.
  apply Forall_forall. intros y Hy. apply list_elem_of_omap in Hy as (x & _ & Hx). apply cut_Some in Hx. tauto.
Qed.

Lemma cut_view_app lo hi xs ys : cut_view lo hi (xs ++ ys) = cut_view lo hi xs ++ cut_view lo hi ys.
Proof. apply omap_app. Qed.

Lemma cut_evs_app lo hi xs ys : cut_evs lo hi (xs ++ ys) = cut_evs lo hi xs ++ cut_evs lo hi ys.
Proof. apply bind_app. Qed.

Lemma cut_view_idem lo hi xs : cut_view lo hi (cut_view lo hi xs) = cut_view lo hi xs ∧ cut_evs lo hi (cut_view lo hi xs) = [].
Proof. apply cut_view_clear, cut_view_is_clear. Qed.

Lemma cut_view_cons lo hi x xs : cut_view lo hi (x :: xs) = option_list (cut lo hi x).1 ++ cut_view lo hi xs.
Proof. unfold cut_view. cbn. by destruct (cut lo hi x).1. Qed.

Lemma cut_evs_cons lo hi x xs : cut_evs lo hi (x :: xs) = (cut lo hi x).2 ++ cut_evs lo hi xs.
Proof. done. Qed.

(** A property of entries that depends on key, handle and a sub-group is kept. *)
Lemma cut_view_Forall (P : entry → Prop) lo hi xs :
  (∀ x y, P x → y.1 = x.1 → loc y.2 = loc x.2 → ins y.2 ⊆ ins x.2 → ins y.2 ≠ [] → P y) →
  Forall P xs → Forall P (cut_view lo hi xs).
Proof.
  intros HP Hf. apply Forall_forall. intros y Hy. apply list_elem_of_omap in Hy as (x & Hin & Hx).
  apply cut_Some in Hx as (H1 & H2 & H3 & [H4 _]). rewrite Forall_forall in Hf. eapply HP; eauto.
Qed.

Lemma cut_view_below lo hi m xs : Forall (below m) xs → Forall (below m) (cut_view lo hi xs).
Proof.
  apply cut_view_Forall. intros x y [Hk Hf] Hy _ Hs _. split; [by rewrite Hy |].
  rewrite Forall_forall in *. auto.
Qed.

Lemma cut_view_ok lo hi xs : Forall entry_ok xs → Forall entry_ok (cut_view lo hi xs).
Proof.
  apply cut_view_Forall. intros x y [Hne Hf] Hy _ Hs Hn. split; [done |]. rewrite Hy. rewrite Forall_forall in *. auto.
Qed.

Lemma cut_view_keys lo hi xs : sublist (fst <$> cut_view lo hi xs) (fst <$> xs).
Proof.
  induction xs as [|x xs IH]; [done |]. unfold cut_view in *. cbn.
  destruct (cut lo hi x).1 as [y|] eqn:Hy; cbn; [| by constructor].
  apply cut_Some in Hy as (-> & _). by constructor.
Qed.

Lemma cut_view_locs lo hi xs : sublist (loc ∘ snd <$> cut_view lo hi xs) (loc ∘ snd <$> xs).
Proof.
  induction xs as [|x xs IH]; [done |]. unfold cut_view in *. cbn.
  destruct (cut lo hi x).1 as [y|] eqn:Hy; cbn; [| by constructor].
  apply cut_Some in Hy as (_ & -> & _). by constructor.
Qed.

Lemma ksorted_keys xs : ksorted xs ↔ StronglySorted key_lt (fst <$> xs).
Proof.
  induction xs as [|x xs IH]; cbn; [split; constructor |].
  rewrite !StronglySorted_cons, IH, Forall_fmap. done.
Qed.

Lemma cut_view_length lo hi xs : (length (cut_view lo hi xs) <= length xs)%nat.
Proof. pose proof (sublist_length _ _ (cut_view_keys lo hi xs)). rewrite !length_fmap in *. lia. Qed.

Lemma cut_view_sorted lo hi xs : ksorted xs → ksorted (cut_view lo hi xs).
Proof. rewrite !ksorted_keys. apply StronglySorted_sublist, cut_view_keys. Qed.

(** The two prunings of the traversal are sound. *)
Lemma clear_bound lo hi m xs : m < lo → Forall entry_ok xs → Forall (below m) xs → Forall (clear_entry lo hi) xs.
Proof.
  intros Hm Hok Hb. rewrite Forall_forall in *. intros x Hx. destruct (Hok _ Hx) as [Hne Hi].
  destruct (Hb _ Hx) as [_ Hh]. split; [done |]. rewrite Forall_forall in *. intros i Hin.
  specialize (Hi _ Hin). specialize (Hh _ Hin). unfold clear, iv_overlaps. cbn in *. lia.
Qed.

Lemma clear_right lo hi k xs : hi < k_pos k → Forall entry_ok xs → Forall (λ y, key_lt k y.1) xs →
  Forall (clear_entry lo hi) xs.
Proof.
  intros Hm Hok Hb. rewrite Forall_forall in *. intros x Hx. destruct (Hok _ Hx) as [Hne Hi].
  specialize (Hb _ Hx). split; [done |]. rewrite Forall_forall in *. intros i Hin.
  specialize (Hi _ Hin). unfold clear, iv_overlaps, key_lt in *. cbn in *. lia.
Qed.

Section Fixed.
Context (log : list iv_shift) (T : Z) (Hlog : log_ok log) (HT : Forall (λ s, s_tstamp s <= T) log).

Notation linv := (linv log T).
Notation good := (good log T).
Notation rinv := (rinv log T).
Notation view := (view log).

Lemma nnodes_view n : iv_nnodes n = length (view n).
Proof using.
  induction n as [|d l IHl r IHr]; [done |]. rewrite view_Node, length_app. cbn. lia.
Qed.

(** ** The leftmost node *)

(** The left spine is up to date and leads to key [k]. *)
Fixpoint spine (k : iv_key) n : Prop :=
  match n with
  | Nil => False
  | Node d Nil r => current log d ∧ n_key d = k
  | Node d l r => current log d ∧ key_lt k (n_key d) ∧ spine k l
  end.

Lemma apply_shifts_key d l r iv : current log d →
  iv_apply_shifts log d l r = match last log with Some _ => iv_update_max d l r | None => d end ∧
  n_key (iv_apply_shifts log d l r) = n_key d ∧
  n_key (iv_apply_shifts log (mk_data (n_key d) (n_max d) iv (n_tstamp d) (n_height d)) l r) = n_key d.
Proof using.
  intros Hc. unfold iv_apply_shifts. destruct (last log) as [s|] eqn:Hs; [| done].
  apply last_Some_elem_of in Hs. unfold current in Hc. rewrite Forall_forall in Hc.
  specialize (Hc s Hs). cbn [n_tstamp]. rewrite (proj2 (Z.ltb_ge _ _)) by done. split; [done |].
  split; [destruct (update_max_spec d l r) as (m & -> & _) |
    destruct (update_max_spec (mk_data (n_key d) (n_max d) iv (n_tstamp d) (n_height d)) l r) as (m & -> & _)]; done.
Qed.

(** The group put at the leftmost node is gone once that node is deleted. *)
Lemma remove_set_smallest k fuel n iv : spine k n →
  iv_remove fuel log (set_smallest_iv n iv) k = iv_remove fuel log n k.
Proof using.
  revert fuel. induction n as [|d l IHl r _]; intros fuel Hs; [done |].
  destruct l as [|e ll lr].
  - destruct Hs as [Hc Hk]. destruct fuel as [|fuel]; [done |]. cbn [set_smallest_iv iv_remove].
    destruct (apply_shifts_key d Nil r iv Hc) as (_ & -> & ->). rewrite Hk.
    case_key k k; [by apply key_lt_irrefl in Hkey | done | by apply key_lt_irrefl in Hkey].
  - destruct Hs as (Hc & Hk & Hs). destruct fuel as [|fuel]; [done |].
    change (set_smallest_iv (Node d (Node e ll lr) r) iv) with (Node d (set_smallest_iv (Node e ll lr) iv) r).
    assert (∃ e' ll', set_smallest_iv (Node e ll lr) iv = Node e' ll' lr ∧ n_max e' = n_max e) as (e' & ll' & Heq & Hm).
    { destruct ll; cbn; eauto. }
    specialize (IHl fuel Hs). rewrite Heq in IHl |- *. cbn [iv_remove].
    assert (iv_apply_shifts log d (Node e' ll' lr) r = iv_apply_shifts log d (Node e ll lr) r) as ->.
    { unfold iv_apply_shifts, iv_update_max. by rewrite Hm. }
    destruct (apply_shifts_key d (Node e ll lr) r iv Hc) as (_ & -> & _).
    case_key k (n_key d); [by rewrite IHl | |]; exfalso; [rewrite Hkey in Hk | apply key_lt_asym in Hk]; try done.
    by apply key_lt_irrefl in Hk.
Qed.

Lemma iv_find_smallest_spec d l r : good (Node d l r) → avl (Node d l r) → ksorted (view (Node d l r)) →
  ∃ n' s vs, iv_find_smallest log d l r = (n', s) ∧ good n' ∧ avl n' ∧ n' ≠ Nil ∧
    view n' = view (Node d l r) ∧ iv_height n' = n_height d ∧ current log s ∧ n_tstamp s <= T ∧
    view n' = (n_key s, n_iv s) :: vs ∧ spine (n_key s) n'.
Proof using Hlog HT.
  revert d r. induction l as [|e ll IHll lr _]; intros d r [Hn Hc] Ha Hs.
  - exists (Node d Nil r), d, (view r). rewrite view_current by done.
    pose proof (proj1 Hn) as Ht. assert (good (Node d Nil r)) by by split. do 10 (split; [done |]). done.
  - cbn [iv_find_smallest]. rewrite view_current in Hs by done.
    apply ksorted_app_inv in Hs as (Hx & _ & Hsl & _).
    destruct (visit log T Hlog HT e ll lr (linv_child_l _ _ _ _ _ Hn)) as (Hge & Hv1 & _ & Hhe).
    set (e1 := iv_apply_shifts log e ll lr) in *.
    destruct Ha as (Hh & Hb & Hal & Har).
    destruct (IHll e1 lr) as (l' & s & vs & -> & Hg' & Ha' & Hne & Hv' & Hh' & Hcs & Hts & Hvs & Hsp); try done.
    { cbn [avl]. by rewrite Hhe. }
    { by rewrite Hv1. }
    rewrite Hv1 in Hv'. exists (Node d l' r), s, (vs ++ (n_key d, n_iv d) :: view r).
    split_and!; try done.
    + split; [| done]. eapply (linv_same_view log T d (Node e ll lr) r); try done; [apply Hg' | by destruct Hn as (_ & _ & _ & _ & ?)].
    + cbn [avl]. rewrite Hh', Hhe. done.
    + by rewrite (view_Node log d l' r), (view_Node log d (Node e ll lr) r), Hv'.
    + rewrite view_current, Hvs by done. done.
    + assert (key_lt (n_key s) (n_key d)) as Hlt.
      { rewrite <- Hv', Hvs in Hx. inversion Hx; subst. done. }
      destruct l'; done.
Qed.

(** ** Deletion of a key *)

(** Balanced below the root, whose own imbalance is arbitrary. *)
Definition avl_below n : Prop := match n with Nil => True | Node _ l r => avl l ∧ avl r end.

Lemma avl_avl_below n : avl n → avl_below n.
Proof using. destruct n; [done |]. cbn. tauto. Qed.

Lemma iv_remove_spec fuel n key : linv n → avl_below n → ksorted (view n) → (iv_nnodes n <= fuel)%nat →
  ∃ n', iv_remove fuel log n key = Ok n' ∧ good n' ∧ avl n' ∧ view n' = del_entry key (view n).
Proof using Hlog HT.
  revert n key. induction fuel as [|fuel IH]; intros [|d l r] key Hn Ha Hs Hf;
    [by exists Nil | cbn in Hf; lia | by exists Nil |].
  destruct (visit log T Hlog HT _ _ _ Hn) as ([Hg Hc] & Hv1 & Hv & Hh). cbn [iv_remove].
  set (d1 := iv_apply_shifts log d l r) in *. rewrite Hv in Hs |- *.
  rewrite (del_pivot key) by done. pose proof Hs as Hs0.
  apply ksorted_app_inv in Hs as (Hxl & Hxr & Hsl & Hsr).
  destruct Ha as (Hal & Har). pose proof (linv_rinv log T Hlog _ _ _ Hg Hc) as Hri.
  cbn [iv_nnodes] in Hf. pose proof (linv_child_l _ _ _ _ _ Hn) as Hll. pose proof (linv_child_r _ _ _ _ _ Hn) as Hlr.
  cmp_key key (n_key d1).
  - destruct (IH l key) as (l' & -> & Hgl & Hal' & Hvl); [done | by apply avl_avl_below | done | lia |]. cbn_res.
    destruct (rebalance_rinv log T Hlog HT d1 l' r) as (n' & -> & Hgn & Hvn & Han); try done.
    { destruct Hri. split; try done; [apply Hgl |]. right. apply Hgl. }
    exists n'. split_and!; try done. rewrite Hvn, view_current, Hvl by done. done.
  - destruct (apply_at_spec log T Hlog HT l Hll) as (Hgl' & Hvl' & Hhl' & Hal' & Hnl').
    destruct l as [|e ll lr], r as [|f rl rr].
    + by exists Nil.
    + destruct (apply_at_spec log T Hlog HT _ Hlr) as (Hgr' & Hvr' & Hhr' & Har' & _).
      destruct (rebalance_good log T Hlog HT _ Hgr') as (n' & Hn' & ? & Hvn & ?).
      { specialize (Har' Har). cbn [apply_at avl] in *. tauto. }
      exists n'. rewrite Hn'. split_and!; try done. rewrite Hvn, Hvr'. done.
    + destruct (rebalance_good log T Hlog HT _ Hgl') as (n' & Hn' & ? & Hvn & ?).
      { specialize (Hal' Hal). cbn [apply_at avl] in *. tauto. }
      exists n'. rewrite Hn'. split_and!; try done. rewrite Hvn, Hvl'. by rewrite app_nil_r.
    + destruct (visit log T Hlog HT f rl rr Hlr) as (Hgf & Hvf & _ & Hhf).
      set (f1 := iv_apply_shifts log f rl rr) in *.
      destruct (iv_find_smallest_spec f1 rl rr) as (r' & s & vs & -> & Hg' & Ha' & Hne & Hv' & Hh' & Hcs & Hts & Hvs & Hsp);
        [done | by cbn [avl]; rewrite Hhf | by rewrite Hvf |].
      rewrite Hvf in Hv'. cbn zeta. rewrite remove_set_smallest by done.
      destruct (IH r' (n_key s)) as (r'' & -> & Hgr & Har' & Hvr); [apply Hg' | by apply avl_avl_below | by rewrite Hv' | |].
      { rewrite nnodes_view, Hv', <- nnodes_view. lia. }
      cbn_res. set (d2 := mk_data _ _ _ _ _). rewrite Hvs in Hv', Hvr.
      assert (view r'' = vs) as Hvr2.
      { rewrite Hvr. rewrite <- Hv' in Hsr. change ((n_key s, n_iv s) :: vs) with ([] ++ (n_key s, n_iv s) :: vs) in *.
        rewrite (del_pivot (n_key s)) by done. by rewrite !decide_False by apply key_lt_irrefl. }
      assert (current log d2) as Hc2 by done.
      destruct (rebalance_rinv log T Hlog HT d2 (apply_at log (Node e ll lr)) r'') as (n' & Hn' & Hgn & Hvn & Han); auto.
      { destruct Hri as [? ? ? ? ? Hcl Hcr]. split; try done.
        - cbn. destruct Hn as (_ & _ & _). destruct Hg as (_ & _ & Hb & _).
          rewrite current_cur_max, view_current, <- Hv', Forall_app, !Forall_cons in Hb by done.
          destruct Hb as (_ & _ & [Hb _] & _). done.
        - apply Hgl'.
        - apply Hgr.
        - right. apply Hgl'.
        - right. apply Hgr. }
      exists n'. split_and!; try done. rewrite Hvn, view_current, Hvl', Hvr2, <- Hv' by done. done.
  - destruct (IH r key) as (r' & -> & Hgr & Har' & Hvr); [done | by apply avl_avl_below | done | lia |]. cbn_res.
    destruct (rebalance_rinv log T Hlog HT d1 l r') as (n' & -> & Hgn & Hvn & Han); try done.
    { destruct Hri. split; try done; [apply Hgr |]. right. apply Hgr. }
    exists n'. split_and!; try done. rewrite Hvn, view_current, Hvr by done. done.
Qed.

(** ** Deletion of a range *)

(** The node's own group after the cut, before its right subtree. *)
Lemma cut_node_linv lo hi d1 l r l' g : good (Node d1 l r) → good l' →
  view l' = cut_view lo hi (view l) → g ⊆ ins (n_iv d1) →
  let d2 := mk_data (n_key d1) (n_max d1) (mk_ivals g (loc (n_iv d1))) (n_tstamp d1) (n_height d1) in
  linv (Node d2 l' r) ∧ current log d2.
Proof using Hlog.
  intros [(Ht & Hk & Hb & Hl & Hr) Hc] [Hl' _] Hv Hg d2. assert (current log d2) as Hc2 by done.
  split; [| done]. cbn [ITreeLazy.linv]. rewrite current_cur_max, view_current in * by done.
  split_and!; try done. apply Forall_app in Hb as [Hb1 Hb2]. apply Forall_cons in Hb2 as [[Hb2 Hb3] Hb4].
  rewrite Hv. apply Forall_app. split; [by apply cut_view_below |]. constructor; [| done].
  split; [done |]. cbn in *. rewrite Forall_forall in *. auto.
Qed.

Lemma sorted_replace xs x y ys lo hi : y.1 = x.1 → ksorted (xs ++ x :: ys) → ksorted (cut_view lo hi xs ++ y :: ys).
Proof using.
  rewrite !ksorted_keys, !fmap_app, !fmap_cons. intros ->. apply StronglySorted_sublist.
  apply sublist_app; [apply cut_view_keys | done].
Qed.

Lemma iv_remove_overlaps_spec lo hi fuel n : linv n → avl n → ksorted (view n) → Forall entry_ok (view n) →
  (iv_nnodes n <= fuel)%nat →
  ∃ n', iv_remove_overlaps fuel log n lo hi = Ok (n', cut_evs lo hi (view n)) ∧
    good n' ∧ avl n' ∧ view n' = cut_view lo hi (view n).
Proof using Hlog HT.
  revert n. induction fuel as [|fuel IH]; intros [|d l r] Hn Ha Hs Hok Hf;
    [by exists Nil | cbn in Hf; lia | by exists Nil |].
  destruct (visit log T Hlog HT _ _ _ Hn) as (Hgd & Hv1 & Hv & Hh). cbn [iv_remove_overlaps].
  set (d1 := iv_apply_shifts log d l r) in *.
  assert (Forall (below (n_max d1)) (view (Node d l r))) as Hbelow.
  { rewrite <- Hv1. destruct Hgd as [(_ & _ & Hb & _) Hc]. by rewrite current_cur_max in Hb. }
  destruct (Z.ltb_spec (n_max d1) lo).
  { destruct (cut_view_clear lo hi (view (Node d l r))) as [Hcv ->].
    { by eapply clear_bound. }
    exists (Node d1 l r). rewrite Hcv. split_and!; try done. cbn [avl] in *. by rewrite Hh. }
  rewrite Hv in Hs, Hok |- *. pose proof Hs as Hs0. apply ksorted_app_inv in Hs as (Hxl & Hxr & Hsl & Hsr).
  apply Forall_app in Hok as [Hokl Hok]. apply Forall_cons in Hok as [Hokd Hokr].
  cbn [iv_nnodes] in Hf. destruct Ha as (_ & Hbal & Hal & Har).
  pose proof (linv_child_r _ _ _ _ _ Hn) as Hlr.
  destruct (IH l) as (l' & -> & Hgl & Hal' & Hvl); [by eapply linv_child_l | done.. | lia |]. cbn_res.
  rewrite cut_view_app, cut_evs_app, cut_view_cons, cut_evs_cons. unfold cut. cbn [fst snd].
  pose proof (drop_overlaps_spec lo hi (length (ins (n_iv d1))) 0 (ins (n_iv d1)) ltac:(lia)) as Hdrop.
  destruct (drop_overlaps _ _ _ _ _) as [g out]. destruct Hdrop as (Hp & Hcg & _ & _); [by rewrite take_0 |].
  assert (g ⊆ ins (n_iv d1)) as Hg by (rewrite <- Hp; set_solver).
  destruct (cut_node_linv lo hi d1 l r l' g Hgd Hgl Hvl Hg) as [Hl2 Hc2].
  set (d2 := mk_data (n_key d1) (n_max d1) _ _ _) in *. cbn [fst snd].
  destruct g as [|z g].
  - (* the group is empty: the node goes *)
    destruct (iv_remove_spec (S (iv_nnodes (Node d2 l' r))) (Node d2 l' r) (n_key d2))
      as (n1 & -> & Hg1 & Ha1 & Hvn1); [done | done | | lia |].
    { rewrite view_current, Hvl by done. by apply (sorted_replace (view l) (n_key d1, n_iv d1)). }
    cbn_res. rewrite view_current, Hvl, (del_pivot (n_key d2)) in Hvn1 by (done || by apply (sorted_replace (view l) (n_key d1, n_iv d1))).
    rewrite !decide_False in Hvn1 by apply key_lt_irrefl.
    assert (∃ n2, (if k_pos (n_key d2) <=? hi then iv_remove_overlaps fuel log n1 lo hi else mret (n1, [])) =
      Ok (n2, cut_evs lo hi (view r)) ∧ good n2 ∧ avl n2 ∧ view n2 = cut_view lo hi (view l) ++ cut_view lo hi (view r))
      as (n2 & -> & Hg2 & Ha2 & Hv2).
    { destruct (Z.leb_spec (k_pos (n_key d2)) hi).
      - destruct (IH n1) as (n2 & -> & Hg2 & Ha2 & Hv2); [apply Hg1 | done | | | |].
        + rewrite Hvn1. eapply StronglySorted_sublist; [| apply (sorted_replace (view l) (n_key d1, n_iv d1) (n_key d1, n_iv d1) (view r) lo hi); done].
          apply sublist_app; [done | by apply sublist_cons].
        + rewrite Hvn1. apply Forall_app. split; [by apply cut_view_ok | done].
        + rewrite (nnodes_view n1), Hvn1, length_app. pose proof (cut_view_length lo hi (view l)).
          rewrite !nnodes_view in Hf. lia.
        + exists n2. rewrite Hv2, Hvn1, cut_view_app, cut_evs_app.
          destruct (cut_view_idem lo hi (view l)) as [-> ->]. done.
      - destruct (cut_view_clear lo hi (view r)) as [-> ->]; [by eapply (clear_right _ _ (n_key d2)) |].
        exists n1. done. }
    cbn_res. destruct (rebalance_good log T Hlog HT n2 Hg2) as (n3 & -> & Hg3 & Hv3 & Ha3).
    { destruct n2; cbn in Ha2; tauto. }
    exists n3. rewrite Hv3, Hv2. done.
  - cbn [option_list]. destruct (Z.ltb_spec hi (k_pos (n_key d2))).
    + destruct (rebalance_rinv log T Hlog HT d2 l' r) as (n3 & -> & Hg3 & Hv3 & Ha3); [by apply (linv_rinv log T Hlog) | done.. |].
      destruct (cut_view_clear lo hi (view r)) as [-> ->]; [by eapply (clear_right _ _ (n_key d2)) |].
      exists n3. rewrite Hv3, view_current, Hvl, app_nil_r by done. done.
    + destruct (IH r) as (r' & -> & Hgr & Har' & Hvr); [done.. | lia |]. cbn_res.
      destruct (rebalance_rinv log T Hlog HT d2 l' r') as (n3 & -> & Hg3 & Hv3 & Ha3); [| done.. |].
      { destruct (linv_rinv log T Hlog _ _ _ Hl2 Hc2). split; try done; [apply Hgr | right; apply Hgr]. }
      exists n3. rewrite Hv3, view_current, Hvl, Hvr by done. done.
Qed.

End Fixed.
End Del.
