(* ===== verification/ITreeSpec.v ===== *)
(** * ITreeSpec: the interval tree refines a sorted list of groups

    [Inv] is the invariant of the tree between calls and [contents] its
    meaning.  Every call of the public interface is simulated by the same call
    on [astate], a sorted list of groups shifted eagerly; the last section
    says what happens when the non-negativity of recorded shifts fails. *)
From stdpp Require Import sorting.
From S2P Require Import Prelude ITree ITreeLazy ITreeAvl ITreeOps ITreeDel.

Section Spec.
Context {V : Type}.
Implicit Types (d e : iv_data V) (n l r : iv_node V) (t : itree V) (s : iv_shift) (log : list iv_shift).

Notation entry := (iv_key * itree_ivals V)%type.
Implicit Types (x y : entry) (xs ys : list entry).
Notation ksorted := (StronglySorted entry_lt).
Notation shift_all s xs := ((λ x, shift_entry x s) <$> xs).

(** ** Recording a shift *)

Lemma sorted_snoc log s T : StronglySorted stamp_lt log → Forall (λ s, s_tstamp s <= T) log →
  T < s_tstamp s → StronglySorted stamp_lt (log ++ [s]).
Proof.
  intros Hs Ht Hlt. apply StronglySorted_app. split_and!; [| done | repeat constructor].
  intros a b Ha Hb. apply list_elem_of_singleton in Hb as ->. rewrite Forall_forall in Ht.
  specialize (Ht a Ha). unfold stamp_lt. cbn in *. lia.
Qed.

Lemma pending_snoc log s T ts : StronglySorted stamp_lt log → Forall (λ s, s_tstamp s <= T) log →
  ts <= T < s_tstamp s → iv_pending (log ++ [s]) ts = iv_pending log ts ++ [s].
Proof.
  intros Hs Ht Hlt. rewrite !iv_pending_filter by (done || eapply sorted_snoc; done || lia).
  rewrite filter_app, (filter_cons_True _ s) by lia. done.
Qed.

Lemma cur_snoc log s T d : StronglySorted stamp_lt log → Forall (λ s, s_tstamp s <= T) log →
  n_tstamp d <= T < s_tstamp s →
  cur (log ++ [s]) d = shift_entry (cur log d) s ∧ cur_max (log ++ [s]) d = gate (cur_max log d) s.
Proof. intros. unfold cur, cur_max. erewrite pending_snoc by done. by rewrite !fold_left_app. Qed.

Lemma view_snoc log s T n : StronglySorted stamp_lt log → Forall (λ s, s_tstamp s <= T) log →
  linv log T n → T < s_tstamp s → view (log ++ [s]) n = shift_all s (view log n).
Proof.
  intros Hs Ht Hn Hlt. induction n as [|d l IHl r IHr]; [done |].
  destruct Hn as (Hd & _ & _ & Hl & Hr). rewrite !view_Node, fmap_app, fmap_cons, IHl, IHr by done.
  by destruct (cur_snoc log s T d) as [-> _].
Qed.

Lemma linv_snoc log s T n : log_ok log → Forall (λ s, s_tstamp s <= T) log → linv log T n →
  s_tstamp s = T + 1 → 0 <= amt s → linv (log ++ [s]) (T + 1) n.
Proof.
  intros [Hs Hn0] Ht Hn Hst Ha. induction n as [|d l IHl r IHr]; [done |].
  pose proof (view_snoc log s T _ Hs Ht Hn ltac:(lia)) as Hv.
  destruct Hn as (Hd & Hk & Hb & Hl & Hr). cbn [linv]. split_and!; auto; [lia |].
  rewrite Hv. destruct (cur_snoc log s T d) as [_ ->]; [done.. | lia |]. apply Forall_fmap.
  eapply Forall_impl; [done |]. intros x Hx. by apply shift_entry_below.
Qed.

Lemma shift_entry_id x s : k_id (shift_entry x s).1 = k_id x.1.
Proof. unfold shift_entry. by case_zb. Qed.

Lemma shift_entry_loc x s : loc (shift_entry x s).2 = loc x.2.
Proof. unfold shift_entry. by case_zb. Qed.

Lemma shift_entry_ok x s : entry_ok x → entry_ok (shift_entry x s).
Proof.
  intros [Hne Hf]. unfold shift_entry. case_zb; [| done]. cbn [fst snd]. split; cbn.
  - by intros ?%fmap_nil_inv.
  - apply Forall_fmap. eapply Forall_impl; [done |]. intros i. cbn. lia.
Qed.

(** A shift that moves nothing below its own position keeps the key order. *)
Lemma shift_all_sorted s xs : Forall (λ x, idx s <= k_pos x.1 → idx s <= k_pos x.1 + amt s) xs →
  ksorted xs → ksorted (shift_all s xs).
Proof.
  intros Hf Hs. induction Hs as [|x xs Hs IH Hall]; [constructor |].
  apply Forall_cons in Hf as [Hx Hf]. cbn. constructor; [by apply IH |]. apply Forall_fmap.
  rewrite Forall_forall in *. intros y Hy. specialize (Hall y Hy). specialize (Hf y Hy).
  unfold compose, entry_lt, key_lt in *. rewrite !shift_entry_pos, !shift_entry_id. unfold gate. case_zb; lia.
Qed.

(** ** Absorbing everything: [iv_apply_all] *)

(** Each node's key and group come out right when it absorbs what it has
    pending, whatever its bound becomes. *)
Definition absorbs log n : Prop := Forall (λ d,
  let d' := fold_left iv_apply_shift (iv_pending log (n_tstamp d)) d in (n_key d', n_iv d') = cur log d) (nodes n).

Lemma absorbs_linv log T n : log_ok log → linv log T n → absorbs log n.
Proof.
  intros Hlog. unfold absorbs. induction n as [|d l IHl r IHr]; [constructor |].
  intros (Ht & Hk & _ & Hl & Hr). cbn [nodes]. apply Forall_app. split; [by apply IHl |].
  constructor; [| by apply IHr].
  destruct (absorb_spec (iv_pending log (n_tstamp d)) d) as (H1 & _);
    eauto using pending_sorted, pending_newer, pending_nonneg.
Qed.

(** One more shift of any sign at the end of the log. *)
Lemma absorbs_snoc log s T n : log_ok log → Forall (λ s, s_tstamp s <= T) log → linv log T n →
  T < s_tstamp s → absorbs (log ++ [s]) n.
Proof.
  intros Hlog Ht Hn Hlt. unfold absorbs. induction n as [|d l IHl r IHr]; [constructor |].
  destruct Hn as (Hd & Hk & _ & Hl & Hr). cbn [nodes]. apply Forall_app. split; [by apply IHl |].
  constructor; [| by apply IHr]. destruct (cur_snoc log s T d) as [-> _]; [apply Hlog | done.. |].
  rewrite (pending_snoc _ _ T) by (apply Hlog || done). rewrite fold_left_app. cbn [fold_left].
  destruct (absorb_spec (iv_pending log (n_tstamp d)) d) as (H1 & _ & _ & H4 & H5);
    eauto using pending_sorted, pending_newer, pending_nonneg.
  set (d' := fold_left _ _ _) in *. unfold cur. rewrite <- H1.
  assert (n_tstamp d' <= T) as Htd.
  { rewrite H5. destruct (last _) as [s'|] eqn:Hl'; [| done]. apply last_Some_elem_of in Hl'.
    rewrite iv_pending_filter in Hl' by apply Hlog. apply list_elem_of_filter in Hl' as [_ Hl'].
    rewrite Forall_forall in Ht. by apply Ht. }
  unfold iv_apply_shift, shift_entry. cbn [fst snd]. case_zb; try lia; done.
Qed.

Lemma view_nil_current log n : view [] n = (λ d, (n_key d, n_iv d)) <$> nodes n.
Proof. done. Qed.

(** After [iv_apply_shifts] the keys are right and the bound covers the group
    and the children's bounds. *)
Lemma apply_shifts_absorbed log d l r :
  let d0 := fold_left iv_apply_shift (iv_pending log (n_tstamp d)) d in
  StronglySorted stamp_lt log → (n_key d0, n_iv d0) = cur log d →
  let d' := iv_apply_shifts log d l r in
  (n_key d', n_iv d') = cur log d ∧
  (log ≠ [] → iv_group_high (n_iv d') <= n_max d' ∧ max_le (n_max d') l ∧ max_le (n_max d') r).
Proof.
  intros d0 Hs Hd0. unfold iv_apply_shifts. fold d0. destruct (last log) as [s|] eqn:Hl.
  2: { apply last_None in Hl as ->. done. }
  assert ((if n_tstamp d <? s_tstamp s then d0 else d) = d0) as ->.
  { case_zb; [done |]. unfold d0. rewrite current_pending; [done | done |].
    apply last_Some in Hl as [log' ->]. apply StronglySorted_app in Hs as (Hs & _ & _).
    apply Forall_app. split; [| by repeat constructor]. apply Forall_forall. intros x Hx.
    specialize (Hs x s Hx ltac:(set_solver)). unfold stamp_lt in Hs. lia. }
  destruct (update_max_spec d0 l r) as (m & -> & Hm & Hg & Hml & Hmr). done.
Qed.

Lemma absorb_fields p d T : Forall (λ s, s_tstamp s <= T) p → n_tstamp d <= T →
  n_tstamp (fold_left iv_apply_shift p d) <= T ∧ n_height (fold_left iv_apply_shift p d) = n_height d.
Proof.
  revert d. induction p as [|s p IH]; intros d Hp Hd; [done |]. apply Forall_cons in Hp as [Hs Hp].
  cbn [fold_left]. assert (n_tstamp (iv_apply_shift d s) <= T ∧ n_height (iv_apply_shift d s) = n_height d) as [H1 <-].
  { unfold iv_apply_shift. case_zb; cbn; lia. }
  by apply IH.
Qed.

Lemma apply_shifts_fields log d l r T : StronglySorted stamp_lt log → Forall (λ s, s_tstamp s <= T) log →
  n_tstamp d <= T →
  n_tstamp (iv_apply_shifts log d l r) <= T ∧ n_height (iv_apply_shifts log d l r) = n_height d.
Proof.
  intros Hs Ht Hd. unfold iv_apply_shifts. destruct (last log) as [s|]; [| done].
  set (d0 := if _ <? _ then _ else d). assert (n_tstamp d0 <= T ∧ n_height d0 = n_height d) as H0.
  { unfold d0. destruct (_ <? _); [| done]. apply absorb_fields; [| done].
    rewrite iv_pending_filter by done. apply Forall_forall. intros s' [_ Hin]%list_elem_of_filter.
    rewrite Forall_forall in Ht. by apply Ht. }
  by destruct (update_max_spec d0 l r) as (m & -> & _).
Qed.

Lemma apply_all_nil n : iv_apply_all [] n = n.
Proof. induction n as [|d l IHl r IHr]; [done |]. cbn. by rewrite IHl, IHr. Qed.

Lemma entry_ok_key_high x m : entry_ok x → Forall (λ i, high i <= m) (ins x.2) → k_pos x.1 <= m.
Proof.
  intros [Hne Hf] Hm. destruct (ins x.2) as [|i g]; [done |].
  apply Forall_cons in Hf as [Hi _], Hm as [Hh _]. cbn in *. lia.
Qed.

Lemma apply_all_spec log T n : StronglySorted stamp_lt log → Forall (λ s, s_tstamp s <= T) log → log ≠ [] →
  absorbs log n → Forall (λ d, n_tstamp d <= T) (nodes n) → Forall entry_ok (view log n) →
  let n' := iv_apply_all log n in
  view [] n' = view log n ∧ linv [] T n' ∧ iv_height n' = iv_height n ∧ (avl n → avl n').
Proof.
  intros Hs Ht Hne. unfold absorbs. induction n as [|d l IHl r IHr]; [done |].
  cbn [nodes iv_apply_all]. rewrite view_Node, !Forall_app, !Forall_cons.
  intros (Hal & Had & Har) (Htl & Htd & Htr) (Hol & Hod & Hor).
  destruct (IHl Hal Htl Hol) as (Hvl & Hll & Hhl & Hbl), (IHr Har Htr Hor) as (Hvr & Hlr & Hhr & Hbr).
  set (l' := iv_apply_all log l) in *. set (r' := iv_apply_all log r) in *.
  destruct (apply_shifts_absorbed log d l' r') as [Hc Hm]; [done.. |].
  destruct (apply_shifts_fields log d l' r' T) as [Ht' Hh']; [done.. |].
  destruct (Hm Hne) as (Hg & Hml & Hmr). set (d' := iv_apply_shifts log d l' r') in *.
  assert (∀ c : iv_node V, linv [] T c → max_le (n_max d') c → Forall (below (n_max d')) (view [] c)) as Hcov.
  { intros c Hlc Hmc. destruct c as [|e cl cr]; [by apply Forall_nil |].
    destruct Hlc as (_ & _ & Hb & _). by eapply Forall_below_le. }
  apply group_high_bound in Hg. rewrite <- Hc in Hod.
  assert (k_pos (n_key d') <= n_max d') as Hk by by apply (entry_ok_key_high (n_key d', n_iv d')).
  rewrite view_Node, Hvl, Hvr, <- Hc. split_and!; [done | | done | ].
  - cbn [linv]. split_and!; try done. rewrite view_Node. apply Forall_app. split; [by apply Hcov |].
    constructor; [| by apply Hcov]. by split.
  - cbn [avl]. rewrite Hh', Hhl, Hhr. tauto.
Qed.

Lemma linv_tstamps log T n : linv log T n → Forall (λ d, n_tstamp d <= T) (nodes n).
Proof.
  induction n as [|d l IHl r IHr]; [by intros; apply Forall_nil |]. intros (Ht & _ & _ & Hl & Hr).
  apply Forall_app. split; [by apply IHl |]. constructor; [done | by apply IHr].
Qed.

(** ** The invariant of the tree *)

Definition contents t : list entry := view (shifts t) (root t).

Definition locs xs : list positive := (λ x, loc x.2) <$> xs.

Record entries_inv (next : positive) xs : Prop := {
  ei_sorted : ksorted xs;
  ei_ok : Forall entry_ok xs;
  ei_nodup : NoDup (locs xs);
  ei_fresh : Forall (λ h, (h < next)%positive) (locs xs);
}.

Record Inv t : Prop := {
  inv_log : log_ok (shifts t);
  inv_stamps : Forall (λ s, s_tstamp s <= t_tstamp t) (shifts t);
  inv_lazy : linv (shifts t) (t_tstamp t) (root t);
  inv_avl : avl (root t);
  inv_entries : entries_inv (next_loc t) (contents t);
}.

Lemma entries_inv_shift s next xs : Forall (λ x, idx s <= k_pos x.1 → idx s <= k_pos x.1 + amt s) xs →
  entries_inv next xs → entries_inv next (shift_all s xs).
Proof.
  intros Hf [H1 H2 H3 H4].
  assert (locs (shift_all s xs) = locs xs) as Hl.
  { unfold locs. rewrite <- list_fmap_compose. apply list_fmap_ext. intros i x _. apply shift_entry_loc. }
  split; [by apply shift_all_sorted | | by rewrite Hl | by rewrite Hl].
  apply Forall_fmap. eapply Forall_impl; [done |]. intros x. apply shift_entry_ok.
Qed.

Lemma entries_inv_cut lo hi next xs : entries_inv next xs → entries_inv next (cut_view lo hi xs).
Proof.
  intros [H1 H2 H3 H4]. pose proof (cut_view_locs lo hi xs) as Hs.
  split; [by apply cut_view_sorted | by apply cut_view_ok | by eapply sublist_NoDup |].
  rewrite Forall_forall in *. intros h Hh. apply H4. by eapply elem_of_sublist.
Qed.

(** Insertion into the reference list keeps its invariant. *)
Lemma ins_entry_keys k hi v h xs y : y ∈ ins_entry k hi v h xs → y.1 = k ∨ ∃ x, x ∈ xs ∧ y.1 = x.1.
Proof.
  induction xs as [|[k' g] xs IH]; cbn; [set_solver |].
  destruct (decide (k = k')) as [<- | _]; [set_solver |]. destruct (decide (key_lt k k')); set_solver.
Qed.

Lemma ins_entry_sorted k hi v h xs : ksorted xs → ksorted (ins_entry k hi v h xs).
Proof.
  induction 1 as [|[k' g] xs Hs IH Hall]; cbn; [repeat constructor |].
  destruct (decide (k = k')) as [<- | Hne]; [by constructor |].
  destruct (decide (key_lt k k')) as [Hlt | Hnlt].
  - constructor; [by constructor |]. constructor; [done |]. by eapply (pivot_lt (k', g)).
  - constructor; [done |]. apply Forall_forall. intros y [Hy | (x & Hx & Hy)]%ins_entry_keys; unfold entry_lt; rewrite Hy.
    + destruct (iv_key_cmp_spec k k') as [[_ ?] | [[_ ?] | [_ ?]]]; done.
    + rewrite Forall_forall in Hall. by apply Hall.
Qed.

Lemma ins_entry_ok k hi v h xs : k_pos k < hi → Forall entry_ok xs → Forall entry_ok (ins_entry k hi v h xs).
Proof.
  intros Hhi. induction 1 as [|[k' g] xs [Hne Hf] Hall IH]; cbn.
  - repeat constructor; cbn; done || lia.
  - destruct (decide (k = k')) as [<- | Hne']; [| destruct (decide (key_lt k k'))]; repeat constructor; try done.
    + cbn. intros [_ ?]%app_nil. done.
    + cbn in *. apply Forall_app. split; [done |]. repeat constructor; cbn; lia.
Qed.

Lemma ins_entry_locs k hi v h xs :
  locs (ins_entry k hi v h xs) = locs xs ∨ locs (ins_entry k hi v h xs) ≡ₚ h :: locs xs.
Proof.
  unfold locs. induction xs as [|[k' g] xs IH]; cbn; [by right |].
  destruct (decide (k = k')); [by left |]. destruct (decide (key_lt k k')); [by right |]. cbn.
  destruct IH as [-> | Hp]; [by left | right]. rewrite Hp. constructor.
Qed.

Lemma entries_inv_ins k hi v next xs : k_pos k < hi → entries_inv next xs →
  entries_inv (Pos.succ next) (ins_entry k hi v next xs).
Proof.
  intros Hhi [H1 H2 H3 H4]. rewrite Forall_forall in H4.
  split; [by apply ins_entry_sorted | by apply ins_entry_ok | |].
  - destruct (ins_entry_locs k hi v next xs) as [-> | ->]; [done |]. constructor; [| done].
    intros Hin%H4. cbn in Hin. lia.
  - apply Forall_forall. intros h Hh. destruct (ins_entry_locs k hi v next xs) as [Heq | Heq]; rewrite Heq in Hh.
    + apply H4 in Hh. cbn in *. lia.
    + apply elem_of_cons in Hh as [-> | Hh%H4]; cbn in *; lia.
Qed.

(** ** The calls *)

Lemma itree_new_inv : Inv (@itree_new V).
Proof. repeat constructor; apply NoDup_nil_2. Qed.

Lemma itree_add_spec t id lo hi v : Inv t → lo < hi →
  ∃ t', itree_add t id lo hi v = Ok (t', handle_of (mk_key lo id) (next_loc t) (contents t)) ∧
    Inv t' ∧ contents t' = ins_entry (mk_key lo id) hi v (next_loc t) (contents t) ∧
    next_loc t' = Pos.succ (next_loc t).
Proof.
  intros [Hlog Hst Hl Ha He] Hlt. unfold itree_add.
  destruct (iv_add_spec (shifts t) (t_tstamp t) Hlog Hst (root t) (mk_key lo id) hi v (next_loc t))
    as (n' & -> & [Hg _] & Ha' & Hv); [done | done | apply He | cbn; lia |].
  cbn_res. eexists. split; [done |]. set (t' := mk_tree _ _ _ _).
  assert (contents t' = ins_entry (mk_key lo id) hi v (next_loc t) (contents t)) as Hc by done.
  split_and!; try done. split; try done. rewrite Hc. by apply entries_inv_ins.
Qed.

Definition a_find (k : iv_key) xs : option V :=
  match lookup_entry k xs with
  | Some (mk_ivals (i :: g) _) => Some (value (longest i g))
  | _ => None
  end.

(** [longest] is the first interval of maximal length. *)
Lemma longest_spec (i : iv_ins V) g : longest i g ∈ i :: g ∧
  Forall (λ j, high j - low j <= high (longest i g) - low (longest i g)) (i :: g).
Proof.
  revert i. induction g as [|j g IH]; intros i; [split; [set_solver | apply Forall_singleton; cbn; lia] |].
  unfold longest in *. cbn [fold_left]. rewrite !Forall_cons. case_zb.
  - destruct (IH j) as [Hin Hf]. rewrite Forall_cons in Hf. split; [set_solver |].
    split_and!; try apply Hf. lia.
  - destruct (IH i) as [Hin Hf]. rewrite Forall_cons in Hf. split; [set_solver |].
    split_and!; try apply Hf. lia.
Qed.

(** A tree that only absorbed shifts. *)
Lemma Inv_same t n : Inv t → linv (shifts t) (t_tstamp t) n → avl n → view (shifts t) n = contents t →
  let t' := mk_tree n (shifts t) (t_tstamp t) (next_loc t) in Inv t' ∧ contents t' = contents t.
Proof.
  intros [Hlog Hst Hl Ha He] Hn Han Hv t'. split; [| done]. split; try done.
  by replace (contents t') with (contents t).
Qed.

Lemma itree_find_largest_spec t id pos : Inv t →
  ∃ t', itree_find_largest t id pos = (t', a_find (mk_key pos id) (contents t)) ∧
    Inv t' ∧ contents t' = contents t ∧ next_loc t' = next_loc t.
Proof.
  intros Hi. pose proof Hi as [Hlog Hst Hl Ha He]. unfold itree_find_largest.
  pose proof (iv_search_spec (shifts t) (t_tstamp t) Hlog Hst (root t) (mk_key pos id) Hl (ei_sorted _ _ He)) as H.
  destruct (iv_search _ _ _) as [n g]. destruct H as (-> & Hn & Hv & Hh & Han).
  eexists. split; [done |]. destruct (Inv_same t n) as [? ?]; auto.
Qed.

(** An edit splits every group in what stays and what is evicted. *)
Lemma cut_ins_split lo hi xs : (xs ≫= λ x, ins x.2) ≡ₚ (cut_view lo hi xs ≫= λ x, ins x.2) ++ (ev_ins <$> cut_evs lo hi xs).
Proof.
  induction xs as [|x xs IH]; [done |].
  rewrite cut_view_cons, cut_evs_cons, bind_app, fmap_app. cbn. rewrite IH.
  unfold cut. pose proof (drop_overlaps_spec lo hi (length (ins x.2)) 0 (ins x.2) ltac:(lia)) as H.
  destruct (drop_overlaps _ _ _ _ _) as [g o]. destruct H as (Hp & _ & _ & _); [by rewrite take_0 |].
  assert (ev_ins <$> (mk_eviction (k_pos x.1) <$> o) = o) as Ho.
  { rewrite <- list_fmap_compose. apply list_fmap_id. }
  cbn [fst snd]. rewrite Ho, <- Hp. destruct g as [|i g]; cbn; [| rewrite app_nil_r]; solve_Permutation.
Qed.

Lemma cut_evs_elem lo hi xs w : w ∈ cut_evs lo hi xs → ∃ x, x ∈ xs ∧ ev_ins w ∈ ins x.2 ∧ ev_pos w = k_pos x.1.
Proof.
  intros (x & He & Hx)%list_elem_of_bind. exists x. split; [done |]. unfold cut in He.
  pose proof (drop_overlaps_spec lo hi (length (ins x.2)) 0 (ins x.2) ltac:(lia)) as H.
  destruct (drop_overlaps _ _ _ _ _) as [g o]. destruct H as (Hp & _); [by rewrite take_0 |].
  cbn in He. apply list_elem_of_fmap in He as (i & -> & Hin). cbn. split; [| done]. rewrite <- Hp. set_solver.
Qed.

Definition a_edit (lo hi amt : Z) xs : list entry := shift_all (mk_shift lo amt 0) (cut_view lo hi xs).

Lemma shift_all_stamp i a ts ts' xs : shift_all (mk_shift i a ts) xs = shift_all (mk_shift i a ts') xs.
Proof. done. Qed.

Lemma shift_all_zero i ts xs : shift_all (mk_shift i 0 ts) xs = xs.
Proof.
  apply list_eq. intros j. rewrite list_lookup_fmap. destruct (xs !! j) as [[[p k] [g h]]|]; [| done]. cbn.
  unfold shift_entry. case_zb; [| done]. cbn. rewrite Z.add_0_r. unfold iv_group_shift. cbn. do 4 f_equal.
  induction g as [|[a b w] g IH]; [done |]. cbn. by rewrite !Z.add_0_r, IH.
Qed.

(** Evicting: the state between the removal and the recording of the shift. *)
Lemma itree_evict_spec t lo hi : Inv t →
  ∃ n, iv_remove_overlaps (S (iv_nnodes (root t))) (shifts t) (root t) lo hi =
      Ok (n, cut_evs lo hi (contents t)) ∧
    let t' := mk_tree n (shifts t) (t_tstamp t) (next_loc t) in
    Inv t' ∧ contents t' = cut_view lo hi (contents t).
Proof.
  intros [Hlog Hst Hl Ha He].
  destruct (iv_remove_overlaps_spec (shifts t) (t_tstamp t) Hlog Hst lo hi (S (iv_nnodes (root t))) (root t))
    as (n & -> & [Hg _] & Han & Hv); [done | done | apply He | apply He | lia |].
  exists n. split; [done |]. cbn zeta.
  set (t' := mk_tree _ _ _ _). assert (contents t' = cut_view lo hi (contents t)) as Hc by done.
  split; [| done]. split; try done. rewrite Hc. by apply entries_inv_cut.
Qed.

Lemma itree_edit_spec t lo hi amt : Inv t → 0 <= amt →
  ∃ t', itree_remove_and_shift_cb t lo hi amt = Ok (t', cut_evs lo hi (contents t)) ∧
    Inv t' ∧ contents t' = a_edit lo hi amt (contents t) ∧ next_loc t' = next_loc t.
Proof.
  intros Hi Hamt. unfold itree_remove_and_shift_cb.
  destruct (itree_evict_spec t lo hi Hi) as (n & -> & Hi1 & Hc). cbn_res. eexists. split; [done |].
  set (t1 := mk_tree n _ _ _) in *. unfold iv_record_shift, a_edit. rewrite <- Hc.
  destruct (Z.eqb_spec amt 0) as [-> | Hne]; [by rewrite shift_all_zero |].
  destruct Hi1 as [Hlog Hst Hl Ha He]. set (s := mk_shift lo amt (t_tstamp t1 + 1)).
  set (t2 := mk_tree _ _ _ _).
  assert (contents t2 = shift_all s (contents t1)) as Hc2.
  { apply (view_snoc _ _ (t_tstamp t1)); [apply Hlog | done.. | cbn; lia]. }
  split_and!; [| rewrite Hc2; apply shift_all_stamp | done]. split.
  - destruct Hlog as [Hs Hn]. split; [eapply sorted_snoc; try done; cbn; lia |]. apply Forall_app.
    split; [done | by repeat constructor].
  - cbn. apply Forall_app. split; [| by repeat constructor]. eapply Forall_impl; [done |]. cbn. lia.
  - by apply linv_snoc.
  - done.
  - rewrite Hc2. apply entries_inv_shift; [| done]. apply Forall_forall. intros x _. cbn. lia.
Qed.

(** Draining the log, from any state whose nodes absorb correctly. *)
Lemma itree_drain t xs : StronglySorted stamp_lt (shifts t) → Forall (λ s, s_tstamp s <= t_tstamp t) (shifts t) →
  absorbs (shifts t) (root t) → Forall (λ d, n_tstamp d <= t_tstamp t) (nodes (root t)) → avl (root t) →
  shifts t ≠ [] → contents t = xs → entries_inv (next_loc t) xs →
  Inv (itree_apply_all_shifts t) ∧ contents (itree_apply_all_shifts t) = xs.
Proof.
  intros Hs Hst Hab Hts Ha Hne <- He.
  destruct (apply_all_spec (shifts t) (t_tstamp t) (root t)) as (Hv & Hl & _ & Ha'); [done.. | apply He |].
  assert (contents (itree_apply_all_shifts t) = contents t) as Hc by done.
  split; [| done]. split; [by repeat constructor | by constructor | done | by apply Ha' | by rewrite Hc].
Qed.

Lemma itree_apply_all_spec t : Inv t →
  Inv (itree_apply_all_shifts t) ∧ contents (itree_apply_all_shifts t) = contents t ∧
  shifts (itree_apply_all_shifts t) = [] ∧ next_loc (itree_apply_all_shifts t) = next_loc t.
Proof.
  intros [Hlog Hst Hl Ha He]. destruct (decide (shifts t = [])) as [Hnil | Hne].
  - assert (itree_apply_all_shifts t = t) as ->.
    { unfold itree_apply_all_shifts. rewrite Hnil, apply_all_nil. destruct t. cbn in *. by subst. }
    done.
  - destruct (itree_drain t (contents t)) as [? ?]; eauto using linv_tstamps, absorbs_linv; apply Hlog.
Qed.

(** What survives a cut and starts at or after its low end starts at or after
    its high end. *)
Lemma cut_gap lo hi xs : Forall entry_ok xs →
  Forall (λ x, lo <= k_pos x.1 → hi <= k_pos x.1) (cut_view lo hi xs).
Proof.
  intros Hok%(cut_view_ok lo hi). pose proof (cut_view_is_clear lo hi xs) as Hc.
  rewrite Forall_forall in *. intros x Hx Hlo. destruct (Hok _ Hx) as [Hne Hf], (Hc _ Hx) as [_ Hcl].
  destruct (ins x.2) as [|i g]; [done |]. apply Forall_cons in Hf as [Hi _], Hcl as [Hi' _].
  unfold clear, iv_overlaps in Hi'. cbn in *. lia.
Qed.

(** An edit that may shrink the text, followed by draining the log. *)
Lemma itree_edit_drain_spec t lo hi amt : Inv t → lo <= hi → lo - hi <= amt →
  ∃ t', itree_remove_and_shift_cb t lo hi amt = Ok (t', cut_evs lo hi (contents t)) ∧
    Inv (itree_apply_all_shifts t') ∧ contents (itree_apply_all_shifts t') = a_edit lo hi amt (contents t) ∧
    next_loc t' = next_loc t.
Proof.
  intros Hi Hlh Hamt. unfold itree_remove_and_shift_cb.
  destruct (itree_evict_spec t lo hi Hi) as (n & -> & Hi1 & Hc). cbn_res. eexists. split; [done |].
  set (t1 := mk_tree n _ _ _) in *. unfold iv_record_shift, a_edit. rewrite <- Hc.
  destruct (Z.eqb_spec amt 0) as [-> | Hne].
  { rewrite shift_all_zero. destruct (itree_apply_all_spec t1 Hi1) as (? & ? & _). done. }
  pose proof (ei_ok _ _ (inv_entries _ Hi)) as Hok. destruct Hi1 as [Hlog Hst Hl Ha He].
  set (s := mk_shift lo amt (t_tstamp t1 + 1)). set (t2 := mk_tree _ _ _ _).
  rewrite (shift_all_stamp lo amt 0 (t_tstamp t1 + 1)). fold s.
  destruct (itree_drain t2 (shift_all s (contents t1))) as [Hi2 Hc2]; try done.
  - apply (sorted_snoc _ _ (t_tstamp t1)); [apply Hlog | done | cbn; lia].
  - cbn. apply Forall_app. split; [| by repeat constructor]. eapply Forall_impl; [done |]. cbn. lia.
  - apply (absorbs_snoc _ _ (t_tstamp t1)); [done.. | cbn; lia].
  - eapply Forall_impl; [by eapply linv_tstamps |]. cbn. lia.
  - by intros [_ ?]%app_nil.
  - apply (view_snoc _ _ (t_tstamp t1)); [apply Hlog | done.. | cbn; lia].
  - apply entries_inv_shift; [| done]. rewrite Hc. eapply Forall_impl; [by apply cut_gap |].
    cbn. lia.
Qed.

(** *** Positions of groups *)

Definition lookup_loc (h : positive) xs : option Z := k_pos ∘ fst <$> head (filter (λ x, loc x.2 = h) xs).

Lemma cur_loc log d : loc (cur log d).2 = loc (n_iv d).
Proof.
  unfold cur. generalize (iv_pending log (n_tstamp d)) as p. intros p.
  change (loc (n_iv d)) with (loc (n_key d, n_iv d).2). generalize (n_key d, n_iv d) as x.
  induction p as [|s p IH]; intros x; [done |]. cbn [fold_left]. by rewrite IH, shift_entry_loc.
Qed.

Lemma lookup_loc_app h xs ys : lookup_loc h (xs ++ ys) =
  match lookup_loc h xs with Some p => Some p | None => lookup_loc h ys end.
Proof. unfold lookup_loc. rewrite filter_app. by destruct (filter _ xs). Qed.

Lemma lookup_loc_None h xs : h ∉ locs xs → lookup_loc h xs = None.
Proof.
  intros Hn. unfold lookup_loc. induction xs as [|x xs IH]; [done |]. cbn in Hn.
  rewrite filter_cons_False by set_solver. apply IH. set_solver.
Qed.

Lemma iv_loc_pos_spec log T n h : log_ok log → Forall (λ s, s_tstamp s <= T) log → linv log T n →
  NoDup (locs (view log n)) →
  let '(n', o) := iv_loc_pos log n h in
  o = lookup_loc h (view log n) ∧ linv log T n' ∧ view log n' = view log n ∧
  iv_height n' = iv_height n ∧ (avl n → avl n').
Proof.
  intros Hlog HT. induction n as [|d l IHl r IHr]; [done |]. intros Hn Hnd. cbn [iv_loc_pos].
  rewrite view_Node in Hnd |- *. unfold locs in Hnd. rewrite fmap_app, fmap_cons, cur_loc in Hnd. cbn in Hnd.
  fold (locs (view log l)) in Hnd. fold (locs (view log r)) in Hnd.
  rewrite lookup_loc_app. pose proof Hnd as Hnd0.
  apply NoDup_app in Hnd as (Hndl & Hdisj & Hndr). apply NoDup_cons in Hndr as [Hnr Hndr].
  case_bool_decide as Hh.
  - destruct (visit log T Hlog HT _ _ _ Hn) as ([Hg Hc] & Hv1 & _ & Hhd).
    rewrite (lookup_loc_None h (view log l)) by (intros Hin; apply (Hdisj _ Hin); rewrite Hh; set_solver).
    destruct (apply_shifts_spec log T Hlog HT d l r) as (_ & _ & Hcur & _); [apply Hn.. |].
    rewrite <- view_Node. split_and!; try done; [| cbn; by rewrite Hhd].
    unfold lookup_loc. rewrite filter_cons_True by by rewrite cur_loc. cbn. by rewrite <- Hcur.
  - destruct Hn as (Ht & Hk & Hb & Hl & Hr). specialize (IHl Hl Hndl). specialize (IHr Hr Hndr).
    destruct (iv_loc_pos log l h) as [l' ol]. destruct IHl as (-> & Hl' & Hvl & Hhl & Hal).
    destruct (lookup_loc h (view log l)) as [p|].
    + split_and!; try done; cbn [linv]; rewrite ?view_Node, ?Hvl, <- ?view_Node; try done.
      cbn [avl]. rewrite Hhl. tauto.
    + destruct (iv_loc_pos log r h) as [r' or]. destruct IHr as (-> & Hr' & Hvr & Hhr & Har).
      split_and!; try done; cbn [linv]; rewrite ?view_Node, ?Hvr, <- ?view_Node; try done.
      * unfold lookup_loc at 2. by rewrite filter_cons_False by by rewrite cur_loc.
      * cbn [avl]. rewrite Hhr. tauto.
Qed.

Lemma itree_loc_pos_spec t h p : Inv t → lookup_loc h (contents t) = Some p →
  ∃ t', itree_loc_pos t h = Ok (t', p) ∧ Inv t' ∧ contents t' = contents t ∧ next_loc t' = next_loc t.
Proof.
  intros Hi Hp. pose proof Hi as [Hlog Hst Hl Ha He]. unfold itree_loc_pos.
  pose proof (iv_loc_pos_spec (shifts t) (t_tstamp t) (root t) h Hlog Hst Hl (ei_nodup _ _ He)) as H.
  destruct (iv_loc_pos _ _ _) as [n o]. destruct H as (-> & Hn & Hv & Hh & Han).
  fold (contents t). rewrite Hp. cbn_res. eexists. split; [done |].
  destruct (Inv_same t n) as [? ?]; auto.
Qed.

(** *** Traversals *)

(** One callback per interval, in key order. *)
Definition calls_of xs : list (eviction V) := xs ≫= (λ x, mk_eviction (k_pos x.1) <$> ins x.2).

Lemma iv_each_spec log T n : log_ok log → Forall (λ s, s_tstamp s <= T) log → linv log T n →
  let '(n', calls) := iv_each log n in
  calls = calls_of (view log n) ∧ linv log T n' ∧ view log n' = view log n ∧
  iv_height n' = iv_height n ∧ (avl n → avl n').
Proof.
  intros Hlog HT. induction n as [|d l IHl r IHr]; [done |]. intros Hn. cbn [iv_each].
  pose proof Hn as (Ht & Hk & Hb & Hl & Hr). specialize (IHl Hl). specialize (IHr Hr).
  destruct (iv_each log l) as [l' c1], (iv_each log r) as [r' c2].
  destruct IHl as (-> & Hl' & Hvl & Hhl & Hal), IHr as (-> & Hr' & Hvr & Hhr & Har).
  assert (linv log T (Node d l' r')) as Hn'.
  { cbn [linv]. rewrite view_Node, Hvl, Hvr, <- view_Node. done. }
  assert (linv log T (Node d l' r)) as Hn1.
  { cbn [linv]. rewrite view_Node, Hvl, <- view_Node. done. }
  destruct (apply_shifts_spec log T Hlog HT d l' r) as (H1 & H2 & H3 & H4 & H5 & H6); [done.. |].
  set (d' := iv_apply_shifts log d l' r) in *.
  assert (cur log d' = cur log d) as Hcur by by rewrite current_cur.
  split_and!.
  - unfold calls_of. rewrite view_Node, bind_app. cbn. rewrite <- H3. done.
  - cbn [linv]. rewrite view_Node, Hvl, Hvr, Hcur, current_cur_max, <- view_Node by done.
    split_and!; try done. by apply (Forall_below_le (cur_max log d)).
  - by rewrite !view_Node, Hvl, Hvr, Hcur.
  - done.
  - cbn [avl]. rewrite H5, Hhl, Hhr. tauto.
Qed.

Lemma itree_each_spec t : Inv t →
  ∃ t', itree_each t = (t', calls_of (contents t)) ∧
    Inv t' ∧ contents t' = contents t ∧ next_loc t' = next_loc t.
Proof.
  intros Hi. pose proof Hi as [Hlog Hst Hl Ha He]. unfold itree_each.
  pose proof (iv_each_spec (shifts t) (t_tstamp t) (root t) Hlog Hst Hl) as H.
  destruct (iv_each _ _) as [n c]. destruct H as (-> & Hn & Hv & Hh & Han).
  eexists. split; [done |]. destruct (Inv_same t n) as [? ?]; auto.
Qed.

Lemma cur_size log d : length (ins (cur log d).2) = length (ins (n_iv d)).
Proof.
  unfold cur. generalize (iv_pending log (n_tstamp d)) as p. intros p.
  change (n_iv d) with (n_key d, n_iv d).2 at 2. generalize (n_key d, n_iv d) as x.
  induction p as [|s p IH]; intros x; [done |]. cbn [fold_left]. rewrite IH.
  unfold shift_entry. case_zb; [| done]. cbn. by rewrite length_fmap.
Qed.

Lemma itree_size_spec t : itree_size t = Z.of_nat (length (contents t ≫= (λ x, ins x.2))).
Proof.
  unfold itree_size, contents. induction (root t) as [|d l IHl r IHr]; [done |].
  rewrite view_Node, bind_app, length_app. cbn. rewrite length_app, cur_size, IHl, IHr. lia.
Qed.

(** ** Simulation *)

Inductive op :=
| OAdd (id lo hi : Z) (v : V)
| OFind (id pos : Z)
| OEdit (lo hi amt : Z)          (* [itree_remove_and_shift_cb] *)
| OEditDrain (lo hi amt : Z)     (* the same, then [itree_apply_all_shifts] *)
| OPos (h : positive)            (* [itree_loc_pos] of a live handle *)
| OEach
| OSize.

Inductive out :=
| RHandle (h : positive) | RFound (o : option V) | REvict (ev : list (eviction V)) | RPos (p : Z)
| REach (calls : list (eviction V)) | RSize (z : Z).

Definition step t (o : op) : res (itree V * out) :=
  match o with
  | OAdd id lo hi v => '(t, h) ← itree_add t id lo hi v; mret (t, RHandle h)
  | OFind id pos => let '(t, r) := itree_find_largest t id pos in mret (t, RFound r)
  | OEdit lo hi amt => '(t, ev) ← itree_remove_and_shift_cb t lo hi amt; mret (t, REvict ev)
  | OEditDrain lo hi amt =>
      '(t, ev) ← itree_remove_and_shift_cb t lo hi amt; mret (itree_apply_all_shifts t, REvict ev)
  | OPos h => '(t, p) ← itree_loc_pos t h; mret (t, RPos p)
  | OEach => let '(t, c) := itree_each t in mret (t, REach c)
  | OSize => mret (t, RSize (itree_size t))
  end.

Record astate := mk_astate { a_entries : list entry; a_next : positive }.

(** The specification: no tree, no log, no bounds, no laziness. *)
Definition astep (a : astate) (o : op) : res (astate * out) :=
  let xs := a_entries a in
  match o with
  | OAdd id lo hi v => mret (mk_astate (ins_entry (mk_key lo id) hi v (a_next a) xs) (Pos.succ (a_next a)),
                             RHandle (handle_of (mk_key lo id) (a_next a) xs))
  | OFind id pos => mret (a, RFound (a_find (mk_key pos id) xs))
  | OEdit lo hi amt | OEditDrain lo hi amt =>
      mret (mk_astate (a_edit lo hi amt xs) (a_next a), REvict (cut_evs lo hi xs))
  | OPos h => p ← must (lookup_loc h xs); mret (a, RPos p)
  | OEach => mret (a, REach (calls_of xs))
  | OSize => mret (a, RSize (Z.of_nat (length (xs ≫= (λ x, ins x.2)))))
  end.

(** Intervals have positive length; a shrinking edit is followed by a drain. *)
Definition op_ok (o : op) : Prop :=
  match o with
  | OAdd _ lo hi _ => lo < hi
  | OEdit _ _ amt => 0 <= amt
  | OEditDrain lo hi amt => lo <= hi ∧ lo - hi <= amt
  | _ => True
  end.

Fixpoint run t (ops : list op) : res (itree V * list out) :=
  match ops with
  | [] => mret (t, [])
  | o :: ops => '(t, r) ← step t o; '(t, rs) ← run t ops; mret (t, r :: rs)
  end.

Fixpoint arun (a : astate) (ops : list op) : res (astate * list out) :=
  match ops with
  | [] => mret (a, [])
  | o :: ops => '(a, r) ← astep a o; '(a, rs) ← arun a ops; mret (a, r :: rs)
  end.

Definition refines t (a : astate) : Prop := Inv t ∧ contents t = a_entries a ∧ next_loc t = a_next a.

Lemma step_refines t a o a' (r : out) : refines t a → op_ok o → astep a o = Ok (a', r) →
  ∃ t', step t o = Ok (t', r) ∧ refines t' a'.
Proof.
  intros (Hi & Hc & Hnl) Hok Ha. unfold refines.
  destruct o as [id lo hi v | id pos | lo hi amt | lo hi amt | h | |]; cbn [astep step op_ok] in *;
    rewrite <- ?Hc, <- ?Hnl in Ha.
  - destruct (itree_add_spec t id lo hi v Hi Hok) as (t' & -> & Hi' & Hc' & Hn'). injection Ha as <- <-.
    exists t'. by rewrite Hn'.
  - destruct (itree_find_largest_spec t id pos Hi) as (t' & -> & Hi' & Hc' & Hn'). injection Ha as <- <-.
    exists t'. by rewrite Hc', Hn'.
  - destruct (itree_edit_spec t lo hi amt Hi Hok) as (t' & -> & Hi' & Hc' & Hn'). injection Ha as <- <-.
    exists t'. by rewrite Hn'.
  - destruct Hok as [H1 H2]. destruct (itree_edit_drain_spec t lo hi amt Hi H1 H2) as (t' & -> & Hi' & Hc' & Hn').
    injection Ha as <- <-. exists (itree_apply_all_shifts t'). cbn. by rewrite Hn'.
  - destruct (lookup_loc h (contents t)) as [p|] eqn:Hp; [| done]. injection Ha as <- <-.
    destruct (itree_loc_pos_spec t h p Hi Hp) as (t' & -> & Hi' & Hc' & Hn'). exists t'. by rewrite Hc', Hn'.
  - destruct (itree_each_spec t Hi) as (t' & -> & Hi' & Hc' & Hn'). injection Ha as <- <-.
    exists t'. by rewrite Hc', Hn'.
  - injection Ha as <- <-. exists t. by rewrite itree_size_spec.
Qed.

Lemma run_refines ops t a a' rs : refines t a → Forall op_ok ops → arun a ops = Ok (a', rs) →
  ∃ t', run t ops = Ok (t', rs) ∧ refines t' a'.
Proof.
  revert t a rs. induction ops as [|o ops IH]; intros t a rs Hr Hok Ha.
  { injection Ha as <- <-. by exists t. }
  apply Forall_cons in Hok as [Ho Hok]. cbn [arun] in Ha. inv_bind. destruct x as [a1 r1]. inv_bind.
  destruct x as [a2 rs2]. injection Ha as <- <-.
  destruct (step_refines t a o a1 r1) as (t1 & Hs & Hr1); [done.. |].
  destruct (IH t1 a1 rs2) as (t2 & Hs2 & Hr2); [done.. |].
  exists t2. cbn [run]. by rewrite Hs; cbn; rewrite Hs2.
Qed.

End Spec.
Arguments op V : clear implicits.
Arguments out V : clear implicits.
Arguments astate V : clear implicits.
