(* ===== verification/ITreeThms.v ===== *)
(** * ITreeThms: the theorems of the interval tree *)
From stdpp Require Import sorting.
From S2P Require Import Prelude ITree ITreeLazy ITreeAvl ITreeOps ITreeDel ITreeSpec.

Section Thms.
Context {V : Type}.
Implicit Types (d e : iv_data V) (n l r : iv_node V) (t : itree V).


(** C15. Rebalancing terminates within the height difference and repairs any
    imbalance at the root: on a node whose children are AVL trees (of any two
    heights) and whose bounds are lazily correct, [iv_rebalance] returns an AVL
    tree with the same entries, at most one higher than the higher child, and
    still lazily correct. *)
Theorem iv_rebalance_spec (log : list iv_shift) (T : Z) d l r :
  log_ok log → Forall (λ s, s_tstamp s <= T) log → rinv log T d l r → avl l → avl r →
  ∃ n, iv_rebalance log (Node d l r) = Ok n ∧ avl n ∧ linv log T n ∧ view log n = view log (Node d l r) ∧
    Z.max (iv_height l) (iv_height r) <= iv_height n <= 1 + Z.max (iv_height l) (iv_height r).
Proof.
  intros Hlog HT Hri Hl Hr. destruct (rebalance_ok_root log T Hlog HT d l r Hri Hl Hr) as (n & -> & [[Hg _] Hv Ha] & Hh & _).
  by exists n.
Qed.

(** C16. An edit of a tree in its invariant evicts exactly the intervals that
    overlap the edited range, in key order and with their position before the
    shift, keeps all others, and moves the groups at or after the edit by its
    amount.  The edit does not shrink the text, or it shrinks it by no more than
    the range it replaces and the log is drained afterwards, as [op_ok] asks of
    the calls; the tree is then in its invariant again. *)
Theorem itree_edit_exact t lo hi amt : Inv t → 0 <= amt ∨ lo <= hi ∧ lo - hi <= amt →
  ∃ t' ev, itree_remove_and_shift_cb t lo hi amt = Ok (t', ev) ∧
    Forall (λ w, iv_overlaps (ev_ins w) lo hi = true ∧ low (ev_ins w) = ev_pos w) ev ∧
    (contents t ≫= λ x, ins x.2) ≡ₚ (cut_view lo hi (contents t) ≫= λ x, ins x.2) ++ (ev_ins <$> ev) ∧
    Forall (λ x, Forall (λ i, iv_overlaps i lo hi = false) (ins x.2)) (cut_view lo hi (contents t)) ∧
    let t1 := if 0 <=? amt then t' else itree_apply_all_shifts t' in
    Inv t1 ∧ contents t1 = (λ x, shift_entry x (mk_shift lo amt 0)) <$> cut_view lo hi (contents t).
Proof.
  intros Hi Ha. assert (∃ t', itree_remove_and_shift_cb t lo hi amt = Ok (t', cut_evs lo hi (contents t)) ∧
    let t1 := if 0 <=? amt then t' else itree_apply_all_shifts t' in Inv t1 ∧ contents t1 = a_edit lo hi amt (contents t)) as (t' & -> & Hi' & Hc).
  { destruct (Z.leb_spec 0 amt) as [H0 | H0].
    - destruct (itree_edit_spec t lo hi amt Hi H0) as (t' & -> & Hi' & Hc & _). by exists t'.
    - destruct Ha as [? | [H1 H2]]; [lia |]. destruct (itree_edit_drain_spec t lo hi amt Hi H1 H2) as (t' & -> & Hi' & Hc & _). by exists t'. }
  exists t', (cut_evs lo hi (contents t)). split; [done |]. split; [| split; [| split; [| exact (conj Hi' Hc)]]].
  - pose proof (ei_ok _ _ (inv_entries _ Hi)) as Hok. apply Forall_forall. intros w He.
    apply list_elem_of_bind in He as (x & He & Hx). rewrite Forall_forall in Hok. destruct (Hok x Hx) as [_ Hf].
    unfold cut in He. pose proof (drop_overlaps_spec lo hi (length (ins x.2)) 0 (ins x.2) ltac:(lia)) as H.
    destruct (drop_overlaps _ _ _ _ _) as [g o]. destruct H as (Hp & _ & Ho & _); [by rewrite take_0 |].
    cbn in He. apply list_elem_of_fmap in He as (i & -> & Hin). cbn. rewrite Forall_forall in Ho, Hf.
    split; [by apply Ho |]. apply Hf. rewrite <- Hp. set_solver.
  - apply cut_ins_split.
  - eapply Forall_impl; [apply cut_view_is_clear |]. by intros x [_ ?].
Qed.

(** C29. Draining is invisible in a tree in its invariant, as the calls of [op_ok]
    leave it -- the log has only shifts that do not shrink:
    [itree_apply_all_shifts] empties the log, keeps the invariant and leaves the
    contents as they were.  Not so with shrinking shifts pending, which
    [itree_edit_exact] drains at once. *)
Theorem itree_apply_all_same t : Inv t →
  Inv (itree_apply_all_shifts t) ∧ shifts (itree_apply_all_shifts t) = [] ∧
  contents (itree_apply_all_shifts t) = contents t.
Proof. intros Hi. destruct (itree_apply_all_spec t Hi) as (? & ? & ? & _). done. Qed.

(** An AVL tree of height [h] has at least [2 ^ (h / 2) - 1] nodes. *)
Lemma avl_nnodes n : avl n → 2 ^ (iv_height n / 2) <= Z.of_nat (iv_nnodes n) + 1.
Proof.
  assert (∀ k : nat, ∀ n, avl n → iv_height n <= Z.of_nat k → 2 ^ (iv_height n / 2) <= Z.of_nat (iv_nnodes n) + 1) as H.
  { induction k as [|k IH]; intros m Ha Hk.
    - pose proof (avl_height_nonneg m Ha). replace (iv_height m) with 0 by lia. change (2 ^ (0 / 2)) with 1. lia.
    - destruct m as [|d l r]; [change (2 ^ (0 / 2) <= 0 + 1); change (2 ^ (0 / 2)) with 1; lia |]. destruct Ha as (Hh & Hb & Hl & Hr). cbn [iv_height iv_nnodes] in *.
      pose proof (avl_height_nonneg l Hl). pose proof (avl_height_nonneg r Hr).
      pose proof (IH l Hl ltac:(lia)) as H1. pose proof (IH r Hr ltac:(lia)) as H2.
      destruct (Z.eq_dec (n_height d) 1) as [-> | Hne]; [change (2 ^ (1 / 2)) with 1; lia |].
      assert (2 ^ (n_height d / 2) = 2 * 2 ^ ((n_height d - 2) / 2)) as ->.
      { rewrite <- Z.pow_succ_r by (apply Z.div_pos; lia). f_equal. rewrite <- Z.add_1_r, <- Z.div_add by lia. f_equal. lia. }
      assert (2 ^ ((n_height d - 2) / 2) <= 2 ^ (iv_height l / 2)) by (apply Z.pow_le_mono_r, Z.div_le_mono; lia).
      assert (2 ^ ((n_height d - 2) / 2) <= 2 ^ (iv_height r / 2)) by (apply Z.pow_le_mono_r, Z.div_le_mono; lia).
      lia. }
  intros Ha. pose proof (avl_height_nonneg n Ha). apply (H (Z.to_nat (iv_height n))); [done | lia].
Qed.

(** C17. The tree's invariant holds between the calls of any sequence on a fresh
    tree that keeps to [op_ok] (insertions of intervals of positive length, edits
    that do not shrink or are drained right away) and asks for live handles only:
    the shift log is in time order, the tree is AVL, its groups are strictly
    sorted by current key, non-empty, aligned with their key and have distinct
    handles, every lazy bound covers what is below it, and the height -- so the
    depth of every recursion over it -- is logarithmic in the number of groups. *)
Theorem itree_stays_balanced (ops : list (op V)) (a' : astate V) (rs : list (out V)) :
  Forall op_ok ops → arun (mk_astate [] 1) ops = Ok (a', rs) →
  ∃ t', run itree_new ops = Ok (t', rs) ∧ log_ok (shifts t') ∧ avl (root t') ∧
    linv (shifts t') (t_tstamp t') (root t') ∧ entries_inv (next_loc t') (contents t') ∧
    iv_height (root t') <= 2 * Z.log2 (Z.of_nat (iv_nnodes (root t')) + 1) + 1.
Proof.
  intros Hok Ha. destruct (run_refines ops itree_new (mk_astate [] 1) a' rs) as (t' & Ht & Hi & _); [| done.. |].
  { split; [apply itree_new_inv | done]. }
  exists t'. split; [done |]. destruct Hi as [Hlog _ Hlazy Havl Hent]. split_and!; try done.
  pose proof (avl_nnodes _ Havl) as Hn. pose proof (avl_height_nonneg _ Havl).
  apply Z.log2_le_mono in Hn. rewrite Z.log2_pow2 in Hn by (apply Z.div_pos; lia).
  pose proof (Z.div_mod (iv_height (root t')) 2 ltac:(lia)). pose proof (Z.mod_pos_bound (iv_height (root t')) 2 ltac:(lia)). lia.
Qed.

(** *** The structural checker *)

Definition in_range (lo hi : option iv_key) (k : iv_key) : Prop :=
  match lo with Some b => key_lt b k | None => True end ∧ match hi with Some b => key_lt k b | None => True end.

Record verified n (lo hi : option iv_key) : Prop := {
  vf_avl : avl n;
  vf_range : Forall (λ x, in_range lo hi x.1) (view [] n);
  vf_sorted : StronglySorted entry_lt (view [] n);
  vf_groups : Forall (λ x, ins x.2 ≠ [] ∧ Forall (λ i, low i = k_pos x.1 ∧ low i <= high i) (ins x.2)) (view [] n);
  vf_bound : match n with Nil => True | Node d _ _ => Forall (λ x, Forall (λ i, high i <= n_max d) (ins x.2)) (view [] n) end;
}.

Lemma exact_bound d l r m :
  (let exact := iv_group_high (n_iv d) in
   let exact := match l with Node e _ _ => iv_max exact (n_max e) | Nil => exact end in
   match r with Node e _ _ => iv_max exact (n_max e) | Nil => exact end) <= m →
  iv_group_high (n_iv d) <= m ∧ max_le m l ∧ max_le m r.
Proof. destruct l, r; cbn; rewrite ?iv_max_max; lia. Qed.

Lemma verified_bound n lo hi m : verified n lo hi → max_le m n →
  Forall (λ x, Forall (λ i, high i <= m) (ins x.2)) (view [] n).
Proof.
  intros [_ _ _ _ Hb] Hm. destruct n as [|d l r]; [constructor |]. cbn in Hm.
  apply (Forall_impl _ _ _ Hb). intros x Hx. apply (Forall_impl _ _ _ Hx). cbn. lia.
Qed.

Lemma range_step a b k : (match a with Some c => iv_key_cmp k c <=? 0 | None => false end) = false →
  (match b with Some c => 0 <=? iv_key_cmp k c | None => false end) = false → in_range a b k.
Proof.
  intros Ha Hb. split; [destruct a as [c|] | destruct b as [c|]]; try done; zify_bool;
    destruct (iv_key_cmp_spec k c) as [[? ?] | [[? ?] | [? ?]]]; done || lia.
Qed.

Lemma iv_verify_node_sound n lo hi h : iv_verify_node n lo hi = Some h → h = iv_height n ∧ verified n lo hi.
Proof.
  revert lo hi h. induction n as [|d l IHl r IHr]; intros lo hi h Hv.
  { injection Hv as <-. split; [done |]. split; repeat constructor. }
  cbn [iv_verify_node] in Hv.
  destruct (match lo with Some _ => _ | None => _ end) eqn:Hlo; [done |].
  destruct (match hi with Some _ => _ | None => _ end) eqn:Hhi; [done |].
  pose proof (range_step lo hi (n_key d) Hlo Hhi) as Hrange.
  case_bool_decide as Hne; [done |].
  destruct (forallb _ _) eqn:Hall; [| done]. cbn [negb] in Hv. inv_bind. rename x into lh, x0 into rh.
  destruct (IHl _ _ _ H) as [-> Vl], (IHr _ _ _ H0) as [-> Vr]. clear IHl IHr H H0.
  destruct (Z.eqb_spec (n_height d) (1 + iv_max (iv_height l) (iv_height r))) as [Hh | _]; [| done].
  cbn [negb] in Hv. destruct (_ || _) eqn:Hbal; [done |]. zify_bool.
  destruct (_ <? _) eqn:Hex; [done |]. injection Hv as <-. apply Z.ltb_ge in Hex.
  apply exact_bound in Hex as (Hg & Hml & Hmr). apply group_high_bound in Hg. rewrite iv_max_max in Hh.
  pose proof (verified_bound _ _ _ _ Vl Hml) as Hbl. pose proof (verified_bound _ _ _ _ Vr Hmr) as Hbr.
  destruct Vl as [Al Rl Sl Gl _], Vr as [Ar Rr Sr Gr _].
  split; [done |]. rewrite forallb_forall in Hall.
  assert (ins (n_iv d) ≠ [] ∧ Forall (λ i, low i = k_pos (n_key d) ∧ low i <= high i) (ins (n_iv d))) as Hd.
  { split; [done |]. apply Forall_forall. intros i Hi%list_elem_of_In. specialize (Hall i Hi). zify_bool. lia. }
  split; try (rewrite view_Node; apply Forall_app; split; [| constructor]); try done.
  - cbn [avl]. split_and!; done || lia.
  - apply (Forall_impl _ _ _ Rl). intros x [H1 H2]. split; [done |]. destruct hi; [| done].
    destruct Hrange as [_ Hr]. by etrans.
  - apply (Forall_impl _ _ _ Rr). intros x [H1 H2]. split; [| done]. destruct lo; [| done].
    destruct Hrange as [Hr _]. by etrans.
  - rewrite view_Node. apply ksorted_app. rewrite StronglySorted_app. split_and!; try done.
    + apply (Forall_impl _ _ _ Rl). by intros x [_ ?].
    + apply (Forall_impl _ _ _ Rr). by intros x [? _].
    + intros x y Hx Hy. rewrite Forall_forall in Rl, Rr. destruct (Rl x Hx) as [_ H1], (Rr y Hy) as [H2 _].
      unfold entry_lt. by etrans.
Qed.


End Thms.

(** C32. Why the simulation asks for growing edits in the lazy log: after a
    shrinking edit followed by a growing one, neither drained, the bound of a
    node that was not visited in between falls below its own key, the
    [max >= idx] test then skips the second shift of that key, and a lookup
    misses an interval that the eager specification finds. *)
Theorem shrinking_edits_lose_intervals :
  let ops := [OAdd 1 5 6 11; OAdd 2 4 6 13; OAdd 2 3 6 14; OEdit 6 13 (-7); OEdit 0 1 3; OFind 1 8] in
  ∃ t' a' rs rs', run (@itree_new Z) ops = Ok (t', rs) ∧ arun (mk_astate [] 1) ops = Ok (a', rs') ∧
    last rs = Some (RFound None) ∧ last rs' = Some (RFound (Some 11)).
Proof. cbn zeta. do 4 eexists. do 2 (split; [vm_compute; reflexivity |]). split; vm_compute; reflexivity. Qed.

(** ** Witnesses *)

Definition demo_ops : list (op Z) :=
  [OAdd 1 2 6 10; OAdd 0 2 9 11; OAdd 1 8 12 12; OAdd 3 20 21 13; OAdd 1 2 9 14; OAdd 5 14 30 15; OEdit 6 7 4;
   OFind 1 2; OPos 3; OAdd 7 13 15 16; OEditDrain 0 1 (-1); OEdit 12 14 1; OEach; OSize].

Definition demo_tree : itree Z := match run itree_new demo_ops with Ok (t, _) => t | _ => itree_new end.

Lemma demo_ops_ok : Forall op_ok demo_ops.
Proof. repeat constructor; cbn; lia. Qed.

Lemma demo_tree_inv : Inv demo_tree.
Proof.
  assert (∃ p, arun (mk_astate [] 1) demo_ops = Ok p) as [[a' rs] Ha] by (eexists; vm_compute; reflexivity).
  destruct (run_refines demo_ops itree_new (mk_astate [] 1) a' rs) as (t' & Ht & Hi & _).
  - split; [apply itree_new_inv | done].
  - apply demo_ops_ok.
  - done.
  - unfold demo_tree. by rewrite Ht.
Qed.


(** A root with nothing on the left and a tree of height two on the right. *)
Definition leaf (p : Z) : iv_node Z := Node (mk_data (mk_key p 0) (p + 1) (mk_ivals [mk_ins p (p + 1) 0] 1) 0 1) Nil Nil.
Definition lopsided : iv_node Z :=
  Node (mk_data (mk_key 7 0) 20 (mk_ivals [mk_ins 7 20 0] 1) 0 2) (leaf 5) (leaf 9).
Definition lop_root : iv_data Z := mk_data (mk_key 2 0) 30 (mk_ivals [mk_ins 2 4 0] 1) 0 1.

Lemma iv_rebalance_spec_witness : ∃ n, iv_rebalance [] (Node lop_root Nil lopsided) = Ok n ∧ avl n ∧
  linv [] 0 n ∧ view [] n = view [] (Node lop_root Nil lopsided) ∧ 2 <= iv_height n <= 1 + 2.
Proof.
  apply (iv_rebalance_spec [] 0 lop_root Nil lopsided).
  - repeat constructor.
  - constructor.
  - split; [constructor | cbn; lia | cbn; lia | exact I | | left; constructor | right; constructor].
    cbn. repeat split; repeat constructor; cbn; lia.
  - exact I.
  - cbn. lia.
Defined.

(** A deletion of [13, 15), drained. *)
Lemma itree_edit_exact_witness : ∃ t' ev, itree_remove_and_shift_cb demo_tree 13 15 (-2) = Ok (t', ev) ∧
  Forall (λ w, iv_overlaps (ev_ins w) 13 15 = true ∧ low (ev_ins w) = ev_pos w) ev ∧
  (contents demo_tree ≫= λ x, ins x.2) ≡ₚ (cut_view 13 15 (contents demo_tree) ≫= λ x, ins x.2) ++ (ev_ins <$> ev) ∧
  Forall (λ x, Forall (λ i, iv_overlaps i 13 15 = false) (ins x.2)) (cut_view 13 15 (contents demo_tree)) ∧
  Inv (itree_apply_all_shifts t') ∧
  contents (itree_apply_all_shifts t') = (λ x, shift_entry x (mk_shift 13 (-2) 0)) <$> cut_view 13 15 (contents demo_tree).
Proof. apply (itree_edit_exact demo_tree 13 15 (-2) demo_tree_inv). right. lia. Defined.

Lemma itree_apply_all_same_witness : Inv (itree_apply_all_shifts demo_tree) ∧
  shifts (itree_apply_all_shifts demo_tree) = [] ∧
  contents (itree_apply_all_shifts demo_tree) = contents demo_tree.
Proof. exact (itree_apply_all_same demo_tree demo_tree_inv). Defined.


Lemma itree_stays_balanced_witness : ∃ a' rs t', arun (mk_astate [] 1) demo_ops = Ok (a', rs) ∧
  run itree_new demo_ops = Ok (t', rs) ∧ avl (root t') ∧
  iv_height (root t') <= 2 * Z.log2 (Z.of_nat (iv_nnodes (root t')) + 1) + 1.
Proof.
  eexists _, _. destruct (itree_stays_balanced demo_ops _ _ demo_ops_ok ltac:(vm_compute; reflexivity))
    as (t' & H1 & _ & H2 & _ & _ & H3).
  exists t'. split; [vm_compute; reflexivity |]. exact (conj H1 (conj H2 H3)).
Defined.
