(* ===== verification/Memo.v ===== *)
(** * Memo: captures, memo entries and the memo table (src/memo.c)

    Captures are reference-counted heap objects shared between result trees,
    VM stack entries and memo entries, so they live in a heap: [caps] maps the
    address of every allocated capture to it, [ents] the same for memo entries,
    and an access to a freed address is [Undef].  [tree] is the interval tree of
    the one memo table in use; an entry's position is asked of it. *)
From S2P Require Import Prelude ITree.

(** ** Data *)

Inductive cap_type := CAP_NODE | CAP_DUMMY.

#[export] Instance cap_type_eq_dec : EqDecision cap_type.
Proof. solve_decision. Defined.

Record memo_capture := mk_capture {
  c_id : Z;
  c_type : cap_type;
  c_off : Z;
  c_length : Z;
  c_ment : option positive;     (* the owning entry, a weak reference *)
  c_refs : Z;
  c_children : list positive;
}.

Record memo_entry := mk_entry {
  e_length : Z;
  e_examined : Z;
  e_count : Z;
  e_captures : list positive;
  e_pos : positive;             (* handle of the tree group it is stored in *)
}.

Record mem := mk_mem {
  caps : gmap positive memo_capture;
  ents : gmap positive memo_entry;
  tree : itree positive;
  next_cap : positive;
  next_ent : positive;
}.

Record memo_table := mk_table { threshold : Z }.

Definition empty_mem : mem := mk_mem ∅ ∅ itree_new 1 1.

Definition with_caps (m : mem) (cs : gmap positive memo_capture) : mem :=
  mk_mem cs (ents m) (tree m) (next_cap m) (next_ent m).
Definition with_tree (m : mem) (t : itree positive) : mem :=
  mk_mem (caps m) (ents m) t (next_cap m) (next_ent m).

Definition with_refs (c : memo_capture) (r : Z) : memo_capture :=
  mk_capture (c_id c) (c_type c) (c_off c) (c_length c) (c_ment c) r (c_children c).
Definition with_owner (c : memo_capture) (off : Z) (e : option positive) : memo_capture :=
  mk_capture (c_id c) (c_type c) off (c_length c) e (c_refs c) (c_children c).

Definition get_cap (m : mem) (p : positive) : res memo_capture := must (caps m !! p).
Definition set_cap (m : mem) (p : positive) (c : memo_capture) : mem := with_caps m (<[p := c]> (caps m)).
Definition get_ent (m : mem) (e : positive) : res memo_entry := must (ents m !! e).

(** The recursions over capture graphs run with this fuel: a path visits each
    capture at most once. *)
Definition depth (m : mem) : nat := S (size (caps m)).

(** ** Captures *)

Definition new_cap (m : mem) (c : memo_capture) : positive * mem :=
  (next_cap m, mk_mem (<[next_cap m := c]> (caps m)) (ents m) (tree m) (Pos.succ (next_cap m)) (next_ent m)).

Definition memo_capture_node (m : mem) (id start length : Z) : positive * mem :=
  new_cap m (mk_capture id CAP_NODE start length None 1 []).

Definition memo_capture_dummy (m : mem) (start length : Z) : positive * mem :=
  new_cap m (mk_capture 0 CAP_DUMMY start length None 1 []).

Definition memo_capture_ref (p : positive) (m : mem) : res mem :=
  c ← get_cap m p; mret (set_cap m p (with_refs c (u32 (c_refs c + 1)))).

Fixpoint memo_capture_free_fuel (fuel : nat) (p : positive) (m : mem) : res mem :=
  match fuel with
  | O => Fuel
  | S fuel =>
      c ← get_cap m p;
      let m := set_cap m p (with_refs c (u32 (c_refs c - 1))) in
      if negb (u32 (c_refs c - 1) =? 0) then mret m
      else
        m ← for_each (memo_capture_free_fuel fuel) (c_children c) m;
        mret (with_caps m (delete p (caps m)))
  end.

Definition memo_capture_free (p : positive) (m : mem) : res mem := memo_capture_free_fuel (depth m) p m.

Definition memo_capture_add (p child : positive) (m : mem) : res mem :=
  c ← get_cap m p;
  memo_capture_ref child (set_cap m p (mk_capture (c_id c) (c_type c) (c_off c) (c_length c) (c_ment c)
    (c_refs c) (c_children c ++ [child]))).

Definition memo_capture_id (m : mem) (p : positive) : res Z := c ← get_cap m p; mret (c_id c).

Definition memo_capture_dummy_p (m : mem) (p : positive) : res bool :=
  c ← get_cap m p; mret (bool_decide (c_type c = CAP_DUMMY)).

Fixpoint num_children_fuel (fuel : nat) (m : mem) (p : positive) : res Z :=
  match fuel with
  | O => Fuel
  | S fuel =>
      c ← get_cap m p;
      for_each (λ (ch : positive) (n : Z),
        d ← memo_capture_dummy_p m ch;
        if (d : bool) then k ← num_children_fuel fuel m ch; mret (n + k) else mret (n + 1)) (c_children c) 0
  end.

Definition memo_capture_num_children (m : mem) (p : positive) : res Z := num_children_fuel (depth m) m p.

(** The calls of [fn]: the real children with dummies flattened, in order. *)
Fixpoint capture_each_fuel (fuel : nat) (m : mem) (p : positive) (calls : list positive) : res (list positive) :=
  match fuel with
  | O => Fuel
  | S fuel =>
      c ← get_cap m p;
      for_each (λ (ch : positive) (calls : list positive),
        d ← memo_capture_dummy_p m ch;
        if (d : bool) then capture_each_fuel fuel m ch calls else mret (calls ++ [ch])) (c_children c) calls
  end.

Definition memo_capture_each_child (m : mem) (p : positive) : res (list positive) :=
  capture_each_fuel (depth m) m p [].

Fixpoint memo_capture_child_fuel (fuel : nat) (m : mem) (p : positive) (n : Z) : res (option positive) :=
  match fuel with
  | O => Fuel
  | S fuel =>
      c ← get_cap m p;
      (fix scan (l : list positive) (i : Z) : res (option positive) :=
         match l with
         | [] => mret None
         | ch :: l =>
             d ← memo_capture_dummy_p m ch;
             if (d : bool) then
               sub ← memo_capture_child_fuel fuel m ch (n - i);
               match sub with
               | Some s => mret (Some s)
               | None => k ← memo_capture_num_children m ch; scan l (i + k)
               end
             else if i =? n then mret (Some ch)
             else scan l (i + 1)
         end) (c_children c) 0
  end.

Definition memo_capture_child (m : mem) (p : positive) (n : Z) : res (option positive) :=
  memo_capture_child_fuel (depth m) m p n.

(** ** Entries *)

Definition memo_entry_pos (m : mem) (e : positive) : res (Z * mem) :=
  en ← get_ent m e; '(t, p) ← itree_loc_pos (tree m) (e_pos en); mret (p, with_tree m t).

Definition memo_capture_start (m : mem) (p : positive) : res (Z * mem) :=
  c ← get_cap m p;
  match c_ment c with
  | Some e => '(q, m) ← memo_entry_pos m e; mret (q + c_off c, m)
  | None => mret (c_off c, m)
  end.

Definition memo_capture_len (m : mem) (p : positive) : res Z := c ← get_cap m p; mret (c_length c).

Definition memo_capture_end (m : mem) (p : positive) : res (Z * mem) :=
  '(s, m) ← memo_capture_start m p; l ← memo_capture_len m p; mret (s + l, m).

(** [pos] is what [memo_entry_pos(entry)] returns throughout the call. *)
Fixpoint absolutize_fuel (fuel : nat) (entry : positive) (pos : Z) (p : positive) (m : mem) : res mem :=
  match fuel with
  | O => Fuel
  | S fuel =>
      c ← get_cap m p;
      let m := if bool_decide (c_ment c = Some entry)
               then set_cap m p (with_owner c (c_off c + pos) None) else m in
      for_each (absolutize_fuel fuel entry pos) (c_children c) m
  end.

Definition memo_capture_absolutize (entry : positive) (pos : Z) (p : positive) (m : mem) : res mem :=
  absolutize_fuel (depth m) entry pos p m.

Fixpoint set_ment_fuel (fuel : nat) (e : positive) (p : positive) (m : mem) : res mem :=
  match fuel with
  | O => Fuel
  | S fuel =>
      c ← get_cap m p;
      match c_ment c with
      | Some _ => mret m
      | None =>
          '(pos, m) ← memo_entry_pos m e;
          for_each (set_ment_fuel fuel e) (c_children c)
            (set_cap m p (with_owner c (c_off c - pos) (Some e)))
      end
  end.

Definition capture_set_ment (e p : positive) (m : mem) : res mem := set_ment_fuel (depth m) e p m.

Definition entry_set_pos (e : positive) (m : mem) : res mem :=
  en ← get_ent m e; for_each (capture_set_ment e) (e_captures en) m.

Definition memo_entry_length (m : mem) (e : positive) : res Z := en ← get_ent m e; mret (e_length en).
Definition memo_entry_examined (m : mem) (e : positive) : res Z := en ← get_ent m e; mret (e_examined en).
Definition memo_entry_count (m : mem) (e : positive) : res Z := en ← get_ent m e; mret (e_count en).
Definition memo_entry_captures (m : mem) (e : positive) : res (list positive) :=
  en ← get_ent m e; mret (e_captures en).

(** ** The table *)

Definition memo_table_new (thr : Z) (m : mem) : memo_table * mem := (mk_table thr, with_tree m itree_new).

(** The destructor handed to the tree; [ev_pos] is the entry's position while
    it runs. *)
Definition table_free_entry (ev : eviction positive) (m : mem) : res mem :=
  let e := value (ev_ins ev) in
  en ← get_ent m e;
  m ← for_each (memo_capture_absolutize e (ev_pos ev)) (e_captures en) m;
  m ← for_each memo_capture_free (e_captures en) m;
  mret (mk_mem (caps m) (delete e (ents m)) (tree m) (next_cap m) (next_ent m)).

Definition memo_table_free (m : mem) : res mem :=
  let '(t, calls) := itree_each (tree m) in for_each table_free_entry calls (with_tree m t).

Definition memo_table_get (m : mem) (id pos : Z) : option positive * mem :=
  let '(t, o) := itree_find_largest (tree m) id pos in (o, with_tree m t).

Definition memo_table_put (t : memo_table) (id start length examined count : Z) (captures : list positive)
    (m : mem) : res mem :=
  if ((0 <? threshold t) && (examined <? threshold t)) || (length =? 0) then
    for_each memo_capture_free captures m
  else
    let examined := if examined <? length then length else examined in
    let e := next_ent m in
    '(tr, h) ← itree_add (tree m) id start (start + examined) e;
    entry_set_pos e (mk_mem (caps m) (<[e := mk_entry length examined count captures h]> (ents m)) tr
      (next_cap m) (Pos.succ e)).

Record memo_edit := mk_edit { ed_start : Z; ed_end : Z; ed_len : Z }.

Definition memo_table_apply_edit (edit : memo_edit) (m : mem) : res mem :=
  let low := ed_start edit in
  let high := if ed_start edit =? ed_end edit then low + 1 else ed_end edit in
  let amt := ed_len edit - (ed_end edit - ed_start edit) in
  '(t, ev) ← itree_remove_and_shift_cb (tree m) low high amt;
  for_each table_free_entry ev (with_tree m t).

Definition memo_table_size (m : mem) : Z := itree_size (tree m).
