(* ===== verification/Stack.v ===== *)
(** * Stack: the parsing machine's stack and its capture lists (src/vm.c)

    An entry is a tagged union (each kind's own fields) with the capture list
    it has accumulated; a list holds one reference per pointer.  [entries] is
    top first; [result] is the list below every entry. *)
From S2P Require Import Prelude ITree Memo.

Inductive frame :=
| stRet (ret : Z)
| stBtrack (ip off : Z)
| stMemo (id pos : Z)
| stMemoTree (id pos count : Z)
| stCapt (id pos : Z)
| stCheck (id pos flag : Z).

Record stack_entry := mk_sentry { stype : frame; capt : list positive }.

Record vm_stack := mk_stack { entries : list stack_entry; result : list positive }.

Definition push (f : frame) (s : vm_stack) : vm_stack := mk_stack (mk_sentry f [] :: entries s) (result s).

Definition push_ret (s : vm_stack) (ret : Z) : vm_stack := push (stRet ret) s.
Definition push_btrack (s : vm_stack) (ip off : Z) : vm_stack := push (stBtrack ip off) s.
Definition push_memo (s : vm_stack) (id pos : Z) : vm_stack := push (stMemo id pos) s.
Definition push_memotree (s : vm_stack) (id pos count : Z) : vm_stack := push (stMemoTree id pos count) s.
Definition push_capt (s : vm_stack) (id pos : Z) : vm_stack := push (stCapt id pos) s.
Definition push_check (s : vm_stack) (id pos flag : Z) : vm_stack := push (stCheck id pos flag) s.

(** Append captures to a list, taking a reference per pointer. *)
Definition add_refs (l cs : list positive) (m : mem) : res (list positive * mem) :=
  m ← for_each memo_capture_ref cs m; mret (l ++ cs, m).

Definition entry_add_capt (e : stack_entry) (cs : list positive) (m : mem) : res (stack_entry * mem) :=
  '(l, m) ← add_refs (capt e) cs m; mret (mk_sentry (stype e) l, m).

Definition entry_clear_capt (e : stack_entry) (m : mem) : res mem := for_each memo_capture_free (capt e) m.

Definition stack_add_capt (s : vm_stack) (cs : list positive) (m : mem) : res (vm_stack * mem) :=
  match entries s with
  | [] => '(l, m) ← add_refs (result s) cs m; mret (mk_stack [] l, m)
  | e :: es => '(e, m) ← entry_add_capt e cs m; mret (mk_stack (e :: es) (result s), m)
  end.

(** A move: no reference count changes. *)
Definition stack_prop_capt (s : vm_stack) : vm_stack :=
  match entries s with
  | [] => s
  | [e] => mk_stack [mk_sentry (stype e) []] (result s ++ capt e)
  | e :: f :: es => mk_stack (mk_sentry (stype e) [] :: mk_sentry (stype f) (capt f ++ capt e) :: es) (result s)
  end.

(** [None]: the stack was empty.  The popped entry keeps its references. *)
Definition stack_pop (s : vm_stack) (propagate : bool) (m : mem)
    : res (option (stack_entry * vm_stack * mem)) :=
  match entries s with
  | [] => mret None
  | e :: es =>
      let s := mk_stack es (result s) in
      '(s, m) ← (if propagate then stack_add_capt s (capt e) m else mret (s, m));
      mret (Some (e, s, m))
  end.

(** Pop that must not find the stack empty, dropping the popped entry's list. *)
Definition pop_clear (msg : string) (s : vm_stack) (propagate : bool) (m : mem)
    : res (frame * vm_stack * mem) :=
  o ← stack_pop s propagate m;
  match (o : option (stack_entry * vm_stack * mem)) with
  | None => Abort msg
  | Some (e, s, m) => m ← entry_clear_capt e m; mret (stype e, s, m)
  end.

Definition stack_destroy (s : vm_stack) (m : mem) : res mem :=
  m ← for_each entry_clear_capt (reverse (entries s)) m;
  for_each memo_capture_free (result s) m.

(** A second set of references to a live entry's captures. *)
Definition capt_copy_ref (cs : list positive) (m : mem) : res (list positive * mem) := add_refs [] cs m.
