(* ===== verification/Vm.v ===== *)
(** * Vm: the parsing machine (src/vm.c)

    [vm] is what the interpreter loop changes, [exec_*] one function per
    instruction, [fail_unwind] the [fail:] label, [vm_exec] the whole call. *)
From S2P Require Import Prelude Charset Input Code ITree Memo Stack.

(** ** The empty-op context *)

Definition is_word_byte (r : Z) : bool :=
  ((97 <=? r) && (r <=? 122)) || ((65 <=? r) && (r <=? 90)) || ((48 <=? r) && (r <=? 57)) || (r =? 95).

Definition empty_op_context (r1 r2 : Z) : Z :=
  let '(op, boundary) :=
    if is_word_byte r1 then (32, 1)
    else if r1 =? 10 then (Z.lor 32 1, 0)
    else if r1 <? 0 then (Z.lor 32 (Z.lor 4 1), 0)
    else (32, 0) in
  let '(op, boundary) :=
    if is_word_byte r2 then (op, Z.lxor boundary 1)
    else if r2 =? 10 then (Z.lor op 2, boundary)
    else if r2 <? 0 then (Z.lor op (Z.lor 8 2), boundary)
    else (op, boundary) in
  if negb (boundary =? 0) then Z.lxor op (Z.lor 16 32) else op.

Definition imin (a b : Z) : Z := if a <? b then a else b.
Definition imax (a b : Z) : Z := if b <? a then a else b.

Definition overlaps (wl wh low2 high2 : Z) : bool := (wl <? high2) && (low2 <? wh).

(** ** State *)

Record vm_error := mk_error { err_pos : Z; message : string }.

Definition errlist_add (l : list vm_error) (pos : Z) (msg : string) : list vm_error := l ++ [mk_error pos msg].

(** The arguments of [vm_exec]. *)
Record ctx := mk_ctx {
  vcode : vm_code;
  input : list Z;
  memtbl : option memo_table;
  window_low : Z;
  window_high : Z;
}.

Definition windowed (x : ctx) : bool := 0 <=? window_low x.
Definition inputlen (x : ctx) : Z := Z.of_nat (length (input x)).

Record vm := mk_vm {
  ip : Z;
  st : vm_stack;
  src : vm_input;
  errs : list vm_error;
  caprange_low : Z;
  caprange_high : Z;
  mm : mem;
}.

Definition set_ip (v : vm) (i : Z) : vm := mk_vm i (st v) (src v) (errs v) (caprange_low v) (caprange_high v) (mm v).
Definition set_st (v : vm) (s : vm_stack) : vm := mk_vm (ip v) s (src v) (errs v) (caprange_low v) (caprange_high v) (mm v).
Definition set_src (v : vm) (i : vm_input) : vm := mk_vm (ip v) (st v) i (errs v) (caprange_low v) (caprange_high v) (mm v).
Definition set_mm (v : vm) (m : mem) : vm := mk_vm (ip v) (st v) (src v) (errs v) (caprange_low v) (caprange_high v) m.
Definition add_err (v : vm) (msg : string) : vm :=
  mk_vm (ip v) (st v) (src v) (errlist_add (errs v) (vm_input_pos (src v)) msg) (caprange_low v) (caprange_high v) (mm v).
Definition widen (v : vm) (lo hi : Z) : vm :=
  mk_vm (ip v) (st v) (src v) (errs v) (imin (caprange_low v) lo) (imax (caprange_high v) hi) (mm v).
Definition set_sm (v : vm) (s : vm_stack) (m : mem) : vm := set_mm (set_st v s) m.

(** Where an instruction goes: on with the loop, to [fail:], or to [done:]. *)
Inductive next :=
| Go (v : vm)
| Failed (v : vm)
| Stop (v : vm) (success : bool).

Definition go (v : vm) : res next := mret (Go (set_ip v (ip v + 1))).
Definition jump (v : vm) (t : Z) : res next := mret (Go (set_ip v (u64 t))).

Definition pos (v : vm) : Z := vm_input_pos (src v).

Definition peek (v : vm) : res (option Z * vm) := '(o, i) ← input_peek (src v); mret (o, set_src v i).
Definition advance (v : vm) (n : Z) : bool * vm := let '(ok, i) := input_advance (src v) n in (ok, set_src v i).

(** ** Memoization of a result *)

Definition memoize (x : ctx) (v : vm) (id p mlen count : Z) (cs : list positive) : res vm :=
  match memtbl x with
  | Some tbl =>
      if windowed x then m ← for_each memo_capture_free cs (mm v); mret (set_mm v m)
      else
        let f := furthest (src v) in
        let q := pos v in
        let mexam := (if q <? f then f else q) - p + 1 in
        m ← memo_table_put tbl id p mlen mexam count cs (mm v); mret (set_mm v m)
  | None => m ← for_each memo_capture_free cs (mm v); mret (set_mm v m)
  end.

(** ** Matching instructions *)

(** The next byte and whether [test] holds of it; [test] is evaluated only on
    a byte. *)
Definition peek_test (v : vm) (test : Z → res bool) : res (bool * vm) :=
  '(o, v) ← peek v;
  match o with Some b => t ← test b; mret (t, v) | None => mret (false, v) end.

Definition is_char (c : Z) (b : Z) : res bool := mret (b =? u8 c).
Definition in_set (s : option vm_charset) (b : Z) : res bool := s ← must s; mret (vm_charset_has s b).

Definition exec_match (v : vm) (test : Z → res bool) : res next :=
  '(t, v) ← peek_test v test;
  if (t : bool) then go (advance v 1).2 else mret (Failed v).

Definition exec_char (i : vm_insn) (v : vm) : res next := exec_match v (is_char (a i)).
Definition exec_set (i : vm_insn) (v : vm) : res next := exec_match v (in_set (set i)).

Definition exec_any (i : vm_insn) (v : vm) : res next :=
  let '(ok, v) := advance v (a i) in if ok then go v else mret (Failed v).

(** [fuel] bounds the refills: the subject's length is enough. *)
Definition exec_span (x : ctx) (i : vm_insn) (v : vm) : res next :=
  s ← must (set i); i' ← input_span (S (length (input x))) s (src v); go (set_src v i').

Definition exec_empty (x : ctx) (i : vm_insn) (v : vm) : res next :=
  let p := pos v in
  let at_ (k : Z) := if (0 <=? k) && (k <? inputlen x) then default (-1) (input x !! Z.to_nat k) else -1 in
  let r1 := if 0 <? p then at_ (p - 1) else -1 in
  let r2 := if u64 p <? inputlen x then at_ p else -1 in
  if negb (Z.land (empty_op_context r1 r2) (a i) =? 0) then go v else mret (Failed v).

Definition exec_test (v : vm) (test : Z → res bool) (target : Z) (choice : bool) : res next :=
  '(t, v) ← peek_test v test;
  if (t : bool) then
    let v := if choice then set_st v (push_btrack (st v) target (pos v)) else v in
    go (advance v 1).2
  else jump v target.

Definition exec_test_char i v := exec_test v (is_char (b i)) (a i) true.
Definition exec_test_char_nochoice i v := exec_test v (is_char (b i)) (a i) false.
Definition exec_test_set i v := exec_test v (in_set (set i)) (a i) true.
Definition exec_test_set_nochoice i v := exec_test v (in_set (set i)) (a i) false.

Definition exec_test_any (i : vm_insn) (v : vm) : res next :=
  let off := pos v in
  let '(ok, v) := advance v (b i) in
  if ok then go (set_st v (push_btrack (st v) (a i) off))
  else jump (set_src v (input_seek_to (src v) off)) (a i).

(** ** Control *)

Definition exec_jump (i : vm_insn) (v : vm) : res next := jump v (a i).
Definition exec_choice (i : vm_insn) (v : vm) : res next := go (set_st v (push_btrack (st v) (a i) (pos v))).
Definition exec_call (i : vm_insn) (v : vm) : res next :=
  jump (set_st v (push_ret (st v) (i32 (ip v + 1)))) (a i).

Definition exec_commit (i : vm_insn) (v : vm) : res next :=
  '(_, s, m) ← pop_clear "Commit failed" (st v) true (mm v); jump (set_sm v s m) (a i).

(** The kind test comes before the popped list is dropped. *)
Definition exec_return (v : vm) : res next :=
  o ← stack_pop (st v) true (mm v);
  match (o : option (stack_entry * vm_stack * mem)) with
  | Some (mk_sentry (stRet r) cs as e, s, m) => m ← entry_clear_capt e m; jump (set_sm v s m) r
  | _ => Abort "Return failed"
  end.

Definition exec_partial_commit (i : vm_insn) (v : vm) : res next :=
  match st v with
  | mk_stack (mk_sentry (stBtrack t off) cs :: es) r =>
      jump (set_st v (stack_prop_capt (mk_stack (mk_sentry (stBtrack t (pos v)) cs :: es) r))) (a i)
  | _ => Abort "PartialCommit failed"
  end.

Definition exec_back_commit (i : vm_insn) (v : vm) : res next :=
  o ← stack_pop (st v) true (mm v);
  match (o : option (stack_entry * vm_stack * mem)) with
  | Some (mk_sentry (stBtrack t off) cs as e, s, m) =>
      m ← entry_clear_capt e m;
      jump (set_sm (set_src v (input_seek_to (src v) off)) s m) (a i)
  | _ => Abort "BackCommit failed"
  end.

Definition exec_fail_twice (v : vm) : res next :=
  o ← stack_pop (st v) false (mm v);
  match (o : option (stack_entry * vm_stack * mem)) with
  | Some (e, s, m) => m ← entry_clear_capt e m; mret (Failed (set_sm v s m))
  | None => mret (Failed v)
  end.

Definition exec_error (x : ctx) (i : vm_insn) (v : vm) : res next :=
  let msg := if u64 (a i) <? Z.of_nat (length (cerrors (vcode x)))
             then default EmptyString (cerrors (vcode x) !! Z.to_nat (a i)) else EmptyString in
  go (add_err v msg).

(** ** Captures *)

Definition exec_capture_begin (i : vm_insn) (v : vm) : res next := go (set_st v (push_capt (st v) (i16 (a i)) (pos v))).
Definition exec_capture_late (i : vm_insn) (v : vm) : res next :=
  go (set_st v (push_capt (st v) (i16 (a i)) (pos v - b i))).

(** Captures are built outside windowed runs, and inside the window. *)
Definition wanted (x : ctx) (lo hi : Z) : bool :=
  negb (windowed x) || overlaps (window_low x) (window_high x) lo hi.

Definition note_range (x : ctx) (v : vm) (lo hi : Z) : vm := if windowed x then widen v lo hi else v.

(** Hand a fresh capture to the top list (which takes its own reference). *)
Definition give (v : vm) (s : vm_stack) (c : positive) (m : mem) : res vm :=
  '(s, m) ← stack_add_capt s [c] m; m ← memo_capture_free c m; mret (set_sm v s m).

Definition exec_capture_full (x : ctx) (i : vm_insn) (v : vm) : res next :=
  let back := b i in
  let p := pos v in
  if wanted x (p - back) p then
    let v := note_range x v (p - back) p in
    let '(c, m) := memo_capture_node (mm v) (a i) (p - back) back in
    v ← give v (st v) c m; go v
  else go v.

Definition exec_capture_end (x : ctx) (v : vm) : res next :=
  o ← stack_pop (st v) false (mm v);
  match (o : option (stack_entry * vm_stack * mem)) with
  | Some (mk_sentry (stCapt id start) cs as e, s, m) =>
      let end_ := pos v in
      if wanted x start end_ then
        let v := note_range x v start end_ in
        let '(c, m) := memo_capture_node m id start (end_ - start) in
        m ← for_each (memo_capture_add c) cs m;
        m ← entry_clear_capt e m;
        v ← give v s c m; go v
      else m ← entry_clear_capt e m; go (set_sm v s m)
  | _ => Abort "CaptureEnd found no capture entry"
  end.

(** ** Memoization instructions *)

Definition lookup_memo (x : ctx) (i : vm_insn) (v : vm) : option positive * vm :=
  match memtbl x with
  | Some _ => let '(o, m) := memo_table_get (mm v) (b i) (pos v) in (o, set_mm v m)
  | None => (None, v)
  end.

(** [for (i < ncap) stack_add_capt(&st, &capt[i], 1);] *)
Definition add_each (v : vm) (cs : list positive) : res vm :=
  for_each (λ c v, '(s, m) ← stack_add_capt (st v) [c] (mm v); mret (set_sm v s m)) cs v.

Definition exec_memo_open (x : ctx) (i : vm_insn) (v : vm) : res next :=
  let '(o, v) := lookup_memo x i v in
  match o with
  | Some e =>
      len ← memo_entry_length (mm v) e;
      if len =? -1 then mret (Failed v)
      else
        cs ← memo_entry_captures (mm v) e;
        v ← add_each v cs;
        jump (advance v len).2 (a i)
  | None => go (set_st v (push_memo (st v) (i16 (b i)) (pos v)))
  end.

Definition exec_memo_close (x : ctx) (v : vm) : res next :=
  o ← stack_pop (st v) true (mm v);
  match (o : option (stack_entry * vm_stack * mem)) with
  | Some (mk_sentry (stMemo id p) cs, s, m) =>
      let v := set_sm v s m in
      v ← memoize x v id p (pos v - p) 1 cs; go v
  | _ => Abort "memo close failed"
  end.

Definition exec_memo_tree_open (x : ctx) (i : vm_insn) (v : vm) : res next :=
  let '(o, v) := lookup_memo x i v in
  match o with
  | Some e =>
      len ← memo_entry_length (mm v) e;
      if len =? -1 then mret (Failed v)
      else
        n ← memo_entry_count (mm v) e;
        let v := set_st v (push_memotree (st v) (i16 (b i)) (pos v) n) in
        cs ← memo_entry_captures (mm v) e;
        v ← add_each v cs;
        '(_, v) ← peek (advance v len).2;
        jump v (a i)
  | None => go (set_st v (push_memotree (st v) (i16 (b i)) (pos v) 0))
  end.

(** [fuel] is the stack's height. *)
Fixpoint tree_close (fuel : nat) (id : Z) (s : vm_stack) (m : mem) : res (vm_stack * mem) :=
  match entries s with
  | mk_sentry (stMemoTree id' _ _) _ :: _ =>
      if id' =? id then
        match fuel with
        | O => Fuel
        | S fuel => '(_, s, m) ← pop_clear "MemoTreeClose failed" s true m; tree_close fuel id s m
        end
      else mret (s, m)
  | _ => mret (s, m)
  end.

Definition exec_memo_tree_close (i : vm_insn) (v : vm) : res next :=
  '(s, m) ← tree_close (length (entries (st v))) (i16 (a i)) (st v) (mm v); go (set_sm v s m).

Definition exec_memo_tree_insert (x : ctx) (v : vm) : res next :=
  match entries (st v) with
  | mk_sentry (stMemoTree id p count) cs :: es =>
      let v := set_st v (mk_stack (mk_sentry (stMemoTree id p (count + 1)) cs :: es) (result (st v))) in
      '(copy, m) ← capt_copy_ref cs (mm v);
      v ← memoize x (set_mm v m) id p (pos v - p) (count + 1) copy; go v
  | _ => Abort "no memo entry on stack"
  end.

(** Pops of the merged entries above the last one. *)
Fixpoint pop_merged (n : nat) (s : vm_stack) (m : mem) : res (vm_stack * mem) :=
  match n with
  | O => mret (s, m)
  | S n => '(_, s, m) ← pop_clear "unreachable" s true m; pop_merged n s m
  end.

(** The [seen] topmost entries become one child of the entry below them. *)
Definition tree_merge (x : ctx) (seen : nat) (accum : Z) (v : vm) : res vm :=
  '(s, m) ← pop_merged (seen - 1) (st v) (mm v);
  o ← stack_pop s false m;
  match (o : option (stack_entry * vm_stack * mem)) with
  | Some (mk_sentry (stMemoTree _ epos _) cs as e, s, m) =>
      v ← (match cs with
           | [] => mret (set_sm v s m)
           | _ =>
               if windowed x then
                 '(s, m) ← stack_add_capt s cs m; m ← entry_clear_capt e m; mret (set_sm v s m)
               else
                 let '(d, m) := memo_capture_dummy m epos (pos v - epos) in
                 m ← for_each (memo_capture_add d) cs m;
                 m ← entry_clear_capt e m;
                 give v s d m
           end);
      match entries (st v) with
      | mk_sentry (stMemoTree id p count) cs :: es =>
          let v := set_st v (mk_stack (mk_sentry (stMemoTree id p (accum + count)) cs :: es) (result (st v))) in
          '(copy, m) ← capt_copy_ref cs (mm v);
          memoize x (set_mm v m) id p (pos v - p) (accum + count) copy
      | _ => Undef
      end
  | _ => Abort "MemoTree merge failed"
  end.

(** [fuel]: one more than the stack's height. *)
Fixpoint memo_tree_loop (fuel : nat) (x : ctx) (seen : nat) (accum : Z) (v : vm) : res vm :=
  match fuel with
  | O => Fuel
  | S fuel =>
      match entries (st v) !! seen, entries (st v) !! S seen with
      | Some (mk_sentry (stMemoTree _ _ tc) _), Some (mk_sentry (stMemoTree _ _ nc) _) =>
          let seen := S seen in
          let accum := accum + tc in
          if accum <? nc then memo_tree_loop fuel x seen accum v
          else v ← tree_merge x seen accum v; memo_tree_loop fuel x 0 0 v
      | _, _ => mret v
      end
  end.

Definition exec_memo_tree (x : ctx) (v : vm) : res next :=
  v ← memo_tree_loop (S (length (entries (st v)))) x 0 0 v; go v.

(** ** Checkers *)

Definition exec_check_begin (i : vm_insn) (v : vm) : res next :=
  go (set_st v (push_check (st v) (i16 (a i)) (pos v) (b i))).

Definition exec_check_end (x : ctx) (i : vm_insn) (v : vm) : res next :=
  o ← stack_pop (st v) true (mm v);
  match (o : option (stack_entry * vm_stack * mem)) with
  | Some (mk_sentry (stCheck id start flag) cs as e, s, m) =>
      let checker := if u64 (a i) <? Z.of_nat (length (checkers (vcode x)))
                     then mjoin (checkers (vcode x) !! Z.to_nat (a i)) else None in
      m ← entry_clear_capt e m;
      let v := set_sm v s m in
      match checker with
      | None => go v
      | Some fn =>
          let end_ := pos v in
          let n := i32 (fn (slice (input x) start (end_ - start)) (input x) id flag) in
          if n <? 0 then mret (Failed v)
          else if inputlen x <? u64 (u64 end_ + u64 n) then mret (Failed v)
          else go (advance v n).2
      end
  | _ => Abort "check end needs check stack entry"
  end.

(** ** The loop *)

Definition exec_insn (x : ctx) (i : vm_insn) (v : vm) : res next :=
  match op i with
  | VM_CHAR => exec_char i v
  | VM_JUMP => exec_jump i v
  | VM_CHOICE => exec_choice i v
  | VM_CALL => exec_call i v
  | VM_COMMIT => exec_commit i v
  | VM_RETURN => exec_return v
  | VM_FAIL => mret (Failed v)
  | VM_SET => exec_set i v
  | VM_ANY => exec_any i v
  | VM_PARTIAL_COMMIT => exec_partial_commit i v
  | VM_SPAN => exec_span x i v
  | VM_BACK_COMMIT => exec_back_commit i v
  | VM_FAIL_TWICE => exec_fail_twice v
  | VM_EMPTY => exec_empty x i v
  | VM_TEST_CHAR => exec_test_char i v
  | VM_TEST_CHAR_NOCHOICE => exec_test_char_nochoice i v
  | VM_TEST_SET => exec_test_set i v
  | VM_TEST_SET_NOCHOICE => exec_test_set_nochoice i v
  | VM_TEST_ANY => exec_test_any i v
  | VM_CAPTURE_BEGIN => exec_capture_begin i v
  | VM_CAPTURE_LATE => exec_capture_late i v
  | VM_CAPTURE_FULL => exec_capture_full x i v
  | VM_CAPTURE_END => exec_capture_end x v
  | VM_END => mret (Stop v (negb (a i =? 1)))
  | VM_MEMO_OPEN => exec_memo_open x i v
  | VM_MEMO_CLOSE => exec_memo_close x v
  | VM_MEMO_TREE_OPEN => exec_memo_tree_open x i v
  | VM_MEMO_TREE_CLOSE => exec_memo_tree_close i v
  | VM_MEMO_TREE_INSERT => exec_memo_tree_insert x v
  | VM_MEMO_TREE => exec_memo_tree x v
  | VM_CHECK_BEGIN => exec_check_begin i v
  | VM_CHECK_END => exec_check_end x i v
  | VM_ERROR => exec_error x i v
  | VM_NOP => Abort "invalid opcode"
  end.

(** [fail:].  [None]: the stack ran out, the match failed.  [fuel] is the
    stack's height. *)
Fixpoint fail_unwind (fuel : nat) (x : ctx) (v : vm) : res (vm * bool) :=
  match entries (st v) with
  | [] => mret (v, false)
  | _ =>
      match fuel with
      | O => Fuel
      | S fuel =>
          o ← stack_pop (st v) false (mm v);
          match (o : option (stack_entry * vm_stack * mem)) with
          | Some (mk_sentry (stBtrack t off) _ as e, s, m) =>
              m ← entry_clear_capt e m;
              mret (set_ip (set_sm (set_src v (input_seek_to (src v) off)) s m) (u64 t), true)
          | Some (mk_sentry (stMemo id p) cs, s, m) =>
              v ← memoize x (set_sm v s m) id p (-1) 0 cs; fail_unwind fuel x v
          | Some (e, s, m) => m ← entry_clear_capt e m; fail_unwind fuel x (set_sm v s m)
          | None => Undef
          end
      end
  end.

(** One turn of the loop; [None] in the result: the machine failed. *)
Definition step (x : ctx) (v : vm) : res (vm + (vm * option bool)) :=
  i ← must (if ip v <? 0 then None else prog (vcode x) !! Z.to_nat (ip v));
  n ← exec_insn x i v;
  match n with
  | Go v => mret (inl v)
  | Stop v success => mret (inr (v, Some success))
  | Failed v =>
      '(v, alive) ← fail_unwind (length (entries (st v))) x v;
      mret (if (alive : bool) then inl v else inr (v, None))
  end.

Fixpoint run (fuel : nat) (x : ctx) (v : vm) : res (vm * option bool) :=
  match fuel with
  | O => Fuel
  | S fuel =>
      n ← step x v;
      match n with inl v => run fuel x v | inr r => mret r end
  end.

Record vm_result := mk_result {
  success : bool;
  res_pos : Z;
  captures : option positive;
  res_errors : list vm_error;
}.

(** [done:] *)
Definition finish (x : ctx) (v : vm) (outcome : option bool) : res (vm_result * mem) :=
  '(r, m) ← (match outcome with
             | None => mret (mk_result false (pos v) None (errs v), mm v)
             | Some ok =>
                 let '(d, m) :=
                   if windowed x
                   then memo_capture_dummy (mm v) (caprange_low v) (caprange_high v - caprange_low v)
                   else memo_capture_dummy (mm v) 0 (pos v) in
                 m ← for_each (memo_capture_add d) (result (st v)) m;
                 mret (mk_result ok (pos v) (Some d) (errs v), m)
             end);
  m ← stack_destroy (st v) m;
  mret (r, m).

Definition vm_exec (fuel : nat) (code : vm_code) (input : list Z) (memtbl : option memo_table)
    (window_low window_high : Z) (m : mem) : res (vm_result * mem) :=
  let x := mk_ctx code input memtbl window_low window_high in
  if windowed x && bool_decide (memtbl = None) then Abort "windowed execution requires a memo table"
  else match prog code with
  | [] => let '(d, m) := memo_capture_dummy m 0 0 in mret (mk_result true 0 (Some d) [], m)
  | _ =>
      m ← (if windowed x && (window_low <? window_high)
           then memo_table_apply_edit (mk_edit window_low window_high (window_high - window_low)) m
           else mret m);
      '(v, outcome) ← run fuel x (mk_vm 0 (mk_stack [] []) (vm_input_new input) [] 0 0 m);
      finish x v outcome
  end.

Definition vm_result_free (r : vm_result) (m : mem) : res (vm_result * mem) :=
  m ← (match captures r with Some c => memo_capture_free c m | None => mret m end);
  mret (mk_result (success r) (res_pos r) None [], m).
