(* ===== verification/Pattern.v ===== *)
(** * Pattern: the AST, its constructors, simplification and inlining
    (src/pattern.c)

    A pattern is a tree.  [PAT_NONTERM]'s [inlined] back-reference is a copy of
    the definition it points to: only a definition without unresolved
    non-terminals is ever inlined, and such a definition is never changed again,
    so sharing it or copying it cannot be told apart. *)
From S2P Require Import Prelude Charset Code.

(** ** AST *)

Inductive pat :=
| PAT_ALT (l r : pat)
| PAT_SEQ (l r : pat)
| PAT_STAR (p : pat)
| PAT_PLUS (p : pat)
| PAT_OPTIONAL (p : pat)
| PAT_NOT (p : pat)
| PAT_AND (p : pat)
| PAT_CAP (p : pat) (id : Z)
| PAT_MEMO (p : pat) (id : Z)
| PAT_CHECK (p : pat) (fn : option vm_checker) (id flag : Z)
| PAT_GRAMMAR (start : string) (defs : list (string * pat))
| PAT_SEARCH (p : pat)
| PAT_REPEAT (p : pat) (n : Z)
| PAT_CLASS (set : vm_charset)
| PAT_LITERAL (str : list Z)
| PAT_NONTERM (name : string) (inlined : option pat)
| PAT_DOT (n : Z)
| PAT_ERROR (msg : string) (recover : option pat)
| PAT_EMPTYOP (op : Z)
| PAT_EMPTY.

(** ** Constructors *)

Definition pat_alt (l r : pat) : pat := PAT_ALT l r.
Definition pat_seq (l r : pat) : pat := PAT_SEQ l r.

(** Left-nested. *)
Definition pat_concat (patts : list pat) : pat :=
  match patts with [] => PAT_EMPTY | p :: ps => fold_left pat_seq ps p end.

(** Right-nested. *)
Fixpoint pat_or (patts : list pat) : pat :=
  match patts with [] => PAT_EMPTY | [p] => p | p :: ps => pat_alt p (pat_or ps) end.

Definition pat_star (p : pat) : pat := PAT_STAR p.
Definition pat_plus (p : pat) : pat := PAT_PLUS p.
Definition pat_optional (p : pat) : pat := PAT_OPTIONAL p.
Definition pat_not (p : pat) : pat := PAT_NOT p.
Definition pat_and (p : pat) : pat := PAT_AND p.
Definition pat_cap (p : pat) (id : Z) : pat := PAT_CAP p id.

(** The user data pointer is part of the checker. *)
Definition pat_check_flags (p : pat) (fn : option vm_checker) (id flag : Z) : pat := PAT_CHECK p fn id flag.
Definition pat_check (p : pat) (fn : option vm_checker) : pat := pat_check_flags p fn 0 0.

(** [counter] is the global [pat_memo_counter]. *)
Definition pat_memo_id (counter : Z) (p : pat) (id : Z) : pat * Z :=
  (PAT_MEMO p id, if counter <? id then id + 1 else counter).

Definition pat_memo (counter : Z) (p : pat) : pat * Z := pat_memo_id (counter + 1) p counter.

Definition pat_literal (s : list Z) : pat := PAT_LITERAL s.
Definition pat_set (set : vm_charset) : pat := PAT_CLASS set.
Definition pat_any (n : Z) : pat := PAT_DOT n.
Definition pat_repeat (p : pat) (n : Z) : pat := if n <=? 0 then PAT_EMPTY else PAT_REPEAT p n.
Definition pat_search (p : pat) : pat := PAT_SEARCH p.
Definition pat_emptyop (op : Z) : pat := PAT_EMPTYOP op.
Definition pat_nonterm (name : string) : pat := PAT_NONTERM name None.
Definition pat_grammar (start : string) (defs : list (string * pat)) : pat := PAT_GRAMMAR start defs.

(** The pattern and the ids handed out. *)
Definition pat_cap_grammar (start : string) (defs : list (string * pat)) : pat * list Z :=
  (pat_grammar start (imap (λ i '(name, d), (name, pat_cap d (Z.of_nat i))) defs),
   Z.of_nat <$> seq 0 (length defs)).

Definition pat_error (msg : string) (recovery : option pat) : pat := PAT_ERROR msg recovery.

(** ** Simplification *)

(** A literal of exactly one byte. *)
Definition literal1 (p : pat) : option Z := match p with PAT_LITERAL [b] => Some (u8 b) | _ => None end.

Definition one_set (b : Z) : vm_charset := vm_charset_fill [b].

(** The set that matches what either matches, when both match one byte. *)
Definition combine (p1 p2 : pat) : option vm_charset :=
  match literal1 p1, p1 with
  | Some b, _ =>
      match p2 with
      | PAT_CLASS s => Some (vm_charset_union s (one_set b))
      | PAT_LITERAL _ => c ← literal1 p2; Some (vm_charset_set (one_set b) c true)
      | _ => None
      end
  | None, PAT_CLASS s1 =>
      match p2 with
      | PAT_CLASS s2 => Some (vm_charset_union s1 s2)
      | PAT_LITERAL _ => c ← literal1 p2; Some (vm_charset_union s1 (one_set c))
      | _ => None
      end
  | _, _ => None
  end.

(** Nodes of a tree, the inlined ones included. *)
Fixpoint pat_size (p : pat) : nat :=
  match p with
  | PAT_ALT l r | PAT_SEQ l r => S (pat_size l + pat_size r)
  | PAT_STAR p | PAT_PLUS p | PAT_OPTIONAL p | PAT_NOT p | PAT_AND p | PAT_SEARCH p
  | PAT_CAP p _ | PAT_MEMO p _ | PAT_CHECK p _ _ _ | PAT_REPEAT p _ => S (pat_size p)
  | PAT_GRAMMAR _ defs => S ((fix sum ds := match ds with [] => O | (_, d) :: ds => pat_size d + sum ds end) defs)
  | PAT_NONTERM _ (Some p) | PAT_ERROR _ (Some p) => S (pat_size p)
  | _ => 1
  end%nat.

(** [!x y] with a one-byte [x]: the set of [x] (any other [x]: [None]). *)
Definition not_set (p : pat) : option vm_charset :=
  match p with
  | PAT_LITERAL _ => one_set <$> literal1 p
  | PAT_CLASS s => Some s
  | _ => None
  end.

(** [get_pat_fuel fuel p]; [pat_size p] is enough (theorem [get_pat_total]). *)
Fixpoint get_pat_fuel (fuel : nat) (p : pat) : res pat :=
  match fuel with
  | O => Fuel
  | S fuel =>
      match p with
      | PAT_NONTERM _ (Some d) => mret d
      | PAT_ALT l r =>
          l ← get_pat_fuel fuel l;
          r ← get_pat_fuel fuel r;
          match (l : pat), (r : pat) with
          | PAT_EMPTY, _ => mret r
          | _, PAT_EMPTY => get_pat_fuel fuel (pat_optional l)
          | _, _ => mret (match combine l r with Some s => pat_set s | None => p end)
          end
      | PAT_OPTIONAL q =>
          s ← get_pat_fuel fuel q;
          mret (match (s : pat) with PAT_STAR _ => s | _ => p end)
      | PAT_SEQ l r =>
          l ← get_pat_fuel fuel l;
          r ← get_pat_fuel fuel r;
          mret (match (l : pat), (r : pat) with
                | _, PAT_EMPTY => l
                | PAT_EMPTY, _ => r
                | PAT_NOT np, _ =>
                    match not_set np with
                    | None => p
                    | Some set =>
                        match r with
                        | PAT_DOT n => if n =? 1 then pat_set (vm_charset_negate set) else p
                        | PAT_CLASS rs => pat_set (vm_charset_sub rs set)
                        | PAT_LITERAL _ =>
                            match literal1 r with
                            | Some b => pat_set (vm_charset_sub (one_set b) set)
                            | None => p
                            end
                        | _ => p
                        end
                    end
                | _, _ => p
                end)
      | _ => mret p
      end
  end.

Definition get_pat (p : pat) : res pat := get_pat_fuel (pat_size p) p.

(** ** Grammars *)

(** [find_def]: the first definition of that name and its index. *)
Fixpoint find_def (defs : list (string * pat)) (name : string) : option nat :=
  match defs with
  | [] => None
  | (n, _) :: defs => if decide (n = name) then Some O else S <$> find_def defs name
  end.

(** [walk_pat(p, true, fn, ud)] for an [fn] that only reads: pre-order.
    [PAT_REPEAT] has no case in [walk_pat]: its sub-pattern is not visited. *)
Fixpoint walk_pat {S} (fn : pat → S → S) (p : pat) (s : S) : S :=
  let s := fn p s in
  match p with
  | PAT_ALT l r | PAT_SEQ l r => walk_pat fn r (walk_pat fn l s)
  | PAT_STAR q | PAT_PLUS q | PAT_OPTIONAL q | PAT_NOT q | PAT_AND q | PAT_SEARCH q
  | PAT_CAP q _ | PAT_MEMO q _ | PAT_CHECK q _ _ _ => walk_pat fn q s
  | PAT_ERROR _ (Some q) | PAT_NONTERM _ (Some q) => walk_pat fn q s
  | PAT_GRAMMAR _ defs =>
      (fix go ds s := match ds with [] => s | (_, d) :: ds => go ds (walk_pat fn d s) end) defs s
  | _ => s
  end.

Definition PAT_INLINE_THRESHOLD : Z := 100.

(** A definition's size and whether it is a leaf. *)
Definition count_size_leaf_fn (sub : pat) (d : Z * bool) : Z * bool :=
  (d.1 + 1, match sub with PAT_NONTERM _ None => false | _ => d.2 end).

Definition size_leaf (d : pat) : Z * bool := walk_pat count_size_leaf_fn d (0, true).

(** The body substituted for an unresolved non-terminal, if any. *)
Definition inline_fn (defs : list (string * pat)) (sl : list (Z * bool)) (name : string) : option pat :=
  di ← find_def defs name;
  '(size, leaf) ← sl !! di;
  if (size <? PAT_INLINE_THRESHOLD) && (leaf : bool) then snd <$> defs !! di else None.

(** [walk_pat(g, true, inline_fn, &d)]: the rewritten tree and [did].  A body
    that was just substituted is a leaf: walking it changes nothing. *)
Fixpoint walk_inline (body : string → option pat) (p : pat) : pat * bool :=
  let unary (mk : pat → pat) (q : pat) := let '(q, d) := walk_inline body q in (mk q, d) in
  match p with
  | PAT_ALT l r => let '(l, d1) := walk_inline body l in let '(r, d2) := walk_inline body r in (PAT_ALT l r, d1 || d2)
  | PAT_SEQ l r => let '(l, d1) := walk_inline body l in let '(r, d2) := walk_inline body r in (PAT_SEQ l r, d1 || d2)
  | PAT_STAR q => unary PAT_STAR q
  | PAT_PLUS q => unary PAT_PLUS q
  | PAT_OPTIONAL q => unary PAT_OPTIONAL q
  | PAT_NOT q => unary PAT_NOT q
  | PAT_AND q => unary PAT_AND q
  | PAT_SEARCH q => unary PAT_SEARCH q
  | PAT_CAP q id => unary (λ q, PAT_CAP q id) q
  | PAT_MEMO q id => unary (λ q, PAT_MEMO q id) q
  | PAT_CHECK q fn id flag => unary (λ q, PAT_CHECK q fn id flag) q
  | PAT_ERROR msg (Some q) => unary (λ q, PAT_ERROR msg (Some q)) q
  | PAT_GRAMMAR start defs =>
      let '(defs, d) := (fix go ds :=
        match ds with
        | [] => ([], false)
        | (n, q) :: ds => let '(q, d1) := walk_inline body q in let '(ds, d2) := go ds in ((n, q) :: ds, d1 || d2)
        end) defs in (PAT_GRAMMAR start defs, d)
  | PAT_NONTERM name None => match body name with Some q => (PAT_NONTERM name (Some q), true) | None => (p, false) end
  | PAT_NONTERM name (Some q) => unary (λ q, PAT_NONTERM name (Some q)) q
  | _ => (p, false)
  end.

Definition grammar_inline_once (start : string) (defs : list (string * pat)) : list (string * pat) * bool :=
  let sl := (λ d, size_leaf d.2) <$> defs in
  match walk_inline (inline_fn defs sl) (PAT_GRAMMAR start defs) with
  | (PAT_GRAMMAR _ defs, did) => (defs, did)
  | (_, did) => (defs, did)
  end.

(** Unresolved non-terminals that a walk reaches. *)
Definition unresolved_fn (sub : pat) (n : nat) : nat := match sub with PAT_NONTERM _ None => S n | _ => n end.
Definition unresolved (p : pat) : nat := walk_pat unresolved_fn p O.

Fixpoint grammar_inline_fuel (fuel : nat) (start : string) (defs : list (string * pat)) : res (list (string * pat)) :=
  let '(defs, did) := grammar_inline_once start defs in
  if did then match fuel with O => Fuel | S fuel => grammar_inline_fuel fuel start defs end
  else mret defs.

(** Every productive pass resolves a non-terminal (theorem
    [grammar_inline_total]). *)
Definition grammar_inline (start : string) (defs : list (string * pat)) : res (list (string * pat)) :=
  grammar_inline_fuel (unresolved (PAT_GRAMMAR start defs)) start defs.

(** [collect_used_fn] over one definition. *)
Definition collect_used_fn (defs : list (string * pat)) (sub : pat) (d : list bool * bool) : list bool * bool :=
  match sub with
  | PAT_NONTERM name None =>
      (match find_def defs name with Some di => <[di := true]> d.1 | None => d.1 end, true)
  | _ => d
  end.

Definition collect_used (defs : list (string * pat)) : list bool * bool :=
  fold_left (λ d nd, walk_pat (collect_used_fn defs) nd.2 d) defs (replicate (length defs) false, false).
