(* ===== verification/Compile.v ===== *)
(** * Compile: patterns to the instruction-list IR, optimization, encoding
    (src/pattern.c)

    [pir] is a list of typed instruction slots in which labels are entries.
    Transient nodes are ordinary values here; what the compilation context keeps
    is the first error, the label counter and the (global) memo id counter. *)
From S2P Require Import Prelude Charset Code Pattern.

(** ** IR *)

Inductive pir_op := OP (o : vm_op) | PIR_LABEL | PIR_OPENCALL.

#[export] Instance pir_op_eq_dec : EqDecision pir_op.
Proof. solve_decision. Defined.

Record pir_insn := mk_pir {
  p_op : pir_op;
  p_a : Z;
  p_b : Z;
  p_label : Z;
  p_set : vm_charset;
  p_msg : option string;
  p_name : option string;
  p_fn : option vm_checker;
}.

Definition no_set : vm_charset := vm_charset_fill [].

Definition insn_op (op : pir_op) : pir_insn := mk_pir op 0 0 (-1) no_set None None None.
Definition insn_basic (op : vm_op) : pir_insn := insn_op (OP op).
Definition with_a (i : pir_insn) (a : Z) : pir_insn :=
  mk_pir (p_op i) a (p_b i) (p_label i) (p_set i) (p_msg i) (p_name i) (p_fn i).
Definition with_b (i : pir_insn) (b : Z) : pir_insn :=
  mk_pir (p_op i) (p_a i) b (p_label i) (p_set i) (p_msg i) (p_name i) (p_fn i).
Definition with_label (i : pir_insn) (l : Z) : pir_insn :=
  mk_pir (p_op i) (p_a i) (p_b i) l (p_set i) (p_msg i) (p_name i) (p_fn i).
Definition with_set (i : pir_insn) (s : vm_charset) : pir_insn :=
  mk_pir (p_op i) (p_a i) (p_b i) (p_label i) s (p_msg i) (p_name i) (p_fn i).
Definition with_op (i : pir_insn) (op : vm_op) : pir_insn :=
  mk_pir (OP op) (p_a i) (p_b i) (p_label i) (p_set i) (p_msg i) (p_name i) (p_fn i).
Definition with_msg (i : pir_insn) (m : string) : pir_insn :=
  mk_pir (p_op i) (p_a i) (p_b i) (p_label i) (p_set i) (Some m) (p_name i) (p_fn i).
Definition with_fn (i : pir_insn) (f : option vm_checker) : pir_insn :=
  mk_pir (p_op i) (p_a i) (p_b i) (p_label i) (p_set i) (p_msg i) (p_name i) f.

Definition insn_label (label : Z) : pir_insn := with_a (insn_op PIR_LABEL) label.
Definition insn_jump (op : vm_op) (label : Z) : pir_insn := with_label (insn_basic op) label.
Definition insn_u8 (op : vm_op) (a : Z) : pir_insn := with_a (insn_basic op) a.
Definition insn_set (op : vm_op) (s : vm_charset) : pir_insn := with_set (insn_basic op) s.
Definition insn_test_set (op : vm_op) (s : vm_charset) (label : Z) : pir_insn := with_label (insn_set op s) label.
Definition insn_test_char (op : vm_op) (byte label : Z) : pir_insn := with_label (with_b (insn_basic op) byte) label.
Definition insn_opencall (name : string) : pir_insn :=
  mk_pir PIR_OPENCALL 0 0 (-1) no_set None (Some name) None.

Notation pir := (list pir_insn).

(** ** Compilation context *)

Record pctx := mk_pctx { err : option string; nlabels : Z; memo_counter : Z }.

Definition pctx_label (c : pctx) : Z * pctx := (nlabels c, mk_pctx (err c) (nlabels c + 1) (memo_counter c)).
Definition set_err (c : pctx) (name : string) : pctx :=
  mk_pctx (match err c with None => Some name | e => e end) (nlabels c) (memo_counter c).
Definition next_memo_id (c : pctx) : Z * pctx := (memo_counter c, mk_pctx (err c) (nlabels c) (memo_counter c + 1)).

(** ** Scanning the list *)

Definition is_label (i : pir_insn) : bool := bool_decide (p_op i = PIR_LABEL).
Definition is_op (o : vm_op) (i : pir_insn) : bool := bool_decide (p_op i = OP o).

(** Index of the next real instruction from the head of [l], [length l] if
    none. *)
Fixpoint skip_to_insn (l : pir) : nat :=
  match l with
  | [] => O
  | i :: l => if is_label i || is_op VM_NOP i then S (skip_to_insn l) else O
  end.

Definition next_insn_idx (p : pir) (from : nat) : nat := (from + skip_to_insn (drop from p))%nat.

(** The same index, and whether a label was skipped on the way. *)
Definition next_insn_label_idx (p : pir) (from : nat) : nat * bool :=
  let k := skip_to_insn (drop from p) in ((from + k)%nat, existsb is_label (take k (drop from p))).

(** ** Nodes *)

(** The ordered choice of two compiled branches.  [alt_test]: the branches
    start with disjoint one-byte matchers, and the test of the left one. *)
Definition alt_test (l r : pir) (l1 : Z) : bool * pir_insn :=
  let test := insn_basic VM_NOP in
  match l !! next_insn_idx l 0, r !! next_insn_idx r 0 with
  | Some x, Some y =>
      if is_op VM_SET x then
        (is_op VM_CHAR y && negb (vm_charset_has (p_set x) (u8 (p_a y))),
         insn_test_set VM_TEST_SET_NOCHOICE (p_set x) l1)
      else if is_op VM_CHAR x then
        ((if is_op VM_CHAR y then negb (p_a x =? p_a y)
          else is_op VM_SET y && negb (vm_charset_has (p_set y) (u8 (p_a x)))),
         insn_test_char VM_TEST_CHAR_NOCHOICE (u8 (p_a x)) l1)
      else (false, test)
  | _, _ => (false, test)
  end.

Definition code_alt (l r : pir) (l1 l2 : Z) : pir :=
  let '(disjoint, test) := alt_test l r l1 in
  (if disjoint then test :: drop 1 l ++ [insn_jump VM_JUMP l2]
   else insn_jump VM_CHOICE l1 :: l ++ [insn_jump VM_COMMIT l2])
  ++ insn_label l1 :: r ++ [insn_label l2].

Definition code_star (sub : pir) (l1 l2 : Z) : pir :=
  insn_jump VM_CHOICE l2 :: insn_label l1 :: sub ++ [insn_jump VM_PARTIAL_COMMIT l1; insn_label l2].

(** Repetition of a memoized pattern: tree memoization. *)
Definition code_memo_star (sub : pir) (l1 l2 l3 nojump id : Z) : pir :=
  insn_label l1 :: with_b (insn_jump VM_MEMO_TREE_OPEN l3) id :: insn_jump VM_CHOICE l2 :: sub ++
  [insn_jump VM_COMMIT nojump; insn_label nojump; insn_basic VM_MEMO_TREE_INSERT; insn_label l3;
   insn_basic VM_MEMO_TREE; insn_jump VM_JUMP l1; insn_label l2; insn_u8 VM_MEMO_TREE_CLOSE id].

Definition code_not (sub : pir) (l1 : Z) : pir :=
  insn_jump VM_CHOICE l1 :: sub ++ [insn_basic VM_FAIL_TWICE; insn_label l1].

Definition code_and (sub : pir) (l1 l2 : Z) : pir :=
  insn_jump VM_CHOICE l1 :: sub ++
  [insn_jump VM_BACK_COMMIT l2; insn_label l1; insn_basic VM_FAIL; insn_label l2].

(** Length of the leading run of constant-width matchers and its width. *)
Fixpoint const_prefix (l : pir) : nat * Z :=
  match l with
  | [] => (O, 0)
  | i :: l =>
      let '(n, w) := const_prefix l in
      if is_op VM_CHAR i || is_op VM_SET i then (S n, 1 + w)
      else if is_op VM_ANY i then (S n, p_a i + w)
      else (O, 0)
  end.

Definition code_cap (sub : pir) (id : Z) : pir :=
  let '(i, back) := const_prefix sub in
  if (i =? 0)%nat || (256 <=? back) then
    insn_u8 VM_CAPTURE_BEGIN id :: sub ++ [insn_basic VM_CAPTURE_END]
  else if (i =? length sub)%nat then sub ++ [with_b (insn_u8 VM_CAPTURE_FULL id) back]
  else take i sub ++ with_b (insn_u8 VM_CAPTURE_LATE id) back :: drop i sub ++ [insn_basic VM_CAPTURE_END].

Definition code_memo (sub : pir) (l1 id : Z) : pir :=
  with_b (insn_jump VM_MEMO_OPEN l1) id :: sub ++ [insn_basic VM_MEMO_CLOSE; insn_label l1].

Definition code_check (sub : pir) (l1 : Z) (fn : option vm_checker) (id flag : Z) : pir :=
  with_b (insn_u8 VM_CHECK_BEGIN id) flag :: sub ++ [with_fn (insn_basic VM_CHECK_END) fn; insn_label l1].

(** The skip set of a search whose pattern starts with a rare matcher. *)
Definition search_skip (sub : pir) : res (option vm_charset) :=
  match sub !! next_insn_idx sub 0 with
  | Some i =>
      if is_op VM_CHAR i then mret (Some (vm_charset_negate (one_set (u8 (p_a i)))))
      else if is_op VM_SET i then
        match vm_charset_count (p_set i) with
        | Some n => mret (if n <? 10 then Some (vm_charset_negate (p_set i)) else None)
        | None => Fuel
        end
      else mret None
  | None => mret None
  end.

(** [S <- sp / . rsearch; rsearch <- [skip]* S] *)
Definition search_grammar (sp : pat) (skip : option vm_charset) : string * list (string * pat) :=
  let rsearch := match skip with
                 | Some s => pat_concat [pat_star (pat_set s); pat_nonterm "S"]
                 | None => pat_nonterm "S"
                 end in
  ("S", [("S", pat_alt sp (pat_concat [pat_any 1; rsearch]))]).

(** ** Grammars *)

(** The bodies of the emitted definitions; [labels] has -1 for the others. *)
Fixpoint emit_defs (cp : pctx → pat → res (pir * pctx)) (c : pctx) (i : nat) (defs : list (string * pat))
    (startidx : nat) (used : list bool) : res (pir * list Z * pctx) :=
  match defs with
  | [] => mret ([], [], c)
  | (_, d) :: defs =>
      if negb (i =? startidx)%nat && negb (default false (used !! i)) then
        '(code, labels, c) ← emit_defs cp c (S i) defs startidx used; mret (code, -1 :: labels, c)
      else
        let '(l, c) := pctx_label c in
        '(fn, c) ← cp c d;
        '(code, labels, c) ← emit_defs cp c (S i) defs startidx used;
        mret (insn_label l :: fn ++ insn_basic VM_RETURN :: code, l :: labels, c)
  end.

(** Open calls become calls, or jumps in tail position.  [None] in the result:
    a name without an emitted definition, and the code up to there. *)
Fixpoint resolve_calls (n : nat) (i : nat) (defs : list (string * pat)) (labels : list Z) (code : pir)
    : pir * option (option string) :=
  match n with
  | O => (code, None)
  | S n =>
      match code !! i with
      | Some x =>
          if bool_decide (p_op x = PIR_OPENCALL) then
            match (name ← p_name x; di ← find_def defs name; l ← labels !! di; if l <? 0 then None else Some l) with
            | None => (code, Some (p_name x))
            | Some l =>
                let ni := next_insn_idx code (S i) in
                let tail := match code !! ni with Some y => is_op VM_RETURN y | None => false end in
                let code :=
                  if tail then
                    let code := <[i := insn_jump VM_JUMP l]> code in
                    let '(ri, hadlabel) := next_insn_label_idx code (S i) in
                    if negb hadlabel && (ri <? length code)%nat then <[ri := insn_basic VM_NOP]> code else code
                  else <[i := insn_jump VM_CALL l]> code in
                resolve_calls n (S i) defs labels code
            end
          else resolve_calls n (S i) defs labels code
      | None => (code, None)
      end
  end.

Definition compile_grammar (cp : pctx → pat → res (pir * pctx)) (c : pctx) (start : string)
    (defs : list (string * pat)) : res (pir * pctx) :=
  defs ← grammar_inline start defs;
  let '(used, any_used) := collect_used defs in
  match find_def defs start with
  | None => mret ([], set_err c start)
  | Some startidx =>
      if negb any_used then d ← must (snd <$> defs !! startidx); cp c d
      else
        let '(lend, c) := pctx_label c in
        '(body, labels, c) ← emit_defs cp c 0 defs startidx used;
        let code := insn_opencall start :: insn_jump VM_JUMP lend :: body in
        match resolve_calls (length code) 0 defs labels code with
        | (code, None) => mret (code ++ [insn_label lend], c)
        | (code, Some name) => mret (code, match name with Some n => set_err c n | None => c end)
        end
  end.

(** ** The compiler *)

(** The same sub-pattern compiled [n] times. *)
Fixpoint compile_repeat (cp : pctx → pat → res (pir * pctx)) (n : nat) (c : pctx) (p : pat) : res (pir * pctx) :=
  match n with
  | O => mret ([], c)
  | S n => '(sub, c) ← cp c p; '(rest, c) ← compile_repeat cp n c p; mret (sub ++ rest, c)
  end.

Fixpoint compile_pat (fuel : nat) (c : pctx) (p : pat) : res (pir * pctx) :=
  match fuel with
  | O => Fuel
  | S fuel =>
      let sub (c : pctx) (q : pat) := q ← get_pat q; compile_pat fuel c q in
      match p with
      | PAT_ALT l r =>
          lp ← get_pat l;
          rp ← get_pat r;
          match combine lp rp with
          | Some s => mret ([insn_set VM_SET s], c)
          | None =>
              '(l, c) ← compile_pat fuel c lp;
              '(r, c) ← compile_pat fuel c rp;
              let '(l1, c) := pctx_label c in
              let '(l2, c) := pctx_label c in
              mret (code_alt l r l1 l2, c)
          end
      | PAT_SEQ l r => '(l, c) ← sub c l; '(r, c) ← sub c r; mret (l ++ r, c)
      | PAT_STAR q =>
          sp ← get_pat q;
          match (sp : pat) with
          | PAT_CLASS s => mret ([insn_set VM_SPAN s], c)
          | PAT_MEMO q _ =>
              '(code, c) ← sub c q;
              let '(l1, c) := pctx_label c in
              let '(l2, c) := pctx_label c in
              let '(l3, c) := pctx_label c in
              let '(nojump, c) := pctx_label c in
              let '(id, c) := next_memo_id c in
              mret (code_memo_star code l1 l2 l3 nojump id, c)
          | _ =>
              '(code, c) ← compile_pat fuel c sp;
              let '(l1, c) := pctx_label c in
              let '(l2, c) := pctx_label c in
              mret (code_star code l1 l2, c)
          end
      | PAT_PLUS q =>
          sp ← get_pat q;
          '(star, c) ← compile_pat fuel c (pat_star sp);
          '(code, c) ← compile_pat fuel c sp;
          mret (code ++ star, c)
      | PAT_OPTIONAL q =>
          sp ← get_pat q;
          match literal1 sp, (sp : pat) with
          | Some b, _ =>
              let '(l1, c) := pctx_label c in
              mret ([insn_test_char VM_TEST_CHAR_NOCHOICE b l1; insn_label l1], c)
          | None, PAT_CLASS s =>
              let '(l1, c) := pctx_label c in
              mret ([insn_test_set VM_TEST_SET_NOCHOICE s l1; insn_label l1], c)
          | None, _ => compile_pat fuel c (pat_alt sp PAT_EMPTY)
          end
      | PAT_NOT q =>
          '(code, c) ← sub c q; let '(l1, c) := pctx_label c in mret (code_not code l1, c)
      | PAT_AND q =>
          '(code, c) ← sub c q;
          let '(l1, c) := pctx_label c in
          let '(l2, c) := pctx_label c in
          mret (code_and code l1 l2, c)
      | PAT_CAP q id => '(code, c) ← sub c q; mret (code_cap code id, c)
      | PAT_MEMO q id =>
          let '(l1, c) := pctx_label c in
          '(code, c) ← sub c q; mret (code_memo code l1 id, c)
      | PAT_CHECK q fn id flag =>
          let '(l1, c) := pctx_label c in
          '(code, c) ← sub c q; mret (code_check code l1 fn id flag, c)
      | PAT_SEARCH q =>
          sp ← get_pat q;
          '(code, c) ← compile_pat fuel c sp;
          skip ← search_skip code;
          let '(start, defs) := search_grammar sp skip in
          compile_grammar (compile_pat fuel) c start defs
      | PAT_GRAMMAR start defs => compile_grammar (compile_pat fuel) c start defs
      | PAT_CLASS s => mret ([insn_set VM_SET s], c)
      | PAT_LITERAL str => mret ((λ b, insn_u8 VM_CHAR (u8 b)) <$> str, c)
      | PAT_NONTERM _ (Some d) => compile_pat fuel c d
      | PAT_NONTERM name None => mret ([insn_opencall name], c)
      | PAT_DOT n => mret ([insn_u8 VM_ANY n], c)
      | PAT_ERROR msg recover =>
          let e := with_msg (insn_basic VM_ERROR) msg in
          match recover with
          | None => mret ([e; insn_u8 VM_END 1], c)
          | Some q => '(rec, c) ← compile_pat fuel c q; mret (e :: rec, c)
          end
      | PAT_EMPTYOP op => mret ([insn_u8 VM_EMPTY op], c)
      | PAT_EMPTY => mret ([], c)
      | PAT_REPEAT q n => compile_repeat (compile_pat fuel) (Z.to_nat n) c q
      end
  end.

(** ** Optimization *)

(** Label id -> index of its entry; the last entry wins. *)
Definition label_index (p : pir) : gmap Z nat :=
  fold_left (λ m '(i, x), if is_label x then <[p_a x := i]> m else m) (imap (λ i x, (i, x)) p) ∅.

(** Head-fail on a [Choice] and the slot after it. *)
Definition head_fail (x y : pir_insn) : option (pir_insn * pir_insn) :=
  let nop := with_op y VM_NOP in
  if is_op VM_CHAR y then Some (with_b (with_op x VM_TEST_CHAR) (p_a y), nop)
  else if is_op VM_SET y then Some (with_set (with_op x VM_TEST_SET) (p_set y), nop)
  else if is_op VM_ANY y then Some (with_b (with_op x VM_TEST_ANY) (p_a y), nop)
  else None.

Definition replaces_jump (x : pir_insn) : bool :=
  match p_op x with
  | OP (VM_PARTIAL_COMMIT | VM_BACK_COMMIT | VM_COMMIT | VM_JUMP | VM_RETURN | VM_FAIL | VM_FAIL_TWICE | VM_END) => true
  | _ => false
  end.

Definition optimize_at (labidx : gmap Z nat) (p : pir) (i : nat) : res pir :=
  x ← must (p !! i);
  let p := if is_op VM_CHOICE x then
             match (y ← p !! S i; head_fail x y) with
             | Some (x', y') => <[i := x']> (<[S i := y']> p)
             | None => p
             end
           else p in
  if is_op VM_JUMP x then
    from ← must (labidx !! p_label x);
    mret (match p !! next_insn_idx p from with
          | Some y => if replaces_jump y then <[i := y]> p else p
          | None => p
          end)
  else mret p.

Definition pat_optimize (p : pir) : res pir :=
  let labidx := label_index p in
  for_each (λ i p, optimize_at labidx p i) (seq 0 (length p)) p.

(** ** Encoding *)

Record encoder := mk_encoder {
  builder : vm_prog;
  lmap : gmap Z Z;                        (* IR label id -> builder label id *)
  echeckers : list (option vm_checker);   (* in emission order *)
}.

Definition enc_label (e : encoder) (ir_label : Z) : res (Z * encoder) :=
  if ir_label <? 0 then Undef
  else match lmap e !! ir_label with
       | Some l => mret (l, e)
       | None =>
           let '(l, b) := vm_prog_label (builder e) in
           mret (l, mk_encoder b (<[ir_label := l]> (lmap e)) (echeckers e))
       end.

Definition enc (i : pir_insn) (e : encoder) : res encoder :=
  let emit (b : vm_prog) : res encoder := mret (mk_encoder b (lmap e) (echeckers e)) in
  let emit_res (rb : res vm_prog) : res encoder := b ← rb; emit b in
  let emit_to (f : vm_prog → Z → vm_prog) : res encoder :=
    '(l, e) ← enc_label e (p_label i); mret (mk_encoder (f (builder e) l) (lmap e) (echeckers e)) in
  let emit_to_res (f : vm_prog → Z → res vm_prog) : res encoder :=
    '(l, e) ← enc_label e (p_label i); b ← f (builder e) l; mret (mk_encoder b (lmap e) (echeckers e)) in
  let b := builder e in
  match p_op i with
  | PIR_LABEL => '(l, e) ← enc_label e (p_a i); b ← vm_prog_mark (builder e) l; mret (mk_encoder b (lmap e) (echeckers e))
  | PIR_OPENCALL => Abort "internal: unresolved OpenCall in encoder"
  | OP VM_CHAR => emit (vm_emit_char b (u8 (p_a i)))
  | OP VM_JUMP => emit_to vm_emit_jump
  | OP VM_CHOICE => emit_to vm_emit_choice
  | OP VM_CALL => emit_to vm_emit_call
  | OP VM_COMMIT => emit_to vm_emit_commit
  | OP VM_RETURN => emit (vm_emit_return b)
  | OP VM_FAIL => emit (vm_emit_fail b)
  | OP VM_SET => emit_res (vm_emit_set b (p_set i))
  | OP VM_ANY => emit (vm_emit_any b (u8 (p_a i)))
  | OP VM_PARTIAL_COMMIT => emit_to vm_emit_partial_commit
  | OP VM_SPAN => emit_res (vm_emit_span b (p_set i))
  | OP VM_BACK_COMMIT => emit_to vm_emit_back_commit
  | OP VM_FAIL_TWICE => emit (vm_emit_fail_twice b)
  | OP VM_EMPTY => emit (vm_emit_empty b (u8 (p_a i)))
  | OP VM_TEST_CHAR => emit_to (λ b l, vm_emit_test_char b (u8 (p_b i)) l)
  | OP VM_TEST_CHAR_NOCHOICE => emit_to (λ b l, vm_emit_test_char_nochoice b (u8 (p_b i)) l)
  | OP VM_TEST_SET => emit_to_res (λ b l, vm_emit_test_set b (p_set i) l)
  | OP VM_TEST_SET_NOCHOICE => emit_to_res (λ b l, vm_emit_test_set_nochoice b (p_set i) l)
  | OP VM_TEST_ANY => emit_to (λ b l, vm_emit_test_any b (u8 (p_b i)) l)
  | OP VM_END => emit (vm_emit_end b (negb (p_a i =? 0)))
  | OP VM_NOP => mret e
  | OP VM_CAPTURE_BEGIN => emit (vm_emit_capture_begin b (i16 (p_a i)))
  | OP VM_CAPTURE_LATE => emit (vm_emit_capture_late b (u8 (p_b i)) (i16 (p_a i)))
  | OP VM_CAPTURE_END => emit (vm_emit_capture_end b)
  | OP VM_CAPTURE_FULL => emit (vm_emit_capture_full b (u8 (p_b i)) (i16 (p_a i)))
  | OP VM_CHECK_BEGIN => emit (vm_emit_check_begin b (i16 (p_a i)) (i16 (p_b i)))
  | OP VM_CHECK_END => mret (mk_encoder (vm_emit_check_end b) (lmap e) (echeckers e ++ [p_fn i]))
  | OP VM_MEMO_OPEN => emit_to (λ b l, vm_emit_memo_open b l (i16 (p_b i)))
  | OP VM_MEMO_CLOSE => emit (vm_emit_memo_close b)
  | OP VM_MEMO_TREE_OPEN => emit_to (λ b l, vm_emit_memo_tree_open b l (i16 (p_b i)))
  | OP VM_MEMO_TREE_INSERT => emit (vm_emit_memo_tree_insert b)
  | OP VM_MEMO_TREE => emit (vm_emit_memo_tree b)
  | OP VM_MEMO_TREE_CLOSE => emit (vm_emit_memo_tree_close b (i16 (p_a i)))
  | OP VM_ERROR => m ← must (p_msg i); emit (vm_emit_error b m)
  end.

(** ** Entry point *)

(** What [pat_compile] returns: the program, or NULL with the missing name. *)
Definition compiled := (string + vm_code)%type.

Definition open_name (code : pir) : option string :=
  head (omap (λ i, if bool_decide (p_op i = PIR_OPENCALL) then p_name i else None) code).

Definition pat_encode (code : pir) : res vm_code :=
  e ← for_each enc code (mk_encoder vm_prog_new ∅ []);
  out ← vm_prog_finish (builder e);
  mret (fold_left (λ c fn, (vm_code_add_checker c fn).2) (echeckers e) out).

(** [counter] is [pat_memo_counter] before and after. *)
Definition pat_compile (fuel : nat) (counter : Z) (p : pat) : res (compiled * Z) :=
  '(code, c) ← compile_pat fuel (mk_pctx None 0 counter) p;
  match (match err c with Some n => Some n | None => open_name code end) with
  | Some name => mret (inl name, memo_counter c)
  | None => code ← pat_optimize code; out ← pat_encode code; mret (inr out, memo_counter c)
  end.
