(* ===== verification/Peg.v ===== *)
(** * Peg: the end-to-end incremental parser (src/peg.c)

    [peg] is the program, the table's threshold and the subject buffer
    ([buf] is the [len] bytes in use, [cap] the allocation); the memo heap is
    threaded through the calls. *)
From S2P Require Import Prelude Charset Input Code ITree Memo Stack Vm Pattern Compile.

Record peg := mk_peg {
  pcode : vm_code;
  tbl : memo_table;
  peg_threshold : Z;
  buf : list Z;
  cap : Z;
}.

Definition peg_new (fuel : nat) (counter : Z) (p : pat) (memo_threshold : Z) (m : mem) : res (peg * mem * Z) :=
  '(r, counter) ← pat_compile fuel counter p;
  match (r : compiled) with
  | inl _ => Abort "peg_new: pattern failed to compile"
  | inr code =>
      let '(t, m) := memo_table_new memo_threshold m in
      mret (mk_peg code t memo_threshold [] 0, m, counter)
  end.

Definition peg_free (g : peg) (m : mem) : res mem := memo_table_free m.

(** Capacity after [buf_reserve(g, len)]: a [size_t] doubled until [len] fits.
    [fuel] bounds the doublings (theorem [buf_reserve_spec]). *)
Fixpoint grow (fuel : nat) (len cap : Z) : res Z :=
  if cap <? len then match fuel with O => Fuel | S fuel => grow fuel len (u64 (cap * 2)) end else mret cap.

Definition buf_reserve (g : peg) (len : Z) : res peg :=
  if len <=? cap g then mret g
  else
    c ← grow 64 len (if cap g =? 0 then 4096 else cap g);
    mret (mk_peg (pcode g) (tbl g) (peg_threshold g) (buf g) c).

Definition with_buf (g : peg) (b : list Z) : peg := mk_peg (pcode g) (tbl g) (peg_threshold g) b (cap g).

Definition peg_parse (fuel : nat) (g : peg) (data : list Z) (m : mem) : res (vm_result * peg * mem) :=
  g ← buf_reserve g (Z.of_nat (length data));
  let g := with_buf g data in
  m ← memo_table_free m;
  let '(t, m) := memo_table_new (peg_threshold g) m in
  let g := mk_peg (pcode g) t (peg_threshold g) (buf g) (cap g) in
  '(r, m) ← vm_exec fuel (pcode g) (buf g) (Some (tbl g)) (-1) (-1) m;
  mret (r, g, m).

Definition peg_edit (g : peg) (start end_ : Z) (text : list Z) (m : mem) : res (peg * mem) :=
  if (start <? 0) || (end_ <? start) || (Z.of_nat (length (buf g)) <? u64 end_)
  then Abort "peg_edit: range out of bounds"
  else
    let newlen := Z.of_nat (length (buf g)) - (end_ - start) + Z.of_nat (length text) in
    g ← buf_reserve g newlen;
    let g := with_buf g (take (Z.to_nat start) (buf g) ++ text ++ drop (Z.to_nat end_) (buf g)) in
    m ← memo_table_apply_edit (mk_edit start end_ (i32 (Z.of_nat (length text)))) m;
    mret (g, m).

Definition peg_reparse (fuel : nat) (g : peg) (m : mem) : res (vm_result * mem) :=
  vm_exec fuel (pcode g) (buf g) (Some (tbl g)) (-1) (-1) m.

Definition peg_capture_interval (fuel : nat) (g : peg) (low high : Z) (m : mem) : res (vm_result * mem) :=
  vm_exec fuel (pcode g) (buf g) (Some (tbl g)) low high m.

Definition peg_subject (g : peg) : list Z := buf g.
Definition peg_subject_len (g : peg) : Z := Z.of_nat (length (buf g)).
