(* ===== verification/Prettify.v ===== *)
(** * Prettify: the PEG-ish rendering of a pattern (src/pattern.c)

    The growable buffer is the list of bytes appended so far. *)
From S2P Require Import Prelude Charset Code Pattern Compile.

Definition str (s : string) : list Z := (λ c, Z.of_N (Ascii.N_of_ascii c)) <$> String.list_ascii_of_string s.

(** ["%d"] of a byte and ["%02x"]. *)
Definition digit (d : Z) : Z := if d <? 10 then 48 + d else 87 + d.
Definition dec (n : Z) : list Z :=
  if n <? 10 then [digit n]
  else if n <? 100 then [digit (n `div` 10); digit (n `mod` 10)]
  else [digit (n `div` 100); digit ((n `div` 10) `mod` 10); digit (n `mod` 10)].
Definition hex2 (n : Z) : list Z := [digit (n `div` 16); digit (n `mod` 16)].

Definition set_string_step (set : vm_charset) (s : bool * list Z) (c : Z) : bool * list Z :=
  let '(in_range, b) := s in
  let has := vm_charset_has set c in
  if has && (c =? 255) then (in_range, b ++ [c])
  else if has && negb in_range then
    (true, if vm_charset_has set (u8 (c + 1)) then b ++ [c; 46; 46] else b)
  else if negb has && in_range then (false, b ++ [c - 1; 44])
  else (in_range, b).

Definition set_string_inner (set : vm_charset) (b : list Z) : list Z :=
  let '(_, b) := fold_left (set_string_step set) (seqZ 0 256) (false, b) in
  match last b with Some c => if c =? 44 then take (length b - 1) b else b | None => b end.

Definition set_string (set : vm_charset) (b : list Z) : list Z := set_string_inner set (b ++ str "{") ++ str "}".

Definition literal_char (c : Z) : list Z :=
  if (c =? 34) || (c =? 92) then [92; c]
  else if (32 <=? c) && (c <? 127) then [c]
  else str "\x" ++ hex2 c.

Definition quoted (s : list Z) : list Z := [34] ++ (s ≫= λ c, literal_char (u8 c)) ++ [34].

(** One definition per line. *)
Fixpoint prettify_defs (pp : pat → list Z → res (list Z)) (defs : list (string * pat)) (b : list Z) : res (list Z) :=
  match defs with
  | [] => mret b
  | (n, d) :: defs => b ← pp d (b ++ str n ++ str " <- "); prettify_defs pp defs (b ++ [10])
  end.

Fixpoint prettify (fuel : nat) (p : pat) (b : list Z) : res (list Z) :=
  match fuel with
  | O => Fuel
  | S fuel =>
      let around pre q post := b ← prettify fuel q (b ++ str pre); mret (b ++ str post) in
      let binary l sep r :=
        b ← prettify fuel l (b ++ str "("); b ← prettify fuel r (b ++ str sep); mret (b ++ str ")") in
      p ← get_pat p;
      match (p : pat) with
      | PAT_LITERAL s => mret (b ++ quoted s)
      | PAT_CLASS s => mret (set_string s (b ++ str "[") ++ str "]")
      | PAT_DOT _ => mret (b ++ str ".")
      | PAT_EMPTY => mret (b ++ [34; 34])
      | PAT_ALT l r => binary l " / " r
      | PAT_SEQ l r => binary l " " r
      | PAT_STAR q => around "" q "*"
      | PAT_PLUS q => around "" q "+"
      | PAT_OPTIONAL q => around "" q "?"
      | PAT_NOT q => around "!" q ""
      | PAT_AND q => around "&" q ""
      | PAT_CAP q _ => around "{ " q " }"
      | PAT_MEMO q _ => around "{{ " q " }}"
      | PAT_SEARCH q => around "search(" q ")"
      | PAT_CHECK q _ _ _ => around "check(" q ")"
      | PAT_ERROR msg rec =>
          let b := b ++ str "err(" ++ str msg ++ str ", " in
          b ← (match rec with Some q => prettify fuel q b | None => mret (b ++ str "nil") end);
          mret (b ++ str ")")
      | PAT_EMPTYOP op => mret (b ++ str "empty(" ++ dec op ++ str ")")
      | PAT_GRAMMAR start defs =>
          defs ← grammar_inline start defs;
          prettify_defs (prettify fuel) defs (b ++ str start ++ [10])
      | PAT_NONTERM _ (Some d) => prettify fuel d b
      | PAT_NONTERM name None => mret (b ++ str name)
      | PAT_REPEAT _ _ => mret (b ++ str "<invalid>")
      end
  end.

Definition pat_prettify (fuel : nat) (p : pat) : res (list Z) := prettify fuel p [].

(** ** Reading a literal back *)

Definition undigit (c : Z) : option Z :=
  if (48 <=? c) && (c <=? 57) then Some (c - 48)
  else if (97 <=? c) && (c <=? 102) then Some (c - 87) else None.

(** The bytes up to the closing quote, and what follows it. *)
Fixpoint unquote_body (l : list Z) : option (list Z * list Z) :=
  match l with
  | [] => None
  | c :: l =>
      if c =? 34 then Some ([], l)
      else if c =? 92 then
        match l with
        | [] => None
        | e :: l =>
            if e =? 120 then
              match l with
              | h1 :: h2 :: l =>
                  x ← undigit h1; y ← undigit h2; '(s, rest) ← unquote_body l; Some (16 * x + y :: s, rest)
              | _ => None
              end
            else '(s, rest) ← unquote_body l; Some (e :: s, rest)
        end
      else '(s, rest) ← unquote_body l; Some (c :: s, rest)
  end.

Definition unquote (l : list Z) : option (list Z * list Z) :=
  match l with c :: l => if c =? 34 then unquote_body l else None | [] => None end.

Lemma undigit_digit d : 0 <= d < 16 → undigit (digit d) = Some d.
Proof. intros Hd. unfold undigit, digit. case_zb; cbn; try lia; f_equal; lia. Qed.

Lemma unquote_char c l s rest : is_byte c → unquote_body l = Some (s, rest) →
  unquote_body (literal_char c ++ l) = Some (c :: s, rest).
Proof.
  unfold is_byte. intros Hc Hl. unfold literal_char. destruct ((c =? 34) || (c =? 92)) eqn:E.
  - cbn [app unquote_body]. destruct (Z.eqb_spec c 120) as [-> |]; [done |]. cbn. by rewrite Hl.
  - apply orb_false_iff in E as [E1 E2]. destruct ((32 <=? c) && (c <? 127)).
    + cbn [app unquote_body]. rewrite E1, E2, Hl. done.
    + change (str "\x") with [92; 120]. unfold hex2. cbn [app unquote_body].
      rewrite !undigit_digit by (first [split; [apply Z.div_pos; lia | apply Z.div_lt_upper_bound; lia] | apply Z.mod_pos_bound; lia]).
      cbn. rewrite Hl. cbn. do 3 f_equal. symmetry. apply Z.div_mod. lia.
Qed.

(** C14. A printed literal can be read back: for every string of bytes,
    [pat_prettify] of the literal is one quoted token from which a reader that
    undoes the backslash escapes recovers exactly the bytes, and stops at the
    closing quote whatever follows. *)
Theorem prettify_literal_roundtrip (s rest : list Z) : Forall is_byte s →
  ∃ out, pat_prettify 1 (pat_literal s) = Ok out ∧ unquote (out ++ rest) = Some (s, rest).
Proof.
  intros Hs. exists (quoted s). split; [done |]. unfold quoted. cbn [app unquote Z.eqb Pos.eqb]. rewrite <- (assoc_L (++)).
  induction Hs as [|c s Hc _ IH]; [done |]. cbn [mbind list_bind]. rewrite <- (assoc_L (++)), u8_id by done.
  by apply unquote_char.
Qed.

(** A quote, a backslash, a control byte and a letter. *)
Lemma prettify_literal_roundtrip_witness :
  ∃ out, pat_prettify 1 (pat_literal [34; 92; 10; 97]) = Ok out ∧ unquote (out ++ [32]) = Some ([34; 92; 10; 97], [32]).
Proof. apply (prettify_literal_roundtrip [34; 92; 10; 97] [32]). repeat constructor; vm_compute; discriminate. Defined.
