(* ===== verification/Sem.v ===== *)
(** * Sem: what a pattern means

    The big-step semantics of parsing expressions over a flat subject:
    [matches env p i r] -- at position [i], pattern [p] matches up to [j]
    leaving the capture trees [ts] ([r = Some (j, ts)]), or fails ([r = None]),
    non-terminals standing for the definitions of [env]; [matches_at n] bounds
    the depth of non-terminal calls by [n].  It is the meaning
    include/peg/pattern.h documents for each constructor; memoization does not
    take part, a pattern that loops has no result, and [pat_error] without
    recovery ends the parse, so it has none either. *)
From S2P Require Import Prelude Charset Input Code ITree Memo Stack Vm Pattern.

(** ** Results *)

(** What a capture leaves: its id, where it starts, how long it is, and what
    was captured inside. *)
Inductive ptree := PNode (id start len : Z) (kids : list ptree).

Notation forest := (list ptree).

Definition parse := option (Z * forest).

(** A position, if any, with captures. *)
Definition yields (r : option Z) (ts : forest) : parse := (λ j, (j, ts)) <$> r.

(** The captures so far come first. *)
Definition after (ts : forest) (x : parse) : parse := prod_map id (app ts) <$> x.

Definition captured (id i : Z) (x : parse) : parse := (λ '(j, ts), (j, [PNode id i (j - i) ts])) <$> x.

Lemma yields_Some r ts j us : yields r ts = Some (j, us) → r = Some j ∧ us = ts.
Proof. destruct r; [| done]. by intros [= -> ->]. Qed.

Lemma after_Some ts x k us : after ts x = Some (k, us) → ∃ vs, x = Some (k, vs) ∧ us = ts ++ vs.
Proof. destruct x as [[j vs]|]; [| done]. intros [= -> <-]. by exists vs. Qed.

Lemma after_nil x : after [] x = x.
Proof. by destruct x as [[j vs]|]. Qed.

Lemma after_app ts us x : after ts (after us x) = after (ts ++ us) x.
Proof. destruct x as [[j vs]|]; [| done]. cbn. by rewrite (assoc_L (++)). Qed.

Lemma captured_Some id i x k us : captured id i x = Some (k, us) → ∃ ts, x = Some (k, ts) ∧ us = [PNode id i (k - i) ts].
Proof. destruct x as [[j ts]|]; [| done]. intros [= -> <-]. by exists ts. Qed.

Section Sem.
Context (d : list Z).

Definition dlen : Z := Z.of_nat (length d).

(** The byte matchers. *)
Definition class_match (s : vm_charset) (i : Z) : option Z :=
  match byte_at d i with Some b => if vm_charset_has s b then Some (i + 1) else None | None => None end.

Definition dot_match (n i : Z) : option Z := if (0 <=? n) && (0 <=? i) && (i + n <=? dlen) then Some (i + n) else None.

Fixpoint literal_match (str : list Z) (i : Z) : option Z :=
  match str with
  | [] => Some i
  | c :: str =>
      match byte_at d i with
      | Some b => if b =? u8 c then literal_match str (i + 1) else None
      | None => None
      end
  end.

Definition neighbour (i : Z) : Z := default (-1) (byte_at d i).

Definition emptyop_match (op i : Z) : option Z :=
  if negb (Z.land (empty_op_context (neighbour (i - 1)) (neighbour i)) op =? 0) then Some i else None.

(** The checker's verdict on a match of [i, j). *)
Definition check_match (fn : option vm_checker) (id flag i j : Z) : option Z :=
  match fn with
  | None => Some j
  | Some f =>
      let n := i32 (f (slice d i (j - i)) d id flag) in
      if n <? 0 then None else if dlen <? j + n then None else Some (j + n)
  end.

Definition def_of (env : list (string * pat)) (name : string) : option pat :=
  i ← find_def env name; snd <$> env !! i.

Inductive matches_at : nat → list (string * pat) → pat → Z → parse → Prop :=
| M_EMPTY n env i : matches_at n env PAT_EMPTY i (Some (i, []))
| M_CLASS n env s i : matches_at n env (PAT_CLASS s) i (yields (class_match s i) [])
| M_DOT n env k i : matches_at n env (PAT_DOT k) i (yields (dot_match k i) [])
| M_LITERAL n env str i : matches_at n env (PAT_LITERAL str) i (yields (literal_match str i) [])
| M_EMPTYOP n env op i : matches_at n env (PAT_EMPTYOP op) i (yields (emptyop_match op i) [])
| M_ALT_L n env l r i m : matches_at n env l i (Some m) → matches_at n env (PAT_ALT l r) i (Some m)
| M_ALT_R n env l r i x : matches_at n env l i None → matches_at n env r i x → matches_at n env (PAT_ALT l r) i x
| M_SEQ n env l r i j ts x : matches_at n env l i (Some (j, ts)) → matches_at n env r j x →
    matches_at n env (PAT_SEQ l r) i (after ts x)
| M_SEQ_F n env l r i : matches_at n env l i None → matches_at n env (PAT_SEQ l r) i None
| M_STAR n env p i j ts x : matches_at n env p i (Some (j, ts)) → matches_at n env (PAT_STAR p) j x →
    matches_at n env (PAT_STAR p) i (after ts x)
| M_STAR_0 n env p i : matches_at n env p i None → matches_at n env (PAT_STAR p) i (Some (i, []))
| M_PLUS n env p i j ts x : matches_at n env p i (Some (j, ts)) → matches_at n env (PAT_STAR p) j x →
    matches_at n env (PAT_PLUS p) i (after ts x)
| M_PLUS_F n env p i : matches_at n env p i None → matches_at n env (PAT_PLUS p) i None
| M_OPT n env p i m : matches_at n env p i (Some m) → matches_at n env (PAT_OPTIONAL p) i (Some m)
| M_OPT_0 n env p i : matches_at n env p i None → matches_at n env (PAT_OPTIONAL p) i (Some (i, []))
| M_NOT n env p i m : matches_at n env p i (Some m) → matches_at n env (PAT_NOT p) i None
| M_NOT_0 n env p i : matches_at n env p i None → matches_at n env (PAT_NOT p) i (Some (i, []))
| M_AND n env p i j ts : matches_at n env p i (Some (j, ts)) → matches_at n env (PAT_AND p) i (Some (i, ts))
| M_AND_F n env p i : matches_at n env p i None → matches_at n env (PAT_AND p) i None
| M_CAP n env p id i x : matches_at n env p i x → matches_at n env (PAT_CAP p id) i (captured id i x)
| M_MEMO n env p id i x : matches_at n env p i x → matches_at n env (PAT_MEMO p id) i x
| M_CHECK n env p fn id flag i j ts : matches_at n env p i (Some (j, ts)) →
    matches_at n env (PAT_CHECK p fn id flag) i (yields (check_match fn id flag i j) ts)
| M_CHECK_F n env p fn id flag i : matches_at n env p i None → matches_at n env (PAT_CHECK p fn id flag) i None
| M_GRAMMAR n env start defs p i x : def_of defs start = Some p → matches_at n defs p i x →
    matches_at n env (PAT_GRAMMAR start defs) i x
| M_SEARCH n env p i m : matches_at n env p i (Some m) → matches_at n env (PAT_SEARCH p) i (Some m)
| M_SEARCH_S n env p i x : matches_at n env p i None → i < dlen → matches_at n env (PAT_SEARCH p) (i + 1) x →
    matches_at n env (PAT_SEARCH p) i x
| M_SEARCH_F n env p i : matches_at n env p i None → dlen <= i → matches_at n env (PAT_SEARCH p) i None
| M_REPEAT_0 n env p k i : k <= 0 → matches_at n env (PAT_REPEAT p k) i (Some (i, []))
| M_REPEAT n env p k i j ts x : 0 < k → matches_at n env p i (Some (j, ts)) → matches_at n env (PAT_REPEAT p (k - 1)) j x →
    matches_at n env (PAT_REPEAT p k) i (after ts x)
| M_REPEAT_F n env p k i : 0 < k → matches_at n env p i None → matches_at n env (PAT_REPEAT p k) i None
| M_NONTERM n env name p i x : def_of env name = Some p → matches_at n env p i x →
    matches_at (S n) env (PAT_NONTERM name None) i x
| M_INLINED n env name p i x : matches_at n env p i x → matches_at n env (PAT_NONTERM name (Some p)) i x
| M_ERROR n env msg p i x : matches_at n env p i x → matches_at n env (PAT_ERROR msg (Some p)) i x.

Definition matches (env : list (string * pat)) (p : pat) (i : Z) (r : parse) : Prop :=
  ∃ n, matches_at n env p i r.

(** A pattern has at most one result at a position. *)
Lemma matches_at_fun n env p i x : matches_at n env p i x → ∀ m y, matches_at m env p i y → x = y.
Proof.
  induction 1; intros m' y Hy; inversion Hy; subst; try done; try lia;
    repeat match goal with
    | IH : ∀ m y, matches_at m ?env ?p ?i y → _ = y, H : matches_at _ ?env ?p ?i _ |- _ => apply IH in H; simplify_eq
    end; auto; naive_solver.
Qed.

Lemma matches_fun env p i x y : matches env p i x → matches env p i y → x = y.
Proof. intros [n H] [m H']. by eapply matches_at_fun. Qed.

Lemma matches_at_le n env p i x : matches_at n env p i x → ∀ m, (n <= m)%nat → matches_at m env p i x.
Proof.
  induction 1; intros n2 Hn2; try (econstructor; eauto; fail).
  destruct n2 as [|n2]; [lia |]. econstructor; [done |]. apply IHmatches_at. lia.
Qed.

Lemma literal_match_ge str i j : literal_match str i = Some j → j = i + Z.of_nat (length str).
Proof.
  revert i. induction str as [|c str IH]; intros i H; [injection H; cbn; lia |]. cbn [literal_match] in H.
  destruct (byte_at d i); [| done]. case_match; [| done]. apply IH in H. cbn [length]. lia.
Qed.

(** A match never ends before it starts. *)
Lemma matches_at_ge n env p i x : matches_at n env p i x → ∀ j ts, x = Some (j, ts) → i <= j.
Proof.
  induction 1; intros j' ts' E; try discriminate E;
    repeat match goal with
    | H : after _ _ = Some _ |- _ => apply after_Some in H as (? & ? & ?)
    | H : captured _ _ _ = Some _ |- _ => apply captured_Some in H as (? & ? & ?)
    | H : yields _ _ = Some _ |- _ => apply yields_Some in H as [H _]
    end; simplify_eq;
    repeat match goal with IH : ∀ j ts, Some (?k, ?us) = Some (j, ts) → _ |- _ => specialize (IH k us eq_refl) end;
    eauto; try lia.
  - unfold class_match in *. repeat case_match; simplify_eq. lia.
  - unfold dot_match in *. case_match; simplify_eq. zify_bool. lia.
  - apply literal_match_ge in E. lia.
  - unfold emptyop_match in *. case_match; simplify_eq. lia.
  - unfold check_match in *. repeat case_match; simplify_eq; zify_bool; lia.
Qed.

(** ** Equivalence of patterns *)

Definition sem_eq (p q : pat) : Prop := ∀ n env i x, matches_at n env p i x ↔ matches_at n env q i x.

#[export] Instance sem_eq_equiv : Equivalence sem_eq.
Proof.
  split; [done | intros p q H n env i x; symmetry; apply H | intros p q r H1 H2 n env i x; etrans; [apply H1 | apply H2]].
Qed.

Lemma star_mono n env p q : (∀ i x, matches_at n env p i x → matches_at n env q i x) →
  ∀ i x, matches_at n env (PAT_STAR p) i x → matches_at n env (PAT_STAR q) i x.
Proof.
  intros Hpq i x H. remember (PAT_STAR p) as s eqn:Es. revert Hpq.
  induction H; intros Hpq; try done; injection Es as ->; [eapply M_STAR | apply M_STAR_0]; eauto.
Qed.

#[export] Instance alt_proper : Proper (sem_eq ==> sem_eq ==> sem_eq) PAT_ALT.
Proof.
  intros p q H p' q' H' n env i x.
  split; inversion 1; subst; [apply M_ALT_L | apply M_ALT_R | apply M_ALT_L | apply M_ALT_R]; by (apply H || apply H').
Qed.

#[export] Instance seq_proper : Proper (sem_eq ==> sem_eq ==> sem_eq) PAT_SEQ.
Proof.
  intros p q H p' q' H' n env i x.
  split; inversion 1; subst; [eapply M_SEQ | apply M_SEQ_F | eapply M_SEQ | apply M_SEQ_F]; by (apply H || apply H').
Qed.

#[export] Instance star_proper : Proper (sem_eq ==> sem_eq) PAT_STAR.
Proof. intros p q H n env i x. split; apply star_mono; intros; by apply H. Qed.

#[export] Instance optional_proper : Proper (sem_eq ==> sem_eq) PAT_OPTIONAL.
Proof.
  intros p q H n env i x.
  split; inversion 1; subst; [apply M_OPT | apply M_OPT_0 | apply M_OPT | apply M_OPT_0]; by apply H.
Qed.

#[export] Instance not_proper : Proper (sem_eq ==> sem_eq) PAT_NOT.
Proof.
  intros p q H n env i x.
  split; inversion 1; subst; [eapply M_NOT | apply M_NOT_0 | eapply M_NOT | apply M_NOT_0]; by apply H.
Qed.

Lemma sem_eq_matches p q : sem_eq p q → ∀ env i x, matches env p i x ↔ matches env q i x.
Proof. intros H env i x. unfold matches. split; intros [n Hn]; exists n; by apply H. Qed.

End Sem.
