(* ===== verification/PegThms.v ===== *)
(** * PegThms: what incremental parsing and grammar compilation do at the edges

    Sessions of the incremental parser on concrete patterns, evaluated by the
    kernel: the cases in which a reparse disagrees with a fresh parse of the
    same subject, and grammars the compiler rejects or changes. *)
From S2P Require Import Prelude Charset Input Code ITree Memo Stack Vm Pattern Compile Peg Sem.

Definition str (s : string) : list Z := (λ a, Z.of_nat (Ascii.nat_of_ascii a)) <$> String.list_ascii_of_string s.

(** ** Sessions *)

Inductive session_step := Edit (start end_ : Z) (text : list Z) | Reparse.

Definition run_session_step (s : session_step) (gm : peg * mem) : res (peg * mem) :=
  match s with
  | Edit a b t => peg_edit gm.1 a b t gm.2
  | Reparse => '(_, m) ← peg_reparse 1000 gm.1 gm.2; mret (gm.1, m)
  end.

(** What a caller reads off a result. *)
Definition verdict (r : vm_result) : bool * Z := (success r, res_pos r).

(** Parse [d], replay [es], and reparse: the subject then, the verdict of the
    reparse and the verdict of a fresh parse of that subject. *)
Definition session (p : pat) (thr : Z) (d : list Z) (es : list session_step)
    : res (list Z * (bool * Z) * (bool * Z)) :=
  '(g, m, _) ← peg_new 100 10 p thr empty_mem;
  '(_, g, m) ← peg_parse 1000 g d m;
  '(g, m) ← for_each run_session_step es (g, m);
  '(r1, m) ← peg_reparse 1000 g m;
  '(r2, _, _) ← peg_parse 1000 g (peg_subject g) m;
  mret (peg_subject g, verdict r1, verdict r2).

(** C33. A memoized failure of [.^3] does not count the bytes it looked for as
    examined (advancing past the end does not move the furthest mark), so an
    insertion at the end of the subject does not evict the stale entry. *)
Theorem reparse_stale_any :
  session (PAT_MEMO (pat_alt (pat_any 3) (pat_any 1)) 0) 0 (str "ab") [Edit 2 2 (str "cd")]
  = Ok (str "abcd", (true, 1), (true, 3)).
Proof. vm_compute. reflexivity. Qed.

(** C34. A hit on an inner memo entry does not carry the inner lookahead over to
    the outer entry: the outer pattern is re-memoized with a too small examined
    extent, survives the next edit, and the reparse accepts what a fresh parse
    rejects. *)
Theorem reparse_stale_lookahead :
  session
    (PAT_MEMO (pat_seq (pat_any 1)
       (PAT_MEMO (pat_seq (pat_literal (str "a")) (pat_not (pat_literal (str "bcd")))) 0)) 1)
    0 (str "zabcx") [Edit 0 1 (str "w"); Reparse; Edit 4 5 (str "d")]
  = Ok (str "wabcd", (true, 2), (false, 5)).
Proof. vm_compute. reflexivity. Qed.

(** ** Grammars *)

Definition missing (p : pat) : option string :=
  match pat_compile 100 0 p with Ok (inl name, _) => Some name | _ => None end.

Definition program (p : pat) : list vm_insn :=
  match pat_compile 100 0 p with Ok (inr c, _) => prog c | _ => [] end.

(** C37. Definitions that exist are reported missing: a non-terminal under
    [pat_repeat] is not seen by the walk that collects the used definitions, and
    one under [pat_search] is looked up in the search's own grammar, whose single
    definition is [S]. *)
Theorem nonterminals_reported_missing :
  missing (pat_grammar "S" [("S", pat_repeat (pat_nonterm "A") 2); ("A", pat_literal (str "a"))]) = Some "A"%string ∧
  missing (pat_grammar "X" [("X", pat_search (pat_nonterm "Y"));
    ("Y", pat_alt (pat_literal (str "a")) (pat_seq (pat_literal (str "b")) (pat_nonterm "Y")))]) = Some "Y"%string.
Proof. split; vm_compute; reflexivity. Qed.

Definition shadowed : pat :=
  pat_grammar "S" [("S", pat_grammar "T" [("T", pat_nonterm "A"); ("A", pat_literal (str "b"))]);
                   ("A", pat_literal (str "a"))].

(** C36. A small leaf definition of the enclosing grammar is inlined for a
    non-terminal that a nested grammar defines itself: on [b] the program
    fails where the pattern matches. *)
Theorem nested_definition_overridden :
  program shadowed = [mk_insn VM_CHAR 97 0 None; mk_insn VM_END 0 0 None] ∧
  matches (str "b") [] shadowed 0 (Some (1, [])).
Proof.
  split; [vm_compute; reflexivity |].
  exists 1%nat. eapply M_GRAMMAR; [reflexivity |]. eapply M_GRAMMAR; [reflexivity |].
  eapply M_NONTERM; [reflexivity |]. apply (M_LITERAL (str "b") _ _ (str "b") 0).
Qed.

(** ** Memo ids *)

(** Two patterns memoized one after the other on a new counter. *)
Definition twice_memoized (p q : pat) : pat * pat :=
  let (p', counter) := pat_memo_id 0 p 0 in (p', (pat_memo counter q).1).

(** [A 'x' / B], [A] a ['b'], [B] an ['a'], both memoized. *)
Definition colliding : pat :=
  let (p, q) := twice_memoized (pat_literal (str "b")) (pat_literal (str "a")) in pat_alt (pat_seq p (pat_literal (str "x"))) q.

(** C38. [pat_memo_id] with the id the counter stands at does not move the
    counter (it tests for a greater id), so the next [pat_memo] hands the same id
    out again.  The table then answers for one pattern with the other's result:
    with every result stored, [A 'x' / B] fails on a subject that it matches, and
    matches when none is (the threshold is longer than the subject). *)
Theorem memo_ids_collide :
  twice_memoized (pat_literal (str "b")) (pat_literal (str "a")) =
    (PAT_MEMO (pat_literal (str "b")) 0, PAT_MEMO (pat_literal (str "a")) 0) ∧
  matches (str "a") [] colliding 0 (Some (1, [])) ∧
  session colliding 0 (str "a") [] = Ok (str "a", (false, 0), (false, 0)) ∧
  session colliding 5 (str "a") [] = Ok (str "a", (true, 1), (true, 1)).
Proof.
  split_and!; [reflexivity | | vm_compute; reflexivity | vm_compute; reflexivity].
  exists 1%nat. apply M_ALT_R; [apply M_SEQ_F |]; apply M_MEMO.
  - apply (M_LITERAL (str "a") _ _ (str "b") 0).
  - apply (M_LITERAL (str "a") _ _ (str "a") 0).
Qed.

(** ** The subject buffer *)

Lemma grow_spec fuel len cap : 0 < cap < 2 ^ 64 → len <= 2 ^ 63 → len <= cap * 2 ^ Z.of_nat fuel →
  ∃ c, grow fuel len cap = Ok c ∧ len <= c < 2 ^ 64 ∧ cap <= c ∧ (c = cap ∨ c < 2 * len).
Proof.
  revert cap. induction fuel as [|fuel IH]; intros cap Hc Hl Hf; cbn [grow].
  - destruct (Z.ltb_spec cap len); [cbn in Hf; lia |]. exists cap. split; [done | lia].
  - destruct (Z.ltb_spec cap len); [| exists cap; split; [done | lia]].
    rewrite Nat2Z.inj_succ, Z.pow_succ_r in Hf by lia.
    rewrite u64_id by (unfold is_u64; lia).
    destruct (IH (cap * 2)) as (c & Hg & H1 & H2 & H3); [lia.. |]. exists c. split; [done | lia].
Qed.

Lemma buf_reserve_ok (g : peg) (len : Z) : 0 <= cap g < 2 ^ 64 → 0 <= len <= 2 ^ 63 →
  ∃ g', buf_reserve g len = Ok g' ∧ len <= cap g' < 2 ^ 64 ∧ cap g <= cap g' ∧ buf g' = buf g ∧
    pcode g' = pcode g ∧ (cap g' = cap g ∨ cap g' = 4096 ∨ cap g' < 2 * len).
Proof.
  intros Hc Hl. unfold buf_reserve. destruct (Z.leb_spec len (cap g)); [exists g; split_and!; lia || done || by left |].
  destruct (grow_spec 64 len (if cap g =? 0 then 4096 else cap g)) as (c & Hg & H1 & H2 & H3);
    [destruct (Z.eqb_spec (cap g) 0); lia | lia | destruct (Z.eqb_spec (cap g) 0); lia |].
  rewrite Hg. cbn [mbind res_bind]. eexists. split; [done |]. cbn [cap buf pcode].
  destruct (Z.eqb_spec (cap g) 0); split_and!; lia || done.
Qed.

(** C31. The buffer always has room: for any capacity a [size_t] can hold and
    any length up to 2^63, [buf_reserve] stops within 64 doublings without
    wrapping around, gives a capacity of at least the length, never shrinks the
    buffer, keeps its contents, and allocates less than twice what is needed
    unless the first 4096 bytes are enough. *)
Theorem buf_reserve_spec (g : peg) (len : Z) : 0 <= cap g < 2 ^ 64 → 0 <= len <= 2 ^ 63 →
  ∃ g', buf_reserve g len = Ok g' ∧ len <= cap g' < 2 ^ 64 ∧ cap g <= cap g' ∧ buf g' = buf g ∧
    pcode g' = pcode g ∧ (cap g' = cap g ∨ cap g' = 4096 ∨ cap g' < 2 * len).
Proof. apply buf_reserve_ok. Qed.

Lemma buf_reserve_spec_witness :
  let g := mk_peg (mk_code [] [] [] [] []) (mk_table 0) 0 [] 0 in
  0 <= cap g < 2 ^ 64 ∧ ∃ g', buf_reserve g 5000 = Ok g' ∧ 5000 <= cap g' < 2 ^ 64.
Proof.
  split; [cbn; lia |].
  destruct (buf_reserve_spec (mk_peg (mk_code [] [] [] [] []) (mk_table 0) 0 [] 0) 5000) as (g' & H & Hc & _); [cbn; lia | lia |].
  by exists g'.
Defined.
