(* ===== verification/PatternFacts.v ===== *)
(** * PatternFacts: simplification is total and keeps the meaning *)
From S2P Require Import Prelude Charset Input Code ITree Memo Stack Vm Pattern Sem.

(** ** Totality of [get_pat] *)

Lemma pat_size_pos p : (1 <= pat_size p)%nat.
Proof. destruct p as [| | | | | | | | | | | | | | | ? [|] | | ? [|] | |]; cbn; lia. Qed.

Lemma get_pat_fuel_total fuel p : (pat_size p <= fuel)%nat →
  ∃ q, get_pat_fuel fuel p = Ok q ∧ (pat_size q <= pat_size p)%nat.
Proof.
  revert p. induction fuel as [|fuel IH]; intros p Hf; [pose proof (pat_size_pos p); lia |].
  destruct p as [l r | l r | | | q | | | | | | | | | | | name [q|] | | | |]; cbn [get_pat_fuel]; eauto.
  - cbn [pat_size] in Hf. destruct (IH l) as (l' & -> & Hl); [lia |].
    destruct (IH r) as (r' & -> & Hr); [lia |]. cbn_res.
    assert (∃ q, (match r' with PAT_EMPTY => get_pat_fuel fuel (pat_optional l') | _ =>
       mret match combine l' r' with Some s => pat_set s | None => PAT_ALT l r end end) = Ok q ∧
       (pat_size q <= S (pat_size l + pat_size r))%nat) as (q & Hq & Hs).
    { assert (∃ q, Ok match combine l' r' with Some s => pat_set s | None => PAT_ALT l r end = Ok q ∧
        (pat_size q <= S (pat_size l + pat_size r))%nat) as Hc.
      { eexists. split; [done |]. destruct (combine l' r'); cbn; lia. }
      destruct r'; try exact Hc. destruct (IH (pat_optional l')) as (q & -> & Hq).
      { cbn. pose proof (pat_size_pos r). lia. }
      exists q. split; [done |]. cbn in *. pose proof (pat_size_pos r). lia. }
    destruct l'; try (exists q; split; [exact Hq | cbn; lia]).
    exists r'. split; [by destruct r' | cbn; lia].
  - cbn [pat_size] in Hf. destruct (IH l) as (l' & -> & Hl); [lia |].
    destruct (IH r) as (r' & -> & Hr); [lia |]. cbn_res. eexists. split; [done |].
    pose proof (pat_size_pos l'). destruct l' as [| | | | | np | | | | | | | | | | | | | |], r'; cbn in *;
      repeat case_match; subst; cbn; lia.
  - cbn [pat_size] in Hf. destruct (IH q) as (s & -> & Hs); [lia |]. cbn_res.
    eexists. split; [done |]. destruct s; cbn in *; lia.
  - eexists. split; [done |]. cbn. lia.
Qed.

Lemma get_pat_fuel_le fuel fuel' p q : (fuel <= fuel')%nat →
  get_pat_fuel fuel p = Ok q → get_pat_fuel fuel' p = Ok q.
Proof.
  revert fuel' p q. induction fuel as [|fuel IH]; intros [|fuel'] p q Hle; try done; [lia |].
  assert (∀ p q, get_pat_fuel fuel p = Ok q → get_pat_fuel fuel' p = Ok q) as Hrec.
  { intros p' q'. apply IH. lia. }
  destruct p; try done; cbn [get_pat_fuel]; intros H; inv_bind;
    repeat match goal with H : get_pat_fuel fuel _ = Ok _ |- _ => rewrite (Hrec _ _ H); clear H end; cbn_res; try done.
  destruct x; try done; destruct x0; try done; by apply Hrec.
Qed.

Lemma get_pat_of_fuel fuel p q : (pat_size p <= fuel)%nat → get_pat_fuel fuel p = Ok q → get_pat p = Ok q.
Proof.
  intros Hf H. destruct (get_pat_fuel_total (pat_size p) p) as (q' & Hq & _); [done |].
  unfold get_pat. rewrite Hq. apply (get_pat_fuel_le _ fuel) in Hq; [| done]. congruence.
Qed.

(** ** Patterns the simplifier is sound for *)

(** Sets are well-formed, literals are bytes, and the left branch of no choice
    simplifies to the empty pattern (see [get_pat_drops_empty_choice]). *)
Fixpoint pat_ok (p : pat) : bool :=
  match p with
  | PAT_ALT l r => pat_ok l && pat_ok r && match get_pat l with Ok PAT_EMPTY => false | _ => true end
  | PAT_SEQ l r => pat_ok l && pat_ok r
  | PAT_STAR p | PAT_PLUS p | PAT_OPTIONAL p | PAT_NOT p | PAT_AND p | PAT_SEARCH p
  | PAT_CAP p _ | PAT_MEMO p _ | PAT_CHECK p _ _ _ | PAT_REPEAT p _ => pat_ok p
  | PAT_GRAMMAR _ defs => (fix all ds := match ds with [] => true | (_, d) :: ds => pat_ok d && all ds end) defs
  | PAT_CLASS s => bool_decide (charset_wf s)
  | PAT_LITERAL str => bool_decide (Forall is_byte str)
  | PAT_NONTERM _ (Some p) | PAT_ERROR _ (Some p) => pat_ok p
  | _ => true
  end.

Section Sound.
Context (d : list Z) (Hd : Forall is_byte d).
Notation matches_at := (matches_at d).
Notation sem_eq := (sem_eq d).

Lemma class_iff m env s i x : matches_at m env (PAT_CLASS s) i x ↔ x = yields (class_match d s i) [].
Proof. split; [by inversion 1 | intros ->; constructor]. Qed.

Lemma dot_iff m env n i x : matches_at m env (PAT_DOT n) i x ↔ x = yields (dot_match d n i) [].
Proof. split; [by inversion 1 | intros ->; constructor]. Qed.

Lemma literal_iff m env s i x : matches_at m env (PAT_LITERAL s) i x ↔ x = yields (literal_match d s i) [].
Proof. split; [by inversion 1 | intros ->; constructor]. Qed.

Lemma byte_at_byte i b : byte_at d i = Some b → is_byte b.
Proof. unfold byte_at. case_zb; [done |]. intros Hb. by apply (Forall_lookup_1 _ _ _ _ Hd) in Hb. Qed.

Lemma has_one c b : is_byte c → is_byte b → vm_charset_has (one_set c) b = (b =? c).
Proof.
  intros Hc Hb. unfold one_set. rewrite has_fill; [| by constructor | done].
  destruct (Z.eqb_spec b c); [apply bool_decide_eq_true | apply bool_decide_eq_false]; set_solver.
Qed.

Lemma one_set_wf c : is_byte c → charset_wf (one_set c).
Proof. intros. apply vm_charset_fill_wf. by constructor. Qed.

Lemma literal1_spec p b : literal1 p = Some b → pat_ok p = true → is_byte b ∧ sem_eq p (PAT_CLASS (one_set b)).
Proof.
  destruct p; try done. destruct str as [|c [|]]; try done. intros [= <-] Hok.
  apply bool_decide_eq_true in Hok. inversion Hok; subst. rewrite u8_id by done.
  split; [done |]. intros m env i x. rewrite literal_iff, class_iff. cbn [literal_match]. unfold class_match.
  destruct (byte_at d i) as [b|] eqn:Hb; [| done]. apply byte_at_byte in Hb.
  rewrite has_one, u8_id by done. done.
Qed.

(** *** The rewrite rules *)

Lemma alt_class a b : charset_wf a → charset_wf b →
  sem_eq (PAT_ALT (PAT_CLASS a) (PAT_CLASS b)) (PAT_CLASS (vm_charset_union a b)).
Proof.
  intros Ha Hb m env i x. rewrite class_iff.
  assert (class_match d (vm_charset_union a b) i =
    match class_match d a i with Some j => Some j | None => class_match d b i end) as ->.
  { unfold class_match. destruct (byte_at d i) as [c|] eqn:Hc; [| done]. apply byte_at_byte in Hc.
    rewrite has_union by done. by destruct (vm_charset_has a c), (vm_charset_has b c). }
  split.
  - inversion 1; subst; repeat match goal with H : matches_at _ _ (PAT_CLASS _) _ _ |- _ => apply class_iff in H end;
      by destruct (class_match d a i), (class_match d b i); simplify_eq.
  - intros ->. destruct (class_match d a i) eqn:E; [apply (M_ALT_L _ _ _ _ _ _ (_, [])) | apply M_ALT_R]; apply class_iff; by rewrite ?E.
Qed.

Lemma alt_comm_class a b : charset_wf a → charset_wf b →
  sem_eq (PAT_ALT (PAT_CLASS a) (PAT_CLASS b)) (PAT_CLASS (vm_charset_union b a)).
Proof.
  intros Ha Hb. etrans; [by apply alt_class |].
  replace (vm_charset_union b a) with (vm_charset_union a b); [done |].
  apply charset_ext; auto using vm_charset_union_wf. intros c Hc. rewrite !has_union by done. apply orb_comm.
Qed.

Lemma alt_empty l : sem_eq (PAT_ALT l PAT_EMPTY) (PAT_OPTIONAL l).
Proof.
  intros m env i x. split; inversion 1; subst; try by constructor.
  - match goal with H : matches_at _ _ PAT_EMPTY _ _ |- _ => inversion H; subst end. by apply M_OPT_0.
  - apply M_ALT_R; [done | constructor].
Qed.

(** A repetition does not fail. *)
Lemma star_some m env p i x : matches_at m env (PAT_STAR p) i x → ∃ y, x = Some y.
Proof.
  intros H. remember (PAT_STAR p) as s eqn:Es. induction H; try done; [| eauto].
  destruct (IHmatches_at2 Es) as [y ->]. by eexists.
Qed.

Lemma optional_star p : sem_eq (PAT_OPTIONAL (PAT_STAR p)) (PAT_STAR p).
Proof.
  intros m env i x. split.
  - inversion 1; subst; [done |].
    match goal with H : matches_at _ _ (PAT_STAR p) _ None |- _ => apply star_some in H as [? [=]] end.
  - intros H. destruct (star_some _ _ _ _ _ H) as [y ->]. by apply M_OPT.
Qed.

Lemma seq_empty_r p : sem_eq (PAT_SEQ p PAT_EMPTY) p.
Proof.
  intros m env i x. split.
  - inversion 1; subst; [| done]. match goal with H : matches_at _ _ PAT_EMPTY _ _ |- _ => inversion H; subst end.
    cbn. by rewrite app_nil_r.
  - destruct x as [[j ts]|]; intros H; [| by apply M_SEQ_F]. pose proof (M_SEQ d _ _ _ _ _ _ _ _ H (M_EMPTY d _ _ _)) as H'.
    cbn in H'. by rewrite app_nil_r in H'.
Qed.

Lemma seq_empty_l p : sem_eq (PAT_SEQ PAT_EMPTY p) p.
Proof.
  intros m env i x. split.
  - inversion 1; subst; match goal with H : matches_at _ _ PAT_EMPTY _ _ |- _ => inversion H; subst end.
    by rewrite after_nil.
  - intros H. rewrite <- after_nil. eapply M_SEQ; [constructor | done].
Qed.

(** [!s r] for a class [r] or any byte. *)
Lemma not_class s rs : charset_wf s → charset_wf rs →
  sem_eq (PAT_SEQ (PAT_NOT (PAT_CLASS s)) (PAT_CLASS rs)) (PAT_CLASS (vm_charset_sub rs s)).
Proof.
  intros Hs Hr m env i x. rewrite class_iff.
  assert (class_match d (vm_charset_sub rs s) i =
    match class_match d s i with Some _ => None | None => class_match d rs i end) as ->.
  { unfold class_match. destruct (byte_at d i) as [c|] eqn:Hc; [| done]. apply byte_at_byte in Hc.
    rewrite has_sub by done. by destruct (vm_charset_has s c), (vm_charset_has rs c). }
  split.
  - inversion 1; subst; match goal with H : matches_at _ _ (PAT_NOT _) _ _ |- _ => inversion H; subst end;
      repeat match goal with H : matches_at _ _ (PAT_CLASS _) _ _ |- _ => apply class_iff in H end; subst; rewrite ?after_nil;
      by destruct (class_match d s _).
  - intros ->. destruct (class_match d s i) as [j|] eqn:E.
    + apply M_SEQ_F, (M_NOT _ _ _ _ _ (j, [])). apply class_iff. by rewrite E.
    + rewrite <- after_nil. apply (M_SEQ _ _ _ _ _ _ i); [apply M_NOT_0 |]; apply class_iff; [by rewrite E | done].
Qed.

Lemma dot_class : sem_eq (PAT_DOT 1) (PAT_CLASS (vm_charset_negate charset_zero)).
Proof.
  intros m env i x. rewrite dot_iff, class_iff. unfold dot_match, class_match, dlen.
  destruct (byte_at d i) as [b|] eqn:Hb.
  - pose proof (byte_at_byte _ _ Hb). apply byte_at_Some in Hb.
    rewrite has_negate, has_zero by (done || apply charset_zero_wf). cbn. case_zb; done || lia.
  - case_zb; try done. cbn. destruct (byte_at_in d i) as [b Hb']; [lia | congruence].
Qed.

Lemma not_dot s : charset_wf s →
  sem_eq (PAT_SEQ (PAT_NOT (PAT_CLASS s)) (PAT_DOT 1)) (PAT_CLASS (vm_charset_negate s)).
Proof.
  intros Hs. etrans; [apply seq_proper; [reflexivity | apply dot_class] |].
  etrans; [apply not_class; [done | apply vm_charset_negate_wf, charset_zero_wf] |].
  replace (vm_charset_sub (vm_charset_negate charset_zero) s) with (vm_charset_negate s); [done |].
  pose proof (vm_charset_negate_wf _ charset_zero_wf).
  apply charset_ext; auto using vm_charset_negate_wf, vm_charset_sub_wf. intros c Hc.
  rewrite has_sub, !has_negate, has_zero by (done || apply charset_zero_wf). done.
Qed.

Lemma combine_spec p q s : combine p q = Some s → pat_ok p = true → pat_ok q = true →
  charset_wf s ∧ sem_eq (PAT_ALT p q) (PAT_CLASS s).
Proof.
  intros Hc Hp Hq. unfold combine in Hc. destruct (literal1 p) as [b|] eqn:Hlp.
  - destruct (literal1_spec _ _ Hlp Hp) as [Hb Hpe]. destruct q; try done.
    + injection Hc as <-. apply bool_decide_eq_true in Hq.
      split; [apply vm_charset_union_wf; auto using one_set_wf |].
      etrans; [apply alt_proper; [exact Hpe | reflexivity] |]. apply alt_comm_class; auto using one_set_wf.
    + destruct (literal1 (PAT_LITERAL str)) as [c|] eqn:Hlq; [| done]. injection Hc as <-.
      destruct (literal1_spec _ _ Hlq Hq) as [Hcb Hqe].
      assert (vm_charset_set (one_set b) c true = vm_charset_union (one_set b) (one_set c)) as ->.
      { apply charset_ext; auto using vm_charset_set_wf, vm_charset_union_wf, one_set_wf. intros x Hx.
        rewrite has_union, has_set, !has_one by auto using one_set_wf.
        destruct (decide (c = x)) as [-> |]; [by rewrite Z.eqb_refl, orb_true_r |].
        rewrite (proj2 (Z.eqb_neq x c)) by done. by rewrite orb_false_r. }
      split; [auto using vm_charset_union_wf, one_set_wf |].
      etrans; [apply alt_proper; [exact Hpe | exact Hqe] |]. apply alt_class; auto using one_set_wf.
  - destruct p; try done. apply bool_decide_eq_true in Hp. destruct q; try done.
    + injection Hc as <-. apply bool_decide_eq_true in Hq. split; [auto using vm_charset_union_wf | by apply alt_class].
    + destruct (literal1 (PAT_LITERAL str)) as [c|] eqn:Hlq; [| done]. injection Hc as <-.
      destruct (literal1_spec _ _ Hlq Hq) as [Hcb Hqe]. split; [auto using vm_charset_union_wf, one_set_wf |].
      etrans; [apply alt_proper; [reflexivity | exact Hqe] |]. apply alt_class; auto using one_set_wf.
Qed.

Lemma not_set_spec p s : not_set p = Some s → pat_ok p = true → charset_wf s ∧ sem_eq p (PAT_CLASS s).
Proof.
  destruct p; try done; cbn [not_set]; intros H Hok.
  - injection H as <-. by apply bool_decide_eq_true in Hok.
  - destruct (literal1 (PAT_LITERAL str)) as [b|] eqn:Hl; [| done]. injection H as <-.
    destruct (literal1_spec _ _ Hl Hok) as [Hb He]. split; [by apply one_set_wf | done].
Qed.

(** [get_pat]'s two-child cases, given sound simplified children. *)
Definition simplify_seq (p l r : pat) : pat :=
  match l, r with
  | _, PAT_EMPTY => l
  | PAT_EMPTY, _ => r
  | PAT_NOT np, _ =>
      match not_set np with
      | None => p
      | Some set =>
          match r with
          | PAT_DOT n => if n =? 1 then pat_set (vm_charset_negate set) else p
          | PAT_CLASS rs => pat_set (vm_charset_sub rs set)
          | PAT_LITERAL _ =>
              match literal1 r with
              | Some b => pat_set (vm_charset_sub (one_set b) set)
              | None => p
              end
          | _ => p
          end
      end
  | _, _ => p
  end.

Lemma simplify_seq_sound p l r : pat_ok p = true → pat_ok l = true → pat_ok r = true →
  sem_eq p (PAT_SEQ l r) → pat_ok (simplify_seq p l r) = true ∧ sem_eq p (simplify_seq p l r).
Proof.
  intros Hp Hl Hr He.
  assert (r = PAT_EMPTY → pat_ok l = true ∧ sem_eq p l) as He1.
  { intros ->. split; [done |]. etrans; [exact He | apply seq_empty_r]. }
  assert (l = PAT_EMPTY → pat_ok r = true ∧ sem_eq p r) as He2.
  { intros ->. split; [done |]. etrans; [exact He | apply seq_empty_l]. }
  destruct l as [| | | | | np | | | | | | | | | | | | | |];
    try (destruct r; cbn [simplify_seq]; by auto).
  cbn [pat_ok] in Hl. cbn [simplify_seq].
  destruct (not_set np) as [set|] eqn:Hns; [| destruct r; by auto].
  destruct (not_set_spec _ _ Hns Hl) as [Hwf Hnp].
  assert (sem_eq p (PAT_SEQ (PAT_NOT (PAT_CLASS set)) r)) as He3.
  { etrans; [exact He |]. apply seq_proper; [| reflexivity]. by apply not_proper. }
  destruct r; try by auto.
  - apply bool_decide_eq_true in Hr. split; [apply bool_decide_eq_true; by apply vm_charset_sub_wf |].
    etrans; [exact He3 | by apply not_class].
  - destruct (literal1 (PAT_LITERAL str)) as [b|] eqn:Hlit; [| by auto].
    destruct (literal1_spec _ _ Hlit Hr) as [Hb Hrb].
    split; [apply bool_decide_eq_true; auto using vm_charset_sub_wf, one_set_wf |].
    etrans; [exact He3 |]. etrans; [apply seq_proper; [reflexivity | exact Hrb] |].
    apply not_class; auto using one_set_wf.
  - destruct (Z.eqb_spec n 1) as [-> |]; [| by auto].
    split; [apply bool_decide_eq_true; by apply vm_charset_negate_wf |].
    etrans; [exact He3 | by apply not_dot].
Qed.

Lemma get_pat_fuel_sound fuel p q : get_pat_fuel fuel p = Ok q → pat_ok p = true →
  pat_ok q = true ∧ sem_eq p q.
Proof.
  revert p q. induction fuel as [|fuel IH]; intros p q H Hok; [done |].
  destruct p as [l r | l r | | | s | | | | | | | | | | | name [def|] | | | |];
    cbn [get_pat_fuel] in H; try by injection H as <-.
  - inv_bind. rename x into l', x0 into r', H0 into Hl, H1 into Hr. cbn [pat_ok] in Hok.
    apply andb_prop in Hok as [[Hokl Hokr]%andb_prop Hne].
    destruct (IH _ _ Hl Hokl) as [Hokl' Hel], (IH _ _ Hr Hokr) as [Hokr' Her].
    assert (sem_eq (PAT_ALT l r) (PAT_ALT l' r')) as He by by apply alt_proper.
    assert (l' ≠ PAT_EMPTY) as Hl'.
    { intros ->. destruct (get_pat_fuel_total (pat_size l) l) as (q' & Hq' & _); [done |].
      unfold get_pat in Hne. rewrite Hq' in Hne. 
      apply (get_pat_fuel_le _ (fuel + pat_size l)) in Hq'; [| lia].
      apply (get_pat_fuel_le _ (fuel + pat_size l)) in Hl; [| lia]. rewrite Hl in Hq'. by injection Hq' as <-. }
    assert (r' = PAT_EMPTY → get_pat_fuel fuel (pat_optional l') = Ok q → pat_ok q = true ∧ sem_eq (PAT_ALT l r) q) as Hopt.
    { intros -> H'. destruct (IH _ _ H' Hokl') as [Hq Heq]. split; [done |].
      etrans; [exact He |]. etrans; [apply alt_empty | exact Heq]. }
    assert (mret match combine l' r' with Some s => pat_set s | None => PAT_ALT l r end = Ok q →
      pat_ok q = true ∧ sem_eq (PAT_ALT l r) q) as Hcomb.
    { intros [= <-]. destruct (combine l' r') as [s|] eqn:Hc.
      - destruct (combine_spec _ _ _ Hc Hokl' Hokr') as [Hwf Hs].
        split; [by apply bool_decide_eq_true | by etrans].
      - split; [| done]. cbn [pat_ok]. by rewrite Hokl, Hokr. }
    destruct l', r'; auto; done.
  - inv_bind. rename x into l', x0 into r', H0 into Hl, H1 into Hr. cbn [pat_ok] in Hok.
    apply andb_prop in Hok as [Hokl Hokr].
    destruct (IH _ _ Hl Hokl) as [Hokl' Hel], (IH _ _ Hr Hokr) as [Hokr' Her].
    assert (sem_eq (PAT_SEQ l r) (PAT_SEQ l' r')) as He by by apply seq_proper.
    change (mret (simplify_seq (PAT_SEQ l r) l' r') = Ok q) in H. injection H as <-.
    apply simplify_seq_sound; try done. cbn [pat_ok]. by rewrite Hokl, Hokr.
  - inv_bind. rename x into s', H0 into Hs. destruct (IH _ _ Hs Hok) as [Hoks Hes].
    assert (q = s' ∧ (∃ s0, s' = PAT_STAR s0) ∨ q = PAT_OPTIONAL s) as [[-> [s0 ->]] | ->].
    { injection H as <-. destruct s'; eauto. }
    + split; [done |]. etrans; [by apply optional_proper |]. apply optional_star.
    + done.
  - injection H as <-. split; [done |]. intros m env i x. split; [by inversion 1 | by apply M_INLINED].
Qed.

End Sound.

(** C27. The simplifier always returns, with a pattern no larger than its
    argument. *)
Theorem get_pat_total p : ∃ q, get_pat p = Ok q ∧ (pat_size q <= pat_size p)%nat.
Proof. by apply get_pat_fuel_total. Qed.

(** C24. The simplifier keeps the meaning: on any subject and at any position,
    under any grammar, the simplified pattern matches exactly what the original
    matches, with the same captures, and fails exactly where it fails --
    provided no choice in it has a left branch that simplifies to the empty
    pattern. *)
Theorem get_pat_sound d p q : Forall is_byte d → pat_ok p = true → get_pat p = Ok q →
  ∀ env i x, matches d env p i x ↔ matches d env q i x.
Proof. intros Hd Hok H. apply sem_eq_matches. by destruct (get_pat_fuel_sound d Hd _ _ _ H Hok). Qed.

(** [!'b' . / 'c'] becomes one byte class, which still rejects [b]. *)
Lemma get_pat_sound_witness :
  let p := pat_alt (pat_seq (pat_not (pat_literal [98])) (pat_any 1)) (pat_literal [99]) in
  ∃ s, get_pat p = Ok (PAT_CLASS s) ∧
    ∀ env i x, matches [97; 98] env p i x ↔ matches [97; 98] env (PAT_CLASS s) i x.
Proof.
  eexists. split; [vm_compute; reflexivity |].
  apply (get_pat_sound [97; 98]).
  - apply (bool_decide_eq_true_1 _). vm_compute. reflexivity.
  - vm_compute. reflexivity.
  - vm_compute. reflexivity.
Defined.

(** C35. The rewriting of a choice with an empty left branch to its right
    branch is not meaning-preserving: [('' / 'a')] always matches the empty
    string, its simplification fails where there is no ['a']. *)
Theorem get_pat_drops_empty_choice :
  let p := pat_alt (pat_literal []) (pat_literal [97]) in
  let q := pat_alt PAT_EMPTY (pat_literal [97]) in
  (∀ env, matches [98] env q 0 (Some (0, []))) ∧
  get_pat q = Ok (pat_literal [97]) ∧ (∀ env, matches [98] env (pat_literal [97]) 0 None) ∧
  get_pat p = Ok p.
Proof.
  cbn zeta. split_and!; try reflexivity.
  - intros env. exists O. apply M_ALT_L. constructor.
  - intros env. exists O. apply (M_LITERAL [98] _ _ [97] 0).
Qed.
