(* ===== verification/Inline.v ===== *)
(** * Inline: grammar inlining terminates and keeps the meaning *)
From S2P Require Import Prelude Charset Input Code ITree Memo Stack Vm Pattern Sem.

(** ** Induction over patterns, their definitions and inlined bodies *)
Section PatInd.
Context (P : pat → Prop)
  (Halt : ∀ l r, P l → P r → P (PAT_ALT l r)) (Hseq : ∀ l r, P l → P r → P (PAT_SEQ l r))
  (Hstar : ∀ p, P p → P (PAT_STAR p)) (Hplus : ∀ p, P p → P (PAT_PLUS p))
  (Hopt : ∀ p, P p → P (PAT_OPTIONAL p)) (Hnot : ∀ p, P p → P (PAT_NOT p))
  (Hand : ∀ p, P p → P (PAT_AND p)) (Hcap : ∀ p id, P p → P (PAT_CAP p id))
  (Hmemo : ∀ p id, P p → P (PAT_MEMO p id)) (Hcheck : ∀ p fn id flag, P p → P (PAT_CHECK p fn id flag))
  (Hgram : ∀ start defs, Forall (λ nd, P nd.2) defs → P (PAT_GRAMMAR start defs))
  (Hsearch : ∀ p, P p → P (PAT_SEARCH p)) (Hrep : ∀ p n, P p → P (PAT_REPEAT p n))
  (Hclass : ∀ s, P (PAT_CLASS s)) (Hlit : ∀ s, P (PAT_LITERAL s))
  (Hnt : ∀ n, P (PAT_NONTERM n None)) (Hinl : ∀ n p, P p → P (PAT_NONTERM n (Some p)))
  (Hdot : ∀ n, P (PAT_DOT n)) (Herr : ∀ m, P (PAT_ERROR m None)) (Hrec : ∀ m p, P p → P (PAT_ERROR m (Some p)))
  (Heop : ∀ op, P (PAT_EMPTYOP op)) (Hempty : P PAT_EMPTY).

Fixpoint pat_ind' (p : pat) : P p :=
  match p with
  | PAT_ALT l r => Halt l r (pat_ind' l) (pat_ind' r)
  | PAT_SEQ l r => Hseq l r (pat_ind' l) (pat_ind' r)
  | PAT_STAR p => Hstar p (pat_ind' p)
  | PAT_PLUS p => Hplus p (pat_ind' p)
  | PAT_OPTIONAL p => Hopt p (pat_ind' p)
  | PAT_NOT p => Hnot p (pat_ind' p)
  | PAT_AND p => Hand p (pat_ind' p)
  | PAT_CAP p id => Hcap p id (pat_ind' p)
  | PAT_MEMO p id => Hmemo p id (pat_ind' p)
  | PAT_CHECK p fn id flag => Hcheck p fn id flag (pat_ind' p)
  | PAT_GRAMMAR start defs => Hgram start defs
      ((fix all ds : Forall (λ nd, P nd.2) ds :=
        match ds with
        | [] => Forall_nil_2 _
        | (n, d) :: ds => Forall_cons_2 _ (n, d) ds (pat_ind' d) (all ds)
        end) defs)
  | PAT_SEARCH p => Hsearch p (pat_ind' p)
  | PAT_REPEAT p n => Hrep p n (pat_ind' p)
  | PAT_CLASS s => Hclass s
  | PAT_LITERAL s => Hlit s
  | PAT_NONTERM n None => Hnt n
  | PAT_NONTERM n (Some p) => Hinl n p (pat_ind' p)
  | PAT_DOT n => Hdot n
  | PAT_ERROR m None => Herr m
  | PAT_ERROR m (Some p) => Hrec m p (pat_ind' p)
  | PAT_EMPTYOP op => Heop op
  | PAT_EMPTY => Hempty
  end.
End PatInd.

(** ** Counting what a walk reaches *)

Fixpoint unres (p : pat) : nat :=
  match p with
  | PAT_ALT l r | PAT_SEQ l r => unres l + unres r
  | PAT_STAR q | PAT_PLUS q | PAT_OPTIONAL q | PAT_NOT q | PAT_AND q | PAT_SEARCH q
  | PAT_CAP q _ | PAT_MEMO q _ | PAT_CHECK q _ _ _ => unres q
  | PAT_ERROR _ (Some q) | PAT_NONTERM _ (Some q) => unres q
  | PAT_GRAMMAR _ defs => (fix sum ds := match ds with [] => O | (_, d) :: ds => unres d + sum ds end) defs
  | PAT_NONTERM _ None => 1
  | _ => 0
  end%nat.

Definition unres_defs (defs : list (string * pat)) : nat := unres (PAT_GRAMMAR "" defs).

Lemma walk_unresolved p k : walk_pat unresolved_fn p k = (k + unres p)%nat.
Proof.
  revert k. induction p as [l r IHl IHr | l r IHl IHr | | | | | | | | | start defs IH | | | | | | | | | | |] using pat_ind';
    intros k; cbn [walk_pat unresolved_fn unres]; rewrite ?IHp, ?IHr, ?IHl; try lia.
  revert k. induction IH as [|[nm d] ds Hd _ IHds]; intros k; [lia |]. cbn in Hd. rewrite Hd, IHds. lia.
Qed.

Lemma walk_size_leaf p z b : (walk_pat count_size_leaf_fn p (z, b)).2 = b && (unres p =? 0)%nat.
Proof.
  assert (∀ acc : Z * bool, (walk_pat count_size_leaf_fn p acc).2 = acc.2 && (unres p =? 0)%nat) as H; [| apply (H (z, b))].
  induction p as [l r IHl IHr | l r IHl IHr | | | | | | | | | start defs IH | | | | | | | | | | |] using pat_ind';
    intros acc; cbn [walk_pat count_size_leaf_fn unres]; rewrite ?IHp, ?IHr, ?IHl; cbn [snd]; try by rewrite ?andb_true_r.
  - destruct (unres l), (unres r); cbn; by rewrite ?andb_true_r, ?andb_false_r.
  - destruct (unres l), (unres r); cbn; by rewrite ?andb_true_r, ?andb_false_r.
  - change acc.2 with (count_size_leaf_fn (PAT_GRAMMAR start defs) acc).2.
    generalize (count_size_leaf_fn (PAT_GRAMMAR start defs) acc) as acc'. clear acc.
    induction IH as [|[nm d] ds Hd _ IHds]; intros acc'; [by rewrite andb_true_r |]. cbn in Hd. rewrite IHds, Hd.
    destruct (unres d); cbn; by rewrite ?andb_true_r, ?andb_false_r.
  - by rewrite andb_false_r.
Qed.

(** A body chosen for inlining is a definition of that name without
    unresolved non-terminals. *)
Lemma inline_fn_spec defs name q :
  inline_fn defs ((λ d, size_leaf d.2) <$> defs) name = Some q → def_of defs name = Some q ∧ unres q = O.
Proof.
  unfold inline_fn, def_of. destruct (find_def defs name) as [i|]; [| done]. cbn.
  rewrite list_lookup_fmap. destruct (defs !! i) as [[nm d]|]; [| done]. cbn.
  destruct (walk_pat count_size_leaf_fn d (0, true)) as [z b] eqn:Hs.
  destruct ((z <? PAT_INLINE_THRESHOLD) && b) eqn:Hb; [| done]. intros [= <-].
  split; [done |]. apply andb_prop in Hb as [_ ->].
  pose proof (walk_size_leaf d 0 true) as H. rewrite Hs in H. cbn in H. symmetry in H. by apply Nat.eqb_eq in H.
Qed.

(** ** One pass *)

(** The rewritten definitions, as [walk_inline] computes them on a grammar. *)
Fixpoint walk_defs (body : string → option pat) (ds : list (string * pat)) : list (string * pat) * bool :=
  match ds with
  | [] => ([], false)
  | (n, q) :: ds =>
      let '(q, d1) := walk_inline body q in let '(ds, d2) := walk_defs body ds in ((n, q) :: ds, d1 || d2)
  end.

Lemma walk_inline_grammar body start defs :
  walk_inline body (PAT_GRAMMAR start defs) =
    (PAT_GRAMMAR start (walk_defs body defs).1, (walk_defs body defs).2).
Proof.
  cbn [walk_inline].
  assert (∀ ds, (fix go (ds : list (string * pat)) : list (string * pat) * bool :=
    match ds with
    | [] => ([], false)
    | (n, q) :: ds => let '(q, d1) := walk_inline body q in let '(ds, d2) := go ds in ((n, q) :: ds, d1 || d2)
    end) ds = walk_defs body ds) as Hgo.
  { induction ds as [|[n q] ds IH]; [done |]. cbn [walk_defs]. by rewrite <- IH. }
  rewrite Hgo. by destruct (walk_defs body defs).
Qed.

Lemma grammar_inline_once_eq start defs :
  grammar_inline_once start defs = walk_defs (inline_fn defs ((λ d, size_leaf d.2) <$> defs)) defs.
Proof. unfold grammar_inline_once. rewrite walk_inline_grammar. by destruct (walk_defs _ defs). Qed.

Section Walk.
Context (body : string → option pat).

Lemma walk_inline_unres p : (∀ n q, body n = Some q → unres q = O) →
  (unres (walk_inline body p).1 + (if (walk_inline body p).2 then 1 else 0) <= unres p)%nat.
Proof.
  intros Hbody.
  induction p as [l r IHl IHr | l r IHl IHr | | | | | | | | | start defs IH | | | | | n | | | | | |] using pat_ind';
    try rewrite walk_inline_grammar; cbn [walk_inline];
    repeat match goal with H : context [walk_inline body ?q] |- _ => destruct (walk_inline body q) as [? []] end;
    cbn [fst snd unres orb] in *; try lia.
  - induction IH as [|[nm d] ds Hd _ IHds]; [cbn; lia |]. cbn [walk_defs]. cbn [snd] in Hd.
    destruct (walk_inline body d) as [d' []], (walk_defs body ds) as [ds' []]; cbn [fst snd orb] in *; lia.
  - destruct (body n) as [q|] eqn:Hq; cbn [unres fst snd]; [| lia]. rewrite (Hbody _ _ Hq). lia.
Qed.

Lemma walk_defs_unres ds : (∀ n q, body n = Some q → unres q = O) →
  (unres_defs (walk_defs body ds).1 + (if (walk_defs body ds).2 then 1 else 0) <= unres_defs ds)%nat.
Proof.
  intros Hb. pose proof (walk_inline_unres (PAT_GRAMMAR "" ds) Hb) as H. by rewrite walk_inline_grammar in H.
Qed.

(** A pass that did nothing changed nothing. *)
Lemma walk_inline_id p : (walk_inline body p).2 = false → (walk_inline body p).1 = p.
Proof.
  induction p as [l r IHl IHr | l r IHl IHr | | | | | | | | | start defs IH | | | | | n | | | | | |] using pat_ind';
    try rewrite walk_inline_grammar; cbn [walk_inline];
    repeat match goal with H : context [walk_inline body ?q] |- _ => destruct (walk_inline body q) end;
    cbn [fst snd] in *; rewrite ?orb_false_iff; intros; repeat f_equal; try tauto.
  - match goal with H : (walk_defs body defs).2 = false |- _ => revert H end.
    induction IH as [|[nm d] ds Hd _ IHds]; [done |]. cbn [walk_defs]. cbn [snd] in Hd.
    destruct (walk_inline body d) as [d' d1], (walk_defs body ds) as [ds' d2]. cbn [fst snd] in *.
    intros [H1 H2]%orb_false_iff. rewrite Hd, IHds by done. done.
  - by destruct (body n).
Qed.

Lemma walk_defs_id ds : (walk_defs body ds).2 = false → (walk_defs body ds).1 = ds.
Proof.
  intros H. pose proof (walk_inline_id (PAT_GRAMMAR "" ds)) as Hid. rewrite walk_inline_grammar in Hid.
  specialize (Hid H). by injection Hid.
Qed.

End Walk.

(** ** The loop *)

Lemma inline_body_leaf defs n q : inline_fn defs ((λ d, size_leaf d.2) <$> defs) n = Some q → unres q = O.
Proof. intros H. by apply inline_fn_spec in H as [_ H]. Qed.

Lemma grammar_inline_fuel_total fuel start defs : (unres_defs defs <= fuel)%nat →
  ∃ defs', grammar_inline_fuel fuel start defs = Ok defs' ∧ (grammar_inline_once start defs').2 = false ∧
    (unres_defs defs' <= unres_defs defs)%nat.
Proof.
  revert defs. induction fuel as [|fuel IH]; intros defs Hf; cbn [grammar_inline_fuel];
    rewrite grammar_inline_once_eq; set (body := inline_fn defs _);
    pose proof (walk_defs_unres body defs (inline_body_leaf defs)) as Hw;
    pose proof (walk_defs_id body defs) as Hid;
    destruct (walk_defs body defs) as [ds did] eqn:Hd; cbn [fst snd] in Hw, Hid; destruct did; try lia.
  - exists ds. rewrite Hid in * by done. split; [done |]. by rewrite grammar_inline_once_eq; fold body; rewrite Hd.
  - destruct (IH ds) as (defs' & -> & H1 & H2); [lia |]. exists defs'. split_and!; done || lia.
  - exists ds. rewrite Hid in * by done. split; [done |]. by rewrite grammar_inline_once_eq; fold body; rewrite Hd.
Qed.

Lemma grammar_inline_ends start defs :
  ∃ defs', grammar_inline start defs = Ok defs' ∧ grammar_inline_once start defs' = (defs', false) ∧
    (unresolved (PAT_GRAMMAR start defs') <= unresolved (PAT_GRAMMAR start defs))%nat.
Proof.
  unfold grammar_inline, unresolved. rewrite !walk_unresolved.
  destruct (grammar_inline_fuel_total (unres_defs defs) start defs) as (defs' & H1 & H2 & H3); [done |].
  exists defs'. split; [exact H1 |]. rewrite walk_unresolved. split; [| exact H3].
  rewrite grammar_inline_once_eq in *.
  pose proof (walk_defs_id _ _ H2) as H4. destruct (walk_defs _ defs') as [ds did]. cbn in *. by subst.
Qed.

Lemma grammar_inline_inlines start defs : ∃ defs', grammar_inline start defs = Ok defs'.
Proof. destruct (grammar_inline_ends start defs) as (defs' & H & _). by exists defs'. Qed.

(** C26. Inlining terminates: the [while (grammar_inline_once(g));] loop runs
    at most once per unresolved non-terminal, ends where a further pass would
    change nothing, and never adds an unresolved non-terminal. *)
Theorem grammar_inline_total start defs :
  ∃ defs', grammar_inline start defs = Ok defs' ∧ grammar_inline_once start defs' = (defs', false) ∧
    (unresolved (PAT_GRAMMAR start defs') <= unresolved (PAT_GRAMMAR start defs))%nat.
Proof. apply grammar_inline_ends. Qed.
