(* ===== verification/Wf.v ===== *)
(** * Wf: the patterns the compiler is proved correct for

    What [wfp] asks is what the constructors' argument types guarantee (byte
    operands, 256-bit sets, 16-bit checker and capture ids) and the absence of the
    constructions the compiler is known to get wrong: a choice whose left branch
    simplifies to the empty pattern, non-terminals below [pat_repeat] and
    [pat_search], and grammars nested inside definitions (see [PegThms]). *)
From S2P Require Import Prelude Charset Input Code ITree Memo Stack Vm Pattern Sem PatternFacts Inline.

Definition is_empty (p : pat) : bool := match p with PAT_EMPTY => true | _ => false end.

(** Does the simplifier turn it into the empty pattern? *)
Fixpoint empties (p : pat) : bool :=
  match p with
  | PAT_EMPTY => true
  | PAT_ALT l r | PAT_SEQ l r => empties l && empties r
  | PAT_NONTERM _ (Some d) => is_empty d
  | _ => false
  end.

(** No non-terminal that an enclosing grammar must resolve. *)
Fixpoint closed (p : pat) : bool :=
  match p with
  | PAT_ALT l r | PAT_SEQ l r => closed l && closed r
  | PAT_STAR p | PAT_PLUS p | PAT_OPTIONAL p | PAT_NOT p | PAT_AND p | PAT_SEARCH p
  | PAT_CAP p _ | PAT_MEMO p _ | PAT_CHECK p _ _ _ | PAT_REPEAT p _
  | PAT_NONTERM _ (Some p) | PAT_ERROR _ (Some p) => closed p
  | PAT_NONTERM _ None => false
  | _ => true
  end.

(** No grammar inside. *)
Fixpoint flat (p : pat) : bool :=
  match p with
  | PAT_ALT l r | PAT_SEQ l r => flat l && flat r
  | PAT_STAR p | PAT_PLUS p | PAT_OPTIONAL p | PAT_NOT p | PAT_AND p | PAT_SEARCH p
  | PAT_CAP p _ | PAT_MEMO p _ | PAT_CHECK p _ _ _ | PAT_REPEAT p _
  | PAT_NONTERM _ (Some p) | PAT_ERROR _ (Some p) => flat p
  | PAT_GRAMMAR _ _ => false
  | _ => true
  end.

Definition byte_operand (n : Z) : bool := (0 <=? n) && (n <? 256).
Definition short_operand (n : Z) : bool := (- 2 ^ 15 <=? n) && (n <? 2 ^ 15).

Fixpoint wfp (p : pat) : bool :=
  match p with
  | PAT_ALT l r => wfp l && wfp r && negb (empties l)
  | PAT_SEQ l r => wfp l && wfp r
  | PAT_STAR p | PAT_PLUS p | PAT_OPTIONAL p | PAT_NOT p | PAT_AND p
  | PAT_MEMO p _ | PAT_ERROR _ (Some p) => wfp p
  | PAT_CAP p id => wfp p && short_operand id
  | PAT_CHECK p _ id flag => wfp p && short_operand id && short_operand flag
  | PAT_SEARCH p | PAT_REPEAT p _ => wfp p && closed p
  | PAT_GRAMMAR _ defs =>
      (fix all ds := match ds with
                     | [] => true
                     | (_, d) :: ds => wfp d && flat d && negb (is_empty d) && all ds
                     end) defs
  | PAT_CLASS s => bool_decide (charset_wf s)
  | PAT_LITERAL str => bool_decide (Forall is_byte str)
  | PAT_NONTERM _ (Some q) => wfp q && closed q && flat q && negb (is_empty q)
  | PAT_DOT n | PAT_EMPTYOP n => byte_operand n
  | _ => true
  end.

(** A definition of a well-formed grammar. *)
Definition wf_def (d : pat) : bool := wfp d && flat d && negb (is_empty d).

Lemma wfp_grammar start defs : wfp (PAT_GRAMMAR start defs) = forallb (λ nd, wf_def nd.2) defs.
Proof.
  cbn [wfp]. induction defs as [|[n d] ds IH]; [done |]. cbn [forallb snd]. by rewrite IH.
Qed.

Lemma forallb_lookup {A} (f : A → bool) l i x : forallb f l = true → l !! i = Some x → f x = true.
Proof. intros H Hi. rewrite forallb_forall in H. apply H. by apply list_elem_of_In, (list_elem_of_lookup_2 _ i). Qed.

Lemma wf_def_of defs name p : forallb (λ nd, wf_def nd.2) defs = true → def_of defs name = Some p → wf_def p = true.
Proof.
  intros H Hd. unfold def_of in Hd. inv_bind. apply fmap_Some in Hd as ([n q] & Hq & ->).
  by apply (forallb_lookup _ _ _ _ H) in Hq.
Qed.

(** ** The simplifier keeps well-formedness *)

Ltac bools := repeat match goal with
  | H : _ && _ = true |- _ => apply andb_prop in H; destruct H
  | H : negb _ = true |- _ => apply negb_true_iff in H
  end.

Lemma get_pat_optional_nonempty fuel q : get_pat_fuel fuel (PAT_OPTIONAL q) ≠ Ok PAT_EMPTY.
Proof. destruct fuel as [|fuel]; [done |]. cbn [get_pat_fuel]. intros H. inv_bind. by destruct x. Qed.

Lemma get_pat_fuel_empties fuel p : get_pat_fuel fuel p = Ok PAT_EMPTY → empties p = true.
Proof.
  revert p. induction fuel as [|fuel IH]; intros p H; [done |].
  destruct p as [l r | l r | | | q | | | | | | | | | | | name [q|] | | | |]; try done; cbn [get_pat_fuel] in H; inv_bind.
  - cbn [empties]. rename x into l', x0 into r', H0 into Hl, H1 into Hr.
    assert (mret match combine l' r' with Some s => pat_set s | None => PAT_ALT l r end ≠ Ok PAT_EMPTY) as Hc
      by (by destruct (combine l' r')).
    pose proof (get_pat_optional_nonempty fuel l') as Ho.
    destruct l', r'; try done. by rewrite (IH _ Hl), (IH _ Hr).
  - cbn [empties]. rename x into l', x0 into r', H0 into Hl, H1 into Hr.
    destruct l', r'; cbn in H; try done; try (by rewrite (IH _ Hl), (IH _ Hr)); repeat case_match; done.
  - destruct x; done.
  - injection H as ->. done.
Qed.

Lemma wfp_pat_ok p : wfp p = true → pat_ok p = true.
Proof.
  induction p as [l r IHl IHr | l r IHl IHr | | | | | | | | | start defs IH | | | | | | | | | | |] using pat_ind';
    try rewrite wfp_grammar; cbn [wfp pat_ok]; intros H; bools; try by auto.
  - rewrite IHl, IHr by done. cbn. destruct (get_pat l) as [[]| | |] eqn:E; try done.
    apply get_pat_fuel_empties in E. congruence.
  - by rewrite IHl, IHr by done.
  - induction IH as [|[n q] ds Hd _ IHds]; [done |]. cbn in H, Hd. unfold wf_def in H. bools.
    rewrite Hd by done. by apply IHds.
Qed.

(** A subset of the nodes' conditions carried through the simplifier. *)
Definition keeps (p q : pat) : Prop :=
  wfp q = true ∧ (closed p = true → closed q = true) ∧ (flat p = true → flat q = true).

Lemma keeps_refl p : wfp p = true → keeps p p.
Proof. by repeat split. Qed.

Lemma simplify_seq_shape p l r : simplify_seq p l r = p ∨ simplify_seq p l r = l ∨ simplify_seq p l r = r ∨
  ∃ s, simplify_seq p l r = PAT_CLASS s.
Proof. destruct l, r; cbn; auto; repeat case_match; eauto. Qed.

Lemma get_pat_fuel_keeps fuel p q : get_pat_fuel fuel p = Ok q → wfp p = true → keeps p q.
Proof.
  revert p q. induction fuel as [|fuel IH]; intros p q H Hwf; [done |].
  assert (∀ s, q = PAT_CLASS s → keeps p q) as Hclass.
  { intros s ->. destruct (get_pat_fuel_sound [] ltac:(done) _ _ _ H (wfp_pat_ok _ Hwf)) as [Hok _].
    by repeat split. }
  destruct p as [l r | l r | | | s | | | | | | | | | | | name [def|] | | | |];
    cbn [get_pat_fuel] in H; try (injection H as <-; by apply keeps_refl).
  - inv_bind. rename x into l', x0 into r', H0 into Hl, H1 into Hr. cbn [wfp] in Hwf. bools.
    assert (keeps (PAT_ALT l r) (PAT_ALT l r)) as Href by (apply keeps_refl; cbn [wfp]; by rewrite H0, H1, H2).
    destruct (IH _ _ Hl) as (Hwl & Hcl & Hfl), (IH _ _ Hr) as (Hwr & Hcr & Hfr); try done.
    assert (keeps (PAT_ALT l r) l' ∧ keeps (PAT_ALT l r) r') as [Hkl Hkr].
    { unfold keeps. cbn [closed flat]. split; (split; [done |]); split; intros; bools; auto. }
    assert (mret match combine l' r' with Some s => pat_set s | None => PAT_ALT l r end = Ok q →
      keeps (PAT_ALT l r) q) as Hcomb.
    { intros [= <-]. destruct (combine l' r') as [s|]; [by eapply Hclass | done]. }
    assert (get_pat_fuel fuel (pat_optional l') = Ok q → keeps (PAT_ALT l r) q) as Hopt.
    { intros Hq. destruct (IH _ _ Hq) as (Hw & Hc & Hf); [done |]. destruct Hkl as (_ & Hkc & Hkf).
      split; [done |]. split; intros; [apply Hc, Hkc | apply Hf, Hkf]; done. }
    destruct l'; [.. | by injection H as <-]; destruct r'; auto.
  - inv_bind. rename x into l', x0 into r', H0 into Hl, H1 into Hr.
    change (mret (simplify_seq (PAT_SEQ l r) l' r') = Ok q) in H. injection H as Hq.
    pose proof (keeps_refl _ Hwf) as Href. cbn [wfp] in Hwf. bools.
    destruct (IH _ _ Hl) as (Hwl & Hcl & Hfl), (IH _ _ Hr) as (Hwr & Hcr & Hfr); try done.
    destruct (simplify_seq_shape (PAT_SEQ l r) l' r') as [E | [E | [E | [s E]]]]; rewrite E in Hq; subst q;
      [done | | | by eapply Hclass];
      unfold keeps; cbn [closed flat]; (split; [done |]); split; intros; bools; auto.
  - inv_bind. rename x into s', H0 into Hs. destruct (IH _ _ Hs Hwf) as (Hw & Hc & Hf).
    destruct s'; injection H as <-; try by apply keeps_refl. by repeat split.
  - injection H as <-. cbn [wfp] in Hwf. bools. by repeat split.
Qed.

Lemma get_pat_keeps p q : get_pat p = Ok q → wfp p = true → keeps p q.
Proof. apply get_pat_fuel_keeps. Qed.

Lemma get_pat_matches d p q : Forall is_byte d → wfp p = true → get_pat p = Ok q → sem_eq d p q.
Proof. intros Hd Hwf H. by destruct (get_pat_fuel_sound d Hd _ _ _ H (wfp_pat_ok _ Hwf)). Qed.
