(* ===== verification/InlineSound.v ===== *)
(** * InlineSound: inlining keeps the meaning of a well-formed grammar *)
From S2P Require Import Prelude Charset Input Code ITree Memo Stack Vm Pattern Sem PatternFacts Inline Wf.

Lemma closed_of_unres p : wfp p = true → flat p = true → unres p = O → closed p = true.
Proof.
  induction p as [l r IHl IHr | l r IHl IHr | | | | | | | | | start defs IH | | | | | | | | | | |] using pat_ind';
    cbn [wfp flat unres closed]; intros; bools; try done; auto with lia.
  - rewrite IHl, IHr by (done || lia). done.
  - rewrite IHl, IHr by (done || lia). done.
Qed.

Section Pass.
Context (body : string → option pat) (defs : list (string * pat)).
Context (Hwf : forallb (λ nd, wf_def nd.2) defs = true)
  (Hbody : ∀ nm q, body nm = Some q → def_of defs nm = Some q ∧ closed q = true).

(** The rewritten pattern. *)
Definition wi (p : pat) : pat := (walk_inline body p).1.

Lemma wi_eq p : wi p = match p with
  | PAT_ALT l r => PAT_ALT (wi l) (wi r)
  | PAT_SEQ l r => PAT_SEQ (wi l) (wi r)
  | PAT_STAR q => PAT_STAR (wi q)
  | PAT_PLUS q => PAT_PLUS (wi q)
  | PAT_OPTIONAL q => PAT_OPTIONAL (wi q)
  | PAT_NOT q => PAT_NOT (wi q)
  | PAT_AND q => PAT_AND (wi q)
  | PAT_SEARCH q => PAT_SEARCH (wi q)
  | PAT_CAP q id => PAT_CAP (wi q) id
  | PAT_MEMO q id => PAT_MEMO (wi q) id
  | PAT_CHECK q fn id flag => PAT_CHECK (wi q) fn id flag
  | PAT_ERROR msg (Some q) => PAT_ERROR msg (Some (wi q))
  | PAT_GRAMMAR start defs => PAT_GRAMMAR start (walk_defs body defs).1
  | PAT_NONTERM name None => PAT_NONTERM name (body name)
  | PAT_NONTERM name (Some q) => PAT_NONTERM name (Some (wi q))
  | _ => p
  end.
Proof.
  unfold wi. destruct p as [| | | | | | | | | | start ds | | | | | name [q|] | | msg [q|] | |];
    try rewrite walk_inline_grammar; cbn [walk_inline]; try done;
    repeat match goal with |- context [walk_inline body ?q] => destruct (walk_inline body q) end; try done.
  by destruct (body name).
Qed.

Lemma wi_closed p : closed p = true → flat p = true → wi p = p.
Proof.
  induction p using pat_ind'; rewrite wi_eq; cbn [closed flat]; intros; bools; repeat f_equal; auto; done.
Qed.

Ltac splits := repeat match goal with |- _ ∧ _ => split end.

Ltac use_ihs := repeat match goal with
  | IH : wfp ?p = true → flat ?p = true → _ |- _ => specialize (IH ltac:(done) ltac:(done)); destruct IH as (? & ? & ? & ? & ?)
  end.

Lemma wi_keeps p : wfp p = true → flat p = true →
  wfp (wi p) = true ∧ flat (wi p) = true ∧ (closed p = true → closed (wi p) = true) ∧
  empties (wi p) = empties p ∧ is_empty (wi p) = is_empty p.
Proof.
  induction p as [l r IHl IHr | l r IHl IHr | | | | | | | | | start ds IH | | | | | n | | | | | |] using pat_ind';
    rewrite wi_eq; cbn [wfp flat closed empties is_empty]; intros; bools; try done; use_ihs;
    try (splits; intros; bools; rewrite ?andb_true_iff, ?negb_true_iff; splits; auto; congruence).
  destruct (body n) as [q|] eqn:Hq; [| done]. destruct (Hbody _ _ Hq) as [Hdq Hcq].
  apply (wf_def_of _ _ _ Hwf) in Hdq. unfold wf_def in Hdq. bools.
  rewrite !andb_true_iff, negb_true_iff. splits; done.
Qed.

(** The rewritten definitions. *)
Definition wi_defs : list (string * pat) := (walk_defs body defs).1.

Lemma walk_defs_map ds : (walk_defs body ds).1 = (λ nd, (nd.1, wi nd.2)) <$> ds.
Proof.
  induction ds as [|[n q] ds IH]; [done |]. rewrite fmap_cons, <- IH. cbn [walk_defs fst snd]. unfold wi.
  by destruct (walk_inline body q), (walk_defs body ds).
Qed.

Lemma find_def_map (f : pat → pat) ds name : find_def ((λ nd, (nd.1, f nd.2)) <$> ds) name = find_def ds name.
Proof. induction ds as [|[n q] ds IH]; [done |]. cbn. by rewrite IH. Qed.

Lemma def_of_map (f : pat → pat) ds name : def_of ((λ nd, (nd.1, f nd.2)) <$> ds) name = f <$> def_of ds name.
Proof.
  unfold def_of. rewrite find_def_map. destruct (find_def ds name) as [k|]; [| done]. cbn.
  rewrite list_lookup_fmap. by destruct (ds !! k) as [[]|].
Qed.

Lemma def_of_wi name p : def_of defs name = Some p → def_of wi_defs name = Some (wi p).
Proof. intros H. unfold wi_defs. by rewrite walk_defs_map, def_of_map, H. Qed.

Lemma wi_defs_wf : forallb (λ nd, wf_def nd.2) wi_defs = true.
Proof.
  unfold wi_defs. rewrite walk_defs_map. rewrite forallb_forall. intros [n q] Hin.
  apply list_elem_of_In, list_elem_of_fmap in Hin as ([m r] & [= -> ->] & Hin%list_elem_of_In).
  pose proof Hwf as Hr. rewrite forallb_forall in Hr. specialize (Hr _ Hin). cbn in *. unfold wf_def in *. bools.
  destruct (wi_keeps r) as (-> & -> & _ & _ & ->); try done. by rewrite H0.
Qed.

Lemma inline_pass d n env p i x : matches_at d n env p i x → env = defs → wfp p = true → flat p = true →
  matches_at d n wi_defs (wi p) i x.
Proof.
  induction 1; intros He Hp Hf; try (rewrite wi_eq; cbn [wfp flat] in Hp, Hf; bools; try done;
    try (econstructor; eauto; fail); fail).
  - pose proof (IHmatches_at2 He Hp Hf) as IH. rewrite wi_eq in IH |- *. econstructor; [by apply IHmatches_at1 | done].
  - pose proof (IHmatches_at2 He Hp Hf) as IH. rewrite wi_eq in IH |- *. econstructor; [by apply IHmatches_at1 | done].
  - pose proof (IHmatches_at2 He Hp Hf) as IH. rewrite wi_eq in IH |- *. cbn [wfp flat] in Hp, Hf. bools.
    eapply M_SEARCH_S; [by apply IHmatches_at1 | done..].
  - pose proof (IHmatches_at2 He Hp Hf) as IH. rewrite wi_eq in IH |- *. cbn [wfp flat] in Hp, Hf. bools.
    eapply M_REPEAT; [done | | done]. rewrite <- (wi_closed p) by done. by apply IHmatches_at1.
  - rewrite wi_eq. cbn [wfp flat] in Hp, Hf. bools.
    eapply M_REPEAT_F; [done |]. rewrite <- (wi_closed p) by done. by apply IHmatches_at.
  - subst env. rewrite wi_eq. pose proof (wf_def_of _ _ _ Hwf H) as Hd. unfold wf_def in Hd. bools.
    specialize (IHmatches_at eq_refl H1 H3).
    destruct (body name) as [q|] eqn:Hq; [| by eapply M_NONTERM; [apply def_of_wi |]].
    destruct (Hbody _ _ Hq) as [Hdq Hcq]. simplify_eq. rewrite wi_closed in IHmatches_at by done.
    apply M_INLINED. eapply matches_at_le; [done | lia].
Qed.
End Pass.

Definition wf_defs (defs : list (string * pat)) : bool := forallb (λ nd, wf_def nd.2) defs.

Lemma inline_body_spec defs : wf_defs defs = true → ∀ nm q,
  inline_fn defs ((λ d, size_leaf d.2) <$> defs) nm = Some q → def_of defs nm = Some q ∧ closed q = true.
Proof.
  intros Hwf nm q H. apply inline_fn_spec in H as [Hd Hu]. split; [done |].
  apply (wf_def_of _ _ _ Hwf) in Hd. unfold wf_def in Hd. bools. by apply closed_of_unres.
Qed.

(** Every result of a definition is a result of the definition of that name
    after inlining. *)
Definition inlined_to (defs defs' : list (string * pat)) : Prop :=
  wf_defs defs' = true ∧ ∀ nm p, def_of defs nm = Some p → ∃ p', def_of defs' nm = Some p' ∧
    ∀ d n i x, matches_at d n defs p i x → matches_at d n defs' p' i x.

Lemma grammar_inline_fuel_sound fuel start defs defs' :
  wf_defs defs = true → grammar_inline_fuel fuel start defs = Ok defs' → inlined_to defs defs'.
Proof.
  revert defs. induction fuel as [|fuel IH]; intros defs Hwf; cbn [grammar_inline_fuel];
    rewrite grammar_inline_once_eq;
    pose proof (inline_body_spec defs Hwf) as Hb; set (body := inline_fn defs _) in *;
    pose proof (walk_defs_id body defs) as Hid;
    destruct (walk_defs body defs) as [ds did] eqn:Hds; cbn [fst snd] in Hid; destruct did.
  1: done.
  1,3: rewrite Hid by done; intros [= <-]; split; eauto.
  intros H.
  assert (ds = wi_defs body defs) as -> by (unfold wi_defs; by rewrite Hds).
  destruct (IH _ (wi_defs_wf body defs Hwf Hb) H) as [Hwf' Hin]. split; [done |]. intros nm p Hp.
  destruct (Hin nm _ (def_of_wi body defs nm p Hp)) as (p' & Hp' & Hm). exists p'. split; [done |].
  intros d n i x Hx. apply Hm. apply (wf_def_of _ _ _ Hwf) in Hp. unfold wf_def in Hp. bools.
  by apply (inline_pass body defs Hwf Hb d n defs).
Qed.

Lemma grammar_inline_inlined start defs defs' :
  wf_defs defs = true → grammar_inline start defs = Ok defs' → inlined_to defs defs'.
Proof. apply grammar_inline_fuel_sound. Qed.

(** C25. Inlining keeps the meaning: whatever a well-formed grammar matches, and
    wherever it fails, the grammar of the inlined definitions does the same, on
    every subject, and is well-formed again. *)
Theorem grammar_inline_sound start defs defs' :
  wfp (PAT_GRAMMAR start defs) = true → grammar_inline start defs = Ok defs' →
  wfp (PAT_GRAMMAR start defs') = true ∧
  ∀ d env i x, matches d env (PAT_GRAMMAR start defs) i x → matches d env (PAT_GRAMMAR start defs') i x.
Proof.
  rewrite !wfp_grammar. intros Hwf H. destruct (grammar_inline_inlined _ _ _ Hwf H) as [Hwf' Hin].
  split; [done |]. intros d env i x [n Hm]. exists n. inversion Hm; subst.
  destruct (Hin _ _ H4) as (p' & Hp' & Hx). eapply M_GRAMMAR; eauto.
Qed.

(** [S <- A 'b'; A <- 'a' / 'c' S]: [A] is not a leaf; adding [B <- 'x'] used by
    [A] gets [B] inlined. *)
Lemma grammar_inline_sound_witness :
  let defs := [("S", pat_seq (pat_nonterm "A") (pat_literal [98]));
               ("A", pat_alt (pat_nonterm "B") (pat_seq (pat_literal [97]) (pat_nonterm "S")));
               ("B", pat_literal [120])] in
  ∃ defs', grammar_inline "S" defs = Ok defs' ∧ unresolved (PAT_GRAMMAR "S" defs') = 2%nat ∧
    unresolved (PAT_GRAMMAR "S" defs) = 3%nat ∧
    ∀ d env i x, matches d env (PAT_GRAMMAR "S" defs) i x → matches d env (PAT_GRAMMAR "S" defs') i x.
Proof.
  eexists. split; [vm_compute; reflexivity |]. split; [vm_compute; reflexivity |].
  split; [vm_compute; reflexivity |].
  refine (proj2 (grammar_inline_sound "S" _ _ _ _)); vm_compute; reflexivity.
Defined.
