(* ===== verification/Machine.v ===== *)
(** * Machine: what instruction lists do (specification)

    The parsing machine on the instruction-list IR, over a flat subject: a state
    is a position in the list, a position in the subject and the stack, whose
    levels hold the capture trees built so far.  It is the meaning the compiler's
    output is proved against ([CompileSpec]) and the meaning the interpreter is
    proved to implement.

    A memo table is a [memory]: which results may be stored for an id and a
    position and which may be found there.  A run of [evals] keeps to the stores
    and comes to the same end whether a result is found or not; [unmemoized] is
    the machine that stores anything and finds nothing.

    A [Nop] of compiled code stands where the tail-call pass found a [Return]
    that nothing reaches.  [ghost = true] is the machine in which it still
    returns; on code without reachable [Nop]s the two machines agree. *)
From S2P Require Import Prelude Charset Input Code ITree Memo Stack Vm Pattern Compile Sem.

(** ** The stack

    [top] is the list of the topmost level, [below] the frames from the top
    down, each with the list of the level under it. *)
Record stk (A : Type) := Stk { top : list A; below : list (frame * list A) }.

Arguments Stk {A} top below.
Arguments top {A} s : rename.
Arguments below {A} s : rename.

Section Stk.
Context {A : Type}.
Implicit Types (S : stk A) (K : list (frame * list A)).

Definition empty_stk : stk A := Stk [] [].

Definition spush (f : frame) S : stk A := Stk [] ((f, top S) :: below S).

(** More captures at the top level. *)
Definition grow (ts : list A) S : stk A := Stk (top S ++ ts) (below S).

(** The lists of the frames [K] and of the level above them, in order. *)
Fixpoint joined K (C : list A) : list A :=
  match K with [] => C | (_, C') :: K => joined K (C' ++ C) end.

(** The list under every frame. *)
Fixpoint base K (C : list A) : list A :=
  match K with [] => C | (_, C') :: K => base K C' end.

(** Pop the top frame, keeping or dropping its captures. *)
Definition pop_keep S : option (frame * stk A) :=
  match below S with [] => None | (f, C) :: K => Some (f, Stk (C ++ top S) K) end.

Definition pop_drop S : option (frame * stk A) :=
  match below S with [] => None | (f, C) :: K => Some (f, Stk C K) end.

(** The tree-memoization merge. *)
Fixpoint flat_tree (fuel : nat) (seen : nat) (accum : Z) (T : stk A) : option (stk A) :=
  match fuel with
  | O => None
  | S fuel =>
      match below T !! seen, below T !! S seen with
      | Some (stMemoTree _ _ tc, _), Some (stMemoTree id p nc, C) =>
          if accum + tc <? nc then flat_tree fuel (S seen) (accum + tc) T
          else flat_tree fuel 0 0 (Stk (joined (take (S seen) (below T)) (top T))
                 ((stMemoTree id p (accum + tc + nc), C) :: drop (S (S seen)) (below T)))
      | _, _ => Some T
      end
  end.

Fixpoint close_tree (id : Z) (C : list A) K : stk A :=
  match K with
  | (stMemoTree id' _ _, C') :: K' => if id' =? id then close_tree id (C' ++ C) K' else Stk C K
  | _ => Stk C K
  end.

Definition flat_tree_close (id : Z) S : stk A := close_tree id (top S) (below S).

Lemma pop_keep_grow ts f S : pop_keep (grow ts (spush f S)) = Some (f, grow ts S).
Proof. done. Qed.

Lemma pop_drop_grow ts f S : pop_drop (grow ts (spush f S)) = Some (f, S).
Proof. by destruct S. Qed.

Lemma joined_app K C us : joined K (C ++ us) = joined K C ++ us.
Proof. revert C. induction K as [|[f C'] K IH]; intros C; [done |]. cbn. by rewrite (assoc_L (++)), IH. Qed.

Lemma joined_split K1 K2 C : joined (K1 ++ K2) C = joined K2 (joined K1 C).
Proof. revert C. induction K1 as [|[f C'] K1 IH]; intros C; [done |]. cbn. by rewrite IH. Qed.

Lemma grow_nil S : grow [] S = S.
Proof. destruct S. unfold grow. cbn. by rewrite app_nil_r. Qed.

Lemma grow_app ts us S : grow us (grow ts S) = grow (ts ++ us) S.
Proof. unfold grow. cbn. by rewrite (assoc_L (++)). Qed.

Lemma pop_keep_push f S : pop_keep (spush f S) = Some (f, S).
Proof. rewrite <- (grow_nil (spush f S)), pop_keep_grow. by rewrite grow_nil. Qed.
End Stk.

Arguments grow : simpl never.
Arguments spush : simpl never.
Arguments pop_keep : simpl never.
Arguments pop_drop : simpl never.

(** ** States *)

Inductive outcome := Matched (p : Z) (ts : forest) | Errored (p : Z) (ts : forest) | NoMatch.

Notation stack := (stk ptree).

Inductive state :=
| Run (pc : nat) (p : Z) (K : stack)
| Fail (K : stack)
| Halt (o : outcome).

(** A failure: the topmost level goes, and frames go up to a choice. *)
Definition unwind (K : stack) : state :=
  match below K with
  | [] => Halt NoMatch
  | (stBtrack t off, C) :: K => Run (Z.to_nat t) off (Stk C K)
  | (_, C) :: K => Fail (Stk C K)
  end.

Lemma unwind_btrack t p K : unwind (spush (stBtrack (Z.of_nat t) p) K) = Run t p K.
Proof. destruct K. unfold spush, unwind. cbn [below top]. by rewrite Nat2Z.id. Qed.

(** What a memo table may be given and may give: id, position, result. *)
Record memory := Memory { stored : Z → Z → parse → Prop; found : Z → Z → parse → Prop }.

Definition unmemoized : memory := Memory (λ _ _ _, True) (λ _ _ _, False).

Section Machine.
Context (d : list Z).

(** The one-step matchers: CHAR, SET and ANY. *)
Definition match1 (x : pir_insn) (p : Z) : option (option Z) :=
  match p_op x with
  | OP VM_CHAR => Some (literal_match d [p_a x] p)
  | OP VM_SET => Some (class_match d (p_set x) p)
  | OP VM_ANY => Some (dot_match d (p_a x) p)
  | _ => None
  end.

Definition or_fail (pc : nat) (K : stack) (r : option Z) : state :=
  match r with Some j => Run pc j K | None => Fail K end.

Definition ret (p : Z) (K : stack) : option state :=
  match pop_keep K with Some (stRet r, K) => Some (Run (Z.to_nat r) p K) | _ => None end.

Context (ghost : bool) (P : pir).

(** Position of a label in the list. *)
Definition lab (l : Z) : option nat := label_index P !! l.

Definition jump_to (l : Z) (p : Z) (K : stack) : option state := t ← lab l; Some (Run t p K).

Definition choice (l p : Z) (K : stack) : option stack :=
  t ← lab l; Some (spush (stBtrack (Z.of_nat t) p) K).

(** A test: on a match go on past it, with a choice if asked; else jump. *)
Definition test_insn (r : option Z) (with_choice : bool) (l : Z) (pc : nat) (p : Z) (K : stack) : option state :=
  match r with
  | Some j => K ← (if with_choice then choice l p K else Some K); Some (Run (S pc) j K)
  | None => jump_to l p K
  end.

Definition insn_step (x : pir_insn) (pc : nat) (p : Z) (K : stack) : option state :=
  let next (K : stack) := Some (Run (S pc) p K) in
  match p_op x with
  | PIR_LABEL => next K
  | PIR_OPENCALL => None
  | OP VM_NOP => if ghost then ret p K else next K
  | OP VM_RETURN => ret p K
  | OP (VM_CHAR | VM_SET | VM_ANY) => r ← match1 x p; Some (or_fail (S pc) K r)
  | OP VM_EMPTY => Some (or_fail (S pc) K (emptyop_match d (p_a x) p))
  | OP VM_SPAN => Some (Run (S pc) (p + run_at (p_set x) d p) K)
  | OP VM_FAIL => Some (Fail K)
  | OP VM_FAIL_TWICE => Some (Fail (default K (snd <$> pop_drop K)))
  | OP VM_JUMP => jump_to (p_label x) p K
  | OP VM_CALL => jump_to (p_label x) p (spush (stRet (Z.of_nat (S pc))) K)
  | OP VM_CHOICE => K ← choice (p_label x) p K; next K
  | OP VM_COMMIT => match pop_keep K with Some (_, K) => jump_to (p_label x) p K | None => None end
  | OP VM_PARTIAL_COMMIT =>
      match pop_keep K with Some (stBtrack t _, K) => jump_to (p_label x) p (spush (stBtrack t p) K) | _ => None end
  | OP VM_BACK_COMMIT =>
      match pop_keep K with Some (stBtrack _ off, K) => jump_to (p_label x) off K | _ => None end
  | OP VM_TEST_CHAR => test_insn (literal_match d [p_b x] p) true (p_label x) pc p K
  | OP VM_TEST_CHAR_NOCHOICE => test_insn (literal_match d [p_b x] p) false (p_label x) pc p K
  | OP VM_TEST_SET => test_insn (class_match d (p_set x) p) true (p_label x) pc p K
  | OP VM_TEST_SET_NOCHOICE => test_insn (class_match d (p_set x) p) false (p_label x) pc p K
  | OP VM_TEST_ANY => test_insn (dot_match d (p_b x) p) true (p_label x) pc p K
  | OP VM_CAPTURE_BEGIN => next (spush (stCapt (i16 (p_a x)) p) K)
  | OP VM_CAPTURE_LATE => next (spush (stCapt (i16 (p_a x)) (p - p_b x)) K)
  | OP VM_CAPTURE_FULL => next (grow [PNode (i16 (p_a x)) (p - p_b x) (p_b x) []] K)
  | OP VM_CAPTURE_END =>
      match pop_drop K with
      | Some (stCapt id start, K') => next (grow [PNode id start (p - start) (top K)] K')
      | _ => None
      end
  | OP VM_ERROR => next K
  | OP VM_MEMO_OPEN => next (spush (stMemo (i16 (p_b x)) p) K)
  | OP VM_MEMO_CLOSE => match pop_keep K with Some (stMemo _ _, K) => next K | _ => None end
  | OP VM_MEMO_TREE_OPEN => next (spush (stMemoTree (i16 (p_b x)) p 0) K)
  | OP VM_MEMO_TREE_INSERT =>
      match below K with
      | (stMemoTree id q c, C) :: K' => next (Stk (top K) ((stMemoTree id q (c + 1), C) :: K'))
      | _ => None
      end
  | OP VM_MEMO_TREE => K ← flat_tree (S (length (below K))) 0 0 K; next K
  | OP VM_MEMO_TREE_CLOSE => next (flat_tree_close (i16 (p_a x)) K)
  | OP VM_CHECK_BEGIN => next (spush (stCheck (i16 (p_a x)) p (i16 (p_b x))) K)
  | OP VM_CHECK_END =>
      match pop_keep K with
      | Some (stCheck id start flag, K) => Some (or_fail (S pc) K (check_match d (p_fn x) id flag start p))
      | _ => None
      end
  | OP VM_END => 
      let ts := base (below K) (top K) in Some (Halt (if p_a x =? 0 then Matched p ts else Errored p ts))
  end.

(** Running off the list is the [End] that finishing the program appends. *)
Definition istep (s : state) : option state :=
  match s with
  | Halt _ => None
  | Fail K => Some (unwind K)
  | Run pc p K => match P !! pc with Some x => insn_step x pc p K | None => Some (Halt (Matched p (base (below K) (top K)))) end
  end.

(** *** Memo tables *)

(** The instructions that look a result up. *)
Definition is_open (x : pir_insn) : bool := is_op VM_MEMO_OPEN x || is_op VM_MEMO_TREE_OPEN x.

Context (M : memory).

(** A merge stores what the merged frames cover. *)
Fixpoint tree_stores (fuel : nat) (seen : nat) (accum : Z) (p : Z) (T : stack) : Prop :=
  match fuel with
  | O => True
  | S fuel =>
      match below T !! seen, below T !! S seen with
      | Some (stMemoTree _ _ tc, _), Some (stMemoTree id q nc, C) =>
          if accum + tc <? nc then tree_stores fuel (S seen) (accum + tc) p T
          else
            let T' := Stk (joined (take (S seen) (below T)) (top T)) ((stMemoTree id q (accum + tc + nc), C) :: drop (S (S seen)) (below T)) in
            stored M id q (Some (p, top T')) ∧ tree_stores fuel 0 0 p T'
      | _, _ => True
      end
  end.

(** What the instruction, or the frame that fails, may store. *)
Definition insn_stores (x : pir_insn) (p : Z) (K : stack) : Prop :=
  match p_op x, below K with
  | OP VM_MEMO_CLOSE, (stMemo id q, _) :: _ => stored M id q (Some (p, top K))
  | OP VM_MEMO_TREE_INSERT, (stMemoTree id q _, _) :: _ => stored M id q (Some (p, top K))
  | OP VM_MEMO_TREE, _ => tree_stores (S (length (below K))) 0 0 p K
  | _, _ => True
  end.

Definition stores (s : state) : Prop :=
  match s with
  | Run pc p K => match P !! pc with Some x => insn_stores x p K | None => True end
  | Fail K => match below K with (stMemo id q, _) :: _ => stored M id q None | _ => True end
  | Halt _ => True
  end.

(** Where a result found for the instruction leads. *)
Definition hit (s s' : state) : Prop :=
  match s with
  | Run pc p K =>
      ∃ x r, P !! pc = Some x ∧ is_open x = true ∧ found M (i16 (p_b x)) p r ∧
        match r with
        | Some (j, ts) => ∃ K', (if is_op VM_MEMO_OPEN x then K' = K else ∃ c, K' = spush (stMemoTree (i16 (p_b x)) p c) K) ∧
            jump_to (p_label x) j (grow ts K') = Some s'
        | None => s' = Fail K
        end
  | _ => False
  end.

Inductive evals : state → outcome → Prop :=
| evals_halt o : evals (Halt o) o
| evals_memo s s' o : istep s = Some s' → stores s → evals s' o → (∀ s'', hit s s'' → evals s'' o) → evals s o.

Lemma evals_fun s o : evals s o → ∀ o', evals s o' → o = o'.
Proof.
  induction 1 as [o | s s' o Hs _ _ IH _ _]; intros o' Ho'; inversion Ho'; subst; try done; try by cbn in *.
  apply IH. by simplify_eq.
Qed.

(** An instruction that neither stores nor looks up. *)
Definition quiet (x : pir_insn) : bool :=
  match p_op x with
  | OP (VM_MEMO_OPEN | VM_MEMO_CLOSE | VM_MEMO_TREE_OPEN | VM_MEMO_TREE_INSERT | VM_MEMO_TREE) => false
  | _ => true
  end.

Lemma quiet_open x : quiet x = true → is_open x = false.
Proof. unfold quiet, is_open, is_op. by destruct (p_op x) as [[]| |]. Qed.

Definition quiet_state (s : state) : Prop :=
  match s with
  | Run pc _ _ => ∀ x, P !! pc = Some x → quiet x = true
  | Fail K => match below K with (stMemo _ _, _) :: _ => False | _ => True end
  | Halt _ => True
  end.

Lemma quiet_stores s : quiet_state s → stores s.
Proof.
  destruct s as [pc p K | K |]; cbn; [| by repeat case_match | done]. intros H. destruct (P !! pc) as [x|]; [| done].
  specialize (H _ eq_refl). unfold quiet, insn_stores in *. by destruct (p_op x) as [[]| |].
Qed.

Lemma open_hit pc p K x s' : P !! pc = Some x → is_open x = false → hit (Run pc p K) s' → False.
Proof. intros Hx Ho (y & r & Hy & Ho' & _). simplify_eq. congruence. Qed.

Lemma quiet_hit s s' : quiet_state s → hit s s' → False.
Proof.
  destruct s as [pc p K | |]; [| done..]. intros H Hh. pose proof Hh as (x & r & Hx & _). eapply open_hit; [exact Hx | | exact Hh].
  by apply quiet_open, H.
Qed.

Lemma evals_step s s' o : istep s = Some s' → quiet_state s → evals s' o → evals s o.
Proof.
  intros Hs Hq Ho. eapply evals_memo; [exact Hs | by apply quiet_stores | done |]. intros s'' Hh. by destruct (quiet_hit s s'').
Qed.

(** [s] does at least what [s'] does. *)
Definition imp (s s' : state) : Prop := ∀ o, evals s' o → evals s o.

#[global] Instance imp_preorder : PreOrder imp.
Proof. split; [by intros s o | intros s1 s2 s3 H12 H23 o H; by apply H12, H23]. Qed.

Lemma imp_step s s' : istep s = Some s' → quiet_state s → imp s s'.
Proof. intros H Hq o Ho. by eapply evals_step. Qed.

Lemma imp_step_l s s' s'' : istep s = Some s' → quiet_state s → imp s' s'' → imp s s''.
Proof. intros H Hq H'. etrans; [by apply imp_step | done]. Qed.

(** A step that may store and find: what is found leads to the same. *)
Lemma imp_memo s s' s'' : istep s = Some s' → stores s → imp s' s'' → (∀ s1, hit s s1 → imp s1 s'') → imp s s''.
Proof. intros Hs Hst H Hh o Ho. eapply evals_memo; [exact Hs | done | by apply H | intros s1 H1; by apply (Hh s1)]. Qed.

Lemma imp_fail_btrack t p K : imp (Fail (spush (stBtrack (Z.of_nat t) p) K)) (Run t p K).
Proof. apply imp_step; [| done]. cbn [istep]. by rewrite unwind_btrack. Qed.

(** What a failing level had captured does not matter. *)
Lemma imp_fail_grow ts K : imp (Fail (grow ts K)) (Fail K).
Proof.
  intros o Ho. inversion Ho as [| s s' o' Hs Hst Hs' _]; subst. eapply evals_memo; [| exact Hst | exact Hs' | done]. by rewrite <- Hs.
Qed.

End Machine.

(** What all of several tables may store, one may that knows all they know together. *)
Lemma tree_stores_all {A} (Ms : A → memory) M fuel seen accum p T : (∀ id q r, (∀ a, stored (Ms a) id q r) → stored M id q r) →
  (∀ a, tree_stores (Ms a) fuel seen accum p T) → tree_stores M fuel seen accum p T.
Proof.
  intros HM. revert seen accum T. induction fuel as [|fuel IH]; intros seen accum T H; [done |]. cbn [tree_stores] in *.
  repeat case_match; try done; [by apply IH |]. split; [apply HM | apply IH]; intros a; apply (H a).
Qed.

Lemma stores_all {A} (Ms : A → memory) M P s : (∀ id q r, (∀ a, stored (Ms a) id q r) → stored M id q r) →
  (∀ a, stores P (Ms a) s) → stores P M s.
Proof.
  intros HM H. destruct s as [pc p K | K |]; [| | done]; unfold stores, insn_stores in *.
  - repeat case_match; try done; try (by apply HM); by apply (tree_stores_all Ms).
  - repeat case_match; try done; by apply HM.
Qed.

Arguments lab : simpl never.
Arguments literal_match : simpl never.
Arguments class_match : simpl never.
Arguments dot_match : simpl never.
Arguments check_match : simpl never.
Arguments emptyop_match : simpl never.
