(* ===== verification/Memos.v ===== *)
(** * Memos: the memoized sub-patterns of a pattern and what a table may hold

    A memo entry says that the pattern memoized under its id, at a position, has
    a result.  [memos_ok] asks of every memoized sub-pattern that its results may
    be stored under its id and that what is found there is its result; the
    simplifier and the inliner keep it. *)
From S2P Require Import Prelude Charset Input Code ITree Memo Stack Vm Pattern Sem PatternFacts Inline Wf InlineSound Compile Machine.

(** A memoized sub-pattern with the definitions its non-terminals stand for. *)
Record memo_node := MemoNode { mn_env : list (string * pat); mn_pat : pat; mn_id : Z }.

Fixpoint memo_nodes (env : list (string * pat)) (p : pat) : list memo_node :=
  match p with
  | PAT_ALT l r | PAT_SEQ l r => memo_nodes env l ++ memo_nodes env r
  | PAT_STAR q | PAT_PLUS q | PAT_OPTIONAL q | PAT_NOT q | PAT_AND q | PAT_SEARCH q
  | PAT_CAP q _ | PAT_CHECK q _ _ _ | PAT_REPEAT q _
  | PAT_NONTERM _ (Some q) | PAT_ERROR _ (Some q) => memo_nodes env q
  | PAT_MEMO q id => MemoNode env q id :: memo_nodes env q
  | PAT_GRAMMAR _ defs =>
      (fix all ds := match ds with [] => [] | (_, q) :: ds => memo_nodes defs q ++ all ds end) defs
  | _ => []
  end.

Lemma memo_nodes_grammar env start defs : memo_nodes env (PAT_GRAMMAR start defs) = concat ((λ nd, memo_nodes defs nd.2) <$> defs).
Proof.
  cbn [memo_nodes]. generalize defs at 1 3 as ds. intros env'. induction defs as [|[n q] ds IH]; [done |]. cbn. by rewrite IH.
Qed.

(** A closed pattern means the same under any definitions. *)
Lemma closed_env d n env env' p i x : matches_at d n env p i x → closed p = true → matches_at d n env' p i x.
Proof.
  induction 1; cbn [closed]; intros Hc; bools; try done; try (econstructor; eauto; fail).
Qed.

(** ** Repeated memoized patterns

    The iterations of one are memoized as a tree, under an id of its own: an
    entry stands for one or more iterations from its position. *)

Record tree_node := TreeNode { tn_env : list (string * pat); tn_pat : pat; tn_id : Z }.

Inductive iters (d : list Z) (n : nat) (env : list (string * pat)) (q : pat) : Z → Z → forest → Prop :=
| iters_one i j ts : matches_at d n env q i (Some (j, ts)) → iters d n env q i j ts
| iters_more i j k ts us : matches_at d n env q i (Some (j, ts)) → iters d n env q j k us → iters d n env q i k (ts ++ us).

Lemma iters_le d n m env q i j ts : iters d n env q i j ts → (n <= m)%nat → iters d m env q i j ts.
Proof. intros H Hn. induction H; [constructor 1 | econstructor 2; [| done]]; by eapply matches_at_le. Qed.

Lemma iters_app d n env q i j k ts us : iters d n env q i j ts → iters d n env q j k us → iters d n env q i k (ts ++ us).
Proof.
  induction 1 as [i j ts H | i j l ts vs H _ IH]; intros Hk; [by econstructor 2 |]. rewrite <- (assoc_L (++)).
  econstructor 2; [done | by apply IH].
Qed.

Lemma iters_ge d n env q i j ts : iters d n env q i j ts → i <= j.
Proof. induction 1 as [i j ts H | i j k ts us H _ IH]; pose proof (matches_at_ge _ _ _ _ _ _ H _ _ eq_refl); lia. Qed.

(** Some iterations, at some depth of calls. *)
Definition some_iters (d : list Z) (env : list (string * pat)) (q : pat) (i j : Z) (ts : forest) : Prop := ∃ n, iters d n env q i j ts.

Lemma some_iters_app d env q i j k ts us : some_iters d env q i j ts → some_iters d env q j k us → some_iters d env q i k (ts ++ us).
Proof. intros [n H] [m H']. exists (Nat.max n m). eapply iters_app; eapply iters_le; done || lia. Qed.

(** The first iteration is what the pattern matches. *)
Lemma some_iters_inv d env q i k ts r : some_iters d env q i k ts → matches d env q i r →
  ∃ j us, r = Some (j, us) ∧ (j = k ∧ ts = us ∨ ∃ vs, ts = us ++ vs ∧ some_iters d env q j k vs).
Proof.
  intros [n H] Hr. inversion H as [i1 j1 ts1 H1 | i1 j1 k1 ts1 us1 H1 H2]; subst;
    pose proof (matches_fun d env q i _ _ (ex_intro _ n H1) Hr) as <-.
  - exists k, ts. eauto.
  - exists j1, ts1. split; [done |]. right. exists us1. split; [done |]. by exists n.
Qed.

Section Memos.
Context (d : list Z) (M : memory).

Definition tree_ok (x : tree_node) : Prop := ∀ i, 0 <= i →
  (∀ j ts, some_iters d (tn_env x) (tn_pat x) i j ts → stored M (i16 (tn_id x)) i (Some (j, ts))) ∧
  (∀ r, found M (i16 (tn_id x)) i r → ∃ j ts, r = Some (j, ts) ∧ some_iters d (tn_env x) (tn_pat x) i j ts).

Definition memo_ok (x : memo_node) : Prop := ∀ n i r, 0 <= i → matches_at d n (mn_env x) (mn_pat x) i r →
  stored M (i16 (mn_id x)) i r ∧ ∀ r', found M (i16 (mn_id x)) i r' → r' = r.

Definition memos_ok (env : list (string * pat)) (p : pat) : Prop := Forall memo_ok (memo_nodes env p).

(** Every definition. *)
Definition defs_ok (defs : list (string * pat)) : Prop := ∀ nm q, def_of defs nm = Some q → memos_ok defs q.

Lemma def_of_elem (defs : list (string * pat)) nm q : def_of defs nm = Some q → ∃ n, (n, q) ∈ defs.
Proof.
  unfold def_of. intros H. apply bind_Some in H as (k & _ & H). apply fmap_Some in H as ([n q'] & H & ->). exists n.
  by eapply list_elem_of_lookup_2.
Qed.

Lemma memos_ok_grammar env start defs : memos_ok env (PAT_GRAMMAR start defs) → defs_ok defs.
Proof.
  unfold memos_ok. rewrite memo_nodes_grammar. intros H nm q (n & Hq)%def_of_elem. rewrite Forall_concat, Forall_fmap in H.
  rewrite Forall_forall in H. by specialize (H _ Hq).
Qed.

Lemma memos_ok_closed env env' p : closed p = true → memos_ok env p → memos_ok env' p.
Proof.
  unfold memos_ok. induction p using pat_ind'; cbn [closed memo_nodes]; intros Hc; bools; rewrite ?Forall_app, ?Forall_cons; try done;
    try (intros []; split; by auto); try by auto.
  intros [Hm Hp]. split; [| by auto]. intros n i r Hi Hr. cbn in *. apply (Hm n i r Hi). by apply (closed_env d n env').
Qed.

(** ** Simplification *)

Lemma get_pat_fuel_memos fuel env p q : get_pat_fuel fuel p = Ok q → memo_nodes env q ⊆ memo_nodes env p.
Proof.
  revert p q. induction fuel as [|fuel IH]; intros p q H; [done |].
  destruct p as [l r | l r | | | s | | | | | | | | | | | name [def|] | | | |];
    cbn [get_pat_fuel] in H; try (injection H as <-; done).
  - inv_bind. rename x into l', x0 into r', H0 into Hl, H1 into Hr. apply IH in Hl, Hr.
    assert (mret match combine l' r' with Some s => pat_set s | None => PAT_ALT l r end = Ok q →
      memo_nodes env q ⊆ memo_nodes env (PAT_ALT l r)) as Hcomb.
    { intros [= <-]. destruct (combine l' r') as [s|]; [apply list_subseteq_nil | done]. }
    assert (get_pat_fuel fuel (pat_optional l') = Ok q → memo_nodes env q ⊆ memo_nodes env (PAT_ALT l r)) as Hopt.
    { intros Hq%IH. cbn in Hq |- *. set_solver. }
    assert (r' = q → memo_nodes env q ⊆ memo_nodes env (PAT_ALT l r)) as Hright by (intros <-; cbn; set_solver).
    destruct l'; [.. | by injection H as <-; apply Hright]; destruct r'; auto.
  - inv_bind. rename x into l', x0 into r', H0 into Hl, H1 into Hr. apply IH in Hl, Hr. 
    change (mret (simplify_seq (PAT_SEQ l r) l' r') = Ok q) in H. injection H as <-. cbn [memo_nodes].
    destruct (simplify_seq_shape (PAT_SEQ l r) l' r') as [-> | [-> | [-> | [s ->]]]]; cbn [memo_nodes]; [done | set_solver | set_solver | apply list_subseteq_nil].
  - inv_bind. rename x into s', H0 into Hs. apply IH in Hs. cbn [memo_nodes]. by destruct s'; injection H as <-.
Qed.

Lemma get_pat_memos env p q : get_pat p = Ok q → memos_ok env p → memos_ok env q.
Proof.
  unfold memos_ok. rewrite !Forall_forall. intros H Hp x Hx. apply Hp. by eapply get_pat_fuel_memos.
Qed.

(** ** Inlining *)

Section Pass.
Context (body : string → option pat) (defs : list (string * pat)).
Context (Hwf : forallb (λ nd, wf_def nd.2) defs = true)
  (Hbody : ∀ nm q, body nm = Some q → def_of defs nm = Some q ∧ closed q = true).
Notation wi := (wi body).
Notation wi_defs := (wi_defs body defs).

Lemma matches_1 env p i x (Q : nat → Prop) : matches d env p i x → (∀ n, matches_at d n env p i x → Q n) → ∃ n, Q n.
Proof. intros [n H] HQ. exists n. by apply HQ. Qed.

Lemma matches_2 env p i x q j y (Q : nat → Prop) : matches d env p i x → matches d env q j y →
  (∀ n, matches_at d n env p i x → matches_at d n env q j y → Q n) → ∃ n, Q n.
Proof.
  intros [n H] [m H'] HQ. exists (Nat.max n m). apply HQ; eapply matches_at_le; done || lia.
Qed.

Lemma def_of_wi_inv nm p : def_of wi_defs nm = Some p → ∃ q, def_of defs nm = Some q ∧ p = wi q.
Proof.
  unfold InlineSound.wi_defs. rewrite walk_defs_map, def_of_map. intros (q & Hq & ->)%fmap_Some. by exists q.
Qed.

(** What an inlined pattern matches, the pattern does. *)
Lemma inline_pass_inv n env p' i x : matches_at d n env p' i x → env = wi_defs → ∀ p, p' = wi p →
  wfp p = true → flat p = true → matches d defs p i x.
Proof.
  induction 1; intros He p0 Ep Hp Hf; rewrite wi_eq in Ep;
    destruct p0 as [| | | | | | | | | | ? | | | | | nm [?|] | | ? [?|] | |]; try discriminate Ep;
    cbn [wfp flat] in Hp, Hf; bools; try done; injection Ep || idtac; clear Ep; intros; subst;
    repeat match goal with
    | IH : _ → ∀ p, wi ?q = wi p → wfp p = true → flat p = true → _, Hw : wfp ?q = true, Hf : flat ?q = true |- _ =>
        specialize (IH eq_refl q eq_refl Hw Hf)
    | IH : _ → ∀ p, PAT_STAR (wi ?q) = wi p → wfp p = true → flat p = true → _ |- _ =>
        specialize (IH eq_refl (PAT_STAR q) (eq_sym (wi_eq body (PAT_STAR q))) ltac:(done) ltac:(done))
    | IH : _ → ∀ p, PAT_SEARCH (wi ?q) = wi p → wfp p = true → flat p = true → _, Hw : wfp ?q = true, Hc : closed ?q = true |- _ =>
        specialize (IH eq_refl (PAT_SEARCH q) (eq_sym (wi_eq body (PAT_SEARCH q))) ltac:(cbn [wfp]; by rewrite Hw, Hc) ltac:(done))
    | IH : _ → ∀ p, PAT_REPEAT ?q ?k = wi p → wfp p = true → flat p = true → _, Hw : wfp ?q = true, Hc : closed ?q = true |- _ =>
        specialize (IH eq_refl (PAT_REPEAT q k) (eq_sym (wi_eq body (PAT_REPEAT q k))) ltac:(cbn [wfp]; by rewrite Hw, Hc) ltac:(done))
    | IH : _ → ∀ p, ?q = wi p → wfp p = true → flat p = true → _, Hw : wfp ?q = true, Hc : closed ?q = true, Hf : flat ?q = true |- _ =>
        specialize (IH eq_refl q (eq_sym (wi_closed _ _ Hc Hf)) Hw Hf)
    end;
    try (match goal with IH : matches d _ ?p _ _, IH' : matches d _ ?q _ _ |- _ =>
      refine (matches_2 _ _ _ _ _ _ _ _ IH IH' _) end; intros; by econstructor);
    try (match goal with IH : matches d _ ?p _ _ |- _ => refine (matches_1 _ _ _ _ _ IH _) end; intros; by econstructor);
    try (exists O; by constructor).
  - apply def_of_wi_inv in H as (q & Hq & ->). pose proof (wf_def_of _ _ _ Hwf Hq) as Hw. unfold wf_def in Hw. bools.
    destruct (IHmatches_at eq_refl q) as [m Hm]; [done.. |]. exists (S m). by eapply M_NONTERM.
  - match goal with E : Some _ = body nm |- _ => destruct (Hbody _ _ (eq_sym E)) as [Hq Hc] end.
    exists (S n). eapply M_NONTERM; [exact Hq | by eapply closed_env].
Qed.

Lemma wi_memos p : wfp p = true → flat p = true → defs_ok defs → memos_ok defs p → memos_ok wi_defs (wi p).
Proof.
  intros Hp Hf Hd. unfold memos_ok. induction p using pat_ind'; rewrite wi_eq; cbn [wfp flat memo_nodes] in *; bools; rewrite ?Forall_app, ?Forall_cons; try done;
    try (intros []; split; by auto); try by auto.
  - intros [Hm Hq]. split; [| by auto]. intros n i r Hi Hr. cbn [mn_env mn_pat mn_id] in *.
    destruct (inline_pass_inv n wi_defs (wi p) i r Hr eq_refl p eq_refl Hp Hf) as [m Hm']. by apply (Hm m i r Hi).
  - by apply memos_ok_closed.
  - intros _. destruct (body n) as [q|] eqn:Hq; [| done]. apply Hbody in Hq as [Hq Hc].
    apply (memos_ok_closed defs); [done | by apply (Hd n)].
Qed.

Lemma wi_defs_memos : defs_ok defs → defs_ok wi_defs.
Proof.
  intros Hd nm p (q & Hq & ->)%def_of_wi_inv. pose proof (wf_def_of _ _ _ Hwf Hq) as Hw. unfold wf_def in Hw. bools.
  apply wi_memos; [done.. |]. by apply (Hd nm).
Qed.
End Pass.

Lemma grammar_inline_memos start defs defs' : wf_defs defs = true → grammar_inline start defs = Ok defs' →
  defs_ok defs → defs_ok defs'.
Proof.
  unfold grammar_inline. generalize (unresolved (PAT_GRAMMAR start defs)) as fuel. intros fuel. revert defs.
  induction fuel as [|fuel IH]; intros defs Hwf; cbn [grammar_inline_fuel]; rewrite grammar_inline_once_eq;
    pose proof (inline_body_spec defs Hwf) as Hb; set (body := inline_fn defs _) in *;
    pose proof (walk_defs_id body defs) as Hid;
    destruct (walk_defs body defs) as [ds did] eqn:Hds; cbn [fst snd] in Hid; destruct did.
  1: done.
  1,3: rewrite Hid by done; by intros [= <-].
  intros H Hd. assert (ds = wi_defs body defs) as -> by (unfold wi_defs; by rewrite Hds).
  apply (IH _ (wi_defs_wf body defs Hwf Hb) H). by apply wi_defs_memos.
Qed.
End Memos.
