(* ===== verification/Slide.v ===== *)
(** * Slide: a match does not depend on where it stands

    A pattern without empty operators and checkers looks only at what lies at
    and behind the position it starts from.  On two subjects with the same rest it
    has the same result, the captures moved by the distance. *)
From S2P Require Import Prelude Charset Input Code ITree Memo Stack Vm Pattern Sem PatternFacts Inline Wf InlineSound Compile Machine Memos.

(** ** Moving results *)

Fixpoint slide (k : Z) (t : ptree) : ptree :=
  match t with PNode id start len kids => PNode id (start + k) len (slide k <$> kids) end.

Lemma ptree_ind' (Q : ptree → Prop) : (∀ id s l kids, Forall Q kids → Q (PNode id s l kids)) → ∀ t, Q t.
Proof.
  intros H. fix IH 1. intros [id s l kids]. apply H. induction kids as [|t kids IHk]; [constructor |]. constructor; [apply IH | exact IHk].
Qed.

Definition slides (k : Z) (ts : forest) : forest := slide k <$> ts.

Arguments slides : simpl never.

Definition slide_parse (k : Z) (r : parse) : parse := prod_map (λ j, j + k) (slides k) <$> r.

Lemma slide_yields k r ts : slide_parse k (yields r ts) = yields ((λ j, j + k) <$> r) (slides k ts).
Proof. by destruct r. Qed.

Lemma slide_after k ts x : slide_parse k (after ts x) = after (slides k ts) (slide_parse k x).
Proof. destruct x as [[j us]|]; [| done]. cbn. unfold slides. by rewrite fmap_app. Qed.

Lemma slide_captured k id i x : slide_parse k (captured id i x) = captured id (i + k) (slide_parse k x).
Proof. destruct x as [[j us]|]; [| done]. cbn. replace (j + k - (i + k)) with (j - i) by lia. done. Qed.

Lemma slide_add k k' t : slide k' (slide k t) = slide (k + k') t.
Proof.
  induction t as [id s l kids IH] using ptree_ind'. cbn. f_equal; [lia |]. rewrite <- list_fmap_compose.
  induction IH as [|t ts Ht _ IHts]; [done |]. cbn. by f_equal.
Qed.

Lemma slides_add k k' ts : slides k' (slides k ts) = slides (k + k') ts.
Proof. unfold slides. rewrite <- list_fmap_compose. apply list_fmap_ext. intros _ t _. apply slide_add. Qed.

Lemma slide_parse_add k k' r : slide_parse k' (slide_parse k r) = slide_parse (k + k') r.
Proof. destruct r as [[j ts]|]; [| done]. cbn. rewrite slides_add. do 2 f_equal. lia. Qed.

Lemma slide_0 t : slide 0 t = t.
Proof.
  induction t as [id s l kids IH] using ptree_ind'. cbn. f_equal; [lia |]. induction IH as [|t ts Ht _ IHts]; [done |]. cbn. by f_equal.
Qed.

Lemma slides_0 ts : slides 0 ts = ts.
Proof. unfold slides. induction ts as [|t ts IH]; [done |]. cbn. by rewrite slide_0, IH. Qed.

Lemma slide_parse_0 r : slide_parse 0 r = r.
Proof. destruct r as [[j ts]|]; [| done]. cbn. rewrite slides_0. do 2 f_equal. lia. Qed.

(** ** Patterns that look ahead only *)

Section Every.
Context (f : pat → bool).

(** At every node, definitions included. *)
Fixpoint every (p : pat) : bool :=
  f p && match p with
  | PAT_ALT l r | PAT_SEQ l r => every l && every r
  | PAT_STAR q | PAT_PLUS q | PAT_OPTIONAL q | PAT_NOT q | PAT_AND q | PAT_CAP q _ | PAT_MEMO q _ | PAT_CHECK q _ _ _
  | PAT_SEARCH q | PAT_REPEAT q _ | PAT_NONTERM _ (Some q) | PAT_ERROR _ (Some q) => every q
  | PAT_GRAMMAR _ ds => (fix all l := match l with [] => true | (_, q) :: l => every q && all l end) ds
  | _ => true
  end.

Definition every_def (ds : list (string * pat)) : bool := forallb (λ nq, every nq.2) ds.

Lemma every_grammar start ds : every (PAT_GRAMMAR start ds) = f (PAT_GRAMMAR start ds) && every_def ds.
Proof.
  cbn [every]. f_equal. match goal with |- ?F _ = _ => assert (∀ l, F l = every_def l) as H; [| apply H] end.
  intros l. unfold every_def. induction l as [|[n q] l IH]; [done |]. cbn [forallb snd]. by rewrite IH.
Qed.

Lemma every_def_of ds nm q : every_def ds = true → def_of ds nm = Some q → every q = true.
Proof.
  intros H (n & Hq)%def_of_elem. unfold every_def in H. rewrite forallb_forall in H. by apply (H (n, q)), list_elem_of_In.
Qed.
End Every.

Definition looks_ahead (p : pat) : bool := match p with PAT_EMPTYOP _ | PAT_CHECK _ _ _ _ => false | _ => true end.
Definition no_capture (p : pat) : bool := match p with PAT_CAP _ _ => false | _ => true end.

(** What captures nothing leaves no tree. *)
Lemma silent_match d n env p i x : matches_at d n env p i x → every no_capture p = true → every_def no_capture env = true →
  ∀ j ts, x = Some (j, ts) → ts = [].
Proof.
  induction 1; intros Hp He j' ts' E; rewrite ?every_grammar in Hp; cbn [every no_capture] in Hp; bools; try discriminate;
    repeat match goal with
    | H : after _ _ = Some _ |- _ => apply after_Some in H as (? & ? & ?)
    | H : yields _ _ = Some _ |- _ => apply yields_Some in H as [H ?]
    end; simplify_eq;
    repeat match goal with
    | IH : every ?f ?q = true → _, Hq : every ?f ?q = true |- _ => specialize (IH Hq)
    | IH : every ?f (_ ?q) = true → _, Hq : every ?f ?q = true |- _ => specialize (IH Hq)
    | IH : every ?f (PAT_REPEAT ?q _) = true → _, Hq : every ?f ?q = true |- _ => specialize (IH Hq)
    | IH : every_def ?f ?e = true → _, He : every_def ?f ?e = true |- _ => specialize (IH He)
    | IH : ∀ j ts, Some (?k, ?us) = Some (j, ts) → _ |- _ => specialize (IH k us eq_refl)
    end; subst; eauto.
  - eapply (IHmatches_at (every_def_of no_capture defs start p ltac:(done) H)); done.
  - eapply (IHmatches_at (every_def_of no_capture env name p ltac:(done) H)); done.
Qed.

(** ** Subjects with the same rest *)

Section Slide.
Context (d d' : list Z) (i0 k : Z).
Context (Hlen : dlen d' = dlen d + k) (Hrest : ∀ i, i0 <= i → byte_at d' (i + k) = byte_at d i).
Context (H0 : 0 <= i0) (H0k : 0 <= i0 + k).

Lemma class_slide s i : i0 <= i → class_match d' s (i + k) = (λ j, j + k) <$> class_match d s i.
Proof using Hrest. intros Hi. unfold class_match. rewrite Hrest by done. repeat case_match; try done. cbn. f_equal. lia. Qed.

Lemma dot_slide n i : i0 <= i → dot_match d' n (i + k) = (λ j, j + k) <$> dot_match d n i.
Proof using Hlen H0 H0k.
  intros Hi. unfold dot_match. rewrite Hlen.
  destruct ((0 <=? n) && (0 <=? i) && (i + n <=? dlen d)) eqn:E, ((0 <=? n) && (0 <=? i + k) && (i + k + n <=? dlen d + k)) eqn:E';
    zify_bool; try lia; [| done]. cbn. f_equal. lia.
Qed.

Lemma literal_slide s i : i0 <= i → literal_match d' s (i + k) = (λ j, j + k) <$> literal_match d s i.
Proof using Hrest.
  revert i. induction s as [|c s IH]; intros i Hi; [done |]. unfold literal_match in *. rewrite Hrest by done.
  destruct (byte_at d i) as [b|]; [| done]. destruct (b =? u8 c); [| done]. replace (i + k + 1) with (i + 1 + k) by lia. apply IH. lia.
Qed.

Lemma matches_slide n env p i x : matches_at d n env p i x → i0 <= i → every looks_ahead p = true → every_def looks_ahead env = true →
  matches_at d' n env p (i + k) (slide_parse k x).
Proof using Hlen Hrest H0 H0k.
  induction 1; intros Hi Hf He; rewrite ?every_grammar in Hf; cbn [every looks_ahead] in Hf; bools; rewrite ?slide_after, ?slide_captured, ?slide_yields in *; try done;
    repeat match goal with
    | H : matches_at d _ _ _ ?i (Some (?j, ?ts)), IH : i0 <= ?j → _ |- _ =>
        specialize (IH ltac:(pose proof (matches_at_ge _ _ _ _ _ _ H _ _ eq_refl); lia))
    | IH : i0 <= i → _ |- _ => specialize (IH Hi)
    | IH : every ?f ?q = true → _, Hq : every ?f ?q = true |- _ => specialize (IH Hq)
    | IH : every ?f (PAT_STAR ?q) = true → _, Hq : every ?f ?q = true |- _ => specialize (IH Hq)
    | IH : every ?f (PAT_SEARCH ?q) = true → _, Hq : every ?f ?q = true |- _ => specialize (IH Hq)
    | IH : every ?f (PAT_REPEAT ?q _) = true → _, Hq : every ?f ?q = true |- _ => specialize (IH Hq)
    | IH : every_def ?f ?e = true → _, He : every_def ?f ?e = true |- _ => specialize (IH He)
    end.
  all: try (econstructor; eauto; fail).
  - rewrite <- class_slide by done. apply M_CLASS.
  - rewrite <- dot_slide by done. apply M_DOT.
  - rewrite <- literal_slide by done. apply M_LITERAL.
  - eapply M_GRAMMAR; [done |]. apply IHmatches_at; [by apply (every_def_of _ defs start) | done].
  - apply M_SEARCH_S; [done | lia |]. replace (i + k + 1) with (i + 1 + k) by lia. apply IHmatches_at2; [lia | done..].
  - apply M_SEARCH_F; [done | lia].
  - eapply M_NONTERM; [done |]. apply IHmatches_at; [by apply (every_def_of _ env name) | done].
Qed.

Lemma iters_slide n env q i j ts : iters d n env q i j ts → i0 <= i → every looks_ahead q = true → every_def looks_ahead env = true →
  iters d' n env q (i + k) (j + k) (slides k ts).
Proof using Hlen Hrest H0 H0k.
  induction 1 as [i j ts H | i j l ts us H _ IH]; intros Hi Hf He; pose proof (matches_slide _ _ _ _ _ H Hi Hf He) as H'; cbn in H'.
  - by constructor 1.
  - unfold slides in *. rewrite fmap_app. econstructor 2; [exact H' |]. apply IH; [| done..].
    pose proof (matches_at_ge _ _ _ _ _ _ H _ _ eq_refl). lia.
Qed.
End Slide.
