(* ===== verification/Window.v ===== *)
(** * Window: captures inside a window

    A windowed run leaves out the captures it does not want, with what is inside
    them.  [shown keep us ts]: the trees [us] are the trees [ts] less some that
    [keep] does not ask for.  The machine does the same on stacks whose levels
    are so related, so a run that leaves captures out ends as one that does not. *)
From S2P Require Import Prelude Charset Input Code ITree Memo Stack Vm Pattern Compile Sem Machine Slide.

Section Window.
Context (keep : Z → Z → bool).

Inductive shown : forest → forest → Prop :=
| shown_nil : shown [] []
| shown_keep id s l us ts us' ts' : shown us ts → shown us' ts' → shown (PNode id s l us :: us') (PNode id s l ts :: ts')
| shown_drop id s l ts us' ts' : keep s (s + l) = false → shown us' ts' → shown us' (PNode id s l ts :: ts').

Lemma shown_refl ts : shown ts ts.
Proof.
  assert (∀ t us, shown us us → shown (t :: us) (t :: us)) as Hcons.
  { induction t as [id s l kids IH] using ptree_ind'. intros us. apply shown_keep. induction IH as [| t kids Ht _ IH]; [apply shown_nil |]. by apply Ht. }
  induction ts as [| t ts IH]; [apply shown_nil |]. by apply Hcons.
Qed.

Lemma shown_app us ts us' ts' : shown us ts → shown us' ts' → shown (us ++ us') (ts ++ ts').
Proof. intros H H'. induction H as [| id s l us ts us1 ts1 H _ _ IH | id s l ts us1 ts1 Hk _ IH]; cbn; [done | by apply shown_keep | by apply shown_drop]. Qed.

Lemma shown_node id s l us ts : shown us ts → shown [PNode id s l us] [PNode id s l ts].
Proof. intros H. apply shown_keep; [done | apply shown_nil]. Qed.

Lemma shown_trans us ts : shown us ts → ∀ ws, shown ts ws → shown us ws.
Proof.
  intros H ws Hw. revert us H. induction Hw as [| id s l ts1 ws1 ts2 ws2 _ IH1 _ IH2 | id s l ws1 ts2 ws2 Hk _ IH]; intros us H; [done | |].
  - inversion H; subst; [apply shown_keep; auto | apply shown_drop; auto].
  - apply shown_drop; auto.
Qed.

(** ** Stacks *)

Definition shown_level (a b : frame * forest) : Prop := a.1 = b.1 ∧ shown a.2 b.2.

Definition shown_stk (K0 K : stack) : Prop := shown (top K0) (top K) ∧ Forall2 shown_level (below K0) (below K).

Lemma shown_stk_refl K : shown_stk K K.
Proof. split; [apply shown_refl |]. induction (below K); constructor; [split; [done | apply shown_refl] | done]. Qed.

Lemma shown_stk_trans K0 K1 K : shown_stk K0 K1 → shown_stk K1 K → shown_stk K0 K.
Proof.
  intros [Ht Hb] [Ht' Hb']. split; [by eapply shown_trans |]. revert Hb'. generalize (below K). induction Hb as [| a b B0 B1 [E1 H1] _ IH]; intros B HB;
    inversion HB as [| ? c ? B' [E2 H2]]; subst; constructor; auto. split; [congruence | by eapply shown_trans].
Qed.

Lemma shown_push f K0 K : shown_stk K0 K → shown_stk (spush f K0) (spush f K).
Proof. intros [Ht Hb]. split; [apply shown_nil |]. by constructor. Qed.

Lemma shown_grow us ts K0 K : shown us ts → shown_stk K0 K → shown_stk (grow us K0) (grow ts K).
Proof. intros H [Ht Hb]. split; [by apply shown_app | done]. Qed.

(** A capture that is not wanted is not added. *)
Lemma shown_left_out id s l ts K : keep s (s + l) = false → shown_stk K (grow [PNode id s l ts] K).
Proof.
  intros Hk. pose proof (shown_grow [] [PNode id s l ts] K K) as H. rewrite grow_nil in H. apply H; [| apply shown_stk_refl].
  apply shown_drop; [done | apply shown_nil].
Qed.

Lemma shown_pop_keep K0 K f K' : shown_stk K0 K → pop_keep K = Some (f, K') → ∃ K0', pop_keep K0 = Some (f, K0') ∧ shown_stk K0' K'.
Proof.
  intros [Ht Hb]. unfold pop_keep. inversion Hb as [| [g C0] [g' C] B0 B [E H] HB]; [done |]. cbn in E, H. subst g'. intros [= <- <-].
  eexists. split; [done |]. split; [by apply shown_app | done].
Qed.

Lemma shown_pop_drop K0 K f K' : shown_stk K0 K → pop_drop K = Some (f, K') → ∃ K0', pop_drop K0 = Some (f, K0') ∧ shown_stk K0' K'.
Proof.
  intros [Ht Hb]. unfold pop_drop. inversion Hb as [| [g C0] [g' C] B0 B [E H] HB]; [done |]. cbn in E, H. subst g'. intros [= <- <-].
  eexists. split; [done |]. by split.
Qed.

Lemma shown_base B0 B : Forall2 shown_level B0 B → ∀ C0 C, shown C0 C → shown (base B0 C0) (base B C).
Proof. induction 1 as [| [f C0] [g C] B0 B [_ H] _ IH]; intros; [done |]. by apply IH. Qed.

Lemma shown_joined B0 B : Forall2 shown_level B0 B → ∀ C0 C, shown C0 C → shown (joined B0 C0) (joined B C).
Proof. induction 1 as [| [f C0] [g C] B0 B [_ H] _ IH]; intros; [done |]. by apply IH, shown_app. Qed.

Lemma shown_close id B0 B : Forall2 shown_level B0 B → ∀ C0 C, shown C0 C → shown_stk (close_tree id C0 B0) (close_tree id C B).
Proof.
  induction 1 as [| [f C0] [g C] B0 B [E H] HB IH]; intros D0 D HD; [by split; [| constructor] |]. cbn in E, H. subst g. cbn [close_tree].
  assert (shown_stk (Stk D0 ((f, C0) :: B0)) (Stk D ((f, C) :: B))) as Hst by (split; [done | constructor; [by split | done]]).
  destruct f; try done. destruct (_ =? _); [| done]. by apply IH, shown_app.
Qed.

Lemma shown_lookup B0 B n f C : Forall2 shown_level B0 B → B !! n = Some (f, C) → ∃ C0, B0 !! n = Some (f, C0) ∧ shown C0 C.
Proof. intros HB Hn. destruct (Forall2_lookup_r _ _ _ _ _ HB Hn) as ([g C0] & H0 & E & H). cbn in E, H. subst g. by exists C0. Qed.

Lemma shown_flat fuel : ∀ seen accum K0 K K', shown_stk K0 K → flat_tree fuel seen accum K = Some K' →
  ∃ K0', flat_tree fuel seen accum K0 = Some K0' ∧ shown_stk K0' K'.
Proof.
  induction fuel as [|fuel IH]; intros seen accum K0 K K' HK H; [done |]. cbn [flat_tree] in *. pose proof HK as [Ht Hb].
  assert (∀ n, fst <$> below K0 !! n = fst <$> below K !! n) as Hf.
  { intros n. rewrite <- !list_lookup_fmap. f_equal. clear -Hb. induction Hb as [| a b B0 B [E _] _ IH]; [done |]. cbn. by rewrite E, IH. }
  pose proof (Hf seen) as H0. pose proof (Hf (S seen)) as H1.
  destruct (below K !! seen) as [[f C]|], (below K0 !! seen) as [[f0 C0]|]; try discriminate H0; [injection H0 as -> | by injection H as <-; exists K0].
  destruct (below K !! S seen) as [[g D]|] eqn:E1, (below K0 !! S seen) as [[g0 D0]|] eqn:E2; try discriminate H1;
    [injection H1 as -> | destruct f; injection H as <-; by exists K0].
  destruct f; try (injection H as <-; by exists K0). destruct g; try (injection H as <-; by exists K0).
  destruct (_ <? _); [by eapply IH |]. eapply IH; [| exact H]. split.
  - apply shown_joined; [by apply Forall2_take | done].
  - constructor; [| by apply Forall2_drop]. split; [done |]. destruct (shown_lookup _ _ _ _ _ Hb E1) as (D1 & HD & HD'). cbn. congruence.
Qed.

(** ** States *)

Definition shown_outcome (o0 o : outcome) : Prop :=
  match o0, o with
  | Matched p us, Matched q ts | Errored p us, Errored q ts => p = q ∧ shown us ts
  | NoMatch, NoMatch => True
  | _, _ => False
  end.

Definition shown_state (s0 s : state) : Prop :=
  match s0, s with
  | Run pc0 p0 K0, Run pc p K => pc0 = pc ∧ p0 = p ∧ shown_stk K0 K
  | Fail K0, Fail K => shown_stk K0 K
  | Halt o0, Halt o => shown_outcome o0 o
  | _, _ => False
  end.

Lemma shown_outcome_trans o0 o1 o : shown_outcome o0 o1 → shown_outcome o1 o → shown_outcome o0 o.
Proof. destruct o0, o1, o; cbn; try done; intros [-> ?] [-> ?]; (split; [done | by eapply shown_trans]). Qed.

Lemma shown_outcome_refl o : shown_outcome o o.
Proof. destruct o; cbn; [split; [done | apply shown_refl].. | done]. Qed.

Lemma shown_state_refl s : shown_state s s.
Proof. destruct s; cbn; [do 2 (split; [done |]); apply shown_stk_refl | apply shown_stk_refl | apply shown_outcome_refl]. Qed.

Lemma shown_state_trans s0 s1 s : shown_state s0 s1 → shown_state s1 s → shown_state s0 s.
Proof.
  destruct s0, s1, s; cbn; try done; [| by apply shown_stk_trans | by apply shown_outcome_trans].
  intros (-> & -> & H) (-> & -> & H'). do 2 (split; [done |]). by eapply shown_stk_trans.
Qed.

Lemma shown_unwind K0 K : shown_stk K0 K → shown_state (unwind K0) (unwind K).
Proof.
  intros [Ht Hb]. unfold unwind. inversion Hb as [| [f C0] [g C] B0 B [E H] HB]; [done |]. cbn in E, H. subst g.
  destruct f; by cbn.
Qed.

Section Step.
Context (d : list Z) (P : pir).

Lemma shown_or_fail pc K0 K r : shown_stk K0 K → shown_state (or_fail pc K0 r) (or_fail pc K r).
Proof. by destruct r. Qed.

Lemma shown_jump l p K0 K s : shown_stk K0 K → jump_to P l p K = Some s → ∃ s0, jump_to P l p K0 = Some s0 ∧ shown_state s0 s.
Proof. unfold jump_to. destruct (lab P l) as [t|]; [| done]. intros HK [= <-]. by eexists. Qed.

Lemma shown_choice l p K0 K K' : shown_stk K0 K → choice P l p K = Some K' → ∃ K0', choice P l p K0 = Some K0' ∧ shown_stk K0' K'.
Proof. unfold choice. destruct (lab P l) as [t|]; [| done]. intros HK [= <-]. eexists. split; [done |]. by apply shown_push. Qed.

Lemma shown_test r wc l pc p K0 K s : shown_stk K0 K → test_insn P r wc l pc p K = Some s →
  ∃ s0, test_insn P r wc l pc p K0 = Some s0 ∧ shown_state s0 s.
Proof.
  unfold test_insn. intros HK. destruct r; [| by apply shown_jump]. destruct wc; [| intros [= <-]; by eexists].
  destruct (choice P l p K) as [K'|] eqn:HC; [| done]. intros [= <-]. destruct (shown_choice _ _ _ _ _ HK HC) as (K0' & -> & H). by eexists.
Qed.

Lemma shown_ret p K0 K s : shown_stk K0 K → ret p K = Some s → ∃ s0, ret p K0 = Some s0 ∧ shown_state s0 s.
Proof.
  unfold ret. intros HK. destruct (pop_keep K) as [[f K']|] eqn:HP; [| done]. destruct (shown_pop_keep _ _ _ _ HK HP) as (K0' & -> & H).
  destruct f; try done. intros [= <-]. by eexists.
Qed.

(** The machine takes the same step. *)
Lemma insn_shown y pc p K0 K s : shown_stk K0 K → insn_step d false P y pc p K = Some s →
  ∃ s0, insn_step d false P y pc p K0 = Some s0 ∧ shown_state s0 s.
Proof.
  intros HK. assert (∀ K0' K' s, shown_stk K0' K' → Some (Run (S pc) p K') = Some s → ∃ s0, Some (Run (S pc) p K0') = Some s0 ∧ shown_state s0 s) as Hnext
    by (intros K0' K' s' HK' [= <-]; by eexists).
  unfold insn_step. destruct (p_op y) as [o| |]; [| by apply Hnext | done].
  assert (∀ r s, Some (or_fail (S pc) K r) = Some s → ∃ s0, Some (or_fail (S pc) K0 r) = Some s0 ∧ shown_state s0 s) as Hor
    by (intros r s' [= <-]; eexists; split; [done | by apply shown_or_fail]).
  destruct o; try (by apply Hnext); try (by apply Hor); try (by apply shown_test); try (by apply shown_jump); try (by apply shown_ret);
    try (apply Hnext; by apply shown_push).
  all: try (destruct (match1 d y p) as [r|]; [by apply Hor | done]).
  all: try (destruct (pop_keep K) as [[f K']|] eqn:HP; [| done]; destruct (shown_pop_keep _ _ _ _ HK HP) as (K0' & -> & H)).
  all: try (by apply shown_jump).
  all: try (destruct f; try done; first [by apply shown_jump | by apply shown_jump, shown_push | by apply Hnext]).
  all: intros Hs.
  - apply bind_Some in Hs as (K' & HC & [= <-]). destruct (shown_choice _ _ _ _ _ HK HC) as (K0' & -> & H). by eexists.
  - eapply shown_jump; [by apply shown_push | exact Hs].
  - injection Hs as <-. by eexists.
  - injection Hs as <-. by eexists.
  - injection Hs as <-. eexists. split; [done |]. destruct (pop_drop K) as [[f K']|] eqn:HP.
    + destruct (shown_pop_drop _ _ _ _ HK HP) as (K0' & -> & H). exact H.
    + replace (pop_drop K0) with (@None (frame * stack)); [exact HK |]. unfold pop_drop in *. destruct HK as [_ Hb].
      by inversion Hb as [E1 E2 | ? [] ? ? ? ? E1 E2]; rewrite <- E2 in HP.
  - injection Hs as <-. eexists. split; [done |]. destruct (_ =? 0); (split; [done |]); apply shown_base; apply HK.
  - destruct (pop_drop K) as [[f K']|] eqn:HP; [| done]. destruct (shown_pop_drop _ _ _ _ HK HP) as (K0' & -> & H).
    destruct f; try done. injection Hs as <-. eexists. split; [done |]. do 2 (split; [done |]).
    apply shown_grow; [apply shown_node, HK | exact H].
  - injection Hs as <-. eexists. split; [done |]. do 2 (split; [done |]). apply shown_grow; [apply shown_refl | exact HK].
  - destruct f; try done. injection Hs as <-. eexists. split; [done |]. by apply shown_or_fail.
  - destruct HK as [Ht Hb]. destruct Hb as [| [f C0] [g C] B0 B [E H] HB]; [done |]. cbn in E, H. subst g.
    destruct f; try done. injection Hs as <-. eexists. split; [done |]. do 2 (split; [done |]).
    split; [done |]. constructor; [by split | done].
  - apply bind_Some in Hs as (K' & HF & [= <-]). destruct (shown_flat _ _ _ _ _ _ HK HF) as (K0' & HF0 & H).
    rewrite (Forall2_length _ _ _ (proj2 HK)), HF0. by eexists.
  - injection Hs as <-. eexists. split; [done |]. do 2 (split; [done |]). apply shown_close; apply HK.
Qed.

Lemma istep_shown s0 s s' : shown_state s0 s → istep d false P s = Some s' → ∃ s0', istep d false P s0 = Some s0' ∧ shown_state s0' s'.
Proof.
  destruct s0, s; try done.
  - intros (-> & -> & HK). cbn [istep]. destruct (P !! _); [by apply insn_shown |]. intros [= <-]. eexists. split; [done |].
    split; [done |]. apply shown_base; apply HK.
  - intros HK [= <-]. eexists. split; [done |]. by apply shown_unwind.
Qed.

Lemma hit_shown M s0 s s0' : shown_state s0 s → hit P M s0 s0' → ∃ s', hit P M s s' ∧ shown_state s0' s'.
Proof.
  destruct s0 as [pc0 p0 K0 | K0 | o0], s as [pc p K | K | o]; try done. intros (-> & -> & HK) (y & r & Hy & Ho & Hf & Hr).
  destruct r as [[j ts]|]; [| subst s0'; exists (Fail K); split; [by exists y, None | done]].
  destruct Hr as (K0' & HK' & Hj). assert (∃ K', (if is_op VM_MEMO_OPEN y then K' = K else ∃ c, K' = spush (stMemoTree (i16 (p_b y)) p c) K) ∧ shown_stk K0' K') as (K' & HK1 & HK2).
  { destruct (is_op VM_MEMO_OPEN y); [subst K0'; by exists K |]. destruct HK' as [c ->]. eexists. split; [by exists c | by apply shown_push]. }
  unfold jump_to in *. destruct (lab P (p_label y)) as [t|] eqn:Hl; [| done]. injection Hj as <-.
  exists (Run t j (grow ts K')). split; [| do 2 (split; [done |]); by apply shown_grow; [apply shown_refl |]].
  exists y, (Some (j, ts)). do 3 (split; [done |]). exists K'. split; [done |]. unfold jump_to. by rewrite Hl.
Qed.
End Step.
End Window.

(** Leaving out nothing. *)
Lemma shown_all keep us ts : (∀ a b, keep a b = true) → shown keep us ts → us = ts.
Proof. intros Hk. induction 1 as [| id s l us ts us' ts' _ -> _ -> | id s l ts us' ts' H]; [done.. |]. by rewrite Hk in H. Qed.

Lemma shown_state_all keep s0 s : (∀ a b, keep a b = true) → shown_state keep s0 s → s0 = s.
Proof.
  intros Hk. assert (∀ K0 K, shown_stk keep K0 K → K0 = K) as Hst.
  { intros [C0 B0] [C B] [Ht Hb]. cbn in *. f_equal; [by eapply shown_all |]. induction Hb as [| [] [] B0 B [E H] _ IH]; [done |].
    cbn in E, H. f_equal; [f_equal; [done | by eapply shown_all] | exact IH]. }
  destruct s0, s; cbn; try done; [intros (-> & -> & H); f_equal; auto | intros H; f_equal; auto |].
  destruct o, o0; cbn; try done; intros [-> H]; do 2 f_equal; by eapply shown_all.
Qed.
