(* ===== verification/CompileSpec.v ===== *)
(** * CompileSpec: fragments of compiled code and what they do

    [P] is the whole instruction list a fragment ends up in.  A fragment is
    [placed] at a position when [P] has its instructions there, up to the
    tail-call pass; [spec code i r] says that running it from subject position
    [i] gives [r], whatever the stack -- also when its leading one-byte matchers
    were taken out of it and run elsewhere, as the code for choices and captures
    does. *)
From S2P Require Import Prelude Charset Input Code ITree Memo Stack Vm Pattern Compile Sem Machine.

(** ** Instructions that return, and ways to them *)

Definition retlike (x : pir_insn) : bool := is_op VM_RETURN x || is_op VM_NOP x.

(** From [a], only labels lie before an instruction that returns. *)
Inductive retpath (P : pir) : nat → Prop :=
| retpath_here a y : P !! a = Some y → retlike y = true → retpath P a
| retpath_label a y : P !! a = Some y → is_label y = true → retpath P (S a) → retpath P a.

(** ** Placement *)

(** What [P] may hold at [a] for the fragment's instruction [x]; [N] gives the
    labels of the definitions an open call may name. *)
Definition allowed (P : pir) (N : string → option Z) (a : nat) (x : pir_insn) : Prop :=
  match p_op x with
  | PIR_OPENCALL => ∃ l, (nm ← p_name x; N nm) = Some l ∧
      (P !! a = Some (insn_jump VM_CALL l) ∨ P !! a = Some (insn_jump VM_JUMP l) ∧ retpath P (S a))
  | OP VM_RETURN | OP VM_NOP => ∃ y, P !! a = Some y ∧ retlike y = true
  | _ => P !! a = Some x
  end.

Definition placed (P : pir) (N : string → option Z) (pc : nat) (code : pir) : Prop :=
  ∀ j x, code !! j = Some x → allowed P N (pc + j) x.

Lemma placed_app P N pc l r : placed P N pc (l ++ r) ↔ placed P N pc l ∧ placed P N (pc + length l) r.
Proof.
  split.
  - intros H. split; intros j x Hj; [apply H; by apply lookup_app_l_Some |].
    rewrite <- Nat.add_assoc. apply H. rewrite lookup_app_r by lia. by replace (_ + j - _)%nat with j by lia.
  - intros [Hl Hr] j x Hj. apply lookup_app_Some in Hj as [Hj | [Hle Hj]]; [by apply Hl |].
    replace (pc + j)%nat with (pc + length l + (j - length l))%nat by lia. by apply Hr.
Qed.

Lemma placed_cons P N pc x l : placed P N pc (x :: l) ↔ allowed P N pc x ∧ placed P N (S pc) l.
Proof.
  rewrite (placed_app P N pc [x] l). cbn [length]. replace (pc + 1)%nat with (S pc) by lia.
  split; intros [H1 H2]; (split; [| done]).
  - replace pc with (pc + 0)%nat by lia. by apply H1.
  - intros [|j] y Hj; cbn in Hj; [| done]. injection Hj as <-. by rewrite Nat.add_0_r.
Qed.

Lemma placed_nil P N pc : placed P N pc [].
Proof. by intros j x Hj. Qed.

(** ** Leading matchers *)

Definition is_matcher (x : pir_insn) : bool := is_op VM_CHAR x || is_op VM_SET x || is_op VM_ANY x.

Definition plen (l : pir) : nat := (const_prefix l).1.

Lemma plen_cons x l : plen (x :: l) = if is_matcher x then S (plen l) else O.
Proof.
  unfold plen, is_matcher. cbn [const_prefix]. destruct (const_prefix l) as [n w]. cbn [fst].
  destruct (is_op VM_CHAR x); [done |]. destruct (is_op VM_SET x); [done |]. by destruct (is_op VM_ANY x).
Qed.

Lemma plen_le l : (plen l <= length l)%nat.
Proof. induction l as [|x l IH]; [done |]. rewrite plen_cons. destruct (is_matcher x); cbn; lia. Qed.

Lemma plen_app l r : plen (l ++ r) = if decide (plen l = length l) then (length l + plen r)%nat else plen l.
Proof.
  induction l as [|x l IH]; [done |]. cbn [app]. rewrite !plen_cons, IH. cbn [length].
  destruct (is_matcher x); [| by rewrite decide_False by lia].
  do 2 case_decide; lia.
Qed.

Lemma plen_take l k : (k <= plen l)%nat → plen (take k l) = k.
Proof.
  revert k. induction l as [|x l IH]; intros [|k]; cbn [take]; try done; [cbn; lia |].
  rewrite !plen_cons. destruct (is_matcher x); [| lia]. intros. by rewrite IH by lia.
Qed.

Lemma plen_drop l k : plen l = length l → plen (drop k l) = length (drop k l).
Proof.
  revert k. induction l as [|x l IH]; intros [|k]; cbn [drop]; try done.
  rewrite plen_cons. cbn [length]. destruct (is_matcher x); [| done]. intros H. apply IH. lia.
Qed.

Section Frag.
Context (d : list Z).

(** The matchers run one after the other. *)
Fixpoint pre_match (ms : pir) (i : Z) : option Z :=
  match ms with
  | [] => Some i
  | x :: ms => match match1 d x i with Some (Some j) => pre_match ms j | _ => None end
  end.

Lemma pre_match_app l r i : pre_match (l ++ r) i = (j ← pre_match l i; pre_match r j).
Proof.
  revert i. induction l as [|x l IH]; intros i; [done |]. cbn [app pre_match].
  by destruct (match1 d x i) as [[j|]|].
Qed.

Lemma is_matcher_match1 x i : is_matcher x = true → ∃ r, match1 d x i = Some r.
Proof.
  unfold is_matcher, is_op, match1. intros H. destruct (p_op x) as [[]| |]; try done; eauto.
Qed.

Context (P : pir) (Hlab : ∀ k x, P !! k = Some x → is_label x = true → lab P (p_a x) = Some k).
Context (M : memory).
Notation imp := (imp d true P M).
Notation insn_step := (insn_step d true P).

Lemma at_step pc x p K s s' : P !! pc = Some x → quiet x = true → insn_step x pc p K = Some s → imp s s' → imp (Run pc p K) s'.
Proof. intros Hx Hq Hs. apply imp_step_l; cbn; [by rewrite Hx | by intros y [= <-]%(eq_trans (eq_sym Hx))]. Qed.

Lemma at_label pc l p K s : P !! pc = Some (insn_label l) → imp (Run (S pc) p K) s → imp (Run pc p K) s.
Proof. intros Hx. by apply (at_step _ _ _ _ _ _ Hx). Qed.

Lemma lab_at pc l : P !! pc = Some (insn_label l) → lab P l = Some pc.
Proof. intros H. by apply (Hlab _ _ H). Qed.

(** Two instructions that return do the same. *)
Lemma retpath_imp a rs y j K : retpath P a → P !! rs = Some y → retlike y = true → imp (Run rs j K) (Run a j K).
Proof.
  intros Ha Hrs Hy. induction Ha as [a z Hz Hr | a z Hz Hl _ IH]; intros o Ho.
  - inversion Ho as [| s1 s2 o' Hst _ Hs2 _]; subst. eapply evals_step; [| | done].
    + cbn in *. rewrite Hrs, Hz in *. rewrite <- Hst.
      unfold retlike, is_op in *. destruct y as [oy], z as [oz]. unfold Machine.insn_step. cbn in *.
      destruct oy as [[]| |], oz as [[]| |]; done.
    + intros w [= <-]%(eq_trans (eq_sym Hrs)). unfold retlike, quiet, is_op in *. by destruct (p_op y) as [[]| |].
  - apply IH. inversion Ho as [| s1 s2 o' Hst _ Hs2 _]; subst. cbn in Hst. rewrite Hz in Hst. destruct z as [oz]. unfold is_label in Hl. cbn in *.
    destruct oz; try done. unfold Machine.insn_step in Hst. cbn in Hst. by injection Hst as <-.
Qed.

Lemma run_pre N ms pc i K : plen ms = length ms → placed P N pc ms →
  imp (Run pc i K) (or_fail (pc + length ms) K (pre_match ms i)).
Proof.
  revert pc i. induction ms as [|x ms IH]; intros pc i Hall Hpl; [cbn; by rewrite Nat.add_0_r |].
  rewrite plen_cons in Hall. destruct (is_matcher x) eqn:Hx; [| done]. injection Hall as Hall.
  apply placed_cons in Hpl as [Ha Hpl]. destruct (is_matcher_match1 _ i Hx) as [r Hr].
  assert (P !! pc = Some x) as HP.
  { unfold allowed, is_matcher, is_op in *. destruct (p_op x) as [[]| |]; done. }
  assert (insn_step x pc i K = Some (or_fail (S pc) K r)) as Hs.
  { unfold is_matcher, is_op in Hx. unfold Machine.insn_step. destruct (p_op x) as [[]| |]; try done; by rewrite Hr. }
  assert (quiet x = true) as Hq by (unfold is_matcher, quiet, is_op in *; by destruct (p_op x) as [[]| |]).
  apply (at_step _ _ _ _ _ _ HP Hq Hs). cbn [pre_match length]. rewrite Hr.
  destruct r as [j|]; [| done]. cbn [or_fail]. replace (pc + S (length ms))%nat with (S pc + length ms)%nat by lia.
  by apply IH.
Qed.

(** ** What a fragment does *)

Definition no_mt (K : stack) : Prop := match below K with (stMemoTree _ _ _, _) :: _ => False | _ => True end.

(** Where a fragment that gives [r] leaves the machine. *)
Definition arrive (pc : nat) (K : stack) (r : parse) : state :=
  match r with Some (j, ts) => Run pc j (grow ts K) | None => Fail K end.

Lemma arrive_bare pc K r : arrive pc K (yields r []) = or_fail pc K r.
Proof. destruct r as [j|]; [| done]. cbn. by rewrite grow_nil. Qed.

Lemma arrive_grow pc K ts r : imp (arrive pc (grow ts K) r) (arrive pc K (after ts r)).
Proof. destruct r as [[j us]|]; cbn; [by rewrite grow_app | apply imp_fail_grow]. Qed.

Context (N : string → option Z).

Record spec (code : pir) (i : Z) (r : parse) : Prop := {
  sp_fail : ∀ k, (k <= plen code)%nat → pre_match (take k code) i = None → r = None;
  sp_all : plen code = length code → r = yields (pre_match code i) [];
  sp_run : ∀ k pc j K, (k <= plen code)%nat → placed P N pc (drop k code) → no_mt K →
    pre_match (take k code) i = Some j → imp (Run pc j K) (arrive (pc + (length code - k)) K r);
}.

Lemma spec_run code i r pc K : spec code i r → placed P N pc code → no_mt K →
  imp (Run pc i K) (arrive (pc + length code) K r).
Proof.
  intros Hs Hp HK. pose proof (sp_run _ _ _ Hs 0 pc i K) as H. rewrite Nat.sub_0_r in H. apply H; done || lia.
Qed.

(** A fragment that does not start with a matcher. *)
Lemma spec_intro code i r : plen code = O → code ≠ [] →
  (∀ pc K, placed P N pc code → no_mt K → imp (Run pc i K) (arrive (pc + length code) K r)) → spec code i r.
Proof.
  intros H0 Hne H. split; rewrite H0.
  - intros k Hk. by replace k with O by lia.
  - by destruct code.
  - intros k pc j K Hk. replace k with O by lia. rewrite Nat.sub_0_r. intros Hp HK [= <-]. by apply H.
Qed.

Lemma spec_matchers ms i : plen ms = length ms → spec ms i (yields (pre_match ms i) []).
Proof.
  intros Hall. split; [| done |].
  - intros k _ Hk. rewrite <- (take_drop k ms), pre_match_app, Hk. done.
  - intros k pc j K Hk Hp _ Hj. rewrite <- (take_drop k ms) at 2. rewrite pre_match_app, Hj. cbn [mbind option_bind].
    rewrite <- length_drop, arrive_bare. eapply run_pre; [by apply plen_drop | done].
Qed.

Lemma spec_nil i : spec [] i (Some (i, [])).
Proof. by apply (spec_matchers [] i). Qed.

Lemma no_mt_grow ts K : no_mt K → no_mt (grow ts K).
Proof. done. Qed.

Lemma spec_seq l r i j ts x : spec l i (Some (j, ts)) → spec r j x → spec (l ++ r) i (after ts x).
Proof.
  intros Hl Hr. pose proof (plen_le l).
  assert (plen l = length l → ts = [] ∧ pre_match l i = Some j) as Hpure.
  { intros Hall. pose proof (sp_all _ _ _ Hl Hall) as E. symmetry in E. by apply yields_Some in E as [-> ->]. }
  split; rewrite plen_app, ?length_app.
  - intros k Hk Hn. destruct (decide (k <= length l)%nat) as [Hkl | Hkl].
    + rewrite take_app_le in Hn by done. destruct (decide (k <= plen l)%nat); [by apply (sp_fail _ _ _ Hl) in Hn |].
      case_decide; lia.
    + case_decide as Hall; [| lia]. rewrite (sp_fail _ _ _ Hr (k - length l)); [done | lia |].
      rewrite take_app_ge in Hn by lia. by rewrite pre_match_app, (proj2 (Hpure Hall)) in Hn.
  - case_decide as Hall; [| lia]. intros Hr'. destruct (Hpure Hall) as [-> Hj]. rewrite pre_match_app, Hj, after_nil.
    apply (sp_all _ _ _ Hr). lia.
  - intros k pc j' K Hk Hp HK Hj'. destruct (decide (k <= length l)%nat) as [Hkl | Hkl].
    + rewrite take_app_le in Hj' by done. rewrite drop_app_le in Hp by done.
      apply placed_app in Hp as [Hp1 Hp2]. rewrite length_drop in Hp2.
      etrans; [apply (sp_run _ _ _ Hl k pc j' K); try done; case_decide; lia |]. cbn [arrive].
      replace (pc + (length l + length r - k))%nat with (pc + (length l - k) + length r)%nat by lia.
      etrans; [| apply arrive_grow]. by apply spec_run.
    + case_decide as Hall; [| lia]. rewrite take_app_ge in Hj' by lia. rewrite drop_app_ge in Hp by lia.
      destruct (Hpure Hall) as [-> Hj]. rewrite pre_match_app, Hj in Hj'. rewrite after_nil.
      replace (length l + length r - k)%nat with (length r - (k - length l))%nat by lia.
      apply (sp_run _ _ _ Hr); done || lia.
Qed.

Lemma spec_seq_fail l r i : spec l i None → spec (l ++ r) i None.
Proof.
  intros Hl. pose proof (plen_le l).
  assert (plen l = length l → pre_match l i = None) as Hpure.
  { intros Hall. pose proof (sp_all _ _ _ Hl Hall) as E. by destruct (pre_match l i). }
  split; rewrite plen_app, ?length_app.
  - done.
  - case_decide as Hall; [| lia]. intros _. by rewrite pre_match_app, Hpure.
  - intros k pc j' K Hk Hp HK Hj'. destruct (decide (k <= length l)%nat) as [Hkl | Hkl].
    + rewrite take_app_le in Hj' by done. rewrite drop_app_le in Hp by done.
      apply placed_app in Hp as [Hp1 Hp2].
      etrans; [apply (sp_run _ _ _ Hl k pc j' K); try done; case_decide; lia |]. done.
    + case_decide as Hall; [| lia]. rewrite take_app_ge in Hj' by lia.
      by rewrite pre_match_app, Hpure in Hj'.
Qed.

End Frag.
