(* ===== verification/CompileNodes.v ===== *)
(** * CompileNodes: the code of each node, from what its sub-patterns' code does *)
From S2P Require Import Prelude Charset Input Code ITree Memo Stack Vm Pattern Compile Sem Machine Memos CompileSpec.

Section Nodes.
Context (d : list Z) (P : pir) (Hlab : ∀ k x, P !! k = Some x → is_label x = true → lab P (p_a x) = Some k).
Context (M : memory) (N : string → option Z).
Notation imp := (imp d true P M).
Notation spec := (spec d P M N).
Notation placed := (placed P N).

Ltac split_placed := repeat match goal with
  | H : CompileSpec.placed P N _ (_ :: _) |- _ => apply placed_cons in H; destruct H as [? H]
  | H : CompileSpec.placed P N _ (_ ++ _) |- _ => apply placed_app in H; destruct H as [? H]
  | H : CompileSpec.placed P N _ [] |- _ => clear H
  | H : allowed P N _ _ |- _ => unfold allowed in H; cbn in H
  end.

(** Labels of the fragment, by name. *)
Ltac labels := repeat match goal with
  | H : P !! ?k = Some (insn_label ?l) |- _ =>
      lazymatch goal with E : lab P l = Some k |- _ => fail | _ => pose proof (lab_at P Hlab _ _ H) end
  end.


(** Execute the instruction the machine is at. *)
Ltac exec := eapply at_step; [eassumption | reflexivity |
  unfold insn_step; cbn; unfold choice, jump_to, test_insn;
  rewrite ?pop_keep_grow, ?pop_keep_push, ?pop_drop_grow;
  repeat match goal with E : lab P ?l = Some _ |- context [lab P ?l] => rewrite E end; cbn; reflexivity |]; cbn [arrive or_fail].

Ltac enter := intros pc K Hp HK; split_placed; labels; cbn [length]; rewrite ?length_app; cbn [length arrive].

Ltac node := apply spec_intro; [by rewrite ?plen_cons | done | enter].

(** End at a state reached, up to arithmetic on positions. *)
Ltac here := match goal with
  | |- Machine.imp _ _ _ _ (Run ?a _ _) (Run ?b _ _) => replace b with a by lia; rewrite ?grow_nil; reflexivity
  | |- _ => reflexivity
  end.

(** A frame that is no choice and no memo entry does not stop a failure. *)
Lemma imp_fail f K : match f with stBtrack _ _ | stMemo _ _ => False | _ => True end → imp (Fail (spush f K)) (Fail K).
Proof. intros Hf. by apply imp_step; destruct K, f. Qed.

Lemma spec_not sub l1 i r : spec sub i r →
  spec (code_not sub l1) i (match r with Some _ => None | None => Some (i, []) end).
Proof.
  intros Hs. unfold code_not. node. exec. etrans; [by eapply spec_run |].
  destruct r as [[j ts]|]; cbn [arrive].
  - exec. by destruct K.
  - etrans; [apply imp_fail_btrack |]. exec. here.
Qed.

Lemma spec_and sub l1 l2 i r : spec sub i r →
  spec (code_and sub l1 l2) i (match r with Some (_, ts) => Some (i, ts) | None => None end).
Proof.
  intros Hs. unfold code_and. node. exec. etrans; [by eapply spec_run |].
  destruct r as [[j ts]|]; cbn [arrive].
  - exec. exec. here.
  - etrans; [apply imp_fail_btrack |]. exec. exec. here.
Qed.

(** A memoized pattern stores its result, and finds only that. *)
Lemma spec_memo sub l1 id i r : stored M (i16 id) i r → (∀ r', found M (i16 id) i r' → r' = r) →
  spec sub i r → spec (code_memo sub l1 id) i r.
Proof.
  intros Hst Hfd Hs. unfold code_memo. node.
  match goal with H : P !! pc = Some _ |- _ => rename H into Hopen end.
  match goal with H : P !! _ = Some (insn_basic VM_MEMO_CLOSE) |- _ => rename H into Hclose end.
  match goal with H : P !! _ = Some (insn_label l1) |- _ => rename H into Hl1 end.
  match goal with H : lab P l1 = _ |- _ => rename H into Hlab1 end.
  assert (∀ j ts, imp (Run (S (S pc + length sub)) j (grow ts K)) (Run (pc + S (length sub + 2)) j (grow ts K))) as Hend
    by (intros j ts; exec; here).
  apply imp_memo with (Run (S pc) i (spush (stMemo (i16 id) i) K)).
  - cbn [istep]. by rewrite Hopen.
  - cbn [stores]. by rewrite Hopen.
  - etrans; [by eapply spec_run |]. destruct r as [[j ts]|]; cbn [arrive].
    + etrans; [| apply Hend]. change (S pc + length sub)%nat with (S (pc + length sub)) in *. eapply imp_memo; [cbn [istep]; rewrite Hclose; unfold insn_step; cbn; rewrite pop_keep_grow; reflexivity | | done |].
      * cbn [stores]. by rewrite Hclose.
      * intros s1 Hh. by eapply open_hit in Hh.
    + apply imp_memo with (Fail K); [by destruct K | done | done | done].
  - intros s1 (y & r' & Hy & _ & Hr & Hj). rewrite Hopen in Hy. injection Hy as <-. cbn in Hr, Hj. apply Hfd in Hr as ->.
    destruct r as [[j ts]|]; [| by subst s1]. destruct Hj as (K' & -> & Hj). unfold jump_to in Hj. rewrite Hlab1 in Hj. injection Hj as <-.
    cbn [arrive]. exec. here.
Qed.

Lemma spec_check sub l1 fn id flag i r : i16 id = id → i16 flag = flag → spec sub i r →
  spec (code_check sub l1 fn id flag) i
    (match r with Some (j, ts) => yields (check_match d fn id flag i j) ts | None => None end).
Proof.
  intros Hid Hfl Hs. unfold code_check. node. exec. rewrite Hid, Hfl. etrans; [by eapply spec_run |].
  destruct r as [[j ts]|]; cbn [arrive]; [| by apply imp_fail].
  exec. destruct (check_match d fn id flag i j); cbn [or_fail arrive yields fmap option_fmap option_map];
    [exec; here | apply imp_fail_grow].
Qed.

Lemma spec_error msg sub i r : spec sub i r → spec (with_msg (insn_basic VM_ERROR) msg :: sub) i r.
Proof.
  intros Hs. node. exec. etrans; [by eapply spec_run |]. destruct r as [[j ts]|]; cbn [arrive]; here.
Qed.

Lemma spec_emptyop op i : spec [insn_u8 VM_EMPTY op] i (yields (emptyop_match d op i) []).
Proof. node. exec. rewrite arrive_bare. destruct (emptyop_match d op i); cbn [or_fail]; here. Qed.

Lemma spec_span s i : 0 <= i → spec [insn_set VM_SPAN s] i (Some (i + run_at s d i, [])).
Proof. intros. node. exec. here. Qed.

(** [OPTIONAL] of a one-byte matcher. *)
Lemma spec_opt_char b l i :
  spec [insn_test_char VM_TEST_CHAR_NOCHOICE b l; insn_label l] i
    (match literal_match d [b] i with Some j => Some (j, []) | None => Some (i, []) end).
Proof.
  node. destruct (literal_match d [b] i) eqn:E; cbn [arrive].
  - eapply at_step; [done | reflexivity | unfold insn_step; cbn; unfold test_insn; rewrite E; reflexivity |]. exec. here.
  - eapply at_step; [done | reflexivity | unfold insn_step; cbn; unfold test_insn, jump_to; rewrite E; match goal with L : lab P _ = _ |- _ => rewrite L end; reflexivity |]. exec. here.
Qed.

Lemma spec_opt_set s l i :
  spec [insn_test_set VM_TEST_SET_NOCHOICE s l; insn_label l] i
    (match class_match d s i with Some j => Some (j, []) | None => Some (i, []) end).
Proof.
  node. destruct (class_match d s i) eqn:E; cbn [arrive].
  - eapply at_step; [done | reflexivity | unfold insn_step; cbn; unfold test_insn; rewrite E; reflexivity |]. exec. here.
  - eapply at_step; [done | reflexivity | unfold insn_step; cbn; unfold test_insn, jump_to; rewrite E; match goal with L : lab P _ = _ |- _ => rewrite L end; reflexivity |]. exec. here.
Qed.

(** ** Repetition *)

Section Star.
Context (n : nat) (env : list (string * pat)) (q : pat) (sub : pir).
Context (Hsub : ∀ i r, 0 <= i → matches_at d n env q i r → spec sub i r).

(** Induction over the iterations of a star: its result is where the body
    fails, with the captures of the iterations before. *)
Lemma star_ind (Q : Z → Z → forest → Prop) :
  (∀ i, 0 <= i → matches_at d n env q i None → Q i i []) →
  (∀ i j k ts us, 0 <= i → matches_at d n env q i (Some (j, ts)) → Q j k us → Q i k (ts ++ us)) →
  ∀ i x, 0 <= i → matches_at d n env (PAT_STAR q) i x → ∃ k us, x = Some (k, us) ∧ Q i k us.
Proof.
  intros H0 H1 i x Hi H. remember (PAT_STAR q) as p eqn:Ep. revert Hi.
  induction H; intros Hi; try done; injection Ep as ->; [| eauto].
  pose proof (matches_at_ge _ _ _ _ _ _ H _ _ eq_refl).
  destruct IHmatches_at2 as (k & us & -> & Hk); [done.. | lia |].
  eexists _, _. split; [done | by eapply H1].
Qed.

Lemma spec_star l1 l2 i x : 0 <= i → matches_at d n env (PAT_STAR q) i x → spec (code_star sub l1 l2) i x.
Proof.
  intros Hi Hm. unfold code_star. node. exec.
  enough (∃ k us, x = Some (k, us) ∧ ∀ K, no_mt K →
    imp (Run (S (S pc)) i (spush (stBtrack (Z.of_nat (S (S (S (pc + length sub))))) i) K))
      (Run (pc + S (S (length sub + 2))) k (grow us K))) as (k & us & -> & Hstar) by (exec; by apply Hstar).
  revert i x Hi Hm. apply (star_ind (λ i k us, ∀ K, no_mt K →
    imp (Run (S (S pc)) i (spush (stBtrack (Z.of_nat (S (S (S (pc + length sub))))) i) K))
      (Run (pc + S (S (length sub + 2))) k (grow us K)))); clear HK K.
  - intros i Hi Hq K HK. etrans; [by eapply spec_run; [by apply Hsub | ..] |]. cbn [arrive].
    etrans; [apply imp_fail_btrack |]. exec. here.
  - intros i j k ts us Hi Hq IH K HK. etrans; [by eapply spec_run; [by apply Hsub | ..] |]. cbn [arrive].
    exec. exec. rewrite <- grow_app. by apply IH.
Qed.

Definition mt_frames (id : Z) (mts : list (frame * forest)) : Prop := Forall (λ f, ∃ p c, f.1 = stMemoTree id p c) mts.

Definition no_mt_below (B : list (frame * forest)) : Prop := no_mt (Stk [] B).

Lemma no_mt_lookup B (mts : list (frame * forest)) k : no_mt_below B → (length mts <= k)%nat → ∀ id p c C, k = length mts →
  (mts ++ B) !! k ≠ Some (stMemoTree id p c, C).
Proof.
  intros HK _ id p c C -> H. rewrite lookup_app_r, Nat.sub_diag in H by lia. destruct B as [|[[] ?]]; done.
Qed.

(** The frames of a repetition at [p], the list above them, and the iterations
    they stand for. *)
Fixpoint chain (id : Z) (p : Z) (C : forest) (mts : list (frame * forest)) : Prop :=
  match mts with
  | [] => True
  | (stMemoTree id' i _, C') :: mts => id' = id ∧ 0 <= i ∧ some_iters d env q i p C ∧ chain id i C' mts
  | _ => False
  end.

Lemma chain_frames id p C mts : chain id p C mts → mt_frames id mts.
Proof.
  revert p C. induction mts as [|[[| | |id' i c| |] C'] mts IH]; intros p C; cbn [chain]; try done; [intros; constructor |].
  intros (-> & _ & _ & H). constructor; [by eexists _, _ | by eapply IH].
Qed.

(** Frames that are merged stand for their iterations together. *)
Lemma chain_joined id p C mts k i c C' : chain id p C mts → mts !! k = Some (stMemoTree id i c, C') →
  0 <= i ∧ some_iters d env q i p (joined (take k mts) C) ∧ chain id i C' (drop (S k) mts).
Proof.
  revert p C k. induction mts as [|[[| | |id' i0 c0| |] C0] mts IH]; intros p C k; cbn [chain]; try done.
  intros (-> & Hi & Hit & H). destruct k as [|k]; cbn [lookup list_lookup].
  - intros [= -> -> ->]. done.
  - intros Hk. destruct (IH _ _ _ H Hk) as (H1 & H2 & H3). split; [done |]. split; [| done].
    cbn [take joined]. rewrite joined_app. by eapply some_iters_app.
Qed.

Lemma flat_tree_spec id fuel seen accum p C mts B : tree_ok d M (TreeNode env q id) → chain (i16 id) p C mts → no_mt_below B →
  (length mts <= fuel + seen)%nat → (seen <= length mts)%nat → (0 < fuel)%nat →
  tree_stores M fuel seen accum p (Stk C (mts ++ B)) ∧
  ∃ mts' C', flat_tree fuel seen accum (Stk C (mts ++ B)) = Some (Stk C' (mts' ++ B)) ∧ chain (i16 id) p C' mts' ∧
    joined mts' C' = joined mts C.
Proof.
  intros Htn Hm HK. revert seen accum C mts Hm. induction fuel as [|fuel IH]; intros seen accum C mts Hm Hf Hs H0; [lia |].
  pose proof (chain_frames _ _ _ _ Hm) as Hfr. cbn [flat_tree tree_stores below top].
  destruct ((mts ++ B) !! seen) as [[[| | |id1 p1 tc| |] C1]|] eqn:E1; try (by split; [| exists mts, C]).
  assert (seen < length mts)%nat as Hlt.
  { destruct (decide (seen < length mts)%nat); [done |]. exfalso.
    eapply (no_mt_lookup B mts seen HK); [lia | lia | exact E1]. }
  destruct ((mts ++ B) !! S seen) as [[[| | |id2 p2 nc| |] C2]|] eqn:E2; try (by split; [| exists mts, C]).
  assert (S seen < length mts)%nat as Hlt2.
  { destruct (decide (S seen < length mts)%nat); [done |]. exfalso.
    eapply (no_mt_lookup B mts (S seen) HK); [lia | lia | exact E2]. }
  destruct (accum + tc <? nc); [apply IH; try done; lia |].
  rewrite drop_app_le, take_app_le by lia. rewrite app_comm_cons. rewrite lookup_app_l in E2 by lia.
  unfold mt_frames in Hfr. rewrite Forall_forall in Hfr.
  destruct (Hfr (stMemoTree id2 p2 nc, C2)) as (p' & c' & [= -> -> ->]); [by eapply list_elem_of_lookup_2 |]. clear Hfr.
  destruct (chain_joined _ _ _ _ _ _ _ _ Hm E2) as (Hp' & Hit & Hch).
  assert (joined ((stMemoTree (i16 id) p' (accum + tc + c'), C2) :: drop (S (S seen)) mts) (joined (take (S seen) mts) C) = joined mts C) as Hj.
  { rewrite <- (take_drop (S seen) mts) at 3. by rewrite joined_split, (drop_S _ _ _ E2). }
  destruct (IH 0%nat 0 (joined (take (S seen) mts) C) ((stMemoTree (i16 id) p' (accum + tc + c'), C2) :: drop (S (S seen)) mts))
    as (Hst & mts' & C' & Hft & Hch' & Hj'); [done | cbn [length]; rewrite length_drop; lia | lia | lia |].
  split; [split; [by apply (Htn p' Hp') | exact Hst] |].
  exists mts', C'. split; [exact Hft |]. split; [done |]. by rewrite Hj', Hj.
Qed.

Lemma close_tree_spec id C mts B : mt_frames id mts → no_mt_below B → close_tree id C (mts ++ B) = Stk (joined mts C) B.
Proof.
  intros Hm HK. revert C. induction Hm as [|[f C'] mts (p & c & E) _ IH]; intros C; cbn [app close_tree joined].
  - destruct B as [|[[] ?] B]; done.
  - cbn in E. subst f. by rewrite Z.eqb_refl.
Qed.

(** A step that may store and finds nothing. *)
Lemma at_store pc x p K s s' : P !! pc = Some x → is_open x = false → insn_stores M x p K → insn_step d true P x pc p K = Some s →
  imp s s' → imp (Run pc p K) s'.
Proof.
  intros Hx Ho Hst Hs Hi. apply imp_memo with s; [by cbn; rewrite Hx | by cbn; rewrite Hx | done |]. intros s1 Hh. by eapply open_hit in Hh.
Qed.

Lemma spec_memo_star l1 l2 l3 nojump id i x : tree_ok d M (TreeNode env q id) → 0 <= i → matches_at d n env (PAT_STAR q) i x →
  spec (code_memo_star sub l1 l2 l3 nojump id) i x.
Proof.
  intros Htn Hi Hm. unfold code_memo_star. node.
  match goal with H : P !! S pc = Some _ |- _ => rename H into Hopen end.
  match goal with H : P !! _ = Some (insn_basic VM_MEMO_TREE_INSERT) |- _ => rename H into Hins end.
  match goal with H : P !! _ = Some (insn_basic VM_MEMO_TREE) |- _ => rename H into Htree end.
  match goal with H : lab P l3 = _ |- _ => rename H into Hlab3 end.
  set (e := (pc + _)%nat). destruct K as [C0 B]. assert (no_mt_below B) as HB by done.
  set (R := λ i k us, ∀ C mts, chain (i16 id) i C mts →
    imp (Run pc i (Stk C (mts ++ B))) (Run e k (Stk (joined mts C ++ us) B))).
  assert (∀ C mts i j k ts us, 0 <= i → chain (i16 id) i C mts → some_iters d env q i j ts → R j k us → ∀ c,
    imp (Run (S (S (S (S (S (S (pc + length sub))))))) j (Stk ts ((stMemoTree (i16 id) i c, C) :: mts ++ B)))
      (Run e k (Stk (joined mts C ++ ts ++ us) B))) as Hnext.
  { intros C mts i' j k ts us Hi' Hch Hit HR c. exec.
    destruct (flat_tree_spec id (S (length (((stMemoTree (i16 id) i' c, C) :: mts) ++ B))) 0 0 j ts ((stMemoTree (i16 id) i' c, C) :: mts) B Htn)
      as (Hst & mts' & C' & Hft & Hch' & Hj); [done | done | rewrite length_app; lia | lia | lia |].
    eapply at_store; [exact Htree | done | exact Hst | |].
    - unfold insn_step. cbn [insn_basic insn_op p_op below]. rewrite app_comm_cons, Hft. reflexivity.
    - exec. rewrite (assoc_L (++)), <- joined_app. cbn [joined] in Hj. rewrite <- Hj. by apply HR. }
  assert (∀ C mts i k us, 0 <= i → chain (i16 id) i C mts →
    imp (Run (S (S pc)) i (spush (stMemoTree (i16 id) i 0) (Stk C (mts ++ B)))) (Run e k (Stk (joined mts C ++ us) B)) →
    (∀ j ts, some_iters d env q i j ts → ∃ us', us = ts ++ us' ∧ R j k us') →
    imp (Run pc i (Stk C (mts ++ B))) (Run e k (Stk (joined mts C ++ us) B))) as Hhead.
  { intros C mts i' k us Hi' Hch Hrun Hits. exec. apply imp_memo with (Run (S (S pc)) i' (spush (stMemoTree (i16 id) i' 0) (Stk C (mts ++ B)))).
    - cbn [istep]. by rewrite Hopen.
    - cbn [stores]. by rewrite Hopen.
    - done.
    - intros s1 (y & r & Hy & _ & Hf & Hr). rewrite Hopen in Hy. injection Hy as <-. cbn in Hf, Hr.
      destruct (proj2 (Htn i' Hi') _ Hf) as (j & ts & -> & Hit). destruct Hr as (K' & (c & ->) & Hj).
      unfold jump_to in Hj. rewrite Hlab3 in Hj. injection Hj as <-.
      destruct (Hits j ts Hit) as (us' & -> & HR). by apply (Hnext C mts i' j k ts us' Hi' Hch Hit HR c). }
  enough (∃ k us, x = Some (k, us) ∧ R i k us ∧ ∀ j ts, some_iters d env q i j ts → ∃ us', us = ts ++ us' ∧ R j k us')
    as (k & us & -> & Hstar & _) by (by apply (Hstar C0 [])).
  revert i x Hi Hm. apply (star_ind (λ i k us, R i k us ∧ ∀ j ts, some_iters d env q i j ts → ∃ us', us = ts ++ us' ∧ R j k us')).
  - intros i Hi Hq. assert (∀ j ts, some_iters d env q i j ts → ∃ us', [] = ts ++ us' ∧ R j i us') as Hno.
    { intros j ts Hit. destruct (some_iters_inv _ _ _ _ _ _ _ Hit (ex_intro _ n Hq)) as (j1 & us & [=] & _). }
    split; [| done]. intros C mts Hch. apply Hhead; try done. exec.
    etrans; [by eapply spec_run; [by apply Hsub | ..] |]. cbn [arrive].
    etrans; [apply imp_fail_btrack |]. exec.
    assert (mt_frames (i16 id) ((stMemoTree (i16 id) i 0, C) :: mts)) as Hmts' by (constructor; [by eexists _, _ | by eapply chain_frames]).
    eapply at_step; [eassumption | reflexivity | unfold insn_step, flat_tree_close, spush; cbn [insn_u8 with_a insn_basic insn_op p_op p_a top below];
      rewrite app_comm_cons, close_tree_spec by done; reflexivity |].
    cbn [joined]. rewrite !app_nil_r. unfold e. here.
  - intros i j k ts us Hi Hq [IH IHits]. pose proof (matches_at_ge _ _ _ _ _ _ Hq _ _ eq_refl).
    assert (some_iters d env q i j ts) as Hone by (exists n; by constructor 1).
    assert (∀ j' ts', some_iters d env q i j' ts' → ∃ us', ts ++ us = ts' ++ us' ∧ R j' k us') as Hits.
    { intros j' ts' Hit. destruct (some_iters_inv _ _ _ _ _ _ _ Hit (ex_intro _ n Hq)) as (j1 & us1 & [= <- <-] & [[<- ->] | (vs & -> & Hvs)]).
      - by exists us.
      - destruct (IHits _ _ Hvs) as (us' & -> & HR). exists us'. by rewrite (assoc_L (++)). }
    split; [| done]. intros C mts Hch. apply Hhead; try done. exec.
    etrans; [by eapply spec_run; [by apply Hsub | ..] |]. cbn [arrive]. exec. exec.
    eapply at_store; [exact Hins | done | | unfold insn_step, grow, spush; cbn; reflexivity |].
    + unfold insn_stores, grow, spush. cbn. by apply (Htn i Hi).
    + by apply Hnext.
Qed.

End Star.

(** ** Captures *)

(** The leading matchers consume the width the compiler computes for them. *)
Lemma const_prefix_width l i j : pre_match d (take (plen l) l) i = Some j → j = i + (const_prefix l).2.
Proof.
  unfold plen. revert i j. induction l as [|x l IH]; intros i j H; [injection H; cbn; lia |].
  cbn [const_prefix] in *. destruct (const_prefix l) as [n w]. cbn [fst snd] in IH.
  assert (∀ k, match1 d x i = Some (Some k) → pre_match d (take n l) k = Some j → j = k + w) as Hrest by (intros; by apply IH).
  unfold is_op in *.
  destruct (bool_decide (p_op x = OP VM_CHAR)) eqn:E1; [| destruct (bool_decide (p_op x = OP VM_SET)) eqn:E2;
    [| destruct (bool_decide (p_op x = OP VM_ANY)) eqn:E3]]; cbn [orb fst snd take pre_match] in *;
    try (injection H; lia); unfold match1 in *;
    match goal with E : bool_decide _ = true |- _ => apply bool_decide_eq_true in E; rewrite E in * end.
  - destruct (literal_match d [p_a x] i) as [k|] eqn:Ek; [| done]. apply literal_match_ge in Ek. cbn in Ek.
    rewrite (Hrest k) by done. lia.
  - destruct (class_match d (p_set x) i) as [k|] eqn:Ek; [| done]. rewrite (Hrest k) by done.
    unfold class_match in Ek. repeat case_match; simplify_eq. lia.
  - destruct (dot_match d (p_a x) i) as [k|] eqn:Ek; [| done]. rewrite (Hrest k) by done.
    unfold dot_match in Ek. case_match; simplify_eq. lia.
Qed.

Lemma spec_code_cap sub id i r : i16 id = id → spec sub i r → spec (code_cap sub id) i (captured id i r).
Proof.
  intros Hid Hs. unfold code_cap. pose proof (const_prefix_width sub i) as Hw. destruct (const_prefix sub) as [n back] eqn:Hcp.
  assert (plen sub = n) as Hn by (unfold plen; by rewrite Hcp). pose proof (plen_le sub) as Hple. rewrite Hn in Hw. cbn [snd] in Hw.
  assert (plen (take n sub) = n) as Hpt by (apply plen_take; lia).
  assert (length (take n sub) = n) as Hlt by (rewrite length_take; lia).
  destruct ((n =? 0)%nat || (256 <=? back)) eqn:E0; [| destruct (n =? length sub)%nat eqn:E1].
  - node. exec. rewrite Hid. etrans; [by eapply spec_run |].
    destruct r as [[j ts]|]; cbn [arrive captured fmap option_fmap option_map]; [exec; here | by apply imp_fail].
  - apply Nat.eqb_eq in E1. pose proof (sp_all _ _ _ _ _ _ _ Hs ltac:(lia)) as Hall. rewrite take_ge in Hw by lia.
    destruct (pre_match d sub i) as [j|] eqn:Hj; subst r; [| by apply spec_seq_fail].
    apply (spec_seq _ _ _ _ _ _ _ j [] (Some (j, _)) Hs). node. exec. rewrite Hid, (Hw j eq_refl).
    replace (i + back - i) with back by lia. replace (i + back - back) with i by lia. here.
  - set (late := with_b _ _). set (code := take n sub ++ _).
    assert (plen code = n) as Hpc.
    { unfold code. rewrite plen_app, decide_True by lia. rewrite plen_cons. change (is_matcher late) with false. cbn iota. lia. }
    split; rewrite Hpc.
    + intros k Hk Hf. unfold code in Hf. rewrite take_app_le in Hf by lia. rewrite take_take, Nat.min_l in Hf by lia.
      rewrite (sp_fail _ _ _ _ _ _ _ Hs k); [done | lia | done].
    + unfold code. rewrite length_app, Hlt. cbn [length]. lia.
    + intros k pc j K Hk Hp HK Hj. unfold code in Hp, Hj |- *.
      rewrite take_app_le in Hj by lia. rewrite take_take, Nat.min_l in Hj by lia.
      rewrite drop_app_le in Hp by lia. apply placed_app in Hp as [Hp1 Hp].
      assert (pre_match d (take n sub) i = pre_match d (drop k (take n sub)) j) as Hpre.
      { rewrite <- (take_drop k (take n sub)) at 1. rewrite pre_match_app, take_take, Nat.min_l by lia. by rewrite Hj. }
      etrans; [eapply run_pre; [| done]; apply plen_drop; lia |]. rewrite <- Hpre.
      rewrite length_drop, Hlt in Hp |- *. rewrite length_app, Hlt. cbn [length].
      destruct (pre_match d (take n sub) i) as [j'|] eqn:Hj'; cbn [or_fail];
        [| by rewrite (sp_fail _ _ _ _ _ _ _ Hs n ltac:(lia) Hj')].
      split_placed. unfold late in *. split_placed. exec. rewrite Hid, (Hw j' eq_refl). replace (i + back - back) with i by lia.
      etrans; [eapply (sp_run _ _ _ _ _ _ _ Hs n); [lia | done | done | by rewrite Hj', (Hw j' eq_refl)] |].
      rewrite length_drop in *. rewrite length_app, length_drop. cbn [length].
      destruct r as [[j2 ts]|]; cbn [arrive captured fmap option_fmap option_map]; [| by apply imp_fail].
      eapply at_step; [replace (S (pc + (n - k)) + (length sub - n))%nat with (S (pc + (n - k) + (length sub - n))) by lia; eassumption | reflexivity |
        unfold insn_step; cbn; rewrite pop_drop_grow; reflexivity |].
      here.
Qed.

(** ** Choices *)

(** Where the compiler looks for a leading matcher it finds the first
    instruction, and characters are bytes. *)
Definition hok (l : pir) : Prop :=
  match l with
  | [] => True
  | x :: l => is_label x = false ∧ is_op VM_NOP x = false ∧ (is_op VM_CHAR x = true → is_byte (p_a x)) ∨
      is_label x = true ∧ ∃ y, head l = Some y ∧ is_op VM_MEMO_TREE_OPEN y = true
  end.

Lemma hok_next l x : hok l → l !! next_insn_idx l 0 = Some x → is_op VM_SET x || is_op VM_CHAR x = true →
  next_insn_idx l 0 = O ∧ head l = Some x ∧ (is_op VM_CHAR x = true → is_byte (p_a x)).
Proof.
  unfold next_insn_idx. rewrite drop_0, Nat.add_0_l.
  destruct l as [|z l]; [done |]. cbn [hok skip_to_insn]. intros [(-> & -> & Hb) | (-> & y & Hy & Ho)] Hx Hop; cbn [orb] in *.
  - cbn in Hx. injection Hx as ->. done.
  - exfalso. destruct l as [|y' l]; [done |]. cbn in Hy. injection Hy as ->. cbn [skip_to_insn orb] in Hx.
    assert (is_label y = false ∧ is_op VM_NOP y = false) as [E1 E2]
      by (unfold is_op, is_label in *; by destruct (p_op y) as [[]| |]).
    rewrite E1, E2 in Hx. cbn in Hx. injection Hx as ->. unfold is_op in *. by destruct (p_op x) as [[]| |].
Qed.

Lemma literal_match_u8 c i : literal_match d [u8 c] i = literal_match d [c] i.
Proof. unfold literal_match. by rewrite (u8_id (u8 c)) by apply u8_range. Qed.

Lemma literal1_fail c i b : byte_at d i = Some b → is_byte c → b ≠ c → literal_match d [c] i = None.
Proof.
  intros Hb Hc Hne. unfold literal_match. rewrite Hb, u8_id by done. by rewrite (proj2 (Z.eqb_neq b c)).
Qed.

Lemma literal1_Some c i j : literal_match d [c] i = Some j → ∃ b, byte_at d i = Some b ∧ b = u8 c.
Proof.
  unfold literal_match. destruct (byte_at d i) as [b|]; [| done]. destruct (Z.eqb_spec b (u8 c)); [eauto | done].
Qed.

Lemma class_fail s i b : byte_at d i = Some b → vm_charset_has s b = false → class_match d s i = None.
Proof. unfold class_match. by intros -> ->. Qed.

Lemma class_Some s i j : class_match d s i = Some j → ∃ b, byte_at d i = Some b ∧ vm_charset_has s b = true.
Proof.
  unfold class_match. destruct (byte_at d i) as [b|]; [| done]. destruct (vm_charset_has s b) eqn:E; [eauto | done].
Qed.

(** The test of a disjoint choice: which instruction it tests, and that the
    right branch starts with a matcher that fails where the test succeeds. *)
Lemma alt_test_true l r l1 test : hok l → hok r → alt_test l r l1 = (true, test) →
  ∃ x y, head l = Some x ∧ head r = Some y ∧ is_matcher x = true ∧ is_matcher y = true ∧
    is_matcher test = false ∧ is_label test = false ∧ quiet test = true ∧
    (∀ pc i K, insn_step d true P test pc i K =
       test_insn P (mjoin (match1 d x i)) false l1 pc i K) ∧
    (∀ N' a, allowed P N' a test → P !! a = Some test) ∧
    (∀ i j, match1 d x i = Some (Some j) → match1 d y i = Some None).
Proof.
  intros Hl Hr. unfold alt_test.
  destruct (l !! next_insn_idx l 0) as [x|] eqn:Hx; [| done].
  destruct (r !! next_insn_idx r 0) as [y|] eqn:Hy; [| done].
  destruct (is_op VM_SET x) eqn:Hxs; [| destruct (is_op VM_CHAR x) eqn:Hxc; [| done]].
  - intros [= [Hyc Hhas]%andb_prop <-].
    destruct (hok_next _ _ Hl Hx) as (_ & Hhx & _); [by rewrite Hxs |].
    destruct (hok_next _ _ Hr Hy) as (_ & Hhy & Hyb); [by rewrite Hyc, orb_true_r |].
    exists x, y. unfold is_matcher, is_label, match1, is_op in *.
    destruct (p_op x) as [[]| |]; try done. destruct (p_op y) as [[]| |]; try done.
    split_and!; try done. intros i j [= Hj]. f_equal. apply class_Some in Hj as (b & Hb & Hhb).
    apply (literal1_fail _ _ _ Hb); [by apply Hyb |]. intros ->.
    rewrite u8_id in Hhas by (by apply Hyb). by rewrite Hhb in Hhas.
  - destruct (hok_next _ _ Hl Hx) as (_ & Hhx & Hxb); [by rewrite Hxs, Hxc |]. specialize (Hxb Hxc).
    assert (∀ i, literal_match d [u8 (p_a x)] i = literal_match d [p_a x] i) as Hu8 by (intros; by rewrite u8_id).
    intros [= Hdis <-].
    assert (head r = Some y ∧ (is_op VM_CHAR y = true ∧ is_byte (p_a y) ∧ p_a x ≠ p_a y ∨
      is_op VM_SET y = true ∧ vm_charset_has (p_set y) (p_a x) = false)) as [Hhy Hcase].
    { destruct (is_op VM_CHAR y) eqn:Hyc.
      - destruct (hok_next _ _ Hr Hy) as (_ & Hhy & Hyb); [by rewrite Hyc, orb_true_r |].
        split; [done |]. left. split_and!; auto. apply negb_true_iff, Z.eqb_neq in Hdis. done.
      - apply andb_prop in Hdis as [Hys Hhas]. rewrite u8_id in Hhas by done.
        destruct (hok_next _ _ Hr Hy) as (_ & Hhy & _); [by rewrite Hys |]. split; [done |]. right.
        by apply negb_true_iff in Hhas. }
    exists x, y. unfold is_matcher, is_label, match1, is_op in *.
    destruct (p_op x) as [[]| |] eqn:Eox; try done.
    split_and!; try done.
    + destruct Hcase as [[H _] | [H _]]; by destruct (p_op y) as [[]| |].
    + intros pc i K. unfold insn_step. cbn. by rewrite Hu8.
    + intros i j [= Hj]. apply literal1_Some in Hj as (b & Hb & ->). rewrite u8_id in Hb by done.
      destruct Hcase as [(Hyc & Hyb & Hne) | (Hys & Hhas)]; destruct (p_op y) as [[]| |]; try done; f_equal.
      * by apply (literal1_fail _ _ _ Hb).
      * by apply (class_fail _ _ _ Hb).
Qed.

Lemma plen_head l x : head l = Some x → is_matcher x = true → (1 <= plen l)%nat ∧ l = x :: drop 1 l.
Proof. destruct l as [|z l]; [done |]. intros [= ->] Hm. rewrite plen_cons, Hm. split; [lia | done]. Qed.

Lemma spec_code_alt l r l1 l2 i (rl res : parse) : hok l → hok r → spec l i rl →
  (match rl with Some m => res = Some m | None => spec r i res end) → spec (code_alt l r l1 l2) i res.
Proof.
  intros Hol Hor Hl Hr. unfold code_alt. destruct (alt_test l r l1) as [[] test] eqn:Ht.
  - destruct (alt_test_true _ _ _ _ Hol Hor Ht) as (x & y & Hx & Hy & Hmx & Hmy & Hmt & Hlt & Hqt & Hst & Hal & Hdis).
    destruct (plen_head _ _ Hx Hmx) as [Hplx Elx], (plen_head _ _ Hy Hmy) as [Hply Ely].
    destruct (is_matcher_match1 d x i Hmx) as [rx Hrx].
    apply spec_intro; [cbn [app]; by rewrite plen_cons, Hmt | done |].
    intros pc K Hp HK. cbn [app] in Hp. apply placed_cons in Hp as [Ha Hp]. apply Hal in Ha.
    rewrite <- app_assoc in Hp. split_placed. labels.
    assert (length l = S (length (drop 1 l))) as Hll by (rewrite Elx at 1; done).
    cbn [length app]. rewrite <- app_assoc, !length_app. cbn [length]. rewrite length_app. cbn [length].
    destruct rx as [j1|].
    + eapply at_step; [exact Ha | exact Hqt | rewrite Hst, Hrx; reflexivity |].
      etrans; [eapply (sp_run _ _ _ _ _ _ _ Hl 1); try done; rewrite Elx; cbn [take pre_match]; by rewrite Hrx |].
      destruct rl as [[j ts]|]; [subst res |]; cbn [arrive].
      * replace (length l - 1)%nat with (length (drop 1 l)) by lia. exec. exec. here.
      * rewrite (sp_fail _ _ _ _ _ _ _ Hr 1); [here | lia | rewrite Ely; cbn [take pre_match]; by rewrite (Hdis _ _ Hrx)].
    + assert (rl = None) as ->.
      { apply (sp_fail _ _ _ _ _ _ _ Hl 1); [lia |]. rewrite Elx. cbn [take pre_match]. by rewrite Hrx. }
      eapply at_step; [exact Ha | exact Hqt | rewrite Hst, Hrx; cbn; unfold test_insn, jump_to;
        match goal with E : lab P l1 = _ |- _ => rewrite E end; reflexivity |].
      cbn in Hr. exec. etrans; [by eapply spec_run; [exact Hr | ..] |]. destruct res as [[j2 ts2]|]; cbn [arrive]; [exec; here | here].
  - apply spec_intro; [cbn [app]; by rewrite plen_cons | done |].
    intros pc K Hp HK. cbn [app] in Hp. rewrite <- app_assoc in Hp. split_placed. labels.
    cbn [length app]. rewrite <- app_assoc, !length_app. cbn [length]. rewrite length_app. cbn [length].
    exec. etrans; [by eapply spec_run; [exact Hl | ..] |]. destruct rl as [[j ts]|]; cbn [arrive].
    + subst res. exec. exec. here.
    + etrans; [apply imp_fail_btrack |]. exec. etrans; [by eapply spec_run; [exact Hr | ..] |].
      destruct res as [[j2 ts2]|]; cbn [arrive]; [exec; here | here].
Qed.

End Nodes.
