(* ===== verification/CompileStruct.v ===== *)
(** * CompileStruct: the shape of compiled code

    Every label a pattern's code defines is fresh and defined once, a [Nop]
    always follows a [Jump] or another [Nop], leading matchers are where the
    compiler looks for them, and an error, once recorded, stays. *)
From S2P Require Import Prelude Charset Input Code ITree Memo Stack Vm Pattern Compile Sem Machine CompileSpec CompileNodes.

(** ** Labels *)

(** How often label [z] is defined in [l]. *)
Fixpoint cnt (z : Z) (l : pir) : nat :=
  match l with
  | [] => O
  | x :: l => ((if is_label x then if (p_a x =? z)%Z then 1 else 0 else 0) + cnt z l)%nat
  end.

Lemma cnt_app z l r : cnt z (l ++ r) = (cnt z l + cnt z r)%nat.
Proof. induction l as [|x l IH]; [done |]. cbn [app cnt]. rewrite IH. lia. Qed.

Lemma cnt_pos z l k x : l !! k = Some x → is_label x = true → p_a x = z → (1 <= cnt z l)%nat.
Proof.
  revert k. induction l as [|y l IH]; intros [|k]; cbn; try done.
  - intros [= ->] -> ->. rewrite Z.eqb_refl. lia.
  - intros H1 H2 H3. specialize (IH k H1 H2 H3). lia.
Qed.

(** The labels of [l] lie in [lo, hi) and are defined once. *)
Definition labs_in (lo hi : Z) (l : pir) : Prop :=
  ∀ z, (cnt z l <= if (lo <=? z)%Z && (z <? hi)%Z then 1 else 0)%nat.

Lemma label_index_lookup_gen l k0 m k x :
  l !! k = Some x → is_label x = true → (cnt (p_a x) l <= 1)%nat →
  fold_left (λ (m : gmap Z nat) '(i, x), if is_label x then <[p_a x := i]> m else m)
    (imap (λ i x, (k0 + i, x)%nat) l) m !! p_a x = Some (k0 + k)%nat.
Proof.
  assert (∀ l k0 (m : gmap Z nat) z, cnt z l = O →
    fold_left (λ (m : gmap Z nat) '(i, x), if is_label x then <[p_a x := i]> m else m)
      (imap (λ i x, (k0 + i, x)%nat) l) m !! z = m !! z) as Hskip.
  { clear. intros l. induction l as [|y l IH]; intros k0 m z Hz; [done |]. cbn [imap fold_left cnt] in *.
    rewrite (imap_ext _ (λ i x, (S k0 + i, x)%nat)) by (intros; cbn; f_equal; lia).
    rewrite IH by lia. destruct (is_label y); [| done].
    destruct (Z.eqb_spec (p_a y) z); [lia |]. by rewrite lookup_insert_ne. }
  revert k0 m k. induction l as [|y l IH]; intros k0 m [|k] Hk Hx Hc; try done; cbn [imap fold_left cnt] in *;
    rewrite (imap_ext _ (λ i x, (S k0 + i, x)%nat)) by (intros; cbn; f_equal; lia).
  - cbn in Hk. injection Hk as ->. rewrite Hx, Z.eqb_refl in *. rewrite Hskip by lia.
    by rewrite lookup_insert_eq.
  - cbn in Hk. rewrite (IH _ _ k); try done; [f_equal; lia | lia].
Qed.

Lemma lab_lookup lo hi P k x : labs_in lo hi P → P !! k = Some x → is_label x = true → lab P (p_a x) = Some k.
Proof.
  intros Hl Hk Hx. unfold lab, label_index. apply (label_index_lookup_gen P 0 ∅ k x); try done.
  specialize (Hl (p_a x)). destruct ((lo <=? p_a x) && (p_a x <? hi)); lia.
Qed.

(** ** [Nop]s *)

Fixpoint nopf (b : bool) (l : pir) : bool :=
  match l with
  | [] => true
  | x :: l => (negb (is_op VM_NOP x) || b) && nopf (is_op VM_JUMP x || is_op VM_NOP x) l
  end.

Definition nop_ok : pir → bool := nopf false.

Lemma nopf_weaken b l : nopf false l = true → nopf b l = true.
Proof.
  destruct l as [|x l]; [done |]. cbn [nopf]. rewrite orb_false_r. intros [-> ->]%andb_prop. done.
Qed.

Lemma nopf_app b l r : nopf b l = true → nop_ok r = true → nopf b (l ++ r) = true.
Proof.
  revert b. induction l as [|x l IH]; intros b; cbn [app nopf]; [intros _; apply nopf_weaken |].
  intros [-> H]%andb_prop Hr. by rewrite IH.
Qed.

Lemma nop_ok_lookup l : nop_ok l = true ↔ ∀ k x, l !! k = Some x → is_op VM_NOP x = true →
  ∃ k' y, k = S k' ∧ l !! k' = Some y ∧ is_op VM_JUMP y || is_op VM_NOP y = true.
Proof.
  enough (∀ b, nopf b l = true ↔ ∀ k x, l !! k = Some x → is_op VM_NOP x = true →
    k = O ∧ b = true ∨ ∃ k' y, k = S k' ∧ l !! k' = Some y ∧ is_op VM_JUMP y || is_op VM_NOP y = true) as H.
  { unfold nop_ok. rewrite H. split; intros H1 k x Hk Hx; [| right; eauto].
    by destruct (H1 k x Hk Hx) as [[_ ?] |]. }
  induction l as [|y l IH]; intros b; cbn [nopf]; [split; [by intros _ k x | done] |].
  rewrite andb_true_iff, IH. split.
  - intros [Hy Hl] [|k] x Hk Hx; cbn in Hk.
    + injection Hk as ->. left. rewrite Hx in Hy. by destruct b.
    + right. destruct (Hl k x Hk Hx) as [[-> Hb] | (k' & z & -> & Hz & Hzo)]; [by exists O, y | by exists (S k'), z].
  - intros H. split.
    + destruct (is_op VM_NOP y) eqn:Ey; [| done]. by destruct (H O y eq_refl Ey) as [[_ ->] | (k' & z & [=] & _)].
    + intros k x Hk Hx. destruct (H (S k) x Hk Hx) as [[[=] _] | (k' & z & [= ->] & Hz & Hzo)].
      destruct k' as [|k']; cbn in Hz; [injection Hz as ->; by left | right; eauto].
Qed.

Lemma nop_ok_cons x l : is_op VM_NOP x = false → nop_ok l = true → nop_ok (x :: l) = true.
Proof. intros Hx Hl. unfold nop_ok. cbn [nopf]. rewrite Hx. cbn. by apply nopf_weaken. Qed.

Lemma nop_ok_matchers l : nop_ok l = true → nop_ok (take (plen l) l) = true ∧ nop_ok (drop (plen l) l) = true.
Proof.
  induction l as [|x l IH]; [done |]. intros H. rewrite plen_cons. destruct (is_matcher x) eqn:Hx; [| done].
  cbn [take drop]. unfold nop_ok in H. cbn [nopf] in H. apply andb_prop in H as [_ H].
  assert (is_op VM_NOP x = false ∧ is_op VM_JUMP x = false) as [E1 E2]
    by (unfold is_matcher, is_op in *; by destruct (p_op x) as [[]| |]).
  rewrite E1, E2 in H. destruct (IH H). split; [by apply nop_ok_cons | done].
Qed.

(** ** Structure of a fragment *)

Record struct (c : pctx) (code : pir) (c' : pctx) : Prop := {
  st_err : err c' = None → err c = None;
  st_le : nlabels c <= nlabels c';
  st_labs : labs_in (nlabels c) (nlabels c') code;
  st_nop : nop_ok code = true;
  st_hok : hok code;
}.

(** Solve a goal on labels from the parts' label facts. *)
Ltac labs := repeat match goal with H : labs_in _ _ _ |- _ => unfold labs_in in H end;
  intros z; repeat match goal with H : ∀ z : Z, (cnt z _ <= _)%nat |- _ => specialize (H z) end;
  repeat (progress cbn [cnt app] || rewrite cnt_app);
  repeat match goal with |- context [is_label ?x] => first [change (is_label x) with true | change (is_label x) with false] end;
  cbn -[Z.leb Z.ltb Z.eqb] in *;
  repeat match goal with
  | |- context [?a <=? ?b] => destruct (Z.leb_spec a b)
  | H : context [?a <=? ?b] |- _ => destruct (Z.leb_spec a b)
  | |- context [?a <? ?b] => destruct (Z.ltb_spec a b)
  | H : context [?a <? ?b] |- _ => destruct (Z.ltb_spec a b)
  | |- context [?a =? ?b] => destruct (Z.eqb_spec a b)
  end; cbn [andb] in *; lia.

Lemma struct_nil c : struct c [] c.
Proof. split; try done; try lia; labs. Qed.

Lemma hok_app l r : hok l → hok r → hok (l ++ r).
Proof.
  destruct l as [|x [|y l]]; try done. cbn. intros [(-> & -> & H) | (_ & y & [=] & _)] _. by left.
Qed.

Lemma struct_app c1 c2 c3 l r : struct c1 l c2 → struct c2 r c3 → struct c1 (l ++ r) c3.
Proof.
  intros [] []. split; auto; try lia.
  - labs.
  - by apply nopf_app.
  - by apply hok_app.
Qed.

(** [r] was compiled first. *)
Lemma struct_app_rev c1 c2 c3 l r : struct c1 r c2 → struct c2 l c3 → struct c1 (l ++ r) c3.
Proof.
  intros [] []. split; auto; try lia.
  - labs.
  - by apply nopf_app.
  - by apply hok_app.
Qed.

(** ** Resolving calls *)

Lemma skip_spec (l : pir) j x : (j < skip_to_insn l)%nat → l !! j = Some x → is_label x || is_op VM_NOP x = true.
Proof.
  revert j. induction l as [|y l IH]; intros j; cbn [skip_to_insn]; [lia |].
  destruct (is_label y || is_op VM_NOP y) eqn:E; [| lia].
  destruct j as [|j]; cbn; [by intros _ [= ->] | intros; apply (IH j); [lia | done]].
Qed.

Lemma next_insn_idx_le (l : pir) i j x : (i <= j < next_insn_idx l i)%nat → l !! j = Some x →
  is_label x || is_op VM_NOP x = true.
Proof.
  unfold next_insn_idx. intros Hj Hx. apply (skip_spec (drop i l) (j - i)); [lia |].
  rewrite lookup_drop. by replace (i + (j - i))%nat with j by lia.
Qed.

(** What one step of the pass does to the slot of a call and to the return
    after it. *)
Definition resolve_at (i : nat) (l : Z) (code : pir) : pir :=
  let ni := next_insn_idx code (S i) in
  if match code !! ni with Some y => is_op VM_RETURN y | None => false end then
    let code := <[i := insn_jump VM_JUMP l]> code in
    let '(ri, hadlabel) := next_insn_label_idx code (S i) in
    if negb hadlabel && (ri <? length code)%nat then <[ri := insn_basic VM_NOP]> code else code
  else <[i := insn_jump VM_CALL l]> code.

Definition resolve_label (defs : list (string * pat)) (labels : list Z) (x : pir_insn) : option Z :=
  name ← p_name x; di ← find_def defs name; l ← labels !! di; if l <? 0 then None else Some l.

Lemma resolve_calls_S n i defs labels code : resolve_calls (S n) i defs labels code =
  match code !! i with
  | Some x =>
      if bool_decide (p_op x = PIR_OPENCALL) then
        match resolve_label defs labels x with
        | None => (code, Some (p_name x))
        | Some l => resolve_calls n (S i) defs labels (resolve_at i l code)
        end
      else resolve_calls n (S i) defs labels code
  | None => (code, None)
  end.
Proof. done. Qed.

Lemma drop_insert_before {A} (l : list A) i j x : (i < j)%nat → drop j (<[i := x]> l) = drop j l.
Proof.
  intros Hij. apply list_eq. intros k. rewrite !lookup_drop. apply list_lookup_insert_ne. lia.
Qed.

Lemma next_insn_label_idx_eq (code : pir) i y from : (i < from)%nat →
  next_insn_label_idx (<[i := y]> code) from = next_insn_label_idx code from.
Proof. intros. unfold next_insn_label_idx. by rewrite drop_insert_before. Qed.

(** The slot of the return that a tail call makes unreachable. *)
Definition dead_slot (i : nat) (code : pir) : option nat :=
  if match code !! next_insn_idx code (S i) with Some y => is_op VM_RETURN y | None => false end then
    if negb (existsb is_label (take (skip_to_insn (drop (S i) code)) (drop (S i) code)))
    then Some (next_insn_idx code (S i)) else None
  else None.

Lemma resolve_at_eq i l code : (i < length code)%nat → ∃ o,
  (o = VM_CALL ∨ o = VM_JUMP ∧ ∃ y, code !! next_insn_idx code (S i) = Some y ∧ is_op VM_RETURN y = true) ∧
  (dead_slot i code ≠ None → o = VM_JUMP) ∧
  resolve_at i l code = match dead_slot i code with
    | Some ri => <[ri := insn_basic VM_NOP]> (<[i := insn_jump o l]> code)
    | None => <[i := insn_jump o l]> code
    end.
Proof.
  intros Hi. unfold resolve_at, dead_slot.
  destruct (code !! next_insn_idx code (S i)) as [y|] eqn:Ey; [| exists VM_CALL; split_and!; [by left | done | done]].
  destruct (is_op VM_RETURN y) eqn:Hy; [| exists VM_CALL; split_and!; [by left | done | done]].
  exists VM_JUMP. split; [eauto |]. split; [done |].
  rewrite next_insn_label_idx_eq by lia. unfold next_insn_label_idx.
  destruct (negb _); cbn [andb]; [| done]. rewrite length_insert.
  change (S i + skip_to_insn (drop (S i) code))%nat with (next_insn_idx code (S i)).
  apply lookup_lt_Some in Ey. by rewrite (proj2 (Nat.ltb_lt _ _) Ey).
Qed.

Lemma dead_slot_spec i code ri : dead_slot i code = Some ri →
  (i < ri)%nat ∧ (∃ y, code !! ri = Some y ∧ is_op VM_RETURN y = true) ∧
  ∀ j x, (i < j < ri)%nat → code !! j = Some x → is_op VM_NOP x = true.
Proof.
  unfold dead_slot. destruct (code !! next_insn_idx code (S i)) as [y|] eqn:Ey; [| done].
  destruct (is_op VM_RETURN y) eqn:Hy; [| done].
  destruct (negb _) eqn:Hn; [| done]. intros [= <-]. split; [unfold next_insn_idx; lia |]. split; [eauto |].
  intros j x Hj Hx. pose proof (next_insn_idx_le code (S i) j x ltac:(lia) Hx) as Ho.
  destruct (is_label x) eqn:El; [| done]. exfalso. apply negb_true_iff in Hn.
  enough (existsb is_label (take (skip_to_insn (drop (S i) code)) (drop (S i) code)) = true) by congruence.
  apply existsb_exists. exists x. split; [| done]. apply list_elem_of_In, (list_elem_of_lookup_2 _ (j - S i)).
  unfold next_insn_idx in Hj. rewrite lookup_take_lt by lia. rewrite lookup_drop.
  by replace (S i + (j - S i))%nat with j by lia.
Qed.

Lemma cnt_insert z (code : pir) i x y : code !! i = Some x → is_label x = false → is_label y = false →
  cnt z (<[i := y]> code) = cnt z code.
Proof.
  revert i. induction code as [|w code IH]; intros [|i]; cbn; try done.
  - intros [= ->] -> ->. done.
  - intros. by rewrite IH.
Qed.

Lemma resolve_at_struct i l code x : code !! i = Some x → p_op x = PIR_OPENCALL →
  length (resolve_at i l code) = length code ∧ (∀ z, cnt z (resolve_at i l code) = cnt z code) ∧
  (nop_ok code = true → nop_ok (resolve_at i l code) = true).
Proof.
  intros Hx Ho. pose proof (lookup_lt_Some _ _ _ Hx) as Hi.
  destruct (resolve_at_eq i l code Hi) as (o & Hoo & Hoj & ->).
  assert (is_label x = false ∧ is_op VM_JUMP x = false ∧ is_op VM_NOP x = false) as (Hxl & Hxj & Hxn)
    by (unfold is_label, is_op; rewrite Ho; done).
  assert (∀ z, cnt z (<[i := insn_jump o l]> code) = cnt z code) as Hc1 by (intros z; by apply (cnt_insert _ _ _ x)).
  assert (nop_ok code = true → ∀ k y, <[i := insn_jump o l]> code !! k = Some y → is_op VM_NOP y = true →
    ∃ k' y', k = S k' ∧ <[i := insn_jump o l]> code !! k' = Some y' ∧ is_op VM_JUMP y' || is_op VM_NOP y' = true) as Hn1.
  { intros Hnop k y Hk Hy. assert (k ≠ i) as Hki.
    { intros ->. rewrite list_lookup_insert_eq in Hk by done. injection Hk as <-. by destruct Hoo as [-> | [-> _]]. }
    rewrite list_lookup_insert_ne in Hk by done.
    destruct (proj1 (nop_ok_lookup code) Hnop k y Hk Hy) as (k' & y' & -> & Hk' & Hy').
    assert (k' ≠ i) as Hne. { intros ->. simplify_eq. by rewrite Hxj, Hxn in Hy'. }
    exists k', y'. by rewrite list_lookup_insert_ne by done. }
  destruct (dead_slot i code) as [ri|] eqn:Hd.
  - destruct (dead_slot_spec _ _ _ Hd) as (Hlt & (y & Hy & Hyr) & Hbetween).
    assert (is_label y = false) as Hyl by (unfold is_label, is_op in *; by destruct (p_op y) as [[]| |]).
    split_and!.
    + by rewrite !length_insert.
    + intros z. rewrite (cnt_insert _ _ _ y); [apply Hc1 | | done..]. by rewrite list_lookup_insert_ne by lia.
    + intros Hnop. apply nop_ok_lookup. intros k w Hk Hw.
      assert (ri < length code)%nat as Hrl by (by apply lookup_lt_Some in Hy).
      destruct (decide (k = ri)) as [-> | Hne].
      * destruct ri as [|k']; [lia |]. exists k'.
        destruct (decide (k' = i)) as [-> |].
        -- exists (insn_jump o l). rewrite list_lookup_insert_ne by lia. rewrite list_lookup_insert_eq by done.
           by rewrite Hoj.
        -- destruct (lookup_lt_is_Some_2 code k') as [v Hv]; [lia |]. exists v.
           rewrite !list_lookup_insert_ne by lia. split_and!; try done.
           rewrite (Hbetween k' v) by (lia || done). by rewrite orb_true_r.
      * rewrite list_lookup_insert_ne in Hk by done.
        destruct (Hn1 Hnop k w Hk Hw) as (k' & y' & -> & Hk' & Hy'). exists k'.
        destruct (decide (k' = ri)) as [-> |].
        -- exists (insn_basic VM_NOP). rewrite list_lookup_insert_eq by (by rewrite length_insert). done.
        -- exists y'. by rewrite list_lookup_insert_ne by done.
  - split_and!; [by rewrite length_insert | done | intros Hnop; apply nop_ok_lookup; by apply Hn1].
Qed.

(** The labels open calls resolve to. *)
Definition call_label_of (defs : list (string * pat)) (labels : list Z) (nm : string) : option Z :=
  di ← find_def defs nm; l ← labels !! di; if l <? 0 then None else Some l.

Lemma retpath_mono A B off a : retpath A a →
  (∀ j y, A !! j = Some y → is_label y || retlike y = true → ∃ y', B !! (off + j)%nat = Some y' ∧
    (is_label y = true → is_label y' = true) ∧ (retlike y = true → retlike y' = true)) →
  retpath B (off + a).
Proof.
  intros Ha H. induction Ha as [a y Hy Hr | a y Hy Hl _ IH].
  - destruct (H a y Hy) as (y' & Hy' & _ & Hr'); [by rewrite Hr, orb_true_r |]. eapply retpath_here; eauto.
  - destruct (H a y Hy) as (y' & Hy' & Hl' & _); [by rewrite Hl |]. eapply retpath_label; eauto.
    by replace (S (off + a))%nat with (off + S a)%nat by lia.
Qed.

Lemma retpath_next (code : pir) a y : code !! next_insn_idx code a = Some y → is_op VM_RETURN y = true → retpath code a.
Proof.
  intros Hy Hr. assert (∀ k a, (∀ j x, (a <= j < a + k)%nat → code !! j = Some x → is_label x || is_op VM_NOP x = true) →
    code !! (a + k)%nat = Some y → retpath code a) as H.
  { clear a Hy. induction k as [|k IH]; intros a Hs Hy.
    - rewrite Nat.add_0_r in Hy. eapply retpath_here; [done |]. unfold retlike. by rewrite Hr.
    - destruct (lookup_lt_is_Some_2 code a) as [x Hx]; [apply lookup_lt_Some in Hy; lia |].
      pose proof (Hs a x ltac:(lia) Hx) as Ho. destruct (is_label x) eqn:El.
      + eapply retpath_label; [done.. |]. apply IH; [intros j z Hj; apply Hs; lia |].
        by replace (S a + k)%nat with (a + S k)%nat by lia.
      + eapply retpath_here; [done |]. unfold retlike. cbn in Ho. by rewrite Ho, orb_true_r. }
  apply (H (skip_to_insn (drop a code))); [| done]. intros j x Hj. by apply (next_insn_idx_le code a).
Qed.

Lemma resolve_at_evolve i l code x : code !! i = Some x → p_op x = PIR_OPENCALL →
  (∀ j y, code !! j = Some y → j ≠ i → resolve_at i l code !! j = Some y ∨
    retlike y = true ∧ ∃ y', resolve_at i l code !! j = Some y' ∧ retlike y' = true) ∧
  (resolve_at i l code !! i = Some (insn_jump VM_CALL l) ∨
   resolve_at i l code !! i = Some (insn_jump VM_JUMP l) ∧ retpath (resolve_at i l code) (S i)).
Proof.
  intros Hx Ho. pose proof (lookup_lt_Some _ _ _ Hx) as Hi.
  destruct (resolve_at_eq i l code Hi) as (o & Hoo & Hoj & Heq).
  assert (∀ j y, code !! j = Some y → j ≠ i → resolve_at i l code !! j = Some y ∨
    retlike y = true ∧ ∃ y', resolve_at i l code !! j = Some y' ∧ retlike y' = true) as Hev.
  { intros j y Hy Hj. rewrite Heq. destruct (dead_slot i code) as [ri|] eqn:Hd.
    - destruct (dead_slot_spec _ _ _ Hd) as (Hlt & (z & Hz & Hzr) & _).
      destruct (decide (j = ri)) as [-> |].
      + right. simplify_eq. split; [unfold retlike; by rewrite Hzr |]. exists (insn_basic VM_NOP).
        rewrite list_lookup_insert_eq; [done | rewrite length_insert; by apply lookup_lt_Some in Hy].
      + left. by rewrite !list_lookup_insert_ne by done.
    - left. by rewrite list_lookup_insert_ne by done. }
  split; [done |].
  assert (resolve_at i l code !! i = Some (insn_jump o l)) as Hii.
  { rewrite Heq. destruct (dead_slot i code) as [ri|] eqn:Hd; [| by rewrite list_lookup_insert_eq].
    destruct (dead_slot_spec _ _ _ Hd) as (Hlt & _). rewrite list_lookup_insert_ne by lia. by rewrite list_lookup_insert_eq. }
  destruct Hoo as [-> | [-> (y & Hy & Hyr)]]; [by left |]. right. split; [done |].
  apply (retpath_mono code _ 0 (S i) (retpath_next code (S i) y Hy Hyr)). cbn [Nat.add].
  intros j z Hz Hzo. destruct (decide (j = i)) as [-> |].
  { simplify_eq. unfold retlike, is_label, is_op in Hzo. by rewrite Ho in Hzo. }
  destruct (Hev j z Hz) as [H | (H1 & z' & H2 & H3)]; [done | eauto |]. exists z'. split_and!; try done.
  intros Hl. unfold retlike, is_label, is_op in *. by destruct (p_op z) as [[]| |].
Qed.

Lemma resolve_calls_placed defs labels code0 n i cur code' : (i + n)%nat = length code0 → length cur = length code0 →
  (∀ j x, code0 !! j = Some x → if decide (j < i)%nat then allowed cur (call_label_of defs labels) j x
     else match p_op x with OP VM_RETURN | OP VM_NOP => ∃ y, cur !! j = Some y ∧ retlike y = true | _ => cur !! j = Some x end) →
  resolve_calls n i defs labels cur = (code', None) → placed code' (call_label_of defs labels) 0 code0.
Proof.
  revert i cur. induction n as [|n IH]; intros i cur Hn Hlen Hinv.
  { intros [= <-] j x Hx. specialize (Hinv j x Hx). apply lookup_lt_Some in Hx. by rewrite decide_True in Hinv by lia. }
  rewrite resolve_calls_S. destruct (lookup_lt_is_Some_2 cur i) as [z Hz]; [lia |]. rewrite Hz.
  destruct (lookup_lt_is_Some_2 code0 i) as [x0 Hx0]; [lia |].
  pose proof (Hinv i x0 Hx0) as Hi. rewrite decide_False in Hi by lia.
  case_bool_decide as Ho.
  - assert (x0 = z) as ->.
    { destruct (p_op x0) as [[]| |] eqn:E; try (by simplify_eq);
        destruct Hi as (y & Hy & Hr); simplify_eq; unfold retlike, is_op in Hr; by rewrite Ho in Hr. }
    destruct (resolve_label defs labels z) as [l|] eqn:El; [| done].
    destruct (resolve_at_evolve i l cur z Hz Ho) as [Hev Hat].
    destruct (resolve_at_struct i l cur z Hz Ho) as [Hlen' _]. apply IH; [lia | lia |].
    set (cur2 := resolve_at i l cur) in *. clearbody cur2. intros j x Hx. specialize (Hinv j x Hx).
    assert (∀ y, j ≠ i → cur !! j = Some y → retlike y = false → cur2 !! j = Some y) as Hsame.
    { intros y Hj Hy Hr. destruct (Hev j y Hy Hj) as [? | [? _]]; [done | congruence]. }
    assert (∀ y, j ≠ i → cur !! j = Some y → retlike y = true → ∃ y, cur2 !! j = Some y ∧ retlike y = true) as Hret.
    { intros y Hj Hy Hr. destruct (Hev j y Hy Hj) as [? | [_ ?]]; [eauto | done]. }
    destruct (decide (j < S i)%nat) as [Hlt | Hge]; [destruct (decide (j = i)) as [-> | Hne] |].
    + simplify_eq. unfold allowed. rewrite Ho. exists l. done.
    + rewrite decide_True in Hinv by lia. unfold allowed in *.
      destruct (p_op x) as [[]| |] eqn:Eo; try (by apply Hsame; [| | unfold retlike, is_op; rewrite Eo]);
        try (destruct Hinv as (y & Hy & Hr); by eauto).
      destruct Hinv as (l' & Hl' & [Hc | [Hc Hrp]]); exists l'; (split; [done |]); [left | right]; try by apply Hsame.
      split; [by apply Hsame |]. apply (retpath_mono cur cur2 0 (S j) Hrp). cbn [Nat.add]. intros k y Hy Hyo.
      destruct (decide (k = i)) as [-> |].
      { simplify_eq. unfold retlike, is_label, is_op in Hyo. by rewrite Ho in Hyo. }
      destruct (Hev k y Hy) as [? | (Hr & y' & ? & ?)]; [done | eauto |]. exists y'. split_and!; try done.
      intros Hl. unfold retlike, is_label, is_op in *. by destruct (p_op y) as [[]| |].
    + rewrite decide_False in Hinv by lia.
      destruct (p_op x) as [[]| |] eqn:Eo; try (apply Hsame; [lia | done | unfold retlike, is_op; by rewrite Eo]);
        try (destruct Hinv as (y & Hy & Hr); apply (Hret y); [lia | done..]).
  - apply IH; [lia | done |]. intros j x Hx. specialize (Hinv j x Hx).
    destruct (decide (j = i)) as [-> | Hne]; [| by repeat case_decide; try lia].
    rewrite decide_True by lia. rewrite decide_False in Hinv by lia. assert (x0 = x) as -> by congruence. unfold allowed.
    destruct (p_op x) as [[]| |] eqn:Eo; try done. congruence.
Qed.

Definition starts_with_call (code : pir) : Prop := ∃ x, head code = Some x ∧
  (p_op x = PIR_OPENCALL ∨ p_op x = OP VM_CALL ∨ p_op x = OP VM_JUMP).

Lemma starts_with_call_facts code : starts_with_call code → hok code ∧ plen code = O ∧ code ≠ [].
Proof.
  intros (x & Hx & Ho). destruct code as [|y code]; [done |]. injection Hx as ->.
  split_and!; [| | done]; [| rewrite plen_cons].
  - left. unfold is_label, is_op. by destruct Ho as [-> | [-> | ->]].
  - unfold is_matcher, is_op. by destruct Ho as [-> | [-> | ->]].
Qed.

Lemma starts_with_call_app code r : starts_with_call code → starts_with_call (code ++ r).
Proof. intros (x & Hx & Ho). exists x. by destruct code. Qed.

Lemma resolve_calls_struct n i defs labels code code' r : resolve_calls n i defs labels code = (code', r) →
  starts_with_call code → length code' = length code ∧ (∀ z, cnt z code' = cnt z code) ∧
  (nop_ok code = true → nop_ok code' = true) ∧ starts_with_call code'.
Proof.
  revert i code. induction n as [|n IH]; intros i code; [by intros [= <- <-] |]. rewrite resolve_calls_S.
  destruct (code !! i) as [x|] eqn:Hx; [| by intros [= <- <-]]. case_bool_decide as Ho; [| apply IH].
  destruct (resolve_label defs labels x) as [l|]; [| by intros [= <- <-]]. intros H (h & Hh & Hho).
  destruct (resolve_at_struct i l code x Hx Ho) as (Hlen & Hcnt & Hnop).
  destruct (IH _ _ H) as (Hlen' & Hcnt' & Hnop' & Hst').
  - destruct (resolve_at_evolve i l code x Hx Ho) as [Hev Hat].
    rewrite head_lookup in Hh. destruct (decide (i = O)) as [-> | Hne].
    + destruct Hat as [Hat | [Hat _]]; (eexists; rewrite head_lookup; split; [exact Hat | auto]).
    + exists h. rewrite head_lookup. split; [| done].
      destruct (Hev O h Hh) as [? | [Hr _]]; [done | done |].
      exfalso. unfold retlike, is_op in Hr. by destruct Hho as [E | [E | E]]; rewrite E in Hr.
  - split_and!; [lia | intros z; by rewrite Hcnt', Hcnt | auto | done].
Qed.

(** ** The compiler's code has this shape *)

Definition makes_struct (cp : pctx → pat → res (pir * pctx)) : Prop :=
  ∀ c p code c', cp c p = Ok (code, c') → struct c code c'.

(** Take a chain of bound results of pairs apart. *)
Ltac inv_res := unfold pctx_label, next_memo_id in *; repeat (inv_bind; match goal with
  | H : (let '(_, _) := (_, _) in _) = Ok _ |- _ => cbv beta iota in H
  | H : (let '(_, _) := ?x in _) = Ok _ |- _ => destruct x eqn:?
  | H : mret _ = Ok _ |- _ => injection H; clear H; intros; subst
  end).

Section Cp.
Context (cp : pctx → pat → res (pir * pctx)) (Hcp : makes_struct cp).

Lemma compile_repeat_struct n c p code c' : compile_repeat cp n c p = Ok (code, c') → struct c code c'.
Proof.
  revert c code c'. induction n as [|n IH]; intros c code c' H; cbn [compile_repeat] in H.
  - injection H as <- <-. apply struct_nil.
  - inv_res. eapply struct_app; [by eapply Hcp | by eapply IH].
Qed.

Lemma emit_defs_struct c i defs s used code labels c' :
  emit_defs cp c i defs s used = Ok (code, labels, c') →
  (err c' = None → err c = None) ∧ nlabels c <= nlabels c' ∧ labs_in (nlabels c) (nlabels c') code ∧ nop_ok code = true.
Proof.
  revert c i code labels c'. induction defs as [|[nm dd] defs IH]; intros c i code labels c' H; cbn [emit_defs] in H.
  - injection H as <- <- <-. split_and!; try done; try lia. labs.
  - destruct (_ && _); inv_res.
    + eapply IH; eassumption.
    + match goal with H : cp _ _ = Ok _ |- _ => destruct (Hcp _ _ _ _ H) as [He1 Hle1 Hlb1 Hnp1 _] end.
      match goal with H : emit_defs _ _ _ _ _ _ = Ok _ |- _ => destruct (IH _ _ _ _ _ H) as (He2 & Hle2 & Hlb2 & Hnp2) end.
      cbn [err nlabels] in *. split_and!; [auto | lia | labs |].
      apply nop_ok_cons; [done |]. apply nopf_app; [done |]. by apply nop_ok_cons.
Qed.
End Cp.

Ltac nops := repeat first [apply nop_ok_cons; [reflexivity |] | apply nopf_app | assumption | reflexivity].

(** A fragment around [sub] whose first instruction is not a matcher. *)
Ltac struct_tac := repeat match goal with H : struct _ _ _ |- _ => destruct H end; cbn [err nlabels] in *;
  split; cbn [err nlabels] in *; [auto | lia | labs | nops | 
    try first [left; split_and!; done | right; split; [done | eexists; split; [reflexivity | done]]]].

Lemma struct_code_alt c c1 c2 l r : struct c l c1 → struct c1 r c2 →
  struct c (code_alt l r (nlabels c2) (nlabels c2 + 1)) (mk_pctx (err c2) (nlabels c2 + 1 + 1) (memo_counter c2)).
Proof.
  intros Hl Hr. unfold code_alt.
  destruct (alt_test l r (nlabels c2)) as [[] test] eqn:Ht; [| struct_tac].
  destruct (alt_test_true [] [] l r _ _ (st_hok _ _ _ Hl) (st_hok _ _ _ Hr) Ht)
    as (x & y & Hx & Hy & Hmx & Hmy & Hmt & Hlt & _ & Hal & _).
  destruct (plen_head _ _ Hx Hmx) as [_ El].
  assert (is_label x = false ∧ is_op VM_NOP x = false ∧ is_op VM_JUMP x = false) as (Hxl & Hxn & Hxj)
    by (unfold is_matcher, is_label, is_op in *; by destruct (p_op x) as [[]| |]).
  assert (nop_ok (drop 1 l) = true) as Hnd.
  { pose proof (st_nop _ _ _ Hl) as H. rewrite El in H. unfold nop_ok in H. cbn [nopf] in H.
    rewrite Hxn, Hxj in H. by apply andb_prop in H as [_ H]. }
  assert (∀ z, cnt z (drop 1 l) = cnt z l) as Hcd by (intros z; rewrite El at 2; cbn [cnt]; by rewrite Hxl).
  assert (is_op VM_NOP test = false) as Htn.
  { unfold alt_test in Ht. repeat case_match; try done; by simplify_eq. }
  cbn [app]. destruct Hl, Hr. split; cbn [err nlabels] in *; [auto | lia | | | ].
  - unfold labs_in in *. intros z. specialize (st_labs0 z). specialize (st_labs1 z). cbn [cnt]. rewrite Hlt.
    rewrite <- app_assoc, !cnt_app, Hcd. cbn [cnt app]. rewrite !cnt_app. cbn [cnt].
    repeat match goal with |- context [is_label ?x] => first [change (is_label x) with true | change (is_label x) with false] end.
    cbn -[Z.leb Z.ltb Z.eqb] in *. revert st_labs0 st_labs1. case_zb; cbn [andb]; lia.
  - apply nop_ok_cons; [done |]. rewrite <- app_assoc. nops.
  - left. split_and!; [done | done |]. intros Hc. unfold is_matcher in Hmt. by rewrite Hc in Hmt.
Qed.

Lemma struct_code_cap c c1 sub id : struct c sub c1 → struct c (code_cap sub id) c1.
Proof.
  intros Hs. unfold code_cap. pose proof (nop_ok_matchers sub (st_nop _ _ _ Hs)) as [Hn1 Hn2].
  destruct (const_prefix sub) as [n back] eqn:Hcp.
  assert (plen sub = n) as Hn by (unfold plen; by rewrite Hcp). rewrite Hn in Hn1, Hn2. pose proof (plen_le sub).
  destruct ((n =? 0)%nat || (256 <=? back)) eqn:E0; [struct_tac |].
  destruct (n =? length sub)%nat eqn:E1.
  - destruct Hs. split; [auto | lia | labs | nops | by apply hok_app; [| left]].
  - assert (∀ z, cnt z (take n sub) + cnt z (drop n sub) = cnt z sub)%nat as Hc
      by (intros z; by rewrite <- cnt_app, take_drop).
    destruct Hs. split; [auto | lia | | nops |].
    + unfold labs_in in *. intros z. specialize (st_labs0 z). specialize (Hc z). rewrite !cnt_app. cbn [cnt].
      rewrite cnt_app. cbn [cnt].
      repeat match goal with |- context [is_label ?x] => first [change (is_label x) with true | change (is_label x) with false] end.
      cbv iota. lia.
    + destruct sub as [|x sub]; [cbn in *; apply orb_false_iff in E0 as [E0 _]; apply Nat.eqb_neq in E0; lia |].
      destruct n as [|n]; [done |]. cbn [take app hok]. rewrite plen_cons in Hn.
      destruct (is_matcher x) eqn:Hx; [| done]. cbn [hok] in st_hok0.
      destruct st_hok0 as [Hk | (Hxl & _)]; [by left |]. exfalso.
      unfold is_matcher, is_label, is_op in *. by destruct (p_op x) as [[]| |].
Qed.

Lemma compile_grammar_struct cp c start defs code c' : makes_struct cp →
  compile_grammar cp c start defs = Ok (code, c') → struct c code c'.
Proof.
  intros Hcp H. unfold compile_grammar in H. inv_bind.
  destruct (collect_used x) as [used any_used]. destruct (find_def x start) as [si|] eqn:Hfd.
  2: { injection H as <- <-.
       split; [cbn; by destruct (err c) | apply Z.le_refl | intros z; apply Nat.le_0_l | done..]. }
  destruct (negb any_used); [inv_bind; by eapply Hcp |].
  unfold pctx_label in H. inv_bind. destruct x0 as [[body labels] c2].
  destruct (emit_defs_struct _ Hcp _ _ _ _ _ _ _ _ H1) as (He & Hle & Hlb & Hnp). cbn [err nlabels] in *.
  set (code0 := insn_opencall start :: _) in H.
  assert (starts_with_call code0) as Hst by (eexists; split; [reflexivity | by left]).
  assert (nop_ok code0 = true) as Hn0 by (by repeat (apply nop_ok_cons; [done |])).
  destruct (resolve_calls (length code0) 0 x labels code0) as [code1 r] eqn:Hrc.
  destruct (resolve_calls_struct _ _ _ _ _ _ _ Hrc Hst) as (Hlen & Hcnt & Hnop & Hst1).
  destruct (starts_with_call_facts _ Hst1) as (Hok & _ & Hne).
  assert (∀ z, cnt z code1 = cnt z body) as Hc1 by (intros z; by rewrite Hcnt).
  destruct r as [name|]; injection H as <- <-.
  - split; [| destruct name; cbn; lia | | by apply Hnop | done].
    + intros Hn. apply He. destruct name; [| done]. cbn in Hn. by destruct (err c2).
    + unfold labs_in in *. intros z. specialize (Hlb z). rewrite Hc1.
      assert (nlabels (match name with Some n => set_err c2 n | None => c2 end) = nlabels c2) as -> by by destruct name.
      revert Hlb. case_zb; cbn [andb]; lia.
  - split; [auto | lia | | apply nopf_app; [by apply Hnop | done] |
      by apply starts_with_call_facts, starts_with_call_app].
    unfold labs_in in *. intros z. specialize (Hlb z). rewrite cnt_app, Hc1. cbn [cnt].
    change (is_label (insn_label (nlabels c))) with true. cbn -[Z.leb Z.ltb Z.eqb].
    revert Hlb. case_zb; cbn [andb]; lia.
Qed.

Lemma struct_literal c str : struct c ((λ b, insn_u8 VM_CHAR (u8 b)) <$> str) c.
Proof.
  assert (∀ z, cnt z ((λ b, insn_u8 VM_CHAR (u8 b)) <$> str) = O) as Hc.
  { intros z. induction str as [|b str IH]; [done |]. by rewrite fmap_cons; cbn [cnt]. }
  split; [done | lia | intros z; rewrite Hc; lia | |].
  - clear Hc. induction str as [|b str IH]; [done |]. rewrite fmap_cons. by apply nop_ok_cons.
  - destruct str as [|b str]; [done |]. left. split_and!; [done.. |]. intros _. apply u8_range.
Qed.

(** Facts of the recursive calls at hand. *)
Ltac sub_structs IH := repeat match goal with
  | H : compile_pat _ _ _ = Ok _ |- _ => apply IH in H
  end.

Lemma compile_struct fuel : makes_struct (compile_pat fuel).
Proof.
  induction fuel as [|fuel IH]; intros c p code c' H; [done |].
  destruct p; cbn [compile_pat] in H.
  - inv_bind. destruct (combine x x0); [injection H as <- <-; by struct_tac |].
    inv_res. eapply struct_code_alt; by eapply IH.
  - inv_res. eapply struct_app; by eapply IH.
  - inv_bind. destruct x; inv_res; sub_structs IH; unfold code_star, code_memo_star; by struct_tac.
  - inv_res. sub_structs IH. by apply struct_app_rev with p0.
  - inv_bind. destruct (literal1 x) as [b|]; [inv_res; by struct_tac |].
    destruct x; try (by eapply IH). inv_res. by struct_tac.
  - inv_res. sub_structs IH. unfold code_not. by struct_tac.
  - inv_res. sub_structs IH. unfold code_and. by struct_tac.
  - inv_res. apply struct_code_cap. by eapply IH.
  - inv_res. sub_structs IH. unfold code_memo. by struct_tac.
  - inv_res. sub_structs IH. unfold code_check. by struct_tac.
  - by eapply compile_grammar_struct.
  - inv_bind. destruct x0 as [sub c1]. inv_bind. destruct (search_grammar x x0) as [s ds].
    apply IH in H1 as [He Hle _ _ _]. apply (compile_grammar_struct _ _ _ _ _ _ IH) in H as [He2 Hle2 Hlb2 Hn2 Hk2].
    split; [auto | lia | | done..]. labs.
  - by eapply compile_repeat_struct.
  - injection H as <- <-. by struct_tac.
  - injection H as <- <-. apply struct_literal.
  - destruct inlined as [q|]; [by eapply IH |]. injection H as <- <-. by struct_tac.
  - injection H as <- <-. by struct_tac.
  - destruct recover as [q|]; [| injection H as <- <-; by struct_tac].
    inv_res. sub_structs IH. by struct_tac.
  - injection H as <- <-. by struct_tac.
  - injection H as <- <-. apply struct_nil.
Qed.

Lemma err_before fuel c p code c' : compile_pat fuel c p = Ok (code, c') → err c' = None → err c = None.
Proof. intros H. by destruct (compile_struct _ _ _ _ _ H). Qed.

Lemma hok_of fuel c p code c' : compile_pat fuel c p = Ok (code, c') → hok code.
Proof. intros H. by destruct (compile_struct _ _ _ _ _ H). Qed.

(** No error yet at the intermediate contexts. *)
Ltac errs := repeat match goal with
  | A : compile_pat _ ?c0 _ = Ok (_, ?c1), E : err ?c1 = None |- _ =>
      assert_fails (assert (err c0 = None) by assumption); pose proof (err_before _ _ _ _ _ A E)
  end.
