(* ===== verification/Trees.v ===== *)
(** * Trees: the repeated memoized patterns of a compilation and their ids

    The compiler draws an id from the counter for every repetition of a memoized
    pattern it generates code for.  [tree_nodes] follows its recursion and lists
    the repetitions with their ids, which are different, in order, and between
    the counter before and after. *)
From stdpp Require Import sorting.
From S2P Require Import Prelude Charset Input Code ITree Memo Stack Vm Pattern Sem PatternFacts Inline Compile Machine Memos CompileSpec CompileNodes CompileStruct.

Notation defs := (list (string * pat)).

Definition after_code {A} (r : res (A * pctx)) (k : pctx → list tree_node) : list tree_node :=
  match r with Ok (_, c) => k c | _ => [] end.

Definition of_pat (r : res pat) (k : pat → list tree_node) : list tree_node :=
  match r with Ok p => k p | _ => [] end.

Section Grammar.
Context (cp : pctx → pat → res (pir * pctx)) (tn : defs → pctx → pat → list tree_node).

Fixpoint emit_trees (env : defs) (c : pctx) (i : nat) (ds : defs) (startidx : nat) (used : list bool) : list tree_node :=
  match ds with
  | [] => []
  | (_, d) :: ds =>
      if negb (i =? startidx)%nat && negb (default false (used !! i)) then emit_trees env c (S i) ds startidx used
      else
        let '(l, c) := pctx_label c in
        tn env c d ++ after_code (cp c d) (λ c, emit_trees env c (S i) ds startidx used)
  end.

Definition grammar_trees (c : pctx) (start : string) (ds : defs) : list tree_node :=
  match grammar_inline start ds with
  | Ok ds =>
      let '(used, any_used) := collect_used ds in
      match find_def ds start with
      | None => []
      | Some startidx =>
          if negb any_used then match ds !! startidx with Some (_, d) => tn [] c d | None => [] end
          else let '(lend, c) := pctx_label c in emit_trees ds c 0 ds startidx used
      end
  | _ => []
  end.

Fixpoint repeat_trees (env : defs) (n : nat) (c : pctx) (p : pat) : list tree_node :=
  match n with
  | O => []
  | S n => tn env c p ++ after_code (cp c p) (λ c, repeat_trees env n c p)
  end.
End Grammar.

Fixpoint tree_nodes (fuel : nat) (env : defs) (c : pctx) (p : pat) : list tree_node :=
  match fuel with
  | O => []
  | S fuel =>
      let sub (c : pctx) (q : pat) := of_pat (get_pat q) (tree_nodes fuel env c) in
      let csub (c : pctx) (q : pat) := q ← get_pat q; compile_pat fuel c q in
      match p with
      | PAT_ALT l r =>
          of_pat (get_pat l) (λ lp, of_pat (get_pat r) (λ rp,
            match combine lp rp with
            | Some _ => []
            | None => tree_nodes fuel env c lp ++ after_code (compile_pat fuel c lp) (λ c, tree_nodes fuel env c rp)
            end))
      | PAT_SEQ l r => sub c l ++ after_code (csub c l) (λ c, sub c r)
      | PAT_STAR q =>
          of_pat (get_pat q) (λ sp,
            match (sp : pat) with
            | PAT_CLASS _ => []
            | PAT_MEMO q _ => sub c q ++ after_code (csub c q) (λ c, [TreeNode env sp (memo_counter c)])
            | _ => tree_nodes fuel env c sp
            end)
      | PAT_PLUS q =>
          of_pat (get_pat q) (λ sp,
            tree_nodes fuel env c (pat_star sp) ++ after_code (compile_pat fuel c (pat_star sp)) (λ c, tree_nodes fuel env c sp))
      | PAT_OPTIONAL q =>
          of_pat (get_pat q) (λ sp,
            match literal1 sp, (sp : pat) with
            | Some _, _ | None, PAT_CLASS _ => []
            | None, _ => tree_nodes fuel env c (pat_alt sp PAT_EMPTY)
            end)
      | PAT_NOT q | PAT_AND q | PAT_CAP q _ => sub c q
      | PAT_MEMO q _ | PAT_CHECK q _ _ _ => sub (pctx_label c).2 q
      | PAT_SEARCH q =>
          of_pat (get_pat q) (λ sp,
            tree_nodes fuel [] c sp ++
            match compile_pat fuel c sp with
            | Ok (code, c) =>
                match search_skip code with
                | Ok skip => let '(start, ds) := search_grammar sp skip in grammar_trees (compile_pat fuel) (tree_nodes fuel) c start ds
                | _ => []
                end
            | _ => []
            end)
      | PAT_GRAMMAR start ds => grammar_trees (compile_pat fuel) (tree_nodes fuel) c start ds
      | PAT_NONTERM _ (Some d) => tree_nodes fuel env c d
      | PAT_ERROR _ (Some q) => tree_nodes fuel env c q
      | PAT_REPEAT q n => repeat_trees (compile_pat fuel) (tree_nodes fuel) env (Z.to_nat n) c q
      | _ => []
      end
  end.

(** ** The ids *)

Definition ids_in (lo hi : Z) (l : list tree_node) : Prop :=
  lo <= hi ∧ StronglySorted Z.lt (tn_id <$> l) ∧ Forall (λ x, lo <= tn_id x < hi) l.

Lemma ids_nil lo hi : lo <= hi → ids_in lo hi [].
Proof. intros. repeat constructor; done. Qed.

Lemma ids_app lo mid hi l1 l2 : ids_in lo mid l1 → ids_in mid hi l2 → ids_in lo hi (l1 ++ l2).
Proof.
  intros (H1 & H2 & H3) (H4 & H5 & H6). split; [lia |]. rewrite fmap_app, Forall_app, StronglySorted_app. rewrite Forall_forall in *.
  split_and!; [| done | done | |].
  - intros a b (x & -> & Hx)%list_elem_of_fmap (y & -> & Hy)%list_elem_of_fmap. specialize (H3 x Hx). specialize (H6 y Hy). lia.
  - intros x Hx. specialize (H3 x Hx). lia.
  - apply Forall_forall. intros x Hx. specialize (H6 x Hx). lia.
Qed.

(** Different ids. *)
Lemma ids_in_inj lo hi l x y : ids_in lo hi l → x ∈ l → y ∈ l → tn_id x = tn_id y → x = y.
Proof.
  intros (_ & Hs & _) Hx Hy Hid. assert (NoDup (tn_id <$> l)) as Hnd.
  { induction Hs as [|z zs _ IH Hz]; constructor; [| done]. intros Hin. rewrite Forall_forall in Hz. specialize (Hz _ Hin). lia. }
  apply list_elem_of_lookup in Hx as [i Hx], Hy as [j Hy].
  assert (i = j) as ->; [| congruence]. apply (NoDup_lookup _ _ _ (tn_id x) Hnd); rewrite list_lookup_fmap; [by rewrite Hx | by rewrite Hy, Hid].
Qed.

Definition ids_ok (cp : pctx → pat → res (pir * pctx)) (tn : defs → pctx → pat → list tree_node) : Prop :=
  ∀ env c p code c', cp c p = Ok (code, c') → ids_in (memo_counter c) (memo_counter c') (tn env c p).

(** The rest of a compilation. *)
Lemma ids_after {A} (r : res (A * pctx)) k x c lo hi l : r = Ok (x, c) → ids_in lo (memo_counter c) l → ids_in (memo_counter c) hi (k c) →
  ids_in lo hi (l ++ after_code r k).
Proof. intros -> Hl Hk. by eapply ids_app. Qed.

Section Ids.
Context (cp : pctx → pat → res (pir * pctx)) (tn : defs → pctx → pat → list tree_node) (Hok : ids_ok cp tn).

Lemma emit_ids env ds : ∀ c i s used body labels c', emit_defs cp c i ds s used = Ok (body, labels, c') →
  ids_in (memo_counter c) (memo_counter c') (emit_trees cp tn env c i ds s used).
Proof.
  induction ds as [|[nm d] ds IH]; intros c i s used body labels c' H; cbn [emit_defs emit_trees] in *.
  { injection H as <- <- <-. by apply ids_nil. }
  destruct (_ && _); inv_res; [by eapply IH |].
  match goal with H : cp _ d = Ok _ |- _ => eapply ids_after; [exact H | exact (Hok env _ _ _ _ H) | by eapply IH] end.
Qed.

Lemma grammar_ids c start ds code c' : compile_grammar cp c start ds = Ok (code, c') →
  ids_in (memo_counter c) (memo_counter c') (grammar_trees cp tn c start ds).
Proof.
  unfold compile_grammar, grammar_trees. intros H. inv_bind. rewrite H0. destruct (collect_used x) as [used any].
  destruct (find_def x start) as [si|].
  2: { injection H as <- <-. unfold set_err. cbn. by apply ids_nil. }
  destruct any; cbn [negb] in *.
  - unfold pctx_label in *. inv_bind. destruct x0 as [[body labels] c2]. apply (emit_ids x) in H1. cbn [memo_counter] in H1.
    destruct (resolve_calls _ _ _ _ _) as [code1 [[name|]|]]; injection H as <- <-; exact H1.
  - inv_bind. destruct (x !! si) as [[nm d]|] eqn:Hd; [| done]. cbn in H1. injection H1 as ->. exact (Hok [] _ _ _ _ H).
Qed.

Lemma repeat_ids env n : ∀ c p code c', compile_repeat cp n c p = Ok (code, c') →
  ids_in (memo_counter c) (memo_counter c') (repeat_trees cp tn env n c p).
Proof.
  induction n as [|n IH]; intros c p code c' H; cbn [compile_repeat repeat_trees] in *.
  { injection H as <- <-. by apply ids_nil. }
  inv_res. match goal with H : cp _ p = Ok _ |- _ => eapply ids_after; [exact H | exact (Hok env _ _ _ _ H) | by eapply IH] end.
Qed.
End Ids.

Lemma tree_nodes_ids fuel : ids_ok (compile_pat fuel) (tree_nodes fuel).
Proof.
  induction fuel as [|fuel IH]; intros env c p code c' H; [done |].
  assert (∀ c q x code c', get_pat q = Ok x → compile_pat fuel c x = Ok (code, c') →
    ids_in (memo_counter c) (memo_counter c') (of_pat (get_pat q) (tree_nodes fuel env c))) as Hsub.
  { intros c0 q x code0 c0' Hq Hc. rewrite Hq. by eapply IH. }
  destruct p as [| | | q | q | | | | | q fn id flag | start ds | | q k | | | nm [q|] | | msg [q|] | |]; cbn [compile_pat tree_nodes] in *.
  all: try (injection H as <- <-; by apply ids_nil).
  - (* choice *) inv_bind. rewrite H0, H1. cbn [of_pat]. destruct (combine x x0); [injection H as <- <-; by apply ids_nil |]. inv_res.
    match goal with A : compile_pat fuel c x = Ok (_, ?c1), B : compile_pat fuel ?c1 x0 = Ok _ |- _ => eapply ids_after; [exact A | exact (IH env _ _ _ _ A) | exact (IH env _ _ _ _ B)] end.
  - (* sequence *) inv_res.
    match goal with A : get_pat p1 = Ok _, A' : compile_pat fuel c _ = Ok (_, ?c1), B : get_pat p2 = Ok _, B' : compile_pat fuel ?c1 _ = Ok _ |- _ =>
      eapply ids_after; [rewrite A; exact A' | exact (Hsub _ _ _ _ _ A A') | exact (Hsub _ _ _ _ _ B B')] end.
  - (* star *) inv_bind. rewrite H0. cbn [of_pat]. destruct x; inv_res; try match goal with A : compile_pat fuel c _ = Ok _ |- _ => exact (IH env _ _ _ _ A) end; [| by apply ids_nil].
    match goal with A : get_pat _ = Ok ?y, A' : compile_pat fuel c ?y = Ok (_, ?c1) |- _ =>
      eapply ids_after; [rewrite A; exact A' | exact (Hsub _ _ _ _ _ A A') |] end.
    split; [cbn; lia |]. split; [repeat constructor |]. apply Forall_singleton. cbn. lia.
  - (* plus *) inv_res. match goal with A : get_pat _ = Ok _ |- _ => rewrite A end. cbn [of_pat].
    match goal with A : compile_pat fuel c (pat_star _) = Ok (_, ?c1), B : compile_pat fuel ?c1 _ = Ok _ |- _ => eapply ids_after; [exact A | exact (IH env _ _ _ _ A) | exact (IH env _ _ _ _ B)] end.
  - (* optional *) inv_bind. rewrite H0. cbn [of_pat]. destruct (literal1 x); [inv_res; by apply ids_nil |].
    destruct x; try exact (IH env _ _ _ _ H). inv_res. by apply ids_nil.
  - inv_res. match goal with A : get_pat _ = Ok _, A' : compile_pat fuel c _ = Ok _ |- _ => exact (Hsub _ _ _ _ _ A A') end.
  - inv_res. match goal with A : get_pat _ = Ok _, A' : compile_pat fuel c _ = Ok _ |- _ => exact (Hsub _ _ _ _ _ A A') end.
  - inv_res. match goal with A : get_pat _ = Ok _, A' : compile_pat fuel c _ = Ok _ |- _ => exact (Hsub _ _ _ _ _ A A') end.
  - inv_res. match goal with A : get_pat _ = Ok _, A' : compile_pat fuel _ _ = Ok _ |- _ => exact (Hsub _ _ _ _ _ A A') end.
  - inv_res. match goal with A : get_pat _ = Ok _, A' : compile_pat fuel _ _ = Ok _ |- _ => exact (Hsub _ _ _ _ _ A A') end.
  - exact (grammar_ids _ _ IH _ _ _ _ _ H).
  - (* search *) inv_bind. rewrite H0. cbn [of_pat]. destruct x0 as [sub c1]. inv_bind. rewrite H1, H2.
    destruct (search_grammar x x0) as [s ds]. eapply ids_app; [exact (IH [] _ _ _ _ H1) | exact (grammar_ids _ _ IH _ _ _ _ _ H)].
  - exact (repeat_ids _ _ IH env _ _ _ _ _ H).
  - exact (IH env _ _ _ _ H).
  - inv_res. match goal with A : compile_pat fuel c q = Ok _ |- _ => exact (IH env _ _ _ _ A) end.
Qed.
