(* ===== verification/Operands.v ===== *)
(** * Operands: what compiled instructions carry

    For a well-formed pattern every set operand is a set and every one-byte
    operand a byte: the builder takes them as they are. *)
From S2P Require Import Prelude Charset Input Code ITree Memo Stack Vm Pattern Compile Sem PatternFacts Inline Wf InlineSound Machine CompileSpec CompileNodes CompileStruct.

(** What compiling a node itself asks of it: a choice is compiled without being
    simplified first. *)
Definition wfc (p : pat) : bool := match p with PAT_ALT l r => wfp l && wfp r | _ => wfp p end.

Lemma wfp_wfc p : wfp p = true → wfc p = true.
Proof. destruct p; try done. cbn [wfp wfc]. by intros [? _]%andb_prop. Qed.

(** ** Operand ranges *)

Definition pir_set_ok (x : pir_insn) : bool :=
  match p_op x with
  | OP (VM_SET | VM_SPAN | VM_TEST_SET | VM_TEST_SET_NOCHOICE) => bool_decide (charset_wf (p_set x))
  | _ => true
  end.

Definition pir_byte_ok (x : pir_insn) : bool :=
  match p_op x with
  | OP (VM_ANY | VM_EMPTY) => byte_operand (p_a x)
  | OP (VM_TEST_ANY | VM_CAPTURE_LATE | VM_CAPTURE_FULL) => byte_operand (p_b x)
  | _ => true
  end.

Definition pir_ok (x : pir_insn) : bool := pir_set_ok x && pir_byte_ok x.

Definition operands_ok (l : pir) : Prop := Forall (λ x, pir_ok x = true) l.

Definition ops_ok (cp : pctx → pat → res (pir * pctx)) : Prop :=
  ∀ c p code c', cp c p = Ok (code, c') → wfc p = true → operands_ok code.

(** Solve [operands_ok] of a list of instructions and known parts. *)
Ltac operands := unfold code_not, code_and, code_memo, code_check, code_star, code_memo_star, operands_ok in *; repeat (rewrite ?Forall_app, ?Forall_cons, ?Forall_nil; split_and?); try done.

Lemma operands_set x : pir_ok x = true → is_op VM_SET x = true → charset_wf (p_set x).
Proof.
  unfold pir_ok, pir_set_ok, is_op. intros H Ho. apply bool_decide_eq_true in Ho. rewrite Ho in H. bools.
  by apply bool_decide_eq_true in H.
Qed.

Lemma resolve_calls_ops n i defs labels code code' r : resolve_calls n i defs labels code = (code', r) →
  operands_ok code → operands_ok code'.
Proof.
  revert i code. induction n as [|n IH]; intros i code; [by intros [= <- _] |]. cbn [resolve_calls].
  destruct (code !! i) as [x|]; [| by intros [= <- _]]. case_bool_decide as Hop; [| apply IH].
  match goal with |- context [match ?m with Some _ => _ | None => _ end] => destruct m as [l|] end; [| by intros [= <- _]].
  intros H Hok. eapply IH; [exact H |]. repeat case_match; repeat apply Forall_insert; done.
Qed.

Lemma emit_defs_ops cp c i defs s used code labels c' : ops_ok cp → Forall (λ nd, wfc nd.2 = true) defs →
  emit_defs cp c i defs s used = Ok (code, labels, c') → operands_ok code.
Proof.
  intros Hcp Hwf. revert c i code labels c'. induction Hwf as [|[nm q] ds Hq _ IH]; intros c i code labels c' H;
    cbn [emit_defs] in H; [injection H as <- _ _; constructor |].
  destruct (_ && _); inv_res; [by eapply IH |].
  match goal with A : cp _ q = Ok _ |- _ => pose proof (Hcp _ _ _ _ A Hq) end.
  match goal with A : emit_defs _ _ _ _ _ _ = Ok _ |- _ => pose proof (IH _ _ _ _ _ A) end. operands.
Qed.

Lemma compile_grammar_ops cp c start defs0 defs code c' : ops_ok cp →
  grammar_inline start defs0 = Ok defs → Forall (λ nd, wfc nd.2 = true) defs →
  compile_grammar cp c start defs0 = Ok (code, c') → operands_ok code.
Proof.
  intros Hcp Hinl Hwf H. unfold compile_grammar in H. rewrite Hinl in H. cbn [mbind res_bind] in H.
  destruct (collect_used defs) as [used any_used]. destruct (find_def defs start) as [si|] eqn:Hfd; [| injection H as <- _; constructor].
  destruct (negb any_used).
  { inv_bind. eapply Hcp; [done |]. apply fmap_Some in H0 as (nd & Hnd & ->). by apply (Forall_lookup_1 _ _ _ _ Hwf Hnd). }
  unfold pctx_label in H. inv_bind. destruct x as [[body labels] c2]. apply emit_defs_ops in H0; [| done..].
  match goal with H : context [resolve_calls _ _ _ _ ?l] |- _ => set (code0 := l) in H end.
  destruct (resolve_calls _ _ _ _ code0) as [code1 r] eqn:Hrc.
  apply resolve_calls_ops in Hrc; [| unfold code0; operands].
  destruct r; injection H as <- _; operands.
Qed.

Lemma const_prefix_nonneg l : operands_ok l → 0 <= (const_prefix l).2.
Proof.
  induction 1 as [|x l Hx _ IH]; [done |]. cbn [const_prefix]. destruct (const_prefix l) as [n w]. cbn in IH.
  destruct (_ || _); [cbn; lia |]. destruct (is_op VM_ANY x) eqn:Ho; [| done]. cbn.
  unfold pir_ok, pir_byte_ok, is_op in *. apply bool_decide_eq_true in Ho. rewrite Ho in Hx.
  unfold byte_operand in Hx. bools. zify_bool. lia.
Qed.

(** The search's grammar is not changed by inlining: its definition is not a
    leaf. *)
Definition search_body (sp : pat) (skip : option vm_charset) : pat :=
  pat_alt sp (pat_concat [pat_any 1; match skip with
    | Some s => pat_concat [pat_star (pat_set s); pat_nonterm "S"]
    | None => pat_nonterm "S" end]).

Lemma walk_inline_none body p : (∀ n, body n = None) → walk_inline body p = (p, false).
Proof.
  intros Hb. induction p as [l r IHl IHr | l r IHl IHr | | | | | | | | | start ds IH | | | | | n | | | | | |] using pat_ind';
    try rewrite walk_inline_grammar; cbn [walk_inline]; rewrite ?IHp, ?IHl, ?IHr, ?Hb; try done.
  assert (walk_defs body ds = (ds, false)) as ->; [| done].
  induction IH as [|[nm q] ds Hq _ IHds]; [done |]. cbn in Hq |- *. by rewrite Hq, IHds.
Qed.

Lemma search_inline sp skip : grammar_inline "S" [("S", search_body sp skip)] = Ok [("S", search_body sp skip)].
Proof.
  unfold grammar_inline. generalize (unresolved (PAT_GRAMMAR "S" [("S", search_body sp skip)])) as fuel. intros fuel.
  assert (grammar_inline_once "S" [("S", search_body sp skip)] = ([("S", search_body sp skip)], false)) as Ho.
  { unfold grammar_inline_once. rewrite walk_inline_none; [done |]. intros nm.
    destruct (inline_fn _ _ nm) as [q|] eqn:Hq; [| done]. exfalso. apply inline_fn_spec in Hq as [Hd Hu].
    unfold def_of in Hd. cbn [find_def] in Hd. case_decide; [| done]. cbn in Hd. injection Hd as <-.
    unfold search_body in Hu. destruct skip; cbn in Hu; lia. }
  destruct fuel; cbn [grammar_inline_fuel]; by rewrite Ho.
Qed.

Lemma search_grammar_eq sp skip : search_grammar sp skip = ("S"%string, [("S"%string, search_body sp skip)]).
Proof. by destruct skip. Qed.

Lemma search_body_wf sp skip nm q : wfp sp = true → (∀ s, skip = Some s → charset_wf s) →
  def_of [("S"%string, search_body sp skip)] nm = Some q → q = search_body sp skip ∧ wfc q = true ∧ unres q ≠ O.
Proof.
  intros Hw Hs H. unfold def_of in H. cbn [find_def] in H. case_decide; [| done]. cbn in H. injection H as <-.
  split; [done |]. unfold search_body. destruct skip as [s|]; cbn; rewrite Hw; [| split; [done | lia]].
  rewrite bool_decide_true by auto. split; [done | lia].
Qed.

(** What the skip set is taken from. *)
Lemma search_skip_spec sub skip : hok sub → search_skip sub = Ok skip → ∀ s, skip = Some s →
  ∃ x, head sub = Some x ∧ (is_op VM_CHAR x = true ∧ is_byte (p_a x) ∧ s = vm_charset_negate (one_set (p_a x)) ∨
    is_op VM_SET x = true ∧ s = vm_charset_negate (p_set x)).
Proof.
  intros Hok H s ->. unfold search_skip in H. destruct (sub !! next_insn_idx sub 0) as [x|] eqn:Hx; [| done].
  exists x. destruct (is_op VM_CHAR x) eqn:Hc; [| destruct (is_op VM_SET x) eqn:Hs; [| done]].
  - destruct (hok_next sub x Hok Hx) as (_ & Hh & Hb); [by rewrite Hc, orb_true_r |]. specialize (Hb Hc).
    injection H as <-. split; [done |]. left. by rewrite u8_id.
  - destruct (hok_next sub x Hok Hx) as (_ & Hh & _); [by rewrite Hs |].
    destruct (vm_charset_count (p_set x)) as [n|]; [| done]. injection H as H. case_match; [| done].
    injection H as <-. split; [done |]. by right.
Qed.

Lemma operands_head l : operands_ok l → ∀ x, head l = Some x → is_op VM_SET x = true → charset_wf (p_set x).
Proof. intros H x Hx. apply operands_set. destruct l; [done |]. injection Hx as ->. by inversion H. Qed.

Lemma search_skip_wf sub skip : hok sub → operands_ok sub → search_skip sub = Ok skip →
  ∀ s, skip = Some s → charset_wf s.
Proof.
  intros Hok Hops H s Hs. destruct (search_skip_spec _ _ Hok H s Hs) as (x & Hx & [(_ & Hb & ->) | [Ho ->]]);
    apply vm_charset_negate_wf; [by apply one_set_wf |].
  apply operands_set; [| done]. destruct sub; [done |]. injection Hx as ->. by inversion Hops.
Qed.

Lemma wf_defs_lookup defs nm q : wf_defs defs = true → def_of defs nm = Some q →
  wfc q = true ∧ (unres q = O → closed q = true).
Proof.
  intros Hwf Hq. apply (wf_def_of _ _ _ Hwf) in Hq. unfold wf_def in Hq. bools.
  split; [by apply wfp_wfc | by apply closed_of_unres].
Qed.

Lemma code_alt_ops l r l1 l2 : operands_ok l → operands_ok r → operands_ok (code_alt l r l1 l2).
Proof.
  intros Hl Hr. unfold code_alt. destruct (alt_test l r l1) as [dis test] eqn:Ht.
  destruct dis; [| operands].
  assert (pir_ok test = true).
  { unfold alt_test in Ht. destruct (l !! next_insn_idx l 0) as [x|] eqn:Hx; [| done]. destruct (r !! _) as [y|]; [| done].
    apply (Forall_lookup_1 _ _ _ _ Hl) in Hx.
    destruct (is_op VM_SET x) eqn:E; [injection Ht as _ <- | destruct (is_op VM_CHAR x); by injection Ht as _ <-].
    apply operands_set in E; [| done]. unfold pir_ok, pir_set_ok, pir_byte_ok. cbn. by rewrite bool_decide_true. }
  unfold operands_ok in *. cbn [app]. repeat (rewrite Forall_app || rewrite Forall_cons); split_and?; try done; by apply Forall_drop.
Qed.

Lemma code_cap_ops l id : operands_ok l → operands_ok (code_cap l id).
Proof.
  intros Hl. unfold code_cap. pose proof (const_prefix_nonneg _ Hl) as H0.
  destruct (const_prefix l) as [n back]. cbn in H0. destruct (_ || _) eqn:E; [operands |].
  assert (byte_operand back = true) as Hb by (unfold byte_operand; zify_bool; lia).
  destruct (n =? length l)%nat; operands; try (by apply Forall_take); try (by apply Forall_drop);
    unfold pir_ok, pir_set_ok, pir_byte_ok; by cbn.
Qed.

Lemma compile_operands fuel : ops_ok (compile_pat fuel).
Proof.
  induction fuel as [|fuel IH]; intros c p code c' H Hwf; [done |].
  assert (∀ c q q' code c', compile_pat fuel c q' = Ok (code, c') → get_pat q = Ok q' → wfp q = true → operands_ok code) as Hsub.
  { intros c0 q q' code0 c0' H' Hq Hw. eapply IH; [done |]. apply wfp_wfc. by apply (get_pat_keeps _ _ Hq Hw). }
  assert (∀ c q q' code c', compile_pat fuel c (pat_star q') = Ok (code, c') → get_pat q = Ok q' → wfp q = true → operands_ok code) as Hstar.
  { intros c0 q q' code0 c0' H' Hq Hw. eapply IH; [done |]. cbn. by apply (get_pat_keeps _ _ Hq Hw). }
  destruct p; cbn [compile_pat] in H; cbn [wfc] in Hwf; try (rewrite wfp_grammar in Hwf || cbn [wfp] in Hwf); bools;
    try (inv_res; repeat match goal with A : compile_pat fuel _ _ = Ok _ |- _ =>
           first [pose proof (Hstar _ _ _ _ _ A ltac:(eassumption) ltac:(eassumption))
                 | pose proof (Hsub _ _ _ _ _ A ltac:(eassumption) ltac:(eassumption))]; clear A
         end; first [by apply code_cap_ops | by operands]).
  - inv_bind. destruct (combine x x0) as [s|] eqn:Hc.
    + injection H as <- <-. operands. unfold pir_ok, pir_set_ok, pir_byte_ok. cbn. rewrite bool_decide_true; [done |].
      by apply (combine_spec [] ltac:(done) x x0); [| apply wfp_pat_ok; eapply get_pat_keeps..].
    + inv_res. apply code_alt_ops; by eapply Hsub.
  - inv_bind. destruct x; inv_res; try (assert (operands_ok l) by (by eapply Hsub); by operands).
    + destruct (get_pat_keeps _ _ H0 Hwf) as [Hk _]. assert (operands_ok l) by (by eapply Hsub). by operands.
    + destruct (get_pat_keeps _ _ H0 Hwf) as [Hk _]. cbn in Hk. operands. unfold pir_ok, pir_set_ok, pir_byte_ok. cbn. by rewrite Hk.
  - inv_bind. destruct (get_pat_keeps _ _ H0 Hwf) as [Hk _].
    destruct (literal1 x) as [b|]; [inv_res; by operands |].
    assert (∀ code c', compile_pat fuel c (pat_alt x PAT_EMPTY) = Ok (code, c') → operands_ok code) as Halt.
    { intros code0 c0' H'. eapply IH; [exact H' |]. cbn [pat_alt wfc]. by rewrite andb_true_r. }
    destruct x; try (by eapply Halt). inv_res. cbn in Hk. operands. unfold pir_ok, pir_set_ok, pir_byte_ok. cbn. by rewrite Hk.
  - destruct (grammar_inline_inlines start defs) as [defs' Hinl].
    destruct (grammar_inline_inlined _ _ _ Hwf Hinl) as [Hwf' _].
    eapply compile_grammar_ops; [exact IH | exact Hinl | | exact H].
    apply Forall_forall. intros nd Hnd. unfold wf_defs in Hwf'. rewrite forallb_forall in Hwf'.
    apply list_elem_of_In, Hwf' in Hnd. unfold wf_def in Hnd. bools. by apply wfp_wfc.
  - inv_bind. destruct x0 as [sub c1]. inv_bind. rewrite search_grammar_eq in H.
    destruct (compile_struct _ _ _ _ _ H3) as [_ _ _ _ Hok].
    eapply compile_grammar_ops; [exact IH | apply search_inline | | exact H]. apply Forall_singleton.
    eapply (search_body_wf x x0 "S"); [by eapply get_pat_keeps | | by destruct x0].
    eapply search_skip_wf; [done | by eapply Hsub | done].
  - revert c code H. induction (Z.to_nat n) as [|m IHm]; intros c code H; cbn [compile_repeat] in H; [by inv_res; operands |].
    inv_res. operands; [by eapply IH; [| apply wfp_wfc] | by eapply IHm].
  - inv_res. operands. unfold pir_ok, pir_set_ok, pir_byte_ok. cbn. by rewrite Hwf.
  - inv_res. unfold operands_ok. rewrite Forall_fmap. by apply Forall_true.
  - destruct inlined as [q|]; [bools; eapply IH; [done | by apply wfp_wfc] | inv_res; by operands].
  - destruct recover as [q|]; inv_res; [| by operands].
    match goal with A : compile_pat fuel _ q = Ok _ |- _ => pose proof (IH _ _ _ _ A (wfp_wfc _ Hwf)) end. by operands.
Qed.
