(* ===== verification/Labels.v ===== *)
(** * Labels: compiled code refers only to what it defines

    Every label an instruction of compiled code mentions is placed in the code,
    an error instruction has its message and an open call its name.  So the
    peephole pass and the encoder find every label they look up. *)
From S2P Require Import Prelude Charset Input Code ITree Memo Stack Vm Pattern Compile Sem PatternFacts Inline Wf InlineSound Machine CompileSpec CompileNodes CompileStruct.

(** The list label an entry mentions. *)
Definition pir_lab (x : pir_insn) : option Z :=
  match p_op x with
  | PIR_LABEL => Some (p_a x)
  | OP (VM_JUMP | VM_CHOICE | VM_CALL | VM_COMMIT | VM_PARTIAL_COMMIT | VM_BACK_COMMIT | VM_TEST_CHAR
       | VM_TEST_CHAR_NOCHOICE | VM_TEST_SET | VM_TEST_SET_NOCHOICE | VM_TEST_ANY | VM_MEMO_OPEN
       | VM_MEMO_TREE_OPEN) => Some (p_label x)
  | _ => None
  end.

Definition named (x : pir_insn) : bool :=
  match p_op x with
  | OP VM_ERROR => bool_decide (is_Some (p_msg x))
  | PIR_OPENCALL => bool_decide (is_Some (p_name x))
  | _ => true
  end.

(** [x] mentions only labels in [D]. *)
Definition refers (D : Z → Prop) (x : pir_insn) : Prop := (∀ z, pir_lab x = Some z → D z) ∧ named x = true.

Definition refs_in (D : Z → Prop) (l : pir) : Prop := Forall (refers D) l.

Definition self_contained (l : pir) : Prop := refs_in (λ z, (1 <= cnt z l)%nat) l.

Lemma refs_weaken (D D' : Z → Prop) l : (∀ z, D z → D' z) → refs_in D l → refs_in D' l.
Proof. intros H Hl. eapply Forall_impl; [exact Hl |]. intros x [Hx Hn]. split; [auto | done]. Qed.

Lemma refers_plain D x : pir_lab x = None → named x = true → refers D x.
Proof. intros H Hn. split; [by rewrite H | done]. Qed.

Lemma refers_to (D : Z → Prop) x z : pir_lab x = Some z → named x = true → D z → refers D x.
Proof. intros H Hn Hz. split; [intros z'; rewrite H; by intros [= <-] | done]. Qed.

Lemma cnt_cons_label z l r : cnt z (insn_label l :: r) = ((if (l =? z)%Z then 1 else 0) + cnt z r)%nat.
Proof. done. Qed.

Lemma cnt_cons_insn z x r : is_label x = false → cnt z (x :: r) = cnt z r.
Proof. intros H. cbn [cnt]. by rewrite H. Qed.

(** Solve a goal on how often a label is placed. *)
Ltac counts := repeat first [rewrite cnt_app | rewrite cnt_cons_label | rewrite cnt_cons_insn by reflexivity];
  rewrite ?Z.eqb_refl; cbn [cnt]; try lia.

(** Solve [self_contained] of known instructions around self-contained parts. *)
Ltac contained := unfold self_contained, refs_in in *; repeat (rewrite ?Forall_app, ?Forall_cons, ?Forall_nil; split_and?);
  first [done
    | apply refers_plain; reflexivity
    | eapply refers_to; [reflexivity | reflexivity | cbv beta; counts; fail]
    | match goal with H : Forall (refers _) ?l |- Forall (refers _) ?l =>
        eapply refs_weaken; [| exact H]; cbv beta; intros ? ?; counts end
    | idtac].

Lemma self_app l r : self_contained l → self_contained r → self_contained (l ++ r).
Proof. intros Hl Hr. contained. Qed.

Lemma self_star sub l1 l2 : self_contained sub → self_contained (code_star sub l1 l2).
Proof. intros H. unfold code_star. contained. Qed.

Lemma self_memo_star sub l1 l2 l3 n id : self_contained sub → self_contained (code_memo_star sub l1 l2 l3 n id).
Proof. intros H. unfold code_memo_star. contained. Qed.

Lemma alt_test_head l r l1 test : hok l → hok r → alt_test l r l1 = (true, test) →
  (∀ z, cnt z (drop 1 l) = cnt z l) ∧ pir_lab test = Some l1 ∧ named test = true ∧ is_label test = false.
Proof.
  intros Hl Hr Ht. split.
  - destruct (alt_test_true [] [] l r _ _ Hl Hr Ht) as (x & y & Hx & _ & Hmx & _).
    destruct (plen_head _ _ Hx Hmx) as [_ El]. intros z. rewrite El at 2. rewrite cnt_cons_insn; [done |].
    unfold is_matcher, is_label, is_op in *. by destruct (p_op x) as [[]| |].
  - unfold alt_test in Ht. repeat case_match; simplify_eq; done.
Qed.

Lemma self_alt l r l1 l2 : hok l → hok r → self_contained l → self_contained r → self_contained (code_alt l r l1 l2).
Proof.
  intros Hkl Hkr Hl Hr. unfold code_alt. destruct (alt_test l r l1) as [dis test] eqn:Ht. destruct dis; [| contained].
  destruct (alt_test_head _ _ _ _ Hkl Hkr Ht) as (Hc & Htl & Htn & Hti).
  assert (∀ z, (1 <= cnt z l)%nat → (1 <= cnt z (drop 1 l))%nat) as Hcd by (intros z; by rewrite Hc).
  assert (refs_in (λ z, (1 <= cnt z (drop 1 l))%nat) (drop 1 l)) as Hd.
  { apply Forall_drop, (refs_weaken _ _ _ Hcd Hl). }
  generalize dependent (drop 1 l). intros l' _ _ Hd. cbn [app]. unfold self_contained, refs_in in *.
  rewrite Forall_cons. split.
  - eapply refers_to; [done.. |]. cbn [cnt]. rewrite Hti. cbn. counts.
  - eapply (refs_weaken (λ z, (1 <= cnt z ((l' ++ [insn_jump VM_JUMP l2]) ++ insn_label l1 :: r ++ [insn_label l2]))%nat));
      [intros z Hz; cbn [cnt]; lia |]. contained.
Qed.

Lemma self_cap sub id : self_contained sub → self_contained (code_cap sub id).
Proof.
  intros Hs. unfold code_cap. destruct (const_prefix sub) as [n back].
  destruct (_ || _); [contained |]. destruct (n =? length sub)%nat; [contained |].
  assert (∀ z, cnt z (take n sub) + cnt z (drop n sub) = cnt z sub)%nat as Hc
    by (intros z; by rewrite <- cnt_app, take_drop).
  pose proof (Forall_take _ n _ Hs) as H1. pose proof (Forall_drop _ n _ Hs) as H2. clear Hs.
  apply (refs_weaken _ (λ z, (1 <= cnt z (take n sub) + cnt z (drop n sub))%nat)) in H1, H2; [| intros z; by rewrite Hc..].
  clear Hc. generalize dependent (drop n sub). generalize dependent (take n sub). intros l1 l2 H1 H2. contained.
Qed.

(** ** Grammars *)

Lemma resolve_calls_refs D n i defs labels code code' r : resolve_calls n i defs labels code = (code', r) →
  (∀ l, l ∈ labels → 0 <= l → D l) → refs_in D code → refs_in D code' ∧ ∀ nm, r = Some nm → is_Some nm.
Proof.
  intros H HD. revert i code H. induction n as [|n IH]; intros i code; [by intros [= <- <-] |]. rewrite resolve_calls_S.
  destruct (code !! i) as [x|] eqn:Hx; [| by intros [= <- <-]]. case_bool_decide as Ho; [| apply IH].
  destruct (resolve_label defs labels x) as [l|] eqn:Hl.
  - intros H Hr. apply (IH _ _ H). destruct (resolve_at_eq i l code (lookup_lt_Some _ _ _ Hx)) as (o & Hoo & _ & ->).
    assert (D l) as Hdl.
    { unfold resolve_label in Hl. inv_bind. repeat match goal with H : _ = Some _ |- _ => apply bind_Some in H as (? & ? & ?) end.
      destruct (Z.ltb_spec x2 0); simplify_eq. apply HD; [by eapply list_elem_of_lookup_2 | done]. }
    assert (refers D (insn_jump o l)) as Hj by (eapply refers_to; [| | exact Hdl]; by destruct Hoo as [-> | [-> _]]).
    destruct (dead_slot i code); repeat apply Forall_insert; try done.
  - intros [= <- <-] Hr. split; [done |]. intros nm [= <-]. apply (Forall_lookup_1 _ _ _ _ Hr) in Hx as [_ Hn].
    unfold named in Hn. rewrite Ho in Hn. by apply bool_decide_eq_true in Hn.
Qed.

Definition contained_cp (cp : pctx → pat → res (pir * pctx)) : Prop :=
  ∀ c p code c', cp c p = Ok (code, c') → err c' = None → self_contained code.

Lemma emit_defs_refs cp c i defs s used code labels c' : contained_cp cp → makes_struct cp →
  emit_defs cp c i defs s used = Ok (code, labels, c') → err c' = None →
  self_contained code ∧ ∀ l, l ∈ labels → 0 <= l → (1 <= cnt l code)%nat.
Proof.
  intros Hcp Hst. revert c i code labels c'. induction defs as [|[nm q] ds IH]; intros c i code labels c' H He;
    cbn [emit_defs] in H; [injection H as <- <- _; split; [constructor | by intros l Hl%not_elem_of_nil] |].
  destruct (_ && _); inv_res.
  - match goal with A : emit_defs _ _ _ _ _ _ = Ok _ |- _ => destruct (IH _ _ _ _ _ A He) as [Hs Hk] end.
    split; [done |]. intros l [-> | Hl]%elem_of_cons; [lia | auto].
  - match goal with A : emit_defs _ _ _ _ _ _ = Ok _ |- _ => destruct (IH _ _ _ _ _ A He) as [Hs Hk];
      destruct (emit_defs_struct cp Hst _ _ _ _ _ _ _ _ A) as (He1 & _) end.
    match goal with A : cp _ q = Ok _ |- _ => pose proof (Hcp _ _ _ _ A (He1 He)) end.
    split; [contained |]. intros z [-> | Hl]%elem_of_cons; [intros _; counts |]. intros Hl0. specialize (Hk z Hl Hl0). counts.
Qed.

Lemma compile_grammar_refs cp c start defs code c' : contained_cp cp → makes_struct cp →
  compile_grammar cp c start defs = Ok (code, c') → err c' = None → self_contained code.
Proof.
  intros Hcp Hst H He. unfold compile_grammar in H. inv_bind. rename x into defs'.
  destruct (collect_used defs') as [used any_used]. destruct (find_def defs' start) as [si|]; [| injection H as <- _; constructor].
  destruct (negb any_used); [inv_bind; by eapply Hcp |].
  unfold pctx_label in H. inv_bind. destruct x as [[body labels] c2].
  match goal with H : context [resolve_calls _ _ _ _ ?l] |- _ => set (code0 := l) in H end.
  destruct (resolve_calls (length code0) 0 defs' labels code0) as [code1 r] eqn:Hrc.
  assert (err c2 = None) as He2.
  { destruct r as [[nm|]|]; injection H as _ <-; [| done..]. cbn in He. by destruct (err c2). }
  destruct (emit_defs_refs _ _ _ _ _ _ _ _ _ Hcp Hst H1 He2) as [Hb Hl].
  assert (starts_with_call code0) as Hsw by (eexists; split; [reflexivity | by left]).
  destruct (resolve_calls_struct _ _ _ _ _ _ _ Hrc Hsw) as (_ & Hcnt & _).
  destruct (resolve_calls_refs (λ z, (1 <= cnt z (code0 ++ [insn_label (nlabels c)]))%nat) _ _ _ _ _ _ _ Hrc) as [Hc1 Hr].
  - intros l Hl1 Hl2. specialize (Hl l Hl1 Hl2). unfold code0. counts.
  - unfold code0. contained.
  - destruct r as [nm|].
    + exfalso. destruct (Hr nm eq_refl) as [n ->]. injection H as _ <-. cbn in He. by destruct (err c2).
    + injection H as <- _. apply (refs_weaken _ (λ z, (1 <= cnt z (code1 ++ [insn_label (nlabels c)]))%nat)) in Hc1.
      * contained.
      * intros z. by rewrite !cnt_app, Hcnt.
Qed.

Lemma compile_repeat_refs cp n c p code c' : contained_cp cp → makes_struct cp →
  compile_repeat cp n c p = Ok (code, c') → err c' = None → self_contained code.
Proof.
  intros Hcp Hst. revert c code c'. induction n as [|n IH]; intros c code c' H He; cbn [compile_repeat] in H.
  - injection H as <- _. constructor.
  - inv_res. match goal with A : compile_repeat _ n _ _ = Ok _ |- _ =>
      pose proof (IH _ _ _ A He); destruct (compile_repeat_struct cp Hst _ _ _ _ _ A) as [He1 _ _ _ _] end.
    match goal with A : cp _ p = Ok _ |- _ => pose proof (Hcp _ _ _ _ A (He1 He)) end. by apply self_app.
Qed.

(** ** Every node *)

Ltac use_hyps := repeat match goal with
  | H : contained_cp (compile_pat ?n), A : compile_pat ?n _ _ = Ok (_, ?c), E : err ?c = None |- _ =>
      pose proof (H _ _ _ _ A E); clear A
  end.

Lemma compile_refs fuel : contained_cp (compile_pat fuel).
Proof.
  induction fuel as [|fuel IH]; intros c p code c' H He; [done |].
  destruct p; cbn [compile_pat] in H.
  1: { inv_bind. destruct (combine x x0); [injection H as <- _; contained |]. inv_res. cbn [err] in He. errs.
       apply self_alt; [by eapply hok_of | by eapply hok_of | eapply IH; eassumption | eapply IH; eassumption]. }
  all: try (inv_res; cbn [err] in He; errs; use_hyps;
    first [by apply self_app | by apply self_cap | unfold code_not, code_and, code_memo, code_check; contained; fail]).
  - (* star *) inv_bind. destruct x; inv_res; cbn [err] in He; errs; use_hyps;
      first [by apply self_star | by apply self_memo_star | contained].
  - (* optional *) inv_bind. destruct (literal1 x) as [b|]; [inv_res; contained |].
    destruct x; try (by eapply IH). inv_res. contained.
  - (* grammar *) by eapply compile_grammar_refs; [| apply compile_struct | |].
  - (* search *) inv_bind. destruct x0 as [sub c1]. inv_bind. destruct (search_grammar x x0) as [s ds].
    by eapply compile_grammar_refs; [| apply compile_struct | |].
  - (* repeat *) by eapply compile_repeat_refs; [| apply compile_struct | |].
  - (* literal *) injection H as <- _. apply Forall_fmap, Forall_true. intros b. by apply refers_plain.
  - (* non-terminal *) destruct inlined as [q|]; [by eapply IH |]. injection H as <- _. contained.
  - (* error *) destruct recover as [q|]; [| injection H as <- _; contained]. inv_res. use_hyps. contained.
Qed.
