(* ===== verification/Total.v ===== *)
(** * Total: the compiler always returns

    The recursion of [compile_pat] is not structural: it simplifies before it
    descends and compiles patterns it makes up.  [weight] bounds its depth; a
    grammar weighs what its definitions weigh once they are inlined. *)
From S2P Require Import Prelude Charset Input Code ITree Memo Stack Vm Pattern Compile Sem PatternFacts Inline Wf InlineSound Machine CompileSpec CompileNodes CompileStruct Operands.

(** ** Weights *)

Fixpoint weight_with (g : string → list (string * pat) → nat) (p : pat) : nat :=
  match p with
  | PAT_ALT l r | PAT_SEQ l r => S (Nat.max (weight_with g l) (weight_with g r))
  | PAT_STAR p | PAT_OPTIONAL p | PAT_NOT p | PAT_AND p | PAT_CAP p _ | PAT_MEMO p _ | PAT_CHECK p _ _ _
  | PAT_REPEAT p _ | PAT_NONTERM _ (Some p) | PAT_ERROR _ (Some p) => S (weight_with g p)
  | PAT_PLUS p => S (S (weight_with g p))
  | PAT_SEARCH p => (6 + weight_with g p)%nat
  | PAT_GRAMMAR start defs => S (g start defs)
  | _ => 1%nat
  end.

(** A definition of a well-formed grammar has no grammar inside. *)
Definition flat_weight : pat → nat := weight_with (λ _ _, O).

Definition grammar_weight (start : string) (defs : list (string * pat)) : nat :=
  match grammar_inline start defs with Ok defs => max_list (flat_weight ∘ snd <$> defs) | _ => O end.

Definition weight : pat → nat := weight_with grammar_weight.

Lemma weight_pos g p : (1 <= weight_with g p)%nat.
Proof. destruct p as [| | | | | | | | | | | | | | | ? [|] | | ? [|] | |]; cbn; lia. Qed.

Lemma weight_flat g p : flat p = true → weight_with g p = flat_weight p.
Proof.
  unfold flat_weight. induction p using pat_ind'; cbn [flat weight_with]; intros; bools; try done; by auto with f_equal.
Qed.

Lemma get_pat_fuel_weight g fuel p q : get_pat_fuel fuel p = Ok q → (weight_with g q <= weight_with g p)%nat.
Proof.
  revert p q. induction fuel as [|fuel IH]; intros p q H; [done |].
  destruct p as [l r | l r | | | s | | | | | | | | | | | name [d|] | | | |]; cbn [get_pat_fuel] in H;
    try (injection H as <-; cbn [weight_with]; lia).
  - inv_bind. apply IH in H0, H1. rename x into l', x0 into r'. cbn [weight_with].
    assert (mret match combine l' r' with Some s => pat_set s | None => PAT_ALT l r end = Ok q →
      (weight_with g q <= S (Nat.max (weight_with g l) (weight_with g r)))%nat) as Hc.
    { intros [= <-]. destruct (combine l' r'); cbn; lia. }
    assert (get_pat_fuel fuel (pat_optional l') = Ok q →
      (weight_with g q <= S (Nat.max (weight_with g l) (weight_with g r)))%nat) as Ho.
    { intros Hq%IH. cbn in Hq. lia. }
    destruct l'; [.. | injection H as <-; lia]; destruct r'; auto.
  - inv_bind. apply IH in H0, H1. rename x into l', x0 into r'. cbn [weight_with].
    change (mret (simplify_seq (PAT_SEQ l r) l' r') = Ok q) in H. injection H as <-.
    destruct (simplify_seq_shape (PAT_SEQ l r) l' r') as [E | [E | [E | [s E]]]]; rewrite E; cbn; lia.
  - inv_bind. apply IH in H0. rename x into s'. destruct s'; injection H as <-; cbn in *; lia.
Qed.

Lemma get_pat_weight p q : get_pat p = Ok q → (weight q <= weight p)%nat.
Proof. apply get_pat_fuel_weight. Qed.

(** ** Every node returns *)

Definition returns {A} (r : res A) : Prop := ∃ x, r = Ok x.

Definition cp_total (n : nat) (cp : pctx → pat → res (pir * pctx)) : Prop :=
  ∀ c p, wfc p = true → (2 * weight p <= n)%nat → returns (cp c p).

Lemma returns_bind {A B} (r : res A) (f : A → res B) : returns r → (∀ x, r = Ok x → returns (f x)) → returns (r ≫= f).
Proof. intros [x ->] Hf. by apply Hf. Qed.

Lemma returns_ret {A} (x : A) : returns (mret (M := res) x).
Proof. by exists x. Qed.

Lemma returns_get_pat p : returns (get_pat p).
Proof. destruct (get_pat_fuel_total (pat_size p) p) as (q & H & _); [done |]. by exists q. Qed.

#[local] Hint Resolve returns_ret returns_get_pat : peg.

Lemma find_def_lookup defs name i : find_def defs name = Some i → is_Some (defs !! i).
Proof.
  revert i. induction defs as [|[n d] defs IH]; intros i; [done |]. cbn [find_def].
  case_decide; [intros [= <-]; by eexists |]. intros (j & Hj & ->)%fmap_Some. by apply IH.
Qed.

Lemma emit_defs_total n cp c i defs s used : cp_total n cp →
  Forall (λ nd, wfc nd.2 = true ∧ (2 * weight nd.2 <= n)%nat) defs → returns (emit_defs cp c i defs s used).
Proof.
  intros Hcp Hd. revert c i. induction Hd as [|[nm q] ds [Hw Hn] _ IH]; intros c i; cbn [emit_defs]; [auto with peg |].
  destruct (_ && _).
  - apply returns_bind; [apply IH |]. intros [[code labels] c1] _. auto with peg.
  - cbn [pctx_label]. apply returns_bind; [by apply Hcp |]. intros [fn c1] _.
    apply returns_bind; [apply IH |]. intros [[code labels] c2] _. auto with peg.
Qed.

Lemma compile_grammar_total n cp c start defs0 defs : cp_total n cp → grammar_inline start defs0 = Ok defs →
  Forall (λ nd, wfc nd.2 = true ∧ (2 * weight nd.2 <= n)%nat) defs → returns (compile_grammar cp c start defs0).
Proof.
  intros Hcp Hinl Hd. unfold compile_grammar. rewrite Hinl. cbn [mbind res_bind].
  destruct (collect_used defs) as [used any_used]. destruct (find_def defs start) as [si|] eqn:Hfd; [| auto with peg].
  destruct (negb any_used).
  - destruct (find_def_lookup defs start si Hfd) as [d Hsi]. rewrite Hsi. cbn.
    destruct (Forall_lookup_1 _ _ _ _ Hd Hsi). by apply Hcp.
  - cbn [pctx_label]. apply returns_bind; [by eapply emit_defs_total |]. intros [[body labels] c2] _.
    destruct (resolve_calls _ _ _ _ _) as [code [name|]]; auto with peg.
Qed.

Lemma compile_repeat_total n cp k c p : cp_total n cp → wfc p = true → (2 * weight p <= n)%nat →
  returns (compile_repeat cp k c p).
Proof.
  intros Hcp Hw Hn. revert c. induction k as [|k IH]; intros c; cbn [compile_repeat]; [auto with peg |].
  apply returns_bind; [by apply Hcp |]. intros [sub c1] _. apply returns_bind; [apply IH |].
  intros [rest c2] _. auto with peg.
Qed.

Lemma search_skip_total sub : operands_ok sub → returns (search_skip sub).
Proof.
  intros Hok. unfold search_skip. destruct (sub !! _) as [x|] eqn:Hx; [| auto with peg].
  destruct (is_op VM_CHAR x); [auto with peg |]. destruct (is_op VM_SET x) eqn:Hs; [| auto with peg].
  rewrite count_members by (apply operands_set; [by apply (Forall_lookup_1 _ _ _ _ Hok Hx) | done]). auto with peg.
Qed.

Lemma grammar_weight_defs start defs defs' i nd : grammar_inline start defs = Ok defs' → defs' !! i = Some nd →
  flat nd.2 = true → (weight nd.2 <= grammar_weight start defs)%nat.
Proof.
  intros Hinl Hi Hf. unfold weight, grammar_weight. rewrite Hinl, weight_flat by done.
  apply max_list_elem_of_le. apply list_elem_of_fmap. exists nd. split; [done |]. by eapply list_elem_of_lookup_2.
Qed.

Section Node.
Context (fuel : nat) (IH : cp_total fuel (compile_pat fuel)).

(** A simplified sub-pattern. *)
Lemma total_pat c q q' : get_pat q = Ok q' → wfp q = true → (2 * weight q <= fuel)%nat → returns (compile_pat fuel c q').
Proof.
  intros Hq Hw Hn. apply IH; [by apply wfp_wfc, (get_pat_keeps _ _ Hq) |]. pose proof (get_pat_weight _ _ Hq). lia.
Qed.

Lemma total_sub c q : wfp q = true → (2 * weight q <= fuel)%nat → returns (q' ← get_pat q; compile_pat fuel c q').
Proof. intros Hw Hn. apply returns_bind; [auto with peg |]. intros q' Hq. by eapply total_pat. Qed.

(** The choice's branches are simplified, not the choice. *)
Lemma total_alt c l r : wfp l = true → wfp r = true → (2 * weight l <= fuel)%nat → (2 * weight r <= fuel)%nat →
  returns (compile_pat (S fuel) c (PAT_ALT l r)).
Proof.
  intros Hwl Hwr Hl Hr. cbn [compile_pat].
  apply returns_bind; [auto with peg |]. intros lp Hlp. apply returns_bind; [auto with peg |]. intros rp Hrp.
  destruct (combine lp rp); [auto with peg |].
  apply returns_bind; [by eapply total_pat |]. intros [lc c1] _.
  apply returns_bind; [by eapply total_pat |]. intros [rc c2] _. by eexists.
Qed.

Lemma total_star c q : wfp q = true → (2 * weight q <= fuel)%nat → returns (compile_pat (S fuel) c (PAT_STAR q)).
Proof.
  intros Hw Hn. cbn [compile_pat]. apply returns_bind; [auto with peg |]. intros sp Hsp.
  pose proof (get_pat_weight _ _ Hsp) as Hle. destruct (get_pat_keeps _ _ Hsp Hw) as [Hk _].
  assert (∀ c, returns (compile_pat fuel c sp)) as Hc by (intros c0; by eapply total_pat).
  destruct sp; try (apply returns_bind; [apply Hc |]; intros [code c1] _; by eexists); [| by eexists].
  apply returns_bind; [apply total_sub; [done | unfold weight in *; cbn in Hle; lia] |]. intros [code c1] _. by eexists.
Qed.

Lemma total_plus c q : wfp q = true → (2 * S (weight q) <= fuel)%nat → returns (compile_pat (S fuel) c (PAT_PLUS q)).
Proof.
  intros Hw Hn. cbn [compile_pat]. apply returns_bind; [auto with peg |]. intros sp Hsp.
  pose proof (get_pat_weight _ _ Hsp) as Hle. destruct (get_pat_keeps _ _ Hsp Hw) as [Hk _].
  apply returns_bind; [apply IH; [done | unfold weight in *; cbn; lia] |]. intros [code c1] _.
  apply returns_bind; [eapply total_pat; [done | done | lia] |]. intros [code2 c2] _. by eexists.
Qed.

Lemma total_search c q : wfp q = true → closed q = true → (2 * (5 + weight q) <= fuel)%nat →
  returns (compile_pat (S fuel) c (PAT_SEARCH q)).
Proof.
  intros Hw Hcl Hn. cbn [compile_pat]. apply returns_bind; [auto with peg |]. intros sp Hsp.
  pose proof (get_pat_weight _ _ Hsp) as Hle. destruct (get_pat_keeps _ _ Hsp Hw) as [Hk _].
  apply returns_bind; [eapply total_pat; [done | done | lia] |]. intros [sub c1] Hc.
  pose proof (compile_operands _ _ _ _ _ Hc (wfp_wfc _ Hk)) as Hops.
  apply returns_bind; [by apply search_skip_total |]. intros skip Hskip. rewrite search_grammar_eq.
  apply (compile_grammar_total fuel _ _ _ _ [("S"%string, search_body sp skip)]); [done | apply search_inline |].
  apply Forall_singleton. split.
  - eapply (search_body_wf sp skip "S"); [done | | reflexivity].
    eapply search_skip_wf; [| done..]. by destruct (compile_struct _ _ _ _ _ Hc).
  - unfold weight in *. destruct skip; cbn; lia.
Qed.

Lemma total_grammar c start defs : wfp (PAT_GRAMMAR start defs) = true → (2 * grammar_weight start defs <= fuel)%nat →
  returns (compile_pat (S fuel) c (PAT_GRAMMAR start defs)).
Proof.
  rewrite wfp_grammar. intros Hwf Hn. cbn [compile_pat].
  destruct (grammar_inline_inlines start defs) as [defs' Hinl].
  apply (compile_grammar_total fuel _ _ _ _ defs'); [done.. |].
  destruct (grammar_inline_inlined _ _ _ Hwf Hinl) as [Hwf' _]. apply Forall_lookup. intros i nd Hi.
  pose proof (forallb_lookup _ _ _ _ Hwf' Hi) as Hnd. cbn in Hnd. unfold wf_def in Hnd. bools.
  pose proof (grammar_weight_defs _ _ _ _ _ Hinl Hi ltac:(done)). split; [by apply wfp_wfc | lia].
Qed.
End Node.

Lemma total_optional fuel c q : (∀ m, (m < S fuel)%nat → cp_total m (compile_pat m)) → wfp q = true →
  (2 * S (weight q) <= S fuel)%nat → returns (compile_pat (S fuel) c (PAT_OPTIONAL q)).
Proof.
  intros IH Hw Hn. cbn [compile_pat]. apply returns_bind; [auto with peg |]. intros sp Hsp.
  pose proof (get_pat_weight _ _ Hsp) as Hle. destruct (get_pat_keeps _ _ Hsp Hw) as [Hk _]. destruct fuel as [|fuel]; [lia |].
  assert (returns (compile_pat (S fuel) c (pat_alt sp PAT_EMPTY))) as Halt.
  { apply total_alt; [apply IH; lia | done | done | lia |]. pose proof (weight_pos grammar_weight q). unfold weight in *. cbn. lia. }
  destruct (literal1 sp); [by eexists |]. destruct sp; try exact Halt. by eexists.
Qed.

Lemma compile_pat_total fuel : cp_total fuel (compile_pat fuel).
Proof.
  induction fuel as [fuel IH] using lt_wf_ind. intros c p Hwf Hn.
  destruct fuel as [|fuel]; [pose proof (weight_pos grammar_weight p); unfold weight in Hn; lia |].
  pose proof (IH fuel ltac:(lia)) as IHf. pose proof (total_sub fuel IHf) as Hsub.
  unfold weight in Hn. destruct p as [| | q | q | q | q | q | | | | start defs | q | q k | | | nm [q|] | | msg [q|] | |];
    cbn [weight_with] in Hn; fold weight in Hn.
  4: { apply total_plus; [done | by apply Hwf | lia]. }
  4: { apply total_optional; [done | by apply Hwf | lia]. }
  9: { apply total_grammar; [done | done | lia]. }
  all: cbn [wfc wfp] in Hwf; bools.
  1: by apply total_alt; [| | | lia..].
  2: by apply total_star; [| | lia].
  7: by apply total_search; [| | | lia].
  all: cbn [compile_pat pctx_label]; try (by eexists).
  all: try (apply returns_bind; [apply Hsub; [done | lia] | intros [code c1] _; by eexists]).
  - apply returns_bind; [apply Hsub; [done | lia] |]. intros [code c1] _.
    apply returns_bind; [apply Hsub; [done | lia] |]. intros [code2 c2] _. by eexists.
  - apply (compile_repeat_total fuel); [done | by apply wfp_wfc | lia].
  - apply IHf; [by apply wfp_wfc | lia].
  - apply returns_bind; [apply IHf; [by apply wfp_wfc | lia] |]. intros [code c1] _. by eexists.
Qed.
