(* ===== verification/CompileOk.v ===== *)
(** * CompileOk: compiled code does what the pattern means

    By induction on the compiler's recursion; inside a grammar, by induction on
    the depth of non-terminal calls. *)
From S2P Require Import Prelude Charset Input Code ITree Memo Stack Vm Pattern Compile Sem PatternFacts Inline Wf InlineSound Machine Memos CompileSpec CompileNodes CompileStruct Trees Operands.

Lemma star_sem d n env p q i x : sem_eq d p q → matches_at d n env (PAT_STAR p) i x → matches_at d n env (PAT_STAR q) i x.
Proof. intros H. by apply star_proper. Qed.

Lemma matches_nonterm_inv d n env nm i r : matches_at d n env (PAT_NONTERM nm None) i r →
  ∃ m p, n = S m ∧ def_of env nm = Some p ∧ matches_at d m env p i r.
Proof. inversion 1; subst. eauto. Qed.

(** The trees of the parts of a node. *)
Ltac trees H := cbn [tree_nodes] in H;
  repeat (first
    [ match goal with A : get_pat ?q = Ok _ |- _ => match type of H with context [get_pat q] => rewrite A in H end end
    | match goal with A : compile_pat ?n ?c ?q = Ok _ |- _ => match type of H with context [compile_pat n c q] => rewrite A in H end end ];
    cbn [of_pat mbind res_bind after_code pctx_label] in H);
  repeat match type of H with Forall _ (_ ++ _) => apply Forall_app in H as [? H] end.

Section Correct.
Context (d : list Z) (Hd : Forall is_byte d).
Context (P : pir) (Hlab : ∀ k x, P !! k = Some x → is_label x = true → lab P (p_a x) = Some k).
Context (M : memory).
Notation imp := (imp d true P M).
Notation memos_ok := (memos_ok d M).
Notation defs_ok := (defs_ok d M).
Notation trees_ok := (Forall (tree_ok d M)).
Notation matches_at := (matches_at d).

(** The code at label [l] does what definition [p] does at depth below [n]. *)
Definition good_call (n : nat) (env : list (string * pat)) (l : Z) (p : pat) : Prop :=
  ∀ m i r K, (m < n)%nat → 0 <= i → matches_at m env p i r → no_mt K → ∃ t rs y,
    lab P l = Some t ∧ P !! rs = Some y ∧ retlike y = true ∧ imp (Run t i K) (arrive rs K r).

Definition calls_ok (n : nat) (env : list (string * pat)) (N : string → option Z) : Prop :=
  ∀ nm l p, N nm = Some l → def_of env nm = Some p → good_call n env l p.

Lemma calls_ok_le m n env N : (m <= n)%nat → calls_ok n env N → calls_ok m env N.
Proof. intros Hmn H nm l p Hl Hp m' i r K Hm. apply (H nm l p Hl Hp). lia. Qed.

Definition comp_ok (cp : pctx → pat → res (pir * pctx)) (tn : defs → pctx → pat → list tree_node) : Prop :=
  ∀ c p code c' n env N i r, cp c p = Ok (code, c') → err c' = None → wfc p = true → memos_ok env p → trees_ok (tn env c p) → calls_ok n env N →
    0 <= i → matches_at n env p i r → spec d P M N code i r.

Lemma spec_opencall n env N nm i r : calls_ok n env N → 0 <= i →
  matches_at n env (PAT_NONTERM nm None) i r → spec d P M N [insn_opencall nm] i r.
Proof.
  intros Hc Hi Hm. apply matches_nonterm_inv in Hm as (n0 & p & -> & Hdef & Hbody).
  apply spec_intro; [done | done |]. intros pc K Hp HK.
  apply placed_cons in Hp as [(l & Hl & Hat) _]. cbn [p_name insn_opencall mbind option_bind] in Hl. cbn [length].
  assert (∀ K', no_mt K' → ∃ t rs y, lab P l = Some t ∧ P !! rs = Some y ∧ retlike y = true ∧
    imp (Run t i K') (arrive rs K' r)) as Hgood by (intros K' HK'; by apply (Hc nm l p Hl Hdef n0); [lia | ..]).
  destruct Hat as [Hat | [Hat Hrp]].
  - destruct (Hgood (spush (stRet (Z.of_nat (S pc))) K)) as (t & rs & y & Ht & Hrs & Hy & Himp); [done |].
    eapply at_step; [done | done | unfold insn_step; cbn -[Z.of_nat]; unfold jump_to; rewrite Ht; reflexivity |].
    etrans; [exact Himp |]. destruct r as [[j ts]|]; cbn [arrive]; [| by apply imp_fail].
    apply imp_step; [cbn [istep]; rewrite Hrs |
      intros w [= <-]%(eq_trans (eq_sym Hrs)); unfold retlike, quiet, is_op in *; by destruct (p_op y) as [[]| |]].
    unfold insn_step, retlike, is_op, ret in *. rewrite pop_keep_grow.
    replace (pc + 1)%nat with (Z.to_nat (Z.of_nat (S pc))) by lia.
    destruct (p_op y) as [[]| |]; try done.
  - destruct (Hgood K HK) as (t & rs & y & Ht & Hrs & Hy & Himp).
    eapply at_step; [done | done | unfold insn_step; cbn; unfold jump_to; rewrite Ht; reflexivity |].
    etrans; [exact Himp |]. destruct r as [[j ts]|]; cbn [arrive]; [| done].
    replace (pc + 1)%nat with (S pc) by lia. by eapply retpath_imp.
Qed.

Lemma spec_literal N str i : spec d P M N ((λ b, insn_u8 VM_CHAR (u8 b)) <$> str) i (yields (literal_match d str i) []).
Proof.
  assert (∀ str i, pre_match d ((λ b, insn_u8 VM_CHAR (u8 b)) <$> str) i = literal_match d str i) as Hpre.
  { clear str i. intros str. induction str as [|b str IH]; intros i; [done |]. rewrite fmap_cons.
    cbn [pre_match match1 insn_u8 with_a insn_basic insn_op p_op p_a]. rewrite literal_match_u8.
    unfold literal_match; fold (literal_match d).
    destruct (byte_at d i) as [c|]; [| done]. by destruct (c =? u8 b). }
  rewrite <- Hpre. apply spec_matchers. clear Hpre. induction str as [|b str IH]; [done |].
  rewrite fmap_cons, plen_cons. cbn [length]. by rewrite <- IH.
Qed.

Lemma spec_set N s i : spec d P M N [insn_set VM_SET s] i (yields (class_match d s i) []).
Proof.
  replace (class_match d s i) with (pre_match d [insn_set VM_SET s] i) by (cbn; by destruct (class_match d s i)).
  by apply spec_matchers.
Qed.

Lemma spec_any N n i : spec d P M N [insn_u8 VM_ANY n] i (yields (dot_match d n i) []).
Proof.
  replace (dot_match d n i) with (pre_match d [insn_u8 VM_ANY n] i) by (cbn; by destruct (dot_match d n i)).
  by apply spec_matchers.
Qed.

(** ** Grammars *)

Lemma placed_trans N' N pc code' code0 : placed P N' pc code' → placed code' N 0 code0 → placed P N pc code0.
Proof.
  intros HP Hc j x Hx. specialize (Hc j x Hx). cbn [Nat.add] in Hc. unfold allowed in Hc |- *.
  assert (∀ k y, code' !! k = Some y → retlike y = true → ∃ y', P !! (pc + k)%nat = Some y' ∧ retlike y' = true) as Hret.
  { intros k y Hy Hr. specialize (HP k y Hy). unfold allowed, retlike, is_op in HP, Hr |- *. by destruct (p_op y) as [[]| |]. }
  assert (∀ k y, code' !! k = Some y → match p_op y with OP VM_RETURN | OP VM_NOP | PIR_OPENCALL => True
    | _ => P !! (pc + k)%nat = Some y end) as Hsame.
  { intros k y Hy. specialize (HP k y Hy). unfold allowed in HP. by destruct (p_op y) as [[]| |]. }
  destruct (p_op x) as [[]| |] eqn:Eo;
    try (specialize (Hsame j x Hc); rewrite Eo in Hsame; exact Hsame);
    try (destruct Hc as (y & Hy & Hr); by apply (Hret j y)).
  destruct Hc as (l & Hl & [Hj | [Hj Hrp]]); exists l; (split; [done |]); [left | right]; [by apply (Hsame j _ Hj) |].
  split; [by apply (Hsame j _ Hj) |]. replace (S (pc + j))%nat with (pc + S j)%nat by lia.
  apply (retpath_mono code' P pc (S j) Hrp). intros k y Hy Ho.
  destruct (retlike y) eqn:Er.
  - destruct (Hret k y Hy Er) as (y' & Hy' & Hr'). exists y'. split_and!; try done. intros Hl'.
    unfold retlike, is_label, is_op in *. by destruct (p_op y) as [[]| |].
  - exists y. split_and!; try done. rewrite orb_false_r in Ho. specialize (Hsame k y Hy).
    unfold is_label in Ho. by destruct (p_op y) as [[]| |].
Qed.

Lemma emit_defs_placed cp tn env c i defs s used code labels c' pc N : makes_struct cp →
  emit_defs cp c i defs s used = Ok (code, labels, c') → err c' = None → placed P N pc code →
  trees_ok (emit_trees cp tn env c i defs s used) →
  ∀ k l, labels !! k = Some l → 0 <= l → ∃ nm dd c1 fn c2 off, defs !! k = Some (nm, dd) ∧
    cp c1 dd = Ok (fn, c2) ∧ err c2 = None ∧ trees_ok (tn env c1 dd) ∧ placed P N off (insn_label l :: fn ++ [insn_basic VM_RETURN]).
Proof.
  intros Hcp. revert c i code labels pc. induction defs as [|[nm dd] defs IH]; intros c i code labels pc H Herr Hpl Htn k l Hk Hl;
    cbn [emit_defs emit_trees] in H, Htn.
  - injection H as <- <- <-. done.
  - destruct (_ && _); inv_res.
    + destruct k as [|k]; cbn in Hk; [injection Hk as <-; lia |].
      eapply IH; eassumption.
    + match goal with H : emit_defs _ _ _ _ _ _ = Ok _ |- _ =>
        pose proof (emit_defs_struct cp Hcp _ _ _ _ _ _ _ _ H) as (He & _ & _ & _); rename H into Hem end.
      rewrite app_comm_cons in Hpl. change (?f ++ insn_basic VM_RETURN :: ?c) with (f ++ [insn_basic VM_RETURN] ++ c) in Hpl.
      rewrite <- app_comm_cons in Hpl. rewrite app_assoc, app_comm_cons in Hpl. apply placed_app in Hpl as [Hp1 Hp2].
      match goal with H : cp _ dd = Ok _ |- _ => rewrite H in Htn end. cbn [after_code] in Htn. apply Forall_app in Htn as [Htn1 Htn].
      destruct k as [|k]; cbn in Hk.
      * injection Hk as <-. match goal with H : cp _ dd = Ok (?fn, ?c2) |- _ => exists nm, dd; eexists; exists fn, c2, pc; split_and!; [done | exact H | auto | done | done] end.
      * eapply IH; eassumption.
Qed.

Lemma walk_collect defs p (a : list bool * bool) :
  (walk_pat (collect_used_fn defs) p a).2 = a.2 || negb (unres p =? 0)%nat.
Proof.
  revert a. induction p as [l r IHl IHr | l r IHl IHr | | | | | | | | | start ds IH | | | | | | | | | | |] using pat_ind';
    intros a; cbn [walk_pat collect_used_fn unres]; rewrite ?IHp, ?IHr, ?IHl; try by rewrite ?orb_false_r.
  - destruct (unres l), (unres r); cbn; by rewrite ?orb_false_r, ?orb_true_r.
  - destruct (unres l), (unres r); cbn; by rewrite ?orb_false_r, ?orb_true_r.
  - revert a. induction IH as [|[nm q] ds Hq _ IHds]; intros a; [by rewrite orb_false_r |]. cbn in Hq. rewrite IHds, Hq.
    destruct (unres q); cbn; by rewrite ?orb_false_r, ?orb_true_r.
  - by rewrite orb_true_r.
Qed.

Lemma collect_used_none defs k nm p : (collect_used defs).2 = false → defs !! k = Some (nm, p) → unres p = O.
Proof.
  unfold collect_used.
  assert (∀ (ds : list (string * pat)) (a : list bool * bool), (fold_left (λ d nd, walk_pat (collect_used_fn defs) nd.2 d) ds a).2 = false →
    a.2 = false ∧ ∀ k nm p, ds !! k = Some (nm, p) → unres p = O) as H.
  { induction ds as [|[m q] ds IH]; intros a Ha; [done |]. cbn [fold_left] in Ha.
    apply IH in Ha as [Ha Hds]. rewrite walk_collect in Ha. cbn in Ha. apply orb_false_iff in Ha as [Ha Hq].
    apply negb_false_iff, Nat.eqb_eq in Hq. split; [done |]. intros [|j] m' q' Hj; [by injection Hj as <- <- | by eapply Hds]. }
  intros Hu Hk. by eapply (H _ _ Hu).
Qed.

Lemma grammar_calls cp tn c2 c3 i s used defs body labels pc n : comp_ok cp tn → makes_struct cp →
  (∀ nm p, def_of defs nm = Some p → wfc p = true) → defs_ok defs → trees_ok (emit_trees cp tn defs c2 i defs s used) →
  emit_defs cp c2 i defs s used = Ok (body, labels, c3) → err c3 = None →
  placed P (call_label_of defs labels) pc body → calls_ok n defs (call_label_of defs labels).
Proof.
  intros Hcp Hst Hwf Hmo Htn Hem Herr Hpl. induction n as [n IHn] using lt_wf_ind.
  intros nm l p Hl Hp m i' r K Hm Hi' Hr HK.
  unfold call_label_of in Hl. unfold def_of in Hp. destruct (find_def defs nm) as [k|] eqn:Hfd; [| done].
  cbn in Hl, Hp. destruct (labels !! k) as [l'|] eqn:Hk; [| done]. cbn in Hl. destruct (Z.ltb_spec l' 0); [done |].
  injection Hl as ->.
  destruct (emit_defs_placed _ _ _ _ _ _ _ _ _ _ _ _ _ Hst Hem Herr Hpl Htn k l Hk) as
    (nm' & dd & c1 & fn & c4 & off & Hdd & Hfn & Herr4 & Htn1 & Hpf); [lia |].
  rewrite Hdd in Hp. cbn in Hp. injection Hp as ->.
  apply placed_cons in Hpf as [Hl0 Hpf]. apply placed_app in Hpf as [Hpf Hret].
  apply placed_cons in Hret as [(y & Hy & Hyr) _].
  assert (spec d P M (call_label_of defs labels) fn i' r) as Hs.
  { assert (def_of defs nm = Some p) as Hdef by (unfold def_of; rewrite Hfd; cbn; by rewrite Hdd).
    apply (Hcp _ _ _ _ m defs _ _ _ Hfn Herr4); try done; [by apply (Hwf nm) | by apply (Hmo nm) | by apply IHn]. }
  exists off, (S off + length fn)%nat, y. split_and!; [by apply (lab_at P Hlab) | done | done |].
  apply at_label with l; [done |]. by eapply spec_run.
Qed.

Lemma resolve_calls_failed n i defs labels code code' nm : resolve_calls n i defs labels code = (code', Some nm) →
  ∃ j x, code' !! j = Some x ∧ p_op x = PIR_OPENCALL ∧ p_name x = nm.
Proof.
  revert i code. induction n as [|n IH]; intros i code; [done |]. rewrite resolve_calls_S.
  destruct (code !! i) as [x|] eqn:Hx; [| done]. case_bool_decide as Ho; [| apply IH].
  destruct (resolve_label defs labels x); [apply IH |]. intros [= <- <-]. by exists i, x.
Qed.

Lemma grammar_spec cp tn c start defs0 defs code c' N n i r p : comp_ok cp tn → makes_struct cp →
  compile_grammar cp c start defs0 = Ok (code, c') → err c' = None → trees_ok (grammar_trees cp tn c start defs0) →
  grammar_inline start defs0 = Ok defs →
  (∀ nm q, def_of defs nm = Some q → wfc q = true ∧ (unres q = O → closed q = true)) → defs_ok defs →
  0 <= i → def_of defs start = Some p → matches_at n defs p i r → spec d P M N code i r.
Proof.
  intros Hcp Hst H Herr Htn Hinl Hdefs Hmo Hi Hp Hm. destruct (Hdefs _ _ Hp) as [Hwp Hcl].
  unfold compile_grammar in H. unfold grammar_trees in Htn. rewrite Hinl in H, Htn. cbn_res. cbn [mbind res_bind] in H.
  destruct (collect_used defs) as [used any_used] eqn:Hu.
  pose proof Hp as Hp'. unfold def_of in Hp'. destruct (find_def defs start) as [si|] eqn:Hfd; [| done]. cbn in Hp'.
  destruct any_used; cbn [negb] in H, Htn.
  2: { rewrite Hp' in H. cbn in H. apply fmap_Some in Hp' as ([nm q] & Hq & ->).
       pose proof (collect_used_none defs si nm q ltac:(by rewrite Hu) Hq) as Hu0.
       rewrite Hq in Htn. apply (Hcp _ _ _ _ n [] N _ _ H Herr); try done; [| by apply (closed_env _ _ defs), Hcl].
       apply (memos_ok_closed d M defs); [by apply Hcl | by apply (Hmo start)]. }
  unfold pctx_label in H, Htn. inv_bind. rename H0 into Hem. destruct x as [[body labels] c2].
  set (code0 := insn_opencall start :: _) in H.
  destruct (resolve_calls (length code0) 0 defs labels code0) as [code1 res] eqn:Hrc.
  assert (starts_with_call code0) as Hsw by (eexists; split; [reflexivity | by left]).
  destruct (resolve_calls_struct _ _ _ _ _ _ _ Hrc Hsw) as (Hlen & _ & _ & Hst1).
  destruct (starts_with_call_facts _ Hst1) as (_ & Hpl1 & Hne1).
  destruct res as [name|]; injection H as <- <-.
  { destruct name as [nm|]; [exfalso; cbn in Herr; by destruct (err c2) |].
    apply spec_intro; [done.. |]. intros pc K Hpl _. exfalso.
    destruct (resolve_calls_failed _ _ _ _ _ _ _ Hrc) as (j & x & Hx & Ho & Hnm).
    specialize (Hpl j x Hx). unfold allowed in Hpl. rewrite Ho, Hnm in Hpl. by destruct Hpl as (l & [=] & _). }
  assert (placed code1 (call_label_of defs labels) 0 code0) as Hpl0.
  { apply (resolve_calls_placed defs labels code0 (length code0) 0 code0 code1); try done.
    intros j x Hx. rewrite decide_False by lia. rewrite Hx. destruct (p_op x) as [[]| |] eqn:Eo; try done;
      (exists x; split; [done |]; unfold retlike, is_op; by rewrite Eo). }
  apply spec_intro; [destruct code1; [done |]; cbn [app]; rewrite plen_cons in *; by destruct (is_matcher _) | by destruct code1 |].
  intros pc K Hpl HK. apply placed_app in Hpl as [Hpl Hend]. apply placed_cons in Hend as [Hend _].
  pose proof (placed_trans _ _ _ _ _ Hpl Hpl0) as Hp0. unfold code0 in Hp0.
  apply placed_cons in Hp0 as [Hcall Hp0]. apply placed_cons in Hp0 as [Hjmp Hbody].
  assert (∀ m, calls_ok m defs (call_label_of defs labels)) as Hcalls.
  { intros m. apply (grammar_calls cp tn _ _ _ _ _ _ _ _ _ _ Hcp Hst) with (3 := Htn) (4 := Hem) (6 := Hbody); [| done..].
    intros nm q Hq. by apply (Hdefs nm). }
  assert (spec d P M (call_label_of defs labels) [insn_opencall start] i r) as Hsp.
  { apply (spec_opencall (S n) defs); [by apply Hcalls | done |]. eapply M_NONTERM; [exact Hp | done]. }
  etrans; [eapply spec_run; [exact Hsp | | exact HK]; apply placed_cons; split; [exact Hcall | apply placed_nil] |].
  destruct r as [[j ts]|]; cbn [arrive length]; [| done].
  replace (pc + 1)%nat with (S pc) by lia.
  eapply at_step; [exact Hjmp | done | unfold insn_step; cbn; unfold jump_to; rewrite (lab_at P Hlab _ _ Hend); reflexivity |].
  apply at_label with (nlabels c); [done |]. rewrite length_app. cbn [length].
  replace (S (pc + length code1)) with (pc + (length code1 + 1))%nat by lia. done.
Qed.

(** ** Searches *)

(** Where the first byte rules a match out, the search's skip loop may pass. *)
Definition skips (env : list (string * pat)) (sp : pat) (s : vm_charset) : Prop :=
  ∀ n i r b, 0 <= i → byte_at d i = Some b → vm_charset_has s b = true → matches_at n env sp i r → r = None.

Lemma search_step sp skip n env m i x : closed sp = true → 0 <= i < dlen d →
  matches_at n env sp i None →
  matches_at m [("S", search_body sp skip)] (match skip with
    | Some s => pat_concat [pat_star (pat_set s); pat_nonterm "S"]
    | None => pat_nonterm "S" end) (i + 1) x →
  matches_at (Nat.max n m) [("S", search_body sp skip)] (search_body sp skip) i x.
Proof.
  intros Hc Hi Hn Hm. apply M_ALT_R.
  - eapply matches_at_le; [by apply (closed_env d n env) | lia].
  - rewrite <- after_nil. eapply M_SEQ; [| eapply matches_at_le; [exact Hm | lia]].
    apply dot_iff. unfold dot_match. by rewrite !(proj2 (Z.leb_le _ _)) by lia.
Qed.

Lemma search_body_memos sp skip nm q env : memos_ok env sp → def_of [("S", search_body sp skip)] nm = Some q → memos_ok env q.
Proof.
  intros Hs Hq. apply def_of_elem in Hq as (n & [= _ ->]%list_elem_of_singleton). apply Forall_app. split; [done |].
  destruct skip; cbn; constructor.
Qed.

(** A search by its definition: [S <- sp / . S] finds what the search finds. *)
Lemma search_plain n env q sp i x : sem_eq d q sp → closed sp = true → 0 <= i →
  matches_at n env (PAT_SEARCH q) i x →
  ∃ m, matches_at m [("S", search_body sp None)] (search_body sp None) i x.
Proof.
  intros Hq Hc Hi Hm. remember (PAT_SEARCH q) as p eqn:Ep. revert Hi.
  induction Hm; intros Hi; try done; injection Ep as ->.
  - exists n. apply M_ALT_L. apply (closed_env d n env); [by apply Hq | done].
  - destruct IHHm2 as [m IH]; [done | lia |]. exists (Nat.max n (S m)).
    apply (search_step _ _ _ env); [done | lia | by apply Hq |]. eapply M_NONTERM; [reflexivity | done].
  - exists n. apply M_ALT_R; [apply (closed_env d n env); [by apply Hq | done] |]. apply M_SEQ_F.
    apply dot_iff. unfold dot_match. rewrite (proj2 (Z.leb_gt (i + 1) (dlen d))) by lia. by rewrite andb_false_r.
Qed.

(** With a skip loop: [S <- sp / . [s]* S]. *)
Lemma search_skip_loop n env q sp s i x : sem_eq d q sp → closed sp = true → 0 <= i → skips env sp s →
  matches_at n env (PAT_SEARCH q) i x →
  (∃ m, matches_at m [("S", search_body sp (Some s))] (search_body sp (Some s)) i x) ∧
  (∃ m, matches_at m [("S", search_body sp (Some s))] (pat_concat [pat_star (pat_set s); pat_nonterm "S"]) i x).
Proof.
  intros Hq Hc Hi Hsk Hm. remember (PAT_SEARCH q) as p eqn:Ep. revert Hi.
  set (defs := [("S", search_body sp (Some s))]).
  assert (∀ i x, (∃ m, matches_at m defs (search_body sp (Some s)) i x) → class_match d s i = None →
    ∃ m, matches_at m defs (pat_concat [pat_star (pat_set s); pat_nonterm "S"]) i x) as Hstop.
  { intros i' x' [m Hx] Hs. exists (S m). rewrite <- (after_nil x'). eapply M_SEQ; [| by eapply M_NONTERM].
    apply M_STAR_0, class_iff. by rewrite Hs. }
  assert (∀ i x, 0 <= i → matches_at n env q i x → x ≠ None → class_match d s i = None) as Hfound.
  { intros i' x' Hi' Hx Hne. unfold class_match. destruct (byte_at d i') as [b|] eqn:Hb; [| done].
    destruct (vm_charset_has s b) eqn:Hsb; [| done]. destruct Hne. eapply Hsk; [done.. | by apply Hq]. }
  induction Hm; intros Hi; try done; injection Ep as ->.
  - assert (∃ k, matches_at k defs (search_body sp (Some s)) i (Some m)) as Ha.
    { exists n. apply M_ALT_L. apply (closed_env d n env); [by apply Hq | done]. }
    split; [done |]. apply Hstop; [done |]. by eapply Hfound.
  - destruct IHHm2 as [[m1 Ha] [m2 Hb]]; [done.. | lia |].
    assert (∃ m, matches_at m defs (search_body sp (Some s)) i x) as Hbody.
    { exists (Nat.max n m2). apply (search_step _ (Some s) _ env); [done | lia | by apply Hq | done]. }
    split; [done |]. destruct (class_match d s i) as [j|] eqn:Hs; [| by apply Hstop].
    assert (j = i + 1) as ->.
    { unfold class_match in Hs. by repeat case_match; simplify_eq. }
    exists m2. inversion Hb; subst.
    + eapply M_SEQ; [| done]. change (Some (j, ts)) with (after [] (Some (j, ts))). eapply M_STAR; [| done].
      apply class_iff. by rewrite Hs.
    + match goal with H : matches_at _ _ (pat_star _) _ None |- _ => by apply star_some in H as [? [=]] end.
  - assert (∃ m, matches_at m defs (search_body sp (Some s)) i None) as Hbody.
    { exists n. apply M_ALT_R; [apply (closed_env d n env); [by apply Hq | done] |]. apply M_SEQ_F.
      apply dot_iff. unfold dot_match. rewrite (proj2 (Z.leb_gt (i + 1) (dlen d))) by lia. by rewrite andb_false_r. }
    split; [done |]. apply Hstop; [done |]. unfold class_match. rewrite byte_at_past; [done | by unfold dlen in *].
Qed.

(** ** Every node *)

Lemma star_class_sem n env s i x : 0 <= i → matches_at n env (PAT_STAR (PAT_CLASS s)) i x → x = Some (i + run_at s d i, []).
Proof.
  intros Hi Hm. remember (PAT_STAR (PAT_CLASS s)) as p eqn:Ep. revert Hi.
  induction Hm; intros Hi; try done; injection Ep as ->;
    match goal with H : matches_at _ _ (PAT_CLASS _) _ _ |- _ => apply class_iff in H; unfold class_match in H end;
    rewrite (run_at_step s d i) by done.
  - destruct (byte_at d i) as [b|]; [| done]. destruct (vm_charset_has s b); [| done]. injection Hm1 as -> ->.
    rewrite IHHm2 by (done || lia). cbn. do 2 f_equal. lia.
  - destruct (byte_at d i) as [b|]; [destruct (vm_charset_has s b) |]; [done | do 2 f_equal; lia..].
Qed.

Section Node.
Context (fuel : nat) (IH : comp_ok (compile_pat fuel) (tree_nodes fuel)).
Context (n : nat) (env : list (string * pat)) (N : string → option Z) (Hcalls : calls_ok n env N).

(** A simplified sub-pattern. *)
Lemma comp_sub c q q' code c' i r : compile_pat fuel c q' = Ok (code, c') → err c' = None →
  get_pat q = Ok q' → wfp q = true → memos_ok env q → trees_ok (tree_nodes fuel env c q') → 0 <= i → matches_at n env q i r → spec d P M N code i r.
Proof.
  intros Hcp He Hq Hw Hmo Htn Hi Hm. apply (IH _ _ _ _ n env N _ _ Hcp He); try done.
  - by apply wfp_wfc, (get_pat_keeps _ _ Hq Hw).
  - by eapply get_pat_memos.
  - by apply (get_pat_matches d _ _ Hd Hw Hq).
Qed.

Lemma comp_alt c l r code c' i x : compile_pat (S fuel) c (PAT_ALT l r) = Ok (code, c') → err c' = None →
  wfp l = true → wfp r = true → memos_ok env l → memos_ok env r → trees_ok (tree_nodes (S fuel) env c (PAT_ALT l r)) →
  0 <= i → matches_at n env (PAT_ALT l r) i x → spec d P M N code i x.
Proof.
  cbn [compile_pat tree_nodes]. intros H He Hwl Hwr Hml Hmr Htn Hi Hm. inv_bind. rewrite H0, H1 in Htn. cbn [of_pat] in Htn.
  pose proof (get_pat_keeps _ _ H0 Hwl) as [Hkl _]. pose proof (get_pat_keeps _ _ H1 Hwr) as [Hkr _].
  destruct (combine x0 x1) as [s|] eqn:Hc.
  - injection H as <- <-. destruct (combine_spec d Hd _ _ _ Hc) as [_ Hs]; [by apply wfp_pat_ok..|].
    assert (matches_at n env (PAT_CLASS s) i x) as Hcl.
    { apply Hs. inversion Hm; subst; [apply M_ALT_L | apply M_ALT_R];
        first [by apply (get_pat_matches d _ _ Hd Hwl H0) | by apply (get_pat_matches d _ _ Hd Hwr H1)]. }
    apply class_iff in Hcl as ->. by apply spec_set.
  - inv_res. match goal with A : compile_pat fuel _ x0 = Ok _, B : compile_pat fuel _ x1 = Ok _ |- _ =>
      pose proof (err_before _ _ _ _ _ B He) as He0; rename A into HL, B into HR end.
    rewrite HL in Htn. cbn [after_code] in Htn. apply Forall_app in Htn as [Htl Htr].
    inversion Hm; subst.
    + eapply spec_code_alt; [done | by eapply hok_of | by eapply hok_of | by eapply comp_sub | done].
    + eapply spec_code_alt; [done | by eapply hok_of | by eapply hok_of | by eapply comp_sub | by eapply comp_sub].
Qed.

Lemma comp_star c q code c' i x : compile_pat (S fuel) c (PAT_STAR q) = Ok (code, c') → err c' = None →
  wfp q = true → memos_ok env q → trees_ok (tree_nodes (S fuel) env c (PAT_STAR q)) → 0 <= i → matches_at n env (PAT_STAR q) i x → spec d P M N code i x.
Proof.
  cbn [compile_pat tree_nodes]. intros H He Hw Hmo Htn Hi Hm. inv_bind. rewrite H0 in Htn. cbn [of_pat] in Htn. pose proof (get_pat_keeps _ _ H0 Hw) as [Hk _]. pose proof (get_pat_memos d M env _ _ H0 Hmo) as Hmk.
  apply (star_sem _ _ _ _ _ _ _ (get_pat_matches d _ _ Hd Hw H0)) in Hm.
  assert (∀ code0 c0 c1 l1 l2, compile_pat fuel c0 x0 = Ok (code0, c1) → err c1 = None → trees_ok (tree_nodes fuel env c0 x0) →
    spec d P M N (code_star code0 l1 l2) i x) as Hgen.
  { intros code0 c0 c1 l1 l2 Hc He1 Ht1. eapply spec_star; [done | | done | exact Hm]. intros j r Hj Hr.
    apply (IH _ _ _ _ n env N _ _ Hc He1); try done. by apply wfp_wfc. }
  destruct x0; try (inv_res; by eapply Hgen).
  - inv_res. match goal with A : get_pat x0 = Ok _, B : compile_pat fuel c _ = Ok _ |- _ => rewrite A in Htn; cbn [mbind res_bind of_pat] in Htn; rewrite B in Htn end.
    cbn [after_code] in Htn. apply Forall_app in Htn as [Htn Htree]. rewrite Forall_singleton in Htree.
    eapply (spec_memo_star d P Hlab M N n env (PAT_MEMO x0 id)); [| exact Htree | done | exact Hm]. intros j r Hj Hr. inversion Hr; subst.
    eapply comp_sub; try done. by apply Forall_cons in Hmk as [_ ?].
  - injection H as <- <-. apply star_class_sem in Hm as ->; [| done]. by apply spec_span.
Qed.

Lemma comp_repeat k c q code c' i x : compile_repeat (compile_pat fuel) k c q = Ok (code, c') → err c' = None →
  wfp q = true → memos_ok env q → trees_ok (repeat_trees (compile_pat fuel) (tree_nodes fuel) env k c q) →
  0 <= i → matches_at n env (PAT_REPEAT q (Z.of_nat k)) i x → spec d P M N code i x.
Proof.
  intros H He Hw Hmo. revert c code i x H. induction k as [|k IHk]; intros c code i x H Htn Hi Hm; cbn [compile_repeat repeat_trees] in H, Htn.
  - injection H as <- <-. inversion Hm; subst; [apply spec_nil | lia..].
  - inv_res. match goal with A : compile_repeat _ k _ _ = Ok _ |- _ => rename A into HR end.
    match goal with A : compile_pat fuel _ q = Ok (_, ?z) |- _ => rename A into HL, z into c0 end.
    rewrite HL in Htn. cbn [after_code] in Htn. apply Forall_app in Htn as [Ht0 Htn].
    assert (err c0 = None) as He0.
    { destruct (compile_repeat_struct (compile_pat fuel) (compile_struct fuel) _ _ _ _ _ HR) as [Hs _ _ _ _]. by apply Hs. }
    inversion Hm; subst; [lia | |].
    + eapply spec_seq; [by apply (IH _ _ _ _ n env N _ _ HL He0); [by apply wfp_wfc | ..] |].
      replace (Z.of_nat (S k) - 1) with (Z.of_nat k) in * by lia. eapply IHk; [exact HR | done | | done].
      match goal with M : matches_at _ _ q i (Some (j, _)) |- _ => pose proof (matches_at_ge _ _ _ _ _ _ M _ _ eq_refl) end. lia.
    + apply spec_seq_fail. by apply (IH _ _ _ _ n env N _ _ HL He0); [by apply wfp_wfc | ..].
Qed.

(** A match cannot start with a byte the code's first instruction rejects. *)
Lemma search_skips c sp sub c1 skip s : compile_pat fuel c sp = Ok (sub, c1) → err c1 = None →
  wfp sp = true → closed sp = true → memos_ok env sp → trees_ok (tree_nodes fuel [] c sp) →
  search_skip sub = Ok skip → skip = Some s → skips env sp s.
Proof.
  intros Hsub He Hw Hc Hmo Htn Hskip Hs m i r b Hi Hb Hhas Hm. pose proof (byte_at_byte d Hd _ _ Hb) as Hbyte.
  assert (spec d P M N sub i r) as Hsp.
  { apply (IH _ _ _ _ m [] N _ _ Hsub He); [by apply wfp_wfc | by apply (memos_ok_closed d M env) | done.. | by apply (closed_env d m env)]. }
  destruct (search_skip_spec _ _ (hok_of _ _ _ _ _ Hsub) Hskip s Hs) as (x & Hx & Hcase).
  assert (is_matcher x = true) as Hmx.
  { unfold is_matcher, is_op in *. destruct Hcase as [(Ho & _) | (Ho & _)]; by destruct (p_op x) as [[]| |]. }
  destruct (plen_head _ _ Hx Hmx) as [Hpl El]. apply (sp_fail _ _ _ _ _ _ _ Hsp 1); [done |].
  rewrite El. cbn [take pre_match]. unfold match1.
  destruct Hcase as [(Ho & Hpb & ->) | (Ho & ->)]; apply bool_decide_eq_true in Ho; rewrite Ho.
  - rewrite has_negate in Hhas by (done || by apply one_set_wf). rewrite (has_one d Hd) in Hhas by done.
    rewrite (literal1_fail d _ _ _ Hb Hpb); [done |]. intros ->. by rewrite Z.eqb_refl in Hhas.
  - pose proof (operands_head _ (compile_operands fuel _ _ _ _ Hsub (wfp_wfc _ Hw)) x Hx) as Hset.
    rewrite has_negate in Hhas by (done || apply Hset; unfold is_op; by rewrite bool_decide_true).
    by rewrite (class_fail d _ _ _ Hb) by (by destruct (vm_charset_has (p_set x) b)).
Qed.

Lemma comp_search c q code c' i x : compile_pat (S fuel) c (PAT_SEARCH q) = Ok (code, c') → err c' = None →
  wfp q = true → closed q = true → memos_ok env q → trees_ok (tree_nodes (S fuel) env c (PAT_SEARCH q)) →
  0 <= i → matches_at n env (PAT_SEARCH q) i x → spec d P M N code i x.
Proof.
  cbn [compile_pat tree_nodes]. intros H He Hw Hc Hmo Htn Hi Hm. inv_bind. rewrite H0 in Htn. cbn [of_pat] in Htn.
  destruct (get_pat_keeps _ _ H0 Hw) as (Hk & Hkc & _). specialize (Hkc Hc). pose proof (get_pat_memos d M env _ _ H0 Hmo) as Hmk.
  destruct x1 as [sub c1]. inv_bind. rename H1 into Hsub, H2 into Hskip. rewrite search_grammar_eq in H.
  rewrite Hsub in Htn. cbn beta iota in Htn. rewrite Hskip, search_grammar_eq in Htn. apply Forall_app in Htn as [Htn Htg].
  assert (err c1 = None) as He1.
  { destruct (compile_grammar_struct _ _ _ _ _ _ (compile_struct fuel) H) as [Hs _ _ _ _]. by apply Hs. }
  pose proof (search_skip_wf _ _ (hok_of _ _ _ _ _ Hsub) (compile_operands _ _ _ _ _ Hsub (wfp_wfc _ Hk)) Hskip) as Hswf.
  assert (∃ m, matches_at m [("S", search_body x0 x1)] (search_body x0 x1) i x) as [m Hbody].
  { pose proof (get_pat_matches d _ _ Hd Hw H0) as Hq. destruct x1 as [s|].
    - apply (search_skip_loop n env q); try done. by eapply search_skips.
    - by apply (search_plain n env q). }
  eapply grammar_spec; [exact IH | apply compile_struct | exact H | done | exact Htg | apply search_inline | | | done | | exact Hbody].
  - intros nm p Hp. by apply (search_body_wf x0 x1 nm) in Hp as (_ & ? & ?); [| done..].
  - intros nm p Hp. apply (search_body_memos x0 x1 nm _ _ (memos_ok_closed d M env _ _ Hkc Hmk) Hp).
  - by destruct x1.
Qed.

Lemma comp_plus c q code c' i r : compile_pat (S fuel) c (PAT_PLUS q) = Ok (code, c') → err c' = None →
  wfp q = true → memos_ok env q → trees_ok (tree_nodes (S fuel) env c (PAT_PLUS q)) → 0 <= i → matches_at n env (PAT_PLUS q) i r → spec d P M N code i r.
Proof.
  cbn [compile_pat tree_nodes]. intros H He Hw Hmo Htn Hi Hm. inv_bind. rewrite H0 in Htn. cbn [of_pat] in Htn. pose proof (get_pat_keeps _ _ H0 Hw) as [Hk _]. pose proof (get_pat_memos d M env _ _ H0 Hmo) as Hmk. inv_res. errs.
  match goal with A : compile_pat fuel _ (pat_star x) = Ok _ |- _ => rename A into Hstar end.
  rewrite Hstar in Htn. cbn [after_code] in Htn. apply Forall_app in Htn as [Hts Htn].
  inversion Hm; subst; [eapply spec_seq | apply spec_seq_fail]; try by eapply comp_sub.
  apply (IH _ _ _ _ n env N _ _ Hstar); try done.
  - match goal with M : matches_at _ _ _ i (Some (j, _)) |- _ => pose proof (matches_at_ge _ _ _ _ _ _ M _ _ eq_refl) end. lia.
  - apply star_sem with q; [by apply get_pat_matches | done].
Qed.

Lemma comp_optional c q code c' i r : compile_pat (S fuel) c (PAT_OPTIONAL q) = Ok (code, c') → err c' = None →
  wfp q = true → memos_ok env q → trees_ok (tree_nodes (S fuel) env c (PAT_OPTIONAL q)) →
  0 <= i → matches_at n env (PAT_OPTIONAL q) i r → spec d P M N code i r.
Proof.
  cbn [compile_pat tree_nodes]. intros H He Hw Hmo Htn Hi Hm. inv_bind. rewrite H0 in Htn. cbn [of_pat] in Htn. pose proof (get_pat_keeps _ _ H0 Hw) as [Hk _]. pose proof (get_pat_memos d M env _ _ H0 Hmo) as Hmk.
  pose proof (get_pat_matches d _ _ Hd Hw H0) as Hq.
  assert (∀ y, (∀ r, matches_at n env x i r → r = yields y []) →
    r = match y with Some j => Some (j, []) | None => Some (i, []) end) as Hopt.
  { intros y Hy. inversion Hm; subst; pose proof (Hy _ (proj1 (Hq _ _ _ _) ltac:(eassumption))); by destruct y. }
  assert (∀ code c', compile_pat fuel c (pat_alt x PAT_EMPTY) = Ok (code, c') → err c' = None →
    trees_ok (tree_nodes fuel env c (pat_alt x PAT_EMPTY)) → spec d P M N code i r) as Halt.
  { intros code0 c0' H' He' Ht'. apply (IH _ _ _ _ n env N _ _ H' He'); try done; [cbn; by rewrite Hk | by apply Forall_app |].
    inversion Hm; subst; [apply M_ALT_L | apply M_ALT_R; [| constructor]]; by apply Hq. }
  destruct (literal1 x) as [b|] eqn:Hl.
  - inv_res. destruct x; try done. destruct str as [|b' [|]]; try done. injection Hl as <-.
    rewrite (Hopt (literal_match d [u8 b'] i)); [by apply spec_opt_char |]. intros r'. rewrite literal_match_u8. apply literal_iff.
  - destruct x; try (by eapply Halt). inv_res.
    rewrite (Hopt (class_match d set i)); [by apply spec_opt_set |]. intros r'. apply class_iff.
Qed.

Lemma comp_grammar c start defs code c' i r : compile_pat (S fuel) c (PAT_GRAMMAR start defs) = Ok (code, c') →
  err c' = None → wfp (PAT_GRAMMAR start defs) = true → memos_ok env (PAT_GRAMMAR start defs) →
  trees_ok (tree_nodes (S fuel) env c (PAT_GRAMMAR start defs)) → 0 <= i → matches_at n env (PAT_GRAMMAR start defs) i r →
  spec d P M N code i r.
Proof.
  cbn [compile_pat tree_nodes]. intros H He Hw Hmo Htn Hi Hm. rewrite wfp_grammar in Hw.
  destruct (grammar_inline_inlines start defs) as [defs' Hinl].
  destruct (grammar_inline_inlined _ _ _ Hw Hinl) as [Hwf' Hin]. inversion Hm; subst.
  match goal with M : def_of _ _ = Some _ |- _ => destruct (Hin _ _ M) as (p' & Hp' & Hx) end.
  eapply grammar_spec; [exact IH | apply compile_struct | exact H | done | exact Htn | exact Hinl | | | done | exact Hp' | by apply Hx].
  - intros nm p0 Hp. by apply (wf_defs_lookup defs' nm).
  - apply (grammar_inline_memos d M start defs); [done.. |]. by eapply memos_ok_grammar.
Qed.

End Node.

Lemma compile_pat_ok fuel : comp_ok (compile_pat fuel) (tree_nodes fuel).
Proof.
  induction fuel as [|fuel IH]; intros c p code c' n env N i r H He Hwf Hmo Htn Hcalls Hi Hm; [done |].
  destruct p as [| | | q | q | | | | | q fn id flag | start defs | | q k | | | nm [q|] | | msg [q|] | |].
  all: try (cbn [compile_pat] in H; injection H as <- <-; inversion Hm; subst; fail).
  - cbn [wfc] in Hwf. bools. apply Forall_app in Hmo as [Hml Hmr]. by eapply comp_alt.
  - apply Forall_app in Hmo as [Hml Hmr]. cbn [compile_pat] in H. cbn [wfc wfp] in Hwf. bools. inv_res. errs. trees Htn.
    inversion Hm; subst.
    + eapply spec_seq; [by eapply comp_sub |]. eapply comp_sub; try done.
      match goal with M : matches_at _ _ _ i (Some (j, _)) |- _ => pose proof (matches_at_ge _ _ _ _ _ _ M _ _ eq_refl) end. lia.
    + apply spec_seq_fail. by eapply comp_sub.
  - by eapply comp_star.
  - (* plus *) by eapply comp_plus.
  - (* optional *) by eapply comp_optional.
  - (* not *) cbn [compile_pat] in H. cbn [wfc wfp] in Hwf. inv_res. errs. trees Htn.
    inversion Hm; subst; [eapply (spec_not d P Hlab M N _ _ _ (Some m)) | eapply (spec_not d P Hlab M N _ _ _ None)]; by eapply comp_sub.
  - (* and *) cbn [compile_pat] in H. cbn [wfc wfp] in Hwf. inv_res. errs. trees Htn.
    inversion Hm; subst; [eapply (spec_and d P Hlab M N _ _ _ _ (Some (j, ts))) | eapply (spec_and d P Hlab M N _ _ _ _ None)]; by eapply comp_sub.
  - (* capture *) cbn [compile_pat] in H. cbn [wfc wfp] in Hwf. bools. inv_res. trees Htn. unfold short_operand in *. zify_bool.
    inversion Hm; subst. apply spec_code_cap; [by apply i16_id | by eapply comp_sub].
  - (* memo *) cbn [compile_pat] in H. cbn [wfc wfp] in Hwf. inv_res. trees Htn. apply Forall_cons in Hmo as [Hmk Hmo].
    inversion Hm; subst. destruct (Hmk n i r) as [? ?]; [done.. |]. apply spec_memo; [done.. |]. by eapply comp_sub.
  - (* check *) cbn [compile_pat] in H. cbn [wfc wfp] in Hwf. bools. inv_res. trees Htn.
    unfold short_operand in *. zify_bool.
    inversion Hm; subst; [eapply (spec_check d P Hlab M N _ _ _ _ _ _ (Some (j, ts))) | eapply (spec_check d P Hlab M N _ _ _ _ _ _ None)];
      try (by apply i16_id); by eapply comp_sub.
  - (* grammar *) by eapply comp_grammar.
  - (* search *) cbn [wfc wfp] in Hwf. bools. by eapply comp_search.
  - (* repeat *) cbn [compile_pat] in H. cbn [wfc wfp] in Hwf. bools.
    apply (comp_repeat fuel IH n env N Hcalls (Z.to_nat k) c q code c'); try done. inversion Hm; subst.
    + replace (Z.to_nat k) with O by lia. by apply M_REPEAT_0.
    + by rewrite Z2Nat.id by lia.
    + by rewrite Z2Nat.id by lia.
  - (* class *) injection H as <- <-. apply class_iff in Hm as ->. by apply spec_set.
  - (* literal *) injection H as <- <-. apply literal_iff in Hm as ->. by apply spec_literal.
  - (* inlined *) cbn [compile_pat] in H. cbn [wfc wfp] in Hwf. bools. inversion Hm; subst.
    apply (IH _ _ _ _ n env N _ _ H); try done. by apply wfp_wfc.
  - (* call *) injection H as <- <-. by eapply spec_opencall.
  - (* dot *) injection H as <- <-. inversion Hm; subst. by apply spec_any.
  - (* recovered error *) cbn [compile_pat] in H. inv_res. cbn [wfc wfp] in Hwf. apply spec_error. inversion Hm; subst.
    match goal with A : compile_pat fuel _ q = Ok _ |- _ => by apply (IH _ _ _ _ n env N _ _ A); [| apply wfp_wfc | ..] end.
  - (* empty operator *) injection H as <- <-. inversion Hm; subst. by apply spec_emptyop.
  - (* empty *) injection H as <- <-. inversion Hm; subst. by apply spec_nil.
Qed.

End Correct.
