(* ===== verification/Optimize.v ===== *)
(** * Optimize: dead [Nop]s and the peephole pass

    Where control can be: at the entry, after an instruction that falls through,
    at a label, or after a call.  So a [Nop] left by the tail-call pass is never
    executed, and what the peephole pass of [pat_optimize] rewrites keeps the
    result of the run. *)
From S2P Require Import Prelude Charset Input Code ITree Memo Stack Vm Pattern Compile Sem PatternFacts Inline Wf InlineSound Machine Memos CompileSpec CompileNodes CompileStruct Operands Labels CompileOk.

(** ** Addresses *)

Lemma label_index_sound (l : pir) k0 (m : gmap Z nat) z k :
  fold_left (λ (m : gmap Z nat) '(i, x), if is_label x then <[p_a x := i]> m else m) (imap (λ i x, (k0 + i, x)%nat) l) m !! z = Some k →
  m !! z = Some k ∨ ∃ j x, k = (k0 + j)%nat ∧ l !! j = Some x ∧ is_label x = true ∧ p_a x = z.
Proof.
  revert k0 m. induction l as [|y l IH]; intros k0 m H; [by left |]. cbn [imap fold_left] in H.
  rewrite (imap_ext _ (λ i x, (S k0 + i, x)%nat)) in H by (intros; cbn; f_equal; lia).
  apply IH in H as [H | (j & x & -> & Hj & Hx & Hz)].
  - destruct (is_label y) eqn:Ey; [| by left]. apply lookup_insert_Some in H as [[Hz <-] | [_ H]]; [| by left].
    right. exists O, y. split_and!; done || by rewrite Nat.add_0_r.
  - right. exists (S j), x. split_and!; done || by rewrite Nat.add_succ_r.
Qed.

Lemma lab_sound P l t : lab P l = Some t → ∃ x, P !! t = Some x ∧ is_label x = true ∧ p_a x = l.
Proof.
  unfold lab, label_index. intros H. apply (label_index_sound P 0) in H as [H | (j & x & -> & Hj & Hx & Hz)]; [done |].
  by exists x.
Qed.

(** Where a jump may land. *)
Definition landing (P : pir) (t : nat) : Prop :=
  (∃ x, P !! t = Some x ∧ is_label x = true) ∨ (∃ k x, t = S k ∧ P !! k = Some x ∧ is_op VM_CALL x = true).

Definition frame_ok (P : pir) (f : frame) : Prop :=
  match f with
  | stBtrack t _ => landing P (Z.to_nat t)
  | stRet r => landing P (Z.to_nat r)
  | _ => True
  end.

(** Every frame of a stack. *)
Definition stk_ok (P : pir) (K : stack) : Prop := Forall (λ fC, frame_ok P fC.1) (below K).

Definition sok (P : pir) (s : state) : Prop := match s with Run _ _ K | Fail K => stk_ok P K | Halt _ => True end.

Lemma stk_ok_push P f K : frame_ok P f → stk_ok P K → stk_ok P (spush f K).
Proof. intros Hf HK. by constructor. Qed.

Lemma pop_keep_ok P K f K' : pop_keep K = Some (f, K') → stk_ok P K → frame_ok P f ∧ stk_ok P K'.
Proof. destruct K as [C [|[g C'] K]]; [done |]. intros [= <- <-] HK. by inversion HK. Qed.

Lemma pop_drop_ok P K f K' : pop_drop K = Some (f, K') → stk_ok P K → frame_ok P f ∧ stk_ok P K'.
Proof. destruct K as [C [|[g C'] K]]; [done |]. intros [= <- <-] HK. by inversion HK. Qed.

Lemma grow_ok P ts K : stk_ok P K → stk_ok P (grow ts K).
Proof. done. Qed.

(** Control moves on, or lands. *)
Definition moves (P : pir) (pc : nat) (x : pir_insn) (s : state) : Prop :=
  match s with Run pc' _ _ => landing P pc' ∨ pc' = S pc ∧ is_op VM_JUMP x = false | _ => True end.

Lemma lab_landing P l t : lab P l = Some t → landing P t.
Proof. intros (x & ? & ? & _)%lab_sound. left. by exists x. Qed.

Lemma jump_to_ok P l p K s pc x : jump_to P l p K = Some s → stk_ok P K → sok P s ∧ moves P pc x s.
Proof. intros H HK. unfold jump_to in H. inv_bind. subst. split; [done | left; by eapply lab_landing]. Qed.

Lemma choice_ok P l p K K' : choice P l p K = Some K' → stk_ok P K → stk_ok P K'.
Proof.
  intros H HK. unfold choice in H. inv_bind. subst. apply stk_ok_push; [| done]. cbn. rewrite Nat2Z.id. by eapply lab_landing.
Qed.

Lemma flat_tree_ok P fuel seen accum K K' : flat_tree fuel seen accum K = Some K' →
  stk_ok P K → stk_ok P K'.
Proof.
  revert seen accum K. induction fuel as [|fuel IH]; intros seen accum K H HK; [done |]. cbn [flat_tree] in H.
  destruct (below K !! seen) as [[[] ?]|]; try (by injection H as <-).
  destruct (below K !! S seen) as [[[] ?]|]; try (by injection H as <-).
  case_match; [by eapply IH |]. eapply IH; [exact H |]. constructor; [done | by apply Forall_drop].
Qed.

Lemma flat_tree_close_ok P id K : stk_ok P K → stk_ok P (flat_tree_close id K).
Proof.
  destruct K as [C K]. unfold stk_ok, flat_tree_close. cbn [top below]. revert C.
  induction K as [|[f C'] K IH]; intros C HK; [done |]. cbn [close_tree]. destruct f; try done.
  case_match; [| done]. inversion HK; subst. by apply IH.
Qed.

Section Steps.
Context (d : list Z) (P : pir).

Lemma ret_ok p K s pc x : ret p K = Some s → stk_ok P K → sok P s ∧ moves P pc x s.
Proof.
  unfold ret. destruct (pop_keep K) as [[[] K']|] eqn:Hp; try done. intros [= <-] HK.
  destruct (pop_keep_ok _ _ _ _ Hp HK) as [Hf HK']. split; [done | by left].
Qed.

Lemma test_insn_ok r b l pc p K s x : is_op VM_JUMP x = false → test_insn P r b l pc p K = Some s →
  stk_ok P K → sok P s ∧ moves P pc x s.
Proof.
  intros Hx H HK. unfold test_insn in H. destruct r as [j|]; [| by eapply jump_to_ok].
  inv_bind. subst. split; [| by right]. destruct b; [by eapply choice_ok | by simplify_eq].
Qed.

Lemma unwind_ok K : stk_ok P K → sok P (unwind K) ∧ ∀ pc x, moves P pc x (unwind K).
Proof.
  intros HK. destruct K as [C [|[f C'] K]]; [done |]. inversion HK; subst.
  destruct f; try done. split; [done | by left].
Qed.

Lemma insn_step_ok ghost x pc p K s : insn_step d ghost P x pc p K = Some s → stk_ok P K →
  P !! pc = Some x → sok P s ∧ moves P pc x s.
Proof.
  intros H HK Hx.
  assert (∀ K', stk_ok P K' → is_op VM_JUMP x = false →
    sok P (Run (S pc) p K') ∧ moves P pc x (Run (S pc) p K')) as Hnext by (intros; split; [done | by right]).
  assert (∀ r K', stk_ok P K' → is_op VM_JUMP x = false →
    sok P (or_fail (S pc) K' r) ∧ moves P pc x (or_fail (S pc) K' r)) as Hor by (intros [j|] K'; (split; [done |]); [by right | done]).
  unfold insn_step, is_op in *. destruct (p_op x) as [[]| |] eqn:Eo; cbn [match1] in H;
    [.. | done]; try (by eapply jump_to_ok); try (by eapply ret_ok); try (by eapply test_insn_ok);
    try (injection H as <-; first [by apply Hnext | done | by apply Hor]);
    try (destruct ghost; [by eapply ret_ok | injection H as <-; by apply Hnext]);
    try (unfold match1 in H; rewrite Eo in H; injection H as <-; by apply Hor).
  all: try (injection H as <-; apply Hnext; [by apply stk_ok_push | done]).
  all: try (apply bind_Some in H as (K' & HK' & [= <-]); apply Hnext; [first [by eapply choice_ok | by eapply flat_tree_ok] | done]).
  all: try (injection H as <-; apply Hnext; [by apply flat_tree_close_ok | done]).
  all: try (destruct (pop_keep K) as [[[] K']|] eqn:Hp; try done; destruct (pop_keep_ok _ _ _ _ Hp HK) as [Hf HK']; first
    [ by eapply jump_to_ok | injection H as <-; by apply Hnext | injection H as <-; by apply Hor
    | eapply jump_to_ok; [exact H | by apply stk_ok_push] ]).
  all: try (eapply test_insn_ok; [unfold is_op; by rewrite Eo | exact H | done]).
  - eapply jump_to_ok; [exact H |]. apply stk_ok_push; [| done]. right. exists pc, x. unfold is_op. by rewrite Nat2Z.id, Eo.
  - injection H as <-. split; [| done]. cbn. destruct (pop_drop K) as [[f K']|] eqn:Hp; [| done]. by eapply pop_drop_ok.
  - destruct (pop_drop K) as [[[] K']|] eqn:Hp; try done. injection H as <-. apply Hnext; [| done]. by eapply grow_ok, pop_drop_ok.
  - destruct (below K) as [|[[] C] K'] eqn:EK; try done. injection H as <-. apply Hnext; [| done].
    unfold stk_ok in HK. rewrite EK in HK. inversion HK; subst. by constructor.
Qed.

Lemma istep_ok ghost s s' : istep d ghost P s = Some s' → sok P s → sok P s' ∧ match s with
  | Run pc _ _ => ∀ x, P !! pc = Some x → moves P pc x s'
  | _ => ∀ pc x, moves P pc x s'
  end.
Proof.
  intros H Hs. destruct s as [pc p K | K | o]; [| injection H as <-; by apply unwind_ok | done]. cbn [istep] in H.
  destruct (P !! pc) as [x|] eqn:Hx; [| by injection H as <-].
  destruct (insn_step_ok ghost x pc p K s' H Hs Hx) as [Hs' Hm]. split; [done |]. by intros y [= <-].
Qed.

Context (M : memory).

(** What is found leads to a label, or to a failure. *)
Lemma hit_ok s s' : hit P M s s' → sok P s → sok P s' ∧ match s' with Run pc _ _ => landing P pc | _ => True end.
Proof.
  destruct s as [pc p K | |]; [| done..]. intros (x & [[j ts]|] & _ & _ & _ & Hj) Hs; [| by subst].
  destruct Hj as (K' & HK' & Hj). unfold jump_to in Hj. inv_bind. subst. split; [| by eapply lab_landing].
  apply grow_ok. destruct (is_op VM_MEMO_OPEN x); [by subst | destruct HK' as (c & ->); by apply stk_ok_push].
Qed.

(** ** Dead [Nop]s *)

Definition off_nop (s : state) : Prop :=
  match s with Run pc _ _ => ∀ x, P !! pc = Some x → is_op VM_NOP x = false | _ => True end.

Lemma landing_off_nop t p K : nop_ok P = true → landing P t → off_nop (Run t p K).
Proof.
  intros Hn Hl y Hy. destruct (is_op VM_NOP y) eqn:Ey; [| done].
  destruct (proj1 (nop_ok_lookup P) Hn _ _ Hy Ey) as (k & z & -> & Hz & Hzo).
  destruct Hl as [(x & Hx & Hxl) | (k' & x & [= <-] & Hx & Hxc)]; [replace x with y in * by congruence | replace x with z in * by congruence];
    unfold is_label, is_op in *; [by destruct (p_op y) as [[]| |] | by destruct (p_op z) as [[]| |]].
Qed.

(** On code whose [Nop]s follow jumps, what they do does not matter. *)
Lemma ghost_irrelevant s o : nop_ok P = true → evals d true P M s o → sok P s → off_nop s → evals d false P M s o.
Proof.
  intros Hn. induction 1 as [o | s s' o Hst Hsto _ IH _ IHh]; intros Hs Ho; [constructor |].
  destruct (istep_ok _ _ _ Hst Hs) as [Hs' Hm].
  assert (istep d false P s = Some s') as Hst'.
  { destruct s as [pc p K | |]; [| done..]. cbn [istep] in *. destruct (P !! pc) as [x|] eqn:Hx; [| done].
    specialize (Ho x Hx). unfold insn_step, is_op in *. by destruct (p_op x) as [[]| |]. }
  eapply evals_memo; [exact Hst' | exact Hsto | apply IH; [done |] |].
  2: { intros s2 Hh. destruct (hit_ok _ _ Hh Hs) as [Hs2 Hl]. apply IHh; [done.. |].
       destruct s2; [by apply landing_off_nop | done..]. }
  destruct s' as [pc' p' K' | |]; [| done..].
  destruct s as [pc p K | |]; [| by destruct (Hm pc' (insn_label 0)) as [? | [? _]]; [apply landing_off_nop | lia] | done].
  cbn [istep] in Hst. destruct (P !! pc) as [x|] eqn:Hx; [| by injection Hst].
  destruct (Hm x eq_refl) as [Hl | [-> Hj]]; [by apply landing_off_nop |].
  intros y Hy. destruct (is_op VM_NOP y) eqn:Ey; [| done].
  destruct (proj1 (nop_ok_lookup P) Hn _ _ Hy Ey) as (k & z & [= <-] & Hz & Hzo). specialize (Ho z Hz). simplify_eq.
  by rewrite Hj, Ho in Hzo.
Qed.
End Steps.

(** ** The peephole pass *)

Lemma label_index_insert P i x x' : P !! i = Some x → is_label x = false → is_label x' = false →
  label_index (<[i := x']> P) = label_index P.
Proof.
  unfold label_index. generalize (∅ : gmap Z nat) as m.
  enough (∀ k0 (m : gmap Z nat) i, P !! i = Some x → is_label x = false → is_label x' = false →
    fold_left (λ (m : gmap Z nat) '(i, x), if is_label x then <[p_a x := i]> m else m) (imap (λ i x, (k0 + i, x)%nat) (<[i := x']> P)) m =
    fold_left (λ (m : gmap Z nat) '(i, x), if is_label x then <[p_a x := i]> m else m) (imap (λ i x, (k0 + i, x)%nat) P) m)
    as H by (intros; by apply (H O)).
  clear i. induction P as [|y P IH]; intros k0 m [|i] Hi Hx Hx'; try done; cbn in Hi.
  - injection Hi as ->. cbn [list_insert insert imap fold_left]. by rewrite Hx, Hx'.
  - change (<[S i := x']> (y :: P)) with (y :: <[i := x']> P). cbn [imap fold_left].
    rewrite !(imap_ext ((λ i (x : pir_insn), (k0 + i, x)%nat) ∘ S) (λ i x, (S k0 + i, x)%nat)) by (intros; cbn; f_equal; lia).
    by apply IH.
Qed.

Lemma skip_to_insn_spec l k x : l !! k = Some x → (k < skip_to_insn l)%nat → is_label x || is_op VM_NOP x = true.
Proof.
  revert k. induction l as [|y l IH]; intros [|k] Hk Hlt; try done; cbn in Hk, Hlt;
    destruct (is_label y || is_op VM_NOP y) eqn:E; try lia.
  - by injection Hk as <-.
  - apply (IH k); [done | lia].
Qed.

Section Peephole.
Context (d : list Z) (P P' : pir) (M : memory) (i : nat).
Context (Hlab : ∀ l, lab P' l = lab P l).

Lemma insn_step_lab x pc p K : insn_step d false P' x pc p K = insn_step d false P x pc p K.
Proof.
  unfold insn_step, test_insn, jump_to, choice.
  destruct (p_op x) as [[]| |]; rewrite ?Hlab; try done; by repeat (case_match; rewrite ?Hlab).
Qed.

(** Where the lists agree, tables are used alike. *)
Lemma stores_same pc p K : P' !! pc = P !! pc → stores P M (Run pc p K) → stores P' M (Run pc p K).
Proof. cbn [stores]. by intros ->. Qed.

Lemma hit_same pc p K s' : P' !! pc = P !! pc → hit P' M (Run pc p K) s' → hit P M (Run pc p K) s'.
Proof.
  intros HP (x & r & Hx & Ho & Hr & Hj). exists x, r. rewrite HP in Hx. split_and!; try done. destruct r as [[j ts]|]; [| done].
  unfold jump_to in *. by setoid_rewrite Hlab in Hj.
Qed.

(** A [Choice] before a one-byte matcher becomes a test. *)
Lemma head_fail_inv x y x' y' : head_fail x y = Some (x', y') →
  p_op y' = OP VM_NOP ∧ is_label x' = false ∧ is_matcher y = true ∧ quiet x' = true ∧ ∀ d P pc p K r,
    match1 d y p = Some r → insn_step d false P x' pc p K = test_insn P r true (p_label x) pc p K.
Proof.
  unfold head_fail. intros H. repeat case_match; simplify_eq;
    match goal with E : is_op _ y = true |- _ => apply bool_decide_eq_true in E; unfold is_matcher, is_op; rewrite E end;
    split_and!; try done; intros *; unfold match1, insn_step;
    match goal with E : p_op y = _ |- _ => rewrite E end; by intros [= <-].
Qed.

Section Head.
Context (x y x' y' : pir_insn) (Hx : P !! i = Some x) (Hy : P !! S i = Some y) (Hc : is_op VM_CHOICE x = true).
Context (Hhf : head_fail x y = Some (x', y')) (Hx' : P' !! i = Some x') (Hy' : P' !! S i = Some y').
Context (Hother : ∀ k, k ≠ i → k ≠ S i → P' !! k = P !! k).

Lemma head_fail_step p K t : lab P (p_label x) = Some t → ∃ r, match1 d y p = Some r ∧ ∀ o,
  evals d false P' M (match r with Some j => Run (S (S i)) j (spush (stBtrack (Z.of_nat t) p) K) | None => Run t p K end) o →
  evals d false P' M (Run i p K) o.
Proof.
  intros Ht. destruct (head_fail_inv _ _ _ _ Hhf) as (Ey & _ & Hm & Hq & Hstep).
  assert (∀ j K, imp d false P' M (Run (S i) j K) (Run (S (S i)) j K)) as Hnop.
  { intros j K'. apply imp_step; [cbn [istep]; rewrite Hy'; unfold insn_step; by rewrite Ey |].
    intros w [= <-]%(eq_trans (eq_sym Hy')). unfold quiet, is_op. by rewrite Ey. }
  destruct (is_matcher_match1 d y p Hm) as [r Hr].
  exists r. split; [done |]. intros o Ho.
  apply evals_step with (match r with Some j => Run (S i) j (spush (stBtrack (Z.of_nat t) p) K) | None => Run t p K end).
  - cbn [istep]. rewrite Hx', (Hstep _ _ _ _ _ r Hr). unfold test_insn, jump_to, choice. rewrite Hlab, Ht. by destruct r.
  - by intros w [= <-]%(eq_trans (eq_sym Hx')).
  - by destruct r as [j|]; [apply Hnop |].
Qed.

Lemma head_fail_landing t p K : landing P t → Run t p K ≠ Run (S i) p K.
Proof.
  intros [(z & Hz & Hzl) | (k & z & -> & Hz & Hzc)] [= Ht]; subst; simplify_eq.
  - destruct (head_fail_inv _ _ _ _ Hhf) as (_ & _ & Hm & _). unfold is_matcher, is_op, is_label in *. by destruct (p_op y) as [[]| |].
  - unfold is_op in *. by destruct (p_op x) as [[]| |].
Qed.

Lemma head_fail_sim s o : evals d false P M s o → sok P s →
  ((∀ p K, s ≠ Run (S i) p K) → evals d false P' M s o) ∧
  (∀ p K t, s = Run (S i) p (spush (stBtrack (Z.of_nat t) p) K) → lab P (p_label x) = Some t → evals d false P' M (Run i p K) o).
Proof.
  induction 1 as [o | s s' o Hst Hsto _ IH _ IHh]; intros Hs; [by split; [constructor | intros ] |].
  destruct (istep_ok _ _ _ _ _ Hst Hs) as [Hs' Hm]. destruct (IH Hs') as [IH1 IH2]. split.
  - intros Hne. destruct s as [pc p K | K |]; [| | done].
    + destruct (decide (pc = i)) as [-> | Hpc].
      * cbn [istep] in Hst. rewrite Hx in Hst. unfold insn_step, is_op in *.
        apply bool_decide_eq_true in Hc. rewrite Hc in Hst. unfold choice in Hst. inv_bind. subst.
        by eapply IH2.
      * assert (pc ≠ S i) as Hpc' by (intros ->; by apply (Hne p K)).
        eapply evals_memo; [| by eapply stores_same; [apply Hother |] | apply IH1 |].
        { cbn [istep] in *. rewrite (Hother pc) by done. destruct (P !! pc); [by rewrite insn_step_lab | done]. }
        2: { intros s2 Hh%hit_same; [| by apply Hother]. destruct (hit_ok _ _ _ _ Hh Hs) as [Hs2 Hl]. apply IHh; [done.. |].
             intros p' K' ->. by apply (head_fail_landing (S i) p' K'). }
        intros p' K' ->. destruct (P !! pc) as [z|] eqn:Hz; [| cbn [istep] in Hst; by rewrite Hz in Hst].
        destruct (Hm z eq_refl) as [Hl | [[= ->] _]]; [| done]. by apply (head_fail_landing (S i) p' K').
    + eapply evals_memo; [exact Hst | exact Hsto | apply IH1 | done]. intros p' K' ->.
      destruct (Hm (S i) x) as [Hl | [Heq _]]; [by apply (head_fail_landing (S i) p' K') | lia].
  - intros p K t -> Ht. destruct (head_fail_step p K t Ht) as (r & Hr & Hgo). apply Hgo.
    cbn [istep] in Hst. rewrite Hy in Hst. unfold insn_step in Hst. pose proof Hr as Hr'. unfold match1 in Hr'.
    assert (s' = or_fail (S (S i)) (spush (stBtrack (Z.of_nat t) p) K) r) as ->.
    { destruct (p_op y) as [[]| |]; try done; rewrite Hr in Hst; by injection Hst. }
    destruct r as [j|]; cbn [or_fail] in *.
    + apply IH1. intros p' K' [=]. lia.
    + assert (evals d false P' M (Fail (spush (stBtrack (Z.of_nat t) p) K)) o) as HF by (by apply IH1).
      inversion HF as [| s1 s2 o' Hst' _ HF' _]; subst. cbn [istep] in Hst'. rewrite unwind_btrack in Hst'. by injection Hst' as <-.
Qed.
End Head.

(** A jump to an instruction that goes elsewhere anyway becomes that
    instruction. *)
Section Jump.
Context (x y : pir_insn) (from : nat) (Hx : P !! i = Some x) (Hj : is_op VM_JUMP x = true).
Context (Hfrom : lab P (p_label x) = Some from) (Hy : P !! next_insn_idx P from = Some y) (Hr : replaces_jump y = true).
Context (Hy' : P' !! i = Some y) (Hother : ∀ k, k ≠ i → P' !! k = P !! k).

Lemma replaces_jump_pc pc p K : insn_step d false P y pc p K = insn_step d false P y i p K.
Proof. unfold insn_step, replaces_jump in *. by destruct (p_op y) as [[]| |]. Qed.

Lemma jump_sim s o : evals d false P M s o → evals d false P' M s o ∧
  ∀ k p K, s = Run k p K → (from <= k <= next_insn_idx P from)%nat → evals d false P' M (Run i p K) o.
Proof.
  induction 1 as [o | s s' o Hst Hsto _ [IH1 IH2] _ IHh]; [by split; [constructor |] |]. split.
  - destruct s as [pc p K | K |]; [| by eapply evals_memo | done]. cbn [istep] in Hst.
    destruct (decide (pc = i)) as [-> | Hpc].
    + rewrite Hx in Hst. unfold insn_step, is_op in *. apply bool_decide_eq_true in Hj. rewrite Hj in Hst.
      unfold jump_to in Hst. rewrite Hfrom in Hst. injection Hst as <-. eapply IH2; [done |]. unfold next_insn_idx. lia.
    + eapply evals_memo; [| by eapply stores_same; [apply Hother |] | exact IH1 |].
      { cbn [istep]. rewrite Hother by done. destruct (P !! pc); [by rewrite insn_step_lab | done]. }
      intros s2 Hh%hit_same; [by apply IHh | by apply Hother].
  - intros k p K -> Hk. cbn [istep] in Hst. destruct (decide (k = next_insn_idx P from)) as [-> | Hne].
    + rewrite Hy in Hst. eapply evals_step; [| | exact IH1].
      * cbn [istep]. rewrite Hy', insn_step_lab. by rewrite replaces_jump_pc in Hst.
      * intros w [= <-]%(eq_trans (eq_sym Hy')). unfold replaces_jump, quiet, is_op in *. by destruct (p_op y) as [[]| |].
    + destruct (P !! k) as [z|] eqn:Hz; [| apply lookup_lt_Some in Hy; apply lookup_ge_None in Hz; lia].
      assert (is_label z || is_op VM_NOP z = true) as Hskip.
      { apply (skip_to_insn_spec (drop from P) (k - from)); [| unfold next_insn_idx in *; lia].
        rewrite lookup_drop. by replace (from + (k - from))%nat with k by lia. }
      assert (s' = Run (S k) p K) as ->.
      { unfold insn_step, is_label, is_op in *. destruct (p_op z) as [[]| |]; try done; by injection Hst. }
      eapply IH2; [done | lia].
Qed.
End Jump.
End Peephole.

(** ** The whole pass *)

Lemma optimize_at_ok d M labidx P i P' : labidx = label_index P → optimize_at labidx P i = Ok P' →
  label_index P' = labidx ∧ length P' = length P ∧
  ∀ p o, evals d false P M (Run 0 p empty_stk) o → evals d false P' M (Run 0 p empty_stk) o.
Proof.
  intros -> H. unfold optimize_at in H. inv_bind. rename x into c, H0 into Hc.
  destruct (is_op VM_CHOICE c) eqn:Ech.
  - assert (is_op VM_JUMP c = false) as Ej by (unfold is_op in *; by destruct (p_op c) as [[]| |]).
    rewrite Ej in H. injection H as H. destruct (P !! S i) as [y|] eqn:Hy; [| by subst P']. cbn [mbind option_bind] in H.
    destruct (head_fail c y) as [[c' y']|] eqn:Hhf; [| by subst P'].
    destruct (head_fail_inv _ _ _ _ Hhf) as (Ey' & Hc' & Hm & _ & _).
    assert (is_label c = false) as Hcl by (unfold is_op, is_label in *; by destruct (p_op c) as [[]| |]).
    assert (is_label y = false) as Hyl by (unfold is_matcher, is_op, is_label in *; by destruct (p_op y) as [[]| |]).
    assert (is_label y' = false ∧ p_op y' ≠ PIR_OPENCALL) as [Hyl' Hyo'] by (unfold is_label; by rewrite Ey').
    assert (p_op c' ≠ PIR_OPENCALL) as Hco'.
    { intros E. unfold head_fail in Hhf. repeat case_match; simplify_eq. }
    assert (label_index P' = label_index P) as Hli.
    { subst P'. rewrite (label_index_insert _ i c c'), (label_index_insert _ (S i) y y'); try done.
      by rewrite list_lookup_insert_ne by lia. }
    split_and!; [done | by subst P'; rewrite !length_insert |]. intros p o Ho.
    apply (head_fail_sim d P P' M i) with (x := c) (y := y) (x' := c') (y' := y') in Ho as [Ho _]; try done.
    + by apply Ho.
    + intros l. unfold lab. by rewrite Hli.
    + subst P'. rewrite list_lookup_insert_eq; [done |]. rewrite length_insert. by eapply lookup_lt_Some.
    + subst P'. rewrite list_lookup_insert_ne, list_lookup_insert_eq by (lia || by eapply lookup_lt_Some). done.
    + intros k Hk1 Hk2. subst P'. by rewrite !list_lookup_insert_ne by done.
    + by constructor.
  - destruct (is_op VM_JUMP c) eqn:Ej; [| by injection H as <-]. inv_bind. rename x into from, H0 into Hfrom. injection H as H.
    destruct (P !! next_insn_idx P from) as [y|] eqn:Hy; [| by subst P'].
    destruct (replaces_jump y) eqn:Hr; [| by subst P']. subst P'.
    assert (is_label c = false) as Hcl by (unfold is_op, is_label in *; by destruct (p_op c) as [[]| |]).
    assert (is_label y = false) as Hyl by (unfold replaces_jump, is_label in *; by destruct (p_op y) as [[]| |]).
    pose proof (label_index_insert _ _ _ _ Hc Hcl Hyl) as Hli. split_and!; [done | by rewrite length_insert |].
    intros p o Ho. eapply (jump_sim d P (<[i := y]> P) M i) in Ho as [Ho _]; try done.
    + intros l. unfold lab. by rewrite Hli.
    + apply list_lookup_insert_eq. by eapply lookup_lt_Some.
    + intros k Hk. by rewrite list_lookup_insert_ne by done.
Qed.

Lemma for_each_ind {A S} (f : A → S → res S) (Q : S → Prop) (l : list A) s s' :
  for_each f l s = Ok s' → Q s → (∀ x s s', f x s = Ok s' → Q s → Q s') → Q s'.
Proof.
  revert s. induction l as [|x l IH]; intros s H Hs Hf; cbn [for_each] in H; [by injection H as <- |].
  destruct (f x s) as [s1| | |] eqn:E; try done. eapply IH; [exact H | by eapply Hf | done].
Qed.

(** The pass keeps the labels' places and every result. *)
Lemma pat_optimize_ok d M P P' p o : pat_optimize P = Ok P' → evals d false P M (Run 0 p empty_stk) o →
  evals d false P' M (Run 0 p empty_stk) o.
Proof.
  unfold pat_optimize. intros H Ho.
  apply (for_each_ind _ (λ Q, label_index Q = label_index P ∧ evals d false Q M (Run 0 p empty_stk) o) _ _ _ H); [done |].
  intros i Q Q' Hopt [Hl HQ]. destruct (optimize_at_ok d M _ _ _ _ (eq_sym Hl) Hopt) as (Hl' & _ & Himp). auto.
Qed.

(** What the pass keeps of the list. *)
Definition no_open (code : pir) : Prop := Forall (λ x, p_op x ≠ PIR_OPENCALL) code.

Record kept (P P' : pir) : Prop := {
  kp_ops : operands_ok P → operands_ok P';
  kp_cnt : ∀ z, cnt z P' = cnt z P;
  kp_open : no_open P' ↔ no_open P;
  kp_len : length P' = length P;
  kp_refs : ∀ D, refs_in D P → refs_in D P';
}.

#[export] Instance kept_preorder : PreOrder kept.
Proof.
  split; [by intros P; split | intros P Q R [] []; split; auto; [| by rewrite kp_open1 | congruence]]. intros z. by rewrite kp_cnt1, kp_cnt0.
Qed.

Lemma kept_insert P i x x' : P !! i = Some x → is_label x = false → is_label x' = false → p_op x ≠ PIR_OPENCALL → p_op x' ≠ PIR_OPENCALL →
  (operands_ok P → pir_ok x' = true) → (∀ D, refs_in D P → refers D x') → kept P (<[i := x']> P).
Proof.
  intros Hi Hx Hx' Ho Ho' Hok Href. split.
  - intros H. apply Forall_insert; [done | by apply Hok].
  - intros z. by eapply cnt_insert.
  - split; [| intros H; by apply Forall_insert].
    intros H. apply Forall_lookup_2. intros k y Hk. destruct (decide (k = i)) as [-> |]; [by simplify_eq |].
    apply (Forall_lookup_1 _ _ k y H). by rewrite list_lookup_insert_ne.
  - by rewrite length_insert.
  - intros D HD. apply Forall_insert; [done | by apply Href].
Qed.

Lemma head_fail_refs D x y x' y' : head_fail x y = Some (x', y') → is_op VM_CHOICE x = true → refers D x →
  refers D x' ∧ refers D y'.
Proof.
  unfold head_fail. intros H Hx [Hl _]. unfold is_op in Hx. apply bool_decide_eq_true in Hx.
  unfold pir_lab in Hl. rewrite Hx in Hl.
  repeat case_match; simplify_eq; (split; [by eapply refers_to; [.. | apply Hl] | by apply refers_plain]).
Qed.

Lemma head_fail_ok x y x' y' : head_fail x y = Some (x', y') → pir_ok y = true → pir_ok x' = true ∧ pir_ok y' = true.
Proof.
  unfold head_fail. intros H Hy. unfold pir_ok, pir_set_ok, pir_byte_ok in *.
  destruct (is_op VM_CHAR y) eqn:E1; [| destruct (is_op VM_SET y) eqn:E2; [| destruct (is_op VM_ANY y) eqn:E3; [| done]]];
    injection H as <- <-;
    match goal with E : is_op _ y = true |- _ => apply bool_decide_eq_true in E; rewrite E in Hy end; cbn in *;
    by try rewrite Hy.
Qed.

Lemma optimize_at_kept labidx P i P' : optimize_at labidx P i = Ok P' → kept P P'.
Proof.
  intros H. unfold optimize_at in H. inv_bind. rename x into c, H0 into Hc.
  assert (is_op VM_CHOICE c = true ∨ is_op VM_JUMP c = true → is_label c = false ∧ p_op c ≠ PIR_OPENCALL) as Hcl
    by (unfold is_op, is_label in *; destruct (p_op c) as [[]| |]; naive_solver).
  destruct (is_op VM_CHOICE c) eqn:Ech.
  - assert (is_op VM_JUMP c = false) as Ej by (unfold is_op in *; by destruct (p_op c) as [[]| |]).
    rewrite Ej in H. injection H as H. destruct Hcl as [Hcl Hco]; [by left |].
    destruct (P !! S i) as [y|] eqn:Hy; [| by subst P']. cbn [mbind option_bind] in H.
    destruct (head_fail c y) as [[c' y']|] eqn:Hhf; [| by subst P'].
    destruct (head_fail_inv _ _ _ _ Hhf) as (Ey' & Hc' & Hm & _ & _). subst P'.
    assert (is_label y = false ∧ p_op y ≠ PIR_OPENCALL) as [Hyl Hyo]
      by (unfold is_matcher, is_op, is_label in *; by destruct (p_op y) as [[]| |]).
    assert (is_label y' = false ∧ p_op y' ≠ PIR_OPENCALL) as [Hyl' Hyo'] by (unfold is_label; by rewrite Ey').
    assert (p_op c' ≠ PIR_OPENCALL) as Hco'.
    { intros E. unfold head_fail in Hhf. repeat case_match; simplify_eq. }
    assert (∀ Q, Q !! S i = Some y → operands_ok Q → pir_ok c' = true ∧ pir_ok y' = true) as Hops.
    { intros Q HQ Hok. apply (head_fail_ok _ _ _ _ Hhf). by apply (Forall_lookup_1 _ _ _ _ Hok HQ). }
    rewrite list_insert_insert_ne by lia. trans (<[i := c']> P).
    + apply (kept_insert _ i c); try done; [intros Hok; by apply (Hops P) |]. intros D HD.
      by apply (head_fail_refs D _ _ _ _ Hhf), (Forall_lookup_1 _ _ _ _ HD Hc).
    + assert ((<[i := c']> P) !! S i = Some y) as Hy2 by (by rewrite list_lookup_insert_ne by lia).
      apply (kept_insert _ (S i) y); try done; [by apply (Hops _ Hy2) |]. intros D HD.
      assert (named y' = true) by (unfold named; by rewrite Ey'). apply refers_plain; [unfold pir_lab; by rewrite Ey' | done].
  - destruct (is_op VM_JUMP c) eqn:Ej; [| by injection H as <-]. inv_bind. injection H as H.
    destruct Hcl as [Hcl Hco]; [by right |].
    destruct (P !! next_insn_idx P x) as [y|] eqn:Hy; [| by subst P']. destruct (replaces_jump y) eqn:Hr; [| by subst P'].
    subst P'. apply (kept_insert _ _ c); try done.
    + unfold replaces_jump, is_label in *. by destruct (p_op y) as [[]| |].
    + unfold replaces_jump in *. by destruct (p_op y) as [[]| |].
    + intros Hok. by apply (Forall_lookup_1 _ _ _ _ Hok Hy).
    + intros D HD. by apply (Forall_lookup_1 _ _ _ _ HD Hy).
Qed.

Lemma pat_optimize_kept P P' : pat_optimize P = Ok P' → kept P P'.
Proof.
  intros H. apply (for_each_ind _ (λ Q, kept P Q) _ _ _ H); [done |].
  intros i Q Q' Hopt HQ. etrans; [exact HQ | by eapply optimize_at_kept].
Qed.
