(* ===== verification/Names.v ===== *)
(** * Names: a resolved pattern compiles without a missing name

    [resolved]: every grammar in the pattern defines its start and whatever its
    definitions mention, and nothing is mentioned outside a grammar.  Then no
    step of the compiler records an error or leaves an open call. *)
From S2P Require Import Prelude Charset Input Code ITree Memo Stack Vm Pattern Compile Sem PatternFacts Inline Wf InlineSound Machine CompileSpec CompileNodes CompileStruct Operands Labels Total CompileOk Optimize.

Definition defined (defs : list (string * pat)) (nm : string) : bool := bool_decide (is_Some (find_def defs nm)).

(** Non-terminals for an enclosing grammar are in [N]; grammars inside have
    what they need. *)
Fixpoint names_in (N : string → bool) (p : pat) : bool :=
  match p with
  | PAT_ALT l r | PAT_SEQ l r => names_in N l && names_in N r
  | PAT_STAR p | PAT_PLUS p | PAT_OPTIONAL p | PAT_NOT p | PAT_AND p | PAT_SEARCH p
  | PAT_CAP p _ | PAT_MEMO p _ | PAT_CHECK p _ _ _ | PAT_REPEAT p _
  | PAT_NONTERM _ (Some p) | PAT_ERROR _ (Some p) => names_in N p
  | PAT_NONTERM nm None => N nm
  | PAT_GRAMMAR start defs => defined defs start &&
      (fix all ds := match ds with [] => true | (_, d) :: ds => names_in (defined defs) d && all ds end) defs
  | _ => true
  end.

Definition resolved (p : pat) : bool := names_in (λ _, false) p.

Lemma names_in_grammar N start defs : names_in N (PAT_GRAMMAR start defs) =
  defined defs start && forallb (λ nd, names_in (defined defs) nd.2) defs.
Proof.
  cbn [names_in]. f_equal. generalize (defined defs) as M. intros M. induction defs as [|[n d] ds IH]; [done |].
  cbn [forallb snd]. by rewrite <- IH.
Qed.

Lemma names_in_closed N p : closed p = true → flat p = true → names_in N p = true.
Proof.
  induction p using pat_ind'; cbn [closed flat names_in]; intros; bools; rewrite ?andb_true_iff; auto; done.
Qed.

Lemma names_in_weaken (N N' : string → bool) p : (∀ nm, N nm = true → N' nm = true) → names_in N p = true → names_in N' p = true.
Proof.
  intros HN. induction p using pat_ind'; try rewrite !names_in_grammar; cbn [names_in]; intros; bools;
    rewrite ?andb_true_iff; auto; done.
Qed.

(** A closed pattern mentions nothing. *)
Lemma names_in_unmentioned N N' p : closed p = true → names_in N p = true → names_in N' p = true.
Proof.
  induction p using pat_ind'; try rewrite !names_in_grammar; cbn [closed names_in]; intros; bools; rewrite ?andb_true_iff; auto; done.
Qed.

(** ** Simplification and inlining keep it *)

Lemma get_pat_fuel_names N fuel p q : get_pat_fuel fuel p = Ok q → names_in N p = true → names_in N q = true.
Proof.
  revert p q. induction fuel as [|fuel IH]; intros p q H Hn; [done |].
  destruct p as [l r | l r | | | s | | | | | | | | | | | name [d|] | | | |]; cbn [get_pat_fuel] in H;
    try (by injection H as <-).
  - inv_bind. pose proof Hn as Hlr. cbn [names_in] in Hlr. bools. rename x into l', x0 into r'.
    assert (names_in N l' = true) as Hl by (by eapply IH). assert (names_in N r' = true) as Hr by (by eapply IH).
    assert (mret match combine l' r' with Some s => pat_set s | None => PAT_ALT l r end = Ok q → names_in N q = true) as Hc
      by (intros [= <-]; by destruct (combine l' r')).
    assert (get_pat_fuel fuel (pat_optional l') = Ok q → names_in N q = true) as Ho by (intros Hq; by eapply IH).
    destruct l'; [.. | by injection H as <-]; destruct r'; auto.
  - inv_bind. pose proof Hn as Hlr. cbn [names_in] in Hlr. bools. rename x into l', x0 into r'.
    change (mret (simplify_seq (PAT_SEQ l r) l' r') = Ok q) in H. injection H as <-.
    destruct (simplify_seq_shape (PAT_SEQ l r) l' r') as [E | [E | [E | [s E]]]]; rewrite E; [done | by eapply IH.. | done].
  - inv_bind. rename x into s', H0 into Hs. apply IH in Hs; [| done]. destruct s'; by injection H as <-.
Qed.

Lemma get_pat_names N p q : get_pat p = Ok q → names_in N p = true → names_in N q = true.
Proof. apply get_pat_fuel_names. Qed.

Lemma wi_names body N p : (∀ nm q, body nm = Some q → closed q = true ∧ flat q = true) →
  flat p = true → names_in N p = true → names_in N (wi body p) = true.
Proof.
  intros Hb. induction p as [| | | | | | | | | | | | | | | n | | | | | |] using pat_ind'; rewrite wi_eq; cbn [flat names_in]; intros; bools;
    rewrite ?andb_true_iff; auto; try done.
  destruct (body n) as [q|] eqn:Hq; [| done]. destruct (Hb _ _ Hq). by apply names_in_closed.
Qed.

Definition names_ok (defs : list (string * pat)) : Prop := forallb (λ nd, names_in (defined defs) nd.2) defs = true.

Lemma grammar_inline_fuel_names fuel start defs defs' : wf_defs defs = true → names_ok defs →
  grammar_inline_fuel fuel start defs = Ok defs' → names_ok defs' ∧ ∀ nm, find_def defs' nm = find_def defs nm.
Proof.
  revert defs. induction fuel as [|fuel IH]; intros defs Hwf Hn; cbn [grammar_inline_fuel];
    rewrite grammar_inline_once_eq;
    pose proof (inline_body_spec defs Hwf) as Hb; set (body := inline_fn defs _) in *;
    pose proof (walk_defs_id body defs) as Hid;
    destruct (walk_defs body defs) as [ds did] eqn:Hds; cbn [fst snd] in Hid; destruct did.
  1: done.
  1,3: rewrite Hid by done; by intros [= <-].
  intros H. assert (ds = (λ nd, (nd.1, wi body nd.2)) <$> defs) as E by (rewrite <- walk_defs_map; by rewrite Hds).
  assert (∀ nm, find_def ds nm = find_def defs nm) as Hf by (intros nm; rewrite E; apply find_def_map).
  assert (∀ nm q, def_of defs nm = Some q → flat q = true) as Hflat.
  { intros nm q Hq. apply (wf_def_of _ _ _ Hwf) in Hq. unfold wf_def in Hq. by bools. }
  destruct (IH ds) as [Hn' Hf']; [| | done |].
  - assert (ds = wi_defs body defs) as -> by (unfold wi_defs; by rewrite Hds). by apply wi_defs_wf.
  - unfold names_ok in *. rewrite forallb_forall in Hn |- *. intros nd Hnd. rewrite E in Hnd.
    apply list_elem_of_In, list_elem_of_fmap in Hnd as (nd0 & -> & Hnd0%list_elem_of_In). cbn [snd].
    pose proof (Hn _ Hnd0) as Hn0. unfold wf_defs in Hwf. rewrite forallb_forall in Hwf. specialize (Hwf _ Hnd0).
    unfold wf_def in Hwf. bools. apply wi_names; [| done |].
    + intros nm q Hq. destruct (Hb _ _ Hq) as [Hd Hc]. split; [done |]. by eapply Hflat.
    + eapply names_in_weaken; [| exact Hn0]. intros nm. unfold defined. by rewrite Hf.
  - split; [done |]. intros nm. by rewrite Hf', Hf.
Qed.

(** ** Used definitions *)

Definition marked (defs : list (string * pat)) (used : list bool) (nm : string) : bool :=
  match find_def defs nm with Some di => default false (used !! di) | None => false end.

Lemma collect_fn_grows defs p a : length (collect_used_fn defs p a).1 = length a.1 ∧
  ∀ nm, marked defs a.1 nm = true → marked defs (collect_used_fn defs p a).1 nm = true.
Proof.
  destruct p as [| | | | | | | | | | | | | | | nm [q|] | | | |]; try done. cbn [collect_used_fn fst].
  destruct (find_def defs nm) as [di|]; [| done]. split; [apply length_insert |]. intros nm' Hm. unfold marked in *.
  destruct (find_def defs nm') as [dj|]; [| done]. destruct (decide (di = dj)) as [-> | Hne].
  - rewrite list_lookup_insert_eq; [done |]. destruct (a.1 !! dj) eqn:E; [by apply lookup_lt_Some in E | done].
  - by rewrite list_lookup_insert_ne.
Qed.

Lemma walk_grows defs p a : length (walk_pat (collect_used_fn defs) p a).1 = length a.1 ∧
  ∀ nm, marked defs a.1 nm = true → marked defs (walk_pat (collect_used_fn defs) p a).1 nm = true.
Proof.
  revert a. induction p as [l r IHl IHr | l r IHl IHr | | | | | | | | | start ds IH | | | | | | | | | | |] using pat_ind';
    intros a; try apply (collect_fn_grows defs _ a); cbn [walk_pat]; try apply IHp.
  - cbn [collect_used_fn]. destruct (IHl a) as [H1 H2], (IHr (walk_pat (collect_used_fn defs) l a)) as [H3 H4].
    split; [congruence | auto].
  - cbn [collect_used_fn]. destruct (IHl a) as [H1 H2], (IHr (walk_pat (collect_used_fn defs) l a)) as [H3 H4].
    split; [congruence | auto].
  - cbn [collect_used_fn]. revert a. induction IH as [|[n q] ds Hq _ IHds]; intros a; [done |]. cbn in Hq.
    destruct (Hq a) as [H1 H2], (IHds (walk_pat (collect_used_fn defs) q a)) as [H3 H4]. split; [congruence | auto].
Qed.

Lemma walk_marks defs p a : length a.1 = length defs → wfp p = true → flat p = true → names_in (defined defs) p = true →
  names_in (marked defs (walk_pat (collect_used_fn defs) p a).1) p = true.
Proof.
  revert a. induction p as [l r IHl IHr | l r IHl IHr | | | | | | | | | start ds IH | | | | | nm | nm q IHq | | | | |] using pat_ind';
    intros a Ha; cbn [walk_pat wfp flat names_in]; intros; bools; rewrite ?andb_true_iff; auto; try done.
  1-2: cbn [collect_used_fn]; set (a1 := walk_pat _ l a) in *; split;
    [eapply names_in_weaken; [apply walk_grows | by apply IHl] | apply IHr; try done; unfold a1; by rewrite (proj1 (walk_grows defs l a))].
  - by apply names_in_closed.
  - cbn [collect_used_fn fst]. unfold marked. unfold defined in *. destruct (find_def defs nm) as [di|] eqn:Hf; [| done].
    rewrite list_lookup_insert_eq; [done |]. rewrite Ha. eapply lookup_lt_is_Some. by eapply find_def_lookup.
Qed.

Lemma collect_used_marks defs : wf_defs defs = true → names_ok defs →
  length (collect_used defs).1 = length defs ∧
  ∀ nd, nd ∈ defs → names_in (marked defs (collect_used defs).1) nd.2 = true.
Proof.
  unfold wf_defs, names_ok, collect_used. intros Hwf Hn. rewrite forallb_forall in Hwf, Hn.
  assert (∀ (ds : list (string * pat)) (a : list bool * bool), length a.1 = length defs → (∀ nd, nd ∈ ds → nd ∈ defs) →
    let b := fold_left (λ d nd, walk_pat (collect_used_fn defs) nd.2 d) ds a in
    length b.1 = length defs ∧ (∀ nm, marked defs a.1 nm = true → marked defs b.1 nm = true) ∧
    ∀ nd, nd ∈ ds → names_in (marked defs b.1) nd.2 = true) as H.
  { induction ds as [|nd ds IH]; intros a Ha Hds; cbn zeta; cbn [fold_left].
    - split_and!; [done | done |]. by intros nd ?%not_elem_of_nil.
    - set (a1 := walk_pat _ nd.2 a). destruct (walk_grows defs nd.2 a) as [Hl1 Hg1].
      destruct (IH a1) as (Hl & Hg & Hin); [by unfold a1; rewrite Hl1 | intros x Hx; apply Hds; by right |].
      split_and!; [done | intros nm Hm; by apply Hg, Hg1 |]. intros x [-> | Hx]%elem_of_cons; [| by apply Hin].
      assert (nd ∈ defs) as Hnd by (apply Hds; by left). apply list_elem_of_In in Hnd.
      pose proof (Hwf _ Hnd) as Hw. unfold wf_def in Hw. bools. eapply names_in_weaken; [exact Hg |].
      apply walk_marks; try done. by apply Hn. }
  destruct (H defs (replicate (length defs) false, false)) as (Hl & _ & Hin); [apply length_replicate | done | done].
Qed.

(** ** Code *)

Definition calls_in (N : string → bool) (l : pir) : Prop :=
  Forall (λ x, p_op x = PIR_OPENCALL → ∃ nm, p_name x = Some nm ∧ N nm = true) l.

Lemma calls_in_weaken (N N' : string → bool) l : (∀ nm, N nm = true → N' nm = true) → calls_in N l → calls_in N' l.
Proof. intros HN Hl. eapply Forall_impl; [exact Hl |]. intros x Hx Ho. destruct (Hx Ho) as (nm & ? & ?). eauto. Qed.

(** Solve [calls_in] of known instructions around parts. *)
Ltac calls := unfold code_not, code_and, code_memo, code_check, code_star, code_memo_star, calls_in in *;
  repeat (rewrite ?Forall_app, ?Forall_cons, ?Forall_nil; split_and?); try done.

Lemma calls_in_alt N l r l1 l2 : calls_in N l → calls_in N r → calls_in N (code_alt l r l1 l2).
Proof.
  intros Hl Hr. unfold code_alt. destruct (alt_test l r l1) as [[] test] eqn:Ht; [| calls].
  assert (p_op test ≠ PIR_OPENCALL) by (unfold alt_test in Ht; repeat case_match; by simplify_eq).
  calls. by apply Forall_drop.
Qed.

Lemma calls_in_cap N sub id : calls_in N sub → calls_in N (code_cap sub id).
Proof.
  intros Hs. unfold code_cap. destruct (const_prefix sub) as [n back].
  destruct (_ || _); [calls |]. destruct (n =? length sub)%nat; calls; [by apply Forall_take | by apply Forall_drop].
Qed.

(** Nothing is reported, and the code calls names in [N]. *)
Definition named_cp (cp : pctx → pat → res (pir * pctx)) : Prop :=
  ∀ c p code c' N, cp c p = Ok (code, c') → wfc p = true → names_in N p = true → err c = None →
    0 <= nlabels c → err c' = None ∧ calls_in N code.

Lemma emit_defs_names cp c i defs s used code labels c' N : named_cp cp → makes_struct cp →
  emit_defs cp c i defs s used = Ok (code, labels, c') → err c = None → 0 <= nlabels c →
  (∀ nd, nd ∈ defs → wfc nd.2 = true ∧ names_in N nd.2 = true) →
  err c' = None ∧ calls_in N code ∧ length labels = length defs ∧
  ∀ k l, labels !! k = Some l → (i + k)%nat = s ∨ used !! (i + k)%nat = Some true → 0 <= l.
Proof.
  intros Hcp Hst. revert c i code labels c'. induction defs as [|[nm q] ds IH]; intros c i code labels c' H He Hc Hd;
    cbn [emit_defs] in H; [injection H as <- <- <-; by split_and!; [| constructor | |] |].
  destruct (Hd (nm, q)) as [Hw Hn]; [by left |]. assert (∀ nd, nd ∈ ds → wfc nd.2 = true ∧ names_in N nd.2 = true) as Hds
    by (intros nd Hnd; apply Hd; by right).
  destruct (negb (i =? s)%nat && negb (default false (used !! i))) eqn:Hskip; inv_res.
  - match goal with A : emit_defs _ _ _ _ _ _ = Ok _ |- _ => destruct (IH _ _ _ _ _ A He Hc Hds) as (K1 & K2 & K3 & K4) end.
    split_and!; [done | done | cbn; lia |]. intros [|k] l Hk Hu; [| apply (K4 k); [done | by rewrite <- Nat.add_succ_comm in Hu]].
    exfalso. rewrite Nat.add_0_r in Hu. apply andb_prop in Hskip as [Hs1 Hs2]. apply negb_true_iff in Hs1, Hs2.
    apply Nat.eqb_neq in Hs1. destruct Hu as [? | Hu]; [done | by rewrite Hu in Hs2].
  - match goal with A : cp _ q = Ok _ |- _ => destruct (Hcp _ _ _ _ N A Hw Hn He) as [J1 J2]; [cbn; lia |]; apply Hst in A;
      pose proof (st_le _ _ _ A) as Hle; cbn [nlabels] in Hle end.
    match goal with A : emit_defs _ _ _ _ _ _ = Ok _ |- _ =>
      destruct (IH _ _ _ _ _ A J1 ltac:(lia) Hds) as (K1 & K2 & K3 & K4) end.
    split_and!; [done | calls | cbn; lia |]. intros [|k] l' Hk Hu; [by injection Hk as <- |].
    apply (K4 k); [done | by rewrite <- Nat.add_succ_comm in Hu].
Qed.

Lemma resolve_calls_all n i defs labels code : (i + n)%nat = length code →
  calls_in (λ nm, bool_decide (is_Some (call_label_of defs labels nm))) code →
  (∀ j x, (j < i)%nat → code !! j = Some x → p_op x ≠ PIR_OPENCALL) →
  ∃ code', resolve_calls n i defs labels code = (code', None) ∧ no_open code'.
Proof.
  revert i code. induction n as [|n IH]; intros i code Hn Hc Hi.
  { exists code. split; [done |]. apply Forall_lookup_2. intros j x Hx. apply (Hi j); [| done]. apply lookup_lt_Some in Hx. lia. }
  rewrite resolve_calls_S. destruct (lookup_lt_is_Some_2 code i) as [x Hx]; [lia |]. rewrite Hx.
  case_bool_decide as Ho.
  - destruct (Forall_lookup_1 _ _ _ _ Hc Hx Ho) as (nm & Hnm & Hl). apply bool_decide_eq_true in Hl as [l Hl].
    assert (resolve_label defs labels x = Some l) as -> by (unfold resolve_label; rewrite Hnm; exact Hl).
    destruct (resolve_at_struct i l code x Hx Ho) as [Hlen _].
    destruct (resolve_at_eq i l code (lookup_lt_Some _ _ _ Hx)) as (o & _ & _ & Heq).
    apply IH; [lia | |].
    + rewrite Heq. destruct (dead_slot i code); repeat apply Forall_insert; done.
    + intros j y Hj Hy. destruct (decide (p_op y = PIR_OPENCALL)) as [Hyo |]; [exfalso | done].
      rewrite Heq in Hy. assert (code !! j = Some y ∧ j ≠ i) as [Hy' Hji].
      { destruct (dead_slot i code) as [ri|]; repeat (apply list_lookup_insert_Some in Hy as [(_ & <- & _) | [? Hy]]; [done |]); done. }
      apply (Hi j y); [lia | done | done].
  - apply IH; [lia | done |]. intros j y Hj Hy. destruct (decide (j = i)) as [-> |]; [congruence | apply (Hi j); [lia | done]].
Qed.

Lemma no_open_calls N code : no_open code → calls_in N code.
Proof. intros H. eapply Forall_impl; [exact H |]. intros x Hx Ho. congruence. Qed.

Lemma compile_grammar_names cp c start defs0 code c' N : named_cp cp → makes_struct cp →
  compile_grammar cp c start defs0 = Ok (code, c') → err c = None → 0 <= nlabels c →
  (∀ defs, grammar_inline start defs0 = Ok defs → names_ok defs ∧ defined defs start = true ∧
    (∀ nd, nd ∈ defs → wfc nd.2 = true ∧ (unres nd.2 = O → closed nd.2 = true ∧ names_in N nd.2 = true)) ∧
    length (collect_used defs).1 = length defs ∧ ∀ nd, nd ∈ defs → names_in (marked defs (collect_used defs).1) nd.2 = true) →
  err c' = None ∧ calls_in N code.
Proof.
  intros Hcp Hst H He Hc Hdefs. unfold compile_grammar in H. inv_bind. rename x into defs.
  destruct (Hdefs defs H0) as (Hn & Hs & Hd & Hlen & Hm). destruct (collect_used defs) as [used any_used] eqn:Hu.
  cbn [fst] in Hlen, Hm. unfold defined in Hs. apply bool_decide_eq_true in Hs as [si Hs]. rewrite Hs in H.
  destruct any_used; cbn [negb] in H.
  2: { inv_bind. apply fmap_Some in H1 as ([nm q] & Hq & ->).
       pose proof (collect_used_none defs si nm q ltac:(by rewrite Hu) Hq) as Hu0.
       apply list_elem_of_lookup_2 in Hq. destruct (Hd _ Hq) as [Hw Hcl]. destruct (Hcl Hu0). by eapply Hcp. }
  unfold pctx_label in H. inv_bind. destruct x as [[body labels] c2].
  destruct (emit_defs_names cp _ _ _ _ _ _ _ _ (marked defs used) Hcp Hst H1 He) as (He2 & Hcalls & Hll & Hlab);
    [cbn; lia | intros nd Hnd; split; [by apply Hd | by apply Hm] |].
  match goal with H : context [resolve_calls _ _ _ _ ?l] |- _ => set (code0 := l) in H end.
  assert (∀ nm, nm = start ∨ marked defs used nm = true → is_Some (call_label_of defs labels nm)) as Hres.
  { intros nm Hnm. assert (∃ di, find_def defs nm = Some di ∧ (di = si ∨ used !! di = Some true)) as (di & Hdi & Hud).
    { destruct Hnm as [-> | Hnm]; [eauto |]. unfold marked in Hnm. destruct (find_def defs nm) as [di|]; [| done].
      exists di. split; [done |]. right. destruct (used !! di) as [b|]; [cbn in Hnm; by subst | done]. }
    unfold call_label_of. rewrite Hdi. cbn. destruct (lookup_lt_is_Some_2 labels di) as [l Hl].
    { rewrite Hll. apply lookup_lt_is_Some. by eapply find_def_lookup. }
    rewrite Hl. cbn. destruct (Z.ltb_spec l 0); [| by eexists]. specialize (Hlab di l Hl Hud). lia. }
  destruct (resolve_calls_all (length code0) 0 defs labels code0) as (code1 & Hrc & Hno); [done | | intros; lia |].
  - assert (calls_in (λ nm, bool_decide (is_Some (call_label_of defs labels nm))) body) as Hb.
    { eapply calls_in_weaken; [| exact Hcalls]. intros nm Hnm. apply bool_decide_eq_true. apply Hres. by right. }
    unfold code0. calls. intros _. exists start. split; [done |]. apply bool_decide_eq_true, Hres. by left.
  - rewrite Hrc in H. injection H as <- <-. split; [done |].
    apply no_open_calls. apply Forall_app. by rewrite Forall_singleton.
Qed.

Lemma compile_repeat_names cp n c p code c' N : named_cp cp → makes_struct cp →
  compile_repeat cp n c p = Ok (code, c') → wfc p = true → names_in N p = true → err c = None → 0 <= nlabels c →
  err c' = None ∧ calls_in N code.
Proof.
  intros Hcp Hst H Hw Hn. revert c code c' H. induction n as [|n IH]; intros c code c' H He Hc; cbn [compile_repeat] in H.
  - injection H as <- <-. by split; [| constructor].
  - inv_res. match goal with A : cp c p = Ok _ |- _ => destruct (Hcp _ _ _ _ N A Hw Hn He Hc) as [J1 J2]; apply Hst in A;
      pose proof (st_le _ _ _ A) end.
    match goal with A : compile_repeat _ n _ _ = Ok _ |- _ => destruct (IH _ _ _ A J1 ltac:(lia)) as [K1 K2] end.
    split; [done | calls].
Qed.

Lemma search_body_names sp skip : closed sp = true → names_in (λ _, false) sp = true →
  names_in (defined [("S"%string, search_body sp skip)]) (search_body sp skip) = true ∧
  names_in (marked [("S"%string, search_body sp skip)] (collect_used [("S"%string, search_body sp skip)]).1) (search_body sp skip) = true.
Proof.
  intros Hc Hn. split.
  - unfold search_body at 2. destruct skip; cbn -[defined]; (rewrite (names_in_weaken (λ _, false)); [| done | done]); done.
  - set (defs := [_]). unfold collect_used. cbn [fold_left defs length replicate snd]. unfold search_body.
    destruct (walk_grows defs sp ([false], false)) as [Hl _]. set (u := walk_pat _ sp ([false], false)) in *.
    assert (marked defs (<[0%nat := true]> u.1) "S" = true) as HS.
    { unfold marked. cbn [defs find_def]. rewrite decide_True by done. rewrite list_lookup_insert_eq; [done |]. rewrite Hl. cbn. lia. }
    assert (names_in (marked defs (<[0%nat := true]> u.1)) sp = true) as Hsp by (eapply names_in_weaken; [| exact Hn]; done).
    destruct skip; cbn [pat_alt pat_concat fold_left pat_seq pat_any pat_star pat_set pat_nonterm walk_pat collect_used_fn names_in];
      fold u; cbn [fst defs find_def]; rewrite decide_True by done; cbn [fst]; by rewrite Hsp, HS.
Qed.

(** The code of a simplified sub-pattern, and of two. *)
Ltac use_names Hsub := repeat match goal with
  | A : compile_pat _ _ ?q' = Ok _, G : get_pat _ = Ok ?q' |- _ =>
      destruct (Hsub _ _ _ _ _ A G) as (? & ? & ?); [assumption | assumption | cbn; assumption | cbn; lia |]; clear A
  end.

Section Node.
Context (fuel : nat) (IH : named_cp (compile_pat fuel)) (N : string → bool).

Lemma names_sub c q q' code c' : compile_pat fuel c q' = Ok (code, c') → get_pat q = Ok q' → wfp q = true →
  names_in N q = true → err c = None → 0 <= nlabels c → err c' = None ∧ 0 <= nlabels c' ∧ calls_in N code.
Proof.
  intros H Hq Hw Hnq He Hc.
  destruct (IH _ _ _ _ N H) as [H1 H2]; [by apply wfp_wfc, (get_pat_keeps _ _ Hq Hw) | by eapply get_pat_names | done.. |].
  apply compile_struct in H. pose proof (st_le _ _ _ H). split_and!; [done | lia | done].
Qed.

Lemma names_plus c p code c' : compile_pat (S fuel) c (PAT_PLUS p) = Ok (code, c') → wfp p = true →
  names_in N (PAT_PLUS p) = true → err c = None → 0 <= nlabels c → err c' = None ∧ calls_in N code.
Proof.
  cbn [compile_pat names_in]. intros H Hwf Hn He Hc.
  inv_bind. destruct (get_pat_keeps _ _ H0 Hwf) as [Hk _]. pose proof (get_pat_names N _ _ H0 Hn) as Hnx. inv_res.
  match goal with A : compile_pat fuel c (pat_star x) = Ok _ |- _ => destruct (IH _ _ _ _ N A) as [K1 K2]; [done.. |];
    apply compile_struct in A; pose proof (st_le _ _ _ A) end.
  use_names names_sub. split; [done | calls].
Qed.

Lemma names_optional c p code c' : compile_pat (S fuel) c (PAT_OPTIONAL p) = Ok (code, c') → wfp p = true →
  names_in N (PAT_OPTIONAL p) = true → err c = None → 0 <= nlabels c → err c' = None ∧ calls_in N code.
Proof.
  cbn [compile_pat names_in]. intros H Hwf Hn He Hc.
  inv_bind. destruct (get_pat_keeps _ _ H0 Hwf) as [Hk _]. pose proof (get_pat_names N _ _ H0 Hn) as Hnx.
  destruct (literal1 x) as [b|]; [inv_res; split; [done | calls] |].
  assert (∀ code c', compile_pat fuel c (pat_alt x PAT_EMPTY) = Ok (code, c') → err c' = None ∧ calls_in N code) as Halt.
  { intros code0 c0' H'. eapply IH; [exact H' | | | done..]; cbn; by rewrite ?Hk, ?Hnx. }
  destruct x; try (by eapply Halt). inv_res. split; [done | calls].
Qed.

Lemma names_grammar c start defs code c' : compile_pat (S fuel) c (PAT_GRAMMAR start defs) = Ok (code, c') → wfp (PAT_GRAMMAR start defs) = true →
  names_in N (PAT_GRAMMAR start defs) = true → err c = None → 0 <= nlabels c → err c' = None ∧ calls_in N code.
Proof.
  cbn [compile_pat]. rewrite wfp_grammar, names_in_grammar. intros H Hwf Hn He Hc. bools.
  eapply compile_grammar_names; [exact IH | apply compile_struct | exact H | done | done |].
  intros defs' Hinl. destruct (grammar_inline_inlined _ _ _ Hwf Hinl) as [Hwf' _].
  destruct (grammar_inline_fuel_names _ _ _ _ Hwf ltac:(done) Hinl) as [Hn' Hf].
  destruct (collect_used_marks _ Hwf' Hn') as [Hlen Hm].
  split_and!; [done | unfold defined; by rewrite Hf | | done | done].
  intros nd Hnd. unfold wf_defs in Hwf'. rewrite forallb_forall in Hwf'. apply list_elem_of_In, Hwf' in Hnd.
  unfold wf_def in Hnd. bools. split; [by apply wfp_wfc |]. intros Hu.
  assert (closed nd.2 = true) by by apply closed_of_unres. split; [done | by apply names_in_closed].
Qed.

Lemma names_search c p code c' : compile_pat (S fuel) c (PAT_SEARCH p) = Ok (code, c') → wfp p = true → closed p = true →
  names_in N (PAT_SEARCH p) = true → err c = None → 0 <= nlabels c → err c' = None ∧ calls_in N code.
Proof.
  cbn [compile_pat names_in]. intros H Hwf Hcl Hn He Hc.
  inv_bind. destruct x0 as [sub c1]. inv_bind. rewrite search_grammar_eq in H. rename H0 into Hq, H1 into Hs.
  destruct (get_pat_keeps _ _ Hq ltac:(done)) as (Hk & Hkc & _).
  destruct (compile_struct _ _ _ _ _ Hs) as [_ Hle _ _ Hok].
  destruct (IH _ _ _ _ N Hs) as [K1 K2]; [by apply wfp_wfc | by eapply get_pat_names | done.. |].
  destruct (search_body_names x x0) as [B1 B2]; [by apply Hkc | |].
  { eapply get_pat_names; [exact Hq |]. by apply names_in_unmentioned with N. }
  eapply compile_grammar_names; [exact IH | apply compile_struct | exact H | done | lia |].
  intros defs. rewrite search_inline. intros [= <-].
  assert (wfc (search_body x x0) = true ∧ unres (search_body x x0) ≠ O) as [Hwb Hub].
  { eapply (search_body_wf x x0 "S"); [done | | reflexivity]. eapply search_skip_wf; [done | | done].
    by eapply compile_operands; [| apply wfp_wfc]. }
  split_and!; [| done | | exact (proj1 (walk_grows _ _ ([false], false))) |].
  + unfold names_ok. cbn [forallb snd]. by rewrite B1.
  + intros nd ->%list_elem_of_singleton. by split.
  + by intros nd ->%list_elem_of_singleton.
Qed.

End Node.

Lemma compile_names fuel : named_cp (compile_pat fuel).
Proof.
  induction fuel as [|fuel IH]; intros c p code c' N H Hwf Hn He Hc; [done |].
  pose proof (names_sub fuel IH N) as Hsub.
  destruct p; cbn [wfc] in Hwf;
    try (rewrite wfp_grammar in Hwf || cbn [wfp] in Hwf); try rewrite names_in_grammar in Hn; cbn [names_in] in Hn; bools.
  - (* choice *) cbn [compile_pat] in H. inv_bind. destruct (combine x x0); [injection H as <- <-; split; [done | calls] |]. inv_res.
    use_names Hsub. split; [done | by apply calls_in_alt].
  - (* sequence *) cbn [compile_pat] in H. inv_res. use_names Hsub. split; [done | calls].
  - (* star *) cbn [compile_pat] in H. inv_bind. destruct x; inv_res; use_names Hsub; try (split; [done | calls]; fail).
    destruct (get_pat_keeps _ _ H0 Hwf) as [Hk _]. pose proof (get_pat_names N _ _ H0 Hn). use_names Hsub.
    split; [done | unfold code_memo_star; calls].
  - (* plus *) by eapply names_plus.
  - (* optional *) by eapply names_optional.
  - (* not *) cbn [compile_pat] in H. inv_res. use_names Hsub. split; [done | calls].
  - (* and *) cbn [compile_pat] in H. inv_res. use_names Hsub. split; [done | calls].
  - (* capture *) cbn [compile_pat] in H. inv_res. use_names Hsub. split; [done | by apply calls_in_cap].
  - (* memo *) cbn [compile_pat] in H. inv_res. use_names Hsub. split; [done | calls].
  - (* check *) cbn [compile_pat] in H. inv_res. use_names Hsub. split; [done | calls].
  - (* grammar *) eapply names_grammar; [done | exact H | by rewrite wfp_grammar | by rewrite names_in_grammar; apply andb_true_iff | done..].
  - (* search *) by eapply names_search.
  - (* repeat *) cbn [compile_pat] in H. eapply compile_repeat_names; [exact IH | apply compile_struct | exact H | by apply wfp_wfc | done..].
  - (* class *) cbn [compile_pat] in H. injection H as <- <-. split; [done | calls].
  - (* literal *) cbn [compile_pat] in H. injection H as <- <-. split; [done |]. apply Forall_fmap, Forall_true. by intros b.
  - (* non-terminal *) cbn [compile_pat] in H. destruct inlined as [q|].
    + bools. eapply IH; [exact H | by apply wfp_wfc | done..].
    + injection H as <- <-. split; [done |]. calls. intros _. by exists name.
  - (* dot *) cbn [compile_pat] in H. injection H as <- <-. split; [done | calls].
  - (* error *) cbn [compile_pat] in H. destruct recover as [q|]; [| injection H as <- <-; split; [done | calls]]. inv_res.
    match goal with A : compile_pat fuel c q = Ok _ |- _ => destruct (IH _ _ _ _ N A) as [K1 K2]; [by apply wfp_wfc | done.. |] end.
    split; [done | calls].
  - (* empty operator *) cbn [compile_pat] in H. injection H as <- <-. split; [done | calls].
  - (* empty *) cbn [compile_pat] in H. injection H as <- <-. split; [done | calls].
Qed.
