(* ===== verification/CompileThms.v ===== *)
(** * CompileThms: compiling keeps the meaning

    From the empty stack, the code [compile_pat] generates for a well-formed
    pattern, after [pat_optimize], matches where the pattern matches and fails
    where it fails. *)
From S2P Require Import Prelude Charset Input Code ITree Memo Stack Vm Pattern Compile Sem PatternFacts Inline Wf InlineSound Machine Memos CompileSpec CompileNodes CompileStruct Trees Operands Labels CompileOk Optimize.

(** What a run that matches up to [r], or not, ends with. *)
Definition outcome_of (r : parse) : outcome := match r with Some (j, ts) => Matched j ts | None => NoMatch end.

Lemma placed_self code N : no_open code → placed code N 0 code.
Proof.
  intros Ho j x Hj. cbn [Nat.add]. assert (p_op x ≠ PIR_OPENCALL) as Hx by by apply (Forall_lookup_1 _ _ _ _ Ho Hj).
  unfold allowed. destruct (p_op x) as [[]| |] eqn:E; try done; exists x; (split; [done |]); unfold retlike, is_op; by rewrite E.
Qed.

(** The generated list, run from position [i]. *)
Lemma compile_pat_evals M fuel c p code c' d i r : wfp p = true → memos_ok d M [] p → Forall (tree_ok d M) (tree_nodes fuel [] c p) → Forall is_byte d →
  compile_pat fuel c p = Ok (code, c') → err c' = None → no_open code →
  0 <= i → matches d [] p i r → evals d false code M (Run 0 i empty_stk) (outcome_of r).
Proof.
  intros Hwf Hmo Htn Hd H He Ho Hi [n Hm]. destruct (compile_struct _ _ _ _ _ H) as [_ _ Hlabs Hnop _].
  apply ghost_irrelevant; [done | | by constructor |].
  - assert (spec d code M (λ _, None) code i r) as Hs.
    { eapply (compile_pat_ok d Hd code) with (M := M); try done.
      - intros k x. by eapply lab_lookup.
      - by apply wfp_wfc. }
    apply (spec_run _ _ _ _ _ _ _ 0 empty_stk Hs); [by apply placed_self | done |].
    destruct r as [[j ts]|]; cbn [arrive outcome_of].
    + eapply evals_step; [| | constructor]; [cbn [istep]; by rewrite lookup_ge_None_2 | intros x Hx; by rewrite lookup_ge_None_2 in Hx].
    + by eapply evals_step; [| | constructor].
  - intros x Hx. destruct (is_op VM_NOP x) eqn:E; [| done].
    by destruct (proj1 (nop_ok_lookup code) Hnop O x Hx E) as (k & y & [=] & _).
Qed.

(** The machine that finds nothing asks nothing. *)
Lemma unmemoized_ok d env p : memos_ok d unmemoized env p.
Proof. apply Forall_forall. by intros x _ n i r _ _. Qed.

Lemma unmemoized_trees d l : Forall (tree_ok d unmemoized) l.
Proof. apply Forall_forall. by intros x _ i _. Qed.

(** C6. Compiling keeps the meaning: for a well-formed pattern on bytes, if the
    pattern matches up to [j] with capture trees [ts], or fails, at the start of
    the subject, the instruction list that [compile_pat] generates and
    [pat_optimize] rewrites does the same and builds the same trees, run on the
    parsing machine from the empty stack. *)
Theorem compile_pat_sound fuel counter p code c' code' d r :
  wfp p = true → Forall is_byte d →
  compile_pat fuel (mk_pctx None 0 counter) p = Ok (code, c') → err c' = None → no_open code →
  pat_optimize code = Ok code' → matches d [] p 0 r →
  evals d false code' unmemoized (Run 0 0 empty_stk) (outcome_of r).
Proof. intros. eapply pat_optimize_ok; [done |]. eapply compile_pat_evals; done || apply unmemoized_ok || apply unmemoized_trees. Qed.

(** [S <- { 'a' } S / 'b'], the whole captured too, on ["aab"]. *)
Definition demo_pat : pat :=
  pat_cap (pat_grammar "S" [("S", pat_alt (pat_seq (pat_cap (pat_literal [97]) 9) (pat_nonterm "S")) (pat_literal [98]))]) 7.

Definition demo_subject : list Z := [97; 97; 98].

Definition demo_trees : forest := [PNode 7 0 3 [PNode 9 0 1 []; PNode 9 1 1 []]].

Lemma demo_bytes : Forall is_byte demo_subject.
Proof. repeat constructor; vm_compute; discriminate. Qed.

Lemma demo_matches : matches demo_subject [] demo_pat 0 (Some (3, demo_trees)).
Proof.
  exists 2%nat. apply (M_CAP _ _ _ _ 7 0 (Some (3, _))). eapply M_GRAMMAR; [reflexivity |].
  assert (∀ m env b i x, x = yields (literal_match demo_subject [b] i) [] → matches_at demo_subject m env (PAT_LITERAL [b]) i x) as Hlit
    by (intros ? ? ? ? ? ->; apply M_LITERAL).
  assert (∀ m env i, literal_match demo_subject [97] i = Some (i + 1) →
    matches_at demo_subject m env (PAT_CAP (PAT_LITERAL [97]) 9) i (Some (i + 1, [PNode 9 i (i + 1 - i) []]))) as Hcap
    by (intros m env i Hi; apply (M_CAP _ _ _ _ 9 i (Some (i + 1, []))), Hlit; by rewrite Hi).
  apply M_ALT_L. apply (M_SEQ _ _ _ _ _ _ 1 [PNode 9 0 1 []] (Some (3, [PNode 9 1 1 []]))); [by apply (Hcap _ _ 0) |].
  eapply M_NONTERM; [reflexivity |].
  apply M_ALT_L. apply (M_SEQ _ _ _ _ _ _ 2 [PNode 9 1 1 []] (Some (3, []))); [by apply (Hcap _ _ 1) |].
  eapply M_NONTERM; [reflexivity |].
  apply M_ALT_R; [apply M_SEQ_F, (M_CAP _ _ _ _ 9 2 None) |]; by apply Hlit.
Qed.

Lemma compile_pat_sound_witness :
  ∃ code c' code', compile_pat 20 (mk_pctx None 0 0) demo_pat = Ok (code, c') ∧ pat_optimize code = Ok code' ∧
    evals demo_subject false code' unmemoized (Run 0 0 empty_stk) (Matched 3 demo_trees).
Proof.
  eexists _, _, _. split; [vm_compute; reflexivity |]. split; [vm_compute; reflexivity |].
  eapply (compile_pat_sound 20 0 demo_pat _ _ _ demo_subject (Some (3, demo_trees)));
    [reflexivity | exact demo_bytes | vm_compute; reflexivity | reflexivity | | vm_compute; reflexivity | exact demo_matches].
  repeat constructor; discriminate.
Defined.
