(* ===== verification/Encode.v ===== *)
(** * Encode: the encoder on instruction lists

    [enc] turns a list into a sequence of builder calls, one per real
    instruction, so that by [CodeFacts] the pre-decoded program holds, for the
    list's [k]-th entry, its instruction at index [ridx k]. *)
From S2P Require Import Prelude Charset Input Code CodeFacts ITree Memo Stack Vm Pattern Compile Sem PatternFacts Inline Wf InlineSound Machine CompileSpec CompileNodes CompileStruct Operands Labels CompileOk Optimize.

(** ** Real instructions *)

Definition real (x : pir_insn) : bool := negb (is_label x || is_op VM_NOP x).

(** The instruction index of list position [k]. *)
Definition ridx (P : pir) (k : nat) : nat := length (filter (λ x, real x = true) (take k P)).

Lemma ridx_S P k x : P !! k = Some x → ridx P (S k) = (if real x then S (ridx P k) else ridx P k).
Proof.
  intros Hx. unfold ridx. rewrite (take_S_r _ _ x) by done. rewrite filter_app, length_app.
  destruct (real x) eqn:E; [rewrite filter_cons_True by done | rewrite filter_cons_False by (by rewrite E)]; cbn; lia.
Qed.

Lemma ridx_app P Q k : (k <= length P)%nat → ridx (P ++ Q) k = ridx P k.
Proof. intros. unfold ridx. by rewrite take_app_le. Qed.

Lemma ridx_le P k : (ridx P k <= ridx P (length P))%nat.
Proof.
  unfold ridx. rewrite firstn_all. rewrite <- (take_drop k P) at 2. rewrite filter_app, length_app. lia.
Qed.

(** The builder call of an entry, given its label's id. *)
Definition pir_call (l : Z) (x : pir_insn) : option vm_call :=
  match p_op x with
  | PIR_LABEL => Some (CMark l)
  | PIR_OPENCALL | OP VM_NOP => None
  | OP VM_CHAR => Some (CChar (u8 (p_a x)))
  | OP VM_JUMP => Some (CJump l)
  | OP VM_CHOICE => Some (CChoice l)
  | OP VM_CALL => Some (CCall l)
  | OP VM_COMMIT => Some (CCommit l)
  | OP VM_RETURN => Some CReturn
  | OP VM_FAIL => Some CFail
  | OP VM_SET => Some (CSet (p_set x))
  | OP VM_ANY => Some (CAny (u8 (p_a x)))
  | OP VM_PARTIAL_COMMIT => Some (CPartialCommit l)
  | OP VM_SPAN => Some (CSpan (p_set x))
  | OP VM_BACK_COMMIT => Some (CBackCommit l)
  | OP VM_FAIL_TWICE => Some CFailTwice
  | OP VM_EMPTY => Some (CEmpty (u8 (p_a x)))
  | OP VM_TEST_CHAR => Some (CTestChar (u8 (p_b x)) l)
  | OP VM_TEST_CHAR_NOCHOICE => Some (CTestCharNochoice (u8 (p_b x)) l)
  | OP VM_TEST_SET => Some (CTestSet (p_set x) l)
  | OP VM_TEST_SET_NOCHOICE => Some (CTestSetNochoice (p_set x) l)
  | OP VM_TEST_ANY => Some (CTestAny (u8 (p_b x)) l)
  | OP VM_END => Some (CEnd (negb (p_a x =? 0)))
  | OP VM_CAPTURE_BEGIN => Some (CCaptureBegin (i16 (p_a x)))
  | OP VM_CAPTURE_LATE => Some (CCaptureLate (u8 (p_b x)) (i16 (p_a x)))
  | OP VM_CAPTURE_END => Some CCaptureEnd
  | OP VM_CAPTURE_FULL => Some (CCaptureFull (u8 (p_b x)) (i16 (p_a x)))
  | OP VM_CHECK_BEGIN => Some (CCheckBegin (i16 (p_a x)) (i16 (p_b x)))
  | OP VM_CHECK_END => Some CCheckEnd
  | OP VM_MEMO_OPEN => Some (CMemoOpen l (i16 (p_b x)))
  | OP VM_MEMO_CLOSE => Some CMemoClose
  | OP VM_MEMO_TREE_OPEN => Some (CMemoTreeOpen l (i16 (p_b x)))
  | OP VM_MEMO_TREE_INSERT => Some CMemoTreeInsert
  | OP VM_MEMO_TREE => Some CMemoTree
  | OP VM_MEMO_TREE_CLOSE => Some (CMemoTreeClose (i16 (p_a x)))
  | OP VM_ERROR => CError <$> p_msg x
  end.

Lemma is_i16_range z : - 2 ^ 15 <= i16 z < 2 ^ 15.
Proof. unfold i16. pose proof (Z.mod_pos_bound (z + 2 ^ 15) (2 ^ 16) ltac:(done)). lia. Qed.

Lemma pir_call_ok b x c : pir_set_ok x = true → pir_call b x = Some c → call_ok c.
Proof.
  unfold pir_set_ok, pir_call. intros Hs H. pose proof is_i16_range. pose proof u8_range.
  destruct (p_op x) as [[]| |]; try done; try (injection H as <-; cbn; auto; fail);
    try (injection H as <-; by apply bool_decide_eq_true in Hs).
  destruct (p_msg x); [by injection H as <- | done].
Qed.

(** ** One entry *)

Lemma enc_label_spec e l b e1 : enc_label e l = Ok (b, e1) → lmap e1 !! l = Some b ∧ echeckers e1 = echeckers e ∧
  (e1 = e ∨ lmap e !! l = None ∧ b = Z.of_nat (length (labels (builder e))) ∧
   do_call (builder e) CLabel = Ok (builder e1) ∧ lmap e1 = <[l := b]> (lmap e)).
Proof.
  unfold enc_label. intros H. case_match; [done |]. destruct (lmap e !! l) as [b'|] eqn:Hl.
  - injection H as <- <-. split_and!; try done. by left.
  - cbn in H. injection H as <- <-. cbn. split_and!; try done; [by rewrite lookup_insert_eq | by right].
Qed.

(** The state the call is made in: the label looked up first. *)
Definition labelled (e : encoder) (x : pir_insn) (b : Z) (e1 : encoder) : Prop :=
  match pir_lab x with None => e1 = e | Some l => enc_label e l = Ok (b, e1) end.

Definition check_fn (x : pir_insn) : list (option vm_checker) := if is_op VM_CHECK_END x then [p_fn x] else [].

Lemma enc_spec x e e' : enc x e = Ok e' →
  is_op VM_NOP x = true ∧ e' = e ∨
  is_op VM_NOP x = false ∧ ∃ b e1 c, labelled e x b e1 ∧ pir_call b x = Some c ∧ do_call (builder e1) c = Ok (builder e') ∧
    lmap e' = lmap e1 ∧ echeckers e' = echeckers e1 ++ check_fn x.
Proof.
  unfold enc, pir_call, labelled, pir_lab, check_fn, is_op.
  destruct (p_op x) as [[]| |]; intros H; try discriminate H;
    try (injection H as <-; by left);
    (right; split; [done |]);
    try (apply bind_Ok in H as ([b e1] & He & H)); try (apply bind_Ok in H as (q & Hq & H));
    try (injection H as <-).
  all: try (eexists 0, e, _; cbn [bool_decide]; split_and!; try done; by rewrite ?app_nil_r).
  all: try (exists b, e1; eexists; split_and!; try done; by rewrite ?app_nil_r).
  all: try (eexists 0, e, _; split_and!; try done; cbn; rewrite ?app_nil_r; done).
  apply must_Ok in Hq. exists 0, e, (CError q). by rewrite Hq, app_nil_r.
Qed.

(** ** A whole list *)

Lemma insn_calls_cons c cs : insn_calls (c :: cs) = if is_insn c then c :: insn_calls cs else insn_calls cs.
Proof. unfold insn_calls. rewrite filter_cons. by destruct (is_insn c). Qed.

Lemma label_targets_app cs cs' n ls :
  label_targets (cs ++ cs') n ls = label_targets cs' (n + length (insn_calls cs)) (label_targets cs n ls).
Proof.
  revert n ls. induction cs as [|c cs IH]; intros n ls; [by rewrite Nat.add_0_r |]. cbn [app].
  rewrite insn_calls_cons. destruct c; cbn [label_targets is_insn length]; rewrite IH; f_equal; lia.
Qed.

Lemma insn_calls_app cs cs' : insn_calls (cs ++ cs') = insn_calls cs ++ insn_calls cs'.
Proof. apply filter_app. Qed.

Lemma call_is_insn b x c : pir_call b x = Some c → is_insn c = real x.
Proof.
  unfold pir_call, real, is_label, is_op. destruct (p_op x) as [[]| |]; try done; try (by intros [= <-]).
  by destruct (p_msg x); [intros [= <-] |].
Qed.

Lemma length_labels_call p c p' : do_call p c = Ok p' →
  length (labels p') = (length (labels p) + match c with CLabel => 1 | _ => 0 end)%nat.
Proof.
  destruct c; cbn [do_call]; intros H;
  unfold vm_emit_set, vm_emit_span, vm_emit_test_set, vm_emit_test_set_nochoice, emit_op_set,
    emit_op_set_label, vm_prog_mark, vm_emit_error, add_set, add_error in H;
  try (apply bind_Ok in H as ([k p1] & Ha & H)); repeat case_match; simplify_eq; try done;
  try (injection H as <-); try (injection Ha as <- <-); cbn; rewrite ?length_app, ?length_insert; cbn; lia.
Qed.

Lemma length_label_targets cs p p' n ls : do_calls p cs = Ok p' → length ls = length (labels p) →
  length (label_targets cs n ls) = length (labels p').
Proof.
  revert p n ls. induction cs as [|c cs IH]; intros p n ls H Hl; cbn [do_calls] in H; [by injection H as <- |].
  apply bind_Ok in H as (p1 & H1 & H). pose proof (length_labels_call _ _ _ H1).
  destruct c; cbn [label_targets]; apply (IH p1); try done; rewrite ?length_app, ?length_insert; cbn; lia.
Qed.

Record enc_inv (done : pir) (e : encoder) (cs : list vm_call) : Prop := {
  ei_do : do_calls vm_prog_new cs = Ok (builder e);
  ei_ok : Forall call_ok cs;
  ei_len : length (insn_calls cs) = ridx done (length done);
  ei_at : ∀ k x, done !! k = Some x → real x = true → ∃ c b, insn_calls cs !! ridx done k = Some c ∧
    pir_call b x = Some c ∧ ∀ l, pir_lab x = Some l → lmap e !! l = Some b;
  ei_lmap : ∀ l b, lmap e !! l = Some b → 0 <= b < Z.of_nat (length (labels (builder e)));
  ei_inj : ∀ l1 l2 b, lmap e !! l1 = Some b → lmap e !! l2 = Some b → l1 = l2;
  ei_lab : ∀ c l, c ∈ cs → call_label c = Some l → 0 <= l < Z.of_nat (length (labels (builder e)));
  ei_mark : ∀ k x, done !! k = Some x → is_label x = true → cnt (p_a x) done = 1%nat →
    ∃ b, lmap e !! p_a x = Some b ∧ label_targets cs 0 [] !! Z.to_nat b = Some (ridx done k);
  ei_nchk : check_count (insn_calls cs) = Z.of_nat (length (echeckers e));
  ei_chk : ∀ k x, done !! k = Some x → is_op VM_CHECK_END x = true →
    echeckers e !! Z.to_nat (check_count (take (ridx done k) (insn_calls cs))) = Some (p_fn x);
}.

Lemma enc_inv_new : enc_inv [] (mk_encoder vm_prog_new ∅ []) [].
Proof.
  split; try done; try (intros *; by rewrite ?lookup_empty).
  intros c l Hc. by apply not_elem_of_nil in Hc.
Qed.

Lemma enc_inv_label P e cs l b e1 : enc_inv P e cs → enc_label e l = Ok (b, e1) →
  ∃ cs', enc_inv P e1 cs' ∧ lmap e1 !! l = Some b.
Proof.
  intros Hi H. apply enc_label_spec in H as (Hl & Hc & [-> | (Hn & Hb & Hdo & Hm)]); [by exists cs |].
  exists (cs ++ [CLabel]). split; [| done]. pose proof (length_labels_call _ _ _ Hdo) as Hlen. cbn in Hlen. destruct Hi.
  pose proof (length_label_targets cs _ _ 0 [] ei_do0 eq_refl) as Hlt.
  split; rewrite ?insn_calls_app, ?app_nil_r, ?Hc, ?Hm; try done.
  - by rewrite do_calls_app, ei_do0; cbn [mbind res_bind do_calls]; rewrite Hdo.
  - apply Forall_app. by rewrite Forall_singleton.
  - intros k x Hk Hx. destruct (ei_at0 k x Hk Hx) as (c & b' & ? & ? & Hlab). exists c, b'. split_and!; try done.
    intros l' Hl'. specialize (Hlab l' Hl'). rewrite lookup_insert_ne; [done | congruence].
  - intros l' b' [[<- <-] | [_ Hl']]%lookup_insert_Some; [lia |]. specialize (ei_lmap0 l' b' Hl'). lia.
  - intros l1 l2 b' [[E1 F1] | [? H1]]%lookup_insert_Some [[E2 F2] | [? H2]]%lookup_insert_Some; [congruence | | | by eapply ei_inj0].
    + specialize (ei_lmap0 _ _ H2). lia.
    + specialize (ei_lmap0 _ _ H1). lia.
  - intros c l' [Hcs | ->%list_elem_of_singleton]%elem_of_app Hl'; [| done]. specialize (ei_lab0 c l' Hcs Hl'). lia.
  - intros k x Hk Hx Hcnt. destruct (ei_mark0 k x Hk Hx Hcnt) as (b' & Hb' & Ht). exists b'. split.
    + rewrite lookup_insert_ne; [done | congruence].
    + rewrite label_targets_app. cbn [label_targets]. by apply lookup_app_l_Some.
Qed.

Lemma label_targets_insn c n ls : is_insn c = true → label_targets [c] n ls = ls.
Proof. by destruct c. Qed.

Lemma pir_call_lab b x c : pir_call b x = Some c → call_label c = match pir_lab x with Some _ => if real x then Some b else None | None => None end.
Proof.
  unfold pir_call, pir_lab, real, is_label, is_op. destruct (p_op x) as [[]| |]; try done; try (by intros [= <-]).
  by destruct (p_msg x); [intros [= <-] |].
Qed.

Lemma check_count_call b x c : pir_call b x = Some c → check_count [c] = Z.of_nat (length (check_fn x)).
Proof.
  unfold pir_call, check_fn, is_op. destruct (p_op x) as [[]| |]; try done; try (by intros [= <-]).
  by destruct (p_msg x); [intros [= <-] |].
Qed.

Lemma enc_inv_nop P e cs x : enc_inv P e cs → is_op VM_NOP x = true → enc_inv (P ++ [x]) e cs.
Proof.
  intros [] Hx.
  assert (real x = false) as Hr by (unfold real; by rewrite Hx, orb_true_r).
  assert (is_label x = false) as Hl by (unfold is_op, is_label in *; by destruct (p_op x) as [[]| |]).
  assert (is_op VM_CHECK_END x = false) as Hce by (unfold is_op in *; by destruct (p_op x) as [[]| |]).
  assert (∀ k y, (P ++ [x]) !! k = Some y → real y = true ∨ is_label y = true ∨ is_op VM_CHECK_END y = true → P !! k = Some y ∧ (k <= length P)%nat) as Hold.
  { intros k y [Hk | [Hk Hy]]%lookup_app_Some; [pose proof (lookup_lt_Some _ _ _ Hk); split; [done | lia] |].
    apply list_lookup_singleton_Some in Hy as [_ ->]. rewrite Hr, Hl, Hce. naive_solver. }
  split; try done.
  - rewrite length_app, Nat.add_1_r, (ridx_S _ _ x), Hr, ridx_app; [done | lia |]. by apply list_lookup_middle.
  - intros k y Hk Hy. destruct (Hold k y Hk) as [Hk' ?]; [auto |]. rewrite ridx_app by done. eauto.
  - intros k y Hk Hy Hcnt. destruct (Hold k y Hk) as [Hk' ?]; [auto |]. rewrite ridx_app by done. apply ei_mark0; try done.
    rewrite cnt_app in Hcnt. cbn [cnt] in Hcnt. rewrite Hl in Hcnt. lia.
  - intros k y Hk Hy. destruct (Hold k y Hk) as [Hk' ?]; [auto |]. rewrite ridx_app by done. eauto.
Qed.

Lemma enc_inv_call P e cs x b c e' : enc_inv P e cs → pir_set_ok x = true → pir_call b x = Some c →
  (∀ l, pir_lab x = Some l → lmap e !! l = Some b) → do_call (builder e) c = Ok (builder e') →
  lmap e' = lmap e → echeckers e' = echeckers e ++ check_fn x → enc_inv (P ++ [x]) e' (cs ++ [c]).
Proof.
  intros [] Hset Hc Hlab Hdo Hm Hch. pose proof (length_labels_call _ _ _ Hdo) as Hlen.
  pose proof (call_is_insn _ _ _ Hc) as Hreal. pose proof (pir_call_lab _ _ _ Hc) as Hcl.
  pose proof (length_label_targets cs _ _ 0 [] ei_do0 eq_refl) as Hlt.
  assert ((P ++ [x]) !! length P = Some x) as Hxl by by apply list_lookup_middle.
  assert (insn_calls [c] = if real x then [c] else []) as Hic by (rewrite insn_calls_cons, Hreal; by destruct (real x)).
  assert (∀ k y, (P ++ [x]) !! k = Some y → P !! k = Some y ∧ ridx (P ++ [x]) k = ridx P k ∨ k = length P ∧ y = x) as Hget.
  { intros k y [Hk | [Hk Hy]]%lookup_app_Some.
    - left. split; [done |]. apply ridx_app. apply lookup_lt_Some in Hk. lia.
    - right. apply list_lookup_singleton_Some in Hy as [? ->]. split; [lia | done]. }
  split; rewrite ?insn_calls_app, ?Hic, ?Hm, ?Hch.
  - rewrite do_calls_app, ei_do0. cbn [mbind res_bind do_calls]. by rewrite Hdo.
  - apply Forall_app. split; [done |]. apply Forall_singleton. by eapply pir_call_ok.
  - rewrite !length_app, Nat.add_1_r, (ridx_S _ _ x), ridx_app, ei_len0 by (done || lia). destruct (real x); cbn; lia.
  - intros k y Hk Hy. destruct (Hget k y Hk) as [[Hk' ->] | [-> ->]].
    + destruct (ei_at0 k y Hk' Hy) as (c' & b' & ? & ? & ?). exists c', b'. split_and!; try done. by apply lookup_app_l_Some.
    + exists c, b. rewrite Hy, ridx_app by lia. split_and!; try done. by rewrite list_lookup_middle.
  - intros l b' Hl. specialize (ei_lmap0 l b' Hl). lia.
  - done.
  - intros c' l [Hin | ->%list_elem_of_singleton]%elem_of_app Hl; [specialize (ei_lab0 c' l Hin Hl); lia |].
    rewrite Hcl in Hl. destruct (pir_lab x) as [l'|]; [| done]. destruct (real x); [| done]. injection Hl as <-.
    specialize (ei_lmap0 _ _ (Hlab l' eq_refl)). lia.
  - intros k y Hk Hy Hcnt. rewrite label_targets_app. cbn [Nat.add]. rewrite cnt_app in Hcnt. cbn [cnt] in Hcnt.
    destruct (Hget k y Hk) as [[Hk' ->] | [-> ->]].
    + pose proof (cnt_pos _ _ _ _ Hk' Hy eq_refl) as Hpos.
      destruct (ei_mark0 k y Hk' Hy) as (b' & Hb' & Ht); [lia |]. exists b'. split; [done |].
      destruct (real x) eqn:Er; [by rewrite label_targets_insn |].
      destruct (is_label x) eqn:Elx; [| by unfold pir_call, real in *; rewrite Elx in Er; unfold is_op, is_label in *; destruct (p_op x) as [[]| |]].
      assert (c = CMark b) as -> by (unfold pir_call, is_label in *; destruct (p_op x) as [[]| |]; try done; by injection Hc).
      cbn [label_targets]. destruct (Z.eqb_spec (p_a x) (p_a y)); [lia |].
      assert (lmap e !! p_a x = Some b) as Hbx by (apply Hlab; unfold pir_lab, is_label in *; by destruct (p_op x) as [[]| |]).
      rewrite list_lookup_insert_ne; [done |]. pose proof (ei_lmap0 _ _ Hb'). pose proof (ei_lmap0 _ _ Hbx).
      intros Heq. destruct n. symmetry. eapply ei_inj0; [exact Hb' |]. by replace b' with b by lia.
    + exists b. assert (c = CMark b) as -> by (unfold pir_call, is_label in *; destruct (p_op x) as [[]| |]; try done; by injection Hc).
      assert (lmap e !! p_a x = Some b) as Hbx by (apply Hlab; unfold pir_lab, is_label in *; by destruct (p_op x) as [[]| |]).
      split; [done |]. cbn [label_targets]. specialize (ei_lmap0 _ _ Hbx).
      rewrite list_lookup_insert_eq by lia. by rewrite ridx_app, ei_len0 by lia.
  - rewrite check_count_app, ei_nchk0, length_app. pose proof (check_count_call _ _ _ Hc) as Hcc.
    destruct (real x) eqn:Er; [lia |].
    assert (check_fn x = []) as -> by (unfold check_fn, real, is_label, is_op in *; by destruct (p_op x) as [[]| |]).
    cbn. unfold check_count. cbn. lia.
  - intros k y Hk Hy. destruct (Hget k y Hk) as [[Hk' ->] | [-> ->]].
    + rewrite take_app_le by (rewrite ei_len0; apply ridx_le). apply lookup_app_l_Some. eauto.
    + rewrite ridx_app by lia. rewrite <- ei_len0, take_app_length, ei_nchk0, Nat2Z.id.
      unfold check_fn. rewrite Hy. by apply list_lookup_middle.
Qed.

Lemma enc_inv_enc P e cs x e1 : enc_inv P e cs → enc x e = Ok e1 → pir_set_ok x = true → ∃ cs1, enc_inv (P ++ [x]) e1 cs1.
Proof.
  intros Hi He Hx.
  apply enc_spec in He as [[Hn ->] | (Hn & b & e2 & c & Hl & Hc & Hdo & Hm & Hch)]; [exists cs; by apply enc_inv_nop |].
  assert (∃ cs2, enc_inv P e2 cs2 ∧ ∀ l, pir_lab x = Some l → lmap e2 !! l = Some b) as (cs2 & Hi2 & Hlab).
  { unfold labelled in Hl. destruct (pir_lab x) as [l|]; [| subst; by exists cs].
    destruct (enc_inv_label _ _ _ _ _ _ Hi Hl) as (cs2 & ? & ?). exists cs2. split; [done |]. by intros l' [= <-]. }
  exists (cs2 ++ [c]). by apply (enc_inv_call P e2 cs2 x b).
Qed.

Lemma enc_all P e cs Q e' : enc_inv P e cs → for_each enc Q e = Ok e' → Forall (λ x, pir_set_ok x = true) Q →
  ∃ cs', enc_inv (P ++ Q) e' cs'.
Proof.
  revert P e cs. induction Q as [|x Q IH]; intros P e cs Hi H Hok; cbn [for_each] in H.
  { injection H as <-. exists cs. by rewrite app_nil_r. }
  destruct (enc x e) as [e1| | |] eqn:He; try done. inversion Hok as [| ? ? Hx Hok']; subst.
  replace (P ++ x :: Q) with ((P ++ [x]) ++ Q) by by rewrite <- app_assoc.
  destruct (enc_inv_enc _ _ _ _ _ Hi He Hx) as [cs1 Hi1]. by eapply IH.
Qed.

(** ** The finished program *)

Lemma do_call_size p c p' : do_call p c = Ok p' →
  (length (code p) + (if is_insn c then 2 else 0) <= length (code p'))%nat.
Proof.
  intros Hdo. destruct c; cbn [do_call] in Hdo;
  unfold vm_emit_set, vm_emit_span, vm_emit_test_set, vm_emit_test_set_nochoice, emit_op_set,
    emit_op_set_label, vm_prog_mark, vm_emit_error in Hdo;
  try (apply bind_Ok in Hdo as ([k p1] & Ha%add_set_code & Hdo); rewrite <- Ha);
  try (pose proof (add_error_code p msg) as Ha; destruct (add_error p msg); rewrite <- Ha);
  repeat case_match; try discriminate; injection Hdo as <-; cbn; rewrite ?length_app; cbn; lia.
Qed.

Lemma do_calls_size cs p p' : do_calls p cs = Ok p' →
  (length (code p) + 2 * length (insn_calls cs) <= length (code p'))%nat.
Proof.
  revert p. induction cs as [|c cs IH]; intros p H; cbn [do_calls] in H; [injection H as ->; cbn; lia |].
  apply bind_Ok in H as (p1 & H1%do_call_size & H%IH). rewrite insn_calls_cons. destruct (is_insn c); cbn [length]; lia.
Qed.

Lemma patch_all_length ls fxs l l' : patch_all ls l fxs = Ok l' → length l' = length l.
Proof.
  revert l. induction fxs as [|fx fxs IH]; intros l H; cbn [patch_all] in H; [by injection H as -> |].
  inv_bind. apply IH in H. rewrite H. unfold patch in H0. destruct fx. inv_bind. case_match; [done |]. injection H0 as <-.
  by rewrite !length_insert.
Qed.

Lemma finish_length p c : vm_prog_finish p = Ok c → Z.of_nat (length (insns c)) = Z.of_nat (length (code p)) + 2.
Proof.
  unfold vm_prog_finish. intros H. inv_bind. injection H as <-. cbn [insns]. apply patch_all_length in H0.
  apply length_mapM in H1. rewrite <- H1, H0. cbn. rewrite length_app. cbn. lia.
Qed.

Lemma add_checkers_spec l c : prog (fold_left (λ c fn, (vm_code_add_checker c fn).2) l c) = prog c ∧
  insns (fold_left (λ c fn, (vm_code_add_checker c fn).2) l c) = insns c ∧
  checkers (fold_left (λ c fn, (vm_code_add_checker c fn).2) l c) = checkers c ++ l.
Proof.
  revert c. induction l as [|f l IH]; intros c; cbn [fold_left]; [by rewrite app_nil_r |].
  destruct (IH (vm_code_add_checker c f).2) as (-> & -> & ->). cbn. by rewrite <- app_assoc.
Qed.

(** What the program has at the index of a real entry. *)
Definition encodes (P : pir) (out : vm_code) (k : nat) (x : pir_insn) : Prop :=
  ∃ c t e chk, pir_call 0 x = Some c ∧ prog out !! ridx P k = Some (call_insn t e chk c) ∧
    (∀ l j, pir_lab x = Some l → lab P l = Some j → t = Z.of_nat (ridx P j)) ∧
    (is_op VM_CHECK_END x = true → 0 <= chk < 2 ^ 24 ∧ checkers out !! Z.to_nat chk = Some (p_fn x)).

Lemma pir_call_insn b b' x c t e chk : pir_call b x = Some c →
  ∃ c', pir_call b' x = Some c' ∧ (real x = true → call_insn t e chk c = call_insn t e chk c').
Proof.
  unfold pir_call, real, is_label, is_op. destruct (p_op x) as [[]| |]; try done; try (intros [= <-]; eauto; fail).
  destruct (p_msg x) as [m|]; [| done]. intros [= <-]. by exists (CError m).
Qed.

Lemma pat_encode_spec P out : pat_encode P = Ok out → Forall (λ x, pir_set_ok x = true) P →
  (∀ z, (cnt z P <= 1)%nat) → vm_code_size out < 2 ^ 24 →
  (∀ k x, P !! k = Some x → real x = true → encodes P out k x) ∧
  prog out !! ridx P (length P) = Some (mk_insn VM_END 0 0 None) ∧
  length (prog out) = S (ridx P (length P)) ∧ Z.of_nat (length (prog out)) < 2 ^ 24.
Proof.
  intros H Hok Hcnt Hsz. unfold pat_encode in H.
  apply bind_Ok in H as (e & He & H). apply bind_Ok in H as (c & Hf & H).
  assert (fold_left (λ c fn, (vm_code_add_checker c fn).2) (echeckers e) c = out) as <- by (by injection H). clear H.
  destruct (add_checkers_spec (echeckers e) c) as (Hp & Hin & Hchk). unfold vm_code_size in Hsz. rewrite Hin in Hsz.
  destruct (enc_all [] _ [] P e enc_inv_new He Hok) as (cs & Hi). cbn [app] in Hi.
  pose proof (finish_length _ _ Hf) as Hlen. destruct Hi.
  destruct (finish_decodes cs (builder e)) as (c' & Hf' & Hpl & Hat & Hend); try done; [lia |].
  rewrite Hf in Hf'. injection Hf' as <-. unfold encodes. rewrite Hp, <- ei_len0.
  split_and!; try done.
  - intros k x Hk Hx. destruct (ei_at0 k x Hk Hx) as (cl & b & Hcl & Hpc & Hlab).
    destruct (Hat _ _ Hcl) as (er & Hpr & _).
    set (t := target_of _ cl) in Hpr. set (chk := check_count _) in Hpr.
    destruct (pir_call_insn b 0 x cl t er chk Hpc) as (cl' & Hcl' & Heq).
    exists cl', t, er, chk. rewrite Hpr, Heq by done. split_and!; try done.
    + intros l j Hl Hj. unfold t, target_of. rewrite (pir_call_lab _ _ _ Hpc), Hl, Hx.
      apply lab_sound in Hj as (y & Hy & Hyl & <-). pose proof (cnt_pos _ _ _ _ Hy Hyl eq_refl). specialize (Hcnt (p_a y)).
      destruct (ei_mark0 j y Hy Hyl) as (b' & Hb' & Ht); [lia |]. assert (b' = b) as -> by (specialize (Hlab _ Hl); congruence).
      by rewrite (list_lookup_total_correct _ _ _ Ht).
    + intros Hce. rewrite Hchk. unfold chk. split.
      { pose proof (check_count_bound (take (ridx P k) (insn_calls cs))) as Hb. rewrite length_take in Hb.
        apply do_calls_size in ei_do0. cbn in ei_do0. lia. }
      replace (checkers c) with (@nil (option vm_checker)); [by eapply ei_chk0 |].
      unfold vm_prog_finish in Hf. clear - Hf. inv_bind. by injection Hf as <-.
  - apply do_calls_size in ei_do0. cbn in ei_do0. lia.
Qed.
