(* ===== verification/CompileTotal.v ===== *)
(** * CompileTotal: from a pattern to a program, always

    Once compiled, a list passes the peephole pass and the encoder: they find
    every label, message and operand they look up. *)
From S2P Require Import Prelude Charset Input Code CodeFacts ITree Memo Stack Vm Pattern Compile Sem PatternFacts Inline Wf InlineSound Machine CompileSpec CompileNodes CompileStruct Operands Labels Total CompileOk Optimize Names CompileThms Encode.

Lemma for_each_total {A S} (f : A → S → res S) (Q : S → Prop) (l : list A) s : Q s →
  (∀ x s, x ∈ l → Q s → ∃ s', f x s = Ok s' ∧ Q s') → ∃ s', for_each f l s = Ok s' ∧ Q s'.
Proof.
  revert s. induction l as [|x l IH]; intros s Hs Hf; cbn [for_each]; [by exists s |].
  destruct (Hf x s) as (s1 & -> & H1); [by left | done |]. apply IH; [done |]. intros y s2 Hy. apply Hf. by right.
Qed.

(** ** The peephole pass *)

Lemma label_index_has P z : (1 <= cnt z P)%nat → is_Some (label_index P !! z).
Proof.
  unfold label_index. intros Hz.
  assert (∀ (l : pir) k0 (m : gmap Z nat), is_Some (m !! z) ∨ (1 <= cnt z l)%nat → is_Some
    (fold_left (λ (m : gmap Z nat) '(i, x), if is_label x then <[p_a x := i]> m else m) (imap (λ i x, (k0 + i, x)%nat) l) m !! z)) as H.
  { induction l as [|y l IH]; intros k0 m Hm; [destruct Hm as [? | Hm]; [done | cbn in Hm; lia] |]. cbn [imap fold_left].
    rewrite (imap_ext _ (λ i x, (S k0 + i, x)%nat)) by (intros; cbn; f_equal; lia). apply IH. cbn [cnt] in Hm.
    destruct (is_label y); [| by destruct Hm; [left | right]].
    destruct (Z.eqb_spec (p_a y) z) as [-> |]; [left; rewrite lookup_insert_eq; by eexists |].
    rewrite lookup_insert_ne by done. by destruct Hm; [left | right]. }
  apply (H P 0%nat ∅). by right.
Qed.

Lemma optimize_at_total labidx P i : (i < length P)%nat → refs_in (λ z, is_Some (labidx !! z)) P → returns (optimize_at labidx P i).
Proof.
  intros Hi Hr. unfold optimize_at. destruct (lookup_lt_is_Some_2 _ _ Hi) as [x Hx]. rewrite Hx. cbn.
  destruct (is_op VM_JUMP x) eqn:Hj; [| by eexists].
  apply (Forall_lookup_1 _ _ _ _ Hr) in Hx as [Hl _]. unfold pir_lab in Hl. unfold is_op in Hj.
  apply bool_decide_eq_true in Hj. rewrite Hj in Hl. destruct (Hl _ eq_refl) as [k Hk]. rewrite Hk. by eexists.
Qed.

Lemma pat_optimize_total P : self_contained P → returns (pat_optimize P).
Proof.
  intros Hs. unfold pat_optimize.
  destruct (for_each_total (λ i p, optimize_at (label_index P) p i) (kept P) (seq 0 (length P)) P) as (P' & H & _);
    [done | | by exists P'].
  intros i Q Hi%elem_of_seq HQ. destruct (optimize_at_total (label_index P) Q i) as [Q' HQ'].
  - rewrite (kp_len _ _ HQ). lia.
  - apply (kp_refs _ _ HQ). eapply refs_weaken; [| exact Hs]. apply label_index_has.
  - exists Q'. split; [done |]. etrans; [exact HQ | by eapply optimize_at_kept].
Qed.

(** ** The encoder *)

(** Ends in a value, or in the abort for more than 256 distinct byte sets. *)
Definition fits {A} (r : res A) : Prop := returns r ∨ r = Abort "charset table overflow (max 256)".

Lemma fits_bind {A B} (r : res A) (f : A → res B) : fits r → (∀ x, r = Ok x → fits (f x)) → fits (r ≫= f).
Proof. intros [[x ->] | ->] Hf; [by apply Hf | by right]. Qed.

Lemma fits_ret {A} (x : A) : fits (mret (M := res) x).
Proof. left. by exists x. Qed.

Lemma fits_add_set p s : fits (add_set p s).
Proof. unfold add_set. repeat case_match; [apply fits_ret | by right | apply fits_ret]. Qed.

Lemma enc_label_total e l : 0 <= l → returns (enc_label e l).
Proof.
  intros Hl. unfold enc_label. destruct (Z.ltb_spec l 0); [lia |]. destruct (lmap e !! l); [by eexists |].
  destruct (vm_prog_label (builder e)). by eexists.
Qed.

Lemma enc_fits P e cs x : enc_inv P e cs → refers (λ z, 0 <= z) x → p_op x ≠ PIR_OPENCALL → fits (enc x e).
Proof.
  intros Hi [Hl Hn] Ho. unfold pir_lab in Hl. unfold named in Hn. unfold enc.
  unfold vm_emit_set, vm_emit_span, vm_emit_test_set, vm_emit_test_set_nochoice, emit_op_set, emit_op_set_label.
  destruct (p_op x) as [[]| |]; try done; try apply fits_ret.
  all: try (apply bool_decide_eq_true in Hn as [m ->]; apply fits_ret).
  all: repeat first [apply fits_ret | apply fits_add_set
    | apply fits_bind; [first [left; apply enc_label_total; by apply Hl | idtac] | intros; repeat case_match]].
  rename H into He. destruct (enc_inv_label _ _ _ _ _ _ Hi He) as (cs' & Hi' & Hb).
  pose proof (ei_lmap _ _ _ Hi' _ _ Hb). left.
  unfold vm_prog_mark. rewrite (proj2 (Z.leb_le 0 z)), (proj2 (Z.ltb_lt z _)) by lia. by eexists.
Qed.

Lemma enc_all_fits P e cs Q : enc_inv P e cs → refs_in (λ z, 0 <= z) Q → no_open Q →
  Forall (λ x, pir_set_ok x = true) Q → fits (for_each enc Q e).
Proof.
  revert P e cs. induction Q as [|x Q IH]; intros P e cs Hi Hr Ho Hok; cbn [for_each]; [apply fits_ret |].
  inversion Hr; inversion Ho; inversion Hok; subst. 
  destruct (enc_fits _ _ _ x Hi) as [[e1 He] | ->]; [done.. | | by right]. rewrite He.
  destruct (enc_inv_enc _ _ _ _ _ Hi He) as [cs1 Hi1]; [done |]. by apply (IH _ _ _ Hi1).
Qed.

(** No instruction takes more than six bytes. *)
Lemma do_call_small p c p' : do_call p c = Ok p' → Z.of_nat (length (code p')) <= Z.of_nat (length (code p)) + 6.
Proof.
  intros Hdo. destruct c; cbn [do_call] in Hdo;
  unfold vm_emit_set, vm_emit_span, vm_emit_test_set, vm_emit_test_set_nochoice, emit_op_set,
    emit_op_set_label, vm_prog_mark, vm_emit_error in Hdo;
  try (apply bind_Ok in Hdo as ([k p1] & Ha%add_set_code & Hdo); rewrite <- Ha);
  try (pose proof (add_error_code p msg) as Ha; destruct (add_error p msg); rewrite <- Ha);
  repeat case_match; try discriminate; injection Hdo as <-; cbn; rewrite ?length_app; cbn; lia.
Qed.

Lemma enc_small x e e' : enc x e = Ok e' →
  Z.of_nat (length (code (builder e'))) <= Z.of_nat (length (code (builder e))) + 6.
Proof.
  intros [[_ ->] | (_ & b & e1 & c & Hl & _ & Hdo & _)]%enc_spec; [lia |]. apply do_call_small in Hdo.
  enough (code (builder e1) = code (builder e)) by congruence. unfold labelled in Hl.
  destruct (pir_lab x); [| by subst]. apply enc_label_spec in Hl as (_ & _ & [-> | (_ & _ & Hd & _)]); [done |].
  cbn in Hd. by injection Hd as <-.
Qed.

Lemma enc_all_small Q e e' : for_each enc Q e = Ok e' →
  Z.of_nat (length (code (builder e'))) <= Z.of_nat (length (code (builder e))) + 6 * Z.of_nat (length Q).
Proof.
  revert e. induction Q as [|x Q IH]; intros e H; cbn [for_each] in H; [injection H as <-; cbn; lia |].
  destruct (enc x e) as [e1| | |] eqn:He; try done. apply enc_small in He. apply IH in H. cbn [length]. lia.
Qed.

Lemma pat_encode_fits P : refs_in (λ z, 0 <= z) P → no_open P → Forall (λ x, pir_set_ok x = true) P →
  Z.of_nat (length P) < 2 ^ 21 → fits (pat_encode P).
Proof.
  intros Hr Ho Hok Hlen. unfold pat_encode. apply fits_bind; [by apply (enc_all_fits [] _ [] P enc_inv_new) |].
  intros e He. pose proof (enc_all_small _ _ _ He) as Hsz. cbn [builder vm_prog_new code length] in Hsz.
  destruct (enc_all [] _ [] P e enc_inv_new He Hok) as (cs & Hi).
  destruct (finish_decodes cs (builder e)) as (c & Hf & _); [apply Hi | apply Hi | lia | apply Hi |].
  rewrite Hf. apply fits_ret.
Qed.

(** ** The whole compiler *)

Lemma self_contained_nonneg c code c' : struct c code c' → 0 <= nlabels c → self_contained code → refs_in (λ z, 0 <= z) code.
Proof.
  intros Hs Hc Hr. eapply refs_weaken; [| exact Hr]. cbv beta. intros z Hz. pose proof (st_labs _ _ _ Hs z) as Hl.
  destruct (Z.leb_spec (nlabels c) z); [lia |]. cbn in Hl. lia.
Qed.

Lemma open_name_None code : open_name code = None → Forall (λ x, named x = true) code → no_open code.
Proof.
  unfold open_name. intros H Hn. induction Hn as [|x code Hx _ IH]; [constructor |]. cbn in H.
  unfold named in Hx. destruct (decide (p_op x = PIR_OPENCALL)) as [Ho | Ho].
  - rewrite bool_decide_true in H by done. rewrite Ho in Hx. apply bool_decide_eq_true in Hx as [nm Hx]. by rewrite Hx in H.
  - rewrite bool_decide_false in H by done. constructor; [done | by apply IH].
Qed.

(** Enough fuel for [compile_pat]. *)
Definition compile_fuel (p : pat) : nat := 2 * weight p.

Lemma pat_compile_fits fuel counter p : wfp p = true → (compile_fuel p <= fuel)%nat →
  (∀ code c, compile_pat fuel (mk_pctx None 0 counter) p = Ok (code, c) → Z.of_nat (length code) < 2 ^ 21) →
  fits (pat_compile fuel counter p).
Proof.
  intros Hwf Hf Hlen. unfold pat_compile.
  destruct (compile_pat_total fuel (mk_pctx None 0 counter) p (wfp_wfc _ Hwf) Hf) as [[code c] Hc].
  rewrite Hc. cbn [mbind res_bind]. specialize (Hlen _ _ Hc).
  destruct (err c) as [nm|] eqn:He; [apply fits_ret |]. destruct (open_name code) eqn:Ho; [apply fits_ret |].
  pose proof (compile_refs _ _ _ _ _ Hc He) as Hrefs. pose proof (compile_struct _ _ _ _ _ Hc) as Hst.
  pose proof (compile_operands _ _ _ _ _ Hc (wfp_wfc _ Hwf)) as Hops.
  apply fits_bind; [left; by apply pat_optimize_total |]. intros code' Hopt.
  pose proof (pat_optimize_kept _ _ Hopt) as Hk. apply fits_bind; [| intros out _; apply fits_ret].
  apply pat_encode_fits.
  - apply (kp_refs _ _ Hk). by eapply self_contained_nonneg.
  - apply (kp_open _ _ Hk), open_name_None; [done |]. by eapply Forall_impl; [exact Hrefs | intros x [_ ?]].
  - eapply Forall_impl; [exact (kp_ops _ _ Hk Hops) |]. intros x [? _]%andb_prop. done.
  - by rewrite (kp_len _ _ Hk).
Qed.

(** C7. The compiler returns a program for every well-formed, resolved pattern:
    given fuel for the pattern's depth, [pat_compile] neither aborts on an
    internal check nor looks up a label, message or definition that is not
    there, and reports no missing name -- the only other outcome is the abort
    for more than 256 distinct byte sets.  The premise on the length of the
    instruction list bounds the program below 16 MB. *)
Theorem pat_compile_total fuel counter p :
  wfp p = true → resolved p = true → (compile_fuel p <= fuel)%nat →
  (∀ code c, compile_pat fuel (mk_pctx None 0 counter) p = Ok (code, c) → Z.of_nat (length code) < 2 ^ 21) →
  (∃ out counter', pat_compile fuel counter p = Ok (inr out, counter')) ∨
  pat_compile fuel counter p = Abort "charset table overflow (max 256)".
Proof.
  intros Hwf Hr Hf Hlen. destruct (pat_compile_fits fuel counter p Hwf Hf Hlen) as [[[[nm | out] k] H] | H];
    [exfalso | left; by exists out, k | by right].
  unfold pat_compile in H. apply bind_Ok in H as ([code c] & Hc & H).
  destruct (compile_names _ _ _ _ _ _ Hc (wfp_wfc _ Hwf) Hr eq_refl) as [He Ho]; [done |]. rewrite He in H.
  assert (open_name code = None) as Hn; [| rewrite Hn in H; by inv_bind].
  clear - Ho. unfold open_name. induction Ho as [|x code Hx _ IH]; [done |]. cbn.
  destruct (decide (p_op x = PIR_OPENCALL)) as [E |]; [by destruct (Hx E) as (nm & _ & [=]) |].
  by rewrite bool_decide_false.
Qed.

Lemma pat_compile_total_witness :
  wfp demo_pat = true ∧ resolved demo_pat = true ∧ (compile_fuel demo_pat <= 30)%nat ∧
  ∃ out counter', pat_compile 30 0 demo_pat = Ok (inr out, counter').
Proof.
  split; [vm_compute; reflexivity |]. split; [vm_compute; reflexivity |]. split; [apply Nat.leb_le; vm_compute; reflexivity |].
  destruct (pat_compile_total 30 0 demo_pat) as [H | H].
  - vm_compute. reflexivity.
  - vm_compute. reflexivity.
  - apply Nat.leb_le. vm_compute. reflexivity.
  - intros code c H. assert (match compile_pat 30 (mk_pctx None 0 0) demo_pat with Ok (code, _) => Z.of_nat (length code) <? 2 ^ 21 | _ => false end = true) as Hb
      by (vm_compute; reflexivity).
    rewrite H in Hb. by apply Z.ltb_lt.
  - exact H.
  - exfalso. assert (match pat_compile 30 0 demo_pat with Abort _ => false | _ => true end = true) as Hb by (vm_compute; reflexivity).
    by rewrite H in Hb.
Defined.

(** C9. Generated code is well typed: when [compile_pat] reports no error, every
    set operand is a set and every one-byte operand a byte, every label lies in
    the range handed out, is placed at most once and is placed whenever an
    instruction mentions it, error instructions have a message, and a [Nop]
    stands only behind a jump or another [Nop]; [pat_optimize] accepts the list
    and keeps the operands, the labels and the length. *)
Theorem compile_well_typed fuel c p code c' : wfp p = true → compile_pat fuel c p = Ok (code, c') → err c' = None →
  operands_ok code ∧ labs_in (nlabels c) (nlabels c') code ∧ self_contained code ∧ nop_ok code = true ∧
  ∃ code', pat_optimize code = Ok code' ∧ operands_ok code' ∧ labs_in (nlabels c) (nlabels c') code' ∧
    self_contained code' ∧ length code' = length code.
Proof.
  intros Hwf H He. pose proof (compile_operands _ _ _ _ _ H (wfp_wfc _ Hwf)) as Hops.
  pose proof (compile_refs _ _ _ _ _ H He) as Hrefs. destruct (compile_struct _ _ _ _ _ H) as [_ _ Hlabs Hnop _].
  split_and!; [done.. |]. destruct (pat_optimize_total code Hrefs) as [code' Hopt]. exists code'.
  destruct (pat_optimize_kept _ _ Hopt) as [Ko Kc _ Kl Kr]. split_and!; [done | by apply Ko | | | done].
  - intros z. rewrite Kc. apply Hlabs.
  - unfold self_contained. eapply refs_weaken; [| apply Kr, Hrefs]. intros z. by rewrite Kc.
Qed.

Lemma compile_well_typed_witness : ∃ code c' code', compile_pat 30 (mk_pctx None 0 0) demo_pat = Ok (code, c') ∧
  labs_in 0 (nlabels c') code ∧ pat_optimize code = Ok code' ∧ self_contained code'.
Proof.
  eexists. eexists. edestruct (compile_well_typed 30 (mk_pctx None 0 0) demo_pat) as (_ & Hl & _ & _ & code' & Hopt & _ & _ & Hs & _);
    [vm_compute; reflexivity | vm_compute; reflexivity | reflexivity |].
  exists code'. split; [vm_compute; reflexivity |]. split; [exact Hl | split; [exact Hopt | exact Hs]].
Defined.
