(* ===== verification/CaptureHeap.v ===== *)
(** * CaptureHeap: reference counts of a capture graph

    [counted h rs]: the captures [h] are exactly those that the references [rs]
    keep alive, and every count is the number of references there are -- from
    [rs], a stack's or result's lists and memo entries, and from other captures'
    child lists.  Children are older than their parents, so there are no cycles.
    Taking and releasing references keep this, and releasing one frees exactly
    what nothing else refers to. *)
From S2P Require Import Prelude ITree Memo Stack.

Notation heap := (gmap positive memo_capture).

(** ** Occurrences *)

Definition occ (a : positive) (l : list positive) : Z := Z.of_nat (length (filter (λ b, b = a) l)).

Lemma occ_nil a : occ a [] = 0.
Proof. done. Qed.

Lemma occ_cons a b l : occ a (b :: l) = (if decide (b = a) then 1 else 0) + occ a l.
Proof. unfold occ. rewrite filter_cons. destruct (decide (b = a)); cbn [length]; lia. Qed.

Lemma occ_app a l k : occ a (l ++ k) = occ a l + occ a k.
Proof. unfold occ. rewrite filter_app, length_app. lia. Qed.

#[export] Instance occ_proper a : Proper ((≡ₚ) ==> (=)) (occ a).
Proof. intros l k H. unfold occ. by rewrite H. Qed.

Lemma occ_nonneg a l : 0 <= occ a l.
Proof. unfold occ. lia. Qed.

Lemma occ_elem a l : a ∈ l ↔ 0 < occ a l.
Proof.
  unfold occ. split.
  - intros Ha. assert (a ∈ filter (λ b, b = a) l) as H by (by apply list_elem_of_filter).
    destruct (filter _ l); [by apply not_elem_of_nil in H | cbn; lia].
  - intros H. destruct (filter (λ b, b = a) l) as [|b k] eqn:E; [cbn in H; lia |].
    assert (b ∈ filter (λ b, b = a) l) as Hb by (rewrite E; left). apply list_elem_of_filter in Hb as [-> Hb]. done.
Qed.

Lemma occ_none a l : a ∉ l → occ a l = 0.
Proof. rewrite occ_elem. pose proof (occ_nonneg a l). lia. Qed.

(** ** References between captures *)

Definition held (h : heap) : list positive := concat ((λ ac, c_children ac.2) <$> map_to_list h).

Lemma held_empty : held ∅ = [].
Proof. unfold held. by rewrite map_to_list_empty. Qed.

Lemma held_insert h a c : h !! a = None → held (<[a := c]> h) ≡ₚ c_children c ++ held h.
Proof. intros Ha. unfold held. by rewrite map_to_list_insert. Qed.

Lemma elem_of_held h b : b ∈ held h ↔ ∃ a c, h !! a = Some c ∧ b ∈ c_children c.
Proof.
  unfold held. rewrite list_elem_of_In, in_concat. split.
  - intros (l & Hl%list_elem_of_In & Hb%list_elem_of_In). apply list_elem_of_fmap in Hl as ([a c] & -> & Hc%elem_of_map_to_list).
    by exists a, c.
  - intros (a & c & Hc & Hb). exists (c_children c). split; [| by apply list_elem_of_In].
    apply list_elem_of_In, list_elem_of_fmap. exists (a, c). split; [done | by apply elem_of_map_to_list].
Qed.

Lemma held_delete h a c : h !! a = Some c → held h ≡ₚ c_children c ++ held (delete a h).
Proof. intros Ha. rewrite <- (insert_delete_id h a c) at 1 by done. by rewrite held_insert by apply lookup_delete_eq. Qed.

Lemma held_update h a c c' : h !! a = Some c → held (<[a := c']> h) ≡ₚ c_children c' ++ held (delete a h).
Proof. intros Ha. rewrite <- insert_delete_eq. by rewrite held_insert by apply lookup_delete_eq. Qed.

Record counted (h : heap) (rs : list positive) : Prop := {
  ct_refs : ∀ a c, h !! a = Some c → c_refs c = occ a (rs ++ held h) ∧ 0 < c_refs c < 2 ^ 32;
  ct_closed : ∀ a, a ∈ rs ++ held h → is_Some (h !! a);
  ct_order : ∀ a c b, h !! a = Some c → b ∈ c_children c → (b < a)%positive;
}.

#[export] Instance counted_proper h : Proper ((≡ₚ) ==> iff) (counted h).
Proof.
  intros rs rs' Hp. split; intros [H1 H2 H3]; split; try done.
  - intros a c Hc. rewrite <- Hp. by apply H1.
  - intros a. rewrite <- Hp. apply H2.
  - intros a c Hc. rewrite Hp. by apply H1.
  - intros a. rewrite Hp. apply H2.
Qed.

Lemma counted_root h rs a : counted h rs → a ∈ rs → ∃ c, h !! a = Some c ∧ 0 < c_refs c < 2 ^ 32.
Proof.
  intros [H1 H2 _] Ha. destruct (H2 a) as [c Hc]; [by apply elem_of_app; left |]. exists c. split; [done |]. by apply (H1 a c).
Qed.

(** With nothing to keep them alive there are no captures. *)
Lemma counted_nil h : counted h [] → h = ∅.
Proof.
  intros [H1 _ H3]. destruct (decide (h = ∅)) as [| Hne]; [done |]. exfalso.
  assert (∀ n : nat, ∃ a, is_Some (h !! a) ∧ (n < Pos.to_nat a)%nat) as Hbig.
  { induction n as [|n (a & [c Hc] & Hn)].
    - apply map_choose in Hne as (a & c & Hc). exists a. split; [by exists c | lia].
    - destruct (H1 a c Hc) as [Hr Hpos]. rewrite app_nil_l in Hr. rewrite Hr in Hpos.
      assert (a ∈ held h) as (b & c' & Hb & Hin)%elem_of_held by (apply occ_elem; lia).
      exists b. split; [by exists c' |]. pose proof (H3 _ _ _ Hb Hin). lia. }
  destruct (Hbig (max_list (Pos.to_nat <$> elements (dom h)))) as (a & Ha & Hn).
  assert (Pos.to_nat a ∈ Pos.to_nat <$> elements (dom h)) as Hin.
  { apply list_elem_of_fmap. exists a. split; [done |]. by apply elem_of_elements, elem_of_dom. }
  apply max_list_elem_of_le in Hin. lia.
Qed.

(** ** Taking and dropping references *)

Lemma with_caps_eta m : with_caps m (caps m) = m.
Proof. by destruct m. Qed.

Lemma for_each_app {A S} (f : A → S → res S) l1 l2 s s1 : for_each f l1 s = Ok s1 → for_each f (l1 ++ l2) s = for_each f l2 s1.
Proof.
  revert s. induction l1 as [|x l1 IH]; intros s H; cbn [for_each app] in *; [by injection H as -> |].
  destruct (f x s); try done. by apply IH.
Qed.

Lemma u32_small z : 0 <= z < 2 ^ 32 → u32 z = z.
Proof. intros. unfold u32. by apply Z.mod_small. Qed.

Lemma with_refs_same c : with_refs c (c_refs c) = c.
Proof. by destruct c. Qed.

(** [l] more references. *)
Definition bump (h : heap) (l : list positive) : heap := map_imap (λ a c, Some (with_refs c (c_refs c + occ a l))) h.

Lemma lookup_bump h l a : bump h l !! a = (λ c, with_refs c (c_refs c + occ a l)) <$> h !! a.
Proof. unfold bump. rewrite map_lookup_imap. by destruct (h !! a). Qed.

Lemma bump_nil h : bump h [] = h.
Proof.
  apply map_eq. intros a. rewrite lookup_bump, occ_nil. destruct (h !! a) as [c|]; [| done]. cbn.
  by rewrite Z.add_0_r, with_refs_same.
Qed.

Lemma bump_perm h l l' : l ≡ₚ l' → bump h l = bump h l'.
Proof. intros Hl. apply map_eq. intros a. rewrite !lookup_bump. by rewrite (occ_proper a l l' Hl). Qed.

Lemma bump_cons h a l c : h !! a = Some c → <[a := with_refs c (c_refs c + occ a l + 1)]> (bump h l) = bump h (a :: l).
Proof.
  intros Hc. apply map_eq. intros b. rewrite lookup_bump, occ_cons. destruct (decide (a = b)) as [<- | Hne].
  - rewrite lookup_insert_eq, Hc. cbn. do 2 f_equal. lia.
  - by rewrite lookup_insert_ne, lookup_bump by done.
Qed.

Lemma bump_app h l k : bump (bump h l) k = bump h (k ++ l).
Proof.
  apply map_eq. intros a. rewrite !lookup_bump, occ_app. destruct (h !! a) as [c|]; [| done]. cbn. unfold with_refs. cbn.
  do 2 f_equal. lia.
Qed.

Lemma held_bump h l : held (bump h l) ≡ₚ held h.
Proof.
  unfold bump. induction h as [|a c h Ha IH] using map_ind; [by rewrite map_imap_empty |].
  rewrite map_imap_insert. cbn. rewrite !held_insert; [by rewrite IH | done |]. by rewrite map_lookup_imap, Ha.
Qed.

(** Room for [l] more references, to captures that have one. *)
Definition room (h : heap) (l : list positive) : Prop :=
  ∀ a, a ∈ l → ∃ c, h !! a = Some c ∧ 0 < c_refs c ∧ c_refs c + occ a l < 2 ^ 32.

Lemma room_perm h l l' : l ≡ₚ l' → room h l → room h l'.
Proof. intros Hl H a Ha. rewrite <- Hl in Ha. destruct (H a Ha) as (c & ? & ? & ?). exists c. by rewrite <- Hl. Qed.

Lemma room_app_l h l k : room h (l ++ k) → room h l.
Proof.
  intros H a Ha. destruct (H a) as (c & ? & ? & Hr); [by apply elem_of_app; left |]. exists c.
  rewrite occ_app in Hr. pose proof (occ_nonneg a k). split_and!; done || lia.
Qed.

Lemma room_bump h l k : room h (l ++ k) → room (bump h l) k.
Proof.
  intros H a Ha. destruct (H a) as (c & Hc & Hp & Hr); [by apply elem_of_app; right |]. rewrite occ_app in Hr.
  eexists. rewrite lookup_bump, Hc. split; [done |]. cbn. pose proof (occ_nonneg a l). lia.
Qed.

Lemma counted_bump h rs l : counted h rs → room h l → counted (bump h l) (l ++ rs).
Proof.
  intros [H1 H2 H3] Hr. split.
  - intros a c' (c & Hc & ->)%(eq_trans (eq_sym (lookup_bump _ _ _)))%fmap_Some. cbn [c_refs with_refs].
    rewrite <- app_assoc, occ_app, occ_app, held_bump. destruct (H1 a c Hc) as [Hn Hp]. rewrite occ_app in Hn.
    split; [lia |]. destruct (decide (a ∈ l)) as [Ha | Ha].
    + destruct (Hr a Ha) as (c2 & Hc2 & _ & Hb). simplify_eq. pose proof (occ_nonneg a l). lia.
    + rewrite (occ_none _ _ Ha). lia.
  - intros a. rewrite <- app_assoc, held_bump, lookup_bump, fmap_is_Some. intros [Ha | Ha]%elem_of_app; [| by apply H2].
    destruct (Hr a Ha) as (c & -> & _). done.
  - intros a c' b (c & Hc & ->)%(eq_trans (eq_sym (lookup_bump _ _ _)))%fmap_Some. by apply (H3 a c).
Qed.

Lemma ref_bumped h l1 l2 m : room h (l1 ++ l2) → caps m = bump h l1 →
  for_each memo_capture_ref l2 m = Ok (with_caps m (bump h (l2 ++ l1))).
Proof.
  revert l1 m. induction l2 as [|a l2 IH]; intros l1 m Hs Hm; [by cbn; rewrite <- Hm, with_caps_eta |]. cbn [for_each].
  apply (room_perm _ _ (a :: l1 ++ l2)) in Hs; [| by rewrite Permutation_middle].
  destruct (Hs a) as (c & Hc & Hr & Hb); [by left |]. unfold memo_capture_ref, get_cap.
  rewrite occ_cons, decide_True, occ_app in Hb by done. pose proof (occ_nonneg a l1). pose proof (occ_nonneg a l2).
  rewrite Hm, lookup_bump, Hc. cbn [fmap option_fmap option_map must mbind res_bind mret res_ret c_refs with_refs].
  rewrite u32_small by lia. rewrite (IH (a :: l1)).
  - unfold set_cap, with_caps. cbn. do 2 f_equal. apply bump_perm. by rewrite <- Permutation_middle.
  - done.
  - unfold set_cap. cbn. rewrite Hm. change (with_refs (with_refs c _) ?r) with (with_refs c r). by rewrite bump_cons.
Qed.

Lemma ref_all l m : room (caps m) l → for_each memo_capture_ref l m = Ok (with_caps m (bump (caps m) l)).
Proof. intros Hs. rewrite (ref_bumped (caps m) []); [by rewrite app_nil_r | done | by rewrite bump_nil]. Qed.

Lemma unref_one h a l m : room h (a :: l) → caps m = bump h (a :: l) →
  memo_capture_free a m = Ok (with_caps m (bump h l)).
Proof.
  intros Hs Hm. destruct (Hs a) as (c & Hc & Hr & Hb); [by left |]. unfold memo_capture_free, depth. cbn [memo_capture_free_fuel].
  rewrite occ_cons, decide_True in Hb by done. pose proof (occ_nonneg a l).
  unfold get_cap. rewrite Hm at 1. rewrite lookup_bump, Hc, occ_cons, decide_True by done. cbn [fmap option_fmap option_map].
  cbn [must mbind res_bind mret res_ret c_refs with_refs]. rewrite u32_small by lia.
  destruct (Z.eqb_spec (c_refs c + (1 + occ a l) - 1) 0); [lia |]. cbn [negb].
  unfold set_cap. rewrite Hm. do 2 f_equal. apply map_eq. intros b. destruct (decide (b = a)) as [-> | Hne].
  - rewrite lookup_insert_eq, lookup_bump, Hc. cbn. unfold with_refs. cbn. do 2 f_equal. lia.
  - by rewrite lookup_insert_ne, !lookup_bump, occ_cons, decide_False by done.
Qed.

(** Dropping the additional references. *)
Lemma unref_all h l m : room h l → caps m = bump h l → for_each memo_capture_free l m = Ok (with_caps m h).
Proof.
  revert m. induction l as [|a l IH]; intros m Hs Hm; [by rewrite bump_nil in Hm; cbn; rewrite <- Hm, with_caps_eta |].
  cbn [for_each]. rewrite (unref_one h a l) by done. rewrite IH.
  - by destruct m.
  - apply (room_app_l _ _ [a]). eapply room_perm; [| exact Hs]. by rewrite (Permutation_app_comm l).
  - done.
Qed.

(** ** Releasing references *)

(** What is left of [h]: some captures, with no more references than before. *)
Definition shrinks (h h' : heap) : Prop := ∀ a c', h' !! a = Some c' →
  ∃ c, h !! a = Some c ∧ c' = with_refs c (c_refs c') ∧ c_refs c' <= c_refs c.

#[export] Instance shrinks_preorder : PreOrder shrinks.
Proof.
  split.
  - intros h a c Hc. exists c. by rewrite with_refs_same.
  - intros h1 h2 h3 H12 H23 a c3 H3. destruct (H23 a c3 H3) as (c2 & H2 & E3 & L3). destruct (H12 a c2 H2) as (c1 & H1 & E2 & L2).
    exists c1. split_and!; [done | rewrite E3, E2; done | lia].
Qed.

Lemma shrinks_None h h' a : shrinks h h' → h !! a = None → h' !! a = None.
Proof. intros Hs Ha. destruct (h' !! a) as [c|] eqn:E; [| done]. apply Hs in E as (c' & Hc & _). congruence. Qed.

Lemma shrinks_disjoint h h' hf : shrinks h h' → h ##ₘ hf → h' ##ₘ hf.
Proof.
  intros Hs Hd. apply map_disjoint_spec. intros a c c' H1 H2. apply Hs in H1 as (c1 & H1 & _). by eapply map_disjoint_spec.
Qed.

(** The captures up to an address: what releasing it can reach. *)
Definition nbelow (h : heap) (a : positive) : nat := size (filter (λ b, (b <= a)%positive) (dom h)).

Lemma nbelow_shrinks h h' a : shrinks h h' → (nbelow h' a <= nbelow h a)%nat.
Proof.
  intros Hs. apply subseteq_size. intros b. rewrite !elem_of_filter, !elem_of_dom. intros [Hb [c' Hc']]. split; [done |].
  apply Hs in Hc' as (c & Hc & _). by exists c.
Qed.

Lemma nbelow_delete h a b c : h !! a = Some c → (b < a)%positive → (nbelow (delete a h) b < nbelow h a)%nat.
Proof.
  intros Ha Hb. apply subset_size. split.
  - intros x. rewrite !elem_of_filter, dom_delete. intros [Hx Hin]. split; [lia | set_solver].
  - intros Hsub. assert (a ∈ filter (λ x, (x <= b)%positive) (dom (delete a h))) as Hin.
    { apply Hsub, elem_of_filter. split; [lia | by apply elem_of_dom]. }
    apply elem_of_filter in Hin as [Hin _]. lia.
Qed.

Lemma nbelow_pos h a c : h !! a = Some c → (0 < nbelow h a)%nat.
Proof.
  intros Ha. apply Nat.neq_0_lt_0. intros Hz. unfold nbelow in Hz. apply size_empty_inv in Hz. assert (a ∈ filter (λ b, (b <= a)%positive) (dom h)) as Hin; [| set_solver].
  apply elem_of_filter. split; [lia | by apply elem_of_dom].
Qed.

Lemma nbelow_size h a : (nbelow h a <= size h)%nat.
Proof. unfold nbelow. rewrite <- size_dom. apply subseteq_size. set_solver. Qed.

(** One reference less, not the last. *)
Lemma counted_dec h rs a c : counted h (a :: rs) → h !! a = Some c → c_refs c ≠ 1 →
  counted (<[a := with_refs c (c_refs c - 1)]> h) rs.
Proof.
  intros [H1 H2 H3] Ha Hr. assert (held (<[a := with_refs c (c_refs c - 1)]> h) ≡ₚ held h) as Hh.
  { rewrite (held_update h a c) by done. by rewrite (held_delete h a c). }
  split.
  - intros b cb. rewrite Hh. intros [[<- <-] | [Hne Hb]]%lookup_insert_Some.
    + destruct (H1 a c Ha) as [Hn Hp]. cbn [app] in Hn. rewrite occ_cons, decide_True in Hn by done. cbn [c_refs with_refs]. lia.
    + destruct (H1 b cb Hb) as [Hn Hp]. cbn [app] in Hn. rewrite occ_cons, decide_False in Hn by done. split; [lia | done].
  - intros b. rewrite Hh. intros Hb. destruct (decide (a = b)) as [<- | Hne]; [by rewrite lookup_insert_eq |].
    rewrite lookup_insert_ne by done. apply H2. by right.
  - intros b cb x [[<- <-] | [Hne Hb]]%lookup_insert_Some; [by apply (H3 a c) | by apply (H3 b cb)].
Qed.

(** The last reference: the capture goes, its children's references are loose. *)
Lemma counted_last h rs a c : counted h (a :: rs) → h !! a = Some c → c_refs c = 1 →
  counted (delete a h) (c_children c ++ rs).
Proof.
  intros [H1 H2 H3] Ha Hr. pose proof (held_delete h a c Ha) as Hh.
  assert (a ∉ rs ++ held h) as Hno.
  { destruct (H1 a c Ha) as [Hn _]. cbn [app] in Hn. rewrite occ_cons, decide_True in Hn by done. rewrite occ_elem. lia. }
  assert ((c_children c ++ rs) ++ held (delete a h) ≡ₚ rs ++ held h) as Hp by (rewrite Hh; solve_Permutation).
  split.
  - intros b cb [Hne Hb]%lookup_delete_Some. rewrite Hp. destruct (H1 b cb Hb) as [Hn Hpos]. cbn [app] in Hn.
    rewrite occ_cons, decide_False in Hn by done. split; [lia | done].
  - intros b. rewrite Hp. intros Hb. rewrite lookup_delete_ne by (by intros <-). apply H2. by right.
  - intros b cb x [Hne Hb]%lookup_delete_Some. by apply (H3 b cb).
Qed.

Definition frees (fuel : nat) : Prop := ∀ a m h hf rs, caps m = h ∪ hf → h ##ₘ hf → counted h (a :: rs) →
  (nbelow h a <= fuel)%nat →
  ∃ h', memo_capture_free_fuel fuel a m = Ok (with_caps m (h' ∪ hf)) ∧ counted h' rs ∧ shrinks h h'.

Lemma frees_list fuel l : frees fuel → ∀ m h hf rs, caps m = h ∪ hf → h ##ₘ hf → counted h (l ++ rs) →
  (∀ b, b ∈ l → nbelow h b <= fuel)%nat →
  ∃ h', for_each (memo_capture_free_fuel fuel) l m = Ok (with_caps m (h' ∪ hf)) ∧ counted h' rs ∧ shrinks h h'.
Proof.
  intros Hf. induction l as [|a l IH]; intros m h hf rs Hm Hd Hc Hb.
  { exists h. split_and!; [by cbn; rewrite <- Hm, with_caps_eta | done | done]. }
  destruct (Hf a m h hf (l ++ rs)) as (h1 & E1 & Hc1 & Hs1); [done.. | by apply Hb; left |].
  cbn [for_each]. rewrite E1.
  destruct (IH (with_caps m (h1 ∪ hf)) h1 hf rs) as (h2 & E2 & Hc2 & Hs2); [done | by eapply shrinks_disjoint | done | |].
  { intros b Hin. etrans; [by apply nbelow_shrinks | by apply Hb; right]. }
  exists h2. rewrite E2. split_and!; [by destruct m | done | by etrans].
Qed.

Lemma frees_fuel fuel : frees fuel.
Proof.
  induction fuel as [|fuel IH]; intros a m h hf rs Hm Hd Hc Hn;
    (destruct (counted_root h _ a Hc) as (c & Ha & Hr); [by left |]); [pose proof (nbelow_pos _ _ _ Ha); lia |].
  assert (hf !! a = None) as Hfa by by eapply map_disjoint_Some_l.
  cbn [memo_capture_free_fuel]. unfold get_cap. rewrite Hm. erewrite lookup_union_Some_l by exact Ha. cbn [must mbind res_bind].
  rewrite u32_small by lia. destruct (Z.eqb_spec (c_refs c - 1) 0) as [E | E]; cbn [negb].
  - assert (c_refs c = 1) as Hr1 by lia. set (c0 := with_refs c (c_refs c - 1)).
    pose proof (counted_last h rs a c Hc Ha Hr1) as Hc'.
    destruct (frees_list fuel (c_children c) IH (set_cap m a c0) (delete a h) (<[a := c0]> hf) rs) as (h' & E' & Hc2 & Hs).
    + unfold set_cap. cbn. rewrite Hm, insert_union_l. rewrite <- (insert_delete_eq h), <- insert_union_l, insert_union_r; [done |].
      apply lookup_delete_eq.
    + apply map_disjoint_insert_r_2; [apply lookup_delete_eq | by apply map_disjoint_delete_l].
    + done.
    + intros b Hb. pose proof (nbelow_delete h a b c Ha (ct_order _ _ Hc a c b Ha Hb)). lia.
    + exists h'. rewrite E'. cbn. split_and!; [| done |].
      * rewrite delete_union, delete_insert_id by done. do 2 f_equal. rewrite delete_id; [by destruct m |].
        apply (shrinks_None (delete a h)); [done | apply lookup_delete_eq].
      * intros b cb Hb. destruct (Hs b cb Hb) as (c1 & [_ Hc1]%lookup_delete_Some & H1). by exists c1.
  - exists (<[a := with_refs c (c_refs c - 1)]> h). split_and!.
    + unfold set_cap. cbn. by rewrite Hm, insert_union_l.
    + apply counted_dec; [done.. | lia].
    + intros b cb [[<- <-] | [Hne Hb]]%lookup_insert_Some; [exists c; split_and!; done || (cbn; lia) |].
      exists cb. by rewrite with_refs_same.
Qed.

Lemma free_refs l m h hf rs : caps m = h ∪ hf → h ##ₘ hf → counted h (l ++ rs) →
  ∃ h', for_each memo_capture_free l m = Ok (with_caps m (h' ∪ hf)) ∧ counted h' rs ∧ shrinks h h'.
Proof.
  revert m h. induction l as [|a l IH]; intros m h Hm Hd Hc.
  { exists h. split_and!; [by cbn; rewrite <- Hm, with_caps_eta | done | done]. }
  destruct (frees_fuel (depth m) a m h hf (l ++ rs)) as (h1 & E1 & Hc1 & Hs1); [done.. | |].
  { unfold depth. rewrite Hm, map_size_disj_union by done. pose proof (nbelow_size h a). lia. }
  cbn [for_each]. unfold memo_capture_free at 1. rewrite E1.
  destruct (IH (with_caps m (h1 ∪ hf)) h1) as (h2 & E2 & Hc2 & Hs2); [done | by eapply shrinks_disjoint | done |].
  exists h2. rewrite E2. split_and!; [by destruct m | done | by etrans].
Qed.

(** ** New captures *)

Definition leaf (id : Z) (ty : cap_type) (off len : Z) : memo_capture := mk_capture id ty off len None 1 [].

(** A new capture takes over references of its children. *)
Lemma counted_adopt h rs d id ty off len l : (∀ a, is_Some (h !! a) → (a < d)%positive) → counted h (l ++ rs) →
  counted (<[d := mk_capture id ty off len None 1 l]> h) (d :: rs).
Proof.
  intros Hd [H1 H2 H3]. assert (h !! d = None) as Hn.
  { destruct (h !! d) eqn:E; [| done]. specialize (Hd d ltac:(by eexists)). lia. }
  assert ((d :: rs) ++ held (<[d := mk_capture id ty off len None 1 l]> h) ≡ₚ d :: (l ++ rs) ++ held h) as Hp.
  { rewrite held_insert by done. cbn [c_children]. solve_Permutation. }
  assert (d ∉ (l ++ rs) ++ held h) as Hno by (intros [c Hc]%H2; congruence).
  split.
  - intros a c. rewrite Hp. intros [[<- <-] | [Hne Ha]]%lookup_insert_Some.
    + rewrite occ_cons, decide_True, (occ_none _ _ Hno) by done. cbn. lia.
    + rewrite occ_cons, decide_False by done. by apply H1.
  - intros a. rewrite Hp. intros [-> | Ha]%elem_of_cons; [by rewrite lookup_insert_eq |].
    destruct (decide (d = a)) as [<- | Hne]; [done |]. rewrite lookup_insert_ne by done. by apply H2.
  - intros a c b [[<- <-] | [Hne Ha]]%lookup_insert_Some Hb; [| by apply (H3 a c)].
    apply Hd, H2. cbn in Hb. set_solver.
Qed.

Lemma added h d id ty off len kids l1 l2 m : h !! d = None → room h (l1 ++ l2) →
  caps m = <[d := mk_capture id ty off len None 1 kids]> (bump h l1) →
  for_each (memo_capture_add d) l2 m = Ok (with_caps m (<[d := mk_capture id ty off len None 1 (kids ++ l2)]> (bump h (l2 ++ l1)))).
Proof.
  intros Hd. revert kids l1 m. induction l2 as [|a l2 IH]; intros kids l1 m Hs Hm.
  { cbn. by rewrite app_nil_r, <- Hm, with_caps_eta. }
  apply (room_perm _ _ (a :: l1 ++ l2)) in Hs; [| by rewrite Permutation_middle].
  destruct (Hs a) as (c & Hc & Hr & Hb); [by left |].
  rewrite occ_cons, decide_True, occ_app in Hb by done. pose proof (occ_nonneg a l1). pose proof (occ_nonneg a l2).
  assert (d ≠ a) as Hda by (intros ->; congruence).
  cbn [for_each]. unfold memo_capture_add, memo_capture_ref, get_cap. rewrite Hm, lookup_insert_eq.
  cbn [must mbind res_bind]. unfold set_cap. cbn [caps with_caps]. rewrite lookup_insert_ne, Hm, lookup_insert_ne, lookup_bump, Hc by done.
  cbn [fmap option_fmap option_map must mbind res_bind mret res_ret c_refs with_refs c_id c_type c_off c_length c_ment c_children].
  rewrite u32_small by lia. rewrite (IH (kids ++ [a]) (a :: l1)).
  - unfold with_caps. cbn. rewrite <- (assoc_L (++)). do 3 f_equal. apply bump_perm. by rewrite <- Permutation_middle.
  - done.
  - cbn. rewrite insert_insert_eq, insert_insert_ne by done. f_equal.
    change (with_refs (with_refs c _) ?r) with (with_refs c r). by rewrite bump_cons.
Qed.

(** The children of a new capture, added one by one. *)
Lemma add_all m id ty off len l : caps m !! next_cap m = None → room (caps m) l →
  for_each (memo_capture_add (next_cap m)) l (new_cap m (leaf id ty off len)).2 =
    Ok (with_caps (new_cap m (leaf id ty off len)).2 (<[next_cap m := mk_capture id ty off len None 1 l]> (bump (caps m) l))).
Proof.
  intros Hn Hr. rewrite (added (caps m) _ id ty off len [] [] l); [by rewrite app_nil_r | done | done |]. by rewrite bump_nil.
Qed.

(** C21. Releasing the last reference to a capture frees exactly what nothing else
    refers to: when a capture graph [h] is kept alive by one reference to [a] and
    its counts are the references there are, [memo_capture_free] terminates,
    releases every capture of [h] -- shared children once -- and none of the
    captures [hf] of others, and reads no freed capture. *)
Theorem capture_free_exact (m : mem) h hf a : counted h [a] → caps m = h ∪ hf → h ##ₘ hf →
  memo_capture_free a m = Ok (with_caps m hf).
Proof.
  intros Hc Hm Hd. destruct (free_refs [a] m h hf [] Hm Hd Hc) as (h' & Hf & Hc' & _). apply counted_nil in Hc' as ->.
  rewrite (left_id_L ∅ (∪)) in Hf. cbn [for_each] in Hf. by destruct (memo_capture_free a m).
Qed.

(** A capture that refers to another twice, itself and through a third. *)
Definition shared_heap : heap := list_to_map [(1%positive, mk_capture 6 CAP_NODE 1 2 None 2 []);
  (2%positive, mk_capture 0 CAP_DUMMY 0 4 None 1 [1]%positive); (5%positive, mk_capture 5 CAP_NODE 0 9 None 1 [1; 2]%positive)].

Definition counted_check (h : heap) (rs : list positive) : bool :=
  let all := rs ++ held h in
  forallb (λ '(a, c), (c_refs c =? occ a all) && (0 <? c_refs c) && (c_refs c <? 2 ^ 32) && forallb (λ b, Pos.ltb b a) (c_children c))
    (map_to_list h) && forallb (λ a, bool_decide (is_Some (h !! a))) all.

Lemma counted_check_ok h rs : counted_check h rs = true → counted h rs.
Proof.
  unfold counted_check. rewrite andb_true_iff, !forallb_forall. intros [H1 H2].
  assert (∀ a c, h !! a = Some c → (c_refs c =? occ a (rs ++ held h)) && (0 <? c_refs c) && (c_refs c <? 2 ^ 32) &&
    forallb (λ b, Pos.ltb b a) (c_children c) = true) as H.
  { intros a c Hc. apply (H1 (a, c)), list_elem_of_In, elem_of_map_to_list, Hc. }
  split.
  - intros a c Hc. specialize (H a c Hc). zify_bool. lia.
  - intros a Ha%list_elem_of_In%H2. by apply bool_decide_eq_true in Ha.
  - intros a c b Hc Hb. specialize (H a c Hc). zify_bool. rewrite forallb_forall in *.
    match goal with H : ∀ x, In x (c_children c) → _ |- _ => by apply Pos.ltb_lt, H, list_elem_of_In end.
Qed.

Lemma capture_free_exact_witness :
  let c := mk_capture 8 CAP_NODE 2 2 None 3 [] in
  let m := mk_mem (shared_heap ∪ {[9%positive := c]}) ∅ itree_new 10 1 in
  counted shared_heap [5%positive] ∧ memo_capture_free 5%positive m = Ok (with_caps m {[9%positive := c]}).
Proof.
  assert (counted shared_heap [5%positive]) as H by (apply counted_check_ok; vm_compute; reflexivity).
  split; [exact H |]. apply (capture_free_exact _ shared_heap); [exact H | reflexivity |].
  apply map_disjoint_singleton_r. by vm_compute.
Defined.
