(* ===== verification/CaptureTree.v ===== *)
(** * CaptureTree: what a capture graph is to its reader

    A [ctree] is a capture unfolded with everything below it, offsets made
    absolute; [rep E h t]: it is what the heap [h] holds at its address, where [E]
    gives the positions of the memo entries that own captures.  [trees T]: the
    capture trees of a list of captures, dummies standing for their children. *)
From S2P Require Import Prelude Charset Input Code ITree Memo Stack Vm Pattern Sem CaptureHeap.

Inductive ctree := CT (a : positive) (id : Z) (ty : cap_type) (off len : Z) (kids : list ctree).

Definition addr (t : ctree) : positive := match t with CT a _ _ _ _ _ => a end.
Definition kids_of (t : ctree) : list ctree := match t with CT _ _ _ _ _ kids => kids end.

Lemma ctree_ind' (Q : ctree → Prop) : (∀ a id ty off len kids, Forall Q kids → Q (CT a id ty off len kids)) → ∀ t, Q t.
Proof.
  intros H. fix IH 1. intros [a id ty off len kids]. apply H. induction kids as [|k kids IHk]; constructor; auto.
Qed.

(** ** Representation *)

(** What the offset of a capture is relative to. *)
Definition ment_base (E : positive → option Z) (o : option positive) : option Z :=
  match o with Some e => E e | None => Some 0 end.

Definition node_at (E : positive → option Z) (h : heap) (a : positive) (id : Z) (ty : cap_type) (off len : Z) (kids : list positive) : Prop :=
  ∃ c b, h !! a = Some c ∧ ment_base E (c_ment c) = Some b ∧ c_id c = id ∧ c_type c = ty ∧ off = c_off c + b ∧
    c_length c = len ∧ c_children c = kids.

Fixpoint rep (E : positive → option Z) (h : heap) (t : ctree) : Prop :=
  match t with
  | CT a id ty off len kids =>
      node_at E h a id ty off len (addr <$> kids) ∧
      (fix all ts := match ts with [] => True | t :: ts => rep E h t ∧ all ts end) kids
  end.

Lemma rep_CT E h a id ty off len kids :
  rep E h (CT a id ty off len kids) ↔ node_at E h a id ty off len (addr <$> kids) ∧ Forall (rep E h) kids.
Proof.
  cbn [rep]. split; (intros [Hn Hk]; split; [done |]); clear Hn.
  - revert Hk. induction kids as [|k kids IH]; [by constructor |]. intros [? ?]. constructor; auto.
  - by induction Hk.
Qed.

Lemma rep_kids E h t : rep E h t → Forall (rep E h) (kids_of t).
Proof. destruct t. by intros [_ ?]%rep_CT. Qed.

Lemma rep_addr E h t : rep E h t → ∃ c, h !! addr t = Some c ∧ c_children c = addr <$> kids_of t.
Proof. destruct t. intros [(c & b & Hc & _ & _ & _ & _ & _ & Hk) _]%rep_CT. by exists c. Qed.

(** Captures that stay, in a heap where no reference dangles, stay what they are. *)
Lemma rep_stays E E' h h' t : (∀ a c', h' !! a = Some c' → is_Some (h !! a) → ∃ c, h !! a = Some c ∧ c_id c' = c_id c ∧
    c_type c' = c_type c ∧ c_length c' = c_length c ∧ c_children c' = c_children c ∧
    (∀ b, ment_base E (c_ment c) = Some b → ∃ b', ment_base E' (c_ment c') = Some b' ∧ c_off c' + b' = c_off c + b)) →
  (∀ a, a ∈ held h' → is_Some (h' !! a)) → is_Some (h' !! addr t) → rep E h t → rep E' h' t.
Proof.
  intros Hsame Hcl. induction t as [a id ty off len kids IH] using ctree_ind'. cbn [addr]. rewrite !rep_CT.
  intros [c' Hc'] [(c & b & Hc & Hb & <- & <- & -> & <- & Hk) Hkids].
  destruct (Hsame a c' Hc') as (c2 & Hc2 & E1 & E2 & E3 & E4 & E5); [by eexists |]. simplify_eq.
  destruct (E5 b Hb) as (b' & Hb' & Ho). split; [exists c', b'; split_and!; done || congruence |].
  rewrite Forall_forall in IH, Hkids |- *. intros k Hin. apply IH; [done | | by apply Hkids].
  apply Hcl, elem_of_held. exists a, c'. split; [done |]. rewrite E4, Hk. by apply list_elem_of_fmap_2.
Qed.

Lemma rep_shrinks E h h' rs t : shrinks h h' → counted h' rs → addr t ∈ rs → rep E h t → rep E h' t.
Proof.
  intros Hs Hc Ht. apply rep_stays.
  - intros a c' Hc' _. destruct (Hs a c' Hc') as (c & Ha & -> & _). exists c. split_and!; try done. intros b Hb. by exists b.
  - intros a Ha. apply (ct_closed _ _ Hc). apply elem_of_app. by right.
  - apply (ct_closed _ _ Hc). apply elem_of_app. by left.
Qed.

Lemma rep_bump E h l t : rep E h t → rep E (bump h l) t.
Proof.
  induction t as [a id ty off len kids IH] using ctree_ind'. rewrite !rep_CT. intros [(c & b & Hc & Hb) Hk].
  split; [exists (with_refs c (c_refs c + occ a l)), b; by rewrite lookup_bump, Hc |].
  rewrite Forall_forall in *. auto.
Qed.

Lemma rep_mono E E' h h' t : (∀ e p, E e = Some p → E' e = Some p) → h ⊆ h' → rep E h t → rep E' h' t.
Proof.
  intros HE Hh. induction t as [a id ty off len kids IH] using ctree_ind'. rewrite !rep_CT. intros [(c & b & Hc & Hb & Hr) Hk].
  split; [| rewrite Forall_forall in *; auto]. exists c, b. split; [by eapply lookup_weaken | split; [| done]].
  destruct (c_ment c) as [e|]; cbn in *; auto.
Qed.

Lemma rep_insert E h d c t : h !! d = None → rep E h t → rep E (<[d := c]> h) t.
Proof. intros Hd. apply rep_mono; [done | by apply insert_subseteq]. Qed.

(** The recursions over a capture go no deeper than there are captures. *)
Fixpoint height (t : ctree) : nat := match t with CT _ _ _ _ _ kids => S (max_list (height <$> kids)) end.

Lemma height_kids t k fuel : (height t <= S fuel)%nat → k ∈ kids_of t → (height k <= fuel)%nat.
Proof.
  destruct t as [a id ty off len kids]. cbn [height kids_of]. intros H Hk.
  pose proof (max_list_elem_of_le (height k) (height <$> kids) ltac:(by apply list_elem_of_fmap_2)). lia.
Qed.

Definition ordered (h : heap) : Prop := ∀ a c b, h !! a = Some c → b ∈ c_children c → (b < a)%positive.

Lemma nbelow_lt h a b c : h !! a = Some c → (b < a)%positive → (nbelow h b < nbelow h a)%nat.
Proof.
  intros Ha Hb. apply subset_size. split.
  - intros x. rewrite !elem_of_filter. intros [Hx Hin]. split; [lia | done].
  - intros Hsub. assert (a ∈ filter (λ x, (x <= b)%positive) (dom h)) as Hin.
    { apply Hsub, elem_of_filter. split; [lia | by apply elem_of_dom]. }
    apply elem_of_filter in Hin as [Hin _]. lia.
Qed.

Lemma height_nbelow E h t : ordered h → rep E h t → (height t <= nbelow h (addr t))%nat.
Proof.
  intros Ho. induction t as [a id ty off len kids IH] using ctree_ind'. rewrite rep_CT. cbn [height addr].
  intros [(c & b & Hc & _ & _ & _ & _ & _ & Hk) Hkids]. enough (max_list (height <$> kids) < nbelow h a)%nat by lia.
  pose proof (nbelow_pos _ _ _ Hc). assert (∀ k, k ∈ kids → (height k < nbelow h a)%nat) as Hall.
  { intros k Hin. rewrite Forall_forall in IH, Hkids. specialize (IH k Hin (Hkids k Hin)).
    assert (addr k < a)%positive as Hlt by (apply (Ho a c); [done |]; rewrite Hk; by apply list_elem_of_fmap_2).
    pose proof (nbelow_lt h a (addr k) c Hc Hlt). lia. }
  clear IH Hkids Hk. induction kids as [|k kids IH]; [done |]. rewrite fmap_cons. cbn [max_list_with]. unfold Datatypes.id at 1.
  pose proof (Hall k ltac:(left)). specialize (IH ltac:(intros; apply Hall; by right)). lia.
Qed.

Lemma height_depth E h m t : ordered h → rep E h t → h ⊆ caps m → (height t <= depth m)%nat.
Proof.
  intros Ho Hr Hs. pose proof (height_nbelow _ _ _ Ho Hr). pose proof (nbelow_size h (addr t)).
  pose proof (map_subseteq_size _ _ Hs). unfold depth. lia.
Qed.

(** ** Trees *)

(** What a capture of this type adds, given what was captured inside. *)
Definition built (id : Z) (ty : cap_type) (off len : Z) (ts : forest) : forest :=
  match ty with CAP_NODE => [PNode id off len ts] | CAP_DUMMY => ts end.

Fixpoint trees_of (t : ctree) : forest :=
  match t with CT _ id ty off len kids => built id ty off len (concat (trees_of <$> kids)) end.

Definition trees (T : list ctree) : forest := concat (trees_of <$> T).

Lemma trees_app T U : trees (T ++ U) = trees T ++ trees U.
Proof. unfold trees. by rewrite fmap_app, concat_app. Qed.

Lemma trees_one t : trees [t] = trees_of t.
Proof. unfold trees. cbn. by rewrite app_nil_r. Qed.

Lemma trees_cons t T : trees (t :: T) = trees_of t ++ trees T.
Proof. done. Qed.

Lemma trees_of_CT a id ty off len T : trees_of (CT a id ty off len T) = built id ty off len (trees T).
Proof. done. Qed.

(** ** The flattened children *)

(** The captures a list stands for: a dummy is its children. *)
Fixpoint real_of (t : ctree) : list ctree :=
  match t with CT _ _ ty _ _ kids => match ty with CAP_NODE => [t] | CAP_DUMMY => concat (real_of <$> kids) end end.

Definition reals (T : list ctree) : list ctree := concat (real_of <$> T).

Lemma reals_cons t T : reals (t :: T) = real_of t ++ reals T.
Proof. done. Qed.

Lemma trees_of_reals t : trees (real_of t) = trees_of t.
Proof.
  induction t as [a id ty off len kids IH] using ctree_ind'. cbn [real_of]. destruct ty; [apply trees_one |].
  rewrite trees_of_CT. cbn [built]. unfold trees. induction IH as [|k kids Hk _ IHk]; [done |].
  cbn. rewrite fmap_app, concat_app, IHk. f_equal. exact Hk.
Qed.

Lemma trees_reals T : trees (reals T) = trees T.
Proof.
  induction T as [|t T IH]; [done |]. change (t :: T) with ([t] ++ T). rewrite trees_app, <- IH, trees_one, <- trees_of_reals.
  change (reals ([t] ++ T)) with (real_of t ++ reals T). by rewrite trees_app.
Qed.

(** ** Reading *)

Section Read.
Context (m : mem) (E : positive → option Z) (h : heap) (Hsub : h ⊆ caps m).
Context (HE : ∀ e p, E e = Some p → ∃ m', memo_entry_pos m e = Ok (p, m')).
Notation rep := (rep E h).

Lemma get_rep t : rep t → ∃ c b, get_cap m (addr t) = Ok c ∧ ment_base E (c_ment c) = Some b ∧
  match t with CT _ id ty off len kids =>
    c_id c = id ∧ c_type c = ty ∧ off = c_off c + b ∧ c_length c = len ∧ c_children c = addr <$> kids end.
Proof.
  destruct t as [a id ty off len kids]. intros [(c & b & Hc & Hb & H) _]%rep_CT. exists c, b. split; [| done].
  unfold get_cap. cbn [addr]. by rewrite (lookup_weaken _ _ _ _ Hc Hsub).
Qed.

Lemma dummy_p_rep t : rep t → memo_capture_dummy_p m (addr t) =
  Ok (match t with CT _ _ ty _ _ _ => bool_decide (ty = CAP_DUMMY) end).
Proof.
  intros H. destruct (get_rep t H) as (c & b & Hc & _ & Hf). unfold memo_capture_dummy_p. rewrite Hc. cbn_res.
  destruct t. by destruct Hf as (_ & -> & _).
Qed.

(** The children a loop over a capture's list sees. *)
Definition each_step (fuel : nat) (ch : positive) (calls : list positive) : res (list positive) :=
  d ← memo_capture_dummy_p m ch; if (d : bool) then capture_each_fuel fuel m ch calls else mret (calls ++ [ch]).

Lemma each_spec t : rep t → ∀ fuel calls, (height t <= fuel)%nat →
  capture_each_fuel fuel m (addr t) calls = Ok (calls ++ (addr <$> reals (kids_of t))).
Proof.
  induction t as [a id ty off len kids IH] using ctree_ind'. intros Hr fuel calls Hf. pose proof (rep_kids _ _ _ Hr) as Hk.
  destruct fuel as [|fuel]; [cbn in Hf; lia |]. pose proof (λ k, height_kids _ k fuel Hf) as Hh.
  destruct (get_rep _ Hr) as (c & b & Hc & _ & _ & _ & _ & _ & Hkids).
  cbn [capture_each_fuel]. rewrite Hc. cbn_res. rewrite Hkids. cbn [kids_of] in *. change (for_each (each_step fuel) (addr <$> kids) calls = Ok (calls ++ (addr <$> reals kids))).
  clear Hc Hkids Hr Hf. revert calls. induction kids as [|k kids IHk]; intros calls; [cbn; by rewrite app_nil_r |].
  apply Forall_cons in IH as [IH1 IH2], Hk as [Hk1 Hk2]. rewrite fmap_cons, reals_cons, fmap_app, (assoc_L (++)). cbn [for_each].
  unfold each_step at 1. rewrite (dummy_p_rep _ Hk1). cbn_res. pose proof (Hh k ltac:(left)) as Hhk.
  specialize (IHk IH2 Hk2 ltac:(intros; apply Hh; by right)). destruct k as [ka kid [] koff klen kkids]; cbn [real_of].
  - rewrite bool_decide_eq_false_2 by done. cbn_res. apply IHk.
  - rewrite bool_decide_eq_true_2 by done. rewrite IH1 by done. apply IHk.
Qed.

(** The number of flattened children. *)
Definition num_step (fuel : nat) (ch : positive) (n : Z) : res Z :=
  d ← memo_capture_dummy_p m ch; if (d : bool) then k ← num_children_fuel fuel m ch; mret (n + k) else mret (n + 1).

Lemma num_spec t : rep t → ∀ fuel, (height t <= fuel)%nat →
  num_children_fuel fuel m (addr t) = Ok (Z.of_nat (length (reals (kids_of t)))).
Proof.
  induction t as [a id ty off len kids IH] using ctree_ind'. intros Hr fuel Hf. pose proof (rep_kids _ _ _ Hr) as Hk.
  destruct fuel as [|fuel]; [cbn in Hf; lia |]. pose proof (λ k, height_kids _ k fuel Hf) as Hh.
  destruct (get_rep _ Hr) as (c & b & Hc & _ & _ & _ & _ & _ & Hkids).
  cbn [num_children_fuel]. rewrite Hc. cbn_res. rewrite Hkids. cbn [kids_of] in *. rewrite <- (Z.add_0_l (Z.of_nat _)).
  change (for_each (num_step fuel) (addr <$> kids) 0 = Ok (0 + Z.of_nat (length (reals kids)))). generalize 0 as n.
  clear Hc Hkids Hr Hf. induction kids as [|k kids IHk]; intros n; [cbn; by rewrite Z.add_0_r |].
  apply Forall_cons in IH as [IH1 IH2], Hk as [Hk1 Hk2]. rewrite fmap_cons, reals_cons, length_app. cbn [for_each].
  unfold num_step at 1. rewrite (dummy_p_rep _ Hk1). cbn_res. pose proof (Hh k ltac:(left)) as Hhk.
  specialize (IHk IH2 Hk2 ltac:(intros; apply Hh; by right)). destruct k as [ka kid [] koff klen kkids]; cbn [real_of].
  - rewrite bool_decide_eq_false_2 by done. cbn_res. rewrite IHk. f_equal. cbn [length]. lia.
  - rewrite bool_decide_eq_true_2 by done. rewrite IH1 by done. cbn_res. rewrite IHk. f_equal. unfold reals. cbn [kids_of]. lia.
Qed.

(** The scan of [memo_capture_child]. *)
Fixpoint child_scan (fuel : nat) (n : Z) (l : list positive) (i : Z) : res (option positive) :=
  match l with
  | [] => mret None
  | ch :: l =>
      d ← memo_capture_dummy_p m ch;
      if (d : bool) then
        sub ← memo_capture_child_fuel fuel m ch (n - i);
        match sub with
        | Some s => mret (Some s)
        | None => k ← memo_capture_num_children m ch; child_scan fuel n l (i + k)
        end
      else if i =? n then mret (Some ch)
      else child_scan fuel n l (i + 1)
  end.

Lemma child_fuel_S fuel p n : memo_capture_child_fuel (S fuel) m p n = (c ← get_cap m p; child_scan fuel n (c_children c) 0).
Proof.
  cbn [memo_capture_child_fuel]. destruct (get_cap m p) as [c| | |]; [| done..]. cbn [mbind res_bind]. generalize 0 as i.
  induction (c_children c) as [|ch l IH]; intros i; [done |]. cbn [child_scan].
  destruct (memo_capture_dummy_p m ch) as [[]| | |]; [| | done..]; cbn [mbind res_bind].
  - destruct (memo_capture_child_fuel fuel m ch (n - i)) as [[]| | |]; [done | | done..]. cbn [mbind res_bind].
    destruct (memo_capture_num_children m ch); [| done..]. apply IH.
  - by rewrite IH.
Qed.

(** The [n]th, if there is one. *)
Definition nth_addr (T : list ctree) (n : Z) : option positive := if n <? 0 then None else (addr <$> T) !! Z.to_nat n.

Lemma nth_addr_app T U n : nth_addr (T ++ U) n =
  match nth_addr T n with Some a => Some a | None => nth_addr U (n - Z.of_nat (length T)) end.
Proof.
  unfold nth_addr. destruct (Z.ltb_spec n 0).
  - destruct (Z.ltb_spec (n - Z.of_nat (length T)) 0); [done | lia].
  - rewrite fmap_app. destruct (decide (Z.to_nat n < length T)%nat) as [Hl|Hl].
    + rewrite lookup_app_l by (by rewrite length_fmap). destruct (lookup_lt_is_Some_2 (addr <$> T) (Z.to_nat n)) as [a Ha]; [by rewrite length_fmap |].
      by rewrite Ha.
    + rewrite lookup_app_r by (rewrite length_fmap; lia). rewrite length_fmap, (lookup_ge_None_2 (addr <$> T)) by (rewrite length_fmap; lia).
      destruct (Z.ltb_spec (n - Z.of_nat (length T)) 0); [lia |]. f_equal. lia.
Qed.

Context (Hord : ordered h).

Lemma num_children_rep t : rep t → memo_capture_num_children m (addr t) = Ok (Z.of_nat (length (reals (kids_of t)))).
Proof. intros Hr. apply num_spec; [done |]. by eapply height_depth. Qed.

Lemma each_child_rep t : rep t → memo_capture_each_child m (addr t) = Ok (addr <$> reals (kids_of t)).
Proof. intros Hr. apply (each_spec t Hr _ []). by eapply height_depth. Qed.

Lemma child_spec t : rep t → ∀ fuel n, (height t <= fuel)%nat →
  memo_capture_child_fuel fuel m (addr t) n = Ok (nth_addr (reals (kids_of t)) n).
Proof.
  induction t as [a id ty off len kids IH] using ctree_ind'. intros Hr fuel n Hf. pose proof (rep_kids _ _ _ Hr) as Hk.
  destruct fuel as [|fuel]; [cbn in Hf; lia |]. pose proof (λ k, height_kids _ k fuel Hf) as Hh.
  destruct (get_rep _ Hr) as (c & b & Hc & _ & _ & _ & _ & _ & Hkids).
  rewrite child_fuel_S, Hc. cbn_res. rewrite Hkids. cbn [kids_of] in *. rewrite <- (Z.sub_0_r n) at 2. generalize 0 as i.
  clear Hc Hkids Hr Hf. induction kids as [|k kids IHk]; intros i; [cbn; unfold nth_addr; by destruct (_ <? 0) |].
  apply Forall_cons in IH as [IH1 IH2], Hk as [Hk1 Hk2]. rewrite fmap_cons, reals_cons, nth_addr_app. cbn [child_scan].
  rewrite (dummy_p_rep _ Hk1). cbn_res. pose proof (Hh k ltac:(left)) as Hhk. pose proof (num_children_rep _ Hk1) as Hnum.
  specialize (IHk IH2 Hk2 ltac:(intros; apply Hh; by right)). destruct k as [ka kid [] koff klen kkids]; cbn [real_of length].
  - rewrite bool_decide_eq_false_2 by done. destruct (Z.eqb_spec i n) as [-> | Hne]; [by rewrite Z.sub_diag |].
    rewrite IHk. unfold nth_addr at 2. cbn [fmap list_fmap].
    destruct (Z.ltb_spec (n - i) 0); [do 2 f_equal; lia |]. rewrite (lookup_ge_None_2 [_]) by (cbn; lia). do 2 f_equal. lia.
  - rewrite bool_decide_eq_true_2 by done. rewrite IH1 by done. cbn_res. cbn [kids_of].
    change (concat (real_of <$> kkids)) with (reals kkids). destruct (nth_addr (reals kkids) (n - i)) as [s|]; [done |].
    rewrite Hnum. cbn_res. cbn [kids_of]. rewrite IHk. do 2 f_equal. lia.
Qed.

(** What a caller that walks a result through the interface reads. *)
Fixpoint read_tree (fuel : nat) (p : positive) : res ptree :=
  match fuel with
  | O => Fuel
  | S fuel =>
      id ← memo_capture_id m p;
      '(start, _) ← memo_capture_start m p;
      len ← memo_capture_len m p;
      kids ← memo_capture_each_child m p;
      ts ← mapM (read_tree fuel) kids;
      mret (PNode id start len ts)
  end.

Definition read_trees (fuel : nat) (p : positive) : res forest :=
  kids ← memo_capture_each_child m p; mapM (read_tree fuel) kids.

Lemma mapM_app_Ok {A B} (f : A → res B) l1 l2 a b : mapM f l1 = Ok a → mapM f l2 = Ok b → mapM f (l1 ++ l2) = Ok (a ++ b).
Proof.
  revert a. induction l1 as [|x l1 IH]; intros a H1 H2; [by injection H1 as <-|]. cbn [mapM app] in *.
  destruct (f x) as [y| | |]; try done. cbn [mbind res_bind] in *. destruct (mapM f l1) as [ys| | |]; try done. cbn [mbind res_bind] in *.
  injection H1 as <-. by rewrite (IH ys).
Qed.

Lemma capture_start_rep t : rep t → ∃ m', memo_capture_start m (addr t) = Ok (match t with CT _ _ _ off _ _ => off end, m').
Proof.
  intros Hr. destruct (get_rep t Hr) as (c & b & Hc & Hb & Hf). unfold memo_capture_start. rewrite Hc. cbn_res.
  destruct t as [a id ty off len kids]. destruct Hf as (_ & _ & -> & _). destruct (c_ment c) as [e|]; cbn in Hb.
  - destruct (HE e b Hb) as (m' & ->). cbn_res. exists m'. by rewrite Z.add_comm.
  - injection Hb as <-. exists m. by rewrite Z.add_0_r.
Qed.

Lemma read_reals t : rep t → ∀ fuel, (height t <= fuel)%nat → mapM (read_tree fuel) (addr <$> real_of t) = Ok (trees_of t).
Proof.
  induction t as [a id ty off len kids IH] using ctree_ind'. intros Hr fuel Hf. pose proof (rep_kids _ _ _ Hr) as Hk. cbn [kids_of] in Hk.
  assert (∀ fuel, (∀ k, k ∈ kids → height k <= fuel)%nat → mapM (read_tree fuel) (addr <$> reals kids) = Ok (trees kids)) as Hkids.
  { clear Hr Hf fuel. intros fuel Hh. induction kids as [|k kids IHk]; [done |]. apply Forall_cons in IH as [IH1 IH2], Hk as [Hk1 Hk2].
    rewrite reals_cons, trees_cons, fmap_app. apply mapM_app_Ok; [apply IH1; [done |]; by apply Hh; left |].
    apply IHk; [done.. |]. intros; apply Hh; by right. }
  destruct fuel as [|fuel]; [cbn in Hf; lia |]. pose proof (λ k, height_kids _ k fuel Hf) as Hh. cbn [kids_of] in Hh.
  rewrite trees_of_CT. destruct ty; cbn [real_of built].
  - cbn [fmap list_fmap mapM addr read_tree]. destruct (capture_start_rep _ Hr) as (m' & Hst). cbn [addr] in Hst.
    destruct (get_rep _ Hr) as (c & b & Hc & _ & <- & _ & _ & <- & _). cbn [addr] in Hc.
    pose proof (each_child_rep _ Hr) as Heach. cbn [addr kids_of] in Heach.
    unfold memo_capture_id, memo_capture_len. rewrite Hc. cbn_res. rewrite Hst. cbn_res. rewrite Heach. cbn_res.
    rewrite Hkids by done. done.
  - apply Hkids. intros k Hin. specialize (Hh k Hin). lia.
Qed.

(** Reading the children of a capture gives its trees. *)
Lemma read_kids t fuel : rep t → (height t <= fuel)%nat → read_trees fuel (addr t) = Ok (trees (kids_of t)).
Proof.
  intros Hr Hf. unfold read_trees. rewrite each_child_rep by done. cbn_res. destruct t as [a id ty off len kids].
  pose proof (rep_kids _ _ _ Hr) as Hk. pose proof (λ k, height_kids _ k fuel (Nat.le_trans _ _ _ Hf (Nat.le_succ_diag_r _))) as Hh.
  cbn [kids_of] in *. clear Hr Hf. induction Hk as [|k kids Hk _ IHk]; [done |].
  rewrite reals_cons, trees_cons, fmap_app. apply mapM_app_Ok; [apply read_reals; [done |]; by apply Hh; left |].
  apply IHk. intros; apply Hh; by right.
Qed.
End Read.

(** ** The interface *)


(** A capture with a plain child and a dummy that holds it once more, and another. *)
Definition demo_heap : heap := list_to_map [(1%positive, mk_capture 6 CAP_NODE 1 2 None 2 []);
  (2%positive, mk_capture 7 CAP_NODE 4 1 None 1 []); (3%positive, mk_capture 0 CAP_DUMMY 0 4 None 1 [1; 2]%positive);
  (5%positive, mk_capture 5 CAP_NODE 0 9 None 1 [1; 3]%positive)].

Definition demo_ctree : ctree :=
  CT 5 5 CAP_NODE 0 9 [CT 1 6 CAP_NODE 1 2 []; CT 3 0 CAP_DUMMY 0 4 [CT 1 6 CAP_NODE 1 2 []; CT 2 7 CAP_NODE 4 1 []]].

Lemma demo_rep : rep (λ _, None) demo_heap demo_ctree.
Proof. repeat split; eexists _, _; split_and!; reflexivity. Qed.

