(* ===== verification/Owners.v ===== *)
(** * Owners: the captures whose offsets are relative to a memo entry

    A capture that a memo entry owns has an offset relative to the entry's
    position.  [owned h es]: owners are entries of the table, and what an entry
    owns can be reached from its captures.  So making everything below those
    absolute ([memo_capture_absolutize]) leaves no capture behind that refers to
    an entry about to be freed. *)
From S2P Require Import Prelude ITree Memo CaptureHeap CaptureTree.

(** ** What a capture reaches *)

Inductive below (h : heap) : positive → positive → Prop :=
| below_refl a : below h a a
| below_child a c b x : h !! a = Some c → b ∈ c_children c → below h b x → below h a x.

Lemma below_trans h a b c : below h a b → below h b c → below h a c.
Proof. induction 1; [done |]. intros. eapply below_child; eauto. Qed.

(** In a heap in which no reference dangles. *)
Lemma below_stays h h' r x : (∀ a c', h' !! a = Some c' → ∃ c, h !! a = Some c ∧ c_children c' = c_children c) →
  (∀ a, a ∈ held h' → is_Some (h' !! a)) → is_Some (h' !! r) → below h r x → below h' r x.
Proof.
  intros Hsame Hcl Hr Hb. induction Hb as [a | a c b x Ha Hin _ IH]; [constructor |]. destruct Hr as [c' Hc'].
  destruct (Hsame a c' Hc') as (c2 & Hc2 & E). simplify_eq. rewrite <- E in Hin.
  eapply below_child; [exact Hc' | exact Hin |]. apply IH, Hcl, elem_of_held. eauto.
Qed.

Lemma below_mono h h' r x : h ⊆ h' → below h r x → below h' r x.
Proof. intros Hs. induction 1; [constructor |]. eapply below_child; [by eapply lookup_weaken | done..]. Qed.

(** Every counted capture is reached from a root. *)
Lemma counted_reach h rs a : counted h rs → is_Some (h !! a) → ∃ r, r ∈ rs ∧ below h r a.
Proof.
  intros Hc. remember (size (filter (λ x, (a < x)%positive) (dom h))) as n eqn:En. revert a En.
  induction n as [n IH] using lt_wf_ind. intros a -> [c Ha]. destruct (ct_refs _ _ Hc a c Ha) as [Hr Hp].
  assert (a ∈ rs ++ held h) as [Hin | Hin]%elem_of_app by (apply occ_elem; lia); [exists a; split; [done | constructor] |].
  apply elem_of_held in Hin as (b & cb & Hb & Hin). pose proof (ct_order _ _ Hc _ _ _ Hb Hin) as Hlt.
  destruct (IH (size (filter (λ x, (b < x)%positive) (dom h)))) with (a := b) as (r & Hrs & Hbel); [| done | by exists cb |].
  - apply subset_size. split.
    + intros x. rewrite !elem_of_filter. intros [Hx Hd]. split; [lia | done].
    + intros Hsub. assert (b ∈ filter (λ x, (b < x)%positive) (dom h)) as Hbad; [| apply elem_of_filter in Hbad; lia].
      apply Hsub, elem_of_filter. split; [done |]. apply elem_of_dom. by exists cb.
  - exists r. split; [done |]. eapply below_trans; [exact Hbel |]. eapply below_child; [exact Hb | done | constructor].
Qed.

(** The owners of represented captures have positions. *)
Lemma rep_owner E h t x c : rep E h t → below h (addr t) x → h !! x = Some c → is_Some (ment_base E (c_ment c)).
Proof.
  intros Hr Hb. remember (addr t) as a eqn:Ea. revert t Hr Ea. induction Hb as [a | a c' b x Ha Hin _ IH]; intros t Hr ->.
  - intros Hx. destruct t as [a id ty off len kids]. apply rep_CT in Hr as [(c2 & b & Hc2 & Hb & _) _]. cbn in Hx. simplify_eq. by exists b.
  - intros Hx. pose proof (rep_kids _ _ _ Hr) as Hk. destruct (rep_addr _ _ _ Hr) as (c2 & Hc2 & Hkids). simplify_eq.
    rewrite Hkids in Hin. apply list_elem_of_fmap in Hin as (k & -> & Hk'). rewrite Forall_forall in Hk. by eapply IH; [apply Hk | |].
Qed.

(** ** Owners *)

Definition owned (h : heap) (es : gmap positive memo_entry) : Prop := ∀ a c e, h !! a = Some c → c_ment c = Some e →
  ∃ en r, es !! e = Some en ∧ r ∈ e_captures en ∧ below h r a.

(** Captures and children stay what they are, entries keep theirs alive. *)
Lemma owned_stays h h' es es' : (∀ a c', h' !! a = Some c' → ∃ c, h !! a = Some c ∧ c_children c' = c_children c ∧
    (c_ment c' = c_ment c ∨ c_ment c' = None)) →
  (∀ a, a ∈ held h' → is_Some (h' !! a)) → (∀ e en r, es' !! e = Some en → r ∈ e_captures en → is_Some (h' !! r)) →
  (∀ a c' e, h' !! a = Some c' → c_ment c' = Some e → is_Some (es !! e) → es' !! e = es !! e) →
  owned h es → owned h' es'.
Proof.
  intros Hsame Hcl Hroots Hes Ho a c' e Ha He. destruct (Hsame a c' Ha) as (c & Hc & _ & Hm).
  assert (c_ment c = Some e) as Hce by (destruct Hm as [Hm | Hm]; congruence).
  destruct (Ho a c e Hc Hce) as (en & r & Hen & Hr & Hb).
  assert (es' !! e = Some en) as Hen' by (rewrite <- Hen; by eapply Hes).
  exists en, r. split_and!; [done.. |]. apply (below_stays h); [| done | by eapply Hroots | done].
  intros b cb Hcb. destruct (Hsame b cb Hcb) as (c2 & ? & ? & _). by exists c2.
Qed.

Lemma owned_insert h d c es : h !! d = None → c_ment c = None → owned h es → owned (<[d := c]> h) es.
Proof.
  intros Hd Hc Ho a ca e [[<- <-] | [Hne Ha]]%lookup_insert_Some He; [congruence |].
  destruct (Ho a ca e Ha He) as (en & r & ? & ? & Hb). exists en, r. split_and!; [done.. |]. eapply below_mono; [| exact Hb].
  by apply insert_subseteq.
Qed.

(** The owner of one capture. *)
Lemma counted_owner h rs a c off o : counted h rs → h !! a = Some c → counted (<[a := with_owner c off o]> h) rs.
Proof.
  intros [H1 H2 H3] Ha.
  assert (held (<[a := with_owner c off o]> h) ≡ₚ held h) as Hh.
  { rewrite (held_update h a c) by done. by rewrite (held_delete h a c). }
  split.
  - intros b cb. rewrite Hh. intros [[<- <-] | [Hne Hb]]%lookup_insert_Some; [by apply (H1 a c) | by apply H1].
  - intros b. rewrite Hh, lookup_insert_is_Some'. intros Hb. right. by apply H2.
  - intros b cb x [[<- <-] | [Hne Hb]]%lookup_insert_Some; [by apply (H3 a c) | by apply (H3 b cb)].
Qed.

(** ** Making offsets absolute *)

Section Absolutize.
Context (e : positive) (p : Z) (hf : heap) (rs : list positive).

Definition absd (h h' : heap) : Prop := ∀ a, match h !! a, h' !! a with
  | Some c, Some c' => c' = c ∨ c_ment c = Some e ∧ c' = with_owner c (c_off c + p) None
  | None, None => True
  | _, _ => False
  end.

Definition freed (h : heap) (a : positive) : Prop := ∀ x c, below h a x → h !! x = Some c → c_ment c ≠ Some e.

Lemma absd_refl h : absd h h.
Proof. intros a. destruct (h !! a); [by left | done]. Qed.

Lemma absd_trans h1 h2 h3 : absd h1 h2 → absd h2 h3 → absd h1 h3.
Proof.
  intros H12 H23 a. specialize (H12 a). specialize (H23 a). destruct (h1 !! a), (h2 !! a), (h3 !! a); try done.
  destruct H12 as [-> | [Hn ->]], H23 as [-> | [Hn2 ->]]; (by left) || (by right) || done.
Qed.

Lemma absd_dom h h' : absd h h' → dom h' = dom h.
Proof.
  intros Hm. apply set_eq. intros a. rewrite !elem_of_dom. specialize (Hm a).
  destruct (h !! a), (h' !! a); try done; split; intros; by eexists.
Qed.

Lemma absd_some h h' a : absd h h' → is_Some (h !! a) → is_Some (h' !! a).
Proof. intros Hv. by rewrite <- !elem_of_dom, (absd_dom _ _ Hv). Qed.

Lemma absd_back h h' a c' : absd h h' → h' !! a = Some c' →
  ∃ c, h !! a = Some c ∧ c_children c' = c_children c ∧ (c_ment c' = c_ment c ∨ c_ment c' = None).
Proof.
  intros Hv Ha. specialize (Hv a). rewrite Ha in Hv. destruct (h !! a) as [c|]; [| done]. exists c. split; [done |].
  destruct Hv as [-> | [_ ->]]; cbn; auto.
Qed.

Lemma absd_below h h' a x : absd h h' → below h a x ↔ below h' a x.
Proof.
  intros Hv. split; (induction 1 as [| a c b x Ha Hb _ IH]; [constructor |]).
  - destruct (absd_some _ _ a Hv ltac:(by exists c)) as [c' Hc']. destruct (absd_back _ _ _ _ Hv Hc') as (c2 & Hc2 & E & _).
    simplify_eq. eapply below_child; [exact Hc' | by rewrite E | done].
  - destruct (absd_back _ _ _ _ Hv Ha) as (c2 & Hc2 & E & _). eapply below_child; [exact Hc2 | by rewrite <- E | done].
Qed.

(** What no longer refers to the entry does not do so again. *)
Lemma absd_freed h h' a : absd h h' → freed h a → freed h' a.
Proof.
  intros Hv Hf x c' Hb Hc'. apply (absd_below _ _ _ _ Hv) in Hb. destruct (absd_back _ _ _ _ Hv Hc') as (c & Hc & _ & Hm).
  specialize (Hf x c Hb Hc). destruct Hm as [-> | ->]; done.
Qed.

Lemma absd_one h a c : h !! a = Some c → absd h (if bool_decide (c_ment c = Some e) then <[a := with_owner c (c_off c + p) None]> h else h).
Proof.
  intros Ha b. case_bool_decide as Hc; [| apply absd_refl]. destruct (decide (a = b)) as [<- | Hne]; [rewrite Ha, lookup_insert_eq; by right |].
  rewrite lookup_insert_ne by done. destruct (h !! b); [by left | done].
Qed.

(** One capture, and everything below it. *)
Definition absolutizes (f : positive → mem → res mem) (n : nat) : Prop := ∀ a m h, is_Some (h !! a) → (nbelow h a <= n)%nat →
  caps m = h ∪ hf → h ##ₘ hf → counted h rs →
  ∃ h', f a m = Ok (with_caps m (h' ∪ hf)) ∧ counted h' rs ∧ absd h h' ∧ freed h' a.

Lemma absd_nbelow h h' a : absd h h' → nbelow h' a = nbelow h a.
Proof. intros Hm. unfold nbelow. by rewrite (absd_dom _ _ Hm). Qed.

Lemma absd_disjoint h h' : absd h h' → h ##ₘ hf → h' ##ₘ hf.
Proof. intros Hm. rewrite !map_disjoint_dom. by rewrite (absd_dom _ _ Hm). Qed.

Lemma absolutize_list f n l : absolutizes f n → ∀ m h, Forall (λ a, is_Some (h !! a) ∧ (nbelow h a <= n)%nat) l →
  caps m = h ∪ hf → h ##ₘ hf → counted h rs →
  ∃ h', for_each f l m = Ok (with_caps m (h' ∪ hf)) ∧ counted h' rs ∧ absd h h' ∧ Forall (freed h') l.
Proof.
  intros Hf. induction l as [|a l IH]; intros m h Hl Hm Hd Hc.
  { exists h. cbn. rewrite <- Hm, with_caps_eta. split_and!; [done | done | apply absd_refl | constructor]. }
  apply Forall_cons in Hl as [[Ha Hn] Hl]. destruct (Hf a m h) as (h1 & E1 & Hc1 & Hv1 & Hf1); [done.. |].
  destruct (IH (with_caps m (h1 ∪ hf)) h1) as (h2 & E2 & Hc2 & Hv2 & Hf2); [| done | by eapply absd_disjoint | done |].
  - eapply Forall_impl; [exact Hl |]. intros b [Hb Hnb]. rewrite (absd_nbelow _ _ _ Hv1). split; [by eapply absd_some | done].
  - exists h2. cbn [for_each]. rewrite E1, E2. split_and!; [done | done | by eapply absd_trans |].
    constructor; [by eapply absd_freed | done].
Qed.

Lemma absolutize_ok fuel : absolutizes (absolutize_fuel fuel e p) fuel.
Proof.
  induction fuel as [|fuel IH]; intros a m h [c Ha] Hn Hm Hd Hc; [pose proof (nbelow_pos _ _ _ Ha); lia |].
  cbn [absolutize_fuel]. unfold get_cap. rewrite Hm. erewrite lookup_union_Some_l by exact Ha. cbn_res.
  pose proof (absd_one h a c Ha) as Hv1. set (h1 := if bool_decide _ then _ else h) in Hv1.
  assert (caps (if bool_decide (c_ment c = Some e) then set_cap m a (with_owner c (c_off c + p) None) else m) = h1 ∪ hf) as Hm1.
  { unfold h1. case_bool_decide; [| done]. unfold set_cap. cbn. by rewrite Hm, insert_union_l. }
  assert (counted h1 rs) as Hc1 by (unfold h1; case_bool_decide; [by apply counted_owner | done]).
  destruct (absolutize_list _ fuel (c_children c) IH (if bool_decide (c_ment c = Some e) then set_cap m a (with_owner c (c_off c + p) None) else m) h1) as (h2 & E2 & Hc2 & Hv2 & Hf2).
  - apply Forall_forall. intros b Hb. rewrite (absd_nbelow _ _ _ Hv1). split.
    + eapply absd_some; [exact Hv1 |]. apply (ct_closed _ _ Hc), elem_of_app. right. apply elem_of_held. by exists a, c.
    + pose proof (nbelow_lt h a b c Ha (ct_order _ _ Hc a c b Ha Hb)). lia.
  - done.
  - by eapply absd_disjoint.
  - done.
  - exists h2. rewrite E2. split; [by case_bool_decide; destruct m |]. split_and!; [done | by eapply absd_trans |].
    pose proof (absd_trans _ _ _ Hv1 Hv2) as Hv. intros x cx Hb Hx. apply (absd_below _ _ _ _ Hv) in Hb.
    inversion Hb as [| ? c2 b ? Ha2 Hin Hbx]; subst.
    + destruct (absd_back _ _ _ _ Hv2 Hx) as (c1 & Hc1x & _ & Hme). unfold h1 in Hc1x. case_bool_decide as Hce.
      * rewrite lookup_insert_eq in Hc1x. injection Hc1x as <-. destruct Hme as [-> | ->]; done.
      * assert (c = c1) as <- by congruence. destruct Hme as [-> | ->]; done.
    + simplify_eq. rewrite Forall_forall in Hf2. apply (Hf2 b Hin x cx); [| done]. by apply (absd_below _ _ _ _ Hv).
Qed.

Lemma absolutize_all m h l : (∀ a, a ∈ l → is_Some (h !! a)) → caps m = h ∪ hf → h ##ₘ hf → counted h rs →
  ∃ h', for_each (memo_capture_absolutize e p) l m = Ok (with_caps m (h' ∪ hf)) ∧ counted h' rs ∧ absd h h' ∧ Forall (freed h') l.
Proof.
  intros Hl. apply (absolutize_list _ (size h)).
  - intros a m' h0 Ha Hn Hm Hd Hc. apply absolutize_ok; try done. unfold depth. rewrite Hm, map_size_disj_union by done.
    pose proof (nbelow_size h0 a). lia.
  - apply Forall_forall. intros a Ha. split; [by apply Hl | apply nbelow_size].
Qed.

(** The tree of a capture is the same, absolute or relative. *)
Lemma absd_rep E h h' rs' t : absd h h' → counted h' rs' → E e = Some p → rep E h t → rep E h' t.
Proof.
  intros Hv Hc He Hr. apply (rep_stays E E h h'); try done.
  - intros a c' Hc' _. destruct (absd_back _ _ _ _ Hv Hc') as (c & Ha & _). exists c. specialize (Hv a). rewrite Ha, Hc' in Hv.
    destruct Hv as [-> | [Hn ->]]; (split_and!; [done.. |]); intros b Hb; [by exists b |].
    rewrite Hn in Hb. cbn in Hb. rewrite He in Hb. injection Hb as <-. exists 0. split; [done |]. cbn. lia.
  - intros a Ha. apply (ct_closed _ _ Hc). apply elem_of_app. by right.
  - destruct (rep_addr _ _ _ Hr) as (c & Ha & _). by eapply absd_some.
Qed.
End Absolutize.
