(* ===== verification/MemoHeap.v ===== *)
(** * MemoHeap: captures shared between a run, its table and the caller

    [mem_ok w M m T]: the captures of the memory are those that the trees [T] of
    a run's lists, the caller's earlier results and the table's entries keep
    alive, with exact counts; and every entry of the table holds a result that
    [M] knows for its id and position, having examined no more than its interval.  Taking and dropping
    references, building captures, looking up and putting entries keep it. *)
From stdpp Require Import sorting.
From S2P Require Import Prelude Charset Input Code ITree ITreeLazy ITreeOps ITreeDel ITreeSpec Memo Stack Vm Pattern Sem Machine CaptureHeap CaptureTree Owners.

(** ** The table *)

(** Where an entry is. *)
Definition ent_pos (m : mem) (e : positive) : option Z :=
  match ents m !! e with Some en => lookup_loc (e_pos en) (contents (tree m)) | None => None end.

(** The references entries hold. *)
Definition kept (es : gmap positive memo_entry) : list positive := concat ((λ ee, e_captures ee.2) <$> map_to_list es).

Lemma kept_added es e en : es !! e = None → kept (<[e := en]> es) ≡ₚ e_captures en ++ kept es.
Proof. intros He. unfold kept. by rewrite map_to_list_insert. Qed.

Lemma kept_delete es e en : es !! e = Some en → kept es ≡ₚ e_captures en ++ kept (delete e es).
Proof. intros He. rewrite <- (insert_delete_id es e en) at 1 by done. apply kept_added, lookup_delete_eq. Qed.

Lemma kept_elem es e en a : es !! e = Some en → a ∈ e_captures en → a ∈ kept es.
Proof.
  intros He Ha. rewrite (kept_delete _ _ _ He). apply elem_of_app. by left.
Qed.

Lemma owned_counted h h' es rs : (∀ a c', h' !! a = Some c' → ∃ c, h !! a = Some c ∧ c_children c' = c_children c ∧
    (c_ment c' = c_ment c ∨ c_ment c' = None)) → counted h' (rs ++ kept es) → owned h es → owned h' es.
Proof.
  intros Hs Hc. apply owned_stays; [done | | | done].
  - intros a Ha. apply (ct_closed _ _ Hc), elem_of_app. by right.
  - intros e en r He Hr. apply (ct_closed _ _ Hc). rewrite !elem_of_app. left. right. by eapply kept_elem.
Qed.

Lemma owned_shrinks h h' es rs : shrinks h h' → counted h' (rs ++ kept es) → owned h es → owned h' es.
Proof.
  intros Hs. apply owned_counted. intros a c' Hc'. destruct (Hs a c' Hc') as (c & Hc & -> & _). exists c. auto.
Qed.

Lemma owned_bump h l es rs : counted (bump h l) (rs ++ kept es) → owned h es → owned (bump h l) es.
Proof.
  apply owned_counted. intros a c' Hc'. rewrite lookup_bump in Hc'. apply fmap_Some in Hc' as (c & Hc & ->). exists c. auto.
Qed.

(** What is known under an id at a position: a result, and up to where the
    subject was examined for it. *)
Notation knowledge := (Z → Z → Z → parse → Prop).

(** The result an entry stands for. *)
Definition result_of (en : memo_entry) (p : Z) (ts : forest) : parse :=
  if e_length en =? -1 then None else Some (p + e_length en, ts).

Definition remembers (M : knowledge) (E : positive → option Z) (h : heap) (k : iv_key) (hi : Z) (l : positive) (en : memo_entry) : Prop :=
  e_pos en = l ∧ ∃ T ex, e_captures en = addr <$> T ∧ Forall (rep E h) T ∧ ex <= hi ∧
    M (k_id k) (k_pos k) ex (result_of en (k_pos k) (trees T)).

Record table_ok (M : knowledge) (m : mem) (h : heap) : Prop := {
  to_inv : Inv (tree m);
  to_fresh : ∀ e, is_Some (ents m !! e) → (e < next_ent m)%positive;
  to_keys : (value <$> (contents (tree m) ≫= λ x, ins x.2)) ≡ₚ (map_to_list (ents m)).*1;
  to_ents : ∀ x i, x ∈ contents (tree m) → i ∈ ins x.2 →
    ∃ en, ents m !! value i = Some en ∧ remembers M (ent_pos m) h x.1 (high i) (loc x.2) en;
  to_owned : owned h (ents m);
}.

(** *** The list of groups *)

Section List.
Context {V : Type}.
Implicit Types (xs : list (iv_key * itree_ivals V)).

Lemma lookup_entry_elem k xs g : lookup_entry k xs = Some g → (k, g) ∈ xs.
Proof.
  induction xs as [|[k' g'] xs IH]; [done |]. cbn. case_decide as Hk; [intros [= ->]; subst; by left |]. right. by apply IH.
Qed.

Lemma lookup_loc_cons l x xs : lookup_loc l (x :: xs) = if decide (loc x.2 = l) then Some (k_pos x.1) else lookup_loc l xs.
Proof. unfold lookup_loc. rewrite filter_cons. by case_decide. Qed.

Lemma lookup_loc_locs l xs p : lookup_loc l xs = Some p → l ∈ locs xs.
Proof.
  intros Hl. destruct (decide (l ∈ locs xs)) as [| Hn]; [done |]. by rewrite lookup_loc_None in Hl.
Qed.

Lemma lookup_loc_elem x xs : NoDup (locs xs) → x ∈ xs → lookup_loc (loc x.2) xs = Some (k_pos x.1).
Proof.
  induction xs as [|y xs IH]; [by intros _ ?%not_elem_of_nil |]. unfold locs. rewrite fmap_cons, NoDup_cons, lookup_loc_cons.
  intros [Hy Hn] [-> | Hx]%elem_of_cons; [by rewrite decide_True |]. rewrite decide_False; [by apply IH |].
  intros Heq. apply Hy. rewrite Heq. apply list_elem_of_fmap. by exists x.
Qed.

Lemma ins_entry_loc k hi (v : V) fresh xs l p : lookup_loc l xs = Some p → l ≠ fresh →
  lookup_loc l (ins_entry k hi v fresh xs) = Some p.
Proof.
  intros Hl Hf. induction xs as [|[k' g] xs IH]; [done |]. cbn [ins_entry]. rewrite lookup_loc_cons in Hl.
  destruct (decide (k = k')) as [-> | Hne]; [by rewrite lookup_loc_cons |].
  destruct (decide (key_lt k k')); rewrite !lookup_loc_cons; cbn [fst snd iv_group_push ins loc] in *.
  - by rewrite decide_False.
  - case_decide; [done |]. by apply IH.
Qed.

Lemma ins_entry_elem k hi (v : V) fresh xs x i : StronglySorted entry_lt xs → x ∈ ins_entry k hi v fresh xs → i ∈ ins x.2 →
  (i = mk_ins (k_pos k) hi v ∧ x.1 = k ∧ loc x.2 = handle_of k fresh xs) ∨
  ∃ x0, x0 ∈ xs ∧ i ∈ ins x0.2 ∧ x0.1 = x.1 ∧ loc x0.2 = loc x.2.
Proof.
  unfold handle_of. induction 1 as [|[k' g] xs Hs IH Hall]; cbn [ins_entry lookup_entry].
  { intros ->%list_elem_of_singleton Hi. cbn in Hi. apply list_elem_of_singleton in Hi as ->. by left. }
  destruct (decide (k = k')) as [<- | Hne]; [| destruct (decide (key_lt k k')) as [Hlt | Hnlt]].
  - intros [-> | Hx]%elem_of_cons Hi; [| right; exists x; set_solver].
    cbn in Hi. apply elem_of_app in Hi as [Hi | ->%list_elem_of_singleton]; [right; exists (k, g); set_solver | by left].
  - intros [-> | Hx]%elem_of_cons Hi; [| right; by exists x].
    cbn in Hi. apply list_elem_of_singleton in Hi as ->. left. rewrite lookup_entry_lt; [done |]. by eapply (pivot_lt (k', g)).
  - intros [-> | Hx]%elem_of_cons Hi; [right; exists (k', g); set_solver |].
    destruct (IH Hx Hi) as [? | (x0 & ? & ?)]; [by left |]. right. exists x0. set_solver.
Qed.

Lemma ins_entry_ins k hi (v : V) fresh xs :
  (ins_entry k hi v fresh xs ≫= λ x, ins x.2) ≡ₚ mk_ins (k_pos k) hi v :: (xs ≫= λ x, ins x.2).
Proof.
  induction xs as [|[k' g] xs IH]; [done |]. cbn [ins_entry]. case_decide; [| case_decide]; cbn.
  - rewrite <- (assoc_L (++)). cbn. by rewrite Permutation_middle.
  - done.
  - change (mbind (λ x, ins x.2) (ins_entry k hi v fresh xs)) with (ins_entry k hi v fresh xs ≫= λ x, ins x.2).
    rewrite IH. by rewrite Permutation_middle.
Qed.
End List.

(** What a run shares the memory with: captures of others, a table or none,
    earlier results. *)
Record surround := Surround { su_caps : heap; su_table : bool; su_live : list ctree }.

(** ** The memory *)

Section Memory.
Context (w : surround) (M : knowledge).
Implicit Types (m : mem) (h : heap) (T : list ctree).

Definition base_of m : positive → option Z := if su_table w then ent_pos m else λ _, None.
Definition kept_of m : list positive := if su_table w then kept (ents m) else [].

Record holds m h T : Prop := {
  hd_counted : counted h ((addr <$> T ++ su_live w) ++ kept_of m);
  hd_rep : Forall (rep (base_of m) h) (T ++ su_live w);
  hd_table : su_table w = true → table_ok M m h;
}.

Record mem_ok m T : Prop := {
  mo_heap : ∃ h, caps m = h ∪ su_caps w ∧ h ##ₘ su_caps w ∧ holds m h T;
  mo_fresh : ∀ a, is_Some (caps m !! a) → (a < next_cap m)%positive;
}.

(** Own captures with few references: none needs a second one without a table. *)
Definition refs_under m (n : Z) : Prop := ∀ a c, caps m !! a = Some c → su_caps w !! a = None → c_refs c < n.

Definition lean m : Prop := su_table w = false → refs_under m 2.
Definition modest m : Prop := refs_under m (2 ^ 31).

Lemma lean_modest m : su_table w = false → lean m → modest m.
Proof. intros Hw Hl a c Hc Ha. specialize (Hl Hw a c Hc Ha). lia. Qed.

(** Another memory with the same table. *)
Definition same_table m m' : Prop := ents m' = ents m ∧ next_ent m' = next_ent m ∧
  contents (tree m') = contents (tree m) ∧ (Inv (tree m) → Inv (tree m')).

Lemma same_table_with m cs : same_table m (with_caps m cs).
Proof. done. Qed.

Lemma same_ent_pos m m' : same_table m m' → ent_pos m' = ent_pos m.
Proof. intros (He & _ & Hc & _). unfold ent_pos. by rewrite He, Hc. Qed.

Lemma same_base m m' : same_table m m' → base_of m' = base_of m.
Proof. intros Hs. unfold base_of. by rewrite (same_ent_pos _ _ Hs). Qed.

Lemma same_kept m m' : same_table m m' → kept_of m' = kept_of m.
Proof. intros (He & _). unfold kept_of. by rewrite He. Qed.

Lemma table_change m m' h h' : su_table w = true → same_table m m' → table_ok M m h → (owned h (ents m) → owned h' (ents m)) →
  (∀ t, addr t ∈ kept_of m → rep (base_of m) h t → rep (base_of m) h' t) → table_ok M m' h'.
Proof.
  intros Hw Hs [H1 H2 H3 H4 H5] Ho Hr. pose proof Hs as (He & Hn & Hc & Hi). split; rewrite ?Hc, ?He, ?Hn; auto.
  intros x i Hx Hin. destruct (H4 x i Hx Hin) as (en & Hen & Hl & T & ex & HT & HrT & Hf). exists en. split; [done |]. split; [done |].
  exists T, ex. split; [done |]. split; [| done]. rewrite (same_ent_pos _ _ Hs). rewrite Forall_forall in HrT |- *. intros t Ht.
  unfold base_of, kept_of in Hr. rewrite Hw in Hr. apply Hr; [| by apply HrT]. eapply kept_elem; [exact Hen |].
  rewrite HT. by apply list_elem_of_fmap_2.
Qed.

Lemma holds_change m m' h h' T T' : same_table m m' → holds m h T →
  (counted h' ((addr <$> T' ++ su_live w) ++ kept_of m) ∧ (su_table w = true → owned h (ents m) → owned h' (ents m))) →
  Forall (rep (base_of m) h') T' →
  (∀ t, addr t ∈ (addr <$> su_live w) ++ kept_of m → rep (base_of m) h t → rep (base_of m) h' t) → holds m' h' T'.
Proof.
  intros Hs [_ Hr Ht] [Hc Ho] HT Hstay. apply Forall_app in Hr as [_ Hr].
  split; rewrite ?(same_base _ _ Hs), ?(same_kept _ _ Hs); [done | |].
  - apply Forall_app. split; [done |]. rewrite Forall_forall in Hr |- *. intros t Hin. apply Hstay; [| by apply Hr].
    apply elem_of_app. left. by apply list_elem_of_fmap_2.
  - intros Hw. eapply table_change; [done | exact Hs | by apply Ht | by apply Ho |]. intros t Hin. apply Hstay, elem_of_app. by right.
Qed.

Lemma mem_ok_perm m T T' : mem_ok m T → T ≡ₚ T' → mem_ok m T'.
Proof.
  intros [(h & Hm & Hd & Hh) Hf] Hp. split; [| done]. exists h. split_and!; [done.. |].
  pose proof Hh as [Hc Hr _]. apply (holds_change m m h h T); [done | done | | | done].
  - split; [by rewrite <- Hp | done].
  - rewrite <- Hp. by apply Forall_app in Hr as [? _].
Qed.

(** More may be known. *)
Lemma table_learn M' m h : (∀ id q ex r, M id q ex r → M' id q ex r) → table_ok M m h → table_ok M' m h.
Proof.
  intros HM [H1 H2 H3 H4 H5]. split; try done. intros x i Hx Hi. destruct (H4 x i Hx Hi) as (en & He & Hl & T & ex & H6 & H7 & H8 & H9).
  exists en. split; [done |]. split; [done |]. exists T, ex. split_and!; auto.
Qed.

(** ** References *)

(** Captures that something else keeps alive too. *)
Definition at_hand m T U : Prop := (∃ rest, (addr <$> T ++ su_live w) ++ kept_of m ≡ₚ (addr <$> U) ++ rest) ∧
  ∀ h, caps m = h ∪ su_caps w → h ##ₘ su_caps w → holds m h T → Forall (rep (base_of m) h) U.

Lemma at_hand_app m T1 T2 : at_hand m (T1 ++ T2) T1.
Proof.
  split.
  - exists ((addr <$> T2 ++ su_live w) ++ kept_of m). by rewrite <- !(assoc_L (++)), fmap_app, <- (assoc_L (++)).
  - intros h _ _ [_ Hr _]. by apply Forall_app in Hr as [[Hr _]%Forall_app _].
Qed.

(** Their counts, and that they are no others'. *)
Lemma at_hand_own m T U a : mem_ok m T → at_hand m T U → a ∈ addr <$> U →
  ∃ c, caps m !! a = Some c ∧ su_caps w !! a = None ∧ 0 < c_refs c ∧ occ a (addr <$> U) <= c_refs c.
Proof.
  intros [(h & Hm & Hd & [Hc _ _]) _] [(rest & Hp) _] Ha. rewrite Hp in Hc.
  destruct (counted_root _ _ a Hc) as (c & Hh & Hpos); [by apply elem_of_app; left |]. exists c.
  split_and!; [rewrite Hm; by apply lookup_union_Some_l | by eapply map_disjoint_Some_l | lia |].
  destruct (ct_refs _ _ Hc a c Hh) as [-> _]. rewrite !occ_app. pose proof (occ_nonneg a rest). pose proof (occ_nonneg a (held h)). lia.
Qed.

Lemma at_hand_room m T U : mem_ok m T → at_hand m T U → modest m → room (caps m) (addr <$> U).
Proof.
  intros Hok HU Hm a Ha. destruct (at_hand_own _ _ _ _ Hok HU Ha) as (c & Hc & Hn & Hp & Ho). exists c.
  specialize (Hm a c Hc Hn). split_and!; [done.. |]. lia.
Qed.

Lemma lean_shrinks m m' h h' : lean m → caps m = h ∪ su_caps w → caps m' = h' ∪ su_caps w → shrinks h h' → lean m'.
Proof.
  intros Hl Hm Hm' Hs Hw a c Hc Ha. rewrite Hm', lookup_union_l in Hc by done. destruct (Hs a c Hc) as (c1 & Hc1 & _ & Hle).
  specialize (Hl Hw a c1 ltac:(rewrite Hm; by apply lookup_union_Some_l) Ha). lia.
Qed.

(** Dropping the references of a list. *)
Lemma free_list m T1 T2 : mem_ok m (T1 ++ T2) →
  ∃ m', for_each memo_capture_free (addr <$> T1) m = Ok m' ∧ mem_ok m' T2 ∧ same_table m m' ∧ (lean m → lean m').
Proof.
  intros [(h & Hm & Hd & Hh) Hf]. pose proof Hh as [Hc Hr _]. rewrite <- (assoc_L (++)), fmap_app, <- (assoc_L (++)) in Hc.
  destruct (free_refs _ m h _ _ Hm Hd Hc) as (h' & He & Hc' & Hs). exists (with_caps m (h' ∪ su_caps w)).
  split; [done |]. split; [split | split; [done |]].
  - exists h'. split; [done |]. split; [by eapply shrinks_disjoint |]. apply (holds_change m _ h _ (T1 ++ T2)); [done.. | | |].
    + split; [done |]. intros Hw. unfold kept_of in Hc'. rewrite Hw in Hc'. by apply (owned_shrinks _ _ _ _ Hs Hc').
    + apply Forall_app in Hr as [[_ Hr]%Forall_app _]. rewrite Forall_forall in Hr |- *. intros t Ht.
      eapply rep_shrinks; [done.. | | by apply Hr]. apply elem_of_app. left. apply list_elem_of_fmap_2, elem_of_app. by left.
    + intros t Ht. eapply rep_shrinks; [done.. |]. rewrite fmap_app. set_solver.
  - cbn. intros a [c Hc2]. apply Hf. rewrite Hm. apply lookup_union_is_Some.
    apply lookup_union_Some_raw in Hc2 as [Hc2 | [_ Hc2]]; [left | right; by exists c].
    destruct (Hs _ _ Hc2) as (c1 & Hc1 & _). by exists c1.
  - intros Hl. by eapply lean_shrinks.
Qed.

(** References for a further list of them. *)
Lemma mem_ok_bump m T U : mem_ok m T → at_hand m T U → modest m → mem_ok (with_caps m (bump (caps m) (addr <$> U))) (U ++ T).
Proof.
  intros Hok HU Hmo. pose proof (at_hand_room _ _ _ Hok HU Hmo) as Hroom. pose proof Hok as [(h & Hm & Hd & Hh) Hf]. pose proof Hh as [Hc Hr _].
  assert (∀ a, a ∈ addr <$> U → ∃ c, h !! a = Some c ∧ su_caps w !! a = None) as Hin.
  { intros a Ha. destruct (at_hand_own _ _ _ _ Hok HU Ha) as (c & Hcc & Hn & _). exists c. rewrite Hm, lookup_union_l in Hcc by done. done. }
  split; [exists (bump h (addr <$> U)); split; [| split] |].
  - cbn. rewrite Hm. apply map_eq. intros a. rewrite lookup_bump, !lookup_union, lookup_bump.
    destruct (h !! a) as [c|] eqn:Ha; [cbn; by destruct (su_caps w !! a) |]. rewrite (occ_none a (addr <$> U)).
    + cbn. destruct (su_caps w !! a) as [c|]; [| done]. cbn. by rewrite Z.add_0_r, with_refs_same.
    + intros Hx. destruct (Hin _ Hx) as (c & Hcx & _). congruence.
  - apply map_disjoint_spec. intros a c c' Ha Hb. rewrite lookup_bump in Ha. apply fmap_Some in Ha as (c2 & Hc2 & _).
    by eapply (map_disjoint_spec h (su_caps w)).
  - apply (holds_change m _ h _ T); [done.. | | |].
    + assert (counted (bump h (addr <$> U)) ((addr <$> U) ++ (addr <$> T ++ su_live w) ++ kept_of m)) as Hc'.
      { apply counted_bump; [done |]. intros a Ha. destruct (Hroom a Ha) as (c & Hcc & Hp & Hb).
        destruct (Hin a Ha) as (c2 & Hc2 & Hn). rewrite Hm, lookup_union_l in Hcc by done. by exists c. }
      split; [by rewrite <- (assoc_L (++)), fmap_app, <- (assoc_L (++)) |]. intros Hw. unfold kept_of in Hc'. rewrite Hw in Hc'.
      rewrite (assoc_L (++)) in Hc'. by apply (owned_bump _ _ _ _ Hc').
    + destruct HU as [_ HU]. specialize (HU h Hm Hd Hh). apply Forall_app in Hr as [Hr _].
      apply Forall_app; split; eapply Forall_impl; try done; intros; by apply rep_bump.
    + intros t _. apply rep_bump.
  - cbn. intros a [c Hc2]. rewrite lookup_bump in Hc2. apply fmap_Some in Hc2 as (c1 & Hc1 & _). apply Hf. by exists c1.
Qed.

(** ** New captures *)

Definition taken m id ty off len T : mem :=
  with_caps (new_cap m (leaf id ty off len)).2 (<[next_cap m := mk_capture id ty off len None 1 (addr <$> T)]> (caps m)).

Lemma next_cap_free m T : mem_ok m T → caps m !! next_cap m = None.
Proof.
  intros [_ Hf]. destruct (caps m !! next_cap m) eqn:E; [| done]. specialize (Hf (next_cap m) ltac:(by eexists)). lia.
Qed.

(** A new capture takes over references. *)
Lemma mem_ok_taken m id ty off len T1 T2 : mem_ok m (T1 ++ T2) →
  mem_ok (taken m id ty off len T1) (CT (next_cap m) id ty off len T1 :: T2).
Proof.
  intros Hok. pose proof (next_cap_free _ _ Hok) as Hn. destruct Hok as [(h & Hm & Hd & Hh) Hf]. pose proof Hh as [Hc Hr _].
  set (d := next_cap m) in *. set (c := mk_capture id ty off len None 1 (addr <$> T1)).
  rewrite Hm in Hn. apply lookup_union_None in Hn as [Hn1 Hn2]. rewrite <- (assoc_L (++)), fmap_app, <- (assoc_L (++)) in Hc. split.
  - exists (<[d := c]> h). split; [unfold taken; cbn; by rewrite Hm, insert_union_l |].
    split; [by apply map_disjoint_insert_l_2 |]. apply (holds_change m _ h _ (T1 ++ T2)); [done.. | | |].
    + split; [| by intros _; apply owned_insert]. cbn [fmap list_fmap addr app]. apply counted_adopt; [| done].
      intros a [ca Ha]. apply Hf. rewrite Hm. exists ca. by apply lookup_union_Some_l.
    + apply Forall_app in Hr as [[Hr1 Hr2]%Forall_app _].
      constructor; [apply rep_CT; split; [exists c, 0; split_and!; try done; [apply lookup_insert_eq | cbn; lia] |] |];
        eapply Forall_impl; try done; intros; by apply rep_insert.
    + intros t _. by apply rep_insert.
  - intros a. unfold taken. cbn. rewrite lookup_insert_is_Some. intros [<- | [_ Ha]]; [fold d; lia |]. specialize (Hf a Ha). fold d in Hf |- *. lia.
Qed.

Lemma bump_insert h d c l : d ∉ l → <[d := c]> (bump h l) = bump (<[d := c]> h) l.
Proof.
  intros Hd. apply map_eq. intros a. rewrite lookup_bump. destruct (decide (d = a)) as [<- | Hne].
  - rewrite !lookup_insert_eq. cbn. by rewrite occ_none, Z.add_0_r, with_refs_same.
  - by rewrite !lookup_insert_ne, lookup_bump by done.
Qed.

Lemma room_insert h d c l : h !! d = None → room h l → room (<[d := c]> h) l.
Proof.
  intros Hd Hr a Ha. destruct (Hr a Ha) as (ca & Hca & ?). exists ca. rewrite lookup_insert_ne; [done |]. intros ->. congruence.
Qed.

(** A new capture adopts captures that a list keeps, the list then drops them. *)
Lemma adopt m id ty off len T1 T2 : mem_ok m (T1 ++ T2) → modest m →
  ∃ m2 m3, for_each (memo_capture_add (next_cap m)) (addr <$> T1) (new_cap m (leaf id ty off len)).2 = Ok m2 ∧
    for_each memo_capture_free (addr <$> T1) m2 = Ok m3 ∧
    (mem_ok m2 (CT (next_cap m) id ty off len T1 :: T1 ++ T2) ∧ same_table m m2) ∧
    (mem_ok m3 (CT (next_cap m) id ty off len T1 :: T2) ∧ same_table m m3) ∧
    (∀ n, 1 < n → refs_under m n → refs_under m3 n) ∧ room (caps m3) [next_cap m].
Proof.
  intros Hok Hmo. pose proof (at_hand_room _ _ _ Hok (at_hand_app m T1 T2) Hmo) as Hr. pose proof (next_cap_free _ _ Hok) as Hn.
  assert (next_cap m ∉ addr <$> T1) as Hno by (intros (c & Hc & _)%Hr; congruence).
  exists (taken (with_caps m (bump (caps m) (addr <$> T1))) id ty off len T1), (taken m id ty off len T1). split_and!; try done.
  - by apply add_all.
  - rewrite (unref_all (caps (taken m id ty off len T1))); [done | by apply room_insert |]. unfold taken. cbn. by rewrite bump_insert.
  - apply (mem_ok_taken (with_caps m (bump (caps m) (addr <$> T1)))). apply mem_ok_bump; [done | apply at_hand_app | done].
  - by apply mem_ok_taken.
  - intros n Hlt Hu a c. unfold taken. cbn. intros [[<- <-] | [_ Hc]]%lookup_insert_Some Ha; [done |]. by apply (Hu a).
  - intros a ->%list_elem_of_singleton. eexists. unfold taken. cbn. rewrite lookup_insert_eq. split; [done |]. cbn.
    rewrite occ_cons, decide_True, occ_nil by done. lia.
Qed.

Lemma mem_ok_nil m : su_table w = false → su_live w = [] → mem_ok m [] → caps m = su_caps w.
Proof.
  intros Hw Hl [(h & Hm & _ & [Hc _ _]) _]. unfold kept_of in Hc. rewrite Hw, Hl in Hc. apply counted_nil in Hc as ->.
  by rewrite (left_id_L ∅ (∪)) in Hm.
Qed.

(** ** Reading *)

Lemma mem_ok_read m T t : mem_ok m T → t ∈ T → ∀ n, (height t <= n)%nat → read_trees m n (addr t) = Ok (trees (kids_of t)).
Proof.
  intros [(h & Hm & _ & [Hc Hr Ht]) _] Hin n Hn.
  apply (read_kids m (base_of m) h); [rewrite Hm; apply map_union_subseteq_l | | exact (ct_order _ _ Hc) | | done].
  - intros e p He. unfold base_of in He. destruct (su_table w) eqn:Hw; [| done]. specialize (Ht eq_refl).
    unfold ent_pos in He. unfold memo_entry_pos, get_ent. destruct (ents m !! e) as [en|]; [| done]. cbn_res.
    destruct (itree_loc_pos_spec (tree m) (e_pos en) p) as (t' & -> & _); [apply Ht | done |]. cbn_res. by eexists.
  - rewrite Forall_forall in Hr. apply Hr, elem_of_app. by left.
Qed.

Lemma mem_ok_reads m T t : mem_ok m T → t ∈ T → ∃ n0, ∀ n, (n0 <= n)%nat → read_trees m n (addr t) = Ok (trees (kids_of t)).
Proof. intros Hm Ht. exists (height t). by apply (mem_ok_read m T). Qed.

Lemma mem_ok_height m T t : mem_ok m T → t ∈ T → (height t <= depth m)%nat.
Proof.
  intros [(h & Hm & _ & [Hc Hr _]) _] Hin. rewrite Forall_forall in Hr.
  apply (height_depth (base_of m) h); [exact (ct_order _ _ Hc) | apply Hr, elem_of_app; by left |].
  rewrite Hm. apply map_union_subseteq_l.
Qed.

(** ** Looking up *)

(** What is found is a result, and its captures are at hand. *)
Lemma table_get m T id p : su_table w = true → mem_ok m T → ∃ o m', memo_table_get m id p = (o, m') ∧
  caps m' = caps m ∧ mem_ok m' T ∧
  (∀ e, o = Some e → ∃ en U, ents m' !! e = Some en ∧ e_captures en = addr <$> U ∧
     (∃ ex, M id p ex (result_of en p (trees U))) ∧ at_hand m' T U).
Proof.
  intros Hw [(h & Hm & Hd & Hh) Hf]. pose proof (hd_table _ _ _ Hh Hw) as Ht.
  destruct (itree_find_largest_spec (tree m) id p (to_inv _ _ _ Ht)) as (t' & Hfind & Hi & Hc & Hnl).
  exists (a_find (mk_key p id) (contents (tree m))), (with_tree m t'). unfold memo_table_get. rewrite Hfind. split; [done |]. split; [done |].
  assert (same_table m (with_tree m t')) as Hs by done. split.
  - split; [| done]. exists h. split_and!; [done.. |]. pose proof Hh as [Hcn Hr _].
    apply (holds_change m _ h h T); [done.. | | done]. by apply Forall_app in Hr as [? _].
  - intros e He. unfold a_find in He. destruct (lookup_entry _ _) as [[[|i g] l]|] eqn:Hg; try done. injection He as <-.
    apply lookup_entry_elem in Hg. destruct (longest_spec i g) as [Hin _].
    destruct (to_ents _ _ _ Ht _ _ Hg Hin) as (en & Hen & _ & U & ex & HU & HrU & _ & Hfd). exists en, U. split; [done |]. split; [done |]. split; [by exists ex |]. split.
    + rewrite (same_kept _ _ Hs). unfold kept_of. rewrite Hw. pose proof (kept_delete _ _ _ Hen) as Hk. rewrite HU in Hk.
      eexists. rewrite Hk, Permutation_app_comm, <- (assoc_L (++)). done.
    + intros h' Hm' Hd' _. rewrite (same_base _ _ Hs). unfold base_of. rewrite Hw.
      assert (h = h') as <- by exact (map_union_cancel_r _ _ _ Hd Hd' (eq_trans (eq_sym Hm) Hm')). done.
Qed.

(** ** Storing *)

(** The memory with a new entry. *)
Definition added_ent m t (en : memo_entry) : mem :=
  mk_mem (caps m) (<[next_ent m := en]> (ents m)) t (next_cap m) (Pos.succ (next_ent m)).

Lemma added_ent_pos m h t en k hi : table_ok M m h →
  contents t = ins_entry k hi (next_ent m) (next_loc (tree m)) (contents (tree m)) →
  ∀ e p, ent_pos m e = Some p → ent_pos (added_ent m t en) e = Some p.
Proof.
  intros Ht Hc e p. unfold ent_pos. cbn. destruct (ents m !! e) as [en0|] eqn:He; [| done].
  pose proof (to_fresh _ _ _ Ht e ltac:(by eexists)). rewrite lookup_insert_ne, He, Hc by lia.
  intros Hl. apply ins_entry_loc; [done |]. apply lookup_loc_locs in Hl.
  pose proof (ei_fresh _ _ (inv_entries _ (to_inv _ _ _ Ht))) as Hf. rewrite Forall_forall in Hf. specialize (Hf _ Hl). cbn in Hf. lia.
Qed.

Lemma table_add m h t en k hi T : table_ok M m h → Inv t →
  contents t = ins_entry k hi (next_ent m) (next_loc (tree m)) (contents (tree m)) →
  e_pos en = handle_of k (next_loc (tree m)) (contents (tree m)) → e_captures en = addr <$> T →
  Forall (rep (ent_pos m) h) T → (∃ ex, ex <= hi ∧ M (k_id k) (k_pos k) ex (result_of en (k_pos k) (trees T))) →
  table_ok M (added_ent m t en) h.
Proof.
  intros Ht Hi Hc He HT Hr (ex & Hex & Hf). pose proof (added_ent_pos m h t en k hi Ht Hc) as Hpos. destruct Ht as [H1 H2 H3 H4 H5].
  assert (ents m !! next_ent m = None) as Hn.
  { destruct (ents m !! next_ent m) eqn:E; [| done]. specialize (H2 (next_ent m) ltac:(by eexists)). lia. }
  assert (∀ T, Forall (rep (ent_pos m) h) T → Forall (rep (ent_pos (added_ent m t en)) h) T) as Hmono.
  { intros T' HT'. eapply Forall_impl; [exact HT' |]. intros t'. by apply rep_mono. }
  split; cbn [added_ent tree ents next_ent].
  - done.
  - intros e [<- | [_ He2]]%lookup_insert_is_Some; [lia |]. specialize (H2 e He2). lia.
  - rewrite Hc, ins_entry_ins, map_to_list_insert by done. cbn. by rewrite H3.
  - intros x i. rewrite Hc. intros Hx Hin.
    destruct (ins_entry_elem _ _ _ _ _ x i (ei_sorted _ _ (inv_entries _ H1)) Hx Hin) as [(-> & Hk & Hl) | (x0 & Hx0 & Hi0 & Hk & Hl)].
    + exists en. cbn [value high]. rewrite lookup_insert_eq. split; [done |]. split; [congruence |]. exists T, ex.
      split; [done |]. split; [by apply Hmono |]. by rewrite Hk.
    + destruct (H4 x0 i Hx0 Hi0) as (en0 & Hen & Hp & T0 & ex0 & HT0 & HrT & Hfd). exists en0.
      split; [rewrite lookup_insert_ne; [done | intros Heq; congruence] |].
      split; [congruence |]. exists T0, ex0. rewrite <- Hk. split; [done |]. split; [by apply Hmono | done].
  - intros a c e Ha Hce. destruct (H5 a c e Ha Hce) as (en0 & r & Hen & ?). exists en0, r. split; [| done].
    rewrite lookup_insert_ne; [done | intros Heq; congruence].
Qed.

(** The references of a list go to an entry. *)
Lemma mem_ok_added m U T t en k hi : su_table w = true → mem_ok m (U ++ T) → Inv t →
  contents t = ins_entry k hi (next_ent m) (next_loc (tree m)) (contents (tree m)) →
  e_pos en = handle_of k (next_loc (tree m)) (contents (tree m)) → e_captures en = addr <$> U →
  (∃ ex, ex <= hi ∧ M (k_id k) (k_pos k) ex (result_of en (k_pos k) (trees U))) → mem_ok (added_ent m t en) T.
Proof.
  intros Hw [(h & Hm & Hd & [Hcn Hr Ht]) Hf] Hi Hc He HU Hfd. specialize (Ht Hw). split; [| done]. exists h.
  assert (ents m !! next_ent m = None) as Hn.
  { destruct (ents m !! next_ent m) eqn:E; [| done]. pose proof (to_fresh _ _ _ Ht (next_ent m) ltac:(by eexists)). lia. }
  rewrite <- (assoc_L (++)), Forall_app in Hr. destruct Hr as [HrU Hr]. unfold kept_of, base_of in *. rewrite Hw in *.
  split_and!; [done.. |]. split.
  - unfold kept_of. rewrite Hw. cbn [added_ent ents]. rewrite kept_added, HU by done. rewrite <- (assoc_L (++)), fmap_app in Hcn.
    eapply counted_proper; [| exact Hcn]. solve_Permutation.
  - unfold base_of. rewrite Hw. eapply Forall_impl; [exact Hr |]. intros t'. apply rep_mono; [| done]. by eapply added_ent_pos.
  - intros _. eapply table_add; done.
Qed.

(** *** Offsets made relative to an entry *)

Definition moved (R : positive → Prop) (e : positive) (p : Z) h h' : Prop := ∀ a, match h !! a, h' !! a with
  | Some c, Some c' => c' = c ∨ c_ment c = None ∧ R a ∧ c' = with_owner c (c_off c - p) (Some e)
  | None, None => True
  | _, _ => False
  end.

Lemma moved_refl R e p h : moved R e p h h.
Proof. intros a. destruct (h !! a); [by left | done]. Qed.

Lemma moved_trans R e p h1 h2 h3 : moved R e p h1 h2 → moved R e p h2 h3 → moved R e p h1 h3.
Proof.
  intros H12 H23 a. specialize (H12 a). specialize (H23 a). destruct (h1 !! a), (h2 !! a), (h3 !! a); try done.
  destruct H12 as [-> | (Hn & Hr & ->)], H23 as [-> | (Hn2 & Hr2 & ->)]; (by left) || (by right) || done.
Qed.

Lemma moved_dom R e p h h' : moved R e p h h' → dom h' = dom h.
Proof.
  intros Hm. apply set_eq. intros a. rewrite !elem_of_dom. specialize (Hm a).
  destruct (h !! a), (h' !! a); try done; split; intros; by eexists.
Qed.

Lemma moved_nbelow R e p h h' a : moved R e p h h' → nbelow h' a = nbelow h a.
Proof. intros Hm. unfold nbelow. by rewrite (moved_dom _ _ _ _ _ Hm). Qed.

Lemma moved_one R e p h a c : h !! a = Some c → c_ment c = None → R a → moved R e p h (<[a := with_owner c (c_off c - p) (Some e)]> h).
Proof.
  intros Ha Hc HR b. destruct (decide (a = b)) as [<- | Hne]; [rewrite Ha, lookup_insert_eq; by right |].
  rewrite lookup_insert_ne by done. destruct (h !! b); [by left | done].
Qed.

Lemma moved_rep R e p E h h' rs t : moved R e p h h' → counted h' rs → E e = Some p → rep E h t → rep E h' t.
Proof.
  intros Hm Hc He Hr. apply (rep_stays E E h h'); try done.
  - intros a c' Hc' [c Ha]. exists c. specialize (Hm a). rewrite Ha, Hc' in Hm. destruct Hm as [-> | (Hn & _ & ->)].
    + split_and!; try done. intros b Hb. by exists b.
    + split_and!; try done. intros b Hb. rewrite Hn in Hb. injection Hb as <-. exists p. split; [done |]. cbn. lia.
  - intros a Ha. apply (ct_closed _ _ Hc). apply elem_of_app. by right.
  - destruct (rep_addr _ _ _ Hr) as (c & Ha & _). specialize (Hm (addr t)). rewrite Ha in Hm. by destruct (h' !! addr t).
Qed.

Lemma moved_back R e p h h' a c' : moved R e p h h' → h' !! a = Some c' → ∃ c, h !! a = Some c ∧ c_children c' = c_children c.
Proof. intros Hv Ha. specialize (Hv a). rewrite Ha in Hv. destruct (h !! a) as [c|]; [| done]. exists c. by destruct Hv as [-> | (_ & _ & ->)]. Qed.

Lemma moved_below R e p h h' a x : moved R e p h h' → below h a x ↔ below h' a x.
Proof.
  intros Hv. split; (induction 1 as [| a c b x Ha Hb _ IH]; [constructor |]).
  - assert (is_Some (h' !! a)) as [c' Hc'] by (rewrite <- elem_of_dom, (moved_dom _ _ _ _ _ Hv), elem_of_dom; by exists c).
    destruct (moved_back _ _ _ _ _ _ _ Hv Hc') as (c2 & Hc2 & E). simplify_eq. eapply below_child; [exact Hc' | by rewrite E | done].
  - destruct (moved_back _ _ _ _ _ _ _ Hv Ha) as (c2 & Hc2 & E). eapply below_child; [exact Hc2 | by rewrite <- E | done].
Qed.

Lemma same_table_trans m1 m2 m3 : same_table m1 m2 → same_table m2 m3 → same_table m1 m3.
Proof. intros (H1 & H2 & H3 & H4) (H5 & H6 & H7 & H8). split_and!; try congruence. auto. Qed.

Lemma moved_disjoint R e p h h' hf : moved R e p h h' → h ##ₘ hf → h' ##ₘ hf.
Proof. intros Hm. rewrite !map_disjoint_dom. by rewrite (moved_dom _ _ _ _ _ Hm). Qed.

(** Setting owners one after the other: the captures move, the table is looked at. *)
Lemma sets_each {A} R e p hf rs (f : A → mem → res mem) (ok : heap → A → Prop) l :
  (∀ h h' a, moved R e p h h' → ok h a → ok h' a) →
  (∀ a m h, ok h a → caps m = h ∪ hf → h ##ₘ hf → counted h rs → Inv (tree m) → ent_pos m e = Some p →
    ∃ h' m', f a m = Ok m' ∧ caps m' = h' ∪ hf ∧ next_cap m' = next_cap m ∧ same_table m m' ∧ counted h' rs ∧ moved R e p h h') →
  ∀ m h, Forall (ok h) l → caps m = h ∪ hf → h ##ₘ hf → counted h rs → Inv (tree m) → ent_pos m e = Some p →
    ∃ h' m', for_each f l m = Ok m' ∧ caps m' = h' ∪ hf ∧ next_cap m' = next_cap m ∧ same_table m m' ∧ counted h' rs ∧ moved R e p h h'.
Proof.
  intros Hok Hf. induction l as [|a l IH]; intros m h Hl Hm Hd Hc Hi He.
  { exists h, m. split_and!; try done. apply moved_refl. }
  apply Forall_cons in Hl as [Ha Hl]. destruct (Hf a m h Ha) as (h1 & m1 & E1 & Hm1 & Hn1 & Hs1 & Hc1 & Hv1); [done.. |].
  cbn [for_each]. rewrite E1. destruct (IH m1 h1) as (h2 & m2 & E2 & Hm2 & Hn2 & Hs2 & Hc2 & Hv2).
  - eapply Forall_impl; [exact Hl |]. intros b. by apply Hok.
  - done.
  - by eapply moved_disjoint.
  - done.
  - by apply Hs1.
  - by rewrite (same_ent_pos _ _ Hs1).
  - exists h2, m2. split_and!; [done | done | congruence | by eapply same_table_trans | done | by eapply moved_trans].
Qed.

Lemma entry_pos_ok m e p : Inv (tree m) → ent_pos m e = Some p →
  ∃ t, memo_entry_pos m e = Ok (p, with_tree m t) ∧ same_table m (with_tree m t).
Proof.
  unfold ent_pos, memo_entry_pos, get_ent. intros Hi He. destruct (ents m !! e) as [en|]; [| done]. cbn_res.
  destruct (itree_loc_pos_spec (tree m) (e_pos en) p Hi He) as (t & -> & Hi' & Hc & _). exists t. by split_and!.
Qed.

Lemma set_ment_ok R e p hf rs fuel : ∀ a m h, is_Some (h !! a) ∧ (nbelow h a <= fuel)%nat ∧ (∀ x, below h a x → R x) →
  caps m = h ∪ hf → h ##ₘ hf → counted h rs → Inv (tree m) → ent_pos m e = Some p →
  ∃ h' m', set_ment_fuel fuel e a m = Ok m' ∧ caps m' = h' ∪ hf ∧ next_cap m' = next_cap m ∧ same_table m m' ∧
    counted h' rs ∧ moved R e p h h'.
Proof.
  induction fuel as [|fuel IH]; intros a m h ([c Ha] & Hn & HR) Hm Hd Hc Hi He; [pose proof (nbelow_pos _ _ _ Ha); lia |].
  cbn [set_ment_fuel]. unfold get_cap. rewrite Hm. erewrite lookup_union_Some_l by exact Ha. cbn_res.
  destruct (c_ment c) as [o|] eqn:Hment; [exists h, m; split_and!; try done; apply moved_refl |].
  destruct (entry_pos_ok m e p Hi He) as (t & -> & Hs). cbn_res.
  set (c' := with_owner c (c_off c - p) (Some e)). pose proof (moved_one R e p h a c Ha Hment (HR a (below_refl h a))) as Hv1. fold c' in Hv1.
  destruct (sets_each R e p hf rs (set_ment_fuel fuel e) (λ h b, is_Some (h !! b) ∧ (nbelow h b <= fuel)%nat ∧ (∀ x, below h b x → R x)) (c_children c)
    ltac:(intros h1 h2 b Hv (Hb & Hnb & HRb); split_and!; [by rewrite <- !elem_of_dom, (moved_dom _ _ _ _ _ Hv) in * | by rewrite (moved_nbelow _ _ _ _ _ b Hv) |
      intros x Hx; by apply HRb, (moved_below _ _ _ _ _ _ _ Hv)])
    IH (set_cap (with_tree m t) a c') (<[a := c']> h)) as (h2 & m2 & E2 & Hm2 & Hn2 & Hs2 & Hc2 & Hv2).
  - apply Forall_forall. intros b Hb. split_and!.
    + rewrite lookup_insert_is_Some'. right. apply (ct_closed _ _ Hc), elem_of_app. right. apply elem_of_held. by exists a, c.
    + rewrite (moved_nbelow _ _ _ _ _ b Hv1). pose proof (nbelow_lt h a b c Ha (ct_order _ _ Hc a c b Ha Hb)). lia.
    + intros x Hx. apply HR. eapply below_child; [exact Ha | exact Hb |]. by apply (moved_below _ _ _ _ _ _ _ Hv1).
  - unfold set_cap. cbn. by rewrite Hm, insert_union_l.
  - by eapply moved_disjoint.
  - by apply counted_owner.
  - by apply Hs.
  - rewrite <- (same_ent_pos _ _ Hs) in He. exact He.
  - exists h2, m2. split_and!; [done | done | done | | done | by eapply moved_trans].
    eapply same_table_trans; [exact Hs | exact Hs2].
Qed.

(** Everything below an entry's captures can be given to it. *)
Lemma moved_owned e p h h' es en : es !! e = Some en → moved (λ x, ∃ r, r ∈ e_captures en ∧ below h r x) e p h h' →
  owned h es → owned h' es.
Proof.
  intros He Hv Ho a c' e' Ha He'. pose proof (Hv a) as Hva. rewrite Ha in Hva. destruct (h !! a) as [c|] eqn:Hc; [| done].
  destruct Hva as [-> | (_ & (r & Hr & Hb) & ->)].
  - destruct (Ho a c e' Hc He') as (en' & r & ? & ? & Hb). exists en', r. split_and!; [done.. |].
    by apply (moved_below _ _ _ _ _ _ _ Hv).
  - cbn in He'. injection He' as <-. exists en, r. split_and!; [done.. |]. by apply (moved_below _ _ _ _ _ _ _ Hv).
Qed.

(** The position of every entry of a table is known. *)
Lemma table_ent_pos m h e en : table_ok M m h → ents m !! e = Some en → ∃ p, ent_pos m e = Some p.
Proof.
  intros [H1 H2 H3 H4] He. assert (e ∈ value <$> (contents (tree m) ≫= λ x, ins x.2)) as Hin.
  { rewrite H3. apply list_elem_of_fmap. exists (e, en). split; [done | by apply elem_of_map_to_list]. }
  apply list_elem_of_fmap in Hin as (i & -> & (x & Hi & Hx)%list_elem_of_bind).
  destruct (H4 x i Hx Hi) as (en' & He' & Hl & _). exists (k_pos x.1). unfold ent_pos. rewrite He', Hl.
  apply lookup_loc_elem; [| done]. apply (ei_nodup _ _ (inv_entries _ H1)).
Qed.

Lemma entry_set_pos_ok m T e : su_table w = true → mem_ok m T → is_Some (ents m !! e) →
  ∃ m', entry_set_pos e m = Ok m' ∧ mem_ok m' T.
Proof.
  intros Hw [(h & Hm & Hd & Hh) Hf] [en He]. pose proof (hd_table _ _ _ Hh Hw) as Ht. pose proof Hh as [Hc Hr _].
  destruct (table_ent_pos m h e en Ht He) as (p & Hp). unfold entry_set_pos, get_ent. rewrite He. cbn_res.
  set (rs := _ ++ _) in Hc.
  set (R := λ x, ∃ r, r ∈ e_captures en ∧ below h r x).
  destruct (sets_each R e p (su_caps w) rs (capture_set_ment e) (λ h a, is_Some (h !! a) ∧ ∀ x, below h a x → R x) (e_captures en)
    ltac:(intros h1 h2 b Hv [Hb HR]; split; [by rewrite <- !elem_of_dom, (moved_dom _ _ _ _ _ Hv) in * |];
      intros x Hx; by apply HR, (moved_below _ _ _ _ _ _ _ Hv))) with (m := m) (h := h)
    as (h2 & m2 & E2 & Hm2 & Hn2 & Hs2 & Hc2 & Hv2); try done.
  - intros a m1 h1 [Ha HR] Hm1 Hd1. apply set_ment_ok; [| done..]. split_and!; [done | | done]. unfold depth.
    rewrite Hm1, map_size_disj_union by done. pose proof (nbelow_size h1 a). lia.
  - apply Forall_forall. intros a Ha. split; [| intros x Hx; by exists a]. apply (ct_closed _ _ Hc). apply elem_of_app. left. apply elem_of_app. right.
    unfold kept_of. rewrite Hw. by eapply kept_elem.
  - apply Ht.
  - exists m2. split; [done |].
    assert (∀ t, rep (base_of m) h t → rep (base_of m) h2 t) as Hrep.
    { intros t. eapply moved_rep; [exact Hv2 | exact Hc2 |]. unfold base_of. by rewrite Hw. }
    split.
    + exists h2. split; [done |]. split; [by eapply moved_disjoint |]. apply (holds_change m _ h _ T); [done.. | | | by auto].
      { split; [done | intros _]. by eapply moved_owned. }
      apply Forall_app in Hr as [Hr _]. eapply Forall_impl; [exact Hr | done].
    + intros a. rewrite Hm2, Hn2, lookup_union_is_Some, <- elem_of_dom, (moved_dom _ _ _ _ _ Hv2), elem_of_dom, <- lookup_union_is_Some, <- Hm.
      apply Hf.
Qed.

(** Putting a result: it is dropped, or stored with the references of its list. *)
Lemma table_put m U T tbl id start len ex count : su_table w = true → mem_ok m (U ++ T) → 0 < ex →
  (∃ e, e <= start + ex ∧ M id start e (if len =? -1 then None else Some (start + len, trees U))) →
  ∃ m', memo_table_put tbl id start len ex count (addr <$> U) m = Ok m' ∧ mem_ok m' T.
Proof.
  intros Hw Hok Hex (e0 & He0 & Hfd). unfold memo_table_put. destruct (_ || _).
  { destruct (free_list _ _ _ Hok) as (m' & Hfree & Hok' & _). by exists m'. }
  assert (0 < (if ex <? len then len else ex)) as Hpos by (case_zb; lia). set (ex' := if ex <? len then len else ex) in *.
  pose proof Hok as [(h & Hm & Hd & Hh) Hf]. pose proof (hd_table _ _ _ Hh Hw) as Ht.
  destruct (itree_add_spec (tree m) id start (start + ex') (next_ent m) (to_inv _ _ _ Ht) ltac:(lia)) as (t & Hadd & Hi & Hc & _).
  rewrite Hadd. cbn_res. set (en := mk_entry len ex' count (addr <$> U) _).
  assert ((∃ ex, ex <= start + ex' ∧ M id start ex (result_of en start (trees U))) → mem_ok (added_ent m t en) T) as Hok' by exact (mem_ok_added m U T t en (mk_key start id) (start + ex') Hw Hok Hi Hc eq_refl eq_refl).
  specialize (Hok' ltac:(exists e0; split; [subst ex'; case_zb; lia | exact Hfd])).
  destruct (entry_set_pos_ok _ T (next_ent m) Hw Hok') as (m' & Hset & Hm'); [cbn; by rewrite lookup_insert_eq |].
  by exists m'.
Qed.
End Memory.

Lemma mem_ok_learn w M M' m T : (∀ id q ex r, M id q ex r → M' id q ex r) → mem_ok w M m T → mem_ok w M' m T.
Proof.
  intros HM [(h & Hm & Hd & [Hc Hr Ht]) Hf]. split; [| done]. exists h. split_and!; [done | done |]. split; [done | done |].
  intros Hw. by eapply table_learn, Ht.
Qed.
