(* ===== verification/Frozen.v ===== *)
(** * Frozen: a windowed run leaves the memo table alone

    A windowed [vm_exec] evicts the entries that overlap the window and stores
    none.  Here: from the eviction on, no instruction changes the entries or what
    the tree contains -- a lookup only applies pending shifts.  [carried] is that
    invariant for whatever a function hands on, and [post] a partial-correctness
    predicate with one rule per operation. *)
From S2P Require Import Prelude Charset Input Code ITree ITreeSpec Memo Stack Vm.

(** If the function returns, what it returns is [Q]. *)
Definition post {A} (Q : A → Prop) (r : res A) : Prop := match r with Ok a => Q a | _ => True end.

Lemma post_bind {A B} (Q : A → Prop) (R : B → Prop) (r : res A) (f : A → res B) :
  post Q r → (∀ a, Q a → post R (f a)) → post R (r ≫= f).
Proof. destruct r; cbn; auto. Qed.

Lemma post_ret {A} (Q : A → Prop) (a : A) : Q a → post Q (mret a).
Proof. done. Qed.

Lemma post_any {A} (r : res A) : post (λ _, True) r.
Proof. by destruct r. Qed.

Lemma post_for_each {A S} (Q : S → Prop) (f : A → S → res S) l s :
  (∀ x s, Q s → post Q (f x s)) → Q s → post Q (for_each f l s).
Proof.
  intros Hf. revert s. induction l as [|x l IH]; intros s Hs; [done |]. cbn [for_each].
  specialize (Hf x s Hs). destruct (f x s); [by apply IH | done..].
Qed.

(** What a value says about the memory in it. *)
Class Carries (P : mem → Prop) (A : Type) := carried : A → Prop.
Arguments carried P {A _} a : assert.

Section Instances.
Context (P : mem → Prop).
#[export] Instance carries_mem : Carries P mem := P.
#[export] Instance carries_vm : Carries P vm := λ v, P (mm v).
#[export] Instance carries_next : Carries P next := λ n, match n with Go v | Failed v | Stop v _ => P (mm v) end.
#[export] Instance carries_pair {A B} `{Carries P A, Carries P B} : Carries P (A * B) := λ x, carried P x.1 ∧ carried P x.2.
#[export] Instance carries_sum {A B} `{Carries P A, Carries P B} : Carries P (A + B) :=
  λ x, match x with inl a => carried P a | inr b => carried P b end.
#[export] Instance carries_option {A} `{Carries P A} : Carries P (option A) := λ o, match o with Some a => carried P a | None => True end.
#[export] Instance carries_nothing {A} : Carries P A | 100 := λ _, True.
End Instances.

Section Runs.
Context (P : mem → Prop) (x : ctx).
Context (P_caps : ∀ m cs nc, P m → P (mk_mem cs (ents m) (tree m) nc (next_ent m))).
Context (P_get : ∀ m id p, P m → P (memo_table_get m id p).2).
Context (Hwin : windowed x = true).
Notation kept := (carried P).
Notation keeps r := (post (carried P) r).

(** The code between the calls: binds, returns and case distinctions. *)
Ltac carry :=
  repeat match goal with
  | H : carried _ (_, _) |- _ => destruct H; cbn [fst snd] in *
  | H : carried _ (Some ?y) |- _ => change (kept y) in H
  | |- keeps (_ ≫= _) => eapply (post_bind kept); [| intros ? ?]
  | |- keeps (mret _) => apply post_ret
  | |- keeps (Ok _) => apply post_ret
  | |- keeps (Abort _) => exact I
  | |- keeps Undef => exact I
  | |- keeps Fuel => exact I
  | |- keeps (match ?y with _ => _ end) => destruct y
  | |- keeps (let '_ := ?y in _) => destruct y
  | |- kept (_, _) => split; cbn [fst snd]
  | |- kept (Some ?y) => change (kept y)
  | |- kept (inl ?y) => change (kept y)
  | |- kept (inr ?y) => change (kept y)
  | |- kept (if ?c then _ else _) => destruct c
  | |- kept _ => first [exact I | assumption | apply P_caps; assumption]
  | |- keeps _ => first [exact (post_any _) | solve [eauto with frozen]]
  end.

Lemma capture_ref_keeps a m : P m → keeps (memo_capture_ref a m).
Proof. intros Hm. unfold memo_capture_ref, set_cap. carry. Qed.

Lemma refs_keep l m : P m → keeps (for_each memo_capture_ref l m).
Proof. apply post_for_each. exact capture_ref_keeps. Qed.

Lemma capture_free_keeps a m : P m → keeps (memo_capture_free a m).
Proof.
  unfold memo_capture_free. generalize (depth m) as fuel. intros fuel. revert a m. induction fuel as [|fuel IH]; intros a m Hm; [done |].
  cbn [memo_capture_free_fuel]. unfold set_cap. carry. apply post_for_each; [exact IH | carry].
Qed.

Lemma frees_keep l m : P m → keeps (for_each memo_capture_free l m).
Proof. apply post_for_each. exact capture_free_keeps. Qed.

Lemma capture_adds_keep d l m : P m → keeps (for_each (memo_capture_add d) l m).
Proof.
  apply post_for_each. intros a m' Hm. unfold memo_capture_add, set_cap. carry. apply capture_ref_keeps. by apply P_caps.
Qed.

Lemma clear_keeps e m : P m → keeps (entry_clear_capt e m).
Proof. apply frees_keep. Qed.

Local Hint Resolve refs_keep capture_free_keeps frees_keep capture_adds_keep clear_keeps : frozen.

(** *** The stack *)

Lemma add_refs_keeps l cs m : P m → keeps (add_refs l cs m).
Proof. intros Hm. unfold add_refs. carry. Qed.

Lemma copy_keeps cs m : P m → keeps (capt_copy_ref cs m).
Proof. apply add_refs_keeps. Qed.

Local Hint Resolve add_refs_keeps copy_keeps : frozen.

Lemma stack_add_keeps s cs m : P m → keeps (stack_add_capt s cs m).
Proof. intros Hm. unfold stack_add_capt, entry_add_capt. carry. Qed.

Local Hint Resolve stack_add_keeps : frozen.

Lemma pop_keeps s b m : P m → keeps (stack_pop s b m).
Proof. intros Hm. unfold stack_pop. destruct (entries s) as [|e es]; [exact I |]. carry. Qed.

Local Hint Resolve pop_keeps : frozen.

Lemma pop_clear_keeps msg s b m : P m → keeps (pop_clear msg s b m).
Proof. intros Hm. unfold pop_clear. carry. Qed.

Lemma destroy_keeps s m : P m → keeps (stack_destroy s m).
Proof. intros Hm. unfold stack_destroy. carry. apply post_for_each; [exact clear_keeps | done]. Qed.

Local Hint Resolve pop_clear_keeps destroy_keeps : frozen.

(** *** Instructions *)

(** A windowed run stores nothing. *)
Lemma memoize_keeps v id p len count cs : kept v → keeps (memoize x v id p len count cs).
Proof. intros Hv. unfold memoize. rewrite Hwin. carry. Qed.

Lemma input_peek_keeps i : keeps (input_peek i).
Proof. destruct (input_peek i) as [[[c|] i'] | | |]; by repeat split. Qed.

Local Hint Resolve input_peek_keeps : frozen.

Lemma peek_keeps v : kept v → keeps (peek v).
Proof. intros Hv. unfold peek. carry. Qed.

Lemma give_keeps v s c m : P m → keeps (give v s c m).
Proof. intros Hm. unfold give. carry. Qed.

Lemma add_each_keeps v cs : kept v → keeps (add_each v cs).
Proof. apply post_for_each. intros c v' Hv. carry. Qed.

Lemma lookup_memo_keeps i v : kept v → kept (lookup_memo x i v).
Proof.
  intros Hv. unfold lookup_memo. destruct (memtbl x); [| by split]. pose proof (P_get (mm v) (b i) (pos v) Hv) as Hg.
  destruct (memo_table_get _ _ _) as [o m']. split; [by destruct o | done].
Qed.

Local Hint Resolve memoize_keeps peek_keeps give_keeps add_each_keeps : frozen.

Lemma peek_test_keeps v t : kept v → keeps (peek_test v t).
Proof. intros Hv. unfold peek_test. carry. Qed.

Lemma advance_keeps v n : kept v → kept (advance v n).
Proof. intros Hv. unfold advance. by destruct (input_advance _ _). Qed.

Local Hint Resolve peek_test_keeps : frozen.

(** An instruction's own steps on the reader and the table. *)
Ltac carry_step :=
  repeat first
    [ match goal with
      | |- context [advance ?v ?n] =>
          let H := fresh in assert (kept (advance v n)) as H by (apply advance_keeps; carry); destruct (advance v n)
      | |- context [lookup_memo x ?i ?v] =>
          let H := fresh in assert (kept (lookup_memo x i v)) as H by (apply lookup_memo_keeps; carry); destruct (lookup_memo x i v)
      end
    | progress carry ].

Lemma match_keeps v t : kept v → keeps (exec_match v t).
Proof. intros Hv. unfold exec_match, go. carry_step. Qed.

Lemma test_keeps v t k c : kept v → keeps (exec_test v t k c).
Proof. intros Hv. unfold exec_test, go, jump. carry_step. Qed.

Lemma tree_close_keeps fuel id s m : P m → keeps (tree_close fuel id s m).
Proof.
  revert s m. induction fuel as [|fuel IH]; intros s m Hm; cbn [tree_close]; carry_step.
Qed.

Lemma pop_merged_keeps n s m : P m → keeps (pop_merged n s m).
Proof. revert s m. induction n as [|n IH]; intros s m Hm; cbn [pop_merged]; carry_step. Qed.

Local Hint Resolve match_keeps test_keeps tree_close_keeps pop_merged_keeps : frozen.

Lemma merge_keeps seen accum v : kept v → keeps (tree_merge x seen accum v).
Proof. intros Hv. unfold tree_merge. rewrite Hwin. carry_step. Qed.

Local Hint Resolve merge_keeps : frozen.

Lemma tree_loop_keeps fuel seen accum v : kept v → keeps (memo_tree_loop fuel x seen accum v).
Proof.
  revert seen accum v. induction fuel as [|fuel IH]; intros seen accum v Hv; [done |]. cbn [memo_tree_loop].
  carry_step.
Qed.

Local Hint Resolve tree_loop_keeps : frozen.

Ltac unfold_insn :=
  unfold exec_char, exec_set, exec_any, exec_span, exec_empty, exec_test_char, exec_test_char_nochoice, exec_test_set,
    exec_test_set_nochoice, exec_test_any, exec_jump, exec_choice, exec_call, exec_commit, exec_return, exec_partial_commit,
    exec_back_commit, exec_fail_twice, exec_error, exec_capture_begin, exec_capture_late, exec_capture_full, exec_capture_end,
    exec_memo_open, exec_memo_close, exec_memo_tree_open, exec_memo_tree_close, exec_memo_tree_insert, exec_memo_tree,
    exec_check_begin, exec_check_end, go, jump, note_range, memo_capture_node, new_cap.

Lemma insn_keeps i v : kept v → keeps (exec_insn x i v).
Proof. intros Hv. unfold exec_insn. destruct (Code.op i); unfold_insn; rewrite ?Hwin; carry_step. Qed.

Lemma unwind_keeps fuel v : kept v → keeps (fail_unwind fuel x v).
Proof. revert v. induction fuel as [|fuel IH]; intros v Hv; cbn [fail_unwind]; carry_step. Qed.

Local Hint Resolve insn_keeps unwind_keeps : frozen.

Lemma step_keeps v : kept v → keeps (step x v).
Proof. intros Hv. unfold step. carry. Qed.

Lemma run_keeps fuel v : kept v → keeps (run fuel x v).
Proof.
  revert v. induction fuel as [|fuel IH]; intros v Hv; [done |]. cbn [run]. apply (post_bind kept); [by apply step_keeps |].
  intros [v' | r] Hv'; [by apply IH | exact Hv'].
Qed.

Lemma finish_keeps v o : kept v → keeps (finish x v o).
Proof. intros Hv. unfold finish, memo_capture_dummy, new_cap. rewrite Hwin. carry. Qed.
End Runs.

(** ** The table *)

(** The entries, and what the tree contains. *)
Record frozen (m0 m : mem) : Prop := {
  fz_inv : Inv (tree m);
  fz_contents : contents (tree m) = contents (tree m0);
  fz_ents : ents m = ents m0;
}.

Lemma frozen_refl m : Inv (tree m) → frozen m m.
Proof. by split. Qed.

Lemma frozen_get m0 m id p : frozen m0 m → frozen m0 (memo_table_get m id p).2.
Proof.
  intros [H1 H2 H3]. unfold memo_table_get. destruct (itree_find_largest_spec (tree m) id p H1) as (t & -> & Hi & Hc & _).
  split; cbn; [done | by rewrite Hc | done].
Qed.

(** What [vm_exec] does in a window, after the eviction. *)
Lemma windowed_frozen fuel x m v r m' : windowed x = true → Inv (tree m) → mm v = m →
  ('(v, o) ← run fuel x v; finish x v o) = Ok (r, m') → frozen m m'.
Proof.
  intros Hwin Hi <- H. set (P := frozen (mm v)).
  assert (∀ m1 cs nc, P m1 → P (mk_mem cs (ents m1) (tree m1) nc (next_ent m1))) as Hcaps by (intros m1 cs nc [? ? ?]; by split).
  assert (post (carried P) ('(v, o) ← run fuel x v; finish x v o)) as Hp.
  { eapply (post_bind (carried P)); [apply run_keeps; [done | apply frozen_get | done | by apply frozen_refl] |].
    intros [v1 o] [Hv1 _]. by apply finish_keeps. }
  rewrite H in Hp. by destruct Hp.
Qed.
