(* ===== verification/Evict.v ===== *)
(** * Evict: entries leave the table, captures stay

    Freeing an entry makes what it owned absolute, drops its references and
    leaves every capture that something else holds what it was.  Freeing the
    table does that to all entries; an edit to those that overlap it, and moves
    the entries behind it with what they own.  [survives] says what of the
    knowledge about the entries kept must still hold after the edit. *)
From S2P Require Import Prelude Charset Input Code ITree ITreeLazy ITreeOps ITreeDel ITreeSpec ITreeThms Memo Stack Vm Pattern Sem Machine CaptureHeap CaptureTree Owners MemoHeap.

(** ** One entry *)

(** Positions of the entries but some. *)
Definition without (l : list positive) (E : positive → option Z) (x : positive) : option Z :=
  if decide (x ∈ l) then None else E x.

(** The table part of a memory in which entries [l] of [m] are gone. *)
Record left_by (l : list positive) (m m' : mem) : Prop := {
  lb_ents : ∀ x, ents m' !! x = if decide (x ∈ l) then None else ents m !! x;
  lb_tree : tree m' = tree m;
  lb_next : next_cap m' = next_cap m;
  lb_next_ent : next_ent m' = next_ent m;
}.

Section Evict.
Context (hf : heap) (rs : list positive).

Record keeps (m : mem) (h : heap) : Prop := {
  kp_caps : caps m = h ∪ hf;
  kp_disjoint : h ##ₘ hf;
  kp_counted : counted h (rs ++ kept (ents m));
  kp_owned : owned h (ents m);
}.

(** Captures that stay represented, with positions [E] before and [E'] after. *)
Definition stay (E E' : positive → option Z) (h h' : heap) (l : list positive) : Prop :=
  ∀ t, addr t ∈ l → rep E h t → rep E' h' t.

Lemma free_entry_ok E ev m h en : keeps m h → ents m !! value (ev_ins ev) = Some en → E (value (ev_ins ev)) = Some (ev_pos ev) →
  ∃ h' m', table_free_entry ev m = Ok m' ∧ keeps m' h' ∧ left_by [value (ev_ins ev)] m m' ∧ dom h' ⊆ dom h ∧
    stay E (without [value (ev_ins ev)] E) h h' (rs ++ kept (ents m')).
Proof.
  set (e := value (ev_ins ev)). intros [Hm Hd Hc Ho] He Hpos. unfold table_free_entry, get_ent. fold e. rewrite He. cbn_res.
  destruct (absolutize_all e (ev_pos ev) hf (rs ++ kept (ents m)) m h (e_captures en)) as (h1 & E1 & Hc1 & Hv & Hfr); [| done.. |].
  { intros r Hr. apply (ct_closed _ _ Hc). rewrite !elem_of_app. left. right. by eapply kept_elem. }
  rewrite E1. cbn_res.
  assert (counted h1 (e_captures en ++ rs ++ kept (delete e (ents m)))) as Hc1'.
  { eapply counted_proper; [| exact Hc1]. rewrite (kept_delete (ents m) e en) by done. solve_Permutation. }
  assert (caps (with_caps m (h1 ∪ hf)) = h1 ∪ hf) as Hm1 by done.
  destruct (free_refs _ (with_caps m (h1 ∪ hf)) h1 hf _ Hm1 (absd_disjoint _ _ _ _ _ Hv Hd) Hc1') as (h2 & E2 & Hc2 & Hs).
  rewrite E2. cbn_res. set (m' := mk_mem _ _ _ _ _).
  assert (∀ a c2, h2 !! a = Some c2 → ∃ c, h !! a = Some c ∧ c_children c2 = c_children c ∧ (c_ment c2 = c_ment c ∨ c_ment c2 = None)) as Hback.
  { intros a c2 (c1 & Ha1 & -> & _)%Hs. exact (absd_back _ _ _ _ _ _ Hv Ha1). }
  assert (∀ a c2, h2 !! a = Some c2 → c_ment c2 ≠ Some e) as Hne.
  { intros a c2 Ha2 Hce. destruct (Hback a c2 Ha2) as (c & Ha & _ & Hcm). apply Hs in Ha2 as (c1 & Ha1 & Heq & _).
    assert (c_ment c = Some e) as Hce0 by (destruct Hcm; congruence).
    destruct (Ho a c e Ha Hce0) as (en' & r & Hen' & Hr & Hb). simplify_eq. rewrite Forall_forall in Hfr.
    apply (Hfr r Hr a c1); [by apply (absd_below _ _ _ _ _ _ Hv) | done |]. rewrite Heq in Hce. done. }
  exists h2, m'. split; [done |]. split; [split | split; [split | split]].
  - done.
  - eapply shrinks_disjoint; [done |]. by eapply absd_disjoint.
  - done.
  - cbn. eapply owned_stays; [exact Hback | | | | exact Ho].
    + intros a Ha. apply (ct_closed _ _ Hc2), elem_of_app. by right.
    + intros x en' r Hx Hr. apply (ct_closed _ _ Hc2). rewrite !elem_of_app. left. right. by eapply kept_elem.
    + intros a c' x Ha Hx _. apply lookup_delete_ne. intros <-. by eapply Hne.
  - intros x. cbn. case_decide as Hx.
    + apply list_elem_of_singleton in Hx as ->. apply lookup_delete_eq.
    + apply lookup_delete_ne. intros <-. apply Hx. by left.
  - done.
  - done.
  - done.
  - rewrite <- (absd_dom _ _ _ _ Hv). intros a. rewrite !elem_of_dom. intros [c' (c & Hc' & _)%Hs]. by exists c.
  - intros t Ht Hr. cbn [m' ents] in Ht.
    assert (rep E h2 t) as Hr2 by (eapply rep_shrinks; [exact Hs | exact Hc2 | done |]; eapply absd_rep; done).
    eapply (rep_stays E _ h2 h2); [| | | exact Hr2].
    + intros a c Ha _. exists c. split_and!; [done.. |]. intros b Hb. exists b. split; [| done].
      destruct (c_ment c) as [x|] eqn:Hcm; [| done]. cbn in *. unfold without. rewrite decide_False; [done |].
      intros ->%list_elem_of_singleton. by eapply Hne.
    + intros a Ha. apply (ct_closed _ _ Hc2), elem_of_app. by right.
    + apply (ct_closed _ _ Hc2), elem_of_app. by left.
Qed.

(** ** All entries that leave *)

Lemma left_by_nil m : left_by [] m m.
Proof. split; [| done..]. intros x. case_decide as Hx; [by apply not_elem_of_nil in Hx | done]. Qed.

Lemma left_by_cons e l m1 m2 m3 : left_by [e] m1 m2 → left_by l m2 m3 → left_by (e :: l) m1 m3.
Proof.
  intros [H1 H2 H3 H4] [K1 K2 K3 K4]. split; try congruence. intros x. rewrite K1, H1.
  destruct (decide (x ∈ l)), (decide (x ∈ [e])), (decide (x ∈ e :: l)); try done; exfalso; set_solver.
Qed.

Lemma free_entries_ok E l : ∀ m h, keeps m h → NoDup ((λ ev, value (ev_ins ev)) <$> l) →
  Forall (λ ev, is_Some (ents m !! value (ev_ins ev)) ∧ E (value (ev_ins ev)) = Some (ev_pos ev)) l →
  ∃ h' m', for_each table_free_entry l m = Ok m' ∧ keeps m' h' ∧ left_by ((λ ev, value (ev_ins ev)) <$> l) m m' ∧ dom h' ⊆ dom h ∧
    stay E (without ((λ ev, value (ev_ins ev)) <$> l) E) h h' (rs ++ kept (ents m')).
Proof.
  revert E. induction l as [|ev l IH]; intros E m h Hk Hn Hl.
  { exists h, m. split; [done |]. split; [done |]. split; [apply left_by_nil |]. split; [done |]. intros t _ Hr. eapply rep_mono; [| done | exact Hr].
    intros e p He. unfold without. rewrite decide_False; [done |]. apply not_elem_of_nil. }
  apply Forall_cons in Hl as [[[en Hen] He] Hl]. rewrite fmap_cons in Hn. apply NoDup_cons in Hn as [Hnin Hn].
  destruct (free_entry_ok E ev m h en) as (h1 & m1 & E1 & Hk1 & Hl1 & Hd1 & Hs1); [done.. |].
  set (e := value (ev_ins ev)) in *.
  destruct (IH (without [e] E) m1 h1) as (h2 & m2 & E2 & Hk2 & Hl2 & Hd2 & Hs2); [done.. | |].
  { rewrite Forall_forall in Hl |- *. intros ev' Hev'. destruct (Hl ev' Hev') as [He1 He2].
    assert (value (ev_ins ev') ∉ [e]) as Hne.
    { intros Heq%list_elem_of_singleton. apply Hnin. rewrite <- Heq. by apply (list_elem_of_fmap_2 (λ ev, value (ev_ins ev))). }
    rewrite (lb_ents _ _ _ Hl1), decide_False by done. unfold without. by rewrite decide_False. }
  exists h2, m2. cbn [for_each]. rewrite E1, E2. split; [done |]. split; [done |]. split; [by eapply left_by_cons |].
  split; [set_solver |]. intros t Ht Hr.
  eapply rep_mono; [| done | apply Hs2; [exact Ht |]; apply Hs1; [| exact Hr]].
  - intros x p. unfold without. cbn. destruct (decide (x ∈ e :: _)) as [Hx | Hx]; [| by repeat case_decide; set_solver].
    repeat case_decide; set_solver.
  - apply elem_of_app in Ht as [Ht | Ht]; [by apply elem_of_app; left |]. apply elem_of_app. right.
    unfold kept in Ht. apply list_elem_of_In, in_concat in Ht as (k & Hk' & Hin).
    apply list_elem_of_In, list_elem_of_fmap in Hk' as ([x en'] & -> & Hx%elem_of_map_to_list).
    apply (kept_elem _ x en'); [| by apply list_elem_of_In]. rewrite (lb_ents _ _ _ Hl2) in Hx. by case_decide.
Qed.
End Evict.

(** ** The table *)

(** Nothing is known. *)
Definition anything : knowledge := λ _ _ _ _, True.

Section Table.
Context (M : knowledge).

(** Where the entry of an interval is. *)
Lemma table_at m h x i : table_ok M m h → x ∈ contents (tree m) → i ∈ ins x.2 →
  is_Some (ents m !! value i) ∧ ent_pos m (value i) = Some (k_pos x.1).
Proof.
  intros Ht Hx Hi. destruct (to_ents _ _ _ Ht x i Hx Hi) as (en & Hen & Hl & _). split; [by exists en |].
  unfold ent_pos. rewrite Hen, Hl. apply lookup_loc_elem; [| done]. apply (ei_nodup _ _ (inv_entries _ (to_inv _ _ _ Ht))).
Qed.

Lemma table_values m h : table_ok M m h → NoDup (value <$> (contents (tree m) ≫= λ x, ins x.2)).
Proof. intros Ht. rewrite (to_keys _ _ _ Ht). apply NoDup_fst_map_to_list. Qed.

Lemma calls_ins (xs : list (iv_key * itree_ivals positive)) : ev_ins <$> calls_of xs = xs ≫= λ x, ins x.2.
Proof.
  unfold calls_of. induction xs as [|x xs IH]; [done |]. cbn. rewrite fmap_app, IH. f_equal.
  rewrite <- list_fmap_compose. apply list_fmap_id.
Qed.

Lemma values_ins (l : list (eviction positive)) : (λ ev, value (ev_ins ev)) <$> l = value <$> (ev_ins <$> l).
Proof. by rewrite <- list_fmap_compose. Qed.

Lemma calls_elem xs w : w ∈ calls_of xs → ∃ x : iv_key * itree_ivals positive, x ∈ xs ∧ ev_ins w ∈ ins x.2 ∧ ev_pos w = k_pos x.1.
Proof. intros (x & (i & -> & Hi)%list_elem_of_fmap & Hx)%list_elem_of_bind. by exists x. Qed.

Lemma mem_ok_keeps hf L m h T : caps m = h ∪ hf → h ##ₘ hf → holds (Surround hf true L) M m h T →
  keeps hf (addr <$> T ++ L) m h.
Proof. intros Hm Hd [Hc _ Ht]. split; [done | done | exact Hc | apply (Ht eq_refl)]. Qed.

(** Freeing the table: results stay what they are. *)
Lemma memo_table_free_ok hf L m T : mem_ok (Surround hf true L) M m T →
  ∃ m', memo_table_free m = Ok m' ∧ ents m' = ∅ ∧ mem_ok (Surround hf false L) M m' T.
Proof.
  intros [(h & Hm & Hd & Hh) Hf]. pose proof (hd_table _ _ _ _ _ Hh eq_refl) as Ht. pose proof (hd_rep _ _ _ _ _ Hh) as Hr.
  destruct (itree_each_spec (tree m) (to_inv _ _ _ Ht)) as (t & Hev & Hi & Hct & _). unfold memo_table_free. rewrite Hev.
  set (m1 := with_tree m t). pose proof (mem_ok_keeps _ _ _ _ _ Hm Hd Hh) as Hk.
  destruct (free_entries_ok hf (addr <$> T ++ L) (ent_pos m) (calls_of (contents (tree m))) m1 h)
    as (h' & m' & He & Hk' & Hl & Hdom & Hst).
  - by destruct Hk; split.
  - rewrite values_ins, calls_ins. by eapply table_values.
  - apply Forall_forall. intros w (x & Hx & Hx2 & ->)%calls_elem. exact (table_at m h x _ Ht Hx Hx2).
  - exists m'. split; [done |].
    assert (∀ e, is_Some (ents m !! e) → e ∈ (λ ev, value (ev_ins ev)) <$> calls_of (contents (tree m))) as Hall.
    { intros e [en Hen]. rewrite values_ins, calls_ins, (to_keys _ _ _ Ht). apply list_elem_of_fmap. exists (e, en).
      split; [done | by apply elem_of_map_to_list]. }
    assert (ents m' = ∅) as He'.
    { apply map_eq. intros e. rewrite (lb_ents _ _ _ Hl), lookup_empty. case_decide as Hin; [done |].
      destruct (ents m1 !! e) as [en|] eqn:Hen; [| done]. destruct Hin. apply Hall. by exists en. }
    split; [done |]. destruct Hk' as [Hm' Hd' Hc' _]. split.
    + exists h'. split; [done |]. split; [done |]. rewrite He' in Hc', Hst. split; [exact Hc' | | done].
      cbn [su_live base_of su_table]. rewrite Forall_forall in Hr |- *. intros t' Hin.
      eapply rep_mono; [| done | apply Hst, Hr; [| done]].
      * intros e p. unfold without. case_decide as Hne; [done |]. unfold ent_pos. destruct (ents m !! e) eqn:Hen; [| done].
        destruct Hne. apply Hall. by eexists.
      * apply elem_of_app. left. by apply list_elem_of_fmap_2.
    + intros a [c Ha]. rewrite (lb_next _ _ _ Hl). apply Hf. rewrite Hm. rewrite Hm' in Ha. apply lookup_union_is_Some.
      apply lookup_union_Some_raw in Ha as [Ha | [_ Ha]]; [left | right; by exists c].
      apply elem_of_dom, Hdom, elem_of_dom. by exists c.
Qed.

(** A new table on a memory without entries. *)
Lemma memo_table_new_ok hf L m T thr M' : ents m = ∅ → mem_ok (Surround hf false L) M m T →
  mem_ok (Surround hf true L) M' (memo_table_new thr m).2 T.
Proof.
  intros He [(h & Hm & Hd & [Hc Hr _]) Hf]. split; [| done]. exists h. split_and!; [done.. |].
  assert (kept (ents m) = []) as Hk by (by rewrite He).
  cbn [memo_table_new snd]. split; cbn [su_live su_table base_of kept_of with_tree ents] in *.
  - unfold kept_of in *. cbn [su_table with_tree ents] in *. by rewrite Hk.
  - eapply Forall_impl; [exact Hr |]. intros t'. by apply rep_mono.
  - intros _. split; cbn [with_tree ents tree].
    + apply itree_new_inv.
    + intros e [en Hen]. by rewrite He in Hen.
    + by rewrite He.
    + intros x i Hx. by apply not_elem_of_nil in Hx.
    + rewrite He. intros a c e Ha Hce. destruct (counted_reach _ _ a Hc) as (r & Hrs & Hb); [by exists c |].
      unfold kept_of in Hrs. cbn [su_table] in Hrs. rewrite app_nil_r in Hrs. apply list_elem_of_fmap in Hrs as (t' & -> & Ht').
      rewrite Forall_forall in Hr. destruct (rep_owner _ _ _ _ _ (Hr t' Ht') Hb Ha) as [b Hbase]. by rewrite Hce in Hbase.
Qed.
(** ** Edits *)

(** What an edit of this amount moves the capture by, its owner being where it is now. *)
Definition carry (m : mem) (lo amt : Z) (a : positive) : Z :=
  match c ← caps m !! a; e ← c_ment c; ent_pos m e with
  | Some q => if lo + amt <=? q then amt else 0
  | None => 0
  end.

Fixpoint edited (m : mem) (lo amt : Z) (t : ctree) : ctree :=
  match t with CT a id ty off len kids => CT a id ty (off + carry m lo amt a) len (edited m lo amt <$> kids) end.

Lemma edited_addr m lo amt t : addr (edited m lo amt t) = addr t.
Proof. by destruct t. Qed.

Lemma rep_edited E m lo amt h t : 0 <= amt → h ⊆ caps m →
  (∀ e p, E e = Some p → ent_pos m e = Some (gate p (mk_shift lo amt 0))) → rep E h t → rep (ent_pos m) h (edited m lo amt t).
Proof.
  intros Hamt Hsub HE. induction t as [a id ty off len kids IH] using ctree_ind'. cbn [edited]. rewrite !rep_CT.
  intros [(c & b & Hc & Hb & H1 & H2 & -> & H3 & Hk) Hkids]. split.
  - exists c. unfold carry. rewrite (lookup_weaken _ _ _ _ Hc Hsub). cbn [mbind option_bind].
    assert (addr <$> (edited m lo amt <$> kids) = addr <$> kids) as Ha.
    { rewrite <- list_fmap_compose. apply list_fmap_ext. intros i x _. apply edited_addr. }
    destruct (c_ment c) as [e|]; cbn [mbind option_bind ment_base] in *.
    + specialize (HE e b Hb). rewrite HE. exists (gate b (mk_shift lo amt 0)). rewrite Ha. split_and!; try done.
      unfold gate. cbn [idx ITree.amt]. case_zb; lia.
    + exists b. rewrite Ha. split_and!; done || lia.
  - apply Forall_fmap. rewrite Forall_forall in *. intros k Hin. by apply IH, Hkids.
Qed.
(** After the edit, [M'] knows what [M] did, of what was examined before it or
    lies behind it. *)
Definition survives (M' : knowledge) (lo hi amt : Z) : Prop := ∀ m' id q ex en U,
  q < lo ∧ ex <= lo ∨ hi <= q → M id q ex (result_of en q (trees U)) →
  let q' := gate q (mk_shift lo amt 0) in
  M' id q' (ex + (q' - q)) (result_of en q' (trees (edited m' lo amt <$> U))).

Lemma survives_anything lo hi amt : survives anything lo hi amt.
Proof. done. Qed.

(** What an edit leaves of the table's tree. *)
Lemma survivors m h lo hi amt t : table_ok M m h → Inv t → contents t = a_edit lo hi amt (contents (tree m)) →
  let gone := (λ ev, value (ev_ins ev)) <$> cut_evs lo hi (contents (tree m)) in
  NoDup gone ∧ (∀ y i, y ∈ contents t → i ∈ ins y.2 → ∃ x i0, x ∈ contents (tree m) ∧ i0 ∈ ins x.2 ∧ value i0 = value i ∧
      loc x.2 = loc y.2 ∧ k_pos y.1 = gate (k_pos x.1) (mk_shift lo amt 0) ∧ value i ∉ gone ∧
      k_id y.1 = k_id x.1 ∧ high i = high i0 + (k_pos y.1 - k_pos x.1) ∧ (k_pos x.1 < lo ∧ high i0 <= lo ∨ hi <= k_pos x.1)) ∧
  (∀ e, is_Some (ents m !! e) → e ∉ gone → e ∈ value <$> (contents t ≫= λ x, ins x.2)) ∧
  NoDup (value <$> (contents t ≫= λ x, ins x.2)).
Proof.
  intros Ht Hi Hc gone. set (s := mk_shift lo amt 0). pose proof (table_values m h Ht) as Hnd.
  assert ((value <$> (contents (tree m) ≫= λ x, ins x.2)) ≡ₚ (value <$> (contents t ≫= λ x, ins x.2)) ++ gone) as Hp.
  { rewrite (cut_ins_split lo hi), fmap_app. unfold gone. rewrite values_ins. apply Permutation_app_tail. rewrite Hc. unfold a_edit.
    generalize (cut_view lo hi (contents (tree m))) as xs. intros xs. induction xs as [|x xs IH]; [done |].
    cbn. rewrite !fmap_app, IH. apply Permutation_app_tail. unfold shift_entry. case_zb; [| done]. cbn.
    by rewrite <- list_fmap_compose. }
  rewrite Hp in Hnd. apply NoDup_app in Hnd as (Hn1 & Hdis & Hn2). split_and!; [done | | | done].
  - intros y i Hy Hin. assert (value i ∈ value <$> (contents t ≫= λ x, ins x.2)) as Hv.
    { apply list_elem_of_fmap_2, list_elem_of_bind. by exists y. }
    rewrite Hc in Hy. unfold a_edit in Hy. apply list_elem_of_fmap in Hy as (y0 & -> & Hy0).
    fold s in Hin |- *. apply list_elem_of_omap in Hy0 as (x & Hx & Hcut). apply cut_Some in Hcut as (Hk & Hl & Hsub & [_ Hclear]).
    assert (∃ i0, i0 ∈ ins y0.2 ∧ value i0 = value i ∧ k_id (shift_entry y0 s).1 = k_id y0.1 ∧ high i = high i0 + (gate (k_pos y0.1) s - k_pos y0.1))
      as (i0 & Hi0 & Hv0 & Hid & Hhi).
    { revert Hin. unfold shift_entry, gate, s. cbn [idx]. destruct (lo <=? k_pos y0.1); intros Hin; [| exists i; split_and!; try done; lia].
      cbn in Hin. apply list_elem_of_fmap in Hin as (i0 & -> & Hi0). exists i0. cbn. split_and!; try done. lia. }
    exists x, i0. rewrite shift_entry_pos, shift_entry_loc, Hl, Hid, Hk in *. split_and!; try done; [by apply Hsub | by apply Hdis |].
    pose proof (ei_ok _ _ (inv_entries _ (to_inv _ _ _ Ht))) as Hok. rewrite Forall_forall in Hok. destruct (Hok _ Hx) as [_ Hokx].
    rewrite Forall_forall in Hokx, Hclear. specialize (Hokx i0 (Hsub _ Hi0)). specialize (Hclear i0 Hi0). unfold clear, iv_overlaps in Hclear. cbn in Hokx. lia.
  - intros e [en He] Hg. assert (e ∈ value <$> (contents (tree m) ≫= λ x, ins x.2)) as Hin.
    { rewrite (to_keys _ _ _ Ht). apply list_elem_of_fmap. exists (e, en). split; [done | by apply elem_of_map_to_list]. }
    rewrite Hp in Hin. by apply elem_of_app in Hin as [?|?].
Qed.

Lemma memo_table_apply_edit_ok M' hf L m T ed :
  let lo := ed_start ed in let hi := if ed_start ed =? ed_end ed then ed_start ed + 1 else ed_end ed in
  let amt := ed_len ed - (ed_end ed - ed_start ed) in
  0 <= amt → survives M' lo hi amt → mem_ok (Surround hf true L) M m T →
  ∃ m', memo_table_apply_edit ed m = Ok m' ∧ contents (tree m') = a_edit lo hi amt (contents (tree m)) ∧
    (∀ e en, ents m' !! e = Some en → ents m !! e = Some en) ∧
    mem_ok (Surround hf true (edited m' lo amt <$> L)) M' m' (edited m' lo amt <$> T).
Proof.
  intros lo hi amt Hamt Hsv [(h & Hm & Hd & Hh) Hf]. pose proof (hd_table _ _ _ _ _ Hh eq_refl) as Ht. pose proof (hd_rep _ _ _ _ _ Hh) as Hr.
  change (memo_table_apply_edit ed m) with ('(t, ev) ← itree_remove_and_shift_cb (tree m) lo hi amt; for_each table_free_entry ev (with_tree m t)).
  destruct (itree_edit_spec (tree m) lo hi amt (to_inv _ _ _ Ht) Hamt) as (t & -> & Hi & Hct & _).
  cbn_res. set (m1 := with_tree m t). pose proof (mem_ok_keeps _ _ _ _ _ Hm Hd Hh) as Hk.
  destruct (survivors m h lo hi amt t Ht Hi Hct) as (Hnd & Hsurv & Hrest & Hnd2). set (gone := (λ ev, value (ev_ins ev)) <$> cut_evs lo hi (contents (tree m))) in *.
  destruct (free_entries_ok hf (addr <$> T ++ L) (ent_pos m) (cut_evs lo hi (contents (tree m))) m1 h)
    as (h' & m' & He & Hk' & Hl & Hdom & Hst).
  - by destruct Hk; split.
  - done.
  - apply Forall_forall. intros w (x & Hx & Hx2 & ->)%cut_evs_elem. exact (table_at m h x _ Ht Hx Hx2).
  - exists m'. rewrite He. split; [done |]. rewrite (lb_tree _ _ _ Hl). split; [done |].
    assert (∀ e en, ents m' !! e = Some en ↔ e ∉ gone ∧ ents m !! e = Some en) as Hents.
    { intros e en. rewrite (lb_ents _ _ _ Hl). fold gone. case_decide as Hg; naive_solver. }
    split; [intros e en Hen; by apply Hents |]. destruct Hk' as [Hm' Hd' Hc' Ho'].
    assert (∀ e p, without gone (ent_pos m) e = Some p → ent_pos m' e = Some (gate p (mk_shift lo amt 0))) as HE.
    { intros e p. unfold without. case_decide as Hg; [done |]. unfold ent_pos. destruct (ents m !! e) as [en|] eqn:Hen; [| done].
      rewrite (proj2 (Hents e en)) by done. intros Hp. specialize (Hrest e ltac:(by exists en) Hg).
      apply list_elem_of_fmap in Hrest as (i & -> & (y & Hin & Hy)%list_elem_of_bind).
      destruct (Hsurv y i Hy Hin) as (x & i0 & Hx & Hi0 & Hv & Hloc & Hpos & _ & _).
      destruct (to_ents _ _ _ Ht x i0 Hx Hi0) as (en' & Hen' & Hep & _). rewrite Hv in Hen'. simplify_eq.
      rewrite (lb_tree _ _ _ Hl). cbn [m1 with_tree tree]. rewrite Hep, Hloc.
      rewrite (lookup_loc_elem y) by (done || apply (ei_nodup _ _ (inv_entries _ Hi))). rewrite Hpos.
      rewrite Hep in Hp. rewrite (lookup_loc_elem x) in Hp by (done || apply (ei_nodup _ _ (inv_entries _ (to_inv _ _ _ Ht)))). by simplify_eq. }
    assert (∀ U : list ctree, (∀ t', t' ∈ U → addr t' ∈ (addr <$> T ++ L) ++ kept (ents m')) → Forall (rep (ent_pos m) h) U →
      Forall (rep (ent_pos m') h') (edited m' lo amt <$> U)) as HU.
    { intros U HinU HrU. apply Forall_fmap. rewrite Forall_forall in HrU |- *. intros t' Hin. eapply rep_edited; [done | | exact HE |].
      - rewrite Hm'. apply map_union_subseteq_l.
      - apply Hst; [by apply HinU | by apply HrU]. }
    assert (∀ U : list ctree, addr <$> (edited m' lo amt <$> U) = addr <$> U) as Ha.
    { intros U. rewrite <- list_fmap_compose. apply list_fmap_ext. intros i x _. apply edited_addr. }
    assert (addr <$> ((edited m' lo amt <$> T) ++ (edited m' lo amt <$> L)) = addr <$> T ++ L) as HTL by by rewrite <- fmap_app, Ha.
    split; [exists h'; split; [done | split; [done | split]] |].
    + unfold kept_of. cbn [su_live su_table]. by rewrite HTL.
    + cbn [su_live base_of su_table]. rewrite <- fmap_app. apply HU; [| exact Hr]. intros t' Hin. apply elem_of_app. left.
      by apply list_elem_of_fmap_2.
    + intros _. assert (tree m' = t) as Htr by exact (lb_tree _ _ _ Hl). split; rewrite ?Htr.
      * done.
      * intros e [en Hen]. rewrite (lb_next_ent _ _ _ Hl). apply (to_fresh _ _ _ Ht). exists en. by apply Hents.
      * apply NoDup_Permutation; [done | apply NoDup_fst_map_to_list |]. intros e. split.
        -- intros (i & -> & (y & Hin & Hy)%list_elem_of_bind)%list_elem_of_fmap. destruct (Hsurv y i Hy Hin) as (x & i0 & Hx & Hi0 & Hv & _ & _ & Hg & _).
           destruct (table_at m h x i0 Ht Hx Hi0) as [[en Hen] _]. rewrite Hv in Hen. apply list_elem_of_fmap. exists (value i, en).
           split; [done |]. by apply elem_of_map_to_list, Hents.
        -- intros ([e' en] & -> & [Hg Hen]%elem_of_map_to_list%Hents)%list_elem_of_fmap. apply Hrest; [by exists en | done].
      * intros y i Hy Hin. destruct (Hsurv y i Hy Hin) as (x & i0 & Hx & Hi0 & Hv & Hloc & Hpos & Hg & Hid & Hhi & Hclear).
        destruct (to_ents _ _ _ Ht x i0 Hx Hi0) as (en & Hen & Hep & U & ex & HU1 & HU2 & Hex & Hknow). rewrite Hv in Hen. exists en.
        assert (ents m' !! value i = Some en) as Hen' by by apply Hents.
        split; [done |]. split; [congruence |]. exists (edited m' lo amt <$> U), (ex + (k_pos y.1 - k_pos x.1)). rewrite Ha. split; [done |].
        rewrite Hid, Hpos in *. split; [| split; [lia | apply Hsv; [lia | done]]].
        apply HU; [| done]. intros t' Hin'. apply elem_of_app. right. eapply kept_elem; [exact Hen' |]. rewrite HU1.
        by apply list_elem_of_fmap_2.
      * done.
    + intros a [c Hac]. rewrite (lb_next _ _ _ Hl). apply Hf. rewrite Hm. rewrite Hm' in Hac. apply lookup_union_is_Some.
      apply lookup_union_Some_raw in Hac as [Hac | [_ Hac]]; [left | right; by exists c].
      apply elem_of_dom, Hdom, elem_of_dom. by exists c.
Qed.
End Table.

(** ** Clearing a window *)

Lemma carry_zero m lo a : carry m lo 0 a = 0.
Proof. unfold carry. repeat case_match; done. Qed.

Lemma edited_zero m lo t : edited m lo 0 t = t.
Proof.
  induction t as [a id ty off len kids IH] using ctree_ind'. cbn [edited]. rewrite carry_zero, Z.add_0_r. f_equal.
  induction IH as [| t kids Ht _ IH]; [done |]. cbn. by rewrite Ht, IH.
Qed.

Lemma edited_all_zero m lo (T : list ctree) : edited m lo 0 <$> T = T.
Proof. rewrite <- (list_fmap_id T) at 2. apply list_fmap_ext. intros i t _. apply edited_zero. Qed.

Lemma survives_same M lo hi : survives M M lo hi 0.
Proof.
  intros m' id q ex en U _ HM. assert (gate q (mk_shift lo 0 0) = q) as Hg by (unfold gate; cbn [idx ITree.amt]; case_zb; lia).
  cbv zeta. rewrite Hg, edited_all_zero. by replace (ex + (q - q)) with ex by lia.
Qed.

(** The entries whose intervals these are. *)
Definition stored (xs : list (iv_key * itree_ivals positive)) : list positive := value <$> (xs ≫= λ x, ins x.2).

Lemma mem_ok_tree M hf m T : mem_ok (Surround hf true []) M m T → Inv (tree m) ∧ ∀ e, e ∈ stored (contents (tree m)) ↔ is_Some (ents m !! e).
Proof.
  intros [(h & _ & _ & Hh) _]. pose proof (hd_table _ _ _ _ _ Hh eq_refl) as Ht. split; [apply (to_inv _ _ _ Ht) |]. intros e. unfold stored.
  rewrite (to_keys _ _ _ Ht), list_elem_of_fmap. split.
  - intros ([e' en] & -> & Hin%elem_of_map_to_list). by exists en.
  - intros [en Hen]. exists (e, en). split; [done | by apply elem_of_map_to_list].
Qed.

(** An edit that changes nothing evicts what overlaps it, and that is all. *)
Lemma window_edit_ok M hf m T lo hi : lo < hi → mem_ok (Surround hf true []) M m T →
  ∃ m', memo_table_apply_edit (mk_edit lo hi (hi - lo)) m = Ok m' ∧ mem_ok (Surround hf true []) M m' T ∧
    contents (tree m') = cut_view lo hi (contents (tree m)) ∧ (∀ e en, ents m' !! e = Some en → ents m !! e = Some en).
Proof.
  intros Hlt Hm. assert (ed_len (mk_edit lo hi (hi - lo)) - (hi - lo) = 0) as Hz by (cbn; lia).
  destruct (memo_table_apply_edit_ok M M hf [] m T (mk_edit lo hi (hi - lo))) as (m' & He & Hc & Hk & Hm'); [cbn; lia | | exact Hm |].
  - cbn [ed_start ed_end] in *. rewrite Hz. apply survives_same.
  - cbn [ed_start ed_end] in *. rewrite Hz, !edited_all_zero in Hm'. exists m'. split; [done |]. split; [done |]. split; [| done].
    rewrite Hz in Hc. rewrite Hc. destruct (Z.eqb_spec lo hi); [lia |]. apply shift_all_zero.
Qed.
