(* ===== verification/VmStack.v ===== *)
(** * VmStack: stack operations in terms of frames and capture trees

    [srel w M s m K]: the stack's entries are the frames of [K], their lists hold
    the captures that are the trees of [K]'s levels, and the memory holds nothing
    else but what the surround [w] keeps alive ([MemoHeap.mem_ok]). *)
From S2P Require Import Prelude Charset Input Code ITree Memo Stack Vm Pattern Compile Sem Machine CaptureHeap CaptureTree MemoHeap.

(** ** The stack whose lists hold given captures *)

Fixpoint conc_of (C : list ctree) (K : list (frame * list ctree)) : vm_stack :=
  match K with
  | [] => mk_stack [] (addr <$> C)
  | (f, C') :: K => let s := conc_of C' K in mk_stack (mk_sentry f (addr <$> C) :: entries s) (result s)
  end.

Definition conc (S : stk ctree) : vm_stack := conc_of (top S) (below S).

(** All its captures, and what they mean. *)
Definition roots (S : stk ctree) : list ctree := top S ++ concat (below S).*2.

Definition view (S : stk ctree) : stack := Stk (trees (top S)) ((λ fC, (fC.1, trees fC.2)) <$> below S).

Definition srel (w : surround) (M : knowledge) (s : vm_stack) (m : mem) (K : stack) : Prop :=
  ∃ S, s = conc S ∧ (mem_ok w M m (roots S) ∧ lean w m) ∧ view S = K.

(** The same with one new capture [t] at hand. *)
Definition loose (w : surround) (M : knowledge) (s : vm_stack) (m : mem) (t : ctree) (K : stack) : Prop :=
  ∃ S, s = conc S ∧ (mem_ok w M m (t :: roots S) ∧ lean w m) ∧ view S = K ∧ room (caps m) [addr t].

(** Append to the top list. *)
Definition add_top (s : vm_stack) (cs : list positive) : vm_stack :=
  match entries s with
  | [] => mk_stack [] (result s ++ cs)
  | e :: es => mk_stack (mk_sentry (stype e) (capt e ++ cs) :: es) (result s)
  end.

Lemma add_top_conc C K T : add_top (conc_of C K) (addr <$> T) = conc_of (C ++ T) K.
Proof. destruct K as [|[f C'] K]; unfold add_top; cbn; by rewrite fmap_app. Qed.

Lemma add_top_app s l k : add_top (add_top s l) k = add_top s (l ++ k).
Proof. destruct s as [[|e es] r]; unfold add_top; cbn; by rewrite (assoc_L (++)). Qed.

Lemma stypes_conc C K : stype <$> entries (conc_of C K) = K.*1.
Proof. revert C. induction K as [|[f C'] K IH]; intros C; [done |]. cbn. f_equal. apply IH. Qed.

Lemma length_conc C K : length (entries (conc_of C K)) = length K.
Proof. rewrite <- (length_fmap fst K), <- (stypes_conc C K). by rewrite length_fmap. Qed.

Lemma stack_add_capt_spec s cs m : room (caps m) cs →
  stack_add_capt s cs m = Ok (add_top s cs, with_caps m (bump (caps m) cs)).
Proof.
  intros Hs. unfold stack_add_capt, entry_add_capt, add_refs, add_top. rewrite (ref_all cs m Hs).
  by destruct (entries s).
Qed.

(** One by one, as when an entry's captures are handed out. *)
Lemma add_each_spec v U : room (caps (mm v)) U →
  add_each v U = Ok (set_sm v (add_top (st v) U) (with_caps (mm v) (bump (caps (mm v)) U))).
Proof.
  revert v. induction U as [|a U IH]; intros v Hr.
  { rewrite bump_nil, with_caps_eta. destruct v as [? [[|[] ?] ?]]; unfold add_top; cbn; by rewrite app_nil_r. }
  pose proof (room_app_l _ [a] U Hr) as Ha. unfold add_each. cbn [for_each]. rewrite (stack_add_capt_spec _ _ _ Ha). cbn_res.
  set (v1 := set_sm v _ _). fold (add_each v1 U). rewrite IH by (by apply room_bump).
  unfold v1. cbn. rewrite add_top_app, bump_app. do 2 f_equal. by rewrite (bump_perm _ (U ++ [a]) (a :: U)) by apply Permutation_app_comm.
Qed.

(** The list under every entry and the others. *)
Lemma conc_lists C K : ∃ T, concat (capt <$> entries (conc_of C K)) = addr <$> T ∧
  result (conc_of C K) = addr <$> base K C ∧ C ++ concat K.*2 ≡ₚ base K C ++ T.
Proof.
  revert C. induction K as [|[f C'] K IH]; intros C; [by exists [] |].
  destruct (IH C') as (T & HT & Hr & Hp). exists (C ++ T). cbn. split_and!; [by rewrite HT, fmap_app | done |].
  rewrite Hp. apply Permutation_app_swap_app.
Qed.

Lemma base_view K C : base ((λ fC, (fC.1, trees fC.2)) <$> K) (trees C) = trees (base K C).
Proof. revert C. induction K as [|[f C'] K IH]; intros C; [done |]. cbn. apply IH. Qed.

Section Stack.
Context (w : surround) (M : knowledge).
Notation srel := (srel w M).
Notation loose := (loose w M).
Notation modest := (modest w).

Lemma srel_frames s m K : srel s m K → stype <$> entries s = (below K).*1.
Proof.
  intros (S & -> & _ & <-). unfold conc, view. cbn [below]. rewrite stypes_conc, <- list_fmap_compose. done.
Qed.

(** Another table's knowledge. *)
Lemma srel_learn M' s m K : (∀ id q ex r, M id q ex r → M' id q ex r) → srel s m K → VmStack.srel w M' s m K.
Proof. intros HM (S & -> & [Hm Hl] & <-). exists S. split_and!; try done. by eapply mem_ok_learn. Qed.

Lemma srel_push f s m K : srel s m K → srel (push f s) m (spush f K).
Proof. intros (S & -> & Hm & <-). by exists (spush f S). Qed.

Lemma srel_nil s m C : srel s m (Stk C []) → entries s = [].
Proof. intros Hs. apply srel_frames in Hs. by destruct (entries s). Qed.

(** The top entry. *)
Lemma srel_cons s m K f C K' : srel s m K → below K = (f, C) :: K' → ∃ T T' B,
  s = mk_stack (mk_sentry f (addr <$> T) :: entries (conc_of T' B)) (result (conc_of T' B)) ∧
  (mem_ok w M m (T ++ T' ++ concat B.*2) ∧ lean w m) ∧ trees T = top K ∧ trees T' = C ∧ (λ fC, (fC.1, trees fC.2)) <$> B = K'.
Proof.
  intros ([T [|[g T'] B]] & -> & Hm & <-) HK; cbn in HK; [done |]. injection HK as -> <- <-. by exists T, T', B.
Qed.

Lemma srel_intro m T T' B C K' : mem_ok w M m T ∧ lean w m → T ≡ₚ T' ++ concat B.*2 → trees T' = C →
  (λ fC, (fC.1, trees fC.2)) <$> B = K' → srel (conc_of T' B) m (Stk C K').
Proof. intros [Hm Hl] Hp <- <-. exists (Stk T' B). split_and!; try done. by eapply mem_ok_perm. Qed.

(** Further references to a stack's captures are the ones it then drops. *)
Lemma bump_restore m T1 T2 : mem_ok w M m (T1 ++ T2) → modest m → room (caps m) (addr <$> T1) ∧
  for_each memo_capture_free (addr <$> T1) (with_caps m (bump (caps m) (addr <$> T1))) = Ok m.
Proof.
  intros Hok Hmo. pose proof (at_hand_room _ _ _ _ _ Hok (at_hand_app _ _ _ _ _) Hmo) as Hr. split; [done |].
  rewrite (unref_all (caps m)) by done. by destruct m.
Qed.

(** Pop into the entry below: it has further references, the popped entry drops its own. *)
Lemma srel_pop_keep s m K f K' : srel s m K → modest m → pop_keep K = Some (f, K') → ∃ T s1,
  let m1 := with_caps m (bump (caps m) (addr <$> T)) in
  stack_pop s true m = Ok (Some (mk_sentry f (addr <$> T), s1, m1)) ∧ trees T = top K ∧
  for_each memo_capture_free (addr <$> T) m1 = Ok m ∧ srel s1 m K' ∧
  ∃ S, s1 = conc S ∧ mem_ok w M m1 (T ++ roots S) ∧ view S = K'.
Proof.
  intros Hs Hmo HK. unfold pop_keep in HK. destruct (below K) as [|[g C] B0] eqn:EK; [done |]. injection HK as -> <-.
  destruct (srel_cons _ _ _ _ _ _ Hs EK) as (T & T' & B & -> & Hm & HT & <- & <-).
  destruct (bump_restore m _ _ (proj1 Hm) Hmo) as [Hr Hf]. exists T, (conc_of (T' ++ T) B).
  assert (T ++ T' ++ concat B.*2 ≡ₚ (T' ++ T) ++ concat B.*2) as Hp by (rewrite <- !(assoc_L (++)); apply Permutation_app_swap_app).
  split_and!; try done.
  - unfold stack_pop. cbn [entries result capt]. destruct (conc_of T' B) as [es r] eqn:Ec. cbn [entries result].
    rewrite (stack_add_capt_spec _ _ _ Hr). by rewrite <- Ec, add_top_conc.
  - eapply srel_intro; [exact Hm | done | by rewrite trees_app, HT | done].
  - exists (Stk (T' ++ T) B). split_and!; [done | | unfold view; cbn [top below]; by rewrite trees_app, HT].
    eapply mem_ok_perm; [apply mem_ok_bump; [exact (proj1 Hm) | apply at_hand_app | done] |]. by rewrite Hp.
Qed.

Lemma srel_pop_clear msg s m K f K' : srel s m K → modest m → pop_keep K = Some (f, K') →
  ∃ s1, pop_clear msg s true m = Ok (f, s1, m) ∧ srel s1 m K'.
Proof.
  intros Hs Hmo HK. destruct (srel_pop_keep _ _ _ _ _ Hs Hmo HK) as (T & s1 & Hp & _ & Hc & Hr & _). exists s1. split; [| done].
  unfold pop_clear. rewrite Hp. cbn [mbind res_bind]. unfold entry_clear_capt. cbn [capt]. by rewrite Hc.
Qed.

(** Pop and drop. *)
Lemma srel_pop_drop s m K f K' : srel s m K → pop_drop K = Some (f, K') → ∃ T s1,
  stack_pop s false m = Ok (Some (mk_sentry f (addr <$> T), s1, m)) ∧ trees T = top K ∧
  (∃ m1, for_each memo_capture_free (addr <$> T) m = Ok m1 ∧ srel s1 m1 K') ∧
  ∃ S, s1 = conc S ∧ (mem_ok w M m (T ++ roots S) ∧ lean w m) ∧ view S = K'.
Proof.
  intros Hs HK. unfold pop_drop in HK. destruct (below K) as [|[g C] B0] eqn:EK; [done |]. injection HK as -> <-.
  destruct (srel_cons _ _ _ _ _ _ Hs EK) as (T & T' & B & -> & [Hm Hl] & HT & <- & <-).
  destruct (free_list _ _ _ _ _ Hm) as (m1 & Hf & Hm1 & _ & Hl1).
  exists T, (conc_of T' B). split_and!; [by destruct (conc_of T' B) | done | |].
  - exists m1. split; [done |]. eapply srel_intro; [split; [exact Hm1 | by apply Hl1] | done..].
  - by exists (Stk T' B).
Qed.

(** The top entry's captures move down, its frame changes. *)
Lemma srel_prop s m K f K' g : srel s m K → pop_keep K = Some (f, K') → ∃ cs es, entries s = mk_sentry f cs :: es ∧
  srel (stack_prop_capt (mk_stack (mk_sentry g cs :: es) (result s))) m (spush g K').
Proof.
  intros Hs HK. unfold pop_keep in HK. destruct (below K) as [|[g' C] B0] eqn:EK; [done |]. injection HK as -> <-.
  destruct (srel_cons _ _ _ _ _ _ Hs EK) as (T & T' & B & -> & Hm & HT & <- & <-).
  exists (addr <$> T), (entries (conc_of T' B)). split; [done |]. cbn [result].
  assert (stack_prop_capt (mk_stack (mk_sentry g (addr <$> T) :: entries (conc_of T' B)) (result (conc_of T' B))) =
    push g (add_top (conc_of T' B) (addr <$> T))) as ->.
  { unfold stack_prop_capt, add_top, push. cbn [entries result]. by destruct (entries (conc_of T' B)). }
  rewrite add_top_conc. eapply srel_push, srel_intro; [exact Hm | | by rewrite trees_app, HT | done].
  rewrite <- !(assoc_L (++)). apply Permutation_app_swap_app.
Qed.

(** Change the top frame. *)
Lemma srel_top s m K f C K' g : srel s m K → below K = (f, C) :: K' → ∃ cs es, entries s = mk_sentry f cs :: es ∧
  srel (mk_stack (mk_sentry g cs :: es) (result s)) m (Stk (top K) ((g, C) :: K')).
Proof.
  intros Hs EK. destruct (srel_cons _ _ _ _ _ _ Hs EK) as (T & T' & B & -> & Hm & <- & <- & <-).
  exists (addr <$> T), (entries (conc_of T' B)). split; [done |]. by exists (Stk T ((g, T') :: B)).
Qed.

(** A second set of references to the top entry's captures, taken and dropped. *)
Lemma srel_copy s m K f C K' cs es : srel s m K → modest m → below K = (f, C) :: K' → entries s = mk_sentry f cs :: es → ∃ m1,
  capt_copy_ref cs m = Ok (cs, m1) ∧ for_each memo_capture_free cs m1 = Ok m.
Proof.
  intros Hs Hmo EK. destruct (srel_cons _ _ _ _ _ _ Hs EK) as (T & T' & B & -> & [Hm _] & _). intros [= <- <-].
  destruct (bump_restore m _ _ Hm Hmo) as [Hr Hf].
  exists (with_caps m (bump (caps m) (addr <$> T))). unfold capt_copy_ref, add_refs. by rewrite (ref_all _ m Hr).
Qed.

(** A fresh capture handed to the top list. *)
Lemma give_spec v s t m K : loose s m t K → ∃ s1, give v s (addr t) m = Ok (set_sm v s1 m) ∧
  srel s1 m (grow (trees_of t) K).
Proof.
  intros ([T B] & -> & Hm & <- & Hs).
  exists (add_top (conc (Stk T B)) [addr t]). unfold give. rewrite (stack_add_capt_spec _ _ _ Hs). cbn [mbind res_bind].
  pose proof (unref_all (caps m) [addr t] (with_caps m (bump (caps m) [addr t])) Hs eq_refl) as Hf.
  cbn [for_each] in Hf. destruct (memo_capture_free (addr t) _) as [m'| | |]; try done. injection Hf as ->. split.
  - cbn. by destruct m.
  - unfold conc. cbn [top below]. change [addr t] with (addr <$> [t]). rewrite add_top_conc. unfold view, grow. cbn [top below].
    eapply srel_intro; [exact Hm | | by rewrite trees_app, trees_one | done].
    unfold roots. cbn [top below]. rewrite <- (assoc_L (++)). apply Permutation_middle.
Qed.

(** The captures of a popped entry become the children of a new one. *)
Lemma srel_build s m K f K' id ty off len : srel s m K → modest m → pop_drop K = Some (f, K') → ∃ cs s1 m2 m3 t,
  stack_pop s false m = Ok (Some (mk_sentry f cs, s1, m)) ∧
  for_each (memo_capture_add (next_cap m)) cs (new_cap m (leaf id ty off len)).2 = Ok m2 ∧
  for_each memo_capture_free cs m2 = Ok m3 ∧ addr t = next_cap m ∧ trees_of t = built id ty off len (top K) ∧
  loose s1 m3 t K' ∧ (cs = [] → top K = []) ∧ modest m3.
Proof.
  intros Hs Hmo HK. destruct (srel_pop_drop _ _ _ _ _ Hs HK) as (T & s1 & Hp & HT & _ & S & -> & [Hm Hl] & <-).
  destruct (adopt _ _ _ id ty off len _ _ Hm Hmo) as (m2 & m3 & H1 & H2 & _ & (H3 & _) & H4 & H5).
  exists (addr <$> T), (conc S), m2, m3, (CT (next_cap m) id ty off len T).
  split_and!; try done; [by rewrite trees_of_CT, HT | exists S; split_and!; try done | rewrite <- HT; by intros ->%fmap_nil_inv | by apply H4].
  intros Hw. apply H4; [done | by apply Hl].
Qed.

(** A fresh capture without children. *)
Lemma srel_leaf s m K id ty off len v : srel s m K → modest m →
  ∃ s1 m1, give v s (next_cap m) (new_cap m (leaf id ty off len)).2 = Ok (set_sm v s1 m1) ∧
    srel s1 m1 (grow (built id ty off len []) K).
Proof.
  intros (S & -> & [Hm Hl] & <-) Hmo. destruct (adopt _ _ m id ty off len [] _ Hm Hmo) as (m2 & m3 & H1 & H2 & _ & (H3 & _) & H4 & H5).
  cbn in H1, H2. injection H1 as <-. injection H2 as <-.
  destruct (give_spec v (conc S) (CT (next_cap m) id ty off len []) (new_cap m (leaf id ty off len)).2 (view S)) as (s1 & Hg & Hr);
    [exists S; split_and!; try done; intros Hw; apply H4; [done | by apply Hl] |].
  by exists s1, (new_cap m (leaf id ty off len)).2.
Qed.
End Stack.
