(* ===== verification/VmRefine.v ===== *)
(** * VmRefine: the interpreter implements the parsing machine

    [vm_exec] on the program encoded from an instruction list does what the
    machine of [Machine] does on the list: same positions, frames with list
    positions turned into instruction indices, and lists that hold captures for
    the machine's capture trees.  With a memo table, [recalls] ties what the
    table is known to hold while the furthest mark stands somewhere to what the
    machine may store and find; a windowed run stores nothing, and its captures are
    the machine's less what is not wanted ([Window]).  No capture has 2^31 references at any turn of
    the loop or between the merges of one tree instruction; [chain] says that the
    positions the stack remembers do not run ahead, so every stored extent is
    positive. *)
From S2P Require Import Prelude Charset Input Code CodeFacts ITree Memo Stack Vm Pattern Compile Sem PatternFacts Inline Wf InlineSound Machine Window CompileSpec CompileNodes CompileStruct Operands Labels CompileOk Optimize Encode CaptureHeap CaptureTree MemoHeap VmStack.

Definition has_table (x : ctx) : bool := match memtbl x with Some _ => true | None => false end.

(** The run stores results: a windowed one does not. *)
Definition storing (x : ctx) (w : surround) : bool := su_table w && negb (windowed x).

Inductive reaches (x : ctx) (v : vm) : vm → Prop :=
| reaches_refl : reaches x v v
| reaches_step v1 v2 : step x v = Ok (inl v1) → reaches x v1 v2 → reaches x v v2.

(** The merge a tree instruction makes next: how many entries, of which count. *)
Fixpoint due (es : list stack_entry) (seen : nat) (accum : Z) : option (nat * Z) :=
  match es with
  | mk_sentry (stMemoTree _ _ tc) _ :: es =>
      match es with
      | mk_sentry (stMemoTree _ _ nc) _ :: _ =>
          if accum + tc <? nc then due es (S seen) (accum + tc) else Some (S seen, accum + tc)
      | _ => None
      end
  | _ => None
  end.

Definition at_tree (x : ctx) (v : vm) : bool :=
  match prog (vcode x) !! Z.to_nat (ip v) with Some i => bool_decide (op i = VM_MEMO_TREE) | None => false end.

(** Inside a tree instruction, after one more merge. *)
Definition merges (x : ctx) (v v' : vm) : Prop :=
  at_tree x v = true ∧ ∃ seen accum, due (entries (st v)) 0 0 = Some (seen, accum) ∧ tree_merge x seen accum v = Ok v'.

(** ** What the table knows *)

(** The furthest position read. *)
Definition mark (v : vm) : Z := furthest (src v).

(** How far the machine's next step looks: at the byte it tests, at the one that
    ends a run.  Advancing over bytes does not look at them. *)
Definition looked (d : list Z) (P : pir) (f : Z) (s : state) : Z :=
  match s with
  | Run pc p _ =>
      match P !! pc with
      | Some y =>
          match p_op y with
          | OP (VM_CHAR | VM_SET | VM_TEST_CHAR | VM_TEST_CHAR_NOCHOICE | VM_TEST_SET | VM_TEST_SET_NOCHOICE) => Z.max f p
          | OP VM_SPAN => Z.max f (p + run_at (p_set y) d p)
          | _ => f
          end
      | None => f
      end
  | _ => f
  end.

Lemma looked_ge d P f s : f <= looked d P f s.
Proof. unfold looked. repeat case_match; lia. Qed.

Definition in_subject (d : list Z) (s : state) : Prop := match s with Run _ p _ => 0 <= p <= dlen d | _ => True end.

(** The table while the mark is at [f]: an entry made now counts as examined up
    to the mark, at a position of the subject. *)
Definition at_mark (d : list Z) (F : Z → knowledge) (f : Z) : memory :=
  Memory (λ id q r, 0 <= q <= dlen d → F f id q (f + 1) r) (λ id q r, ∃ hi, F f id q hi r).

(** [F f] is what the table may know while the mark is at [f].  It is enough that
    the machine with [M] may find it, and that [W], which holds of the machine's
    states all along, lets them store it, if the run does store. *)
Record recalls (d : list Z) (P : pir) (tabled stored : bool) (M : memory) (F : Z → knowledge) (W : Z → state → Prop) : Prop := {
  rc_mono : ∀ f f' id q hi r, f <= f' → F f id q hi r → F f' id q hi r;
  rc_found : tabled = true → ∀ f id q hi r, F f id q hi r → found M id q r;
  rc_range : tabled = true → ∀ id q j ts, 0 <= q <= dlen d → found M id q (Some (j, ts)) → q <= j <= dlen d;
  rc_store : stored = true → ∀ f s, W f s → stores P (at_mark d F f) s;
  rc_step : ∀ f f' s s', W f s → in_subject d s → istep d false P s = Some s' → looked d P f s <= f' → W f' s';
  rc_hit : tabled = true → ∀ f f' s s', W f s → hit P (at_mark d F f) s s' → f <= f' → W f' s';
}.

Section Refine.
Context (x : ctx) (P : pir) (w : surround) (M : memory) (F : Z → knowledge) (W : Z → state → Prop).
Notation d := (input x).
Context (Hmt : su_table w = has_table x).
Context (Hbytes : Forall is_byte d) (Hlen : dlen d < 2 ^ 30).
Context (Hops : operands_ok P).
Context (Henc : ∀ k y, P !! k = Some y → real y = true → encodes P (vcode x) k y).
Context (Hend : prog (vcode x) !! ridx P (length P) = Some (mk_insn VM_END 0 0 None)).
Context (Hsize : Z.of_nat (length (prog (vcode x))) < 2 ^ 24).
(** With a table. *)
Context (Hself : su_table w = true → ∀ k y, P !! k = Some y → is_open y = true → is_Some (lab P (p_label y))).
Notation keeps := (storing x w).
Context (Hrec : recalls d P (su_table w) keeps M F W).

Lemma no_table : su_table w = false → memtbl x = None.
Proof using Hmt. rewrite Hmt. unfold has_table. by destruct (memtbl x). Qed.

Lemma a_table : su_table w = true → ∃ tbl, memtbl x = Some tbl.
Proof using Hmt. rewrite Hmt. unfold has_table. destruct (memtbl x); [by eexists | done]. Qed.

Lemma lean_table m : su_table w = true → lean w m.
Proof. intros Hw Hw2. congruence. Qed.

(** ** The relation *)

Definition map_frame (f : frame) : frame :=
  match f with
  | stBtrack t off => stBtrack (Z.of_nat (ridx P (Z.to_nat t))) off
  | stRet r => stRet (Z.of_nat (ridx P (Z.to_nat r)))
  | f => f
  end.

Definition map_stk (K : stack) : stack := Stk (top K) ((λ fC, (map_frame fC.1, fC.2)) <$> below K).

(** Choices and memo frames are at positions up to [p], going down the stack. *)
Fixpoint chain (p : Z) (B : list (frame * forest)) : Prop :=
  match B with
  | [] => True
  | (stBtrack _ off, _) :: B => 0 <= off <= dlen d ∧ off <= p ∧ chain off B
  | (stMemo _ q, _) :: B | (stMemoTree _ q _, _) :: B => 0 <= q <= dlen d ∧ q <= p ∧ chain q B
  | (stCheck _ start _, _) :: B => 0 <= start ∧ chain p B
  | _ :: B => chain p B
  end.

Lemma chain_mono p p' B : p <= p' → chain p B → chain p' B.
Proof. revert p p'. induction B as [|[[] C] B IH]; intros p p' Hp; cbn [chain]; try done; try (intros; by eapply IH); intuition eauto with lia. Qed.

Lemma chain_pop p f C B : chain p ((f, C) :: B) → chain p B.
Proof. destruct f; cbn [chain]; try done; [| | | by intros []]; intros (_ & ? & ?); by eapply chain_mono. Qed.

Lemma chain_list p f C C' B : chain p ((f, C) :: B) → chain p ((f, C') :: B).
Proof. by destruct f. Qed.

Record rel (v : vm) (p : Z) (K : stack) : Prop := {
  rl_src : input_rep (src v) d p (mark v);
  rl_st : srel w (F (mark v)) (st v) (mm v) (map_stk K);
  rl_chain : chain p (below K);
}.

Definition related (s : state) (v : vm) : Prop :=
  match s with
  | Run pc p K => rel v p K ∧ 0 <= p <= dlen d ∧ ip v = Z.of_nat (ridx P pc)
  | Fail K => ∃ p, rel v p K
  | Halt _ => False
  end.

(** What the machine's next state asks of an instruction's outcome, the mark being
    at [f] at least. *)
Definition answers (s : state) (r : res next) (f : Z) : Prop :=
  match s with
  | Run _ _ _ => ∃ v, r = Ok (Go v) ∧ related s v ∧ f <= mark v
  | Fail _ => ∃ v, r = Ok (Failed v) ∧ related s v ∧ f <= mark v
  | Halt (Matched p ts) => ∃ v K, r = Ok (Stop v true) ∧ rel v p K ∧ base (below K) (top K) = ts ∧ modest w (mm v)
  | Halt (Errored p ts) => ∃ v K, r = Ok (Stop v false) ∧ rel v p K ∧ base (below K) (top K) = ts ∧ modest w (mm v)
  | Halt NoMatch => False
  end.

Lemma answers_le s r f f' : answers s r f → f' <= f → answers s r f'.
Proof. destruct s as [| | []]; cbn; try done; intros (v & ? & ? & ?) ?; exists v; (split; [done |]; split; [done | lia]). Qed.

Lemma rel_pos v p K : rel v p K → pos v = p.
Proof. intros [Hf _ _]. by eapply vm_input_pos_spec. Qed.

(** Reading moves the mark; what was known still is. *)
Lemma rel_src v p q K i f : rel v p K → input_rep i d q f → mark v <= f → chain q (below K) → rel (set_src v i) q K ∧ mark (set_src v i) = f.
Proof.
  intros [_ Hs _] Hi Hf Hc. assert (mark (set_src v i) = f) as E by apply Hi. split; [| done]. split; rewrite ?E; [done | | done].
  eapply srel_learn; [| exact Hs]. intros ????. by apply (rc_mono _ _ _ _ _ _ _ Hrec).
Qed.

(** Without a table no capture has a second reference between instructions. *)
Lemma rel_modest v p K : rel v p K → (su_table w = true → modest w (mm v)) → modest w (mm v).
Proof.
  intros [_ (S & _ & [_ Hl] & _) _] Ht. destruct (sumbool_of_bool (su_table w)) as [Hw | Hw]; [by apply Ht | by apply lean_modest].
Qed.

Lemma rel_peek v p K : rel v p K → ∃ v', peek v = Ok (byte_at d p, v') ∧ rel v' p K ∧ ip v' = ip v ∧ mark v' = Z.max (mark v) p.
Proof.
  intros Hv. destruct (input_peek_spec _ _ _ _ (rl_src _ _ _ Hv)) as (i' & Hp & Hr). exists (set_src v i'). unfold peek. rewrite Hp.
  destruct (rel_src _ _ _ _ _ _ Hv Hr ltac:(lia) (rl_chain _ _ _ Hv)) as [Hv' Hm]. by split_and!.
Qed.

Lemma rel_advance v p K n : rel v p K → 0 <= n → p + n < 2 ^ 31 →
  ∃ v', advance v n = (p + n <=? dlen d, v') ∧ rel v' (p + n) K ∧ ip v' = ip v ∧ mark v' = mark v.
Proof.
  intros Hv Hn Hp. destruct (input_advance_spec _ _ _ _ n (rl_src _ _ _ Hv) Hn Hp) as [Hok Hr].
  unfold advance. destruct (input_advance (src v) n) as [ok i]. cbn in Hok, Hr. subst ok. exists (set_src v i).
  destruct (rel_src _ _ _ _ _ _ Hv Hr (Z.le_refl _)) as [Hv' Hm]; [eapply chain_mono, Hv; lia |]. by split_and!.
Qed.

Lemma rel_seek v p q K : rel v p K → 0 <= q < 2 ^ 31 → chain q (below K) →
  rel (set_src v (input_seek_to (src v) q)) q K ∧ mark (set_src v (input_seek_to (src v) q)) = mark v.
Proof. intros Hv Hq Hc. eapply rel_src; [exact Hv | eapply input_seek_to_spec; [apply Hv | done] | lia | done]. Qed.

Lemma rel_stack v p K s m K' : rel v p K → srel w (F (mark v)) s m (map_stk K') → chain p (below K') → rel (set_sm v s m) p K'.
Proof. intros [Hf _ _] Hs Ho. by split. Qed.

Lemma rel_push v p K f : rel v p K → chain p (below (spush f K)) → rel (set_st v (push (map_frame f) (st v))) p (spush f K).
Proof. intros [Hf Hs Ho] Hof. split; [done | by apply (srel_push _ _ _ _ _ (map_stk K)) | done]. Qed.

Lemma pop_keep_map K f K' : pop_keep K = Some (f, K') → pop_keep (map_stk K) = Some (map_frame f, map_stk K').
Proof. destruct K as [C [|[g C'] B]]; [done |]. by intros [= -> <-]. Qed.

Lemma pop_drop_map K f K' : pop_drop K = Some (f, K') → pop_drop (map_stk K) = Some (map_frame f, map_stk K').
Proof. destruct K as [C [|[g C'] B]]; [done |]. by intros [= -> <-]. Qed.

Lemma rel_pop_chain v p K f K' : rel v p K → pop_keep K = Some (f, K') ∨ pop_drop K = Some (f, K') →
  chain p ((f, []) :: below K') ∧ chain p (below K').
Proof.
  intros [_ _ Hc] HK. assert (∃ C, below K = (f, C) :: below K') as [C HB].
  { unfold pop_keep, pop_drop in HK. destruct (below K) as [|[g C] B]; [by destruct HK |]. destruct HK as [[= -> <-] | [= -> <-]]; by exists C. }
  rewrite HB in Hc. split; [by eapply chain_list | by eapply chain_pop].
Qed.

(** Popping the machine's top frame pops the interpreter's. *)
Lemma rel_pop_keep v p K f K' : rel v p K → modest w (mm v) → pop_keep K = Some (f, K') → ∃ cs s1 m1,
  stack_pop (st v) true (mm v) = Ok (Some (mk_sentry (map_frame f) cs, s1, m1)) ∧
  for_each memo_capture_free cs m1 = Ok (mm v) ∧ rel (set_sm v s1 (mm v)) p K'.
Proof.
  intros Hv Hmo HK. destruct (srel_pop_keep w _ _ _ _ _ _ (rl_st _ _ _ Hv) Hmo (pop_keep_map _ _ _ HK)) as (T & s1 & Hp & _ & Hf & Hs & _).
  exists (addr <$> T), s1. eexists. split; [exact Hp |]. split; [exact Hf |]. eapply rel_stack; [done.. |].
  eapply rel_pop_chain; [done | by left].
Qed.

Lemma rel_pop_drop v p K f K' : rel v p K → pop_drop K = Some (f, K') → ∃ cs s1 m1,
  stack_pop (st v) false (mm v) = Ok (Some (mk_sentry (map_frame f) cs, s1, mm v)) ∧
  for_each memo_capture_free cs (mm v) = Ok m1 ∧ rel (set_sm v s1 m1) p K'.
Proof.
  intros Hv HK. destruct (srel_pop_drop w _ _ _ _ _ _ (rl_st _ _ _ Hv) (pop_drop_map _ _ _ HK)) as (T & s1 & Hp & _ & (m1 & Hf & Hs) & _).
  exists (addr <$> T), s1, m1. split_and!; try done. eapply rel_stack; [done.. |]. eapply rel_pop_chain; [done | by right].
Qed.

Lemma rel_nil v p K : rel v p K → below K = [] → entries (st v) = [].
Proof. intros Hv HK. apply (srel_nil w (F (mark v)) _ (mm v) (top K)). pose proof (rl_st _ _ _ Hv) as Hs. unfold map_stk in Hs. by rewrite HK in Hs. Qed.

Lemma rel_length v p K : rel v p K → length (entries (st v)) = length (below K).
Proof.
  intros Hv. pose proof (srel_frames w _ _ _ _ (rl_st _ _ _ Hv)) as Hf. apply (f_equal length) in Hf. unfold map_stk in Hf. cbn [below] in Hf.
  by rewrite !length_fmap in Hf.
Qed.

(** ** Indices *)

Lemma ridx_bound k : 0 <= Z.of_nat (ridx P k) < 2 ^ 24.
Proof.
  assert (ridx P k <= ridx P (length P))%nat.
  { destruct (decide (k <= length P)%nat); [apply ridx_le |]. unfold ridx. rewrite firstn_all, take_ge by lia. done. }
  apply lookup_lt_Some in Hend. lia.
Qed.

Lemma answers_go f pc p K y v : P !! pc = Some y → real y = true → rel v p K → 0 <= p <= dlen d →
  ip v = Z.of_nat (ridx P pc) → f <= mark v → answers (Run (S pc) p K) (go v) f.
Proof.
  intros Hy Hr Hv Hp Hip Hf'. exists (set_ip v (ip v + 1)). split; [done |]. destruct Hv as [Hf Hs Ho].
  split; [| done]. split_and!; try lia; [by split |]. cbn. rewrite (ridx_S _ _ _ Hy), Hr. lia.
Qed.

Lemma answers_jump f k p K v : rel v p K → 0 <= p <= dlen d → f <= mark v → answers (Run k p K) (jump v (Z.of_nat (ridx P k))) f.
Proof.
  intros Hv Hp Hf'. eexists. split; [done |]. destruct Hv as [Hf Hs Ho]. split; [| done]. split_and!; try lia; [by split |].
  cbn. apply u64_id. unfold is_u64. pose proof (ridx_bound k). lia.
Qed.

Lemma answers_fail f p K v : rel v p K → f <= mark v → answers (Fail K) (mret (Failed v)) f.
Proof. intros Hv Hf. exists v. split; [done |]. split; [by exists p | done]. Qed.

(** ** Matching *)

(** What testing the next byte gives. *)
Definition byte_test (t : Z → bool) (p : Z) : option Z :=
  match byte_at d p with Some b => if t b then Some (p + 1) else None | None => None end.

Lemma byte_at_lt p b : byte_at d p = Some b → 0 <= p < dlen d.
Proof. apply byte_at_Some. Qed.

Lemma rel_peek_test v p K test t : rel v p K → (∀ b, test b = Ok (t b)) →
  ∃ v', peek_test v test = Ok (match byte_test t p with Some _ => true | None => false end, v') ∧
    rel v' p K ∧ ip v' = ip v ∧ mark v' = Z.max (mark v) p.
Proof.
  intros Hv Ht. destruct (rel_peek _ _ _ Hv) as (v' & Hp & Hr). exists v'. unfold peek_test, byte_test. rewrite Hp.
  cbn [mbind res_bind]. destruct (byte_at d p) as [b|]; [| done]. rewrite Ht. cbn. by destruct (t b).
Qed.

Lemma byte_test_Some t p j : byte_test t p = Some j → 0 <= p < dlen d ∧ j = p + 1.
Proof.
  unfold byte_test. destruct (byte_at d p) eqn:Hb; [| done]. apply byte_at_lt in Hb. case_match; [| done].
  intros [= <-]. done.
Qed.

Lemma exec_match_ok pc p K y v test t : P !! pc = Some y → real y = true → related (Run pc p K) v →
  (∀ b, test b = Ok (t b)) → answers (or_fail (S pc) K (byte_test t p)) (exec_match v test) (Z.max (mark v) p).
Proof.
  intros Hy Hr (Hv & Hp & Hip) Ht. destruct (rel_peek_test _ _ _ _ _ Hv Ht) as (v' & Hpt & Hv' & Hip' & Hmk).
  unfold exec_match. rewrite Hpt, <- Hmk. cbn [mbind res_bind]. destruct (byte_test t p) as [j|] eqn:Hj; cbn [or_fail].
  - apply byte_test_Some in Hj as [Hb ->]. destruct (rel_advance v' p K 1 Hv') as (v2 & Ha & Hv2 & Hip2 & <-); [lia.. |].
    rewrite Ha. cbn [snd]. eapply answers_go; [done | done | done | lia | by rewrite Hip2, Hip' | done].
  - by eapply answers_fail.
Qed.

Lemma exec_any_ok pc p K y v n o bb s : P !! pc = Some y → real y = true → related (Run pc p K) v → 0 <= n < 256 →
  answers (or_fail (S pc) K (dot_match d n p)) (exec_any (mk_insn o n bb s) v) (mark v).
Proof.
  intros Hy Hr (Hv & Hp & Hip) Hn. unfold exec_any. cbn [a]. destruct (rel_advance v p K n Hv) as (v2 & Ha & Hv2 & Hip2 & <-); [lia.. |].
  rewrite Ha. unfold dot_match. rewrite !(proj2 (Z.leb_le _ _)) by lia. cbn [andb].
  destruct (Z.leb_spec (p + n) (dlen d)); cbn [or_fail].
  - eapply answers_go; [done | done | done | lia | congruence | done].
  - by eapply answers_fail.
Qed.

Lemma exec_span_ok pc p K y v s o aa bb : P !! pc = Some y → real y = true → related (Run pc p K) v →
  answers (Run (S pc) (p + run_at s d p) K) (exec_span x (mk_insn o aa bb (Some s)) v) (Z.max (mark v) (p + run_at s d p)).
Proof.
  intros Hy Hr (Hv & Hp & Hip). unfold exec_span. cbn [set must mbind res_bind].
  destruct (input_span_spec (S (length d)) s _ d p _ (rl_src _ _ _ Hv)) as (i' & Hi & Hri); [unfold dlen in *; lia |].
  rewrite Hi. cbn [mbind res_bind]. pose proof (run_at_bounds s d p). fold (dlen d) in *.
  destruct (rel_src _ _ _ _ _ _ Hv Hri) as [Hv' <-]; [lia | eapply chain_mono, Hv; lia |]. by eapply answers_go; [| | | lia | | done].
Qed.

Lemma neighbour_spec k : 
  (let at_ (k : Z) := if (0 <=? k) && (k <? inputlen x) then default (-1) (d !! Z.to_nat k) else -1 in at_ k) = neighbour d k.
Proof.
  unfold neighbour, byte_at, inputlen. destruct (Z.leb_spec 0 k); destruct (Z.ltb_spec k 0); try lia; cbn [andb]; [| done].
  destruct (Z.ltb_spec k (Z.of_nat (length d))); [done |]. by rewrite lookup_ge_None_2 by lia.
Qed.

Lemma exec_empty_ok pc p K y v n o bb s : P !! pc = Some y → real y = true → related (Run pc p K) v →
  answers (or_fail (S pc) K (emptyop_match d n p)) (exec_empty x (mk_insn o n bb s) v) (mark v).
Proof.
  intros Hy Hr (Hv & Hp & Hip). unfold exec_empty. rewrite (rel_pos _ _ _ Hv). cbn [a].
  unfold dlen in *. rewrite u64_id by (unfold is_u64; lia).
  assert ((if 0 <? p then let at_ (k : Z) := if (0 <=? k) && (k <? inputlen x) then default (-1) (d !! Z.to_nat k) else -1 in at_ (p - 1) else -1) = neighbour d (p - 1)) as E1.
  { rewrite <- neighbour_spec. destruct (Z.ltb_spec 0 p); [done |]. cbn. destruct (Z.leb_spec 0 (p - 1)); [lia | done]. }
  assert ((if p <? inputlen x then let at_ (k : Z) := if (0 <=? k) && (k <? inputlen x) then default (-1) (d !! Z.to_nat k) else -1 in at_ p else -1) = neighbour d p) as E2.
  { rewrite <- neighbour_spec. cbn. destruct (Z.ltb_spec p (inputlen x)); [done |]. by rewrite andb_false_r. }
  cbn in E1, E2. rewrite E1, E2. unfold emptyop_match. destruct (negb _); cbn [or_fail].
  - by eapply answers_go.
  - by eapply answers_fail.
Qed.

(** ** Tests and control *)

(** The target of a jumping instruction. *)
Lemma target_eq l j t : lab P l = Some j → (∀ l' j', Some l = Some l' → lab P l' = Some j' → t = Z.of_nat (ridx P j')) →
  t = Z.of_nat (ridx P j).
Proof. intros Hl Ht. by eapply Ht. Qed.

Lemma map_btrack k p : map_frame (stBtrack (Z.of_nat k) p) = stBtrack (Z.of_nat (ridx P k)) p.
Proof. cbn. by rewrite Nat2Z.id. Qed.

Lemma exec_test_ok pc p K y v test t l tgt wc s' : P !! pc = Some y → real y = true → related (Run pc p K) v →
  (∀ b, test b = Ok (t b)) → (∀ j, lab P l = Some j → tgt = Z.of_nat (ridx P j)) →
  test_insn P (byte_test t p) wc l pc p K = Some s' → answers s' (exec_test v test tgt wc) (Z.max (mark v) p).
Proof.
  intros Hy Hr (Hv & Hp & Hip) Ht Hl Hs'. destruct (rel_peek_test _ _ _ _ _ Hv Ht) as (v' & Hpt & Hv' & Hip' & <-).
  unfold exec_test. rewrite Hpt. cbn [mbind res_bind]. unfold test_insn, jump_to, choice in Hs'.
  destruct (byte_test t p) as [q|] eqn:Hq.
  - apply byte_test_Some in Hq as [Hb ->]. destruct wc.
    + destruct (lab P l) as [j|] eqn:Hj; [| done]. injection Hs' as <-. rewrite (rel_pos _ _ _ Hv'), (Hl j eq_refl).
      assert (rel (set_st v' (push_btrack (st v') (Z.of_nat (ridx P j)) p)) p (spush (stBtrack (Z.of_nat j) p) K)) as Hv1.
      { unfold push_btrack. rewrite <- map_btrack. apply rel_push; [done |]. cbn. pose proof (rl_chain _ _ _ Hv). split_and!; done || lia. }
      destruct (rel_advance _ p _ 1 Hv1) as (v2 & Ha & Hv2 & Hip2 & Hmk2); [lia.. |]. rewrite Ha. cbn [snd].
      change (mark (set_st v' _)) with (mark v') in Hmk2. rewrite <- Hmk2. eapply answers_go; [done | done | done | lia | rewrite Hip2; cbn; congruence | done].
    + injection Hs' as <-. destruct (rel_advance _ p _ 1 Hv') as (v2 & Ha & Hv2 & Hip2 & <-); [lia.. |]. rewrite Ha. cbn [snd].
      eapply answers_go; [done | done | done | lia | congruence | done].
  - destruct (lab P l) as [j|] eqn:Hj; [| done]. injection Hs' as <-. rewrite (Hl j eq_refl). by apply answers_jump.
Qed.

Lemma exec_test_any_ok pc p K y v n l j s' o s : P !! pc = Some y → real y = true → related (Run pc p K) v →
  0 <= n < 256 → lab P l = Some j → test_insn P (dot_match d n p) true l pc p K = Some s' →
  answers s' (exec_test_any (mk_insn o (Z.of_nat (ridx P j)) n s) v) (mark v).
Proof.
  intros Hy Hr (Hv & Hp & Hip) Hn Hl Hs'. unfold exec_test_any. cbn [a b]. rewrite (rel_pos _ _ _ Hv).
  destruct (rel_advance v p K n Hv) as (v2 & Ha & Hv2 & Hip2 & <-); [lia.. |]. rewrite Ha.
  unfold test_insn, jump_to, choice, dot_match in Hs'. rewrite !(proj2 (Z.leb_le _ _)), Hl in Hs' by lia. cbn [andb] in Hs'.
  destruct (Z.leb_spec (p + n) (dlen d)); injection Hs' as <-.
  - assert (rel (set_st v2 (push_btrack (st v2) (Z.of_nat (ridx P j)) p)) (p + n) (spush (stBtrack (Z.of_nat j) p) K)) as Hv1.
    { unfold push_btrack. rewrite <- map_btrack. apply rel_push; [done |]. cbn. pose proof (rl_chain _ _ _ Hv). split_and!; done || lia. }
    eapply answers_go; [done | done | exact Hv1 | lia | cbn; congruence | done].
  - destruct (rel_seek _ _ p _ Hv2) as [Hv3 <-]; [lia | apply Hv | by apply answers_jump].
Qed.

Lemma exec_call_ok pc p K y v j o bb s : P !! pc = Some y → real y = true → related (Run pc p K) v →
  answers (Run j p (spush (stRet (Z.of_nat (S pc))) K)) (exec_call (mk_insn o (Z.of_nat (ridx P j)) bb s) v) (mark v).
Proof.
  intros Hy Hr (Hv & Hp & Hip). unfold exec_call. cbn [a]. apply answers_jump; [| done | done].
  pose proof (ridx_bound (S pc)). rewrite (ridx_S _ _ _ Hy), Hr in *.
  rewrite i32_id by (unfold is_i32; lia).
  replace (ip v + 1) with (Z.of_nat (ridx P (S pc))) by (rewrite (ridx_S _ _ _ Hy), Hr; lia).
  unfold push_ret. replace (stRet (Z.of_nat (ridx P (S pc)))) with (map_frame (stRet (Z.of_nat (S pc)))) by (cbn; by rewrite SuccNat2Pos.id_succ || by rewrite Nat2Z.id).
  apply rel_push; [done | apply Hv].
Qed.

Lemma exec_commit_ok p f K K' v j o bb s pc : related (Run pc p K) v → modest w (mm v) → pop_keep K = Some (f, K') →
  answers (Run j p K') (exec_commit (mk_insn o (Z.of_nat (ridx P j)) bb s) v) (mark v).
Proof.
  intros (Hv & Hp & Hip) Hmo HK. unfold exec_commit. cbn [a].
  destruct (rel_pop_keep _ _ _ _ _ Hv Hmo HK) as (cs & s1 & m1 & Hpop & Hfree & Hv1).
  unfold pop_clear. rewrite Hpop. cbn [mbind res_bind]. unfold entry_clear_capt. cbn [capt]. rewrite Hfree. cbn [mbind res_bind].
  by apply answers_jump.
Qed.

Lemma exec_return_ok p r K K' v pc : related (Run pc p K) v → modest w (mm v) → pop_keep K = Some (stRet r, K') →
  answers (Run (Z.to_nat r) p K') (exec_return v) (mark v).
Proof.
  intros (Hv & Hp & Hip) Hmo HK. unfold exec_return.
  destruct (rel_pop_keep _ _ _ _ _ Hv Hmo HK) as (cs & s1 & m1 & Hpop & Hfree & Hv1).
  rewrite Hpop. cbn [mbind res_bind map_frame]. unfold entry_clear_capt. cbn [capt]. rewrite Hfree. cbn [mbind res_bind].
  by apply answers_jump.
Qed.

Lemma exec_partial_commit_ok p t q K K' v j o bb s pc : related (Run pc p K) v → pop_keep K = Some (stBtrack t q, K') →
  answers (Run j p (spush (stBtrack t p) K')) (exec_partial_commit (mk_insn o (Z.of_nat (ridx P j)) bb s) v) (mark v).
Proof.
  intros (Hv & Hp & Hip) HK. unfold exec_partial_commit. destruct (rel_pop_chain _ _ _ _ _ Hv (or_introl HK)) as [_ Hch].
  rewrite (rel_pos _ _ _ Hv). cbn [a].
  destruct (srel_prop w _ _ _ _ _ _ (map_frame (stBtrack t p)) (rl_st _ _ _ Hv) (pop_keep_map _ _ _ HK)) as (cs & es & He & Hs).
  destruct (st v) as [es0 r] eqn:Est. cbn in He. subst es0. cbn [map_frame result] in *.
  apply answers_jump; [| done | done]. split; [apply Hv | exact Hs |]. cbn. split_and!; done || lia.
Qed.

Lemma exec_back_commit_ok p t q K K' v j o bb s pc : related (Run pc p K) v → modest w (mm v) → pop_keep K = Some (stBtrack t q, K') →
  answers (Run j q K') (exec_back_commit (mk_insn o (Z.of_nat (ridx P j)) bb s) v) (mark v).
Proof.
  intros (Hv & Hp & Hip) Hmo HK. unfold exec_back_commit. destruct (rel_pop_chain _ _ _ _ _ Hv (or_introl HK)) as [(Hq & Hqp & Hch) _].
  destruct (rel_pop_keep _ _ _ _ _ Hv Hmo HK) as (cs & s1 & m1 & Hpop & Hfree & Hv1).
  rewrite Hpop. cbn [mbind res_bind map_frame]. unfold entry_clear_capt. cbn [capt]. rewrite Hfree. cbn [mbind res_bind a].
  destruct (rel_seek _ _ q _ Hv1) as [Hv2 Hmk]; [lia | done |]. change (mark v) with (mark (set_sm v s1 (mm v))). rewrite <- Hmk. by apply answers_jump.
Qed.

Lemma exec_fail_twice_ok p K v pc : related (Run pc p K) v → answers (Fail (default K (snd <$> pop_drop K))) (exec_fail_twice v) (mark v).
Proof.
  intros (Hv & Hp & Hip). unfold exec_fail_twice. destruct (pop_drop K) as [[f K']|] eqn:HK; cbn [fmap option_fmap option_map default snd].
  - destruct (rel_pop_drop _ _ _ _ _ Hv HK) as (cs & s1 & m1 & Hpop & Hfree & Hv1).
    rewrite Hpop. cbn [mbind res_bind]. unfold entry_clear_capt. cbn [capt]. rewrite Hfree. cbn [mbind res_bind].
    by eapply answers_fail.
  - assert (below K = []) as HB by (unfold pop_drop in HK; by destruct (below K) as [|[]]).
    pose proof (rel_nil _ _ _ Hv HB) as He. unfold stack_pop. rewrite He. by eapply answers_fail.
Qed.

(** ** Captures *)

Lemma i16_idem z : i16 (i16 z) = i16 z.
Proof. apply i16_id, is_i16_range. Qed.

(** The range of the captures is not looked at by the loop. *)
Lemma rel_note v p K lo hi : rel v p K → rel (note_range x v lo hi) p K.
Proof. unfold note_range. destruct (windowed x); [| done]. intros []. by split. Qed.

Lemma note_range_same v lo hi : st (note_range x v lo hi) = st v ∧ mm (note_range x v lo hi) = mm v ∧ ip (note_range x v lo hi) = ip v ∧
  mark (note_range x v lo hi) = mark v.
Proof. unfold note_range. by destruct (windowed x). Qed.

Lemma exec_push_ok pc p K y v f : P !! pc = Some y → real y = true → related (Run pc p K) v → chain p (below (spush f K)) →
  answers (Run (S pc) p (spush f K)) (go (set_st v (push (map_frame f) (st v)))) (mark v).
Proof. intros Hy Hr (Hv & Hp & Hip) Hf. eapply answers_go; [done | done | by apply rel_push | done | done | done]. Qed.

(** A capture is built, or left out when it is not wanted. *)
Lemma exec_capture_full_ok pc p K y v id n o s : P !! pc = Some y → real y = true → related (Run pc p K) v → modest w (mm v) →
  ∃ s1, shown_state (wanted x) s1 (Run (S pc) p (grow [PNode id (p - n) n []] K)) ∧
    answers s1 (exec_capture_full x (mk_insn o id n s) v) (mark v).
Proof.
  intros Hy Hr (Hv & Hp & Hip) Hmo. unfold exec_capture_full. cbn [a b]. rewrite (rel_pos _ _ _ Hv).
  destruct (wanted x (p - n) p) eqn:Hwant.
  - eexists. split; [apply shown_state_refl |]. destruct (note_range_same v (p - n) p) as (E1 & E2 & E3 & E4).
    pose proof (rel_note _ _ _ (p - n) p Hv) as Hv1. set (v1 := note_range x v _ _) in *. rewrite <- E2 in Hmo. rewrite <- E3 in Hip. rewrite <- E4.
    destruct (srel_leaf w _ _ _ _ id CAP_NODE (p - n) n v1 (rl_st _ _ _ Hv1) Hmo) as (s1 & m1 & Hg & Hs).
    change (memo_capture_node (mm v1) id (p - n) n) with (next_cap (mm v1), (new_cap (mm v1) (leaf id CAP_NODE (p - n) n)).2).
    cbv beta iota. rewrite Hg. cbn [mbind res_bind].
    eapply answers_go; [done | done | eapply (rel_stack v1); [exact Hv1 | exact Hs | apply Hv1] | done | done | done].
  - exists (Run (S pc) p K). split; [| by eapply answers_go]. do 2 (split; [done |]). apply shown_left_out. by replace (p - n + n) with p by lia.
Qed.

Lemma exec_capture_end_ok pc p K K' y v id start : P !! pc = Some y → real y = true →
  related (Run pc p K) v → modest w (mm v) → pop_drop K = Some (stCapt id start, K') →
  ∃ s1, shown_state (wanted x) s1 (Run (S pc) p (grow [PNode id start (p - start) (top K)] K')) ∧
    answers s1 (exec_capture_end x v) (mark v).
Proof.
  intros Hy Hr (Hv & Hp & Hip) Hmo HK. unfold exec_capture_end. destruct (rel_pop_chain _ _ _ _ _ Hv (or_intror HK)) as [_ Hch].
  rewrite (rel_pos _ _ _ Hv). destruct (wanted x start p) eqn:Hwant.
  - eexists. split; [apply shown_state_refl |].
    destruct (srel_build w _ _ _ _ _ _ id CAP_NODE start (p - start) (rl_st _ _ _ Hv) Hmo (pop_drop_map _ _ _ HK))
      as (cs & s1 & m2 & m3 & t & Hpop & Hadd & Hfree & Ht & Htr & Hm & _).
    rewrite Hpop. cbn [mbind res_bind map_frame]. rewrite Hwant.
    change (memo_capture_node (mm v) id start (p - start)) with (next_cap (mm v), (new_cap (mm v) (leaf id CAP_NODE start (p - start))).2).
    cbv beta iota. rewrite Hadd. cbn [mbind res_bind]. unfold entry_clear_capt. cbn [capt]. rewrite Hfree. cbn [mbind res_bind].
    destruct (give_spec w _ (note_range x v start p) s1 t m3 _ Hm) as (s2 & Hg & Hs). rewrite Ht in Hg. rewrite Hg. cbn [mbind res_bind].
    rewrite Htr in Hs. destruct (note_range_same v start p) as (E1 & E2 & E3 & E4). rewrite <- E4 in *.
    eapply answers_go; [done | done | eapply (rel_stack (note_range x v start p)); [by apply rel_note | exact Hs | exact Hch] | done | by rewrite <- E3 in Hip | done].
  - exists (Run (S pc) p K'). split.
    + do 2 (split; [done |]). apply shown_left_out. by replace (start + (p - start)) with p by lia.
    + destruct (rel_pop_drop _ _ _ _ _ Hv HK) as (cs & s1 & m1 & Hpop & Hfree & Hv1). rewrite Hpop. cbn [mbind res_bind map_frame].
      rewrite Hwant. unfold entry_clear_capt. cbn [capt]. rewrite Hfree. cbn [mbind res_bind]. by eapply answers_go.
Qed.

(** ** Memoization *)

Lemma memoize_frees v id p mlen count cs m : keeps = false → for_each memo_capture_free cs (mm v) = Ok m →
  memoize x v id p mlen count cs = Ok (set_mm v m).
Proof.
  intros Hk H. unfold memoize. unfold storing in Hk. apply andb_false_iff in Hk as [Hw | Hwin]; [by rewrite (no_table Hw), H |].
  apply negb_false_iff in Hwin. rewrite Hwin, H. by destruct (memtbl x).
Qed.

Lemma lookup_memo_none i v : su_table w = false → lookup_memo x i v = (None, v).
Proof. intros Hw. unfold lookup_memo. by rewrite (no_table Hw). Qed.

(** The captures [T] of a popped entry go to the table or are dropped. *)
Lemma memoize_ok v p K T S id q len count : input_rep (src v) d p (mark v) → st v = conc S → view S = map_stk K →
  mem_ok w (F (mark v)) (mm v) (T ++ roots S) → chain p (below K) → q <= p →
  (keeps = false → ∃ m, for_each memo_capture_free (addr <$> T) (mm v) = Ok m ∧ srel w (F (mark v)) (st v) m (map_stk K)) →
  (keeps = true → F (mark v) id q (mark v + 1) (if len =? -1 then None else Some (q + len, trees T))) →
  ∃ m, memoize x v id q len count (addr <$> T) = Ok (set_mm v m) ∧ rel (set_mm v m) p K.
Proof.
  intros Hsrc Hst HS Hm Hc Hq Hfree Hf. destruct (sumbool_of_bool keeps) as [Hk | Hk].
  - pose proof Hk as [Hw Hwin%negb_true_iff]%andb_prop. destruct (a_table Hw) as (tbl & Etbl). unfold memoize. rewrite Etbl, Hwin.
    assert (pos v = p) as -> by (by eapply vm_input_pos_spec). set (ex := _ - q + 1).
    assert (0 < ex) as Hex by (subst ex; case_zb; lia).
    destruct (table_put w (F (mark v)) (mm v) T (roots S) tbl id q len ex count) as (m' & Hput & Hm'); [done | done | done | |].
    { exists (mark v + 1). split; [subst ex; fold (mark v); case_zb; lia | by apply Hf]. }
    rewrite Hput. exists m'. split; [done |]. split; [done | | done]. exists S. split_and!; [done | done | by apply lean_table | done].
  - destruct (Hfree Hk) as (m & Hfr & Hs). exists m. split; [by apply memoize_frees |]. by split.
Qed.

Lemma rel_top v p K f C K' g : rel v p K → below K = (f, C) :: K' → chain p ((g, []) :: K') → ∃ cs es,
  entries (st v) = mk_sentry (map_frame f) cs :: es ∧
  rel (set_st v (mk_stack (mk_sentry (map_frame g) cs :: es) (result (st v)))) p (Stk (top K) ((g, C) :: K')).
Proof.
  intros Hv HK Hg.
  assert (below (map_stk K) = (map_frame f, C) :: ((λ fC, (map_frame fC.1, fC.2)) <$> K')) as HK2 by (cbn; by rewrite HK).
  destruct (srel_top w _ _ _ _ _ _ _ (map_frame g) (rl_st _ _ _ Hv) HK2) as (cs & es & He & Hs).
  exists cs, es. split; [done |]. split; [apply Hv | exact Hs | by eapply chain_list].
Qed.

(** A copy of the top entry's captures goes to the table, or is dropped. *)
Lemma copy_memoize v p K id q c C K' cs es count : rel v p K → modest w (mm v) → below K = (stMemoTree id q c, C) :: K' →
  entries (st v) = mk_sentry (stMemoTree id q c) cs :: es → (keeps = true → 0 <= q <= dlen d → F (mark v) id q (mark v + 1) (Some (p, top K))) →
  ∃ m1 m2, capt_copy_ref cs (mm v) = Ok (cs, m1) ∧ memoize x (set_mm v m1) id q (p - q) count cs = Ok (set_mm v m2) ∧ rel (set_mm v m2) p K.
Proof.
  intros Hv Hmo HK He Hst. pose proof (rl_chain _ _ _ Hv) as Hc. rewrite HK in Hc. destruct Hc as (Hq & Hqp & _).
  assert (below (map_stk K) = (stMemoTree id q c, C) :: ((λ fC, (map_frame fC.1, fC.2)) <$> K')) as HK2 by (cbn; by rewrite HK).
  destruct (srel_copy w _ _ _ _ _ _ _ _ _ (rl_st _ _ _ Hv) Hmo HK2 He) as (m1 & Hc & Hf). exists m1.
  destruct (rl_st _ _ _ Hv) as (S & HS & [HmS Hl] & HvS).
  assert (cs = addr <$> top S ∧ trees (top S) = top K) as [-> HT].
  { rewrite HS in He. destruct S as [T [|[g T'] B]]; [by apply (f_equal below) in HvS; rewrite HK2 in HvS |].
    cbn in He. injection He as _ <- _. split; [done |]. by apply (f_equal top) in HvS. }
  destruct (bump_restore w (F (mark v)) (mm v) (top S) (concat (below S).*2) HmS Hmo) as [Hroom _].
  unfold capt_copy_ref, add_refs in Hc. rewrite (ref_all _ _ Hroom) in Hc. cbn_res. injection Hc as <-.
  destruct (memoize_ok (set_mm v (with_caps (mm v) (bump (caps (mm v)) (addr <$> top S)))) p K (top S) S id q (p - q) count) as (m2 & Hmz & Hv2);
    [apply Hv | done | done | | apply Hv | done | | |].
  - apply mem_ok_bump; [exact HmS | apply at_hand_app | done].
  - intros _. exists (mm v). split; [done |]. apply Hv.
  - intros Hw. destruct (Z.eqb_spec (p - q) (-1)); [lia |]. replace (q + (p - q)) with p by lia. rewrite HT. by apply Hst.
  - exists m2. split_and!; [unfold capt_copy_ref, add_refs; by rewrite (ref_all _ _ Hroom) | exact Hmz | exact Hv2].
Qed.

(** Closing stores what the machine may store. *)
Lemma exec_memo_close_ok pc p K K' y v id q : P !! pc = Some y → real y = true → is_op VM_MEMO_CLOSE y = true →
  related (Run pc p K) v → modest w (mm v) → pop_keep K = Some (stMemo id q, K') → (keeps = true → stores P (at_mark d F (mark v)) (Run pc p K)) →
  answers (Run (S pc) p K') (exec_memo_close x v) (mark v).
Proof.
  intros Hy Hr Ho (Hv & Hp & Hip) Hmo HK Hst. unfold exec_memo_close.
  destruct (rel_pop_chain _ _ _ _ _ Hv (or_introl HK)) as [(Hq & Hqp & Hch) Hch'].
  destruct (srel_pop_keep w _ _ _ _ _ _ (rl_st _ _ _ Hv) Hmo (pop_keep_map _ _ _ HK)) as (T & s1 & Hpop & HT & Hfree & Hs & S & HS & HmS & HvS).
  rewrite Hpop. cbn [mbind res_bind map_frame]. set (v1 := set_sm v s1 _).
  destruct (memoize_ok v1 p K' T S id q (p - q) 1) as (m2 & Hmz & Hv2); [apply Hv | done.. | | |].
  - intros _. by exists (mm v).
  - intros Hw. destruct (Z.eqb_spec (p - q) (-1)); [lia |]. replace (q + (p - q)) with p by lia. rewrite HT.
    specialize (Hst Hw). unfold stores, insn_stores in Hst. rewrite Hy in Hst. unfold is_op in Ho. apply bool_decide_eq_true in Ho. rewrite Ho in Hst.
    unfold pop_keep in HK. destruct (below K) as [|[g C] B]; [done |]. injection HK as -> _. by apply Hst.
  - assert (pos v1 = p) as -> by exact (rel_pos _ _ _ Hv). rewrite Hmz. cbn [mbind res_bind].
    eapply answers_go; [done | done | exact Hv2 | done | done | done].
Qed.

(** *** Looking up *)

(** An entry's captures, which the table keeps alive, at hand for the stack. *)
Definition handed (U : list ctree) (v : vm) (K : stack) : Prop :=
  ∃ S, st v = conc S ∧ mem_ok w (F (mark v)) (mm v) (roots S) ∧ view S = map_stk K ∧ at_hand w (F (mark v)) (mm v) (roots S) U.

Lemma handed_push f U v K : handed U v K → handed U (set_st v (push (map_frame f) (st v))) (spush f K).
Proof. intros (S & HS & Hm & HvS & Hh). exists (spush (map_frame f) S). cbn. rewrite HS. split_and!; [done.. | | done].
  unfold view, map_stk, spush in *. injection HvS as HT HB. cbn [top below]. rewrite !fmap_cons. cbn [fst snd]. by rewrite HT, HB.
Qed.

Lemma looks_up v p K i : rel v p K → (∃ v1, lookup_memo x i v = (None, v1) ∧ rel v1 p K ∧ ip v1 = ip v ∧ mark v1 = mark v) ∨
  su_table w = true ∧ ∃ e v1 en U, lookup_memo x i v = (Some e, v1) ∧ rel v1 p K ∧ (ip v1 = ip v ∧ mark v1 = mark v) ∧ caps (mm v1) = caps (mm v) ∧
    ents (mm v1) !! e = Some en ∧ e_captures en = addr <$> U ∧ (∃ hi, F (mark v) (b i) p hi (result_of en p (trees U))) ∧ handed U v1 K.
Proof.
  intros Hv. destruct (sumbool_of_bool (su_table w)) as [Hw | Hw]; [| left; exists v; by rewrite lookup_memo_none].
  destruct (a_table Hw) as (tbl & Etbl). unfold lookup_memo. rewrite Etbl, (rel_pos _ _ _ Hv).
  destruct (rl_st _ _ _ Hv) as (S & HS & [HmS Hl] & HvS).
  destruct (table_get w (F (mark v)) (mm v) (roots S) (b i) p Hw HmS) as (oe & m1 & Hget & Hcaps & Hm1 & He).
  rewrite Hget. assert (rel (set_mm v m1) p K) as Hv1.
  { split; [apply Hv | | apply Hv]. exists S. split_and!; [done | done | by apply lean_table | done]. }
  destruct oe as [e|]; [| left; by exists (set_mm v m1)].
  destruct (He e eq_refl) as (en & U & Hen & HU & Hfd & Hhand). right. split; [done |]. exists e, (set_mm v m1), en, U.
  split_and!; try done. by exists S.
Qed.

(** The entry's captures go to the top list. *)
Lemma hand_out U v p K : su_table w = true → rel v p K → modest w (mm v) → handed U v K →
  ∃ v', add_each v (addr <$> U) = Ok v' ∧ rel v' p (grow (trees U) K) ∧ mark v' = mark v.
Proof.
  intros Hw Hv Hmo ([C B] & HS & Hm & HvS & Hh). rewrite add_each_spec by (by eapply at_hand_room). eexists. split; [done |]. split; [| done].
  split; [apply Hv | | apply Hv]. exists (Stk (C ++ U) B). split_and!.
  - cbn. rewrite HS. apply add_top_conc.
  - eapply mem_ok_perm; [by apply mem_ok_bump |]. unfold roots. cbn [top below]. by rewrite (assoc_L (++)), (Permutation_app_comm U C).
  - by apply lean_table.
  - unfold view, map_stk, grow in *. cbn [top below] in *. injection HvS as <- <-. by rewrite trees_app.
Qed.

(** Nothing is found, and the frame is pushed; or a result, and the machine goes
    where it leads. *)
Lemma exec_memo_open_ok pc p K y v o t s : P !! pc = Some y → real y = true → is_op VM_MEMO_OPEN y = true →
  (∀ j, lab P (p_label y) = Some j → t = Z.of_nat (ridx P j)) → related (Run pc p K) v → modest w (mm v) →
  ∃ s1, (s1 = Run (S pc) p (spush (stMemo (i16 (p_b y)) p) K) ∨ su_table w = true ∧ hit P (at_mark d F (mark v)) (Run pc p K) s1) ∧
    answers s1 (exec_memo_open x (mk_insn o t (i16 (p_b y)) s) v) (mark v).
Proof.
  intros Hy Hr Ho Ht (Hv & Hp & Hip) Hmo. unfold exec_memo_open. assert (is_open y = true) as Hop by (unfold is_open; by rewrite Ho).
  destruct (looks_up v p K (mk_insn o t (i16 (p_b y)) s) Hv) as [(v1 & -> & Hv1 & Hip1 & Hmk1) | (Hw & e & v1 & en & U & -> & Hv1 & [Hip1 Hmk1] & Hcaps & Hen & HU & [hi Hfd] & Hh)];
    cbn [b a] in *.
  { eexists. split; [by left |]. rewrite i16_idem, (rel_pos _ _ _ Hv1), <- Hmk1.
    eapply (exec_push_ok pc p K y v1 (stMemo (i16 (p_b y)) p)); [done | done | by rewrite <- Hip1 in Hip |]. cbn.
    pose proof (rl_chain _ _ _ Hv1). split_and!; done || lia. }
  unfold memo_entry_length, memo_entry_captures, get_ent. rewrite Hen. cbn_res. unfold result_of in Hfd.
  destruct (Z.eqb_spec (e_length en) (-1)) as [El | El].
  { exists (Fail K). split; [right; split; [done |]; exists y, None; split_and!; try done; by exists hi |]. eapply answers_fail; [exact Hv1 | lia]. }
  pose proof (rc_range _ _ _ _ _ _ _ Hrec Hw _ _ _ _ Hp (rc_found _ _ _ _ _ _ _ Hrec Hw _ _ _ _ _ Hfd)) as Hj. destruct (Hself Hw pc y Hy Hop) as [k Hk].
  exists (Run k (p + e_length en) (grow (trees U) K)). split.
  { right. split; [done |]. exists y, (Some (p + e_length en, trees U)). split_and!; [done | done | by exists hi |]. rewrite Ho. exists K. split; [done |]. unfold jump_to. by rewrite Hk. }
  destruct (hand_out U v1 p K) as (v2 & Ha2 & Hv2 & Hmk2); [done | done | intros c; rewrite Hcaps; apply Hmo | done |].
  rewrite HU, Ha2. cbn_res. destruct (rel_advance v2 p _ (e_length en) Hv2) as (v3 & Ha & Hv3 & _ & Hmk3); [lia.. |]. rewrite Ha. cbn [snd].
  rewrite (Ht k Hk). apply answers_jump; [done | lia..].
Qed.

(** *** Repetitions *)

Lemma exec_memo_tree_open_ok pc p K y v o t s : P !! pc = Some y → real y = true → is_op VM_MEMO_TREE_OPEN y = true →
  (∀ j, lab P (p_label y) = Some j → t = Z.of_nat (ridx P j)) → related (Run pc p K) v → modest w (mm v) →
  ∃ s1, (s1 = Run (S pc) p (spush (stMemoTree (i16 (p_b y)) p 0) K) ∨ su_table w = true ∧ hit P (at_mark d F (mark v)) (Run pc p K) s1) ∧
    answers s1 (exec_memo_tree_open x (mk_insn o t (i16 (p_b y)) s) v) (mark v).
Proof.
  intros Hy Hr Ho Ht (Hv & Hp & Hip) Hmo. unfold exec_memo_tree_open.
  assert (is_open y = true) as Hop by (unfold is_open; by rewrite Ho, orb_true_r).
  assert (∀ v c, rel v p K → chain p (below (spush (stMemoTree (i16 (p_b y)) p c) K))) as Hch.
  { intros v0 c Hv0. cbn. pose proof (rl_chain _ _ _ Hv0). split_and!; done || lia. }
  destruct (looks_up v p K (mk_insn o t (i16 (p_b y)) s) Hv) as [(v1 & -> & Hv1 & Hip1 & Hmk1) | (Hw & e & v1 & en & U & -> & Hv1 & [Hip1 Hmk1] & Hcaps & Hen & HU & [hi Hfd] & Hh)];
    cbn [b a] in *.
  { eexists. split; [by left |]. rewrite i16_idem, (rel_pos _ _ _ Hv1), <- Hmk1.
    eapply (exec_push_ok pc p K y v1 (stMemoTree (i16 (p_b y)) p 0)); [done | done | by rewrite <- Hip1 in Hip |]. by eapply Hch. }
  unfold memo_entry_length, memo_entry_count, memo_entry_captures, get_ent. rewrite Hen. cbn_res. unfold result_of in Hfd.
  destruct (Z.eqb_spec (e_length en) (-1)) as [El | El].
  { exists (Fail K). split; [right; split; [done |]; exists y, None; split_and!; try done; by exists hi |]. eapply answers_fail; [exact Hv1 | lia]. }
  pose proof (rc_range _ _ _ _ _ _ _ Hrec Hw _ _ _ _ Hp (rc_found _ _ _ _ _ _ _ Hrec Hw _ _ _ _ _ Hfd)) as Hj. destruct (Hself Hw pc y Hy Hop) as [k Hk].
  set (f := stMemoTree (i16 (p_b y)) p (e_count en)). exists (Run k (p + e_length en) (grow (trees U) (spush f K))). split.
  { right. split; [done |]. exists y, (Some (p + e_length en, trees U)). split_and!; [done | done | by exists hi |]. exists (spush f K). split; [| unfold jump_to; by rewrite Hk].
    destruct (is_op VM_MEMO_OPEN y) eqn:E; [unfold is_op in *; by destruct (p_op y) as [[]| |] | by exists (e_count en)]. }
  rewrite i16_idem, (rel_pos _ _ _ Hv1). change (push_memotree (st v1) (i16 (p_b y)) p (e_count en)) with (push (map_frame f) (st v1)).
  cbn [mm set_st]. rewrite Hen. cbn_res.
  destruct (hand_out U (set_st v1 (push (map_frame f) (st v1))) p (spush f K)) as (v2 & Ha2 & Hv2 & Hmk2);
    [done | by apply rel_push; [| eapply Hch] | intros c; cbn; rewrite Hcaps; apply Hmo | by apply handed_push |].
  rewrite HU, Ha2. cbn_res. destruct (rel_advance v2 p _ (e_length en) Hv2) as (v3 & Ha & Hv3 & _ & Hmk3); [lia.. |]. rewrite Ha. cbn [snd].
  destruct (rel_peek _ _ _ Hv3) as (v4 & Hpk & Hv4 & _ & Hmk4). rewrite Hpk. cbn_res. rewrite (Ht k Hk).
  change (mark (set_st v1 _)) with (mark v1) in Hmk2. apply answers_jump; [done | lia..].
Qed.

Lemma exec_memo_tree_insert_ok pc p K K' y v id q c C : P !! pc = Some y → real y = true → is_op VM_MEMO_TREE_INSERT y = true →
  related (Run pc p K) v → modest w (mm v) → below K = (stMemoTree id q c, C) :: K' → (keeps = true → stores P (at_mark d F (mark v)) (Run pc p K)) →
  answers (Run (S pc) p (Stk (top K) ((stMemoTree id q (c + 1), C) :: K'))) (exec_memo_tree_insert x v) (mark v).
Proof.
  intros Hy Hr Ho (Hv & Hp & Hip) Hmo HK Hst. unfold exec_memo_tree_insert.
  assert (keeps = true → 0 <= q <= dlen d → F (mark v) id q (mark v + 1) (Some (p, top K))) as Hres.
  { intros Hk. specialize (Hst Hk). unfold stores, insn_stores in Hst. rewrite Hy in Hst. unfold is_op in Ho. apply bool_decide_eq_true in Ho. by rewrite Ho, HK in Hst. }
  assert (chain p ((stMemoTree id q (c + 1), []) :: K')) as Hch by (pose proof (rl_chain _ _ _ Hv) as Hch; rewrite HK in Hch; exact Hch).
  destruct (rel_top v p K _ _ _ (stMemoTree id q (c + 1)) Hv HK Hch) as (cs & es & He & Hv1). rewrite He. cbn [map_frame] in *.
  set (v1 := set_st v _) in *. destruct (copy_memoize v1 p _ id q _ _ _ cs es (c + 1) Hv1 Hmo eq_refl eq_refl Hres) as (m1 & m2 & Hc & Hmz & Hv2).
  change (mm v1) with (mm v) in Hc. change (mm v1) with (mm v). rewrite Hc. cbn_res. rewrite (rel_pos _ _ _ Hv1), Hmz. cbn_res.
  eapply answers_go; [done | done | exact Hv2 | done | done | done].
Qed.

(** ** Tree memoization *)

Lemma pop_merged_ok n v p K : rel v p K → modest w (mm v) → (n <= length (below K))%nat → ∃ s1, pop_merged n (st v) (mm v) = Ok (s1, mm v) ∧
  rel (set_st v s1) p (Stk (joined (take n (below K)) (top K)) (drop n (below K))).
Proof.
  revert v K. induction n as [|n IH]; intros v K Hv Hmo Hn.
  { exists (st v). split; [done |]. cbn [take drop joined]. destruct K, Hv. by split. }
  destruct K as [C [|[f C'] B]]; [cbn in Hn; lia |]. cbn [below] in Hn.
  destruct (rel_pop_keep v p _ f (Stk (C' ++ C) B) Hv Hmo eq_refl) as (cs & s1 & m1 & Hp & Hf & Hv1).
  cbn [pop_merged]. unfold pop_clear. rewrite Hp. cbn [mbind res_bind]. unfold entry_clear_capt. cbn [capt]. rewrite Hf. cbn [mbind res_bind].
  destruct (IH _ _ Hv1 Hmo) as (s2 & Hp2 & Hv2); [cbn in *; lia |]. exists s2. split; [exact Hp2 |]. exact Hv2.
Qed.

(** Dropping the merged entries' last one, its captures wrapped in a dummy. *)
Lemma merge_pop_ok v s K f K' epos : srel w (F (mark v)) s (mm v) K → modest w (mm v) → pop_drop K = Some (f, K') → ∃ cs s1 m1,
  stack_pop s false (mm v) = Ok (Some (mk_sentry f cs, s1, mm v)) ∧
  (match cs with
   | [] => mret (set_sm v s1 (mm v))
   | _ => if windowed x then '(s, m) ← stack_add_capt s1 cs (mm v); m ← entry_clear_capt (mk_sentry f cs) m; mret (set_sm v s m)
          else let '(d, m) := memo_capture_dummy (mm v) epos (pos v - epos) in
               m ← for_each (memo_capture_add d) cs m; m ← entry_clear_capt (mk_sentry f cs) m; give v s1 d m
   end) = Ok (set_sm v (fst m1) (snd m1)) ∧ srel w (F (mark v)) (fst m1) (snd m1) (grow (top K) K') ∧ modest w (snd m1).
Proof.
  intros Hs Hmo HK. destruct (srel_build w _ _ _ _ _ _ 0 CAP_DUMMY epos (pos v - epos) Hs Hmo HK)
    as (cs & s1 & m2 & m3 & t & Hpop & Hadd & Hfree & Ht & Htr & Hm & Hnil & Hmo3).
  exists cs, s1. destruct (give_spec w _ v s1 t m3 _ Hm) as (s2 & Hg & Hs2). destruct cs as [|c cs].
  - exists (s1, mm v). split_and!; try done. destruct (srel_pop_drop w _ _ _ _ _ _ Hs HK) as (T' & s1' & Hpop' & _ & (m1' & Hf' & Hs') & _).
    rewrite Hpop in Hpop'. injection Hpop' as HT' <-. rewrite <- HT' in Hf'. cbn in Hf'. injection Hf' as <-. by rewrite (Hnil eq_refl), grow_nil.
  - destruct (windowed x).
    { destruct (srel_pop_drop w _ _ _ _ _ _ Hs HK) as (T & s1' & Hpop' & HT & _ & S & HS & [HmS Hl] & HvS).
      rewrite Hpop in Hpop'. injection Hpop' as HT' <-. destruct (bump_restore w _ _ _ _ HmS Hmo) as [Hroom Hfr]. rewrite HT'.
      rewrite (stack_add_capt_spec _ _ _ Hroom). exists (add_top s1 (addr <$> T), mm v). cbn [mbind res_bind fst snd].
      unfold entry_clear_capt. cbn [capt]. rewrite Hfr. split_and!; [by rewrite <- HT' | done | | done]. rewrite HS. unfold conc. rewrite add_top_conc.
      destruct S as [C B]. rewrite <- HvS, <- HT. eapply srel_intro; [by split | | apply trees_app | done].
      unfold roots. cbn [top below]. rewrite <- (assoc_L (++)). apply Permutation_app_swap_app. }
    exists (s2, m3). split_and!; [done | | by rewrite Htr in Hs2 | done].
    change (memo_capture_dummy (mm v) epos (pos v - epos)) with (next_cap (mm v), (new_cap (mm v) (leaf 0 CAP_DUMMY epos (pos v - epos))).2).
    cbv beta iota. rewrite Hadd. cbn [mbind res_bind]. unfold entry_clear_capt. cbn [capt]. rewrite Hfree. cbn [mbind res_bind].
    rewrite <- Ht. exact Hg.
Qed.

(** The list below the merged frames, with what it stores. *)
Definition merged (seen : nat) (accum id q : Z) (c : Z) (C : forest) (K : stack) : stack :=
  Stk (joined (take (S seen) (below K)) (top K)) ((stMemoTree id q (accum + c), C) :: drop (S (S seen)) (below K)).

Lemma tree_merge_ok v p K seen accum id0 p0 c0 C0 id q c C : rel v p K → modest w (mm v) → below K !! seen = Some (stMemoTree id0 p0 c0, C0) →
  below K !! S seen = Some (stMemoTree id q c, C) →
  (keeps = true → 0 <= q <= dlen d → F (mark v) id q (mark v + 1) (Some (p, top (merged seen accum id q c C K)))) →
  ∃ v', tree_merge x (S seen) accum v = Ok v' ∧ rel v' p (merged seen accum id q c C K) ∧ ip v' = ip v ∧ mark v' = mark v.
Proof.
  intros Hv Hmo H0 H1 Hst. pose proof (lookup_lt_Some _ _ _ H1) as Hl. unfold tree_merge, merged in *. cbn [top] in Hst.
  replace (S seen - 1)%nat with seen by lia. destruct (pop_merged_ok seen _ _ _ Hv Hmo) as (s1 & Hp & Hv1); [lia |].
  rewrite (drop_S (below K) _ seen H0), (drop_S (below K) _ (S seen) H1) in Hv1.
  rewrite (take_S_r _ _ _ H0), joined_split in Hst |- *. cbn [joined] in Hst |- *.
  set (J := joined (take seen (below K)) (top K)) in *. set (B := drop (S (S seen)) (below K)) in *.
  destruct (merge_pop_ok v s1 _ _ _ p0 (rl_st _ _ _ Hv1) Hmo eq_refl) as (cs & s2 & [s3 m3] & Hpop & Hm & Hs3 & Hmo3).
  rewrite Hp. cbn [mbind res_bind]. cbn [fst snd map_frame] in Hpop, Hm, Hmo3. rewrite Hpop. cbn [mbind res_bind].
  assert (rel (set_sm v s3 m3) p (Stk (C0 ++ J) ((stMemoTree id q c, C) :: B))) as Hv3.
  { eapply (rel_stack v); [exact Hv | exact Hs3 |]. by eapply chain_pop, (rl_chain _ _ _ Hv1). }
  cbn [fst snd] in Hm. setoid_rewrite Hm.
  destruct (rel_top _ p _ _ _ _ (stMemoTree id q (accum + c)) Hv3 eq_refl (rl_chain _ _ _ Hv3)) as (cs3 & es & He & Hv4). cbn [map_frame] in *.
  cbn [mbind res_bind]. rewrite He. set (v4 := set_st (set_sm v s3 m3) _) in *.
  destruct (copy_memoize v4 p _ id q _ _ _ cs3 es (accum + c) Hv4 Hmo3 eq_refl eq_refl Hst) as (m5 & m6 & Hc & Hmz & Hv6).
  change (mm v4) with m3 in Hc. change (mm v4) with m3. rewrite Hc. cbn_res. rewrite (rel_pos _ _ _ Hv4), Hmz. by exists (set_mm v4 m6).
Qed.

Definition mcalm (v : vm) : Prop := ∀ v', rtc (merges x) v v' → su_table w = true → modest w (mm v').

Lemma mcalm_modest v p K : rel v p K → mcalm v → modest w (mm v).
Proof. intros Hv Hc. eapply rel_modest; [exact Hv |]. by apply Hc. Qed.

Lemma due_drop es seen accum tc nc c0 c1 id0 q0 id1 q1 : es !! seen = Some (mk_sentry (stMemoTree id0 q0 tc) c0) → es !! S seen = Some (mk_sentry (stMemoTree id1 q1 nc) c1) →
  due (drop seen es) seen accum = if accum + tc <? nc then due (drop (S seen) es) (S seen) (accum + tc) else Some (S seen, accum + tc).
Proof. intros H0 H1. rewrite (drop_S es _ seen H0), (drop_S es _ (S seen) H1). done. Qed.

Lemma memo_tree_loop_ok fuel v p K seen accum K' : rel v p K → mcalm v → at_tree x v = true →
  due (entries (st v)) 0 0 = due (drop seen (entries (st v))) seen accum → (keeps = true → tree_stores (at_mark d F (mark v)) fuel seen accum p K) →
  flat_tree fuel seen accum K = Some K' →
  ∃ v', memo_tree_loop fuel x seen accum v = Ok v' ∧ rel v' p K' ∧ ip v' = ip v ∧ mark v' = mark v.
Proof.
  revert v K seen accum. induction fuel as [|fuel IH]; intros v K seen accum Hv Hca Hat Hdue Hsto H; [done |].
  cbn [flat_tree memo_tree_loop tree_stores] in *.
  pose proof (srel_frames w _ _ _ _ (rl_st _ _ _ Hv)) as Hf.
  assert (∀ n, stype <$> entries (st v) !! n = (λ fC, map_frame fC.1) <$> below K !! n) as Hlk.
  { intros n. rewrite <- !list_lookup_fmap, Hf. unfold map_stk. cbn [below]. by rewrite <- list_fmap_compose. }
  pose proof (Hlk seen) as H0. pose proof (Hlk (S seen)) as H1.
  destruct (entries (st v) !! seen) as [[f0 cs0]|] eqn:EV0, (below K !! seen) as [[g0 C0]|] eqn:EK0; try discriminate H0.
  2: { injection H as <-. by exists v. }
  injection H0 as ->.
  destruct (entries (st v) !! S seen) as [[f1 cs1]|] eqn:EV1, (below K !! S seen) as [[g1 C1]|] eqn:EK1; try discriminate H1.
  2: { exists v. destruct g0; injection H as <-; by cbn. }
  injection H1 as ->. cbn [fst] in *. destruct g0; try (exists v; injection H as <-; by cbn). destruct g1; try (exists v; injection H as <-; by cbn).
  cbn [map_frame] in *. rewrite (due_drop _ _ _ _ _ _ _ _ _ _ _ EV0 EV1) in Hdue. destruct (accum + count <? count0).
  - by apply (IH v K).
  - destruct (tree_merge_ok v p K seen (accum + count) _ _ _ _ _ _ _ _ Hv (mcalm_modest _ _ _ Hv Hca) EK0 EK1 (λ Hk, proj1 (Hsto Hk))) as (v1 & Hm & Hv1 & Hip1 & Hmk1).
    rewrite Hm. cbn [mbind res_bind].
    destruct (IH v1 _ 0%nat 0 Hv1) as (v2 & Hl & Hv2 & Hip2 & Hmk2); [| unfold at_tree; by rewrite Hip1 | by rewrite drop_0 | rewrite Hmk1; by apply Hsto | exact H |].
    + intros v' Hr. apply Hca. eapply rtc_l; [| exact Hr]. split; [done |]. exists (S seen), (accum + count). by split.
    + exists v2. split_and!; congruence.
Qed.

Lemma exec_memo_tree_ok pc p K y v K' : P !! pc = Some y → real y = true → is_op VM_MEMO_TREE y = true → at_tree x v = true →
  related (Run pc p K) v → mcalm v → (keeps = true → stores P (at_mark d F (mark v)) (Run pc p K)) →
  flat_tree (S (length (below K))) 0 0 K = Some K' → answers (Run (S pc) p K') (exec_memo_tree x v) (mark v).
Proof.
  intros Hy Hr Ho Hat (Hv & Hp & Hip) Hca Hst H. unfold exec_memo_tree. rewrite (rel_length _ _ _ Hv).
  destruct (memo_tree_loop_ok (S (length (below K))) v p K 0 0 K' Hv) as (v' & Hl & Hv' & Hip' & Hmk'); [done | done | by rewrite drop_0 | | done |].
  { intros Hk. specialize (Hst Hk). unfold stores, insn_stores in Hst. rewrite Hy in Hst. unfold is_op in Ho. apply bool_decide_eq_true in Ho. rewrite Ho in Hst. by destruct (below K) as [|[[] ?] ?]. }
  rewrite Hl. cbn [mbind res_bind]. eapply answers_go; [done | done | done | done | congruence | lia].
Qed.

Lemma tree_close_ok fuel id v p C B : rel v p (Stk C B) → modest w (mm v) → (length B <= fuel)%nat →
  ∃ s1, tree_close fuel id (st v) (mm v) = Ok (s1, mm v) ∧ rel (set_st v s1) p (close_tree id C B).
Proof.
  assert (∀ v p K, rel v p K → rel (set_st v (st v)) p K) as Hid by (intros ? ? ? []; by split).
  revert v C B. induction fuel as [|fuel IH]; intros v C B Hv Hmo Hl.
  - destruct B; [| cbn in Hl; lia]. pose proof (rel_nil _ _ _ Hv eq_refl) as He. exists (st v). cbn [tree_close]. rewrite He.
    split; [done | by apply Hid].
  - destruct B as [|[f C'] B].
    { pose proof (rel_nil _ _ _ Hv eq_refl) as He. exists (st v). cbn [tree_close]. rewrite He. split; [done | by apply Hid]. }
    destruct (rel_pop_keep v p _ f (Stk (C' ++ C) B) Hv Hmo eq_refl) as (cs & s1 & m1 & Hp & Hf & Hv1).
    destruct (rel_top _ _ _ _ _ _ (stRet 0) Hv eq_refl (chain_pop _ _ _ _ (rl_chain _ _ _ Hv))) as (cs2 & es & He & _). cbn [tree_close]. rewrite He.
    cbn [close_tree]. destruct f as [| | |id' q c| |]; cbn [map_frame]; try (eexists; split; [done | by apply Hid]).
    destruct (id' =? id); [| eexists; split; [done | by apply Hid]].
    unfold pop_clear. rewrite Hp. cbn [mbind res_bind]. unfold entry_clear_capt. cbn [capt]. rewrite Hf. cbn [mbind res_bind].
    destruct (IH _ _ _ Hv1 Hmo) as (s2 & Hp2 & Hv2); [cbn in Hl; lia |]. exists s2. split; [exact Hp2 | exact Hv2].
Qed.

Lemma exec_memo_tree_close_ok pc p K y v o id bb s : P !! pc = Some y → real y = true → related (Run pc p K) v → modest w (mm v) →
  answers (Run (S pc) p (flat_tree_close (i16 id) K)) (exec_memo_tree_close (mk_insn o id bb s) v) (mark v).
Proof.
  intros Hy Hr (Hv & Hp & Hip) Hmo. unfold exec_memo_tree_close. cbn [a]. destruct K as [C B].
  destruct (tree_close_ok (length (entries (st v))) (i16 id) v p C B Hv Hmo) as (s1 & Hc & Hs1).
  { by rewrite (rel_length _ _ _ Hv). }
  rewrite Hc. cbn [mbind res_bind]. eapply answers_go; [done | done | | done | done | done]. destruct Hs1. by split.
Qed.

(** ** Checkers *)

Lemma exec_check_end_ok pc p K K' y v id start flag o chk bb s fn : P !! pc = Some y → real y = true →
  related (Run pc p K) v → modest w (mm v) → pop_keep K = Some (stCheck id start flag, K') → 0 <= chk < 2 ^ 64 →
  checkers (vcode x) !! Z.to_nat chk = Some fn →
  answers (or_fail (S pc) K' (check_match d fn id flag start p)) (exec_check_end x (mk_insn o chk bb s) v) (mark v).
Proof.
  intros Hy Hr (Hv & Hp & Hip) Hmo HK Hc Hfn. unfold exec_check_end. destruct (rel_pop_chain _ _ _ _ _ Hv (or_introl HK)) as [(Hstart & _) _].
  destruct (rel_pop_keep _ _ _ _ _ Hv Hmo HK) as (cs & s1 & m1 & Hpop & Hfree & Hv1).
  rewrite Hpop. cbn [mbind res_bind map_frame a]. unfold entry_clear_capt. cbn [capt]. rewrite Hfree. cbn [mbind res_bind].
  rewrite u64_id by done. pose proof (lookup_lt_Some _ _ _ Hfn) as Hlt.
  rewrite (proj2 (Z.ltb_lt chk _)) by lia. match goal with |- context [mjoin ?z] => replace (mjoin z) with fn by (symmetry; exact (f_equal mjoin Hfn)) end.
  unfold check_match. destruct fn as [f|]; cbn [or_fail]; [| by eapply answers_go].
  assert (pos (set_sm v s1 (mm v)) = p) as -> by (by eapply rel_pos).
  set (n := i32 _). assert (- 2 ^ 31 <= n < 2 ^ 31) as Hn.
  { subst n. unfold i32. pose proof (Z.mod_pos_bound (f (slice d start (p - start)) d id flag + 2 ^ 31) (2 ^ 32) ltac:(done)). lia. }
  destruct (Z.ltb_spec n 0); [cbn [or_fail]; by eapply (answers_fail (mark v) _ _ (set_sm v s1 (mm v))) |].
  rewrite !u64_id by (unfold is_u64, dlen in *; rewrite ?u64_id; unfold is_u64; lia).
  change (inputlen x) with (dlen d). destruct (Z.ltb_spec (dlen d) (p + n)); cbn [or_fail]; [by eapply (answers_fail (mark v) _ _ (set_sm v s1 (mm v))) |].
  destruct (rel_advance _ p K' n Hv1) as (v2 & Ha & Hv2 & Hip2 & Hmk); [lia.. |]. rewrite Ha. cbn [snd].
  eapply answers_go; [done | done | done | lia | rewrite Hip2; done | by rewrite Hmk].
Qed.

Lemma exec_error_ok pc p K y v i : P !! pc = Some y → real y = true → related (Run pc p K) v →
  answers (Run (S pc) p K) (exec_error x i v) (mark v).
Proof.
  intros Hy Hr (Hv & Hp & Hip). unfold exec_error. eapply answers_go; [done | done | | done | done | done].
  destruct Hv as [? ? ?]. by split.
Qed.

Lemma exec_end_ok pc p K v (b : bool) : related (Run pc p K) v → modest w (mm v) →
  answers (Halt (let ts := base (below K) (top K) in if b then Errored p ts else Matched p ts))
    (mret (Stop v (negb ((if b then 1 else 0) =? 1)))) (mark v).
Proof. intros (Hv & _ & _) Hmo. by destruct b; exists v, K. Qed.

(** ** One instruction *)

Lemma byte_operand_range n : byte_operand n = true → 0 <= n < 256.
Proof. unfold byte_operand. intros H. bools. zify_bool. lia. Qed.

Lemma u8_idem z : u8 (u8 z) = u8 z.
Proof. apply u8_id, u8_range. Qed.

Lemma literal1_byte_test c p : literal_match d [c] p = byte_test (λ b, b =? u8 c) p.
Proof. unfold literal_match, byte_test. by destruct (byte_at d p). Qed.

Lemma class_byte_test s p : class_match d s p = byte_test (vm_charset_has s) p.
Proof. done. Qed.

Lemma is_char_u8 c b : is_char (u8 c) b = Ok (b =? u8 c).
Proof. unfold is_char. by rewrite u8_idem. Qed.

(** A jumping instruction: its label is placed, its target that index. *)
Ltac target H Ht := let j := fresh "j" in let Hj := fresh "Hj" in
  apply bind_Some in H as (j & Hj & H); rewrite (Ht _ j eq_refl Hj) in *.

(** The machine pops a frame of the right kind. *)
Ltac frame_of H HK := match type of H with
  | context [pop_keep ?K] => destruct (pop_keep K) as [[[] ?]|] eqn:HK; try discriminate H
  | context [pop_drop ?K] => destruct (pop_drop K) as [[[] ?]|] eqn:HK; try discriminate H
  end.

(** The instruction's opcode. *)
Ltac op_of Ho Eo := pose proof Ho as Eo; unfold is_op in Eo; apply bool_decide_eq_true in Eo; rewrite Eo in *.

Lemma exec_insn_ok pc p K y v s' : P !! pc = Some y → real y = true → insn_step d false P y pc p K = Some s' →
  (keeps = true → stores P (at_mark d F (mark v)) (Run pc p K)) → related (Run pc p K) v → mcalm v →
  ∃ i s1, prog (vcode x) !! ridx P pc = Some i ∧ (shown_state (wanted x) s1 s' ∨ su_table w = true ∧ hit P (at_mark d F (mark v)) (Run pc p K) s1) ∧
    answers s1 (exec_insn x i v) (looked d P (mark v) (Run pc p K)).
Proof.
  intros Hy Hr Hstep Hst Hv Hca. pose proof (mcalm_modest v p K (proj1 Hv) Hca) as Hmo. destruct (Henc pc y Hy Hr) as (c & t & e & chk & Hc & Hi & Ht & Hchk).
  exists (call_insn t e chk c).
  pose proof (Forall_lookup_1 _ _ _ _ Hops Hy) as Hok. cbn in Hok.
  unfold insn_step in Hstep. unfold pir_call in Hc. unfold pir_lab in Ht. unfold pir_ok in Hok. apply andb_prop in Hok as [_ Hok].
  unfold pir_byte_ok in Hok. unfold is_op in Hchk. unfold looked. rewrite Hy.
  destruct (is_op VM_MEMO_OPEN y) eqn:Ho.
  { op_of Ho Eo. injection Hc as <-. injection Hstep as <-.
    destruct (exec_memo_open_ok pc p K y v VM_MEMO_OPEN t None Hy Hr Ho) as (s1 & Hs1 & Ha); [| done.. |].
    - intros j Hj. by apply (Ht _ j eq_refl).
    - exists s1. split; [done |]. split; [| done]. destruct Hs1 as [-> | Hs1]; [left; apply shown_state_refl | by right]. }
  destruct (is_op VM_MEMO_TREE_OPEN y) eqn:Ho2.
  { op_of Ho2 Eo. injection Hc as <-. injection Hstep as <-.
    destruct (exec_memo_tree_open_ok pc p K y v VM_MEMO_TREE_OPEN t None Hy Hr Ho2) as (s1 & Hs1 & Ha); [| done.. |].
    - intros j Hj. by apply (Ht _ j eq_refl).
    - exists s1. split; [done |]. split; [| done]. destruct Hs1 as [-> | Hs1]; [left; apply shown_state_refl | by right]. }
  destruct (is_op VM_CAPTURE_FULL y) eqn:Ho3.
  { op_of Ho3 Eo. injection Hc as <-. injection Hstep as <-. apply byte_operand_range in Hok.
    destruct (exec_capture_full_ok pc p K y v (i16 (p_a y)) (p_b y) VM_CAPTURE_FULL None) as (s1 & Hs1 & Ha); [done.. |].
    exists s1. split; [done |]. split; [by left |]. cbn [call_insn exec_insn op] in *. by rewrite u8_id. }
  destruct (is_op VM_CAPTURE_END y) eqn:Ho4.
  { op_of Ho4 Eo. injection Hc as <-. frame_of Hstep HK. injection Hstep as <-.
    destruct (exec_capture_end_ok pc p K _ y v _ _ Hy Hr Hv Hmo HK) as (s1 & Hs1 & Ha). exists s1. split; [done |]. split; [by left | done]. }
  exists s'. split; [done |]. split; [left; apply shown_state_refl |].
  assert (at_tree x v = bool_decide (op (call_insn t e chk c) = VM_MEMO_TREE)) as Hat.
  { unfold at_tree. destruct Hv as (_ & _ & Hip). by rewrite Hip, Nat2Z.id, Hi. }
  clear Hi.
  pose proof Hr as Hr'. unfold real, is_label in Hr'. unfold is_op in Hr', Ho, Ho2, Ho3, Ho4.
  destruct (p_op y) as [[]| |] eqn:Eo; try discriminate Hr'; try discriminate Hc; try discriminate Ho; try discriminate Ho2; try discriminate Ho3; try discriminate Ho4; try (injection Hc as <-);
    cbn [call_insn exec_insn op] in *; clear Hr' Ho Ho2 Ho3 Ho4.
  - unfold match1 in Hstep. rewrite Eo in Hstep. injection Hstep as <-. rewrite literal1_byte_test.
    eapply exec_match_ok; [done.. | apply is_char_u8].
  - target Hstep Ht. injection Hstep as <-. by apply answers_jump; [apply Hv.. |].
  - unfold choice in Hstep. destruct (lab P (p_label y)) as [j|] eqn:Hj; [| done]. injection Hstep as <-.
    rewrite (Ht _ j eq_refl Hj). unfold exec_choice. cbn [a]. destruct Hv as (Hv & Hp & Hip). rewrite (rel_pos _ _ _ Hv).
    unfold push_btrack. rewrite <- map_btrack. eapply exec_push_ok; [done.. |]. cbn. pose proof (rl_chain _ _ _ Hv). split_and!; done || lia.
  - target Hstep Ht. injection Hstep as <-. by eapply exec_call_ok.
  - destruct (pop_keep K) as [[f K']|] eqn:HK; [| done]. target Hstep Ht. injection Hstep as <-. by eapply exec_commit_ok.
  - unfold ret in Hstep. frame_of Hstep HK. injection Hstep as <-. by eapply exec_return_ok.
  - injection Hstep as <-. destruct Hv as (Hv & _). by eapply answers_fail.
  - unfold match1 in Hstep. rewrite Eo in Hstep. injection Hstep as <-. rewrite class_byte_test.
    by eapply exec_match_ok.
  - unfold match1 in Hstep. rewrite Eo in Hstep. injection Hstep as <-. apply byte_operand_range in Hok.
    rewrite u8_id by done. by eapply exec_any_ok.
  - frame_of Hstep HK. target Hstep Ht. injection Hstep as <-. by eapply exec_partial_commit_ok.
  - injection Hstep as <-. by eapply exec_span_ok.
  - frame_of Hstep HK. target Hstep Ht. injection Hstep as <-. by eapply exec_back_commit_ok.
  - injection Hstep as <-. by eapply exec_fail_twice_ok.
  - injection Hstep as <-. apply byte_operand_range in Hok. rewrite u8_id by done. by eapply exec_empty_ok.
  - rewrite literal1_byte_test in Hstep. eapply exec_test_ok; [done.. | apply is_char_u8 | intros j Hj; by apply (Ht _ j eq_refl) | exact Hstep].
  - rewrite literal1_byte_test in Hstep. eapply exec_test_ok; [done.. | apply is_char_u8 | intros j Hj; by apply (Ht _ j eq_refl) | exact Hstep].
  - rewrite class_byte_test in Hstep. eapply exec_test_ok; [done.. | intros j Hj; by apply (Ht _ j eq_refl) | exact Hstep].
  - rewrite class_byte_test in Hstep. eapply exec_test_ok; [done.. | intros j Hj; by apply (Ht _ j eq_refl) | exact Hstep].
  - apply byte_operand_range in Hok. rewrite u8_id by done. destruct (lab P (p_label y)) as [j|] eqn:Hj.
    + rewrite (Ht _ j eq_refl Hj). by eapply exec_test_any_ok.
    + unfold test_insn, choice, jump_to in Hstep. rewrite Hj in Hstep. by destruct (dot_match d (p_b y) p).
  - injection Hstep as <-. cbn [a]. destruct (p_a y =? 0); [by apply (exec_end_ok pc p K v false) | by apply (exec_end_ok pc p K v true)].
  - injection Hstep as <-. unfold exec_capture_begin. cbn [a]. destruct Hv as (Hv & Hp & Hip). rewrite i16_idem, (rel_pos _ _ _ Hv).
    eapply (exec_push_ok pc p K y v (stCapt (i16 (p_a y)) p)); [done.. | apply Hv].
  - injection Hstep as <-. apply byte_operand_range in Hok. rewrite u8_id by done. unfold exec_capture_late. cbn [a b].
    destruct Hv as (Hv & Hp & Hip). rewrite i16_idem, (rel_pos _ _ _ Hv).
    eapply (exec_push_ok pc p K y v (stCapt (i16 (p_a y)) (p - p_b y))); [done.. | apply Hv].
  - injection Hstep as <-. unfold exec_check_begin. cbn [a b]. destruct Hv as (Hv & Hp & Hip). rewrite i16_idem, (rel_pos _ _ _ Hv).
    eapply (exec_push_ok pc p K y v (stCheck (i16 (p_a y)) p (i16 (p_b y)))); [done.. |]. split; [apply Hp | apply Hv].
  - frame_of Hstep HK. injection Hstep as <-. destruct Hchk as [Hc0 Hfn]; [by apply bool_decide_eq_true |].
    eapply exec_check_end_ok; [done.. | lia | done].
  - frame_of Hstep HK. injection Hstep as <-. eapply exec_memo_close_ok; [done | done | | done..]. unfold is_op. by rewrite Eo.
  - destruct (below K) as [|[[] C] K'] eqn:HK; try discriminate Hstep. injection Hstep as <-.
    eapply exec_memo_tree_insert_ok; [done | done | | done..]. unfold is_op. by rewrite Eo.
  - apply bind_Some in Hstep as (K' & HK' & [= <-]). eapply exec_memo_tree_ok; [done | done | | done..]. unfold is_op. by rewrite Eo.
  - injection Hstep as <-. pose proof (exec_memo_tree_close_ok pc p K y v VM_MEMO_TREE_CLOSE (i16 (p_a y)) 0 None Hy Hr Hv Hmo) as Hx.
    by rewrite i16_idem in Hx.
  - destruct (p_msg y); [| done]. injection Hc as <-. injection Hstep as <-. by eapply exec_error_ok.
Qed.

(** ** Whole runs *)

Definition verdict (o : outcome) : option bool :=
  match o with Matched _ _ => Some true | Errored _ _ => Some false | NoMatch => None end.

(** The interpreter from a related state on, with [n] turns of the loop. *)
Definition continue (n : nat) (s : state) (v : vm) : res (vm * option bool) :=
  match s with
  | Run _ _ _ => run n x v
  | Fail _ =>
      '(v, alive) ← fail_unwind (length (entries (st v))) x v;
      if (alive : bool) then run n x v else mret (v, None)
  | Halt _ => Fuel
  end.

(** No capture gets 2^31 references while the table is in use. *)
Definition calm (v : vm) : Prop := ∀ v', reaches x v v' → mcalm v'.

Definition calm_from (s : state) (v : vm) : Prop :=
  match s with
  | Run _ _ _ => calm v
  | Fail _ => ∀ v', fail_unwind (length (entries (st v))) x v = Ok (v', true) → calm v'
  | Halt _ => True
  end.

Lemma calm_step v v' : calm v → step x v = Ok (inl v') → calm v'.
Proof. intros Hc Hs v2 Hr. apply Hc. by eapply reaches_step. Qed.

(** It ends with the machine's outcome. *)
Definition ends (s : state) (v : vm) (o : outcome) : Prop :=
  ∃ n v' p K, (∀ n', (n <= n')%nat → continue n' s v = Ok (v', verdict o)) ∧ rel v' p K ∧
    match o with
    | Matched q ts | Errored q ts => p = q ∧ base (below K) (top K) = ts ∧ modest w (mm v')
    | NoMatch => below K = []
    end.

Lemma step_insn v i : ip v = Z.of_nat (Z.to_nat (ip v)) → prog (vcode x) !! Z.to_nat (ip v) = Some i →
  step x v = (n ← exec_insn x i v; match n with
    | Go v => mret (inl v) | Stop v success => mret (inr (v, Some success))
    | Failed v => '(v, alive) ← fail_unwind (length (entries (st v))) x v; mret (if (alive : bool) then inl v else inr (v, None)) end).
Proof.
  intros Hip Hi. unfold step. destruct (Z.ltb_spec (ip v) 0); [lia |]. by rewrite Hi.
Qed.

Lemma run_S n v : run (S n) x v = (r ← step x v; match r with inl v => run n x v | inr r => mret r end).
Proof. done. Qed.

(** One real instruction, then an end that [Q] holds of. *)
Lemma ends_insn (Q : outcome → Prop) f pc p K v i s' : related (Run pc p K) v → calm v → prog (vcode x) !! ridx P pc = Some i →
  answers s' (exec_insn x i v) f → (∀ o, s' = Halt o → Q o) →
  (∀ v', related s' v' → calm_from s' v' → f <= mark v' → ∃ o, Q o ∧ ends s' v' o) → ∃ o, Q o ∧ ends (Run pc p K) v o.
Proof.
  intros (Hv & Hp & Hip) Hc Hi Ha HQ IH.
  pose proof (step_insn v i) as Hstep. rewrite Hip, Nat2Z.id in Hstep. specialize (Hstep eq_refl Hi).
  destruct s' as [pc' p' K' | K' | o'].
  - destruct Ha as (v' & He & Hv' & Hf). destruct (IH v' Hv') as (o & Ho & n & v2 & p2 & K2 & Hrun & Hr); [| done |].
    { eapply calm_step; [exact Hc |]. by rewrite Hstep, He. }
    exists o. split; [done |]. exists (S n), v2, p2, K2.
    split; [| done]. intros [|n'] Hn; [lia |]. cbn [continue]. rewrite run_S, Hstep, He. cbn [mbind res_bind]. apply Hrun. lia.
  - destruct Ha as (v' & He & Hv' & Hf). destruct (IH v' Hv') as (o & Ho & n & v2 & p2 & K2 & Hrun & Hr); [| done |].
    { intros v1 Hun. eapply calm_step; [exact Hc |]. rewrite Hstep, He. cbn [mbind res_bind]. by rewrite Hun. }
    exists o. split; [done |]. exists (S n), v2, p2, K2.
    split; [| done]. intros [|n'] Hn; [lia |]. cbn [continue]. rewrite run_S, Hstep, He. cbn [mbind res_bind].
    specialize (Hrun n' ltac:(lia)). cbn [continue] in Hrun.
    destruct (fail_unwind _ x v') as [[v3 []]| | |]; cbn in Hrun |- *; done.
  - exists o'. split; [by apply HQ |].
    destruct o' as [q ts | q ts |]; [| | done]; destruct Ha as (v' & K2 & He & Hr & Hts & Hmo); exists 1%nat, v', q, K2; (split_and!; [| done..]);
      (intros [|n'] Hn; [lia |]); cbn [continue]; rewrite run_S, Hstep, He; done.
Qed.

(** The end of the list is the [End] that [vm_prog_finish] appends. *)
Lemma ends_end pc p K v : related (Run pc p K) v → calm v → P !! pc = None → ends (Run pc p K) v (Matched p (base (below K) (top K))).
Proof.
  intros Hv Hc Hpc. assert (ridx P pc = ridx P (length P)) as Hridx.
  { apply lookup_ge_None in Hpc. unfold ridx. by rewrite firstn_all, take_ge by lia. }
  destruct (ends_insn (λ o, o = Matched p (base (below K) (top K))) (mark v) pc p K v (mk_insn VM_END 0 0 None) (Halt (Matched p (base (below K) (top K))))) as (o & -> & He);
    [done | done | rewrite Hridx; exact Hend | | by intros o [= <-] | done | done].
  apply (exec_end_ok pc p K v false); [done |]. destruct Hv as (Hv & _). eapply mcalm_modest; [done |]. apply Hc, reaches_refl.
Qed.

(** One frame of [fail:]: what it captured is dropped, or kept with a failure. *)
Lemma unwind_frame v p f C' C B : rel v p (Stk C ((f, C') :: B)) → (keeps = true → stores P (at_mark d F (mark v)) (Fail (Stk C ((f, C') :: B)))) →
  ∃ s1 m1, rel (set_sm v s1 m1) p (Stk C' B) ∧ fail_unwind (length (entries (st v))) x v = (match map_frame f with
    | stBtrack t off => mret (set_ip (set_sm (set_src v (input_seek_to (src v) off)) s1 m1) (u64 t), true)
    | _ => fail_unwind (length (entries s1)) x (set_sm v s1 m1) end).
Proof.
  intros Hv Hst. pose proof (rel_length _ _ _ Hv) as Hl. cbn [below length] in Hl.
  destruct (rel_pop_chain v p _ f (Stk C' B) Hv (or_intror eq_refl)) as [Hch Hch'].
  destruct (srel_pop_drop w _ _ _ _ (map_frame f) (map_stk (Stk C' B)) (rl_st _ _ _ Hv) eq_refl)
    as (T & s1 & Hpop & HT & (m0 & Hfree & Hs) & S & HS & [HmS Hle] & HvS).
  assert (length (entries s1) = length B) as Hl1.
  { rewrite HS. unfold conc. rewrite length_conc. apply (f_equal (λ K, length (below K))) in HvS. cbn in HvS. by rewrite !length_fmap in HvS. }
  assert (∃ m1, rel (set_sm v s1 m1) p (Stk C' B) ∧ match f with
    | stMemo id q => memoize x (set_sm v s1 (mm v)) id q (-1) 0 (addr <$> T) = Ok (set_sm v s1 m1)
    | _ => for_each memo_capture_free (addr <$> T) (mm v) = Ok m1 end) as (m1 & Hv1 & Hm1).
  { assert (rel (set_sm v s1 m0) p (Stk C' B)) as Hv0 by (by eapply rel_stack).
    destruct f as [r | t off | id q | id q c | id q | id q fl]; try (by exists m0).
    destruct Hch as (Hq & Hqp & Hch).
    destruct (memoize_ok (set_sm v s1 (mm v)) p (Stk C' B) T S id q (-1) 0) as (m1 & Hmz & Hr); [apply Hv | done.. | | |].
    - intros _. by exists m0.
    - intros Hk. by apply (Hst Hk).
    - by exists m1. }
  exists s1, m1. split; [done |]. rewrite Hl, Hl1. cbn [fail_unwind]. destruct (entries (st v)) as [|e0 es0] eqn:E; [done |].
  rewrite Hpop. cbn [mbind res_bind]. destruct f; cbn [map_frame] in *; unfold entry_clear_capt; cbn [capt]; rewrite ?Hm1; done.
Qed.

Lemma ends_fail (Q : outcome → Prop) K v : related (Fail K) v → calm_from (Fail K) v → (keeps = true → stores P (at_mark d F (mark v)) (Fail K)) →
  (below K = [] → Q NoMatch) →
  (∀ v', related (unwind K) v' → calm_from (unwind K) v' → mark v' = mark v → ∃ o, Q o ∧ ends (unwind K) v' o) → ∃ o, Q o ∧ ends (Fail K) v o.
Proof.
  intros [p Hv] Hc Hst HQ IH. destruct K as [C [|[f C'] B]].
  { exists NoMatch. split; [by apply HQ |].
    pose proof (rel_nil _ _ _ Hv eq_refl) as He. exists O, v, p, (Stk C []). split_and!; try done. intros n' _. cbn [continue].
    rewrite He. cbn [length fail_unwind]. by rewrite He. }
  destruct (unwind_frame _ _ _ _ _ _ Hv Hst) as (s1 & m1 & Hv1 & Hun).
  destruct f as [r | t off | id q | id q c | id q | id q fl]; cbn [unwind below map_frame] in *;
    try (destruct (IH (set_sm v s1 m1)) as (o & Ho & n & v2 & p2 & K2 & Hrun & Hr); [by exists p | intros v2 Hv2; apply Hc; by rewrite Hun | done |];
      exists o; (split; [done |]); exists n, v2, p2, K2; split; [| done]; intros n' Hn; cbn [continue]; rewrite Hun; by apply Hrun).
  set (v1 := set_ip _ _) in Hun. destruct (rl_chain _ _ _ Hv) as (Hoff & Hop & Hch).
  assert (mark v1 = mark v) as Hmk by (by eapply (rel_seek _ _ off) in Hv1 as [_ Hmk]; [| lia |]).
  assert (related (Run (Z.to_nat t) off (Stk C' B)) v1) as Hr1.
  { split_and!; try lia.
    - eapply (rel_seek _ _ off) in Hv1 as [[Hsrc Hs Ho1] _]; [| lia | done]. by split.
    - cbn. apply u64_id. unfold is_u64. pose proof (ridx_bound (Z.to_nat t)). lia. }
  destruct (IH v1 Hr1) as (o & Ho & n & v2 & p2 & K2 & Hrun & Hr); [by apply Hc | done |]. exists o. split; [done |]. exists n, v2, p2, K2. split; [| done].
  intros n' Hn. cbn [continue]. rewrite Hun. cbn [mbind res_bind mret res_ret]. by apply Hrun.
Qed.

Lemma hit_found f s s' : su_table w = true → hit P (at_mark d F f) s s' → hit P M s s'.
Proof.
  intros Hw. destruct s as [pc p K | |]; [| done..]. intros (y & r & Hy & Ho & [hi Hf] & Hr). exists y, r. split_and!; try done.
  by eapply (rc_found _ _ _ _ _ _ _ Hrec).
Qed.

Lemma shown_mark s0 s f : shown_state (wanted x) s0 s → looked d P f s0 = looked d P f s ∧ (in_subject d s0 → in_subject d s).
Proof. destruct s0, s; try done. by intros (-> & -> & _). Qed.

(** From a state that shows what the machine's does: the interpreter ends as the
    machine does, less what is not wanted. *)
Lemma evals_ends s o : evals d false P M s o → ∀ s0 v, shown_state (wanted x) s0 s → related s0 v → calm_from s0 v → W (mark v) s →
  ∃ o0, shown_outcome (wanted x) o0 o ∧ ends s0 v o0.
Proof.
  induction 1 as [o | s s' o Hst _ Ho IH Hhit IHhit]; intros s0 v Hs0 Hv Hc HW; [by destruct s0 |].
  assert (keeps = true → stores P (at_mark d F (mark v)) s0) as Hsto.
  { intros Hk. pose proof (rc_store _ _ _ _ _ _ _ Hrec Hk _ _ HW) as Hsto. apply andb_prop in Hk as [_ Hwin].
    assert (s0 = s) as -> by (eapply shown_state_all; [| exact Hs0]; intros a b; unfold wanted; by rewrite Hwin). done. }
  destruct (istep_shown _ d P _ _ _ Hs0 Hst) as (s0' & Hst0 & Hs0'). destruct (shown_mark _ _ (mark v) Hs0) as [Hlk Hin].
  assert (∀ o0', s0' = Halt o0' → shown_outcome (wanted x) o0' o) as Hhalt.
  { intros o0' ->. destruct s'; try done. assert (o = o0) as -> by (eapply evals_fun; [exact Ho | constructor]). exact Hs0'. }
  assert (∀ f', looked d P (mark v) s0 <= f' → in_subject d s0 → W f' s') as Hstep.
  { intros f' Hf Hin0. eapply (rc_step _ _ _ _ _ _ _ Hrec); [exact HW | by apply Hin | exact Hst |]. by rewrite <- Hlk. }
  destruct s0 as [pc p K | K |]; [| | done]; cbn [istep] in Hst0.
  - destruct (P !! pc) as [y|] eqn:Hy.
    + destruct (real y) eqn:Hr.
      * destruct (exec_insn_ok pc p K y v s0' Hy Hr Hst0 Hsto Hv) as (i & s1 & Hi & Hs1 & Ha); [apply Hc, reaches_refl |].
        eapply (ends_insn _ _ pc p K v i s1); [done | done | done | exact Ha | |]; destruct Hs1 as [Hs1 | [Hw Hs1]].
        -- intros o1 ->. destruct s0' as [| | o0']; try done. eapply shown_outcome_trans; [exact Hs1 | by apply Hhalt].
        -- intros o1 ->. destruct Hs1 as (y' & [[j ts]|] & _ & _ & _ & Hr'); [| done]. destruct Hr' as (K' & _ & Hr'). unfold jump_to in Hr'.
           by destruct (lab P (p_label y')).
        -- intros v' Hv' Hc' Hf. apply IH; [by eapply shown_state_trans | done | done |]. apply Hstep; [exact Hf | apply Hv].
        -- intros v' Hv' Hc' Hf. destruct (hit_shown _ P _ _ _ _ Hs0 Hs1) as (s1' & Hh & Hs1').
           apply (IHhit s1'); [by apply (hit_found (mark v)) | done | done | done |].
           eapply (rc_hit _ _ _ _ _ _ _ Hrec Hw); [exact HW | exact Hh |]. etrans; [apply (looked_ge d P) | exact Hf].
      * assert (s0' = Run (S pc) p K) as ->.
        { unfold real, is_label, is_op, insn_step in *. destruct (p_op y) as [[]| |]; try done; by injection Hst0. }
        destruct Hv as (Hv & Hp & Hip). destruct (IH _ v Hs0') as (o0 & Hsh & He); [| done | | by exists o0].
        -- split; [done | split; [done |]]. by rewrite (ridx_S _ _ _ Hy), Hr.
        -- apply Hstep; [| done]. unfold looked. rewrite Hy. unfold real, is_label, is_op in Hr. by destruct (p_op y) as [[]| |].
    + injection Hst0 as <-. eexists. split; [by apply Hhalt | by apply ends_end].
  - injection Hst0 as <-. apply ends_fail; [done | done | done | |].
    + intros HK. apply Hhalt. unfold unwind. by rewrite HK.
    + intros v' Hv' Hc' Hmk. apply IH; [done | done | done |]. rewrite Hmk. by apply Hstep.
Qed.
End Refine.
