(* ===== verification/Correct.v ===== *)
(** * Correct: compiling and running a pattern

    From [pat_compile] to [vm_exec] without a memo table: the verdict, the end
    position and the capture trees are the pattern's, and every capture the run
    allocates hangs off the result. *)
From S2P Require Import Prelude Charset Input Code CodeFacts ITree Memo Stack Vm Pattern Compile Sem PatternFacts Inline Wf InlineSound Machine Memos Window CompileSpec CompileNodes CompileStruct Trees Operands Labels CompileOk Optimize CompileThms Encode CompileTotal CaptureHeap CaptureTree MemoHeap VmStack VmRefine.

(** ** The end of a run *)

Lemma destroy_concat es m : for_each entry_clear_capt es m = for_each memo_capture_free (concat (capt <$> es)) m.
Proof.
  revert m. induction es as [|e es IH]; intros m; [done |]. cbn [for_each fmap list_fmap concat]. unfold entry_clear_capt at 1.
  destruct (for_each memo_capture_free (capt e) m) as [m1| | |] eqn:E; [rewrite (for_each_app _ _ _ _ m1) by done; apply IH | ..].
  all: revert E; generalize (concat (capt <$> es)); intros l; clear; revert m;
    induction (capt e) as [|a cs IH]; intros m E; try done; cbn [for_each app] in *;
    destruct (memo_capture_free a m); try done; by apply IH.
Qed.

Section Finish.
Context (x : ctx) (P : pir) (w : surround) (F : Z → knowledge).

(** Nothing is left of a failed run. *)
Lemma finish_fail v p K : rel x P w F v p K → below K = [] →
  ∃ m', finish x v None = Ok (mk_result false p None (errs v), m') ∧ mem_ok w (F (mark v)) m' [].
Proof.
  intros Hv HK. destruct (rl_st _ _ _ _ _ _ _ Hv) as ([T B] & Hs & [Hm _] & Hview).
  assert (B = []) as -> by (unfold map_stk in Hview; rewrite HK in Hview; by destruct B).
  unfold roots in Hm. cbn [top below] in Hm. change (concat [].*2) with (@nil ctree) in Hm.
  destruct (free_list _ _ _ _ _ Hm) as (m' & Hf & Hm' & _). exists m'. split; [| done].
  unfold finish. cbn [mbind res_bind mret res_ret]. unfold stack_destroy. rewrite Hs. unfold conc. cbn [conc_of top below entries result].
  change (reverse (@nil stack_entry)) with (@nil stack_entry). cbn [for_each mbind res_bind]. rewrite Hf. cbn.
  by rewrite (rel_pos _ _ _ _ _ _ _ Hv).
Qed.

Lemma base_map_stk K : base (below (map_stk P K)) (top K) = base (below K) (top K).
Proof.
  destruct K as [C B]. unfold map_stk. cbn [top below]. revert C. induction B as [|[f C'] B IH]; intros C; [done |]. cbn. apply IH.
Qed.

(** What is left of a match is the tree of its result. *)
Lemma finish_match v p K ok : rel x P w F v p K → modest w (mm v) → ∃ m' c lo len T, finish x v (Some ok) = Ok (mk_result ok p (Some c) (errs v), m') ∧
  mem_ok w (F (mark v)) m' [CT c 0 CAP_DUMMY lo len T] ∧ trees T = base (below K) (top K).
Proof.
  intros Hv Hmo. destruct (rl_st _ _ _ _ _ _ _ Hv) as (S & Hs & [Hm _] & Hview).
  destruct (conc_lists (top S) (below S)) as (T2 & HT2 & Hres & Hp).
  fold (conc S) in HT2, Hres. rewrite <- Hs in HT2, Hres. set (T1 := base (below S) (top S)) in *.
  apply (mem_ok_perm _ _ _ _ _ Hm) in Hp.
  set (lo := if windowed x then caprange_low v else 0). set (len := if windowed x then caprange_high v - caprange_low v else p).
  destruct (adopt _ _ _ 0 CAP_DUMMY lo len _ _ Hp Hmo) as (m2 & _ & Hadd & _ & (Hm2 & _) & _).
  assert (concat (capt <$> reverse (entries (st v))) ≡ₚ addr <$> T2) as HT'.
  { rewrite <- HT2. by rewrite (reverse_Permutation (entries (st v))). }
  apply Permutation_map_inv in HT' as (T' & HT' & Hp'). change (map addr T') with (addr <$> T') in HT'.
  set (c := CT (next_cap (mm v)) 0 CAP_DUMMY lo len T1) in *.
  assert (mem_ok w (F (mark v)) m2 (T' ++ T1 ++ [c])) as Hm2'.
  { eapply mem_ok_perm; [exact Hm2 |]. rewrite <- Hp'. solve_Permutation. }
  destruct (free_list _ _ _ _ _ Hm2') as (m3 & Hf3 & Hm3 & _). destruct (free_list _ _ _ _ _ Hm3) as (m4 & Hf4 & Hm4 & _).
  exists m4, (next_cap (mm v)), lo, len, T1. split_and!; [| done |].
  - unfold finish. rewrite (rel_pos _ _ _ _ _ _ _ Hv), Hres.
    replace (if windowed x then _ else _) with (next_cap (mm v), (new_cap (mm v) (leaf 0 CAP_DUMMY lo len)).2) by (unfold lo, len; by destruct (windowed x)).
    cbv beta iota. rewrite Hadd. cbn [mbind res_bind mret res_ret]. unfold stack_destroy. rewrite destroy_concat, Hres, HT', Hf3.
    cbn [mbind res_bind mret res_ret]. by rewrite Hf4.
  - unfold T1. rewrite <- base_view, <- base_map_stk.
    change (trees (top S)) with (top (view S)). change (_ <$> below S) with (below (view S)). by rewrite Hview.
Qed.
End Finish.

(** ** Running encoded code *)

(** Walking the result through the capture interface reads [ts]. *)
Definition reads (m : mem) (c : positive) (ts : forest) : Prop := ∃ n0, ∀ n, (n0 <= n)%nat → read_trees m n c = Ok ts.

(** What [vm_exec] reports of an outcome, and leaves in the heap. *)
Definition reports (o : outcome) (r : vm_result) (m : mem) : Prop :=
  match o with
  | Matched p ts => success r = true ∧ res_pos r = p ∧ ∃ c, captures r = Some c ∧ reads m c ts
  | Errored p ts => success r = false ∧ res_pos r = p ∧ ∃ c, captures r = Some c ∧ reads m c ts
  | NoMatch => success r = false ∧ captures r = None
  end.

(** What is the run's own afterwards: its result, if it has one. *)
Definition leaves (w : surround) (M : knowledge) (r : vm_result) (m : mem) : Prop :=
  match captures r with Some c => ∃ t, addr t = c ∧ mem_ok w M m [t] | None => mem_ok w M m [] end.

Lemma result_free w M r m : leaves w M r m → ∃ r' m', vm_result_free r m = Ok (r', m') ∧ mem_ok w M m' [].
Proof.
  unfold leaves, vm_result_free. destruct (captures r) as [c|]; [| intros Hm; by eexists _, m].
  intros (t & <- & Hm). destruct (free_list w M m [t] [] Hm) as (m' & Hf & Hm' & _). cbn [for_each fmap list_fmap] in Hf.
  destruct (memo_capture_free (addr t) m) as [m1| | |]; try done. injection Hf as ->. by eexists _, m'.
Qed.

(** Where [vm_exec] starts. *)
Definition started (d : list Z) (m : mem) : vm := mk_vm 0 (mk_stack [] []) (vm_input_new d) [] 0 0 m.

(** The instruction list [P] behind a program. *)
Record program_of (P : pir) (out : vm_code) : Prop := {
  po_operands : operands_ok P;
  po_encodes : ∀ k y, P !! k = Some y → real y = true → encodes P out k y;
  po_end : prog out !! ridx P (length P) = Some (mk_insn VM_END 0 0 None);
  po_size : Z.of_nat (length (prog out)) < 2 ^ 24;
  po_labels : ∀ k y, P !! k = Some y → is_open y = true → is_Some (lab P (p_label y));
}.

(** The loop and what comes after it, in a window or not: the machine's outcome,
    less the captures that are not wanted. *)
Lemma encoded_run x w M F W P m o (d := input x) :
  su_table w = has_table x → Forall is_byte d → dlen d < 2 ^ 30 → program_of P (vcode x) →
  recalls d P (su_table w) (storing x w) M F W → W 0 (Run 0 0 empty_stk) →
  mem_ok w (F 0) m [] → lean w m → calm x w (started d m) → evals d false P M (Run 0 0 empty_stk) o →
  ∃ n o0 r m' f, (∀ n', (n <= n')%nat → ('(v, oc) ← run n' x (started d m); finish x v oc) = Ok (r, m')) ∧
    shown_outcome (wanted x) o0 o ∧ reports o0 r m' ∧ leaves w (F f) r m'.
Proof.
  intros Htbl Hbytes Hlen [Hops Henc Hend Hsz Hself] Hrec HW Hm Hl Hc Ho.
  assert (related x P w F (Run 0 0 empty_stk) (started d m)) as Hr.
  { split_and!; try done; [| unfold dlen; lia]. split; [by apply vm_input_new_rep | by exists empty_stk | done]. }
  destruct (evals_ends x P w M F W Htbl Hlen Hops Henc Hend Hsz (λ _, Hself) Hrec _ _ Ho _ _ (shown_state_refl _ _) Hr Hc HW)
    as (o0 & Hshow & n & v' & p & K & Hrun & Hv & HK).
  assert (∀ n', (n <= n')%nat → ('(v, oc) ← run n' x (started d m); finish x v oc) = finish x v' (verdict o0)) as Hexec
    by (intros n' Hn; specialize (Hrun n' Hn); cbn [continue] in Hrun; by rewrite Hrun).
  assert (∀ ok ts, p = p ∧ base (below K) (top K) = ts ∧ modest w (mm v') → ∃ m' c, finish x v' (Some ok) = Ok (mk_result ok p (Some c) (errs v'), m') ∧
    reads m' c ts ∧ leaves w (F (mark v')) (mk_result ok p (Some c) (errs v')) m') as Hfin.
  { intros ok ts (_ & <- & Hmo). destruct (finish_match x P w F v' p K ok Hv Hmo) as (m' & c & lo & len & T & Hf & Hmc & HT).
    exists m', c. split; [done |]. split; [| by exists (CT c 0 CAP_DUMMY lo len T)]. rewrite <- HT.
    apply (mem_ok_reads w _ m' _ (CT c 0 CAP_DUMMY lo len T) Hmc). by left. }
  exists n, o0. destruct o0 as [q ts | q ts |]; cbn [verdict] in Hexec.
  - destruct HK as (-> & HK). destruct (Hfin true ts) as (m' & c & Hf & Hrd & Hlv); [done |].
    eexists _, m', _. split; [intros n' Hn; by rewrite Hexec, Hf |]. split; [done |]. split; [| exact Hlv]. split_and!; try done. by exists c.
  - destruct HK as (-> & HK). destruct (Hfin false ts) as (m' & c & Hf & Hrd & Hlv); [done |].
    eexists _, m', _. split; [intros n' Hn; by rewrite Hexec, Hf |]. split; [done |]. split; [| exact Hlv]. split_and!; try done. by exists c.
  - destruct (finish_fail x P w F v' p K Hv HK) as (m' & Hf & Hmf).
    eexists _, m', _. split; [intros n' Hn; by rewrite Hexec, Hf |]. split; [done |]. split; [done | exact Hmf].
Qed.

Lemma program_nonempty P out : program_of P out → prog out ≠ [].
Proof. intros [_ _ Hend _ _] E. by rewrite E, lookup_nil in Hend. Qed.

Lemma encoded_exec w M F W P out d tbl m o (x := mk_ctx out d tbl (-1) (-1)) :
  su_table w = has_table x → Forall is_byte d → dlen d < 2 ^ 30 → program_of P out →
  recalls d P (su_table w) (su_table w) M F W → W 0 (Run 0 0 empty_stk) →
  mem_ok w (F 0) m [] → lean w m → calm x w (started d m) → evals d false P M (Run 0 0 empty_stk) o →
  ∃ n r m' f, (∀ n', (n <= n')%nat → vm_exec n' out d tbl (-1) (-1) m = Ok (r, m')) ∧ reports o r m' ∧ leaves w (F f) r m'.
Proof.
  intros Htbl Hbytes Hlen HP Hrec HW Hm Hl Hc Ho. pose proof (program_nonempty _ _ HP) as Hne.
  destruct (encoded_run x w M F W P m o) as (n & o0 & r & m' & f & Hrun & Hshow & Hrep & Hlv); try done.
  { unfold storing. change (windowed x) with false. by rewrite andb_true_r. }
  assert (shown_state (wanted x) (Halt o0) (Halt o)) as [= ->]%shown_state_all by done; [| done].
  exists n, r, m', f. split; [| done]. intros n' Hn. unfold vm_exec. change (windowed _) with false. cbn [andb].
  destruct (prog out) as [|i0 is0]; [done |]. cbn [mbind res_bind mret res_ret]. exact (Hrun n' Hn).
Qed.

(** ** From the pattern *)

Lemma encode_no_open P e e' : for_each enc P e = Ok e' → no_open P.
Proof.
  revert e. induction P as [|y P IH]; intros e H; [constructor |]. cbn [for_each] in H.
  destruct (enc y e) as [e1| | |] eqn:E; try done. constructor; [| by eapply IH].
  intros Ho. apply enc_spec in E as [[Hn _] | (_ & b & e2 & c & _ & Hc & _)]; unfold is_op, pir_call in *; by rewrite Ho in *.
Qed.

(** The list a pattern was compiled to gives what the pattern matches, on any
    subject and with any table that keeps to its results. *)
Lemma compile_program fuel counter p out counter' : wfp p = true → pat_compile fuel counter p = Ok (inr out, counter') → vm_code_size out < 2 ^ 24 →
  ∃ P, program_of P out ∧ ∀ d M r, Forall is_byte d → memos_ok d M [] p → Forall (tree_ok d M) (tree_nodes fuel [] (mk_pctx None 0 counter) p) →
    matches d [] p 0 r → evals d false P M (Run 0 0 empty_stk) (outcome_of r).
Proof.
  intros Hwf H Hsz. unfold pat_compile in H. apply bind_Ok in H as ([code c] & Hc & H).
  destruct (err c) as [nm|] eqn:He; [done |]. destruct (open_name code); [done |].
  apply bind_Ok in H as (code' & Hopt & H). apply bind_Ok in H as (out' & Henc & H). injection H as -> <-.
  pose proof (pat_optimize_kept _ _ Hopt) as [Hkops Hkcnt Hkopen _ Hkrefs].
  assert (no_open code') as Hopen' by (unfold pat_encode in Henc; apply bind_Ok in Henc as (e & He' & _); by eapply encode_no_open).
  pose proof (Hkops (compile_operands _ _ _ _ _ Hc (wfp_wfc _ Hwf))) as Hops.
  pose proof (Hkrefs _ (compile_refs _ _ _ _ _ Hc He)) as Hrefs.
  destruct (compile_struct _ _ _ _ _ Hc) as [_ _ Hlabs _ _].
  destruct (pat_encode_spec code' out Henc) as (Hat & Hend & _ & Hpl); try done.
  { eapply Forall_impl; [exact Hops |]. intros y Hy. unfold pir_ok in Hy. by apply andb_prop in Hy as [? _]. }
  { intros z. rewrite Hkcnt. specialize (Hlabs z). by destruct (_ && _) in Hlabs; lia. }
  exists code'. split.
  - split; try done. intros k y Hy Ho. apply label_index_has. pose proof (Forall_lookup_1 _ _ _ _ Hrefs Hy) as [Href _].
    rewrite Hkcnt. apply Href. unfold is_open, is_op, pir_lab in *. by destruct (p_op y) as [[]| |].
  - intros d M r Hd Hmok Htok Hr. eapply pat_optimize_ok; [exact Hopt |]. eapply compile_pat_evals; try done. by apply Hkopen.
Qed.

(** Compiled code run, with a table of results that do not depend on the mark, or
    without a table. *)
Definition to_date (d : list Z) (P : pir) (M : memory) (_ : Z) (s : state) : Prop := ∃ o, evals d false P M s o.

Lemma to_date_recalls d P b k (M : memory) (F : knowledge) : (b = true → ∀ id q hi r, F id q hi r → found M id q r) →
  (b = true → ∀ id q j ts, 0 <= q <= dlen d → found M id q (Some (j, ts)) → q <= j <= dlen d) →
  (k = true → ∀ id q hi r, stored M id q r → F id q hi r) →
  recalls d P b k M (λ _, F) (to_date d P M).
Proof.
  intros Hsf Hrange Hk. split; try done.
  - intros Hb _ id q hi r. by apply Hsf.
  - intros Ek f s [o Ho]. destruct Ho as [| s s1 o _ Hst _ _]; [done |]. apply (stores_all (λ _ : unit, M)); [| done].
    intros id q r Hr _. by apply Hk, (Hr tt).
  - intros f f' s s' [o Ho] _ Hs _. destruct Ho as [| s s1 o Hs1 _ Ho1 _]; [done |]. exists o. by simplify_eq.
  - intros Hb f f' s s' [o Ho] Hh _. destruct Ho as [| s s1 o _ _ _ Hhit]; [done |]. exists o. apply Hhit.
    destruct s as [pc p K | |]; [| done..]. destruct Hh as (y & r & Hy & Hop & [hi Hf] & Hr). exists y, r. split_and!; try done. by eapply Hsf.
Qed.

Lemma compile_exec w M fuel counter p out counter' d tbl r m (x := mk_ctx out d tbl (-1) (-1)) :
  wfp p = true → Forall is_byte d → dlen d < 2 ^ 30 →
  pat_compile fuel counter p = Ok (inr out, counter') → vm_code_size out < 2 ^ 24 →
  su_table w = has_table x → memos_ok d M [] p → Forall (tree_ok d M) (tree_nodes fuel [] (mk_pctx None 0 counter) p) →
  (su_table w = true → ∀ id q r, stored M id q r → found M id q r) →
  (su_table w = true → ∀ id q j ts, 0 <= q <= dlen d → found M id q (Some (j, ts)) → q <= j <= dlen d) →
  mem_ok w (λ id q _ r, stored M id q r) m [] → lean w m → calm x w (started d m) → matches d [] p 0 r →
  ∃ n res m', (∀ n', (n <= n')%nat → vm_exec n' out d tbl (-1) (-1) m = Ok (res, m')) ∧
    reports (outcome_of r) res m' ∧ leaves w (λ id q _ r, stored M id q r) res m'.
Proof.
  intros Hwf Hd Hlen H Hsz Htbl Hmok Htok Hsf Hrange Hm Hl Hcalm Hr. destruct (compile_program _ _ _ _ _ Hwf H Hsz) as (P & HP & Hev).
  pose proof (Hev d M r Hd Hmok Htok Hr) as Ho.
  destruct (encoded_exec w M (λ _ id q _ r, stored M id q r) (to_date d P M) P out d tbl m (outcome_of r) Htbl Hd Hlen HP (to_date_recalls d P (su_table w) (su_table w) M _ (λ Hw id q _, Hsf Hw id q) Hrange (λ _ _ _ _ _ H, H))) as (n & res & m' & f & He & Hrep & Hlv);
    try done; [by eexists |]. by exists n, res, m'.
Qed.

(** *** Without a table *)

(** Nothing above [next_cap] is allocated. *)
Definition heap_fresh (m : mem) : Prop := ∀ a, is_Some (caps m !! a) → (a < next_cap m)%positive.

(** All captures of the memory are others'. *)
Definition alone (m : mem) : surround := Surround (caps m) false [].

Lemma alone_ok m : heap_fresh m → mem_ok (alone m) (λ _ _ _ _, True) m [].
Proof.
  intros Hf. split; [| done]. exists ∅. split; [by rewrite (left_id_L ∅ (∪)) |]. split; [apply map_disjoint_empty_l |].
  split; [| by constructor | done]. split; [done | | done]. intros a. cbn. rewrite held_empty. by intros ?%not_elem_of_nil.
Qed.

Lemma plain_exec fuel counter p out counter' d r m :
  wfp p = true → Forall is_byte d → dlen d < 2 ^ 30 →
  pat_compile fuel counter p = Ok (inr out, counter') → vm_code_size out < 2 ^ 24 →
  heap_fresh m → matches d [] p 0 r →
  ∃ n res m', (∀ n', (n <= n')%nat → vm_exec n' out d None (-1) (-1) m = Ok (res, m')) ∧
    reports (outcome_of r) res m' ∧
    ∃ res' m'', vm_result_free res m' = Ok (res', m'') ∧ caps m'' = caps m.
Proof.
  intros Hwf Hd Hlen H Hsz Hm Hr.
  destruct (compile_exec (alone m) unmemoized _ _ _ _ _ _ None r m Hwf Hd Hlen H Hsz) as (n & res & m' & He & Hrep & Hlv);
    try done; [apply unmemoized_ok | apply unmemoized_trees | by apply alone_ok | intros _ a c Hc Ha; cbn in Ha; congruence |].
  exists n, res, m'. split_and!; try done. destruct (result_free _ _ _ _ Hlv) as (r' & m'' & Hf & Hm'').
  exists r', m''. split; [done |]. by apply mem_ok_nil in Hm''.
Qed.

(** C1. Compiling and running a pattern gives its verdict and its parse tree.
    For a well-formed pattern, whatever program [pat_compile] returns for it (of
    less than 16 MB), and every subject of bytes shorter than 1 GB: if the
    pattern matches up to [j] with capture trees [ts], or fails, at the
    subject's start, then [vm_exec] without a memo table terminates and reports
    success, end position [j] and a result whose captures, walked with
    [memo_capture_each_child], are the trees [ts] -- or failure; it never
    aborts, reads out of bounds or touches freed captures; and once the result is
    freed, the heap of captures is what it was before the run. *)
Theorem pat_compile_exec fuel counter p out counter' d r m :
  wfp p = true → Forall is_byte d → dlen d < 2 ^ 30 →
  pat_compile fuel counter p = Ok (inr out, counter') → vm_code_size out < 2 ^ 24 →
  heap_fresh m → matches d [] p 0 r →
  ∃ n res m', (∀ n', (n <= n')%nat → vm_exec n' out d None (-1) (-1) m = Ok (res, m')) ∧
    reports (outcome_of r) res m' ∧
    ∃ res' m'', vm_result_free res m' = Ok (res', m'') ∧ caps m'' = caps m.
Proof. apply plain_exec. Qed.

Lemma pat_compile_exec_witness : ∃ out n r m' c,
  pat_compile 30 0 demo_pat = Ok (inr out, 0) ∧ vm_exec n out demo_subject None (-1) (-1) empty_mem = Ok (r, m') ∧
  success r = true ∧ res_pos r = 3 ∧ captures r = Some c ∧ reads m' c [PNode 7 0 3 [PNode 9 0 1 []; PNode 9 1 1 []]].
Proof.
  eexists.
  edestruct (pat_compile_exec 30 0 demo_pat) with (d := demo_subject) (r := Some (3, demo_trees)) (m := empty_mem)
    as (n & r & m' & Hex & (Hs & Hp & c & Hc & Hr) & _);
    [reflexivity | exact demo_bytes | vm_compute; reflexivity | vm_compute; reflexivity | vm_compute; reflexivity | | exact demo_matches |].
  - intros a [c Hc]. change (caps empty_mem) with (∅ : gmap positive memo_capture) in Hc. by rewrite lookup_empty in Hc.
  - exists n, r, m', c. split; [vm_compute; reflexivity |]. split; [by apply Hex | done].
Defined.
