(* ===== verification/Bounds.v ===== *)
(** * Bounds: matches and captures stay inside the subject *)
From S2P Require Import Prelude Charset Input Code CodeFacts ITree Memo Stack Vm Pattern Compile Sem PatternFacts Inline Wf InlineSound Machine CompileSpec CompileNodes CompileStruct Operands Labels CompileOk Optimize CompileThms Encode CaptureHeap CaptureTree VmStack VmRefine Correct.

(** A capture that starts at [lo] or later and ends by [hi], with captures
    inside that start no earlier than it does.  (They can end later: a capture in
    a look-ahead reaches past the match around it.) *)
Fixpoint inside (hi lo : Z) (t : ptree) : bool :=
  match t with
  | PNode _ start len kids => (lo <=? start) && (0 <=? len) && (start + len <=? hi) && forallb (inside hi start) kids
  end.

Definition all_inside (hi lo : Z) (ts : forest) : Prop := forallb (inside hi lo) ts = true.

Lemma inside_le hi lo lo' t : lo' <= lo → inside hi lo t = true → inside hi lo' t = true.
Proof. destruct t. cbn. intros. bools. zify_bool. rewrite !andb_true_iff, !Z.leb_le. split_and!; try lia. done. Qed.

Lemma all_inside_le hi lo lo' ts : lo' <= lo → all_inside hi lo ts → all_inside hi lo' ts.
Proof.
  unfold all_inside. intros Hle H. rewrite forallb_forall in H |- *. intros t Ht. eapply inside_le; [done | by apply H].
Qed.

Lemma all_inside_app hi lo ts us : all_inside hi lo ts → all_inside hi lo us → all_inside hi lo (ts ++ us).
Proof. unfold all_inside. intros H1 H2. by rewrite forallb_app, H1, H2. Qed.

Section Inside.
Context (d : list Z).

Definition parse_inside (i : Z) (x : parse) : Prop := ∀ j ts, x = Some (j, ts) → i <= j <= dlen d ∧ all_inside (dlen d) i ts.

Lemma inside_after i j ts x : i <= j → all_inside (dlen d) i ts → parse_inside j x → parse_inside i (after ts x).
Proof.
  intros Hij Hts Hx k us E. apply after_Some in E as (vs & E & ->). destruct (Hx _ _ E) as [? Hvs].
  split; [lia |]. apply all_inside_app; [done | by eapply all_inside_le].
Qed.

Lemma inside_captured id i x : parse_inside i x → parse_inside i (captured id i x).
Proof.
  intros Hx k us E. apply captured_Some in E as (ts & E & ->). destruct (Hx _ _ E) as [? Hts]. split; [done |].
  unfold all_inside. cbn. unfold all_inside in Hts. rewrite Hts, !andb_true_r, !andb_true_iff, !Z.leb_le. lia.
Qed.

Lemma inside_yields i y ts : (∀ j, y = Some j → i <= j <= dlen d) → all_inside (dlen d) i ts → parse_inside i (yields y ts).
Proof. intros Hy Hts j us E. apply yields_Some in E as [E ->]. split; [by apply Hy | done]. Qed.

Lemma inside_here i ts : 0 <= i <= dlen d → all_inside (dlen d) i ts → parse_inside i (Some (i, ts)).
Proof. intros Hi Hts j us [= <- <-]. split; [lia | done]. Qed.

Lemma inside_None i : parse_inside i None.
Proof. done. Qed.

Lemma literal_match_le str i j : 0 <= i <= dlen d → literal_match d str i = Some j → i <= j <= dlen d.
Proof.
  revert i. induction str as [|c str IH]; intros i Hi H; [injection H as <-; lia |].
  unfold literal_match in H; fold (literal_match d) in H.
  destruct (byte_at d i) eqn:Hb; [| done]. case_match; [| done]. apply byte_at_Some in Hb. fold (dlen d) in Hb.
  apply IH in H; lia.
Qed.

Lemma matches_at_inside n env p i x : matches_at d n env p i x → 0 <= i <= dlen d → parse_inside i x.
Proof.
  induction 1; intros Hi; try apply inside_None;
    repeat match goal with IH : 0 <= ?i <= _ → _, Hi : 0 <= ?i <= _ |- _ => specialize (IH Hi) end;
    try match goal with IH : parse_inside i (Some (?j, ?ts)) |- _ => destruct (IH _ _ eq_refl) as [Hj Hts] end;
    try done; try (apply inside_here; done || lia);
    try (eapply inside_after; [| done | match goal with IH : _ → parse_inside _ x |- _ => apply IH end]; lia).
  - apply inside_yields; [| done]. intros j E. unfold class_match in E. destruct (byte_at d i) eqn:Hb; [| done].
    apply byte_at_Some in Hb. fold (dlen d) in Hb. case_match; simplify_eq. lia.
  - apply inside_yields; [| done]. intros j E. unfold dot_match in E. case_match; simplify_eq. zify_bool. lia.
  - apply inside_yields; [| done]. intros j. by apply literal_match_le.
  - apply inside_yields; [| done]. intros j E. unfold emptyop_match in E. case_match; simplify_eq. lia.
  - by apply inside_captured.
  - apply inside_yields; [| done]. intros k E. unfold check_match in E. repeat case_match; simplify_eq; zify_bool; lia.
  - intros k us E. destruct (IHmatches_at2 ltac:(lia) k us E). split; [lia |]. eapply all_inside_le; [| done]. lia.
Qed.
End Inside.

(** C13. A run stays inside its subject: for a well-formed pattern that matches,
    [vm_exec] ends at a position of the subject, and every capture of its result
    -- read through the capture interface, however deep -- starts no earlier than
    the capture around it, has a length that is not negative and ends inside the
    subject, checkers and look-ahead included. *)
Theorem captures_inside fuel counter p out counter' d j ts m :
  wfp p = true → Forall is_byte d → dlen d < 2 ^ 30 →
  pat_compile fuel counter p = Ok (inr out, counter') → vm_code_size out < 2 ^ 24 →
  heap_fresh m → matches d [] p 0 (Some (j, ts)) →
  ∃ n res m' c ts', (∀ n', (n <= n')%nat → vm_exec n' out d None (-1) (-1) m = Ok (res, m')) ∧
    0 <= res_pos res <= dlen d ∧ captures res = Some c ∧ reads m' c ts' ∧ all_inside (dlen d) 0 ts'.
Proof.
  intros Hwf Hd Hlen H Hsz Hm Hr.
  destruct (plain_exec fuel counter p out counter' d _ m Hwf Hd Hlen H Hsz Hm Hr) as (n & res & m' & Hex & Hrep & _).
  cbn [outcome_of] in Hrep. destruct Hrep as (_ & Hp & c & Hc & Hread). destruct Hr as [k Hr].
  assert (0 <= 0 <= dlen d) as H0 by (unfold dlen; lia).
  destruct (matches_at_inside d _ _ _ _ _ Hr H0 _ _ eq_refl) as [? ?]. exists n, res, m', c, ts. by rewrite Hp.
Qed.

Lemma captures_inside_witness : ∃ out n res m' c ts,
  pat_compile 30 0 demo_pat = Ok (inr out, 0) ∧ vm_exec n out demo_subject None (-1) (-1) empty_mem = Ok (res, m') ∧
  0 <= res_pos res <= 3 ∧ captures res = Some c ∧ reads m' c ts ∧ all_inside 3 0 ts.
Proof.
  eexists.
  edestruct (captures_inside 30 0 demo_pat) with (d := demo_subject) (j := 3) (ts := demo_trees) (m := empty_mem)
    as (n & r & m' & c & ts & Hex & Hp & Hc & Hr & Hin);
    [reflexivity | exact demo_bytes | vm_compute; reflexivity | vm_compute; reflexivity | vm_compute; reflexivity | | exact demo_matches |].
  - intros a [c Hc]. change (caps empty_mem) with (∅ : gmap positive memo_capture) in Hc. by rewrite lookup_empty in Hc.
  - exists n, r, m', c, ts. split; [vm_compute; reflexivity |]. split; [by apply Hex | done].
Defined.
