(* ===== verification/Packrat.v ===== *)
(** * Packrat: a memo table does not change what a parse gives

    A session is a memory whose table holds results of memoized patterns on one
    subject, with the results the caller still holds.  A fresh memory is one;
    a run with the table in it gives what the pattern matches, as a run without
    does, and leaves a session with the new result; so does releasing a result,
    and the results held stay what they were.  A run in a window gives the same
    less captures outside it, and its table is the one before less what overlaps
    the window.  After an edit of the table the results held can still be read. *)
From stdpp Require Import sorting.
From S2P Require Import Prelude ITree ITreeDel ITreeSpec Charset Input Code CodeFacts Memo Stack Vm Pattern Compile Sem PatternFacts Inline Wf InlineSound Machine Memos Window CompileSpec CompileNodes CompileStruct Trees Operands Labels CompileOk Optimize CompileThms Encode CompileTotal CaptureHeap CaptureTree MemoHeap Frozen Evict VmStack VmRefine Correct Bounds.

(** ** What the table may hold *)

(** The patterns memoized on a subject: those with entries of their own, and the
    repetitions of one. *)
Record notes := Notes { memos : list memo_node; repeats : list tree_node }.

(** Those of a compiled pattern. *)
Definition notes_of (fuel : nat) (counter : Z) (p : pat) : notes :=
  Notes (memo_nodes [] p) (tree_nodes fuel [] (mk_pctx None 0 counter) p).

Definition noted (N N' : notes) : Prop := memos N ⊆ memos N' ∧ repeats N ⊆ repeats N'.

(** Results of memoized patterns under their ids. *)
Definition memo_results (d : list Z) (N : list memo_node) (id q : Z) (r : parse) : Prop :=
  ∃ x, x ∈ N ∧ i16 (mn_id x) = id ∧ matches d (mn_env x) (mn_pat x) q r.

(** Iterations of repeated ones. *)
Definition tree_results (d : list Z) (T : list tree_node) (id q : Z) (r : parse) : Prop :=
  ∃ x j ts, x ∈ T ∧ i16 (tn_id x) = id ∧ r = Some (j, ts) ∧ some_iters d (tn_env x) (tn_pat x) q j ts.

Definition results (d : list Z) (N : notes) (id q : Z) (r : parse) : Prop := memo_results d (memos N) id q r ∨ tree_results d (repeats N) id q r.

Definition memory_of (d : list Z) (N : notes) : memory := Memory (results d N) (results d N).

Definition known (d : list Z) (N : notes) : knowledge := λ id q _ r, results d N id q r.

(** What has the same id (of 16 bits) means the same. *)
Record ids_agree (d : list Z) (N : notes) : Prop := {
  ia_memos : ∀ x y, x ∈ memos N → y ∈ memos N → i16 (mn_id x) = i16 (mn_id y) →
    ∀ i r, matches d (mn_env x) (mn_pat x) i r → matches d (mn_env y) (mn_pat y) i r;
  ia_repeats : ∀ x y, x ∈ repeats N → y ∈ repeats N → i16 (tn_id x) = i16 (tn_id y) →
    ∀ i j ts, some_iters d (tn_env x) (tn_pat x) i j ts → some_iters d (tn_env y) (tn_pat y) i j ts;
  ia_apart : ∀ x y, x ∈ memos N → y ∈ repeats N → i16 (mn_id x) ≠ i16 (tn_id y);
}.

Lemma memory_of_ok d N env p : ids_agree d N → memo_nodes env p ⊆ memos N → memos_ok d (memory_of d N) env p.
Proof.
  intros Hids Hsub. apply Forall_forall. intros x Hx n i r _ Hr. specialize (Hsub _ Hx). split; [left; exists x; by split_and!; [| | exists n] |].
  intros r' [(y & Hy & Hid & Hr') | (y & j & ts & Hy & Hid & _)]; [| by destruct (ia_apart _ _ Hids x y)].
  apply (matches_fun d (mn_env x) (mn_pat x) i); [| by exists n]. by apply (ia_memos _ _ Hids y x).
Qed.

Lemma memory_of_trees d N T : ids_agree d N → T ⊆ repeats N → Forall (tree_ok d (memory_of d N)) T.
Proof.
  intros Hids Hsub. apply Forall_forall. intros x Hx i _. specialize (Hsub _ Hx). split.
  - intros j ts Hit. right. by exists x, j, ts.
  - intros r [(y & Hy & Hid & _) | (y & j & ts & Hy & Hid & -> & Hit)]; [by destruct (ia_apart _ _ Hids y x) |].
    exists j, ts. split; [done |]. by apply (ia_repeats _ _ Hids y x).
Qed.

Lemma iters_inside d n env p i j ts : iters d n env p i j ts → 0 <= i <= dlen d → i <= j <= dlen d.
Proof.
  induction 1 as [i j ts H | i j k ts us H _ IH]; intros Hi; destruct (matches_at_inside d _ _ _ _ _ H Hi _ _ eq_refl); [done |].
  specialize (IH ltac:(lia)). lia.
Qed.

Lemma memory_of_inside d N id q j ts : 0 <= q <= dlen d → results d N id q (Some (j, ts)) → q <= j <= dlen d.
Proof.
  intros Hq [(x & _ & _ & n & Hr) | (x & j' & ts' & _ & _ & [= <- <-] & n & Hit)].
  - by destruct (matches_at_inside d _ _ _ _ _ Hr Hq _ _ eq_refl).
  - by eapply iters_inside.
Qed.

(** The ids the compiler draws are new: if the pattern's own agree and are below
    the counter, and the counter stays in 15 bits, all agree. *)
Lemma fresh_ids d fuel counter p out counter' : pat_compile fuel counter p = Ok (inr out, counter') → 0 <= counter → counter' <= 2 ^ 15 →
  Forall (λ x, 0 <= mn_id x < counter) (memo_nodes [] p) →
  (∀ x y, x ∈ memo_nodes [] p → y ∈ memo_nodes [] p → mn_id x = mn_id y →
    ∀ i r, matches d (mn_env x) (mn_pat x) i r → matches d (mn_env y) (mn_pat y) i r) → ids_agree d (notes_of fuel counter p).
Proof.
  intros H H0 H15 Hmemo Hagree. unfold pat_compile in H. apply bind_Ok in H as ([code c] & Hc & H).
  assert (counter' = memo_counter c) as ->.
  { destruct (err c); [done |]. destruct (open_name code); [done |]. apply bind_Ok in H as (code' & _ & H).
    apply bind_Ok in H as (out' & _ & H). by injection H. }
  pose proof (tree_nodes_ids fuel [] _ _ _ _ Hc) as Hids. pose proof Hids as (Hle & Hsort & Hin). cbn [memo_counter] in Hle, Hin. rewrite Forall_forall in Hmemo. rewrite Forall_forall in Hin.
  assert (∀ z, 0 <= z < 2 ^ 15 → i16 z = z) as Hi16 by (intros z Hz; apply i16_id; lia).
  split; cbn [memos repeats notes_of].
  - intros x y Hx Hy. pose proof (Hmemo _ Hx). pose proof (Hmemo _ Hy). rewrite !Hi16 by lia. by apply Hagree.
  - intros x y Hx Hy. pose proof (Hin _ Hx). pose proof (Hin _ Hy). rewrite !Hi16 by lia. intros Hid.
    by rewrite (ids_in_inj _ _ _ x y Hids Hx Hy Hid).
  - intros x y Hx Hy. pose proof (Hmemo _ Hx). pose proof (Hin _ Hy). rewrite !Hi16 by lia. lia.
Qed.

(** ** Sessions *)

(** [hf]: captures of others; [L]: results the caller holds. *)
Definition session (hf : heap) (d : list Z) (N : notes) (m : mem) (L : list ctree) : Prop :=
  mem_ok (Surround hf true []) (known d N) m L.

Lemma held_live hf M m T L : mem_ok (Surround hf true L) M m T ↔ mem_ok (Surround hf true []) M m (T ++ L).
Proof.
  split; intros [(h & Hm & Hd & [H1 H2 H3]) Hf]; (split; [| done]); exists h; (split_and!; [done | done |]);
    (split; [| | done]); cbn [su_live] in *; by rewrite ?app_nil_r in *.
Qed.

Lemma session_new m d N : ents m = ∅ → heap_fresh m → session (caps m) d N (memo_table_new 0 m).2 [].
Proof. intros He Hf. by eapply memo_table_new_ok, alone_ok. Qed.

(** A result that is held can be read. *)
Lemma session_reads hf d N m L t : session hf d N m L → t ∈ L → reads m (addr t) (trees (kids_of t)).
Proof. intros Hs Ht. by eapply mem_ok_reads. Qed.

Lemma session_perm hf d N m L L' : session hf d N m L → L ≡ₚ L' → session hf d N m L'.
Proof. apply mem_ok_perm. Qed.

(** Releasing a result. *)
Lemma session_free hf d N m t L r : captures r = Some (addr t) → session hf d N m (t :: L) →
  ∃ r' m', vm_result_free r m = Ok (r', m') ∧ session hf d N m' L.
Proof.
  intros Hr Hs. destruct (free_list _ _ m [t] L Hs) as (m' & Hf & Hm' & _). unfold vm_result_free. rewrite Hr.
  cbn [for_each fmap list_fmap] in Hf. destruct (memo_capture_free (addr t) m) as [m1| | |]; try done. injection Hf as ->.
  by eexists _, m'.
Qed.

(** ** Runs *)

(** Between instructions, and between the merges of one, no capture has 2^31
    references: doubling them once, as an instruction does before it drops the
    other half, does not overflow. *)
Definition few_refs (x : ctx) (v : vm) : Prop :=
  ∀ v1 v2, reaches x v v1 → rtc (merges x) v1 v2 → ∀ a c, caps (mm v2) !! a = Some c → c_refs c < 2 ^ 31.

Definition refs_check (v : vm) : bool := forallb (λ ac, c_refs ac.2 <? 2 ^ 31) (map_to_list (caps (mm v))).

Fixpoint merges_check (fuel : nat) (x : ctx) (v : vm) : bool :=
  match fuel with
  | O => false
  | S fuel =>
      refs_check v &&
      (if at_tree x v then
         match due (entries (st v)) 0 0 with
         | Some (seen, accum) => match tree_merge x seen accum v with Ok v => merges_check fuel x v | _ => true end
         | None => true
         end
       else true)
  end.

Fixpoint few_refs_check (fuel : nat) (x : ctx) (v : vm) : bool :=
  match fuel with
  | O => false
  | S fuel =>
      merges_check (S (length (entries (st v)))) x v &&
      match step x v with Ok (inl v) => few_refs_check fuel x v | _ => true end
  end.

Lemma refs_check_ok v a c : refs_check v = true → caps (mm v) !! a = Some c → c_refs c < 2 ^ 31.
Proof.
  intros H Hc. unfold refs_check in H. rewrite forallb_forall in H. apply Z.ltb_lt. apply (H (a, c)), list_elem_of_In.
  by apply elem_of_map_to_list.
Qed.

Lemma merges_check_ok fuel x v v' : merges_check fuel x v = true → rtc (merges x) v v' → refs_check v' = true.
Proof.
  intros H Hr. revert fuel H. induction Hr as [v | v v1 v' (Hat & seen & accum & Hdue & Hm) _ IH]; intros [|fuel] H; try done;
    cbn [merges_check] in H; apply andb_prop in H as [Hv H]; [done |]. rewrite Hat, Hdue, Hm in H. by eapply IH.
Qed.

Lemma few_refs_check_ok fuel x v : few_refs_check fuel x v = true → few_refs x v.
Proof.
  revert v. induction fuel as [|fuel IH]; intros v H; [done |]. cbn [few_refs_check] in H. apply andb_prop in H as [H1 H2].
  intros v1 v2 Hr Hm. inversion Hr as [| v3 v4 Hs Hr']; subst.
  - intros a c. apply refs_check_ok. by eapply merges_check_ok.
  - rewrite Hs in H2. by apply (IH v3 H2 v1 v2).
Qed.

Lemma session_exec hf N L fuel counter p out counter' d tbl r m :
  wfp p = true → Forall is_byte d → dlen d < 2 ^ 30 →
  pat_compile fuel counter p = Ok (inr out, counter') → vm_code_size out < 2 ^ 24 →
  noted (notes_of fuel counter p) N → ids_agree d N → session hf d N m L →
  few_refs (mk_ctx out d (Some tbl) (-1) (-1)) (started d m) → matches d [] p 0 r →
  ∃ n res m', (∀ n', (n <= n')%nat → vm_exec n' out d (Some tbl) (-1) (-1) m = Ok (res, m')) ∧
    reports (outcome_of r) res m' ∧
    match captures res with Some c => ∃ t, addr t = c ∧ session hf d N m' (t :: L) | None => session hf d N m' L end.
Proof.
  intros Hwf Hd Hlen Hc Hsz [Hsub Hsub'] Hids Hs Hfew Hr. apply (held_live hf _ m []) in Hs.
  destruct (compile_exec (Surround hf true L) (memory_of d N) fuel counter p out counter' d (Some tbl) r m Hwf Hd Hlen Hc Hsz)
    as (n & res & m' & He & Hrep & Hlv); try done.
  - by apply memory_of_ok.
  - by apply memory_of_trees.
  - intros _ id q j ts. apply memory_of_inside.
  - intros v1 Hv1 v2 Hv2 _ a c Hca _. by eapply Hfew.
  - exists n, res, m'. split_and!; [done.. |]. unfold leaves in Hlv. destruct (captures res) as [c|].
    + destruct Hlv as (t & Ht & Hm). exists t. split; [done |]. by apply (held_live hf _ m' [t]).
    + by apply (held_live hf _ m' []).
Qed.

(** C2. Memoization is sound.  In a session -- a fresh memo table, or one that
    earlier runs on the subject filled, with results the caller may still hold --
    [vm_exec] with the table terminates and reports what the pattern matches:
    verdict, end position and capture trees, whether results come from the table
    or from parsing.  The memory is a session again, with the result: nothing is
    freed too early or leaked, every held result reads what it did, and every
    entry of the table is a result its memoized pattern has -- entries of
    repeated ones, which merge, some iterations of it.  For ids that name one
    meaning each, and as long as no capture gets 2^31 references. *)
Theorem packrat_sound hf N L fuel counter p out counter' d tbl r m :
  wfp p = true → Forall is_byte d → dlen d < 2 ^ 30 →
  pat_compile fuel counter p = Ok (inr out, counter') → vm_code_size out < 2 ^ 24 →
  noted (notes_of fuel counter p) N → ids_agree d N → session hf d N m L →
  few_refs (mk_ctx out d (Some tbl) (-1) (-1)) (started d m) → matches d [] p 0 r →
  ∃ n res m', (∀ n', (n <= n')%nat → vm_exec n' out d (Some tbl) (-1) (-1) m = Ok (res, m')) ∧
    reports (outcome_of r) res m' ∧ (∀ t, t ∈ L → reads m' (addr t) (trees (kids_of t))) ∧
    match captures res with Some c => ∃ t, addr t = c ∧ session hf d N m' (t :: L) | None => session hf d N m' L end.
Proof.
  intros. edestruct session_exec as (n & res & m' & He & Hrep & Hs); [done.. |]. exists n, res, m'. split_and!; try done.
  intros t Ht. destruct (captures res) as [c|]; [destruct Hs as (t' & _ & Hs) |]; (eapply session_reads; [exact Hs |]); [by right | done].
Qed.

(** [S <- A 'b' / A A* 'c'], [A] a captured ['a'], memoized, on ["aaac"]: the second
    choice finds [A]'s result in the table and puts the iterations of [A*] there. *)
Definition memo_pat : pat :=
  pat_grammar "S" [("S", pat_alt (pat_seq (pat_nonterm "A") (pat_literal [98]))
      (pat_concat [pat_nonterm "A"; pat_star (pat_nonterm "A"); pat_literal [99]]));
    ("A", PAT_MEMO (pat_cap (pat_literal [97]) 5) 1)].

Definition memo_subject : list Z := [97; 97; 97; 99].

Definition memo_trees : forest := [PNode 5 0 1 []; PNode 5 1 1 []; PNode 5 2 1 []].

Lemma memo_bytes : Forall is_byte memo_subject.
Proof. repeat constructor; vm_compute; discriminate. Qed.

Lemma memo_matches : matches memo_subject [] memo_pat 0 (Some (4, memo_trees)).
Proof.
  exists 1%nat. eapply M_GRAMMAR; [reflexivity |]. set (env := [_; _]).
  assert (∀ m b i x, x = yields (literal_match memo_subject [b] i) [] → matches_at memo_subject m env (PAT_LITERAL [b]) i x) as Hlit
    by (intros ? ? ? ? ->; apply M_LITERAL).
  assert (∀ i, matches_at memo_subject 1 env (PAT_NONTERM "A" None) i (captured 5 i (yields (literal_match memo_subject [97] i) []))) as HA.
  { intros i. eapply M_NONTERM; [reflexivity |]. apply M_MEMO, M_CAP. by apply Hlit. }
  apply M_ALT_R.
  - apply (M_SEQ _ _ _ _ _ _ 1 [PNode 5 0 1 []] None); [by apply (HA 0) | by apply Hlit].
  - apply (M_SEQ _ _ _ _ _ _ 3 memo_trees (Some (4, []))); [| by apply Hlit].
    apply (M_SEQ _ _ _ _ _ _ 1 [PNode 5 0 1 []] (Some (3, [PNode 5 1 1 []; PNode 5 2 1 []]))); [by apply (HA 0) |].
    apply (M_STAR _ _ _ _ _ 2 [PNode 5 1 1 []] (Some (3, [PNode 5 2 1 []]))); [by apply (HA 1) |].
    apply (M_STAR _ _ _ _ _ 3 [PNode 5 2 1 []] (Some (3, []))); [by apply (HA 2) |]. apply M_STAR_0. by apply (HA 3).
Qed.

Lemma memo_pat_ids d out : pat_compile 30 2 memo_pat = Ok (inr out, 3) → ids_agree d (notes_of 30 2 memo_pat).
Proof.
  intros H. eapply fresh_ids; [exact H | lia | lia | |].
  - apply Forall_forall. intros x ->%list_elem_of_singleton. cbn. lia.
  - by intros x y ->%list_elem_of_singleton ->%list_elem_of_singleton.
Qed.

Lemma packrat_sound_witness : ∃ out n res m' t,
  pat_compile 30 2 memo_pat = Ok (inr out, 3) ∧ vm_exec n out memo_subject (Some (mk_table 0)) (-1) (-1) empty_mem = Ok (res, m') ∧
  success res = true ∧ res_pos res = 4 ∧ captures res = Some (addr t) ∧ reads m' (addr t) memo_trees ∧
  session ∅ memo_subject (notes_of 30 2 memo_pat) m' [t].
Proof.
  eexists.
  edestruct (packrat_sound ∅ (notes_of 30 2 memo_pat) [] 30 2 memo_pat) with (d := memo_subject) (m := empty_mem) (tbl := mk_table 0) (r := Some (4, memo_trees))
    as (n & res & m' & Hex & (Hs & Hp & c & Hc & Hr) & _ & Hses).
  - vm_compute. reflexivity.
  - exact memo_bytes.
  - vm_compute. reflexivity.
  - vm_compute. reflexivity.
  - vm_compute. reflexivity.
  - done.
  - eapply memo_pat_ids. vm_compute. reflexivity.
  - apply (session_new empty_mem); [done |]. intros a [c Hc]. done.
  - apply (few_refs_check_ok 100). vm_compute. reflexivity.
  - exact memo_matches.
  - rewrite Hc in Hses. destruct Hses as (t & <- & Hses). exists n, res, m', t.
    split; [vm_compute; reflexivity |]. split; [by apply Hex | done].
Defined.

(** ** Windows *)

(** The memory a windowed run works on. *)
Definition window_opened (lo hi : Z) (m : mem) : res mem :=
  if lo <? hi then memo_table_apply_edit (mk_edit lo hi (hi - lo)) m else mret m.

(** Of a table, what a window leaves. *)
Definition outside (lo hi : Z) (xs : list (iv_key * itree_ivals positive)) : list (iv_key * itree_ivals positive) :=
  if lo <? hi then cut_view lo hi xs else xs.

(** The table of [m'] is that of [m] without the intervals that overlap the
    window and their entries. *)
Definition table_outside (lo hi : Z) (m m' : mem) : Prop :=
  contents (tree m') = outside lo hi (contents (tree m)) ∧
  ∀ e, ents m' !! e = if decide (e ∈ stored (outside lo hi (contents (tree m)))) then ents m !! e else None.

Lemma window_opened_ok M hf m T lo hi : mem_ok (Surround hf true []) M m T →
  ∃ m', window_opened lo hi m = Ok m' ∧ mem_ok (Surround hf true []) M m' T ∧ table_outside lo hi m m'.
Proof.
  intros Hm. assert (∃ m', window_opened lo hi m = Ok m' ∧ mem_ok (Surround hf true []) M m' T ∧
    contents (tree m') = outside lo hi (contents (tree m)) ∧ (∀ e en, ents m' !! e = Some en → ents m !! e = Some en)) as (m' & Ho & Hm' & Hc & Hk).
  { unfold window_opened, outside. destruct (Z.ltb_spec lo hi); [by apply window_edit_ok | by exists m]. }
  exists m'. do 3 (split; [done |]). intros e. rewrite <- Hc. destruct (mem_ok_tree _ _ _ _ Hm') as [_ He]. specialize (He e).
  destruct (ents m' !! e) as [en|] eqn:E; case_decide as Hin.
  - symmetry. by apply Hk.
  - destruct Hin. apply He. by exists en.
  - destruct (proj1 He Hin) as [en Hen]. done.
  - done.
Qed.

(** Whatever is known of the table is still known afterwards: nothing is stored. *)
Lemma windowed_exec (F : knowledge) hf N L fuel counter p out counter' d tbl lo hi r m :
  wfp p = true → Forall is_byte d → dlen d < 2 ^ 30 →
  pat_compile fuel counter p = Ok (inr out, counter') → vm_code_size out < 2 ^ 24 →
  noted (notes_of fuel counter p) N → ids_agree d N → (∀ id q ex r, F id q ex r → results d N id q r) →
  mem_ok (Surround hf true []) F m L → 0 <= lo →
  (∀ m1, window_opened lo hi m = Ok m1 → few_refs (mk_ctx out d (Some tbl) lo hi) (started d m1)) → matches d [] p 0 r →
  ∃ n o res m', (∀ n', (n <= n')%nat → vm_exec n' out d (Some tbl) lo hi m = Ok (res, m')) ∧
    shown_outcome (overlaps lo hi) o (outcome_of r) ∧ reports o res m' ∧ table_outside lo hi m m' ∧
    match captures res with
    | Some c => ∃ t, addr t = c ∧ mem_ok (Surround hf true []) F m' (t :: L)
    | None => mem_ok (Surround hf true []) F m' L
    end.
Proof.
  intros Hwf Hd Hlen Hc Hsz [Hsub Hsub'] Hids HF Hm Hlo Hfew Hr. set (x := mk_ctx out d (Some tbl) lo hi) in *.
  assert (windowed x = true) as Hwin by (unfold windowed; cbn; lia).
  destruct (window_opened_ok _ _ _ _ lo hi Hm) as (m1 & Hopen & Hm1 & Hout). specialize (Hfew m1 Hopen).
  destruct (mem_ok_tree _ _ _ _ Hm1) as [Hinv _]. apply (held_live hf _ m1 []) in Hm1.
  destruct (compile_program _ _ _ _ _ Hwf Hc Hsz) as (P & HP & Hev).
  assert (evals d false P (memory_of d N) (Run 0 0 empty_stk) (outcome_of r)) as Ho
    by (apply Hev; [done | by apply memory_of_ok | by apply memory_of_trees | done]).
  destruct (encoded_run x (Surround hf true L) (memory_of d N) (λ _, F) (to_date d P (memory_of d N)) P m1 (outcome_of r))
    as (n & o & res & m' & f & Hrun & Hshow & Hrep & Hlv); try done.
  - apply to_date_recalls; [done | intros _ id q j ts; apply memory_of_inside |]. unfold storing. by rewrite Hwin.
  - by eexists.
  - intros v1 Hv1 v2 Hv2 _ a c Hca _. by eapply Hfew.
  - exists n, o, res, m'. split; [| split; [| split; [done | split]]].
    + intros n' Hn. unfold vm_exec. fold x. rewrite Hwin. cbn [andb bool_decide decide_rel].
      rewrite bool_decide_eq_false_2 by done. pose proof (program_nonempty _ _ HP) as Hne. destruct (prog out); [done |].
      unfold window_opened in Hopen. rewrite Hopen. cbn_res. exact (Hrun n' Hn).
    + assert (wanted x = overlaps lo hi) as <-; [| done]. unfold wanted. by rewrite Hwin.
    + destruct (windowed_frozen n x m1 (started (input x) m1) res m' Hwin Hinv eq_refl (Hrun n ltac:(done))) as [_ Hct Hen]. destruct Hout as [Hc1 He1].
      split; [by rewrite Hct | intros e; by rewrite Hen].
    + unfold leaves in Hlv. destruct (captures res) as [c|].
      * destruct Hlv as (t & Ht & Hmt). exists t. split; [done |]. by apply (held_live hf _ m' [t]).
      * by apply (held_live hf _ m' []).
Qed.

(** C5. A window leaves captures out and nothing else.  In a session, [vm_exec] in
    a window [lo, hi) terminates with the pattern's verdict and end position, and
    its captures are the pattern's less some that do not overlap the window, with
    what is inside them; so every capture that overlaps it, and lies only in
    captures that do, is there.  The table afterwards is exactly the one before
    without the intervals that overlap the window, each other entry unchanged:
    the run evicts those, stores none and drops no other.  The memory is a
    session again, with the result and every result held before, each still
    readable.  For ids that name one meaning each, and as long as no capture
    gets 2^31 references. *)
Theorem windowed_sound hf N L fuel counter p out counter' d tbl lo hi r m :
  wfp p = true → Forall is_byte d → dlen d < 2 ^ 30 →
  pat_compile fuel counter p = Ok (inr out, counter') → vm_code_size out < 2 ^ 24 →
  noted (notes_of fuel counter p) N → ids_agree d N → session hf d N m L → 0 <= lo →
  (∀ m1, window_opened lo hi m = Ok m1 → few_refs (mk_ctx out d (Some tbl) lo hi) (started d m1)) → matches d [] p 0 r →
  ∃ n o res m', (∀ n', (n <= n')%nat → vm_exec n' out d (Some tbl) lo hi m = Ok (res, m')) ∧
    shown_outcome (overlaps lo hi) o (outcome_of r) ∧ reports o res m' ∧ table_outside lo hi m m' ∧ (∀ t, t ∈ L → reads m' (addr t) (trees (kids_of t))) ∧
    match captures res with Some c => ∃ t, addr t = c ∧ session hf d N m' (t :: L) | None => session hf d N m' L end.
Proof.
  intros. edestruct (windowed_exec (known d N)) as (n & o & res & m' & He & Hsh & Hrep & Htab & Hs); [done.. |].
  exists n, o, res, m'. do 4 (split; [done |]). split; [| done].
  intros t Ht. destruct (captures res) as [c|]; [destruct Hs as (t' & _ & Hs) |]; (eapply session_reads; [exact Hs |]); [by right | done].
Qed.

(** On ["aaac"] with a fresh table, the window is around the second ['a']. *)
Lemma windowed_sound_witness : ∃ out n o res m',
  pat_compile 30 2 memo_pat = Ok (inr out, 3) ∧ vm_exec n out memo_subject (Some (mk_table 0)) 1 2 empty_mem = Ok (res, m') ∧
  shown_outcome (overlaps 1 2) o (Matched 4 memo_trees) ∧ reports o res m' ∧ table_outside 1 2 empty_mem m'.
Proof.
  eexists.
  edestruct (windowed_sound ∅ (notes_of 30 2 memo_pat) [] 30 2 memo_pat) with (d := memo_subject) (m := empty_mem) (tbl := mk_table 0) (lo := 1) (hi := 2) (r := Some (4, memo_trees))
    as (n & o & res & m' & Hex & Hsh & Hrep & Htab & _ & _).
  - vm_compute. reflexivity.
  - exact memo_bytes.
  - vm_compute. reflexivity.
  - vm_compute. reflexivity.
  - vm_compute. reflexivity.
  - done.
  - eapply memo_pat_ids. vm_compute. reflexivity.
  - apply (session_new empty_mem); [done |]. intros a [c Hc]. done.
  - lia.
  - intros m1 Hm1. vm_compute in Hm1. injection Hm1 as <-. apply (few_refs_check_ok 100). vm_compute. reflexivity.
  - exact memo_matches.
  - exists n, o, res, m'. split; [vm_compute; reflexivity |]. split; [by apply Hex | exact (conj Hsh (conj Hrep Htab))].
Defined.

(** ** Edits *)


