(* ===== verification/Examined.v ===== *)
(** * Examined: a run depends on what it has examined

    The furthest mark of a run bounds what the run has looked at: on any subject
    that is the same up to the mark, the machine would have come to the same
    state.  So an entry made by a run from an empty table stands for a result
    that its pattern has on all subjects that are the same within the entry's
    interval.  This is for code without the instructions that look at the subject
    behind the mark's back: advancing over bytes (the end of the subject is not
    counted as read), the empty operators (they look one byte back) and checkers. *)
From S2P Require Import Prelude ITree ITreeLazy ITreeSpec Charset Input Code CodeFacts Memo Stack Vm Pattern Compile Sem PatternFacts Inline Wf InlineSound Machine Memos Slide CompileSpec CompileNodes CompileStruct Trees Operands Labels CompileOk Optimize CompileThms Encode CaptureHeap CaptureTree MemoHeap Evict VmStack VmRefine Correct Packrat.

(** The same up to [hi], the end of the subject included. *)
Definition agree (hi : Z) (d d' : list Z) : Prop := ∀ k, k < hi → byte_at d' k = byte_at d k.

Lemma agree_refl hi d : agree hi d d.
Proof. done. Qed.

Lemma agree_le hi hi' d d' : agree hi d d' → hi' <= hi → agree hi' d d'.
Proof. intros H Hle k Hk. apply H. lia. Qed.

(** ** Code that counts what it reads *)

Definition op_counts (o : vm_op) : bool :=
  match o with VM_ANY | VM_TEST_ANY | VM_EMPTY | VM_CHECK_BEGIN | VM_CHECK_END => false | _ => true end.

Definition counts (out : vm_code) : bool := forallb (λ i, op_counts (op i)) (prog out).

Definition list_counts (P : pir) : Prop := ∀ k y, P !! k = Some y → match p_op y with OP o => op_counts o = true | _ => True end.

Lemma counts_list P out : program_of P out → counts out = true → list_counts P.
Proof.
  intros [_ Henc _ _ _] Hc k y Hy. destruct (real y) eqn:Hr.
  - destruct (Henc k y Hy Hr) as (c & t & e & chk & Hcall & Hi & _). unfold counts in Hc. rewrite forallb_forall in Hc.
    specialize (Hc _ (proj1 (list_elem_of_In _ _) (list_elem_of_lookup_2 _ _ _ Hi))). unfold pir_call in Hcall.
    destruct (p_op y) as [[]| |]; try done; injection Hcall as <-; exact Hc.
  - unfold real, is_label, is_op in Hr. by destruct (p_op y) as [[]| |].
Qed.

Lemma run_at_agree set d d' p : 0 <= p → agree (p + run_at set d p + 1) d d' → run_at set d' p = run_at set d p.
Proof.
  intros Hp. remember (Z.to_nat (run_at set d p)) as n eqn:En. revert p Hp En. induction n as [|n IH]; intros p Hp En Ha;
    pose proof (run_at_bounds set d p Hp) as [Hge _]; rewrite (run_at_step set d' p Hp); rewrite (run_at_step set d p Hp) in *;
    rewrite (Ha p) by lia; (destruct (byte_at d p) as [b|]; [| done]); (destruct (vm_charset_has set b); [| done]);
    pose proof (run_at_bounds set d (p + 1) ltac:(lia)) as [Hge' _]; [lia |].
  f_equal. apply IH; [lia | lia |]. eapply agree_le; [exact Ha | lia].
Qed.

(** A step is the same on subjects that are the same where it looks. *)
Lemma istep_agree P f s d d' : list_counts P → in_subject d s → agree (looked d P f s + 1) d d' →
  istep d' false P s = istep d false P s.
Proof.
  intros HP Hin Ha. destruct s as [pc p K | |]; [| done..]. cbn [istep in_subject] in *. unfold looked in Ha.
  destruct (P !! pc) as [y|] eqn:Hy; [| done]. specialize (HP _ _ Hy). unfold insn_step, match1.
  destruct (p_op y) as [[]| |]; try done; unfold literal_match, class_match;
    try (by rewrite (Ha p) by lia).
  rewrite (run_at_agree _ d d'); [done | lia |]. eapply agree_le; [exact Ha | lia].
Qed.

(** ** Results on all subjects that agree *)

(** Known of [d] examined up to [hi]. *)
Definition sure (d : list Z) (N : notes) : knowledge := λ id q hi r,
  0 <= q <= dlen d ∧ ∀ d', Forall is_byte d' → agree hi d d' → results d' N id q r.

(** While the mark is at [f]. *)
Definition so_far (d : list Z) (N : notes) (f : Z) : knowledge := λ id q hi r, hi <= f + 1 ∧ sure d N id q hi r.

(** Wherever the subject is the same, the machine ends from here. *)
Definition anyhow (d : list Z) (N : notes) (P : pir) (f : Z) (s : state) : Prop :=
  ∀ d', Forall is_byte d' → agree (f + 1) d d' → to_date d' P (memory_of d' N) f s.

Lemma anyhow_recalls d N P b k : Forall is_byte d → list_counts P → recalls d P b k (memory_of d N) (so_far d N) (anyhow d N P).
Proof.
  intros Hd HP. assert (∀ f id q hi r, so_far d N f id q hi r → results d N id q r) as Hres by (intros f id q hi r (_ & _ & Hr); by apply Hr).
  split.
  - intros f f' id q hi r Hf [Hh Hr]. split; [lia | done].
  - intros _ f id q hi r. apply Hres.
  - intros _ id q j ts. apply memory_of_inside.
  - intros _ f s HW. apply (stores_all (λ a : { d' | Forall is_byte d' ∧ agree (f + 1) d d' }, memory_of (proj1_sig a) N)).
    + intros id q r Hr Hq. split; [lia |]. split; [done |]. intros d' Hb Ha. exact (Hr (exist _ d' (conj Hb Ha))).
    + intros (d' & Hb & Ha). destruct (HW d' Hb Ha) as [o Ho]. by destruct Ho as [| s s1 o _ Hst _ _].
  - intros f f' s s' HW Hin Hs Hf d' Hb Ha. pose proof (looked_ge d P f s).
    destruct (HW d' Hb) as [o Ho]; [by eapply agree_le; [exact Ha | lia] |]. exists o.
    assert (istep d' false P s = Some s') as Hs' by (rewrite <- Hs; apply (istep_agree P f); [done | done |]; by eapply agree_le; [exact Ha | lia]).
    destruct Ho as [| s s1 o Hs1 _ Ho1 _]; [done |]. by simplify_eq.
  - intros _ f f' s s' HW Hh Hf d' Hb Ha. destruct (HW d' Hb) as [o Ho]; [by eapply agree_le; [exact Ha | lia] |]. exists o.
    destruct Ho as [| s s1 o _ _ _ Hhit]; [done |]. apply Hhit. destruct s as [pc p K | |]; [| done..].
    destruct Hh as (y & r & Hy & Hop & [hi [Hhi [_ Hr]]] & Hr'). exists y, r. split_and!; try done.
    apply Hr; [done |]. eapply agree_le; [exact Ha | lia].
Qed.

(** A run from an empty table leaves a table of results that are sure. *)
Lemma fresh_exec hf N L fuel counter p out counter' d tbl r m :
  wfp p = true → Forall is_byte d → dlen d < 2 ^ 30 →
  pat_compile fuel counter p = Ok (inr out, counter') → vm_code_size out < 2 ^ 24 → counts out = true →
  noted (notes_of fuel counter p) N → (∀ d', ids_agree d' N) → (∀ d', Forall is_byte d' → ∃ r', matches d' [] p 0 r') →
  mem_ok (Surround hf true []) (so_far d N 0) m L →
  few_refs (mk_ctx out d (Some tbl) (-1) (-1)) (started d m) → matches d [] p 0 r →
  ∃ n res m', (∀ n', (n <= n')%nat → vm_exec n' out d (Some tbl) (-1) (-1) m = Ok (res, m')) ∧
    reports (outcome_of r) res m' ∧
    match captures res with
    | Some c => ∃ t, addr t = c ∧ mem_ok (Surround hf true []) (sure d N) m' (t :: L)
    | None => mem_ok (Surround hf true []) (sure d N) m' L
    end.
Proof.
  intros Hwf Hd Hlen Hc Hsz Hcnt [Hsub Hsub'] Hids Htot Hs Hfew Hr. apply (held_live hf _ m []) in Hs.
  destruct (compile_program _ _ _ _ _ Hwf Hc Hsz) as (P & HP & Hev).
  assert (∀ d' r', Forall is_byte d' → matches d' [] p 0 r' → evals d' false P (memory_of d' N) (Run 0 0 empty_stk) (outcome_of r')) as Hall.
  { intros d' r' Hd' Hr'. apply Hev; [done | by apply memory_of_ok | by apply memory_of_trees | done]. }
  destruct (encoded_exec (Surround hf true L) (memory_of d N) (so_far d N) (anyhow d N P) P out d (Some tbl) m (outcome_of r))
    as (n & res & m' & f & He & Hrep & Hlv); try done.
  - apply anyhow_recalls; [done | by eapply counts_list].
  - intros d' Hd' _. destruct (Htot d' Hd') as [r' Hr']. exists (outcome_of r'). by apply Hall.
  - intros v1 Hv1 v2 Hv2 _ a c Hca _. by eapply Hfew.
  - by apply Hall.
  - exists n, res, m'. split_and!; [done.. |]. assert (∀ id q hi r, so_far d N f id q hi r → sure d N id q hi r) as Hsure by by intros ???? [].
    unfold leaves in Hlv. destruct (captures res) as [c|].
    + destruct Hlv as (t & Ht & Hm). exists t. split; [done |]. apply (held_live hf _ m' [t]). by eapply mem_ok_learn.
    + apply (held_live hf _ m' []). by eapply mem_ok_learn.
Qed.

(** ** Results that move with the subject *)

Definition every_note (f : pat → bool) (N : notes) : bool :=
  forallb (λ x, every f (mn_pat x) && every_def f (mn_env x)) (memos N) &&
  forallb (λ x, every f (tn_pat x) && every_def f (tn_env x)) (repeats N).

Lemma results_slide N d d' i0 k id q r : every_note looks_ahead N = true → dlen d' = dlen d + k → (∀ i, i0 <= i → byte_at d' (i + k) = byte_at d i) →
  0 <= i0 → 0 <= i0 + k → i0 <= q → results d N id q r → results d' N id (q + k) (slide_parse k r).
Proof.
  intros HN Hl Hr H0 H0k Hq. unfold every_note in HN. rewrite andb_true_iff, !forallb_forall in HN. destruct HN as [Hm Ht].
  intros [(x & Hx & Hid & n & H) | (x & j & ts & Hx & Hid & -> & n & H)].
  - specialize (Hm x (proj1 (list_elem_of_In _ _) Hx)). apply andb_prop in Hm as [Hf He].
    left. exists x. split_and!; [done | done |]. exists n. by eapply matches_slide.
  - specialize (Ht x (proj1 (list_elem_of_In _ _) Hx)). apply andb_prop in Ht as [Hf He].
    right. exists x, (j + k), (slides k ts). split_and!; [done | done | done |]. exists n. by eapply iters_slide.
Qed.

(** A result at [q] examined up to [hi] holds wherever the subject reads the same. *)
Definition steady (d : list Z) (N : notes) : knowledge := λ id q hi r,
  0 <= q <= dlen d ∧ ∀ d' q', Forall is_byte d' → 0 <= q' <= dlen d' →
    (∀ i, q <= i < hi → byte_at d' (i + (q' - q)) = byte_at d i) → results d' N id q' (slide_parse (q' - q) r).

Lemma byte_at_app a b i : byte_at (a ++ b) i = if i <? dlen a then byte_at a i else byte_at b (i - dlen a).
Proof.
  unfold byte_at, dlen. destruct (Z.ltb_spec i 0), (Z.ltb_spec i (Z.of_nat (length a))); try done; try lia.
  - by rewrite lookup_app_l by lia.
  - rewrite (proj2 (Z.ltb_ge _ _)), lookup_app_r by lia. f_equal. lia.
Qed.

Lemma byte_at_take a i n : i < n → byte_at (take (Z.to_nat n) a) i = byte_at a i.
Proof. intros Hi. unfold byte_at. case_zb; [done |]. rewrite lookup_take_lt by lia. done. Qed.

Lemma byte_at_drop a i n : 0 <= i → 0 <= n → byte_at (drop (Z.to_nat n) a) i = byte_at a (i + n).
Proof. intros Hi Hn. unfold byte_at. rewrite !(proj2 (Z.ltb_ge _ _)) by lia. rewrite lookup_drop. f_equal. lia. Qed.

Lemma dlen_take a n : 0 <= n <= dlen a → dlen (take (Z.to_nat n) a) = n.
Proof. unfold dlen. rewrite length_take. lia. Qed.

Lemma dlen_drop a n : 0 <= n <= dlen a → dlen (drop (Z.to_nat n) a) = dlen a - n.
Proof. unfold dlen. rewrite length_drop. lia. Qed.

Lemma dlen_app a b : dlen (a ++ b) = dlen a + dlen b.
Proof. unfold dlen. rewrite length_app. lia. Qed.

Lemma sure_steady d N id q hi r : Forall is_byte d → every_note looks_ahead N = true → sure d N id q hi r → steady d N id q hi r.
Proof.
  intros Hd HN [Hq Hr]. split; [done |]. intros d' q' Hd' Hq' Ha. set (d2 := take (Z.to_nat q) d ++ drop (Z.to_nat q') d').
  assert (dlen d2 = q + (dlen d' - q')) as Hl by (unfold d2; rewrite dlen_app, dlen_take, dlen_drop by done; lia).
  assert (∀ i, q <= i → byte_at d2 i = byte_at d' (i + (q' - q))) as Hb.
  { intros i Hi. unfold d2. rewrite byte_at_app, dlen_take by done. rewrite (proj2 (Z.ltb_ge _ _)) by lia.
    rewrite byte_at_drop by lia. f_equal. lia. }
  replace q' with (q + (q' - q)) at 1 by lia. apply (results_slide N d2 d' q); [done | lia | | lia..|].
  - intros i Hi. by rewrite Hb.
  - apply Hr.
    + unfold d2. apply Forall_app. split; [by apply Forall_take | by apply Forall_drop].
    + intros i Hi. destruct (Z.lt_ge_cases i q) as [Hlt | Hge]; [| rewrite Hb by done; by apply Ha].
      unfold d2. rewrite byte_at_app, dlen_take by done. rewrite (proj2 (Z.ltb_lt _ _)) by lia. apply byte_at_take. lia.
Qed.

Lemma steady_results d N id q hi r : Forall is_byte d → steady d N id q hi r → results d N id q r.
Proof.
  intros Hd [Hq Hr]. specialize (Hr d q Hd Hq). rewrite Z.sub_diag in Hr.
  assert (slide_parse 0 r = r) as E by apply slide_parse_0. rewrite E in Hr. apply Hr. intros i _. f_equal. lia.
Qed.

(** *** Edits *)

Definition splice (d : list Z) (start end_ : Z) (text : list Z) : list Z :=
  take (Z.to_nat start) d ++ text ++ drop (Z.to_nat end_) d.

Section Splice.
Context (d text : list Z) (a b : Z) (Hab : 0 <= a <= b) (Hb : b <= dlen d).
Let amt := dlen text - (b - a).

Lemma dlen_splice : dlen (splice d a b text) = dlen d + amt.
Proof using Hab Hb. unfold splice. rewrite !dlen_app, dlen_take, dlen_drop by lia. lia. Qed.

Lemma splice_before i : i < a → byte_at (splice d a b text) i = byte_at d i.
Proof using Hab Hb.
  intros Hi. unfold splice. rewrite byte_at_app, dlen_take by lia. rewrite (proj2 (Z.ltb_lt _ _)) by lia. by apply byte_at_take.
Qed.

Lemma splice_behind i : b <= i → byte_at (splice d a b text) (i + amt) = byte_at d i.
Proof using Hab Hb.
  intros Hi. assert (0 <= dlen text) by (unfold dlen; lia).
  unfold splice. rewrite byte_at_app, dlen_take by lia. rewrite (proj2 (Z.ltb_ge _ _)) by lia.
  rewrite byte_at_app. rewrite (proj2 (Z.ltb_ge _ _)) by lia. rewrite byte_at_drop by lia. f_equal. lia.
Qed.

(** What was examined before the edit or lies behind it is known of the edited subject. *)
Lemma steady_edit N id q hi r (q' := gate q (mk_shift a amt 0)) : 0 <= amt →
  q < a ∧ hi <= a ∨ (if a =? b then a + 1 else b) <= q → steady d N id q hi r →
  steady (splice d a b text) N id q' (hi + (q' - q)) (slide_parse (q' - q) r).
Proof using Hab Hb.
  intros Hamt Hq [Hqd Hr]. pose proof dlen_splice as Hl.
  assert (q < a ∧ hi <= a ∧ q' - q = 0 ∨ a <= q ∧ b <= q ∧ q' - q = amt) as Hq2.
  { subst q'. unfold gate. cbn [idx ITree.amt]. destruct (Z.eqb_spec a b), (Z.leb_spec a q); lia. }
  assert (0 <= q' <= dlen (splice d a b text)) as Hq' by lia.
  assert (∀ i, q <= i < hi → byte_at (splice d a b text) (i + (q' - q)) = byte_at d i) as Hsame.
  { intros i Hi. destruct Hq2 as [(H1 & H2 & ->) | (H1 & H2 & ->)]; [rewrite Z.add_0_r; apply splice_before; lia | apply splice_behind; lia]. }
  split; [done |]. intros d' q2 Hd' Hq3 Ha. rewrite slide_parse_add. replace (q' - q + (q2 - q')) with (q2 - q) by lia.
  apply Hr; [done | done |]. intros i Hi. rewrite <- (Hsame i Hi).
  rewrite <- (Ha (i + (q' - q))) by lia. f_equal. lia.
Qed.
End Splice.

(** ** Patterns that can be reparsed *)

(** What a compiled pattern must be for a reparse after edits: its code counts
    what it reads, what it memoizes looks ahead only and captures nothing, and it
    has a result on every subject. *)
Record reparsable (N : notes) (out : vm_code) (p : pat) : Prop := {
  rp_counts : counts out = true;
  rp_ahead : every_note looks_ahead N = true;
  rp_silent : every_note no_capture N = true;
  rp_total : ∀ d, Forall is_byte d → ∃ r, matches d [] p 0 r;
}.

Definition silent (r : parse) : Prop := ∀ j ts, r = Some (j, ts) → ts = [].

Lemma silent_results N d id q r : every_note no_capture N = true → results d N id q r → silent r.
Proof.
  intros HN. unfold every_note in HN. rewrite andb_true_iff, !forallb_forall in HN. destruct HN as [Hm Ht].
  intros [(x & Hx & _ & n & H) | (x & j & ts & Hx & _ & -> & n & H)].
  - specialize (Hm x (proj1 (list_elem_of_In _ _) Hx)). apply andb_prop in Hm as [Hf He]. intros j ts ->.
    exact (silent_match _ _ _ _ _ _ H Hf He _ _ eq_refl).
  - specialize (Ht x (proj1 (list_elem_of_In _ _) Hx)). apply andb_prop in Ht as [Hf He]. intros j' ts' [= <- <-].
    induction H as [i j ts H | i j k ts us H _ IH]; rewrite (silent_match _ _ _ _ _ _ H Hf He _ _ eq_refl); [done | exact IH].
Qed.

Lemma trees_edited_nil m lo amt U : trees U = [] → trees (edited m lo amt <$> U) = [].
Proof.
  assert (∀ T, Forall (λ t, trees_of t = [] → trees_of (edited m lo amt t) = []) T → trees T = [] → trees (edited m lo amt <$> T) = []) as Hall.
  { unfold trees. induction 1 as [|t T Ht _ IH]; [done |]. cbn. intros [H1 H2]%app_nil. rewrite Ht, IH; done. }
  apply Hall, Forall_forall. intros t _. induction t as [a id ty off len kids IH] using ctree_ind'. cbn [edited].
  rewrite !trees_of_CT. destruct ty; cbn [built]; [done |]. by apply Hall.
Qed.

(** What a table of results that move knows, it still knows after an edit. *)
Definition moving (d : list Z) (N : notes) : knowledge := λ id q hi r, steady d N id q hi r ∧ silent r.

Lemma moving_survives d N a b t : 0 <= a <= b → b <= dlen d → b - a <= dlen t →
  survives (moving d N) (moving (splice d a b t) N) a (if a =? b then a + 1 else b) (dlen t - (b - a)).
Proof.
  intros Hab Hb Ht m' id q ex en U Hq [Hst Hsi]. set (q' := gate q _). pose proof (steady_edit d t a b Hab Hb N id q ex _ ltac:(lia) Hq Hst) as Hs.
  fold q' in Hs. unfold result_of in *. destruct (e_length en =? -1); [by split |].
  specialize (Hsi _ _ eq_refl) as HU. rewrite (trees_edited_nil _ _ _ _ HU). rewrite HU in Hs. cbn in Hs.
  replace (q + e_length en + (q' - q)) with (q' + e_length en) in Hs by lia. split; [exact Hs | by intros j ts [= _ <-]].
Qed.

Lemma sure_moving d N id q hi r : Forall is_byte d → every_note looks_ahead N = true → every_note no_capture N = true →
  sure d N id q hi r → moving d N id q hi r.
Proof.
  intros Hd Ha Hs H. split; [by apply sure_steady |]. destruct H as [_ H]. eapply silent_results; [exact Hs | by apply (H d)].
Qed.
