(* ===== verification/Live.v ===== *)
(** * Live: patterns that answer on every subject

    A pattern can run for ever: a star whose body matches the empty string, or a
    non-terminal that calls itself before it has consumed anything.  [lives]
    excludes both: bodies of repetitions consume, and calls made before anything
    is consumed go down in rank.  A pattern that passes has a result on every
    subject, so the machine comes to an end on every subject.  The tables --
    which definitions may match nothing, and their ranks -- are arguments. *)
From S2P Require Import Prelude Charset Input Code ITree Memo Stack Vm Pattern Compile Sem PatternFacts Inline Wf InlineSound Machine Memos CompileThms CaptureHeap MemoHeap Correct Bounds.

Notation defs := (list (string * pat)).

Section Live.
Context (nul : defs → string → bool) (rank : defs → string → nat).

(** A match is not empty. *)
Fixpoint consumes (env : defs) (p : pat) : bool :=
  match p with
  | PAT_ALT l r => consumes env l && consumes env r
  | PAT_SEQ l r => consumes env l || consumes env r
  | PAT_PLUS q | PAT_CAP q _ | PAT_MEMO q _ | PAT_CHECK q _ _ _ | PAT_SEARCH q
  | PAT_NONTERM _ (Some q) | PAT_ERROR _ (Some q) => consumes env q
  | PAT_REPEAT q k => (0 <? k) && consumes env q
  | PAT_CLASS _ => true
  | PAT_DOT k => 0 <? k
  | PAT_LITERAL s => negb (bool_decide (s = []))
  | PAT_NONTERM name None => negb (nul env name)
  | _ => false
  end.

(** Calls under [bound] go down in rank; no bound once something is consumed. *)
Definition call_ok (env : defs) (bound : option nat) (name : string) : bool :=
  match def_of env name with
  | Some _ => match bound with Some k => (rank env name <? k)%nat | None => true end
  | None => false
  end.

Fixpoint lives (env : defs) (bound : option nat) (p : pat) : bool :=
  match p with
  | PAT_ALT l r => lives env bound l && lives env bound r
  | PAT_SEQ l r => lives env bound l && lives env (if consumes env l then None else bound) r
  | PAT_STAR q | PAT_PLUS q => consumes env q && lives env bound q
  | PAT_OPTIONAL q | PAT_NOT q | PAT_AND q | PAT_CAP q _ | PAT_MEMO q _ | PAT_CHECK q _ _ _
  | PAT_SEARCH q | PAT_REPEAT q _ | PAT_NONTERM _ (Some q) | PAT_ERROR _ (Some q) => lives env bound q
  | PAT_NONTERM name None => call_ok env bound name
  | PAT_ERROR _ None => false
  | PAT_GRAMMAR start ds =>
      bool_decide (is_Some (def_of ds start)) &&
      (fix all l := match l with
                    | [] => true
                    | (n, q) :: l => lives ds (Some (rank ds n)) q && (nul ds n || consumes ds q) && all l
                    end) ds
  | _ => true
  end.

Definition def_lives (ds : defs) (nq : string * pat) : bool :=
  lives ds (Some (rank ds nq.1)) nq.2 && (nul ds nq.1 || consumes ds nq.2).

Lemma lives_grammar env b start ds :
  lives env b (PAT_GRAMMAR start ds) = bool_decide (is_Some (def_of ds start)) && forallb (def_lives ds) ds.
Proof.
  cbn [lives]. f_equal. match goal with |- ?F _ = forallb ?G _ => assert (∀ l, F l = forallb G l) as H; [| apply H] end.
  intros l. induction l as [|[n q] l IH]; [done |]. cbn [forallb]. by rewrite IH.
Qed.

Lemma def_of_in (ds : defs) name q : def_of ds name = Some q → (name, q) ∈ ds.
Proof.
  unfold def_of. induction ds as [|[m p] l IH]; [done |]. cbn [find_def]. destruct (decide (m = name)) as [-> | Hne].
  - intros [= ->]. by left.
  - intros H. right. apply IH. by destruct (find_def l name).
Qed.

(** What [nul] excludes consumes. *)
Definition nul_ok (env : defs) : Prop := ∀ name q, def_of env name = Some q → nul env name = true ∨ consumes env q = true.

Lemma consumes_sound d n env p i x : matches_at d n env p i x → nul_ok env → consumes env p = true →
  ∀ j ts, x = Some (j, ts) → i < j.
Proof.
  induction 1; intros Hn Hc j' ts' E; cbn [consumes] in Hc; try discriminate;
    repeat match goal with
    | H : after _ _ = Some _ |- _ => apply after_Some in H as (? & ? & ?)
    | H : captured _ _ _ = Some _ |- _ => apply captured_Some in H as (? & ? & ?)
    | H : yields _ _ = Some _ |- _ => apply yields_Some in H as [H _]
    end; simplify_eq; bools;
    repeat match goal with
    | IH : nul_ok _ → ?c = true → _, Hc : ?c = true |- _ => specialize (IH Hn Hc)
    | IH : ∀ j ts, Some (?k, ?us) = Some (j, ts) → _ |- _ => specialize (IH k us eq_refl)
    end; eauto; try lia;
    try match goal with H : matches_at _ _ _ _ ?j (Some (?k, _)) |- ?i < ?k => pose proof (matches_at_ge _ _ _ _ _ _ H _ _ eq_refl); lia end.
  - unfold class_match in E. repeat case_match; simplify_eq. lia.
  - unfold dot_match in E. case_match; simplify_eq. zify_bool. lia.
  - apply literal_match_ge in E. apply bool_decide_eq_false in Hc. destruct str; [done |]. cbn in E. lia.
  - apply orb_prop in Hc as [Hc | Hc].
    + specialize (IHmatches_at1 Hn Hc _ _ eq_refl). pose proof (matches_at_ge _ _ _ _ _ _ H0 _ _ eq_refl). lia.
    + specialize (IHmatches_at2 Hn Hc _ _ eq_refl). pose proof (matches_at_ge _ _ _ _ _ _ H _ _ eq_refl). lia.
  - unfold check_match in E. repeat case_match; simplify_eq; zify_bool; lia.
  - apply (IHmatches_at Hn) with (ts := ts'); [| done]. destruct (Hn _ _ H) as [Hc' |]; congruence.
Qed.

(** ** Every position has a result *)

(** The calls that [bound] allows answer at [i]. *)
Definition calls (d : list Z) (env : defs) (bound : option nat) (i : Z) : Prop := ∀ name q,
  def_of env name = Some q → match bound with Some k => (rank env name < k)%nat | None => True end → ∃ r, matches d env q i r.

Section Answers.
Context (d : list Z).
Notation answers env p i := (∃ r, matches d env p i r).

Lemma matches_inside env p i j ts : 0 <= i <= dlen d → matches d env p i (Some (j, ts)) → i <= j <= dlen d.
Proof. intros Hi [n H]. by destruct (matches_at_inside d _ _ _ _ _ H Hi _ _ eq_refl). Qed.

(** From results of the parts. *)
Lemma answers_1 env p q i (Q : parse → parse) : answers env q i →
  (∀ n r, matches_at d n env q i r → matches_at d n env p i (Q r)) → answers env p i.
Proof. intros [r [n H]] HQ. exists (Q r), n. by apply HQ. Qed.

(** Repeating what consumes: by the length of the rest. *)
Lemma star_answers env q : nul_ok env → consumes env q = true → ∀ i, 0 <= i <= dlen d →
  (∀ j, i <= j <= dlen d → answers env q j) → answers env (PAT_STAR q) i.
Proof.
  intros Hn Hc i Hi. remember (Z.to_nat (dlen d - i)) as m eqn:Em. revert i Em Hi.
  induction m as [m IH] using lt_wf_ind. intros i Em Hi Hq. destruct (Hq i) as [[[j ts]|] [n H]]; [lia | |].
  - pose proof (consumes_sound _ _ _ _ _ _ H Hn Hc _ _ eq_refl). destruct (matches_at_inside d _ _ _ _ _ H Hi _ _ eq_refl) as [Hj _].
    destruct (IH (Z.to_nat (dlen d - j)) ltac:(lia) j eq_refl ltac:(lia)) as [r [m' H']]; [intros k Hk; apply Hq; lia |].
    exists (after ts r), (Nat.max n m'). eapply M_STAR; eapply matches_at_le; done || lia.
  - exists (Some (i, [])), n. by apply M_STAR_0.
Qed.

Lemma search_answers env q i : 0 <= i <= dlen d → (∀ j, i <= j <= dlen d → answers env q j) → answers env (PAT_SEARCH q) i.
Proof.
  intros Hi. remember (Z.to_nat (dlen d - i)) as m eqn:Em. revert i Em Hi.
  induction m as [m IH] using lt_wf_ind. intros i Em Hi Hq. destruct (Hq i) as [[x|] [n H]]; [lia | by exists (Some x), n; apply M_SEARCH |].
  destruct (decide (i < dlen d)) as [Hlt | Hge]; [| exists None, n; apply M_SEARCH_F; [done | lia]].
  destruct (IH (Z.to_nat (dlen d - (i + 1))) ltac:(lia) (i + 1) eq_refl ltac:(lia)) as [r [m' H']]; [intros k Hk; apply Hq; lia |].
  exists r, (Nat.max n m'). apply M_SEARCH_S; [| done |]; eapply matches_at_le; done || lia.
Qed.

Lemma repeat_answers env q k i : 0 <= i <= dlen d → (∀ j, i <= j <= dlen d → answers env q j) → answers env (PAT_REPEAT q k) i.
Proof.
  remember (Z.to_nat k) as m eqn:Em. revert k i Em. induction m as [|m IH]; intros k i Em Hi Hq.
  { exists (Some (i, [])), O. apply M_REPEAT_0. lia. }
  destruct (Hq i) as [[[j ts]|] [n H]]; [lia | | exists None, n; apply M_REPEAT_F; [lia | done]].
  destruct (matches_at_inside d _ _ _ _ _ H Hi _ _ eq_refl) as [Hj _].
  destruct (IH (k - 1) j ltac:(lia) ltac:(lia)) as [r [m' H']]; [intros k' Hk; apply Hq; lia |].
  exists (after ts r), (Nat.max n m'). eapply M_REPEAT; [lia | |]; eapply matches_at_le; done || lia.
Qed.

(** All definitions answer: by the length of the rest, then by rank. *)
Lemma defs_answer env : (∀ name q, def_of env name = Some q → lives env (Some (rank env name)) q = true ∧
    ∀ i, 0 <= i <= dlen d → (∀ j, i <= j <= dlen d → calls d env (Some (rank env name)) j) →
      (∀ j, i < j <= dlen d → calls d env None j) → answers env q i) →
  ∀ i, 0 <= i <= dlen d → calls d env None i.
Proof.
  intros Hdef i. remember (Z.to_nat (dlen d - i)) as m eqn:Em. revert i Em.
  induction m as [m IHm] using lt_wf_ind. intros i Em Hi name q Hq _.
  assert (∀ j, i < j <= dlen d → calls d env None j) as Hlater by (intros j Hj; apply (IHm (Z.to_nat (dlen d - j)) ltac:(lia) j eq_refl ltac:(lia))).
  remember (rank env name) as k eqn:Ek. revert name q Hq Ek. induction k as [k IHk] using lt_wf_ind. intros name q Hq ->.
  destruct (Hdef name q Hq) as [_ Hans]. apply Hans; [done | | done].
  intros j Hj name' q' Hq' Hr. destruct (decide (j = i)) as [-> | Hne]; [by eapply IHk |]. apply (Hlater j ltac:(lia) name' q' Hq' I).
Qed.

Lemma lives_answers p : ∀ env bound i, nul_ok env → lives env bound p = true → 0 <= i <= dlen d →
  (∀ j, i <= j <= dlen d → calls d env bound j) → (∀ j, i < j <= dlen d → calls d env None j) → answers env p i.
Proof.
  induction p using pat_ind'; intros env bound i Hn Hl Hi Hb Hlater; rewrite ?lives_grammar in Hl; cbn [lives] in Hl; bools;
    repeat match goal with
    | IH : ∀ env bound i, _ → lives _ _ ?q = true → _, Hq : lives env bound ?q = true |- _ =>
        assert (∀ j, i <= j <= dlen d → answers env q j) by (intros j Hj; apply (IH env bound j Hn Hq); [lia | |]; intros; [apply Hb | apply Hlater]; lia);
        clear IH
    end.
  - destruct (H2 i ltac:(lia)) as [[x|] [n Hp]]; [exists (Some x), n; by apply M_ALT_L |].
    destruct (H1 i ltac:(lia)) as [r [m Hr]]. exists r, (Nat.max n m). apply M_ALT_R; eapply matches_at_le; done || lia.
  - destruct (H1 i ltac:(lia)) as [[[j ts]|] [n Hp]]; [| exists None, n; by apply M_SEQ_F].
    destruct (matches_at_inside d _ _ _ _ _ Hp Hi _ _ eq_refl) as [Hj _].
    destruct (IHp2 env (if consumes env p1 then None else bound) j Hn H0 ltac:(lia)) as [r [m Hr]].
    + intros k Hk. destruct (consumes env p1) eqn:Ec; [| apply Hb; lia]. apply Hlater.
      pose proof (consumes_sound _ _ _ _ _ _ Hp Hn Ec _ _ eq_refl). lia.
    + intros k Hk. apply Hlater. lia.
    + exists (after ts r), (Nat.max n m). eapply M_SEQ; eapply matches_at_le; done || lia.
  - by apply star_answers.
  - destruct (H1 i ltac:(lia)) as [[[j ts]|] [n Hp]]; [| exists None, n; by apply M_PLUS_F].
    destruct (matches_at_inside d _ _ _ _ _ Hp Hi _ _ eq_refl) as [Hj _].
    destruct (star_answers env p Hn H j ltac:(lia)) as [r [m Hr]]; [intros k Hk; apply H1; lia |].
    exists (after ts r), (Nat.max n m). eapply M_PLUS; eapply matches_at_le; done || lia.
  - destruct (H i ltac:(lia)) as [[x|] [n Hp]]; [exists (Some x), n; by apply M_OPT | exists (Some (i, [])), n; by apply M_OPT_0].
  - destruct (H i ltac:(lia)) as [[x|] [n Hp]]; [exists None, n; by eapply M_NOT | exists (Some (i, [])), n; by apply M_NOT_0].
  - destruct (H i ltac:(lia)) as [[[j ts]|] [n Hp]]; [exists (Some (i, ts)), n; by eapply M_AND | exists None, n; by apply M_AND_F].
  - eapply (answers_1 env _ p i (captured id i)); [by apply H; lia |]. intros. by apply M_CAP.
  - eapply (answers_1 env _ p i (λ r, r)); [by apply H; lia |]. intros. by apply M_MEMO.
  - destruct (H i ltac:(lia)) as [[[j ts]|] [n Hp]]; [| exists None, n; by apply M_CHECK_F].
    exists (yields (check_match d fn id flag i j) ts), n. by eapply M_CHECK.
  - apply bool_decide_eq_true in H0 as [q Hq]. rewrite forallb_forall in H1.
    assert (∀ name q, def_of defs name = Some q → def_lives defs (name, q) = true) as Hdl.
    { intros name q' Hq'. by apply H1, list_elem_of_In, def_of_in. }
    assert (nul_ok defs) as Hn'.
    { intros name q' Hq'. specialize (Hdl _ _ Hq'). unfold def_lives in Hdl. apply andb_prop in Hdl as [_ Hdl]. by apply orb_prop in Hdl. }
    destruct (defs_answer defs) with (i := i) (name := start) (q := q) as [r [n Hr]]; [| done | done | done | exists r, n; by eapply M_GRAMMAR].
    intros name q' Hq'. pose proof (Hdl _ _ Hq') as Hdq. unfold def_lives in Hdq. apply andb_prop in Hdq as [Hdq _]. cbn in Hdq.
    split; [done |]. intros j Hj Hbj Hlj. rewrite Forall_forall in H. by apply (H _ (def_of_in _ _ _ Hq') defs (Some (rank defs name)) j).
  - by apply search_answers.
  - by apply repeat_answers.
  - exists (yields (class_match d s i) []), O. apply M_CLASS.
  - exists (yields (literal_match d s i) []), O. apply M_LITERAL.
  - unfold call_ok in Hl. destruct (def_of env n) as [q|] eqn:Hq; [| done].
    destruct (Hb i ltac:(lia) n q Hq) as [r [m Hr]]; [destruct bound; [by apply Nat.ltb_lt | done] |].
    exists r, (S m). by eapply M_NONTERM.
  - eapply (answers_1 env _ p i (λ r, r)); [by apply H; lia |]. intros. by apply M_INLINED.
  - exists (yields (dot_match d n i) []), O. apply M_DOT.
  - done.
  - eapply (answers_1 env _ p i (λ r, r)); [by apply H; lia |]. intros. by apply M_ERROR.
  - exists (yields (emptyop_match d op i) []), O. apply M_EMPTYOP.
  - exists (Some (i, [])), O. apply M_EMPTY.
Qed.
End Answers.
End Live.

(** C8. A live pattern's program answers on every subject.  When every repeated
    body consumes, every definition that is not listed as nullable consumes, and
    every call made before anything is consumed goes down in rank (so there is no
    left recursion), then whatever program [pat_compile] returns, on every
    subject the pattern has a result and [vm_exec] comes to an end and reports
    it: no input makes the machine run for ever. *)
Theorem live_pattern_answers nul rank fuel counter p out counter' :
  wfp p = true → lives nul rank [] None p = true →
  pat_compile fuel counter p = Ok (inr out, counter') → vm_code_size out < 2 ^ 24 →
  ∀ d m, Forall is_byte d → dlen d < 2 ^ 30 → heap_fresh m →
  ∃ r, matches d [] p 0 r ∧ ∃ n res m', (∀ n', (n <= n')%nat → vm_exec n' out d None (-1) (-1) m = Ok (res, m')) ∧
    reports (outcome_of r) res m'.
Proof.
  intros Hwf Hl Hc Hsz d m Hd Hlen Hm. destruct (lives_answers nul rank d p [] None 0) as [r Hr]; try done; [unfold dlen; lia |].
  exists r. split; [done |]. destruct (plain_exec fuel counter p out counter' d r m) as (n & res & m' & He & Hrep & _); try done.
  by exists n, res, m'.
Qed.

(** A grammar with two definitions that call each other, and a star:
    [S <- T* 'b' / 'a' S ; T <- 'c' S / 'd'*'e'] on ["aceb"]. *)
Definition live_pat : pat :=
  pat_grammar "S" [("S", pat_alt (pat_seq (pat_star (pat_nonterm "T")) (pat_literal [98])) (pat_seq (pat_literal [97]) (pat_nonterm "S")));
    ("T", pat_alt (pat_seq (pat_literal [99]) (pat_nonterm "S")) (pat_seq (pat_star (pat_literal [100])) (pat_literal [101])))].

Lemma live_pattern_answers_witness : ∃ out r n res m', pat_compile 60 0 live_pat = Ok (inr out, 0) ∧
  matches [97; 99; 101; 98] [] live_pat 0 r ∧ vm_exec n out [97; 99; 101; 98] None (-1) (-1) empty_mem = Ok (res, m') ∧
  reports (outcome_of r) res m'.
Proof.
  eexists. edestruct (live_pattern_answers (λ _ _, false) (λ _ name, if decide (name = "S"%string) then 1%nat else O) 60 0 live_pat)
    with (d := [97; 99; 101; 98]) (m := empty_mem) as (r & Hr & n & res & m' & He & Hrep).
  - vm_compute. reflexivity.
  - vm_compute. reflexivity.
  - vm_compute. reflexivity.
  - vm_compute. reflexivity.
  - repeat constructor; vm_compute; discriminate.
  - vm_compute. reflexivity.
  - intros a [c Hc]. done.
  - exists r, n, res, m'. split; [vm_compute; reflexivity |]. split; [done |]. split; [by apply He | done].
Defined.
