(* ===== verification/Lifecycle.v ===== *)
(** * Lifecycle: a parser from peg_new to peg_free

    Calls on one parser -- parse, reparse, captures of an interval, edit, and
    release of a result -- as a client makes them, within what [legal] asks: edits
    that do not shrink the subject, subjects on which the pattern has a result,
    and no reparse or interval of a subject edited since its last parse, except
    the first reparse for [reparsable] patterns.  Every such call returns; a parse
    or reparse answers what the pattern means on the subject, with the captures
    read from the result; results stay readable until they are released, across
    later parses and edits; and when all are released and the parser is freed, the
    heap is what it was before.  At the end, what reparsing after edits gets wrong
    otherwise, and what an interval is answered that it should not be. *)
From S2P Require Import Prelude Charset Input Code ITree ITreeSpec Memo Stack Vm Pattern Compile Peg Sem PegThms PatternFacts Inline Wf InlineSound Machine Memos Window CompileSpec CompileOk CompileThms Encode CaptureHeap CaptureTree MemoHeap Evict VmStack VmRefine Correct Packrat Slide Examined Live.

(** ** Calls *)

Inductive call :=
| Parse (d : list Z)
| Reparse
| Interval (low high : Z)
| Edit (start end_ : Z) (text : list Z)
| Release.

(** The parser, the memory and the results the client holds, latest first. *)
Notation client := (peg * mem * list vm_result)%type.

(** What a client reads off a result. *)
Definition observe (r : vm_result) (m : mem) : res outcome :=
  match captures r with
  | Some c => ts ← read_trees m (depth m) c; mret (if success r then Matched (res_pos r) ts else Errored (res_pos r) ts)
  | None => mret NoMatch
  end.

Definition release (r : vm_result) (m : mem) : res mem := '(_, m) ← vm_result_free r m; mret m.

Definition do_call (fuel : nat) (c : call) (s : client) : res (option outcome * client) :=
  let '(g, m, rs) := s in
  match c with
  | Parse d => '(r, g, m) ← peg_parse fuel g d m; o ← observe r m; mret (Some o, (g, m, r :: rs))
  | Reparse => '(r, m) ← peg_reparse fuel g m; o ← observe r m; mret (Some o, (g, m, r :: rs))
  | Interval lo hi => '(r, m) ← peg_capture_interval fuel g lo hi m; o ← observe r m; mret (Some o, (g, m, r :: rs))
  | Edit a b t => '(g, m) ← peg_edit g a b t m; mret (None, (g, m, rs))
  | Release => match rs with [] => mret (None, s) | r :: rs => m ← release r m; mret (None, (g, m, rs)) end
  end.

Fixpoint do_calls (fuel : nat) (cs : list call) (s : client) : res (list outcome * client) :=
  match cs with
  | [] => mret ([], s)
  | c :: cs =>
      '(o, s) ← do_call fuel c s;
      '(os, s) ← do_calls fuel cs s;
      mret (option_list o ++ os, s)
  end.

(** A whole life: create, calls, release what is still held, free. *)
Definition life (cfuel fuel : nat) (counter : Z) (p : pat) (thr : Z) (cs : list call) (m : mem) : res (list outcome * mem) :=
  '(g, m, _) ← peg_new cfuel counter p thr m;
  '(os, (g, m, rs)) ← do_calls fuel cs (g, m, []);
  m ← for_each release rs m;
  m ← peg_free g m;
  mret (os, m).

(** ** What the calls should answer *)

(** Since the last parse: nothing was reparsed; something was, and the subject is
    still the same; or it was edited after that. *)
Inductive phase := Fresh | Current | Stale.

(** After a parse; [inc]: the pattern can be reparsed after edits. *)
Definition first (inc : bool) : phase := if inc then Fresh else Current.

Definition edited_phase (ph : phase) : phase := match ph with Fresh => Fresh | _ => Stale end.

(** What is asked of the client.  A reparse or an interval is not asked for in the
    phase [Stale]: the table then has entries that say nothing about the subject. *)
Fixpoint legal (p : pat) (inc : bool) (ph : phase) (d : list Z) (cs : list call) : Prop :=
  match cs with
  | [] => True
  | Parse d' :: cs => Forall is_byte d' ∧ dlen d' < 2 ^ 30 ∧ (∃ r, matches d' [] p 0 r) ∧ legal p inc (first inc) d' cs
  | Reparse :: cs => ph ≠ Stale ∧ (∃ r, matches d [] p 0 r) ∧ legal p inc Current d cs
  | Interval lo hi :: cs => ph ≠ Stale ∧ 0 <= lo ∧ (∃ r, matches d [] p 0 r) ∧ legal p inc ph d cs
  | Edit a b t :: cs => 0 <= a <= b ∧ b <= dlen d ∧ Forall is_byte t ∧ b - a <= dlen t ∧ dlen (splice d a b t) < 2 ^ 30 ∧
      legal p inc (edited_phase ph) (splice d a b t) cs
  | Release :: cs => legal p inc ph d cs
  end.

(** What they are answered: what the pattern means on the subject of the moment;
    for an interval, less captures outside it. *)
Fixpoint answered (p : pat) (d : list Z) (cs : list call) (os : list outcome) : Prop :=
  match cs with
  | [] => os = []
  | Parse d' :: cs => ∃ r os', matches d' [] p 0 r ∧ os = outcome_of r :: os' ∧ answered p d' cs os'
  | Reparse :: cs => ∃ r os', matches d [] p 0 r ∧ os = outcome_of r :: os' ∧ answered p d cs os'
  | Interval lo hi :: cs =>
      ∃ r o os', matches d [] p 0 r ∧ shown_outcome (overlaps lo hi) o (outcome_of r) ∧ os = o :: os' ∧ answered p d cs os'
  | Edit a b t :: cs => answered p (splice d a b t) cs os
  | Release :: cs => answered p d cs os
  end.

(** No capture gets too many references. *)
Definition few (c : call) (s : client) : Prop :=
  let '(g, m, _) := s in
  match c with
  | Parse d => ∀ m', memo_table_free m = Ok m' →
      few_refs (mk_ctx (pcode g) d (Some (mk_table (peg_threshold g))) (-1) (-1)) (started d (memo_table_new (peg_threshold g) m').2)
  | Reparse => few_refs (mk_ctx (pcode g) (buf g) (Some (tbl g)) (-1) (-1)) (started (buf g) m)
  | Interval lo hi => ∀ m', window_opened lo hi m = Ok m' →
      few_refs (mk_ctx (pcode g) (buf g) (Some (tbl g)) lo hi) (started (buf g) m')
  | _ => True
  end.

Fixpoint roomy (cs : list call) (s : client) : Prop :=
  match cs with
  | [] => True
  | c :: cs => few c s ∧ ∀ fuel o s', do_call fuel c s = Ok (o, s') → roomy cs s'
  end.

(** ** Checking that there is room *)

Definition few_check (fuel : nat) (c : call) (s : client) : bool :=
  let '(g, m, _) := s in
  match c with
  | Parse d =>
      match memo_table_free m with
      | Ok m' => few_refs_check fuel (mk_ctx (pcode g) d (Some (mk_table (peg_threshold g))) (-1) (-1)) (started d (memo_table_new (peg_threshold g) m').2)
      | _ => true
      end
  | Reparse => few_refs_check fuel (mk_ctx (pcode g) (buf g) (Some (tbl g)) (-1) (-1)) (started (buf g) m)
  | Interval lo hi =>
      match window_opened lo hi m with
      | Ok m' => few_refs_check fuel (mk_ctx (pcode g) (buf g) (Some (tbl g)) lo hi) (started (buf g) m')
      | _ => true
      end
  | _ => true
  end.

Fixpoint roomy_check (fuel : nat) (cs : list call) (s : client) : bool :=
  match cs with
  | [] => true
  | c :: cs => few_check fuel c s && match do_call fuel c s with Ok (_, s') => roomy_check fuel cs s' | _ => false end
  end.

Lemma run_more n x v r : run n x v = Ok r → ∀ n', (n <= n')%nat → run n' x v = Ok r.
Proof.
  revert v. induction n as [|n IH]; intros v H [|n'] Hn; [done.. | lia |]. rewrite run_S in H |- *.
  destruct (step x v) as [[v'|]| | |]; try done. cbn [mbind res_bind] in *. apply IH; [done | lia].
Qed.

Lemma vm_exec_more n out d t lo hi m r : vm_exec n out d t lo hi m = Ok r → ∀ n', (n <= n')%nat → vm_exec n' out d t lo hi m = Ok r.
Proof.
  intros H n' Hn. unfold vm_exec in *. set (x := mk_ctx _ _ _ _ _) in *. destruct (windowed x && bool_decide _); [done |].
  destruct (prog out); [done |]. destruct (if windowed x && _ then _ else _) as [m1| | |]; try done. cbn [mbind res_bind] in *.
  destruct (run n x _) eqn:E; try done. by rewrite (run_more _ _ _ _ E _ Hn).
Qed.

Lemma do_call_more n c s r : do_call n c s = Ok r → ∀ n', (n <= n')%nat → do_call n' c s = Ok r.
Proof.
  intros H n' Hn. destruct s as [[g m] rs], c as [d | | lo hi | a b t |]; cbn [do_call] in *; [| | | done..].
  - unfold peg_parse in *. destruct (buf_reserve _ _) as [g1| | |]; try done. cbn [mbind res_bind] in *.
    destruct (memo_table_free m) as [m1| | |]; try done. cbn [mbind res_bind memo_table_new] in *.
    destruct (vm_exec n _ _ _ _ _ _) eqn:E; try done. by rewrite (vm_exec_more _ _ _ _ _ _ _ _ E _ Hn).
  - unfold peg_reparse in *. destruct (vm_exec n _ _ _ _ _ _) eqn:E; try done. by rewrite (vm_exec_more _ _ _ _ _ _ _ _ E _ Hn).
  - unfold peg_capture_interval in *. destruct (vm_exec n _ _ _ _ _ _) eqn:E; try done. by rewrite (vm_exec_more _ _ _ _ _ _ _ _ E _ Hn).
Qed.

Lemma do_call_fun n1 n2 c s r1 r2 : do_call n1 c s = Ok r1 → do_call n2 c s = Ok r2 → r1 = r2.
Proof.
  intros H1 H2. apply (do_call_more _ _ _ _) with (n' := Nat.max n1 n2) in H1; [| lia].
  apply (do_call_more _ _ _ _) with (n' := Nat.max n1 n2) in H2; [| lia]. congruence.
Qed.

Lemma few_check_ok fuel c s : few_check fuel c s = true → few c s.
Proof.
  destruct s as [[g m] rs], c as [d | | lo hi | a b t |]; cbn [few_check few]; try done; [| apply few_refs_check_ok |];
    intros H m' Hm; rewrite Hm in H; by eapply few_refs_check_ok.
Qed.

Lemma roomy_check_ok fuel cs s : roomy_check fuel cs s = true → roomy cs s.
Proof.
  revert s. induction cs as [|c cs IH]; intros s H; [done |]. cbn [roomy_check] in H. apply andb_prop in H as [Hf H].
  destruct (do_call fuel c s) as [[o s1]| | |] eqn:E; try done. split; [by eapply few_check_ok |].
  intros n o' s' Hs. pose proof (do_call_fun _ _ _ _ _ _ E Hs) as [= -> ->]. by apply IH.
Qed.

(** ** The invariant *)

Section Life.
Context (p : pat) (cfuel : nat) (counter counter' : Z) (out : vm_code) (hf : heap).
Context (Hwf : wfp p = true) (Hcomp : pat_compile cfuel counter p = Ok (inr out, counter')).
Context (Hsize : vm_code_size out < 2 ^ 24) (Hids : ∀ d, ids_agree d (notes_of cfuel counter p)).

Context (inc : bool) (Hinc : inc = true → reparsable (notes_of cfuel counter p) out p).
Notation N := (notes_of cfuel counter p).

(** What the table may hold. *)
Definition knows (ph : phase) (d : list Z) : knowledge :=
  match ph with Fresh => moving d N | Current => known d N | Stale => anything end.

(** The captures of the results that have some. *)
Definition roots_of (Ts : list (option ctree)) : list ctree := omap id Ts.

Record alive (ph : phase) (d : list Z) (s : client) (Ts : list (option ctree)) : Prop := {
  al_code : pcode s.1.1 = out;
  al_buf : buf s.1.1 = d;
  al_cap : 0 <= cap s.1.1 < 2 ^ 64;
  al_bytes : Forall is_byte d;
  al_len : dlen d < 2 ^ 30;
  al_mem : mem_ok (Surround hf true []) (knows ph d) s.1.2 (roots_of Ts);
  al_held : Forall2 (λ r t, captures r = addr <$> t) s.2 Ts;
}.

Lemma observe_ok M m L o r : mem_ok (Surround hf true []) M m L → reports o r m →
  match captures r with Some c => ∃ t, t ∈ L ∧ addr t = c | None => True end → observe r m = Ok o.
Proof.
  intros Hm Hr Ht. unfold observe.
  assert (∀ c ts, captures r = Some c → reads m c ts → read_trees m (depth m) c = Ok ts) as Hread.
  { intros c ts Hc [n0 Hn]. rewrite Hc in Ht. destruct Ht as (t & Hin & <-).
    rewrite (mem_ok_read _ _ _ _ _ Hm Hin) by by eapply mem_ok_height.
    rewrite <- (Hn (Nat.max n0 (height t))) by lia. symmetry. apply (mem_ok_read _ _ _ _ _ Hm Hin). lia. }
  destruct o as [q ts | q ts |]; cbn in Hr.
  - destruct Hr as (Hs & Hp & c & Hc & Hrd). rewrite Hc, (Hread c ts Hc Hrd), Hs, Hp. done.
  - destruct Hr as (Hs & Hp & c & Hc & Hrd). rewrite Hc, (Hread c ts Hc Hrd), Hs, Hp. done.
  - destruct Hr as [_ Hc]. by rewrite Hc.
Qed.

(** What is known is about the subject. *)
Lemma alive_current ph d s Ts : ph ≠ Stale → alive ph d s Ts → session hf d N s.1.2 (roots_of Ts).
Proof.
  intros Hph [_ _ _ H4 _ H6 _]. destruct ph; [| exact H6 | done]. eapply mem_ok_learn; [| exact H6].
  intros id q hi r [Hst _]. by eapply steady_results.
Qed.

(** A new result joins those that are held. *)
Lemma alive_more ph ph' d g m rs Ts x m' o : alive ph d (g, m, rs) Ts → reports o x m' →
  match captures x with
  | Some c => ∃ t, addr t = c ∧ mem_ok (Surround hf true []) (knows ph' d) m' (t :: roots_of Ts)
  | None => mem_ok (Surround hf true []) (knows ph' d) m' (roots_of Ts)
  end → ∃ T, observe x m' = Ok o ∧ alive ph' d (g, m', x :: rs) (T :: Ts).
Proof.
  intros [H1 H2 H3 H4 H5 H6 H7] Hrep Hs. cbn [fst snd] in *. destruct (captures x) as [c|] eqn:Hc.
  - destruct Hs as (T & HT & Hs). exists (Some T). split.
    + eapply observe_ok; [exact Hs | done |]. rewrite Hc. exists T. split; [by left | done].
    + split; try done. cbn. constructor; [by rewrite Hc, <- HT | done].
  - exists None. split.
    + eapply observe_ok; [exact Hs | done |]. by rewrite Hc.
    + split; try done. by constructor.
Qed.

(** A run on a memory with the current table. *)
Lemma run_alive ph d t r g m rs Ts : ph ≠ Stale → alive ph d (g, m, rs) Ts →
  few_refs (mk_ctx out d (Some t) (-1) (-1)) (started d m) → matches d [] p 0 r →
  ∃ n x m' T, (∀ n', (n <= n')%nat → vm_exec n' out d (Some t) (-1) (-1) m = Ok (x, m')) ∧
    observe x m' = Ok (outcome_of r) ∧ alive Current d (g, m', x :: rs) (T :: Ts).
Proof.
  intros Hph Ha Hfew Hr. pose proof (alive_current _ _ _ _ Hph Ha) as Hs. pose proof Ha as [_ _ _ H4 H5 _ _].
  destruct (session_exec hf N (roots_of Ts) cfuel counter p out counter' d t r m) as (n & x & m' & He & Hrep & Hs'); try done.
  destruct (alive_more _ Current _ _ _ _ _ _ _ _ Ha Hrep Hs') as (T & Ho & Ha'). by exists n, x, m', T.
Qed.

(** A run on a new table. *)
Lemma run_first d t r g m rs Ts : (∀ M, mem_ok (Surround hf true []) M m (roots_of Ts)) → alive Stale d (g, m, rs) Ts →
  few_refs (mk_ctx out d (Some t) (-1) (-1)) (started d m) → matches d [] p 0 r →
  ∃ n x m' T, (∀ n', (n <= n')%nat → vm_exec n' out d (Some t) (-1) (-1) m = Ok (x, m')) ∧
    observe x m' = Ok (outcome_of r) ∧ alive (first inc) d (g, m', x :: rs) (T :: Ts).
Proof.
  intros Hm Ha Hfew Hr. destruct inc.
  - pose proof Ha as [_ _ _ H4 H5 _ _]. destruct (Hinc eq_refl) as [Hcnt Hahead Hsil Htot].
    destruct (fresh_exec hf N (roots_of Ts) cfuel counter p out counter' d t r m) as (n & x & m' & He & Hrep & Hs); try done.
    destruct (alive_more _ Fresh _ _ _ _ _ x m' _ Ha Hrep) as (T & Ho & Ha').
    { destruct (captures x); [destruct Hs as (T & HT & Hs); exists T; split; [done |] |]; (eapply mem_ok_learn; [| exact Hs]);
        intros id q hi r'; by apply sure_moving. }
    by exists n, x, m', T.
  - apply (run_alive Current); [done | | done | done]. destruct Ha as [H1 H2 H3 H4 H5 _ H7]. by split.
Qed.

Lemma parse_ok ph d s Ts d' r : alive ph d s Ts → Forall is_byte d' → dlen d' < 2 ^ 30 → few (Parse d') s →
  matches d' [] p 0 r → ∃ n s' T, (∀ n', (n <= n')%nat → do_call n' (Parse d') s = Ok (Some (outcome_of r), s')) ∧ alive (first inc) d' s' (T :: Ts).
Proof.
  destruct s as [[g m] rs]. intros [H1 H2 H3 H4 H5 H6 H7] Hb Hl Hfew Hr. cbn [fst snd] in *.
  destruct (buf_reserve_ok g (Z.of_nat (length d'))) as (g1 & Hg & Hcap & _ & _ & Hcode & _); [done | unfold dlen in Hl; lia |].
  destruct (memo_table_free_ok _ _ _ _ _ H6) as (m1 & Hfree & He1 & Hm1).
  assert (peg_threshold g1 = peg_threshold g) as Hthr.
  { unfold buf_reserve in Hg. destruct (_ <=? _); [by injection Hg as <- |]. destruct (Peg.grow _ _ _); try done. by injection Hg as <-. }
  set (g2 := mk_peg out (mk_table (peg_threshold g)) (peg_threshold g) d' (cap g1)).
  assert (∀ M, mem_ok (Surround hf true []) M (memo_table_new (peg_threshold g) m1).2 (roots_of Ts)) as Hnew by (intros M; by eapply memo_table_new_ok).
  destruct (run_first d' (mk_table (peg_threshold g)) r g2 (memo_table_new (peg_threshold g) m1).2 rs Ts) as (n & x & m' & T & He & Ho & Ha).
  - exact Hnew.
  - split; try done. cbn. lia.
  - specialize (Hfew m1 Hfree). by rewrite H1 in Hfew.
  - done.
  - exists n, (g2, m', x :: rs), T. split; [| done]. intros n' Hn. cbn [do_call]. unfold peg_parse. rewrite Hg. cbn_res. rewrite Hfree. cbn_res.
    cbn [memo_table_new with_buf peg_threshold pcode cap buf tbl] in *. rewrite Hthr, Hcode, H1.
    unfold memo_table_new in He; cbn [snd] in He. rewrite (He n' Hn). cbn_res. by rewrite Ho.
Qed.

Lemma reparse_ok ph d s Ts r : ph ≠ Stale → alive ph d s Ts → few Reparse s → matches d [] p 0 r →
  ∃ n s' T, (∀ n', (n <= n')%nat → do_call n' Reparse s = Ok (Some (outcome_of r), s')) ∧ alive Current d s' (T :: Ts).
Proof.
  destruct s as [[g m] rs]. intros Hph Ha Hfew Hr. pose proof (al_code _ _ _ _ Ha) as H1. pose proof (al_buf _ _ _ _ Ha) as H2. cbn [fst snd few] in *.
  rewrite H1, H2 in Hfew. destruct (run_alive ph d (tbl g) r g m rs Ts) as (n & x & m' & T & He & Ho & Ha'); [done.. |].
  exists n, (g, m', x :: rs), T. split; [| done]. intros n' Hn. cbn [do_call]. unfold peg_reparse. rewrite H1, H2, (He n' Hn). cbn_res. by rewrite Ho.
Qed.

(** A run in a window stores nothing: what was known still is. *)
Lemma interval_ok ph d s Ts lo hi r : ph ≠ Stale → alive ph d s Ts → 0 <= lo → few (Interval lo hi) s → matches d [] p 0 r →
  ∃ n o s' T, (∀ n', (n <= n')%nat → do_call n' (Interval lo hi) s = Ok (Some o, s')) ∧
    shown_outcome (overlaps lo hi) o (outcome_of r) ∧ alive ph d s' (T :: Ts).
Proof.
  destruct s as [[g m] rs]. intros Hph Ha Hlo Hfew Hr. pose proof Ha as [H1 H2 H3 H4 H5 H6 H7]. cbn [fst snd few] in *. rewrite H1, H2 in Hfew.
  destruct (windowed_exec (knows ph d) hf N (roots_of Ts) cfuel counter p out counter' d (tbl g) lo hi r m) as (n & o & x & m' & He & Hsh & Hrep & _ & Hs'); try done.
  { intros id q ex r' Hk. destruct ph; [destruct Hk as [Hk _]; by eapply steady_results | exact Hk | done]. }
  destruct (alive_more ph ph d g m rs Ts x m' o Ha Hrep Hs') as (T & Ho & Ha').
  exists n, o, (g, m', x :: rs), T. split; [| done]. intros n' Hn. cbn [do_call]. unfold peg_capture_interval. rewrite H1, H2, (He n' Hn). cbn_res. by rewrite Ho.
Qed.

Definition map_held (f : ctree → ctree) (Ts : list (option ctree)) : list (option ctree) := fmap (M := list) (fmap (M := option) f) Ts.

Lemma roots_of_map f Ts : roots_of (map_held f Ts) = f <$> roots_of Ts.
Proof. unfold roots_of, map_held. induction Ts as [|[t|] Ts IH]; [done | |]; cbn; [by f_equal | done]. Qed.

Lemma edit_ok ph d s Ts a b t : alive ph d s Ts → 0 <= a <= b → b <= dlen d → Forall is_byte t → b - a <= dlen t →
  dlen (splice d a b t) < 2 ^ 30 →
  ∃ s' m' Ts', (∀ n, do_call n (Edit a b t) s = Ok (None, s')) ∧ alive (edited_phase ph) (splice d a b t) s' Ts' ∧
    m' = s'.1.2 ∧ Ts' = map_held (edited m' a (dlen t - (b - a))) Ts.
Proof.
  destruct s as [[g m] rs]. intros [H1 H2 H3 H4 H5 H6 H7] Hab Hb Ht Hgrow Hlen. cbn [fst snd] in *.
  pose proof (dlen_splice d t a b Hab Hb) as Hsp.
  destruct (buf_reserve_ok g (dlen d - (b - a) + dlen t)) as (g1 & Hg & Hcap & _ & Hbuf & Hcode & _); [done | unfold dlen in *; lia |].
  destruct (memo_table_apply_edit_ok (knows ph d) (knows (edited_phase ph) (splice d a b t)) hf [] m (roots_of Ts) (mk_edit a b (dlen t))) as (m' & He & _ & _ & Hm');
    [cbn; lia | destruct ph; [by apply moving_survives | apply survives_anything..] | exact H6 |].
  cbn [ed_start ed_end ed_len] in Hm'.
  exists (with_buf g1 (splice d a b t), m', rs), m', (map_held (edited m' a (dlen t - (b - a))) Ts). split; [| split; [| done]].
  - intros n. cbn [do_call]. unfold peg_edit. rewrite H2, u64_id by (unfold is_u64, dlen in *; lia).
    fold (dlen d). fold (dlen t). destruct (_ || _) eqn:Hg2; [zify_bool; lia |]. rewrite Hg. cbn_res.
    rewrite i32_id by (unfold is_i32, dlen in *; lia). rewrite Hbuf, H2, He. done.
  - split; cbn [with_buf fst snd pcode cap buf]; try done.
    + congruence.
    + lia.
    + unfold splice. rewrite !Forall_app. split_and!; [by apply Forall_take | done | by apply Forall_drop].
    + rewrite roots_of_map. exact Hm'.
    + apply Forall2_fmap_r. eapply Forall2_impl; [exact H7 |]. intros r [T|] ->; cbn; [by rewrite edited_addr | done].
Qed.

Lemma release_ok ph d g m r rs T Ts : alive ph d (g, m, r :: rs) (T :: Ts) →
  ∃ m', release r m = Ok m' ∧ alive ph d (g, m', rs) Ts.
Proof.
  intros [H1 H2 H3 H4 H5 H6 H7]. cbn [fst snd] in *. apply Forall2_cons_1 in H7 as [Hc H7].
  unfold release, vm_result_free. rewrite Hc. destruct T as [T|]; cbn [fmap option_fmap option_map].
  - destruct (free_list _ _ m [T] (roots_of Ts) H6) as (m' & Hf & Hm' & _). cbn [for_each fmap list_fmap] in Hf.
    destruct (memo_capture_free (addr T) m) as [m1| | |]; try done. injection Hf as ->. exists m'. split; [done |]. by split.
  - exists m. split; [done |]. by split.
Qed.

Lemma calls_ok cs : ∀ ph d s Ts, alive ph d s Ts → legal p inc ph d cs → roomy cs s →
  ∃ n os s' ph' d' Ts', (∀ n', (n <= n')%nat → do_calls n' cs s = Ok (os, s')) ∧ answered p d cs os ∧ alive ph' d' s' Ts'.
Proof.
  induction cs as [|c cs IH]; intros ph d s Ts Ha He Hr.
  { by exists 0%nat, [], s, ph, d, Ts. }
  destruct Hr as [Hf Hr].
  assert (∀ n1 o s1 ph1 d1 Ts1, (∀ n', (n1 <= n')%nat → do_call n' c s = Ok (o, s1)) → alive ph1 d1 s1 Ts1 → legal p inc ph1 d1 cs →
    (∀ os, answered p d1 cs os → answered p d (c :: cs) (option_list o ++ os)) →
    ∃ n os s' ph' d' Ts', (∀ n', (n <= n')%nat → do_calls n' (c :: cs) s = Ok (os, s')) ∧ answered p d (c :: cs) os ∧ alive ph' d' s' Ts') as Hnext.
  { intros n1 o s1 ph1 d1 Ts1 Hc Ha1 He1 Hos.
    destruct (IH ph1 d1 s1 Ts1 Ha1 He1 (Hr n1 o s1 (Hc n1 (Nat.le_refl _)))) as (n2 & os & s' & c' & d' & Ts' & Hn2 & Hans & Ha').
    exists (Nat.max n1 n2), (option_list o ++ os), s', c', d', Ts'. split; [| split; [by apply Hos | done]].
    intros n' Hn. cbn [do_calls]. rewrite Hc by lia. cbn_res. by rewrite Hn2 by lia. }
  destruct c as [d' | | lo hi | a b t |]; cbn [legal] in He.
  - destruct He as (Hb & Hl & (r & Hm) & He'). destruct (parse_ok _ _ _ _ _ _ Ha Hb Hl Hf Hm) as (n & s' & T & Hc & Ha').
    eapply Hnext; [exact Hc | exact Ha' | exact He' |]. intros os Hos. by exists r, os.
  - destruct He as (Hph & (r & Hm) & He'). destruct (reparse_ok _ _ _ _ _ Hph Ha Hf Hm) as (n & s' & T & Hc & Ha').
    eapply Hnext; [exact Hc | exact Ha' | exact He' |]. intros os Hos. by exists r, os.
  - destruct He as (Hph & Hlo & (r & Hm) & He'). destruct (interval_ok _ _ _ _ _ _ _ Hph Ha Hlo Hf Hm) as (n & o & s' & T & Hc & Hsh & Ha').
    eapply Hnext; [exact Hc | exact Ha' | exact He' |]. intros os Hos. by exists r, o, os.
  - destruct He as (Hab & Hb & Ht & Hg & Hl & He'). destruct (edit_ok _ _ _ _ _ _ _ Ha Hab Hb Ht Hg Hl) as (s' & m' & Ts' & Hc & Ha' & _).
    by apply (Hnext 0%nat None s' (edited_phase ph) (splice d a b t) Ts').
  - destruct s as [[g m] [|r rs]].
    + by apply (Hnext 0%nat None (g, m, []) ph d Ts).
    + pose proof (al_held _ _ _ _ Ha) as Hh. cbn [snd] in Hh. apply Forall2_cons_inv_l in Hh as (T & Ts1 & _ & _ & ->).
      destruct (release_ok _ _ _ _ _ _ _ _ Ha) as (m' & Hrel & Ha'). apply (Hnext 0%nat None (g, m', rs) ph d Ts1); try done.
      intros n' _. cbn [do_call]. by rewrite Hrel.
Qed.

Lemma release_all ph d g rs : ∀ m Ts, alive ph d (g, m, rs) Ts →
  ∃ m', for_each release rs m = Ok m' ∧ alive ph d (g, m', []) [].
Proof.
  induction rs as [|r rs IH]; intros m Ts Ha; pose proof (al_held _ _ _ _ Ha) as Hh; cbn [snd] in Hh.
  { apply Forall2_nil_inv_l in Hh as ->. by exists m. }
  apply Forall2_cons_inv_l in Hh as (T & Ts1 & _ & _ & ->). destruct (release_ok _ _ _ _ _ _ _ _ Ha) as (m1 & Hrel & Ha').
  cbn [for_each]. rewrite Hrel. by apply (IH m1 Ts1).
Qed.

Lemma new_ok thr m : heap_fresh m → ents m = ∅ → hf = caps m →
  ∃ g, peg_new cfuel counter p thr m = Ok (g, (memo_table_new thr m).2, counter') ∧ alive (first inc) [] (g, (memo_table_new thr m).2, []) [].
Proof.
  intros Hm He Hhf. unfold peg_new. rewrite Hcomp. cbn_res. cbn [memo_table_new]. eexists. split; [done |].
  split; cbn [fst snd pcode buf cap]; try done. rewrite Hhf. by eapply memo_table_new_ok, alone_ok.
Qed.

Lemma free_ok ph d g m : alive ph d (g, m, []) [] → ∃ m', peg_free g m = Ok m' ∧ caps m' = hf ∧ ents m' = ∅.
Proof.
  intros Ha. destruct (memo_table_free_ok _ _ _ _ _ (al_mem _ _ _ _ Ha)) as (m' & Hf & He & Hm'). exists m'. split; [done |].
  split; [| done]. by apply mem_ok_nil in Hm'.
Qed.
End Life.

(** From [peg_new] to [peg_free]. *)
Lemma life_ok inc cfuel counter p out counter' thr cs m :
  wfp p = true → pat_compile cfuel counter p = Ok (inr out, counter') → vm_code_size out < 2 ^ 24 →
  (∀ d, ids_agree d (notes_of cfuel counter p)) → (inc = true → reparsable (notes_of cfuel counter p) out p) →
  heap_fresh m → ents m = ∅ → legal p inc (first inc) [] cs →
  (∀ g m1 c, peg_new cfuel counter p thr m = Ok (g, m1, c) → roomy cs (g, m1, [])) →
  ∃ n os m', (∀ n', (n <= n')%nat → life cfuel n' counter p thr cs m = Ok (os, m')) ∧ answered p [] cs os ∧ caps m' = caps m ∧ ents m' = ∅.
Proof.
  intros Hwf Hc Hsz Hids Hinc Hm He Hos Hr.
  destruct (new_ok p cfuel counter counter' out (caps m) Hc inc thr m Hm He eq_refl) as (g & Hnew & Ha). specialize (Hr _ _ _ Hnew).
  destruct (calls_ok p cfuel counter counter' out (caps m) Hwf Hc Hsz Hids inc Hinc cs _ _ _ _ Ha Hos Hr) as (n & os & [[g' m1] rs] & c1 & d1 & Ts & Hrun & Hans & Ha1).
  destruct (release_all p cfuel counter out (caps m) c1 d1 g' rs m1 Ts Ha1) as (m2 & Hrel & Ha2).
  destruct (free_ok p cfuel counter out (caps m) c1 d1 g' m2 Ha2) as (m3 & Hfree & Hcaps & Hents).
  exists n, os, m3. split; [| done]. intros n' Hn. unfold life. rewrite Hnew. cbn_res. rewrite (Hrun n' Hn). cbn_res. rewrite Hrel. cbn_res. by rewrite Hfree.
Qed.

(** C3. A parser's life, over the calls [legal] allows.  From [peg_new] over any
    such sequence -- parses, edits that do not shrink the subject, reparses,
    captures of an interval, releases of results -- to [peg_free], every call
    returns.  Subjects are bytes, shorter than 2^30, and the pattern has a result
    on each one that is parsed, reparsed or asked for an interval.  A subject
    that was edited since it was last parsed is not reparsed and no interval of
    it asked for, unless [inc] holds, the pattern is [reparsable] and nothing was
    reparsed since that parse: the next call to answer is then a parse.  Nothing
    is claimed of other sequences, not even that they are safe.

    Each parse answers with the verdict, end position and captures the pattern
    means, whatever the table kept from earlier runs, and so does each reparse;
    [peg_capture_interval] has the same verdict and position, and at least the
    captures that overlap the interval and lie in captures that do.  When what is
    held at the end has been released and the parser freed, the heap is exactly
    what it was before: nothing was leaked and nothing freed too early.  For memo
    ids that name one meaning each ([ids_agree]), and as long as no capture gets
    2^31 references ([roomy]). *)
Theorem parser_life inc cfuel counter p out counter' thr cs m :
  wfp p = true → pat_compile cfuel counter p = Ok (inr out, counter') → vm_code_size out < 2 ^ 24 →
  (∀ d, ids_agree d (notes_of cfuel counter p)) → (inc = true → reparsable (notes_of cfuel counter p) out p) →
  heap_fresh m → ents m = ∅ → legal p inc (first inc) [] cs →
  (∀ g m1 c, peg_new cfuel counter p thr m = Ok (g, m1, c) → roomy cs (g, m1, [])) →
  ∃ n os m', (∀ n', (n <= n')%nat → life cfuel n' counter p thr cs m = Ok (os, m')) ∧ answered p [] cs os ∧ caps m' = caps m ∧ ents m' = ∅.
Proof. exact (life_ok inc cfuel counter p out counter' thr cs m). Qed.

(** Parse, reparse with the table, the captures around byte 1, edit, release, and
    parse again. *)
Definition demo_calls : list call := [Parse memo_subject; Reparse; Interval 1 2; Edit 0 0 [98; 97]; Release; Parse memo_subject].

Lemma parser_life_witness : ∃ n os m', life 30 n 2 memo_pat 0 demo_calls empty_mem = Ok (os, m') ∧ answered memo_pat [] demo_calls os ∧ caps m' = ∅.
Proof.
  destruct (pat_compile 30 2 memo_pat) as [[[|out] c]| | |] eqn:Hc; try (vm_compute in Hc; discriminate).
  edestruct (parser_life false 30 2 memo_pat out c 0 demo_calls empty_mem) as (n & os & m' & Hl & Hos & Hm & _);
    [vm_compute; reflexivity | exact Hc | | | done | by intros a [x Hx] | done | | | exists n, os, m'; split; [by apply Hl | exact (conj Hos Hm)]].
  - vm_compute in Hc. injection Hc as <- <-. vm_compute. reflexivity.
  - intros d. apply (memo_pat_ids d out). rewrite Hc. vm_compute in Hc. by injection Hc as _ <-.
  - assert (∃ r, matches memo_subject [] memo_pat 0 r) as Hr by (eexists; exact memo_matches). cbn [legal demo_calls first edited_phase].
    split; [exact memo_bytes |]. split; [vm_compute; reflexivity |]. split; [exact Hr |]. split; [discriminate |]. split; [exact Hr |].
    split; [discriminate |]. split; [lia |]. split; [exact Hr |].
    split; [lia |]. split; [vm_compute; discriminate |]. split; [repeat constructor; vm_compute; discriminate |].
    split; [vm_compute; discriminate |]. split; [vm_compute; reflexivity |].
    split; [exact memo_bytes |]. split; [vm_compute; reflexivity |]. by split.
  - intros g m1 c1 Hn. unfold peg_new in Hn. rewrite Hc in Hn. injection Hn as <- <- <-.
    vm_compute in Hc. injection Hc as <- <-. apply (roomy_check_ok 100). vm_compute. reflexivity.
Defined.

(** ** Reparsing *)

Definition edit_call (e : Z * Z * list Z) : call := let '(a, b, t) := e in Edit a b t.

(** The subject after the edits. *)
Definition edited_text (d : list Z) (es : list (Z * Z * list Z)) : list Z := foldl (λ d '(a, b, t), splice d a b t) d es.

(** Edits inside the subject that do not shrink it. *)
Fixpoint growing (d : list Z) (es : list (Z * Z * list Z)) : Prop :=
  match es with
  | [] => True
  | (a, b, t) :: es => 0 <= a <= b ∧ b <= dlen d ∧ Forall is_byte t ∧ b - a <= dlen t ∧ dlen (splice d a b t) < 2 ^ 30 ∧
      growing (splice d a b t) es
  end.

Lemma edited_text_ok es : ∀ d, Forall is_byte d → dlen d < 2 ^ 30 → growing d es →
  Forall is_byte (edited_text d es) ∧ dlen (edited_text d es) < 2 ^ 30.
Proof.
  induction es as [|[[a b] t] es IH]; intros d Hd Hl; cbn [growing]; [done |]. intros (_ & _ & Ht & _ & Hl' & Hg).
  apply (IH (splice d a b t)); [| done..]. unfold splice. rewrite !Forall_app.
  split; [by apply Forall_take | split; [done | by apply Forall_drop]].
Qed.

Lemma legal_edits p es : ∀ d, growing d es → (∃ r, matches (edited_text d es) [] p 0 r) → legal p true Fresh d (map edit_call es ++ [Reparse]).
Proof.
  induction es as [|[[a b] t] es IH]; intros d; cbn [growing map app edit_call legal]; [done |].
  intros (H1 & H2 & H3 & H4 & H5 & Hg) Hr. do 5 (split; [done |]). by apply IH.
Qed.

Lemma answered_edits p es : ∀ d os, answered p d (map edit_call es ++ [Reparse]) os →
  ∃ r, matches (edited_text d es) [] p 0 r ∧ os = [outcome_of r].
Proof.
  induction es as [|[[a b] t] es IH]; intros d os; cbn [map app edit_call answered]; [| by apply IH].
  intros (r & os' & Hr & -> & ->). by exists r.
Qed.

(** C4. Reparsing is parsing.  When the code counts what it reads (it has no
    instruction that advances over bytes without reading them, no empty operator
    and no checker), what is memoized only looks ahead and captures nothing, and
    the pattern is live, then a parse, any growing edits and a reparse give, in
    the reparse, exactly the outcome -- verdict, position and captures -- of
    parsing the edited subject from scratch in a new parser, and that is what the
    pattern means on it: no stale entry is used, whatever the edits kept.  For ids
    that name one meaning each ([ids_agree]), and as long as no capture gets 2^31
    references. *)
Theorem reparse_is_parse nul rank cfuel counter p out counter' thr d es m :
  wfp p = true → lives nul rank [] None p = true →
  pat_compile cfuel counter p = Ok (inr out, counter') → vm_code_size out < 2 ^ 24 →
  (∀ d, ids_agree d (notes_of cfuel counter p)) → counts out = true →
  every_note looks_ahead (notes_of cfuel counter p) = true → every_note no_capture (notes_of cfuel counter p) = true →
  Forall is_byte d → dlen d < 2 ^ 30 → growing d es → heap_fresh m → ents m = ∅ →
  (∀ cs g m1 c, cs = Parse d :: map edit_call es ++ [Reparse] ∨ cs = [Parse (edited_text d es)] →
    peg_new cfuel counter p thr m = Ok (g, m1, c) → roomy cs (g, m1, [])) →
  ∃ n o r m1 m2, matches (edited_text d es) [] p 0 r ∧ ∀ n', (n <= n')%nat →
    life cfuel n' counter p thr (Parse d :: map edit_call es ++ [Reparse]) m = Ok ([o; outcome_of r], m1) ∧
    life cfuel n' counter p thr [Parse (edited_text d es)] m = Ok ([outcome_of r], m2).
Proof.
  intros Hwf Hl Hc Hsz Hids Hcnt Hah Hsi Hd Hlen Hg Hm He Hr.
  assert (∀ d, Forall is_byte d → ∃ r, matches d [] p 0 r) as Htot.
  { intros d' Hd'. apply (lives_answers nul rank d' p [] None 0); try done. unfold dlen. lia. }
  destruct (edited_text_ok es d Hd Hlen Hg) as [Hd' Hlen']. destruct (Htot _ Hd) as [r0 Hr0], (Htot _ Hd') as [r Hr1].
  pose proof (λ cs, life_ok true cfuel counter p out counter' thr cs m Hwf Hc Hsz Hids (λ _, Build_reparsable _ _ _ Hcnt Hah Hsi Htot) Hm He) as Hlife.
  destruct (Hlife (Parse d :: map edit_call es ++ [Reparse])) as (n1 & os1 & m1 & H1 & (r1 & os & _ & -> & (r2 & Hr2 & ->)%answered_edits) & _).
  { split; [done |]. split; [done |]. split; [by exists r0 |]. apply legal_edits; [done | by exists r]. }
  { intros g m1 c. apply Hr. by left. }
  destruct (Hlife [Parse (edited_text d es)]) as (n2 & os2 & m2 & H2 & (r3 & os & Hr3 & -> & ->) & _).
  { split; [done |]. split; [done |]. by split; [exists r |]. }
  { intros g m2 c. apply Hr. by right. }
  rewrite (matches_fun _ _ _ _ _ _ Hr3 Hr1) in H2. rewrite (matches_fun _ _ _ _ _ _ Hr2 Hr1) in H1.
  exists (Nat.max n1 n2), (outcome_of r1), r, m1, m2. split; [done |]. intros n' Hn. split; [apply H1 | apply H2]; lia.
Qed.

(** [S {5 'b'}] with [S <- A*], [A] a memoized ['a'] not followed by ['c'], on
    ["aab"], edited to ["aaaabc"]. *)
Definition ahead_pat : pat :=
  pat_seq (pat_grammar "S" [("S", pat_star (pat_nonterm "A")); ("A", PAT_MEMO (pat_seq (pat_literal [97]) (PAT_NOT (pat_literal [99]))) 1)])
    (pat_cap (pat_literal [98]) 5).

Definition ahead_edits : list (Z * Z * list Z) := [(0, 0, [97; 97]); (4, 5, [98; 99])].

Lemma reparse_is_parse_witness : ∃ n o r m1 m2, matches [97; 97; 97; 97; 98; 99] [] ahead_pat 0 r ∧
  life 30 n 2 ahead_pat 0 [Parse [97; 97; 98]; Edit 0 0 [97; 97]; Edit 4 5 [98; 99]; Reparse] empty_mem = Ok ([o; outcome_of r], m1) ∧
  life 30 n 2 ahead_pat 0 [Parse [97; 97; 97; 97; 98; 99]] empty_mem = Ok ([outcome_of r], m2).
Proof.
  destruct (pat_compile 30 2 ahead_pat) as [[[|out] c]| | |] eqn:Hc; try (vm_compute in Hc; discriminate).
  edestruct (reparse_is_parse (λ _ name, bool_decide (name = "S"%string)) (λ _ name, if decide (name = "S"%string) then 1%nat else O) 30 2 ahead_pat out c 0
    [97; 97; 98] ahead_edits empty_mem) as (n & o & r & m1 & m2 & Hr & Hl);
    [vm_compute; reflexivity | vm_compute; reflexivity | exact Hc | | | | vm_compute; reflexivity | vm_compute; reflexivity | | done | | by intros a [x Hx] | done | |
     exists n, o, r, m1, m2; split; [exact Hr | by apply Hl]].
  - vm_compute in Hc. injection Hc as <- <-. vm_compute. reflexivity.
  - intros d. eapply fresh_ids; [exact Hc | lia | vm_compute in Hc; injection Hc as _ <-; lia | |].
    + apply Forall_forall. intros x ->%list_elem_of_singleton. cbn. lia.
    + by intros x y ->%list_elem_of_singleton ->%list_elem_of_singleton.
  - vm_compute in Hc. injection Hc as <- <-. vm_compute. reflexivity.
  - repeat constructor; vm_compute; discriminate.
  - cbn [growing ahead_edits].
    do 2 (split; [lia |]; split; [vm_compute; discriminate |]; split; [repeat constructor; vm_compute; discriminate |];
      split; [vm_compute; discriminate |]; split; [vm_compute; reflexivity |]). done.
  - intros cs g m1 c1 Hcs Hn. unfold peg_new in Hn. rewrite Hc in Hn. injection Hn as <- <- <-.
    vm_compute in Hc. injection Hc as <- <-. apply (roomy_check_ok 200). destruct Hcs as [-> | ->]; vm_compute; reflexivity.
Defined.

(** ** A capture that is left behind *)

(** [x* <&<{7 "ab"}> "a"> b*], with memoized parts in angle brackets. *)
Definition behind_pat : pat :=
  pat_concat [pat_star (pat_literal [120]);
    PAT_MEMO (pat_seq (PAT_AND (PAT_MEMO (pat_cap (pat_literal [97; 98]) 7) 2)) (pat_literal [97])) 1;
    pat_star (pat_literal [98])].

Definition behind_calls : list call :=
  [Parse [120; 120; 120; 97; 98; 98]; Edit 5 5 [98]; Edit 0 0 [120]; Reparse; Parse [120; 120; 120; 120; 97; 98; 98; 98]].

(** C39. A capture is left behind by an edit.  The examined extent of an entry
    reaches to the position after its match, but the furthest mark does not keep
    that position, so an entry around a lookahead ends before the entry of what
    it looked at.  An insertion in between evicts the inner entry and makes its
    captures absolute while the outer entry, which lists them, stays; an edit in
    front of both then moves the outer entry and not the captures, and the reparse
    reports the capture at 3 where a parse of the same subject finds it at 4. *)
Theorem reparse_stale_capture :
  ('(os, _) ← life 100 2000 10 behind_pat 0 behind_calls empty_mem; mret os)
  = Ok [Matched 6 [PNode 7 3 2 []]; Matched 8 [PNode 7 3 2 []]; Matched 8 [PNode 7 4 2 []]].
Proof. vm_compute. reflexivity. Qed.

(** ** What an interval is answered *)

Definition interval_range : res (Z * Z) :=
  '(g, m, _) ← peg_new 30 2 memo_pat 0 empty_mem;
  '(_, (_, m, rs)) ← do_calls 200 [Parse memo_subject; Interval 2 3] (g, m, []);
  r ← must (head rs); c ← must (captures r);
  '(s, m) ← memo_capture_start m c; '(e, _) ← memo_capture_end m c; mret (s, e).

(** C40. The interval's result is not only the interval's.  Entries that are left
    in the table hand out all their captures, so after a parse of ["aaac"] the
    captures of [3, 4) are those of the first two ['a']s, which do not overlap it;
    and the range of the result's root starts at 0 whatever was built, since the
    low end of the range is the least of 0 and the captures' starts. *)
Theorem interval_not_exact :
  ('(os, _) ← life 30 200 2 memo_pat 0 [Parse memo_subject; Interval 3 4] empty_mem; mret os)
    = Ok [Matched 4 memo_trees; Matched 4 [PNode 5 0 1 []; PNode 5 1 1 []]] ∧
  interval_range = Ok (0, 3).
Proof. split; vm_compute; reflexivity. Qed.
