(* ===== verification/Release.v ===== *)
(** * Release: the memory of patterns and of the tree (src/pattern.c,
      src/interval_tree.c)

    Elsewhere patterns and trees are values.  Here a pattern is what the C has:
    blocks in a heap -- a node per [pat], a block per string and array -- built
    by the constructors and released by [pat_free]; a freed address is not
    allocated, and freeing it again is [Undef].  For the interval tree, the order
    in which [itree_free] rotates and frees the nodes. *)
From S2P Require Import Prelude Charset Code ITree ITreeLazy ITreeDel Pattern Inline.

(** ** The tree *)

Section TreeFree.
Context {V : Type}.
Notation iv_node := (@iv_node V).
Notation itree := (@itree V).
Implicit Types (d : iv_data V) (n l r : iv_node) (t : itree).

(** The loop of [itree_free], one rotation or one [iv_free_node] a round: the
    groups whose nodes it frees, in order. *)
Fixpoint itree_free_fuel (fuel : nat) (log : list iv_shift) n : res (list positive) :=
  match n with
  | Nil => mret []
  | Node d l r =>
      match fuel with
      | O => Fuel
      | S fuel =>
          match l with
          | Node _ _ _ => n ← iv_rotate_right log (Node d (apply_at log l) r); itree_free_fuel fuel log n
          | Nil => freed ← itree_free_fuel fuel log r; mret (loc (n_iv d) :: freed)
          end
      end
  end.

(** A round frees a node or moves one to the right spine. *)
Definition itree_free t : res (list positive) := itree_free_fuel (2 * iv_nnodes (root t)) (shifts t) (root t).

Definition groups n : list positive := (λ d, loc (n_iv d)) <$> nodes n.

Fixpoint spine_length n : nat := match n with Nil => 0 | Node _ _ r => S (spine_length r) end.

Lemma loc_apply_shift d s : loc (n_iv (iv_apply_shift d s)) = loc (n_iv d).
Proof. unfold iv_apply_shift. by repeat case_match. Qed.

Lemma loc_update_max d l r : loc (n_iv (iv_update_max d l r)) = loc (n_iv d).
Proof. unfold iv_update_max. by case_match. Qed.

Lemma loc_apply_shifts log d l r : loc (n_iv (iv_apply_shifts log d l r)) = loc (n_iv d).
Proof.
  unfold iv_apply_shifts. case_match; [| done]. rewrite loc_update_max. case_match; [| done]. generalize (iv_pending log (n_tstamp d)). intros p.
  clear. revert d. induction p as [|x p IH]; intros d; [done |]. cbn. by rewrite IH, loc_apply_shift.
Qed.

Lemma spine_nnodes n : (spine_length n <= iv_nnodes n)%nat.
Proof. induction n; cbn; lia. Qed.

Lemma rotate_right_groups log d e ll lr r : ∃ d' e', iv_rotate_right log (Node d (apply_at log (Node e ll lr)) r) = Ok (Node e' ll (Node d' lr r)) ∧
  loc (n_iv d') = loc (n_iv d) ∧ loc (n_iv e') = loc (n_iv e).
Proof. cbn. do 2 eexists. split; [done |]. unfold iv_update. by rewrite !loc_update_max; cbn; rewrite !loc_apply_shifts. Qed.

Lemma itree_free_enough log fuel : ∀ n, (2 * iv_nnodes n <= fuel + spine_length n)%nat → itree_free_fuel fuel log n = Ok (groups n).
Proof.
  induction fuel as [|fuel IH]; intros [|d l r] Hf; try done.
  - pose proof (spine_nnodes (Node d l r)). cbn [iv_nnodes] in *. lia.
  - destruct l as [|e ll lr].
    + cbn [itree_free_fuel]. rewrite IH by (cbn in *; lia). done.
    + destruct (rotate_right_groups log d e ll lr r) as (d' & e' & Hr & Hd & He). cbn [itree_free_fuel]. rewrite Hr. cbn_res.
      rewrite IH by (cbn in *; lia). f_equal. unfold groups. cbn. rewrite !fmap_app. cbn. rewrite !fmap_app. cbn. rewrite Hd, He. by rewrite <- app_assoc.
Qed.
End TreeFree.

(** ** Patterns in memory *)

Notation ptr := (option positive).

(** [struct pat]: the kind with its member of the union. *)
Inductive pnode :=
| N_ALT (l r : ptr)
| N_SEQ (l r : ptr)
| N_STAR (p : ptr)
| N_PLUS (p : ptr)
| N_OPTIONAL (p : ptr)
| N_NOT (p : ptr)
| N_AND (p : ptr)
| N_CAP (p : ptr) (id : Z)
| N_MEMO (p : ptr) (id : Z)
| N_CHECK (p : ptr) (fn : option vm_checker) (id flag : Z)
| N_GRAMMAR (start names defs : ptr) (ndefs : nat)
| N_SEARCH (p : ptr)
| N_REPEAT (p : ptr) (n : Z)
| N_CLASS (set : vm_charset)
| N_LITERAL (str : ptr) (len : Z)
| N_NONTERM (name inlined : ptr)
| N_DOT (n : Z)
| N_ERROR (msg recover : ptr)
| N_EMPTYOP (op : Z)
| N_EMPTY.

Inductive block :=
| BNode (n : pnode)
| BBytes (s : list Z)
| BString (s : string)
| BPtrs (ps : list ptr).

Record pheap := mk_pheap { blocks : gmap positive block; next : positive }.

Definition alloc (b : block) (h : pheap) : positive * pheap :=
  (next h, mk_pheap (<[next h := b]> (blocks h)) (Pos.succ (next h))).

Definition with_blocks (h : pheap) (bs : gmap positive block) : pheap := mk_pheap bs (next h).
Definition store (a : positive) (b : block) (h : pheap) : pheap := with_blocks h (<[a := b]> (blocks h)).

(** [free(p)] *)
Definition free (p : ptr) (h : pheap) : res pheap :=
  match p with
  | None => mret h
  | Some a => _ ← must (blocks h !! a); mret (with_blocks h (delete a (blocks h)))
  end.

Definition get_node (a : positive) (h : pheap) : res pnode :=
  b ← must (blocks h !! a); match b with BNode n => mret n | _ => Undef end.

(** [arr[i]] *)
Definition load (arr : ptr) (i : nat) (h : pheap) : res ptr :=
  a ← must arr; b ← must (blocks h !! a); match b with BPtrs ps => must (ps !! i) | _ => Undef end.

(** The [switch] of [pat_free], with the recursive calls. *)
Definition free_fields (pat_free : ptr → pheap → res pheap) (n : pnode) (h : pheap) : res pheap :=
  match n with
  | N_ALT l r | N_SEQ l r => h ← pat_free l h; pat_free r h
  | N_STAR p | N_PLUS p | N_OPTIONAL p | N_NOT p | N_AND p | N_SEARCH p
  | N_CAP p _ | N_MEMO p _ | N_CHECK p _ _ _ | N_REPEAT p _ => pat_free p h
  | N_GRAMMAR start names defs ndefs =>
      h ← for_each (λ (i : nat) (h : pheap),
        nm ← load names i h; h ← free nm h; d ← load defs i h; pat_free d h) (seq 0 ndefs) h;
      h ← free names h; h ← free defs h; free start h
  | N_LITERAL str _ => free str h
  | N_NONTERM name _ => free name h
  | N_ERROR msg recover => h ← free msg h; pat_free recover h
  | N_CLASS _ | N_DOT _ | N_EMPTYOP _ | N_EMPTY => mret h
  end.

Fixpoint pat_free_fuel (fuel : nat) (p : ptr) (h : pheap) : res pheap :=
  match fuel with
  | O => Fuel
  | S fuel =>
      match p with
      | None => mret h
      | Some a => n ← get_node a h; h ← free_fields (pat_free_fuel fuel) n h; free p h
      end
  end.

(** A path from the root visits each block at most once. *)
Definition pat_free (p : ptr) (h : pheap) : res pheap := pat_free_fuel (S (size (blocks h))) p h.

(** The node and its strings; what it points to is owned elsewhere. *)
Definition transient_free (p : ptr) (h : pheap) : res pheap :=
  match p with
  | None => mret h
  | Some a =>
      n ← get_node a h;
      h ← (match n with
           | N_GRAMMAR start names defs ndefs =>
               h ← for_each (λ (i : nat) (h : pheap), nm ← load names i h; free nm h) (seq 0 ndefs) h;
               h ← free names h; h ← free defs h; free start h
           | N_LITERAL str _ => free str h
           | N_NONTERM name _ => free name h
           | N_ERROR msg _ => free msg h
           | _ => mret h
           end);
      free p h
  end.

(** [ctx->transients] *)
Definition pctx_cleanup (transients : list ptr) (h : pheap) : res pheap := for_each transient_free transients h.

(** *** Constructors *)

Definition pat_new (n : pnode) (h : pheap) : ptr * pheap := let '(a, h) := alloc (BNode n) h in (Some a, h).

Definition new_literal (s : list Z) (h : pheap) : ptr * pheap :=
  let '(a, h) := alloc (BNode (N_LITERAL None 0)) h in
  let '(str, h) := alloc (BBytes s) h in
  (Some a, store a (BNode (N_LITERAL (Some str) (Z.of_nat (length s)))) h).

Definition new_nonterm (name : string) (h : pheap) : ptr * pheap :=
  let '(a, h) := alloc (BNode (N_NONTERM None None)) h in
  let '(nm, h) := alloc (BString name) h in
  (Some a, store a (BNode (N_NONTERM (Some nm) None)) h).

Definition new_error (msg : string) (recovery : ptr) (h : pheap) : ptr * pheap :=
  let '(a, h) := alloc (BNode (N_ERROR None None)) h in
  let '(s, h) := alloc (BString msg) h in
  (Some a, store a (BNode (N_ERROR (Some s) recovery)) h).

Fixpoint strdup_all (names : list string) (h : pheap) : list ptr * pheap :=
  match names with
  | [] => ([], h)
  | nm :: names => let '(s, h) := alloc (BString nm) h in let '(ss, h) := strdup_all names h in (Some s :: ss, h)
  end.

(** The arrays are filled in the loop that copies the names. *)
Definition new_grammar (start : string) (names : list string) (defs : list ptr) (h : pheap) : ptr * pheap :=
  let '(a, h) := alloc (BNode (N_GRAMMAR None None None 0)) h in
  let '(s, h) := alloc (BString start) h in
  let '(na, h) := alloc (BPtrs []) h in
  let '(da, h) := alloc (BPtrs []) h in
  let '(ns, h) := strdup_all names h in
  let h := store da (BPtrs defs) (store na (BPtrs ns) h) in
  (Some a, store a (BNode (N_GRAMMAR (Some s) (Some na) (Some da) (length names))) h).

(** A client that builds [p], its parts first. *)
Fixpoint pat_alloc (p : pat) (h : pheap) : ptr * pheap :=
  let unary (f : ptr → pnode) (q : pat) := let '(q, h) := pat_alloc q h in pat_new (f q) h in
  match p with
  | PAT_ALT l r => let '(l, h) := pat_alloc l h in let '(r, h) := pat_alloc r h in pat_new (N_ALT l r) h
  | PAT_SEQ l r => let '(l, h) := pat_alloc l h in let '(r, h) := pat_alloc r h in pat_new (N_SEQ l r) h
  | PAT_STAR q => unary N_STAR q
  | PAT_PLUS q => unary N_PLUS q
  | PAT_OPTIONAL q => unary N_OPTIONAL q
  | PAT_NOT q => unary N_NOT q
  | PAT_AND q => unary N_AND q
  | PAT_CAP q id => unary (λ q, N_CAP q id) q
  | PAT_MEMO q id => unary (λ q, N_MEMO q id) q
  | PAT_CHECK q fn id flag => unary (λ q, N_CHECK q fn id flag) q
  | PAT_GRAMMAR start defs =>
      let '(ds, h) := (fix all (defs : list (string * pat)) (h : pheap) : list ptr * pheap :=
        match defs with
        | [] => ([], h)
        | (_, d) :: defs => let '(q, h) := pat_alloc d h in let '(qs, h) := all defs h in (q :: qs, h)
        end) defs h in
      new_grammar start (fst <$> defs) ds h
  | PAT_SEARCH q => unary N_SEARCH q
  | PAT_REPEAT q n => unary (λ q, N_REPEAT q n) q
  | PAT_CLASS set => pat_new (N_CLASS set) h
  | PAT_LITERAL s => new_literal s h
  | PAT_NONTERM name _ => new_nonterm name h
  | PAT_DOT n => pat_new (N_DOT n) h
  | PAT_ERROR msg None => new_error msg None h
  | PAT_ERROR msg (Some q) => let '(q, h) := pat_alloc q h in new_error msg q h
  | PAT_EMPTYOP op => pat_new (N_EMPTYOP op) h
  | PAT_EMPTY => pat_new N_EMPTY h
  end.

(** The nodes a compilation makes, [get_pat]'s and those of the search and the
    optional operators; their operands are owned elsewhere. *)
Inductive tcall :=
| T_OPTIONAL (p : ptr)
| T_STAR (p : ptr)
| T_SET (set : vm_charset)
| T_ALT (l r : ptr)
| T_EMPTY
| T_CONCAT (l r : ptr)
| T_NONTERM (name : string)
| T_ANY (n : Z)
| T_GRAMMAR (start : string) (defs : list (string * ptr)).

Definition tcall_new (c : tcall) (h : pheap) : ptr * pheap :=
  match c with
  | T_OPTIONAL p => pat_new (N_OPTIONAL p) h
  | T_STAR p => pat_new (N_STAR p) h
  | T_SET set => pat_new (N_CLASS set) h
  | T_ALT l r => pat_new (N_ALT l r) h
  | T_EMPTY => pat_new N_EMPTY h
  | T_CONCAT l r => pat_new (N_SEQ l r) h
  | T_NONTERM name => new_nonterm name h
  | T_ANY n => pat_new (N_DOT n) h
  | T_GRAMMAR start defs => new_grammar start (fst <$> defs) (snd <$> defs) h
  end.

(** [transient], of each of them in turn: the context's array and the heap. *)
Fixpoint transients (cs : list tcall) (h : pheap) : list ptr * pheap :=
  match cs with
  | [] => ([], h)
  | c :: cs => let '(p, h) := tcall_new c h in let '(ps, h) := transients cs h in (p :: ps, h)
  end.

(** *** Ownership *)

(** The addresses among some pointers. *)
Definition somes (ps : list ptr) : list positive := omap id ps.

Lemma somes_cons p ps : somes (p :: ps) = option_list p ++ somes ps.
Proof. by destruct p. Qed.

Lemma somes_app ps qs : somes (ps ++ qs) = somes ps ++ somes qs.
Proof. apply omap_app. Qed.

Lemma somes_one p : somes [p] = option_list p.
Proof. by destruct p. Qed.

(** The strings and arrays of a node, and the nodes it owns. *)
Definition parts (bs : gmap positive block) (n : pnode) : option (list ptr * list ptr) :=
  match n with
  | N_ALT l r | N_SEQ l r => Some ([], [l; r])
  | N_STAR p | N_PLUS p | N_OPTIONAL p | N_NOT p | N_AND p | N_SEARCH p
  | N_CAP p _ | N_MEMO p _ | N_CHECK p _ _ _ | N_REPEAT p _ => Some ([], [p])
  | N_GRAMMAR start (Some na) (Some da) k =>
      match bs !! na, bs !! da with
      | Some (BPtrs ns), Some (BPtrs ds) =>
          if decide (length ns = k ∧ length ds = k) then Some (ns ++ [Some na; Some da; start], ds) else None
      | _, _ => None
      end
  | N_GRAMMAR _ _ _ _ => None
  | N_LITERAL str _ => Some ([str], [])
  | N_NONTERM name _ => Some ([name], [])
  | N_ERROR msg recover => Some ([msg], [recover])
  | N_CLASS _ | N_DOT _ | N_EMPTYOP _ | N_EMPTY => Some ([], [])
  end.

(** [owned bs p F]: the blocks reached from [p] over owning pointers are [F]. *)
Inductive owned (bs : gmap positive block) : ptr → list positive → Prop :=
| owned_null : owned bs None []
| owned_node a n ss ks F : bs !! a = Some (BNode n) → parts bs n = Some (ss, ks) →
    Forall (λ s, is_Some (bs !! s)) (somes ss) → owned_all bs ks F → owned bs (Some a) (a :: somes ss ++ F)
with owned_all (bs : gmap positive block) : list ptr → list positive → Prop :=
| owned_nil : owned_all bs [] []
| owned_cons p ps F G : owned bs p F → owned_all bs ps G → owned_all bs (p :: ps) (F ++ G).

Scheme owned_mut := Minimality for owned Sort Prop
with owned_all_mut := Minimality for owned_all Sort Prop.

Combined Scheme owned_both from owned_mut, owned_all_mut.

(** The heap without some blocks. *)
Definition without (F : list positive) (h : pheap) : pheap := with_blocks h (filter (λ x, x.1 ∉ F) (blocks h)).

Lemma without_lookup F h x : blocks (without F h) !! x = if decide (x ∈ F) then None else blocks h !! x.
Proof.
  cbn. case_decide as Hx.
  - apply map_lookup_filter_None. right. intros b _ Hn. by apply Hn.
  - destruct (blocks h !! x) as [b|] eqn:E; [by apply map_lookup_filter_Some | by apply map_lookup_filter_None; left].
Qed.

Lemma pheap_eq h1 h2 : next h1 = next h2 → (∀ x, blocks h1 !! x = blocks h2 !! x) → h1 = h2.
Proof. destruct h1, h2. cbn. intros -> H. f_equal. by apply map_eq. Qed.

Lemma without_nil h : without [] h = h.
Proof. apply pheap_eq; [done |]. intros x. rewrite without_lookup. by case_decide as H; [apply elem_of_nil in H |]. Qed.

Lemma without_app F G h : without G (without F h) = without (F ++ G) h.
Proof.
  apply pheap_eq; [done |]. intros x. rewrite !without_lookup. pose proof (elem_of_app F G x). repeat case_decide; naive_solver.
Qed.

Lemma without_perm F G h : F ≡ₚ G → without F h = without G h.
Proof. intros H. apply pheap_eq; [done |]. intros x. rewrite !without_lookup. assert (x ∈ F ↔ x ∈ G) by (by rewrite H). repeat case_decide; tauto. Qed.

Lemma free_spec p h : Forall (λ s, is_Some (blocks h !! s)) (option_list p) → free p h = Ok (without (option_list p) h).
Proof.
  destruct p as [a|]; cbn [free option_list]; intros Hp; [| by rewrite without_nil].
  apply Forall_singleton in Hp as [b Hb]. rewrite Hb. cbn_res. f_equal. apply pheap_eq; [done |]. intros x. rewrite without_lookup.
  cbn. destruct (decide (x = a)) as [-> | Hne]; [rewrite lookup_delete_eq | rewrite lookup_delete_ne by done]; case_decide as Hx; set_solver.
Qed.

(** *** Releasing *)

Section Releases.
Context (bs : gmap positive block).

(** On any heap that is [bs] on [R] and [F], [f] frees [F]. *)
Definition releases (R F : list positive) (f : pheap → res pheap) : Prop :=
  ∀ h, (∀ x, x ∈ R ++ F → blocks h !! x = bs !! x) → f h = Ok (without F h).

Lemma releases_nil R : releases R [] (λ h, mret h).
Proof. intros h _. by rewrite without_nil. Qed.

Lemma releases_perm R F G f : F ≡ₚ G → releases R F f → releases R G f.
Proof. intros HP H h Hh. rewrite <- (without_perm F G h HP). apply H. intros x. rewrite HP. apply Hh. Qed.

Lemma releases_more R R' F f : (∀ x, x ∈ R → x ∈ R' ++ F) → releases R F f → releases R' F f.
Proof. intros HR H h Hh. apply H. intros x [Hx | Hx]%elem_of_app; apply Hh; [by apply HR | apply elem_of_app; by right]. Qed.

Lemma releases_seq R F G f g : (∀ x, x ∈ F → x ∉ G) → releases R F f → releases [] G g → releases R (F ++ G) (λ h, h ← f h; g h).
Proof.
  intros Hd Hf Hg h Hh. rewrite Hf by (intros x Hx; apply Hh; rewrite !elem_of_app in *; tauto). cbn_res. rewrite Hg; [by rewrite without_app |].
  intros x Hx. cbn in Hx. rewrite without_lookup, decide_False by (intros Hx'; by eapply Hd). apply Hh. rewrite !elem_of_app in *. tauto.
Qed.

Lemma releases_free R p : Forall (λ s, is_Some (bs !! s)) (option_list p) → releases R (option_list p) (free p).
Proof.
  intros Hp h Hh. apply free_spec. rewrite Forall_forall in *. intros x Hx. rewrite Hh by (apply elem_of_app; by right). by apply Hp.
Qed.

Definition frees (p : ptr) (F : list positive) : Prop := NoDup F → ∀ fuel, (length F < fuel)%nat → releases [] F (pat_free_fuel fuel p).

(** The loop over a grammar's arrays: the rest of them from [i] on. *)
Lemma frees_loop fuel na da ds Fs : Forall2 frees ds Fs → ∀ ns N0 D0, length ns = length ds → length N0 = length D0 →
  bs !! na = Some (BPtrs (N0 ++ ns)) → bs !! da = Some (BPtrs (D0 ++ ds)) → Forall (λ s, is_Some (bs !! s)) (somes ns) →
  NoDup (na :: da :: somes ns ++ concat Fs) → (length (concat Fs) < fuel)%nat →
  releases [na; da] (somes ns ++ concat Fs) (λ h, for_each (λ (i : nat) (h : pheap),
    nm ← load (Some na) i h; h ← free nm h; d ← load (Some da) i h; pat_free_fuel fuel d h) (seq (length N0) (length ds)) h).
Proof.
  induction 1 as [| d F ds Fs Hd _ IH]; intros [|nm ns] N0 D0 Hln Hl0 Hna Hda Hns Hnd Hf; try done; [apply releases_nil |].
  cbn [concat] in *. set (G := option_list nm). rewrite somes_cons in *. fold G in Hns, Hnd |- *.
  apply Forall_app in Hns as [HGs Hns]. rewrite length_app in Hf.
  assert (releases [na; da] ((G ++ F) ++ (somes ns ++ concat Fs)) (λ h, for_each (λ (i : nat) (h : pheap),
    nm ← load (Some na) i h; h ← free nm h; d ← load (Some da) i h; pat_free_fuel fuel d h) (seq (length N0) (length (d :: ds))) h)) as Hr.
  2: { eapply releases_perm; [| exact Hr]. solve_Permutation. }
  assert (na :: da :: (G ++ somes ns) ++ F ++ concat Fs ≡ₚ na :: da :: G ++ F ++ somes ns ++ concat Fs) as HP by solve_Permutation. rewrite HP in Hnd.
  apply NoDup_cons in Hnd as [Hna' Hnd]. apply NoDup_cons in Hnd as [Hda' Hnd]. apply NoDup_app in Hnd as (HndG & HGd & Hnd).
  apply NoDup_app in Hnd as (HndF & HFd & Hnd). rewrite !not_elem_of_cons, !elem_of_app in *.
  intros h Hh. cbn [length seq for_each].
  assert (∀ h', (∀ x, x ∈ [na; da] → blocks h' !! x = bs !! x) → load (Some na) (length N0) h' = Ok nm ∧ load (Some da) (length N0) h' = Ok d) as Hload.
  { intros h' Hh'. unfold load. cbn_res. rewrite !Hh' by set_solver. rewrite Hna, Hda. cbn_res.
    rewrite list_lookup_middle, Hl0, list_lookup_middle by done. done. }
  assert ((nm ← load (Some na) (length N0) h; h ← free nm h; d ← load (Some da) (length N0) h; pat_free_fuel fuel d h) = Ok (without (G ++ F) h)) as ->.
  { destruct (Hload h) as [-> _]; [intros x Hx; apply Hh; rewrite elem_of_app; by left |]. cbn_res.
    rewrite (releases_free [] nm HGs h) by (fold G; cbn [app]; intros x Hx; apply Hh; rewrite !elem_of_app; tauto). cbn_res. fold G.
    destruct (Hload (without G h)) as [_ ->].
    { intros x Hx. rewrite without_lookup, decide_False; [apply Hh; rewrite elem_of_app; by left |]. set_solver. }
    cbn_res. rewrite (Hd HndF fuel ltac:(lia)); [by rewrite without_app |]. intros x Hx. cbn in Hx.
    rewrite without_lookup, decide_False; [apply Hh; rewrite !elem_of_app; tauto |]. intros HxG. apply (HGd x HxG). rewrite elem_of_app. tauto. }
  replace (S (length N0)) with (length (N0 ++ [nm])) by (rewrite length_app; cbn; lia).
  rewrite (IH ns (N0 ++ [nm]) (D0 ++ [d])); [by rewrite without_app | cbn in Hln; lia | rewrite !length_app; cbn; lia | by rewrite <- (assoc_L (++)) | by rewrite <- (assoc_L (++)) | done | | lia |].
  - repeat (apply NoDup_cons; split; [set_solver |]). done.
  - intros x Hx. rewrite without_lookup, decide_False; [apply Hh; rewrite !elem_of_app in *; tauto |]. rewrite !elem_of_app in *. set_solver.
Qed.

(** The fields of a node: its strings, its arrays and its parts. *)
Lemma fields_free fuel n ss ks Fs : parts bs n = Some (ss, ks) → Forall (λ s, is_Some (bs !! s)) (somes ss) →
  Forall2 frees ks Fs → NoDup (somes ss ++ concat Fs) → (length (concat Fs) < fuel)%nat →
  releases [] (somes ss ++ concat Fs) (free_fields (pat_free_fuel fuel) n).
Proof.
  assert (∀ p Fs, Forall2 frees [p] Fs → NoDup (concat Fs) → (length (concat Fs) < fuel)%nat → releases [] (concat Fs) (pat_free_fuel fuel p)) as Hone.
  { intros p Gs (F & Gs' & Hp & ->%Forall2_nil_inv_l & ->)%Forall2_cons_inv_l. cbn. rewrite app_nil_r. intros Hnd Hl. by apply Hp. }
  assert (∀ l r Fs, Forall2 frees [l; r] Fs → NoDup (concat Fs) → (length (concat Fs) < fuel)%nat →
    releases [] (concat Fs) (λ h, h ← pat_free_fuel fuel l h; pat_free_fuel fuel r h)) as Htwo.
  { intros l r Gs (F & Gs' & Hp & Hr & ->)%Forall2_cons_inv_l. cbn [concat]. rewrite NoDup_app, length_app. intros (H1 & Hd & H2) Hl.
    apply releases_seq; [done | apply Hp; [done | lia] | apply Hone; [done.. | lia]]. }
  assert (∀ Fs, Forall2 frees [] Fs → releases [] (concat Fs) (λ h, mret h)) as Hnone by (intros Gs ->%Forall2_nil_inv_l; apply releases_nil).
  intros Hparts Hss Hks Hnd Hl. destruct n as [l r | l r | q | q | q | q | q | q i | q i | q fn i fl | start na da k | q | q k | cs | str len | name inl | k | msg rc | o |];
    cbn [parts free_fields] in *; try (injection Hparts as <- <-; cbn in Hnd |- *; first [by apply Hone | by apply Htwo | by apply Hnone]).
  - destruct na as [na|], da as [da|]; try done. destruct (bs !! na) as [[| | |ns]|] eqn:Hna; try done. destruct (bs !! da) as [[| | |ds]|] eqn:Hda; try done.
    destruct (decide _) as [[Hln Hld]|]; [| done]. injection Hparts as <- <-.
    rewrite somes_app, (somes_cons (Some na)), (somes_cons (Some da)), somes_one in *. cbn [option_list app] in *.
    apply Forall_app in Hss as [Hns Hss]. apply Forall_cons in Hss as [Hna' Hss]. apply Forall_cons in Hss as [Hda' Hst].
    assert ((somes ns ++ na :: da :: option_list start) ++ concat Fs ≡ₚ (somes ns ++ concat Fs) ++ [na] ++ [da] ++ option_list start) as HP by solve_Permutation.
    eapply releases_perm; [symmetry; exact HP |]. rewrite HP in Hnd. apply (releases_more [na; da]); [set_solver |].
    apply NoDup_app in Hnd as (Hnd1 & Hd1 & Hnd2). cbn [app] in Hnd2. rewrite !NoDup_cons, elem_of_cons in Hnd2. destruct Hnd2 as (Hd2 & Hd3 & _).
    apply releases_seq; [exact Hd1 | subst k; rewrite <- Hld; eapply (frees_loop fuel na da ds Fs Hks ns [] []); try done |].
    + rewrite !NoDup_cons, elem_of_cons. split_and!; [| | done]; set_solver.
    + apply (releases_seq [] [na]); [set_solver | by apply (releases_free [] (Some na)), Forall_singleton |].
      apply (releases_seq [] [da]); [set_solver | by apply (releases_free [] (Some da)), Forall_singleton | by apply releases_free].
  - injection Hparts as <- <-. apply Forall2_nil_inv_l in Hks as ->. rewrite somes_one in *. cbn. rewrite app_nil_r. by apply releases_free.
  - injection Hparts as <- <-. apply Forall2_nil_inv_l in Hks as ->. rewrite somes_one in *. cbn. rewrite app_nil_r. by apply releases_free.
  - injection Hparts as <- <-. rewrite somes_one in *. apply NoDup_app in Hnd as (H1 & Hd & H2).
    apply releases_seq; [done | by apply releases_free | by apply Hone].
Qed.

(** A pattern's blocks, each once and no other. *)
Lemma owned_frees p F : owned bs p F → frees p F.
Proof.
  revert p F. apply (owned_mut bs frees (λ ks F, ∃ Fs, F = concat Fs ∧ Forall2 frees ks Fs)).
  - intros _ [|fuel] Hf; [cbn in Hf; lia |]. apply (releases_nil []).
  - intros a n ss ks F Ha Hparts Hss _ (Fs & -> & Hks) Hnd [|fuel] Hf; [lia |]. cbn [length] in Hf. rewrite length_app in Hf.
    apply NoDup_cons in Hnd as [Hna Hnd]. intros h Hh. cbn [pat_free_fuel]. unfold get_node. rewrite Hh, Ha by (cbn; by left). cbn_res.
    rewrite (fields_free fuel n ss ks Fs Hparts Hss Hks Hnd ltac:(lia) h) by (intros x Hx; apply Hh; cbn in *; by right). cbn_res.
    rewrite free_spec; [rewrite without_app; f_equal; apply without_perm; cbn; by rewrite Permutation_app_comm |].
    apply Forall_singleton. rewrite without_lookup, decide_False, Hh, Ha by (done || (cbn; by left)). by eexists.
  - exists []. by split.
  - intros p ps F G _ Hp _ (Fs & -> & Hps). exists (F :: Fs). split; [done | by constructor].
Qed.

(** The names of a transient grammar. *)
Lemma names_loop na ns : ∀ N0, bs !! na = Some (BPtrs (N0 ++ ns)) → Forall (λ s, is_Some (bs !! s)) (somes ns) → NoDup (na :: somes ns) →
  releases [na] (somes ns) (λ h, for_each (λ (i : nat) (h : pheap), nm ← load (Some na) i h; free nm h) (seq (length N0) (length ns)) h).
Proof.
  induction ns as [|nm ns IH]; intros N0 Hna Hns Hnd; [apply releases_nil |]. rewrite somes_cons in *.
  apply Forall_app in Hns as [HG Hns]. apply NoDup_cons in Hnd as [Hni Hnd]. rewrite elem_of_app in Hni. apply NoDup_app in Hnd as (HndG & Hd & Hnd).
  intros h Hh. cbn [length seq for_each]. unfold load at 1. cbn_res. rewrite Hh, Hna by by left. cbn_res. rewrite list_lookup_middle by done. cbn_res.
  rewrite (releases_free [na] nm HG h) by (intros x Hx; apply Hh; set_solver). cbn_res. rewrite <- without_app.
  specialize (IH (N0 ++ [nm])). rewrite length_app, Nat.add_1_r, <- app_assoc in IH. apply IH; [done.. | by apply NoDup_cons; naive_solver |].
  intros x Hx. rewrite without_lookup, decide_False; [apply Hh; set_solver |]. intros Hx'. cbn in Hx. apply elem_of_cons in Hx.
  destruct Hx as [-> | Hx]; [naive_solver | by destruct (Hd x Hx')].
Qed.

(** The node and its strings, not the nodes it points to. *)
Lemma transient_frees a n ss ks : bs !! a = Some (BNode n) → parts bs n = Some (ss, ks) → Forall (λ s, is_Some (bs !! s)) (somes ss) →
  NoDup (a :: somes ss) → releases [] (a :: somes ss) (transient_free (Some a)).
Proof.
  intros Ha Hparts Hss Hnd. apply NoDup_cons in Hnd as [Hna Hnd].
  apply (releases_perm _ (somes ss ++ [a])); [by rewrite Permutation_app_comm |]. intros h Hh. unfold transient_free, get_node.
  rewrite Hh, Ha by set_solver. cbn_res.
  match goal with |- context [mbind _ ?s] => assert (s = Ok (without (somes ss) h)) as -> end.
  2: { cbn_res. rewrite free_spec; [by rewrite without_app |]. apply Forall_singleton. rewrite without_lookup, decide_False, Hh, Ha by set_solver. by eexists. }
  clear Hna. assert (∀ x, x ∈ [] ++ somes ss → blocks h !! x = bs !! x) as Hh' by (intros x Hx; apply Hh; set_solver). clear Hh.
  destruct n; cbn [parts] in Hparts; try (injection Hparts as <- <-; first [apply (releases_nil [] h); done | rewrite somes_one in *; by apply (releases_free [])]).
  destruct names as [na|], defs as [da|]; try done. destruct (bs !! na) as [[| | |ns]|] eqn:Hna; try done. destruct (bs !! da) as [[| | |ds]|] eqn:Hda; try done.
  destruct (decide _) as [[Hln Hld]|]; [| done]. injection Hparts as <- <-.
  rewrite somes_app, (somes_cons (Some na)), (somes_cons (Some da)), somes_one in *. cbn [option_list app] in *.
  apply Forall_app in Hss as [Hns Hss]. apply Forall_cons in Hss as [Hna' Hss]. apply Forall_cons in Hss as [Hda' Hst].
  apply NoDup_app in Hnd as (Hnd1 & Hd1 & Hnd2). cbn in Hd1, Hnd2. rewrite !NoDup_cons, elem_of_cons in Hnd2. destruct Hnd2 as (Hd2 & Hd3 & _).
  revert h Hh'. change (releases [] (somes ns ++ [na] ++ [da] ++ option_list start) (λ h,
    h ← for_each (λ (i : nat) (h : pheap), nm ← load (Some na) i h; free nm h) (seq 0 ndefs) h;
    h ← free (Some na) h; h ← free (Some da) h; free start h)).
  apply (releases_more [na]); [set_solver |]. apply releases_seq; [exact Hd1 | subst ndefs; apply (names_loop na ns []); try done |].
  - apply NoDup_cons. set_solver.
  - apply (releases_seq [] [na]); [set_solver | by apply (releases_free [] (Some na)), Forall_singleton |].
    apply (releases_seq [] [da]); [set_solver | by apply (releases_free [] (Some da)), Forall_singleton | by apply releases_free].
Qed.

Lemma owned_allocated : (∀ p F, owned bs p F → ∀ x, x ∈ F → is_Some (bs !! x)) ∧ (∀ ks F, owned_all bs ks F → ∀ x, x ∈ F → is_Some (bs !! x)).
Proof.
  apply owned_both; try set_solver. intros a n ss ks F Ha _ Hss _ IH x [-> | [Hx | Hx]%elem_of_app]%elem_of_cons.
  - by eexists.
  - rewrite Forall_forall in Hss. by apply Hss.
  - by apply IH.
Qed.
End Releases.

(** *** What the constructors build *)

(** The same block, up to where a non-terminal was inlined from. *)
Definition relinked (b b' : option block) : Prop :=
  b' = b ∨ ∃ nm i i', b = Some (BNode (N_NONTERM nm i)) ∧ b' = Some (BNode (N_NONTERM nm i')).

Lemma relinked_data b b' : relinked b b' → (∀ n, b ≠ Some (BNode n)) → b' = b.
Proof. intros [-> | (nm & i & i' & -> & _)] H; [done | by destruct (H _ eq_refl)]. Qed.

Lemma relinked_some b b' : relinked b b' → is_Some b → is_Some b'.
Proof. intros [-> | (nm & i & i' & _ & ->)] H; [done | by eexists]. Qed.

Lemma parts_relinked bs bs' n ss ks : parts bs n = Some (ss, ks) → (∀ x, x ∈ somes ss → relinked (bs !! x) (bs' !! x)) → parts bs' n = Some (ss, ks).
Proof.
  intros H Hx. destruct n; try done. cbn [parts] in *. destruct names as [na|], defs as [da|]; try done.
  destruct (bs !! na) as [[| | |ns]|] eqn:Hna; try done. destruct (bs !! da) as [[| | |ds]|] eqn:Hda; try done.
  destruct (decide _); [| done]. injection H as <- <-. rewrite somes_app, (somes_cons (Some na)), (somes_cons (Some da)) in Hx.
  assert (bs' !! na = bs !! na) as -> by (eapply relinked_data; [apply Hx; set_solver | by rewrite Hna]).
  assert (bs' !! da = bs !! da) as -> by (eapply relinked_data; [apply Hx; set_solver | by rewrite Hda]). rewrite Hna, Hda. by rewrite decide_True.
Qed.

Lemma owned_relinked_both bs bs' : (∀ p F, owned bs p F → (∀ x, x ∈ F → relinked (bs !! x) (bs' !! x)) → owned bs' p F) ∧
  (∀ ks F, owned_all bs ks F → (∀ x, x ∈ F → relinked (bs !! x) (bs' !! x)) → owned_all bs' ks F).
Proof.
  assert (∀ a n ss ks F, bs !! a = Some (BNode n) → parts bs n = Some (ss, ks) → Forall (λ s, is_Some (bs !! s)) (somes ss) →
    ((∀ x, x ∈ F → relinked (bs !! x) (bs' !! x)) → owned_all bs' ks F) →
    (∀ x, x ∈ a :: somes ss ++ F → relinked (bs !! x) (bs' !! x)) → owned bs' (Some a) (a :: somes ss ++ F)) as Hnode.
  { intros a n ss ks F Ha Hp Hss IH Hx. assert (∃ n', bs' !! a = Some (BNode n') ∧ parts bs n' = Some (ss, ks)) as (n' & Ha' & Hp').
    { destruct (Hx a) as [Ea | (nm & i & i' & Ea & Ea')]; [by left | exists n; by rewrite Ea |]. rewrite Ha in Ea. injection Ea as ->.
      by exists (N_NONTERM nm i'). }
    apply (owned_node bs' a n' ss ks F); [exact Ha' | eapply parts_relinked; [exact Hp' |] | | apply IH].
    - intros x Hin. apply Hx. set_solver.
    - rewrite Forall_forall in *. intros s Hs. eapply relinked_some; [apply Hx; set_solver | by apply Hss].
    - intros x Hin. apply Hx. set_solver. }
  apply (owned_both bs (λ p F, (∀ x, x ∈ F → relinked (bs !! x) (bs' !! x)) → owned bs' p F)
    (λ ks F, (∀ x, x ∈ F → relinked (bs !! x) (bs' !! x)) → owned_all bs' ks F)).
  - intros _. apply owned_null.
  - intros a n ss ks F Ha Hp Hss _ IH. by apply (Hnode a n ss ks F).
  - intros _. apply owned_nil.
  - intros p ps F G _ IHp _ IHps Hx. apply owned_cons; [apply IHp | apply IHps]; set_solver.
Qed.

(** [q] was built from [h] to [h1], of new blocks [F]. *)
Record built (own : gmap positive block → list positive → Prop) (h : pheap) (F : list positive) (h1 : pheap) : Prop := {
  bu_own : own (blocks h1) F;
  bu_nodup : NoDup F;
  bu_new : ∀ x, x ∈ F → (next h <= x < next h1)%positive;
  bu_old : ∀ x, x ∉ F → blocks h1 !! x = blocks h !! x;
  bu_next : (next h <= next h1)%positive;
}.

Notation built_ptr h q F h1 := (built (λ bs G, owned bs q G) h F h1).
Notation built_list h ks F h1 := (built (λ bs G, owned_all bs ks G) h F h1).

Definition unused (h : pheap) : Prop := ∀ x, (next h <= x)%positive → blocks h !! x = None.

Lemma built_unused own h F h1 : unused h → built own h F h1 → unused h1.
Proof. intros Hu [_ _ Hnew Hold Hn] x Hx. rewrite Hold by (intros Hin; apply Hnew in Hin; lia). apply Hu. lia. Qed.

Lemma built_nil h : built_list h [] [] h.
Proof. split; [apply owned_nil | by apply NoDup_nil | set_solver | done | lia]. Qed.

Lemma built_cons h p F h1 ps G h2 : built_ptr h p F h1 → built_list h1 ps G h2 → built_list h (p :: ps) (F ++ G) h2.
Proof.
  intros [H1 H2 H3 H4 H5] [K1 K2 K3 K4 K5]. assert (∀ x, x ∈ F → x ∉ G) as Hd by (intros x Hx Hx'; apply H3 in Hx; apply K3 in Hx'; lia). split.
  - apply owned_cons; [| exact K1]. apply (proj1 (owned_relinked_both (blocks h1) _) p F H1). intros x Hx. left. by rewrite K4 by by apply Hd.
  - by apply NoDup_app.
  - intros x [Hx | Hx]%elem_of_app; [apply H3 in Hx | apply K3 in Hx]; lia.
  - intros x Hx. rewrite elem_of_app in Hx. rewrite K4, H4; tauto.
  - lia.
Qed.

(** [p] is a new node over [ks], its strings new as well. *)
Definition made (h : pheap) (ks : list ptr) (p : ptr) (h' : pheap) : Prop :=
  ∃ n ss, p = Some (next h) ∧ blocks h' !! next h = Some (BNode n) ∧ parts (blocks h') n = Some (ss, ks) ∧ NoDup (somes ss) ∧
    (∀ s, s ∈ somes ss → is_Some (blocks h' !! s) ∧ (next h < s < next h')%positive) ∧
    (∀ x, x ≠ next h → x ∉ somes ss → blocks h' !! x = blocks h !! x) ∧ (next h < next h')%positive.

(** A node over parts that were built. *)
Lemma made_built h ks F h1 p h2 : built_list h ks F h1 → made h1 ks p h2 → ∃ F', built_ptr h p F' h2.
Proof.
  intros [H1 H2 H3 H4 H5] (n & ss & -> & Ha & Hp & Hnd & Hs & Hold & Hn). set (a := next h1) in *. exists (a :: somes ss ++ F).
  assert (∀ x, x ∈ F → x ≠ a ∧ x ∉ somes ss) as Hd.
  { intros x Hx. apply H3 in Hx. split; [lia |]. intros Hx'. apply Hs in Hx' as [_ Hx']. lia. }
  split.
  - apply (owned_node _ a n ss ks F Ha Hp); [apply Forall_forall; intros s Hin; by apply Hs |].
    apply (proj2 (owned_relinked_both (blocks h1) _) ks F H1). intros x Hx. left. by apply Hold; apply Hd.
  - apply NoDup_cons. split; [| apply NoDup_app; split; [done |]; split; [intros s Hin Hx; by apply (Hd s Hx) | done]].
    intros [Hin | Hin]%elem_of_app; [apply Hs in Hin as [_ Hin]; lia | by destruct (Hd a Hin)].
  - intros x [-> | [Hx | Hx]%elem_of_app]%elem_of_cons; [lia | apply Hs in Hx as [_ Hx]; lia | apply H3 in Hx; lia].
  - intros x Hx. rewrite not_elem_of_cons, elem_of_app in Hx. rewrite Hold, H4; tauto.
  - lia.
Qed.

(** A node without strings. *)
Lemma pat_new_made h ks n : (∀ bs, parts bs n = Some ([], ks)) → made h ks (pat_new n h).1 (pat_new n h).2.
Proof.
  intros Hp. exists n, []. cbn. rewrite lookup_insert_eq. do 3 (split; [done |]). split; [by apply NoDup_nil |].
  split; [set_solver | split; [| lia]]. intros x Hx _. by rewrite lookup_insert_ne.
Qed.

(** A node with one string, allocated after it. *)
Lemma string_made h ks n n0 b (a := next h) : (∀ bs, parts bs n = Some ([Some (Pos.succ a)], ks)) →
  made h ks (Some a) (store a (BNode n) (alloc b (alloc (BNode n0) h).2).2).
Proof.
  intros Hp. exists n, [Some (Pos.succ a)]. cbn [alloc fst snd next blocks store with_blocks]. fold a. rewrite lookup_insert_eq.
  do 3 (split; [done |]). split; [apply NoDup_singleton |]. split; [| split; [| lia]].
  - intros s ->%list_elem_of_singleton. rewrite lookup_insert_ne, lookup_insert_eq by lia. split; [by eexists | lia].
  - intros x Hx Hxs. cbn in Hxs. rewrite !lookup_insert_ne by set_solver. done.
Qed.

Lemma strdup_all_spec names h : ∃ ss, (strdup_all names h).1 = Some <$> ss ∧ length ss = length names ∧ NoDup ss ∧ (next h <= next (strdup_all names h).2)%positive ∧
  (∀ s, s ∈ ss → is_Some (blocks (strdup_all names h).2 !! s) ∧ (next h <= s < next (strdup_all names h).2)%positive) ∧
  (∀ x, x ∉ ss → blocks (strdup_all names h).2 !! x = blocks h !! x).
Proof.
  revert h. induction names as [|nm names IH]; intros h.
  { exists []. split; [done |]. split; [done |]. split; [by apply NoDup_nil |]. split; [cbn; lia |]. split; [set_solver | done]. }
  cbn [strdup_all alloc]. set (h' := mk_pheap _ _). destruct (IH h') as (ss & H1 & H2 & H3 & H4 & H5 & H6).
  destruct (strdup_all names h') as [ps h2]. cbn [fst snd] in *. subst ps. exists (next h :: ss). cbn [next blocks h'] in *.
  assert (next h ∉ ss) as Hni by (intros Hin; apply H5 in Hin as [_ Hin]; cbn in Hin; lia).
  split; [done |]. split; [cbn; congruence |]. split; [by apply NoDup_cons |]. split; [subst h'; cbn in *; lia |]. split.
  - intros s [-> | Hs]%elem_of_cons; [| apply H5 in Hs as [Hs Hs']; split; [done | subst h'; cbn in *; lia]].
    rewrite H6 by done. subst h'. cbn. rewrite lookup_insert_eq. split; [by eexists | cbn in *; lia].
  - intros x Hx. rewrite not_elem_of_cons in Hx. rewrite H6 by tauto. subst h'. cbn. by rewrite lookup_insert_ne by (destruct Hx; congruence).
Qed.

Lemma new_grammar_made h1 start names ks (g := new_grammar start names ks h1) : length ks = length names → made h1 ks g.1 g.2.
Proof.
  intros Hl. set (a := next h1). set (s := Pos.succ a). set (na := Pos.succ s). set (da := Pos.succ na). subst g.
  unfold new_grammar. cbn [alloc]. fold a s na da.
  match goal with |- context [strdup_all names ?x] => set (h4 := x) end. assert (next h4 = Pos.succ da) as Hn4 by done. destruct (strdup_all_spec names h4) as (ss & H1 & H2 & H3 & H4 & H5 & H6).
  destruct (strdup_all names h4) as [ns h5]. cbn [fst snd] in *. subst ns. rewrite Hn4 in H4, H5.
  assert (∀ x, (x <= da)%positive → x ∉ ss) as Hss by (intros x Hx Hin; apply H5 in Hin as [_ Hin]; lia).
  assert (∀ l : list positive, somes (Some <$> l) = l) as Hsm by (intros l; induction l as [|y l IHl]; [done |]; rewrite fmap_cons, somes_cons, IHl; done).
  set (n := N_GRAMMAR (Some s) (Some na) (Some da) (length names)).
  set (h6 := store a (BNode n) (store da (BPtrs ks) (store na (BPtrs (Some <$> ss)) h5))).
  assert (somes ((Some <$> ss) ++ [Some na; Some da; Some s]) = ss ++ [na; da; s]) as Hsomes by by rewrite somes_app, Hsm.
  assert (blocks h6 !! na = Some (BPtrs (Some <$> ss))) as Hna
    by (cbn; rewrite !lookup_insert_ne by (subst na da s; lia); by rewrite lookup_insert_eq).
  assert (blocks h6 !! da = Some (BPtrs ks)) as Hda.
  { cbn. rewrite lookup_insert_ne by (subst na da s; lia). by rewrite lookup_insert_eq. }
  assert (blocks h6 !! s = Some (BString start)) as Hs.
  { cbn. rewrite !lookup_insert_ne by (subst na da s; lia). rewrite H6 by (apply Hss; subst na da; lia). cbn.
    rewrite !lookup_insert_ne by (subst na da; lia). by rewrite lookup_insert_eq. }
  change (made h1 ks (Some a) h6). exists n, ((Some <$> ss) ++ [Some na; Some da; Some s]). rewrite Hsomes. fold a.
  split; [done |]. split; [by apply lookup_insert_eq |].
  split; [cbn [parts n]; rewrite Hna, Hda; by rewrite decide_True by (rewrite length_fmap; done) |]. split; [| split; [| split]].
  - apply NoDup_app. split; [done |]. split; [intros x Hx Hin; apply (Hss x); [| done]; set_unfold; subst na da s; naive_solver lia |].
    rewrite !NoDup_cons. split_and!; [.. | by apply NoDup_nil]; set_unfold; subst na da s; naive_solver lia.
  - intros x [Hx | Hx]%elem_of_app.
    + pose proof (H5 x Hx) as [Hal Hr]. split; [| cbn; subst na da s; lia]. cbn. rewrite !lookup_insert_ne by (subst na da s; lia). done.
    + assert (x = na ∨ x = da ∨ x = s) as Hor by (set_unfold; naive_solver). split; [destruct Hor as [-> | [-> | ->]]; eauto |].
      cbn. subst na da s. naive_solver lia.
  - intros x Hxa Hx. rewrite elem_of_app in Hx. assert (x ≠ na ∧ x ≠ da ∧ x ≠ s ∧ x ∉ ss) as (? & ? & ? & ?) by (set_unfold; naive_solver).
    cbn. rewrite !lookup_insert_ne by done. rewrite H6 by done. cbn. by rewrite !lookup_insert_ne by done.
  - cbn. subst na da s. lia.
Qed.

(** Building a pattern takes new blocks, which its address owns. *)
Lemma pat_alloc_built p : ∀ h, ∃ F, built_ptr h (pat_alloc p h).1 F (pat_alloc p h).2.
Proof.
  assert (∀ h q F h1, built_ptr h q F h1 → built_list h [q] (F ++ []) h1) as Hone by (intros h q F h1 Hb; by eapply built_cons, built_nil).
  assert (∀ q (f : ptr → pnode), (∀ h, ∃ F, built_ptr h (pat_alloc q h).1 F (pat_alloc q h).2) → (∀ q bs, parts bs (f q) = Some ([], [q])) →
    ∀ h, ∃ F, let r := (let '(q, h) := pat_alloc q h in pat_new (f q) h) in built_ptr h r.1 F r.2) as Hun.
  { intros q f IH Hf h. destruct (IH h) as [F Hb]. destruct (pat_alloc q h) as [a h1]. cbn [fst snd] in Hb. eapply made_built; [by apply Hone | by apply pat_new_made]. }
  assert (∀ l r (f : ptr → ptr → pnode), (∀ h, ∃ F, built_ptr h (pat_alloc l h).1 F (pat_alloc l h).2) → (∀ h, ∃ F, built_ptr h (pat_alloc r h).1 F (pat_alloc r h).2) →
    (∀ l r bs, parts bs (f l r) = Some ([], [l; r])) →
    ∀ h, ∃ F, let x := (let '(l, h) := pat_alloc l h in let '(r, h) := pat_alloc r h in pat_new (f l r) h) in built_ptr h x.1 F x.2) as Htwo.
  { intros l r f IHl IHr Hf h. destruct (IHl h) as [F Hb]. destruct (pat_alloc l h) as [a h1]. cbn [fst snd] in Hb.
    destruct (IHr h1) as [G Hc]. destruct (pat_alloc r h1) as [b h2]. cbn [fst snd] in Hc.
    eapply made_built; [eapply built_cons; [exact Hb | by apply Hone] | by apply pat_new_made]. }
  assert (∀ h n, (∀ bs, parts bs n = Some ([], [])) → ∃ F, built_ptr h (pat_new n h).1 F (pat_new n h).2) as Hleaf
    by (intros h n Hn; eapply made_built; [apply built_nil | by apply pat_new_made]).
  induction p using pat_ind'; intros h; cbn [pat_alloc];
    try (by apply Hleaf); try (by apply (Htwo _ _ N_ALT)); try (by apply (Htwo _ _ N_SEQ)); try (by eapply Hun).
  - set (all := fix all (defs : list (string * pat)) (h : pheap) : list ptr * pheap := match defs with [] => ([], h) | (_, d) :: defs => _ end).
    assert (∃ F, built_list h (all defs h).1 F (all defs h).2 ∧ length (all defs h).1 = length defs) as (F & Hb & Hl).
    { clear -H. revert h. induction H as [|[nm d] defs IHd _ IH]; intros h; [by exists []; split; [apply built_nil |] |]. cbn [all].
      destruct (IHd h) as [F Hb]. cbn [snd] in *. destruct (pat_alloc d h) as [q h1]. cbn [fst snd] in *.
      destruct (IH h1) as (G & Hc & Hl). fold all. destruct (all defs h1) as [qs h2]. cbn [fst snd] in *. exists (F ++ G).
      split; [by eapply built_cons | cbn; congruence]. }
    destruct (all defs h) as [ds h1]. cbn [fst snd] in *. eapply made_built; [exact Hb | apply new_grammar_made; by rewrite length_fmap].
  - eapply made_built; [apply built_nil | by apply (string_made h [] (N_LITERAL (Some (Pos.succ (next h))) (Z.of_nat (length s))))].
  - eapply made_built; [apply built_nil | by apply (string_made h [] (N_NONTERM (Some (Pos.succ (next h))) None))].
  - eapply made_built; [apply built_nil | by apply (string_made h [] (N_NONTERM (Some (Pos.succ (next h))) None))].
  - eapply made_built; [| by apply (string_made h [None] (N_ERROR (Some (Pos.succ (next h))) None))].
    apply (built_cons h None [] h []); [split; [apply owned_null | by apply NoDup_nil | set_solver | done | lia] | apply built_nil].
  - destruct (IHp h) as [F Hb]. destruct (pat_alloc p h) as [q h1]. cbn [fst snd] in *.
    eapply made_built; [by apply Hone | by apply (string_made h1 [q] (N_ERROR (Some (Pos.succ (next h1))) q))].
Qed.

Lemma owned_size bs p F : owned bs p F → NoDup F → (length F <= size bs)%nat.
Proof.
  intros Ho Hnd. rewrite <- size_dom. rewrite <- (size_list_to_set (C := gset positive) F Hnd). apply subseteq_size.
  intros x Hx. apply elem_of_list_to_set in Hx. apply elem_of_dom. by eapply (proj1 (owned_allocated bs)).
Qed.

Lemma tcall_made c h : ∃ ks, made h ks (tcall_new c h).1 (tcall_new c h).2.
Proof.
  destruct c; cbn [tcall_new]; try (eexists; by apply pat_new_made).
  - exists []. by apply (string_made h [] (N_NONTERM (Some (Pos.succ (next h))) None)).
  - eexists. apply new_grammar_made. by rewrite !length_fmap.
Qed.

(** The transients are new blocks; whatever the children and the links are by
    then, the clean-up frees them and nothing else. *)
Lemma transients_release cs : ∀ h (h1 := (transients cs h).2), ∃ F, (next h <= next h1)%positive ∧ NoDup F ∧ (∀ x, x ∈ F → (next h <= x < next h1)%positive) ∧
  (∀ x, x ∉ F → blocks h1 !! x = blocks h !! x) ∧
  ∀ bs, (∀ x, x ∈ F → relinked (blocks h1 !! x) (bs !! x)) → releases bs [] F (pctx_cleanup (transients cs h).1).
Proof.
  induction cs as [|c cs IH]; intros h.
  { exists []. split; [cbn; lia |]. split; [by apply NoDup_nil |]. split; [set_solver |]. split; [done |]. intros bs _. apply releases_nil. }
  cbn [transients]. destruct (tcall_made c h) as [ks (n & ss & Hp & Ha & Hparts & Hnd & Hs & Hold & Hn)]. destruct (tcall_new c h) as [p h1].
  cbn [fst snd] in *. subst p. destruct (IH h1) as (F & Hle & HndF & Hnew & HoldF & Hrel). destruct (transients cs h1) as [ps h2]. cbn [fst snd] in *.
  set (a := next h) in *. set (G := a :: somes ss). assert (∀ x, x ∈ G → (a <= x < next h1)%positive) as HG.
  { intros x [-> | Hx]%elem_of_cons; [lia | apply Hs in Hx as [_ Hx]; lia]. }
  assert (∀ x, x ∈ G → x ∉ F) as Hd by (intros x Hx Hx'; apply HG in Hx; apply Hnew in Hx'; lia).
  assert (NoDup G) as HndG by (apply NoDup_cons; split; [intros Hin; apply Hs in Hin as [_ Hin]; lia | done]).
  exists (G ++ F). split; [lia |]. split; [by apply NoDup_app |].
  split; [intros x [Hx | Hx]%elem_of_app; [apply HG in Hx | apply Hnew in Hx]; lia |]. split.
  { intros x Hx. unfold G in Hx. rewrite elem_of_app, elem_of_cons in Hx. rewrite HoldF by tauto. apply Hold; tauto. }
  intros bs Hbs. apply releases_seq; [done | | apply Hrel; intros x Hx; apply Hbs, elem_of_app; by right].
  assert (∀ x, x ∈ G → relinked (blocks h1 !! x) (bs !! x)) as Hbs1 by (intros x Hx; rewrite <- HoldF by (by apply Hd); apply Hbs, elem_of_app; by left).
  assert (∃ n', bs !! a = Some (BNode n') ∧ parts (blocks h1) n' = Some (ss, ks)) as (n' & Ha' & Hp').
  { destruct (Hbs1 a ltac:(by left)) as [E | (nm & i & i' & E & E')]; [exists n; by rewrite E | rewrite Ha in E; injection E as ->; by exists (N_NONTERM nm i')]. }
  apply (transient_frees bs a n' ss ks Ha'); [| | exact HndG].
  - eapply parts_relinked; [exact Hp' |]. intros x Hx. apply Hbs1. by right.
  - apply Forall_forall. intros s Hin. eapply relinked_some; [apply Hbs1; by right | by apply Hs].
Qed.

(** ** Theorems *)

(** C18. [itree_free] ends on every tree, well-formed or not, and frees each node
    with its group once, from the lowest key to the highest: the shifts it
    applies and the rotations it makes lose no node. *)
Theorem itree_free_total {V} (t : @itree V) : itree_free t = Ok (groups (root t)).
Proof. apply itree_free_enough. lia. Qed.

(** C22. Patterns do not leak and are not freed twice.  A client builds a pattern
    with the constructors in a heap [h]; a compilation makes transient nodes over
    any operands; meanwhile the links of non-terminals to their definitions are
    set to anything.  Then [pctx_cleanup] frees the transients, with the strings
    and arrays they own, and nothing else; [pat_free] frees the pattern, each
    block once, wherever the links point; and what is left is what [h] had. *)
Theorem pat_free_exact p cs h (a := (pat_alloc p h).1) (h1 := (pat_alloc p h).2) (h2 := (transients cs h1).2) h3 :
  unused h → (∀ x, relinked (blocks h2 !! x) (blocks h3 !! x)) →
  ∃ h4 h5, pctx_cleanup (transients cs h1).1 h3 = Ok h4 ∧ (∀ x, blocks h4 !! x = (if decide (next h1 <= x < next h2)%positive then None else blocks h3 !! x)) ∧
    pat_free a h4 = Ok h5 ∧ ∀ x, blocks h5 !! x = (if decide (next h <= x)%positive then None else blocks h3 !! x).
Proof.
  intros Hu Hr. destruct (pat_alloc_built p h) as [F Hb]. pose proof (built_unused _ _ _ _ Hu Hb) as Hu1. destruct Hb as [Ho Hnd Hnew Hold Hn].
  fold a h1 in Ho, Hnew, Hold, Hn, Hu1. destruct (transients_release cs h1) as (G & Hle & HndG & HnewG & HoldG & Hrel). fold h2 in Hle, HnewG, HoldG, Hrel.
  assert (∀ x, (next h <= x)%positive → x ∉ F ++ G → blocks h3 !! x = None) as Hfresh.
  { intros x Hx Hni. rewrite elem_of_app in Hni. destruct (Hr x) as [E | (? & ? & ? & E & _)]; rewrite HoldG, Hold, Hu in E by tauto; congruence. }
  assert (∀ x, x ∈ F → x ∉ G) as Hd by (intros x Hx Hx'; apply Hnew in Hx; apply HnewG in Hx'; lia).
  exists (without G h3), (without F (without G h3)). split; [apply (Hrel (blocks h3)); by intros |]. split; [| split].
  - intros x. rewrite without_lookup. destruct (decide (x ∈ G)) as [Hx | Hx]; [by rewrite decide_True by by apply HnewG |].
    case_decide as Hin; [| done]. apply Hfresh; [lia |]. rewrite elem_of_app. intros [Hx' | Hx']; [apply Hnew in Hx'; lia | done].
  - assert (owned (blocks (without G h3)) a F) as Ho2.
    { apply (proj1 (owned_relinked_both (blocks h1) _) a F Ho). intros x Hx. rewrite without_lookup, decide_False by by apply Hd.
      rewrite <- (HoldG x) by by apply Hd. apply Hr. }
    apply (owned_frees _ a F Ho2 Hnd); [pose proof (owned_size _ _ _ Ho2 Hnd); lia | done].
  - intros x. rewrite without_app, without_lookup. pose proof (elem_of_app G F x) as HGF. case_decide as Hx.
    + rewrite decide_True; [done |]. destruct (proj1 HGF Hx) as [Hx' | Hx']; [apply HnewG in Hx' | apply Hnew in Hx']; lia.
    + case_decide as Hin; [| done]. apply Hfresh; [done |]. rewrite elem_of_app. tauto.
Qed.

(** A grammar whose reference to [A] has been linked, and the nodes of a search
    and of an optional made over it. *)
Definition linked_grammar : pat := PAT_GRAMMAR "S"
  [("S"%string, PAT_SEQ (PAT_NONTERM "A" None) (PAT_ERROR "no x" (Some (PAT_STAR (PAT_LITERAL [120%Z])))));
   ("A"%string, PAT_REPEAT (PAT_DOT 1) 2)].
Definition client_heap : pheap := mk_pheap {[1%positive := BString "client"]} 2.
Definition over_grammar : list tcall := [T_OPTIONAL (Some 9%positive); T_NONTERM "S"; T_GRAMMAR "S" [("S"%string, Some 18%positive)]].

Lemma pat_free_exact_witness (h1 := (pat_alloc linked_grammar client_heap).2) (ts := transients over_grammar h1) :
  ∃ h4 h5, pctx_cleanup ts.1 (store 2 (BNode (N_NONTERM (Some 3%positive) (Some 11%positive))) ts.2) = Ok h4 ∧ pat_free (Some 12%positive) h4 = Ok h5 ∧
    ∀ x, blocks h5 !! x = blocks client_heap !! x.
Proof.
  assert (unused client_heap) as Hu by (intros x Hx; cbn in *; by rewrite lookup_singleton_ne by lia).
  destruct (pat_free_exact linked_grammar over_grammar client_heap (store 2 (BNode (N_NONTERM (Some 3%positive) (Some 11%positive))) ts.2)) as (h4 & h5 & H1 & _ & H3 & H4).
  - exact Hu.
  - intros x. destruct (decide (x = 2%positive)) as [-> | Hx]; [right; exists (Some 3%positive), None, (Some 11%positive); split; vm_compute; reflexivity |].
    left. cbn [store with_blocks blocks]. by rewrite lookup_insert_ne.
  - exists h4, h5. split; [exact H1 | split; [exact H3 |]]. intros x. rewrite H4. cbn [next client_heap]. case_decide as Hx; [by rewrite Hu |].
    replace x with 1%positive by lia. vm_compute. reflexivity.
Defined.
